(* ===== verification/_CoqProject ===== *)
-Q . S2P
Prelude.v
GoStd.v
Api.v
LabelSelectors.v
NodeMatch.v
Models.v
ArchConstraints.v
Lru.v
LruRing.v
ExpirableLru.v
SimpleLru.v
CelEval.v
Events.v
PodModel.v
PodTheorems.v
PodReconciler.v
ReconcilerTheorems.v
Webhook.v
Validation.v
CelSchema.v
Admission.v
Status.v
Conversion.v
DeepCopy.v
DeepCopyTheorems.v
ImageInspect.v
Prog.v
Operator.v
OperatorTheorems.v
OperatorTraces.v
EnoexecHandler.v
Teardown.v
Bpf.v
Tracepoint.v
TracepointUser.v
EnoexecDaemon.v
GlobMatch.v
ImageAuth.v
Inspector.v
Transparency.v
CacheConcurrency.v
Metrics.v
Informers.v
Manifests.v
Permissions.v
Apply.v
Watches.v
Main.v
Boot.v
System.v
PodQueue.v
PodDrain.v
ConfigLag.v
EventFlow.v
EventRuns.v
SystemRuns.v
Witnesses.v
SystemWitnesses.v
ClusterWitnesses.v
FlowWitnesses.v
