(* ===== verification/Prelude.v ===== *)
(** * Multiarch Tuning Operator: a verification library

    The operator makes clusters with nodes of several CPU architectures usable
    for pods whose images exist only for some of them.  Its parts, and how they
    work together:

    - a _mutating webhook_ holds every new pod with a scheduling gate
      ([scheduling_gate_mutating_webhook.go]);
    - the _pod reconciler_ inspects the images of a gated pod, restricts its
      node affinity to the architectures all of them support, adds the preferred
      affinities the configurations ask for, and removes the gate
      ([pod_reconciler.go], [pod_model.go]); both may instead follow the CEL
      rules of a namespaced [PodPlacementConfig], which override the
      architectures ([cel_evaluator.go], [cel_integration.go],
      [architecture_removal.go], [architecture_application.go]);
    - the _image inspector_ with its cache answers which architectures an image
      supports ([pkg/image]), with the credentials of the pod and the global pull
      secret, which an _informer_ follows ([global_pull_secret.go]);
    - _validating webhooks_ guard the [PodPlacementConfig]s and the singleton
      [ClusterPodPlacementConfig], which webhook and reconciler read through
      another informer ([pkg/informers]);
    - the _operator_ creates, updates and tears down all of the above according
      to the [ClusterPodPlacementConfig] and reports their state in its status
      ([clusterpodplacementconfig_controller.go] and the builders beside it);
    - on every node a _daemon_ loads an eBPF program that records failed
      [execve] calls and stores them as [ENoExecEvent]s, and the _event handler_
      reports those on the pods ([internal/controller/enoexecevent]);
    - all of it starts from two _binaries_ ([cmd/main.go],
      [cmd/enoexec-daemon/main.go]), one component for each process.

    ** Files

    The paths of the pod placement parts are below
    [src/internal/controller/podplacement].

    - [Prelude] (this file): Go slices, maps and errors, the [res] and [outcome]
      monads (error results; panics), the hint database [go], the tactics
      [gorw], [bools] and [case_goal], lemmas on lists.
    - [GoStd]: the parts of [strconv], [strings] and [fmt] the source uses
      ([ParseInt] at 32 bits, [Split], [HasPrefix], [Contains], ["%d"]).
    - [Api]: constants, pods, affinities, plugin configuration and the custom
      resources ([api/v1beta1], [api/common], [pkg/utils/const.go]).
    - [LabelSelectors]: [metav1.LabelSelectorAsSelector] and matching.
    - [NodeMatch]: the specification the placement theorems refer to, namely
      which nodes Kubernetes admits a pod on.
    - [Models]: the pod wrapper of [pkg/models/pod.go].
    - [ArchConstraints]: [architecture_removal.go] and
      [architecture_application.go].
    - [Lru]: the caches as lists; [LruRing], [ExpirableLru], [SimpleLru]: the
      vendored [golang-lru], its linked list with the index, and the two caches
      on it, which refine those lists.
    - [CelEval]: the evaluator of [cel_evaluator.go] with its shared cache;
      [CelService] and [CelServiceOk] are the interface its two callers are verified
      against, discharged by [package_service_ok].
    - [Events], [PodModel], [PodTheorems]: [events.go] and [pod_model.go].
    - [PodReconciler], [ReconcilerTheorems]: [pod_reconciler.go],
      [cel_integration.go], [pkg/utils/secrets.go].
    - [Webhook]: [scheduling_gate_mutating_webhook.go].
    - [Validation], [Admission]: the validating webhooks and the store they
      guard, as a state machine; [CelSchema]: the types the rules are checked
      against on admission, related to the map they are evaluated on.
    - [Status]: the conditions of [clusterpodplacementconfig_types.go].
    - [Conversion]: [api/v1alpha1], with the annotation map the two objects
      share modelled as a heap cell.
    - [DeepCopy], [DeepCopyTheorems]: the three [zz_generated.deepcopy.go], on a
      heap with a cell for everything behind a pointer, a slice or a map.
    - [ImageInspect]: what an index or a configuration stands for, and the cache
      ([inspector.go], [cache.go], [facade.go] of [pkg/image]), one request at a
      time; [CacheConcurrency]: the same requests and the rotation of the global
      pull secret as interleaved atomic parts; [Transparency]: reconciler,
      evaluator and image cache together.
    - [Metrics]: the metrics packages, with [sync.Once] and the registry.
    - [Prog]: programs of requests, run against an arbitrary server, with
      weakest preconditions over their traces.
    - [Operator], [OperatorTheorems], [OperatorTraces]: the controller as such
      programs, with [pkg/utils/resource.go] and the names of the objects it
      builds; the law every trace of a reconcile obeys.
    - [EnoexecHandler]: [internal/controller/enoexecevent/handler]; [Teardown]:
      handler and operator through the event objects; [EventFlow]: daemons, API
      server, watch, queue and calls of the handler and the operator with every
      request a step; [EventRuns]: a server that computes such runs.
    - [Bpf]: the part of the eBPF machine the tracepoint needs (registers, stack,
      ring buffer, helpers, little and big endian); [Tracepoint]: the program of
      [tracepoint_program.go] on it; [TracepointUser]: [tracepoint_helpers.go],
      the sizes of [tracepoint.go] and the processing of a record.
    - [EnoexecDaemon]: starting and closing the tracepoint, the storage of events,
      and the goroutines of [daemon.go] as a transition system.
    - [GlobMatch]: [filepath.Match] with its language of patterns; [ImageAuth]:
      [auth.go] and [helpers_glob.go]; [Inspector]: the inspection of
      [inspector.go] and [systemconfig.go] as a program of system calls and
      requests to the registry.
    - [Informers]: [global_pull_secret.go] and [pkg/informers], as handlers of the
      shared informer of client-go.
    - [Manifests]: the builders of [objects.go], [podplacement_objects.go] and
      [enoexecevent_objects.go] in full; [Permissions]: the roles against the
      requests of handler and daemon; [Apply]: how an object is applied
      ([pkg/utils/resource.go], [pkg/utils/runtime.go]); [Watches]: the update
      predicate and the watches of the controller, with the loop of events, queue
      and reconciles.
    - [Main]: the binaries, with Go's [flag] package; [Boot]: the workloads of
      [Manifests] started by [Main].
    - [System]: API server, admissions through the webhook, reconciles of pods and
      requests of the operator as one transition system; [SystemRuns]: an
      executable server for it, and runs; [PodQueue]: the watch, the cache and the
      work queue of the pod reconciler ([SetupWithManager]); [PodDrain]: that they
      drain; [ConfigLag]: the informer of the [PodPlacementConfig]s behind the API
      server.
    - [Witnesses], [SystemWitnesses], [ClusterWitnesses], [FlowWitnesses]: concrete
      inputs at which the theorems apply.

    State is passed explicitly.  A function that the source calls with a pointer
    to a pod takes the pod and returns the changed one; the state that outlives a
    call (the evaluator and its cache, the image cache, the registry) is the
    world [W] threaded through [processPod] and [Handle].  What the API server
    answers during one reconcile of a pod is a record of functions
    ([PodReconciler.Env], [Webhook.WebhookEnv]); for the operator, the event
    handler, the daemon and the inspector, where the order of requests matters, a
    run is a tree of requests and the server is arbitrary.  Goroutines and
    processes that share state are transition systems
    ([EnoexecDaemon.goroutine_step], [CacheConcurrency.exec], [CelEval.step],
    [System.steps], [Admission.cstep], [Watches.loop_step], [PodQueue.ctl_step], [PodDrain.fair_step],
    [EventFlow.flow_step], [ConfigLag.view_step], [ExpirableLru.expirable.runs]) or
    interleavings of their steps ([Metrics.merges]).  A dereference of a nil pointer
    or a write to a nil map is [Panic], or [None] in the caches.

    ** What the theorems show

    - Placement: for a pod whose author set no architecture, the affinity
      computed from the images admits exactly the nodes whose architecture every
      image supports, but for the terms the author left empty, and is left alone when
      an inspection fails (C1); the choice of the CEL plugin
      replaces every earlier architecture constraint and nothing else (C8);
      preferred terms are only added, one per architecture (C36).
    - Gate: admission gates exactly the pods that are not to be ignored, never
      panics, and fails only when the response cannot be encoded (C9); a pod stays gated only while retries are left
      ([processPod_gate_kept]), so five reconciles that can list the
      configurations ungate it whatever the registry does
      ([ungated_within_max_retries]).
    - The system: in every run from an empty cluster the configuration keeps its
      finalizer as long as the webhook is registered or a pod is gated, but for two
      windows (C2): a pod that is being created while the operator
      is shown the list of pods (a run that leaves such a pod gated for good is
      [removal_race]), and a cache that is overtaken by a direct read.  As many stored
      reconciles as failures are left to count release a pod (C3),
      and they come: no gated pod is forgotten by watch and queue (C4),
      and from every state the controller can get all pods released, with updates that
      the API server accepts, but for the pods with an empty node selector term
      (C5, [empty_term_strands_pod]).  A removal that lost the controller
      does not end (C15), and such a state is reached
      ([interrupted_reachable], [interrupted_abandoned]).
    - API rules: without the CEL plugin, and without empty terms, the update sent for a
      gated pod is one the API server accepts (C10; the rule is
      [directives_ok]), and
      with it webhook and reconciler choose the same (C11); the result does not
      depend on the unstable sort ([processPod_sort_independent]).  Where the code
      guards against it, a cache of configurations that lags behind is invisible
      ([lag_invisible]); elsewhere a rule that comes too late for the webhook makes
      the reconciler's update unlawful ([late_config_refused],
      [unseen_config_strands_pod]).
    - Rules: first match wins, errors counted apart, the cache invisible (C7),
      also under interleaving ([compile_concurrent]); what the schema of the
      admission accepts can be evaluated, and is metadata (C33); the allow-list
      check is exact ([assertMetadataOnly_iff]); the typed environment is built
      once ([validation_env_once]).
    - Configurations: distinct priorities in the namespaces, and no orphans, where no
      two requests overlapped (C34), and not otherwise
      ([race_duplicates_priority], [race_orphans_config]);
      conversion round trip (C38); copies of all resources are equal to the
      original and share nothing with it (C39).
    - Images: which architectures an index stands for (C23); the inspection
      answers only what the fetched manifest and the signature policy justify
      (C22) and closes everything it opens ([inspection_closes_everything]); a
      digest wins over a tag ([parseImageReference_spec]); credentials reach only
      the registries their globs cover (C24); an answer of the cache is at most
      six hours old, and obtained with the secret in force unless its inspection
      overlapped the rotation (C19), which can happen
      ([stale_answer_after_rotation]) but not when no inspection is under way
      ([rotation_takes_effect]); the secret in force is the cluster's
      ([pull_secret_follows_cluster]).  The cache with expiry, down to the pointers of
      its list and the goroutine that cleans it, is the list that these theorems are
      about (C20, [image_cache_list]), and so is the one of the
      evaluator (C21).  With both caches a reconcile does what it
      does without them, for pods whose secrets have no globs (C12): for
      those the key of the image cache determines the credentials
      ([credentials_determined]), which it does not in general ([cache_key_ambiguous]).
    - Operator: the controller is not given up while pods are gated (C6);
      deletion completes, in one pass or two, when the cluster cooperates (C18); objects are created
      under the finalizer and the webhook is registered only when its backend is
      available ([Reconcile_creates_under_finalizer]); conditions tell the truth
      ([Build_truthful]); when nothing is queued the workloads are as the current configuration
      wants them, and two undisturbed reconciles get there from anywhere (C32), as long as
      nobody forges the operator's hash of a spec ([forged_hash_not_repaired]);
      every kind of object that is applied is watched ([applied_watched]).
    - Objects: the manifests in full refine the ones the controller is verified
      with ([manifests_refine]), fit together (C31), grant the requests that handler and daemon
      make (C29), and start the intended component at the configured log level
      (C30); a process runs exactly one component ([main_runs_one_component]); the
      operands see the [ClusterPodPlacementConfig] of the cluster (C35); no
      process panics over its metrics, however its threads interleave (C40).
    - Exec format errors: the eBPF program ends without a fault in every kernel
      and submits exactly the records it should (C16); from such a record the
      daemon computes the pod and the container (C17), in a buffer of the right
      size (C37); it leaks no handle when it cannot start (C28), leaves no
      object without a status (C27), uses its channel safely (C25), and can shut
      down except from two kinds of states (C26), which it reaches, as it
      does a panic of the monitor ([daemon_shutdown_can_fail]).  With all requests of daemons, handler and
      operator interleaved, a published event is kept until its pod is labelled or
      there is nothing to label (C13; for one call alone
      [handler_keeps_unreported_events] and [handler_reports]); the handler can
      always catch up, and after a restart the monitor can be removed
      (C14, [teardown_drains]), while an event whose mark was refused
      makes the removal wait ([stranded_event]).

    ** Bounds and fuel

    The loops of the source range over finite lists and are structural here; the
    retry of the delayed event runs its 15 backoff steps, the one of the status
    update its 5.  The eBPF machine has fuel for one more step than the program
    has instructions (43): all jumps are forward, and C16 proves that the
    program exits within it.  The parsers of glob patterns have the length of the
    pattern as fuel, with lemmas that it is enough, and the walk through the list
    of a cache the number of addresses ([entriesBack_ring]).  [strconv.ParseInt] is
    modelled at 32 bits with its range error, so the retry counter wraps as it
    does in Go ([retry_counter_wraps]), and at 64 bits in base 0 for flags;
    addresses and registers of the machine wrap at 64 bits, offsets and sizes at
    32, log levels at 8; priorities, weights and replica counts are [Z] and are
    only compared.  The cache sizes (1024 programs, 256 images), the lifetime of
    six hours and the channel of 256 events are the source's; the theorems about
    the channel hold for every capacity.

    ** Parameters

    The CEL engine ([CelEngine], [ValidationEnv]), the registries and the library
    that talks to them, SHA-256 and the hash of a spec, [net/url] ([NetURL], with
    [NetURLLaws] and the instance [plainURL]), JSON, label syntax checks, the
    clock, the order of map iteration ([RangeOrder], and every order in
    [ImageAuth]), [sort.Slice] ([sort_ok]), the flags that other packages
    register, the kernel and the container runtime of a node are arguments of the
    definitions, with what is assumed of them stated where it is used.

    ** Not modelled

    Logging; the help texts and the observed values of metrics; the vendored appliers
    that [utils.ApplyResource] calls for the other kinds of objects, which are
    requests of the operator; TLS options, schemes and the wiring of clients into
    structures, which carry no behaviour of their own; [pkg/testing] and the
    end-to-end suites, which are not part of the program; vendored code, apart from
    the LRU caches, the delta processing of the informer, [filepath.Match], the deep
    copies of the metadata, the registration of metrics and the typing of field
    selections.  The transition systems of pods ([System], [PodQueue]), events
    ([EventFlow]) and images ([CacheConcurrency]) are apart from each other: they
    share no object but the pods, of which the first changes gates, labels and
    affinity and the second one label.  In [DeepCopy] a slice owns its array. *)

From stdpp Require Import base gmap strings list sorting pretty.

(** ** Go slices and maps

    A Go slice or map distinguishes [nil] from an empty value, and the source
    tests for [nil] in many places; both are an [option] here. *)
Abbreviation GoSlice A := (option (list A)).
Abbreviation GoMap V := (option (gmap string V)).

(** What a [range] loop over the slice visits. *)
Definition elems {A} (s : GoSlice A) : list A :=
  match s with Some l => l | None => [] end.
Arguments elems {A} !s /.

(** [len(s)] *)
Definition slen {A} (s : GoSlice A) : nat := length (elems s).

(** [append(s, xs...)]: appending nothing to a nil slice leaves it nil. *)
Definition sappend {A} (s : GoSlice A) (xs : list A) : GoSlice A :=
  match s, xs with
  | None, [] => None
  | _, _ => Some (elems s ++ xs)
  end.

(** [v, ok := m[k]] *)
Definition mlookup {V} (m : GoMap V) (k : string) : option V :=
  m ≫= λ g, g !! k.

(** [m[k]] of a map of strings: the zero value when the key is absent. *)
Definition mget (m : GoMap string) (k : string) : string :=
  default "" (mlookup m k).

(** [if m == nil { m = make(map) }; m[k] = v] *)
Definition mensure {V} (m : GoMap V) (k : string) (v : V) : GoMap V :=
  Some (<[k := v]> (default ∅ m)).

(** [m[k] = v] on its own: a write to a nil map panics. *)
Definition mwrite {V} (m : GoMap V) (k : string) (v : V) : option (GoMap V) :=
  match m with
  | None => None
  | Some g => Some (Some (<[k := v]> g))
  end.

(** [delete(m, k)]: a no-op on a nil map. *)
Definition mdelete {V} (m : GoMap V) (k : string) : GoMap V :=
  match m with
  | None => None
  | Some g => Some (delete k g)
  end.

(** ** Errors

    An error value carries its [Error()] text and the class the source tests
    with [apierrors.IsNotFound], [errors.As] and the retry helpers. *)
Inductive ErrKind : Set :=
| KNotFound
| KConflict
| KRequeueAfter (seconds : Z)
| KOther.

Record GoError : Set := mkErr { err_kind : ErrKind; err_msg : string }.

#[export] Instance ErrKind_eq_dec : EqDecision ErrKind.
Proof. solve_decision. Defined.
#[export] Instance GoError_eq_dec : EqDecision GoError.
Proof. solve_decision. Defined.

(** The [(value, error)] results. *)
Inductive res (A : Type) : Type :=
| Ok (a : A)
| Err (e : GoError).
Arguments Ok {A} a.
Arguments Err {A} e.

Definition is_ok {A} (r : res A) : bool :=
  match r with Ok _ => true | Err _ => false end.

Definition isNotFound (e : GoError) : bool := bool_decide (err_kind e = KNotFound).

Definition errOther (m : string) : GoError := mkErr KOther m.

(** [client.IgnoreNotFound(err)] *)
Definition ignoreNotFound (e : option GoError) : option GoError :=
  match e with
  | Some err => if isNotFound err then None else Some err
  | None => None
  end.

(** A call that may panic (a nil dereference, a write to a nil map). *)
Inductive outcome (A : Type) : Type :=
| Ret (a : A)
| Panic.
Arguments Ret {A} a.
Arguments Panic {A}.

(** [*p] for a pointer that may be nil. *)
Definition deref {A} (p : option A) : outcome A :=
  match p with Some a => Ret a | None => Panic end.

(** Both result types are monads: [x ← c; k] stops at the first error or panic. *)
#[export] Instance res_ret : MRet res := @Ok.
#[export] Instance res_bind : MBind res := λ A B f c,
  match c with Ok a => f a | Err e => Err e end.
#[export] Instance outcome_ret : MRet outcome := @Ret.
#[export] Instance outcome_bind : MBind outcome := λ A B f c,
  match c with Ret a => f a | Panic => Panic end.

(** ** Automation *)
Create HintDb go.
Create Rewrite HintDb go.

Lemma mlookup_mensure_eq {V} (m : GoMap V) k v :
  mlookup (mensure m k v) k = Some v.
Proof. cbn. apply lookup_insert_eq. Qed.

Lemma mlookup_mensure_ne {V} (m : GoMap V) k k' v :
  k ≠ k' → mlookup (mensure m k v) k' = mlookup m k'.
Proof. intros H. destruct m; cbn; by rewrite lookup_insert_ne. Qed.

Lemma mlookup_mdelete_eq {V} (m : GoMap V) k : mlookup (mdelete m k) k = None.
Proof. destruct m; cbn; [apply lookup_delete_eq | done]. Qed.

Lemma mlookup_mdelete_ne {V} (m : GoMap V) k k' :
  k ≠ k' → mlookup (mdelete m k) k' = mlookup m k'.
Proof. intros H. destruct m; cbn; [by rewrite lookup_delete_ne | done]. Qed.

Lemma mget_mensure_eq (m : GoMap string) k v : mget (mensure m k v) k = v.
Proof. unfold mget. by rewrite mlookup_mensure_eq. Qed.

Lemma mget_mensure_ne (m : GoMap string) k k' v :
  k ≠ k' → mget (mensure m k v) k' = mget m k'.
Proof. intros. unfold mget. by rewrite mlookup_mensure_ne. Qed.

Lemma mensure_mensure {V} (m : GoMap V) k v w :
  mensure (mensure m k v) k w = mensure m k w.
Proof. unfold mensure. cbn. by rewrite insert_insert_eq. Qed.

Lemma mensure_not_nil {V} (m : GoMap V) k v : mensure m k v ≠ None.
Proof. done. Qed.

Lemma mwrite_mensure {V} (m : GoMap V) k v k' w :
  mwrite (mensure m k v) k' w = Some (mensure (mensure m k v) k' w).
Proof. done. Qed.

Lemma elems_sappend {A} (s : GoSlice A) xs : elems (sappend s xs) = elems s ++ xs.
Proof. destruct s, xs; cbn; by rewrite ?app_nil_r. Qed.

Lemma sappend_app {A} (s : GoSlice A) xs ys :
  sappend (sappend s xs) ys = sappend s (xs ++ ys).
Proof. destruct s, xs, ys; cbn; by rewrite ?app_nil_r, <-?app_assoc. Qed.

Lemma sappend_None_iff {A} (xs : list A) : sappend None xs = None ↔ xs = [].
Proof. destruct xs; cbn; split; congruence. Qed.

#[export] Hint Rewrite @mlookup_mensure_eq @mlookup_mdelete_eq mget_mensure_eq
  @mensure_mensure @elems_sappend : go.
#[export] Hint Rewrite @mlookup_mensure_ne @mlookup_mdelete_ne mget_mensure_ne
  using (first [done | discriminate | congruence]) : go.
#[export] Hint Resolve mensure_not_nil : go.

(** Rewrite with the database, closing the key-inequality side conditions. *)
Ltac gorw := repeat (autorewrite with go in *; cbn in *).

(** Split the boolean connectives of the source's conditions. *)
Ltac bools :=
  repeat match goal with
  | H : bool_decide _ = true |- _ => apply bool_decide_eq_true_1 in H
  | H : bool_decide _ = false |- _ => apply bool_decide_eq_false_1 in H
  | H : _ && _ = true |- _ => apply andb_prop in H; destruct H
  | H : _ || _ = false |- _ => apply orb_false_elim in H; destruct H
  | H : negb _ = true |- _ => apply negb_true_iff in H
  | H : negb _ = false |- _ => apply negb_false_iff in H
  end.

(** Case on the scrutinee of the first match or conditional of the goal. *)
Ltac case_goal :=
  match goal with
  | |- context [match ?x with _ => _ end] => destruct x eqn:?
  end.

(** ** Lists *)

Lemma existsb_bool_decide {A} (P : A → Prop) `{∀ x, Decision (P x)} (l : list A) :
  existsb (λ x, bool_decide (P x)) l = true ↔ Exists P l.
Proof.
  rewrite existsb_exists, Exists_exists.
  by setoid_rewrite list_elem_of_In; setoid_rewrite bool_decide_eq_true.
Qed.

Lemma existsb_false_Forall {A} (f : A → bool) (l : list A) :
  existsb f l = false ↔ Forall (λ x, f x = false) l.
Proof.
  induction l as [|x l IH]; cbn; [by split|].
  rewrite orb_false_iff, IH, Forall_cons. done.
Qed.

Lemma forallb_Forall {A} (f : A → bool) (l : list A) :
  forallb f l = true ↔ Forall (λ x, f x = true) l.
Proof.
  induction l as [|x l IH]; cbn; [by split|].
  by rewrite andb_true_iff, IH, Forall_cons.
Qed.

Lemma existsb_Exists {A} (f : A → bool) (l : list A) :
  existsb f l = true ↔ Exists (λ x, f x = true) l.
Proof.
  induction l as [|x l IH]; cbn; [by rewrite Exists_nil|].
  by rewrite orb_true_iff, IH, Exists_cons.
Qed.

Lemma filter_all {A} (P : A → Prop) `{∀ x, Decision (P x)} (l : list A) :
  Forall P l → filter P l = l.
Proof.
  induction 1 as [|x l Hx Hl IH]; [done|].
  rewrite filter_cons_True by done. by f_equal.
Qed.

Lemma filter_none {A} (P : A → Prop) `{∀ x, Decision (P x)} (l : list A) :
  Forall (λ x, ¬ P x) l → filter P l = [].
Proof.
  induction 1 as [|x l Hx Hl IH]; [done|].
  by rewrite filter_cons_False.
Qed.

(** A strict order on keys makes the sorted list with given elements unique:
    whatever (unstable) sorting routine is used, the result is the same. *)
Lemma sorted_perm_unique {A} (key : A → Z) (l1 l2 : list A) :
  NoDup (key <$> l1) →
  StronglySorted (λ x y, key y ≤ key x)%Z l1 →
  StronglySorted (λ x y, key y ≤ key x)%Z l2 →
  l1 ≡ₚ l2 → l1 = l2.
Proof.
  revert l2. induction l1 as [|x l1 IH]; intros l2 Hnd Hs1 Hs2 Hp.
  { by apply Permutation_nil_l in Hp. }
  destruct l2 as [|y l2]; [by apply Permutation_nil_r in Hp|].
  assert (x = y) as ->.
  { assert (x ∈ y :: l2) as Hx by (rewrite <-Hp; left).
    assert (y ∈ x :: l1) as Hy by (rewrite Hp; left).
    apply elem_of_cons in Hx as [->|Hx]; [done|].
    apply elem_of_cons in Hy as [->|Hy]; [done|].
    inversion Hs1 as [|? ? _ Hf1]; inversion Hs2 as [|? ? _ Hf2]; subst.
    rewrite Forall_forall in Hf1, Hf2.
    specialize (Hf1 _ Hy); specialize (Hf2 _ Hx).
    apply NoDup_cons in Hnd as [Hnin _]. exfalso. apply Hnin.
    apply list_elem_of_fmap. exists y. split; [lia|done]. }
  f_equal. apply Permutation_cons_inv in Hp.
  inversion Hs1; inversion Hs2; subst. apply NoDup_cons in Hnd as [_ Hnd].
  by apply IH.
Qed.
