(* ===== verification/GoStd.v ===== *)
(** * The parts of Go's standard library the operator computes with

    [strconv.ParseInt], [fmt.Sprintf("%d")], [strings.Split], [strings.Join]
    and [strings.HasPrefix] on ASCII data, with the lemmas the components
    share: the decimal round trip and the split/join algebra. *)
From Stdlib Require Import Ascii.
From stdpp Require Import base gmap strings list pretty.
From S2P Require Import Prelude.

(** ** Decimal integers *)

Definition digit_val (c : ascii) : option Z :=
  let n := Z.of_nat (nat_of_ascii c) in
  if (48 <=? n)%Z && (n <=? 57)%Z then Some (n - 48)%Z else None.

Fixpoint parse_digits (acc : Z) (s : string) : option Z :=
  match s with
  | EmptyString => Some acc
  | String c s' =>
      match digit_val c with
      | Some d => parse_digits (10 * acc + d)%Z s'
      | None => None
      end
  end.

(** [ParseUint(s, 10, _)]: at least one digit, nothing but digits. *)
Definition parse_uint (s : string) : option Z :=
  match s with
  | EmptyString => None
  | _ => parse_digits 0 s
  end.

Definition minInt32 : Z := (- 2 ^ 31)%Z.
Definition maxInt32 : Z := (2 ^ 31 - 1)%Z.

Definition in_int32 (v : Z) : bool := (minInt32 <=? v)%Z && (v <=? maxInt32)%Z.

(** [strconv.ParseInt(s, 10, 32)]; [None] is the syntax or range error. *)
Definition parseInt32 (s : string) : option Z :=
  let v :=
    match s with
    | String "+" s' => parse_uint s'
    | String "-" s' => Z.opp <$> parse_uint s'
    | _ => parse_uint s
    end in
  v ≫= λ z, if in_int32 z then Some z else None.

(** [fmt.Sprintf("%d", n)] *)
Definition sprintd (n : Z) : string := pretty n.

(** ** Splitting and joining *)

(** [strings.Split(s, sep)] for a one-byte separator. *)
Fixpoint split_on (c : ascii) (s : string) : list string :=
  match s with
  | EmptyString => [""]
  | String a s' =>
      if bool_decide (a = c) then "" :: split_on c s'
      else match split_on c s' with
           | [] => [String a ""]
           | w :: ws => String a w :: ws
           end
  end.

(** [strings.Join(l, sep)] *)
Fixpoint join (sep : string) (l : list string) : string :=
  match l with
  | [] => ""
  | [x] => x
  | x :: xs => x +:+ sep +:+ join sep xs
  end.

Fixpoint has_char (c : ascii) (s : string) : bool :=
  match s with
  | EmptyString => false
  | String a s' => bool_decide (a = c) || has_char c s'
  end.

(** [strings.HasPrefix(s, p)] *)
Definition hasPrefix (s p : string) : bool := String.prefix p s.

(** [strings.Contains(s, p)] *)
Fixpoint contains (s p : string) : bool :=
  hasPrefix s p ||
  match s with
  | EmptyString => false
  | String _ s' => contains s' p
  end.

(** [%q] of a text without characters that need escaping, such as the name of
    an API object *)
Definition quoted (s : string) : string :=
  String "034"%char "" +:+ s +:+ String "034"%char "".

(** ** Lemmas *)

Lemma digit_val_pretty (x : N) :
  (x < 10)%N → digit_val (pretty_N_char x) = Some (Z.of_N x).
Proof.
  intros H.
  assert (x = 0 ∨ x = 1 ∨ x = 2 ∨ x = 3 ∨ x = 4 ∨ x = 5 ∨ x = 6 ∨ x = 7 ∨ x = 8 ∨ x = 9)%N
    as Hx by lia.
  by repeat destruct Hx as [->|Hx]; subst.
Qed.

Lemma parse_digits_pretty_N_go (x : N) (s : string) :
  parse_digits 0 (pretty_N_go x s) = parse_digits (Z.of_N x) s.
Proof.
  revert s. induction (N.lt_wf_0 x) as [x _ IH]; intros s.
  destruct (decide (x = 0%N)) as [->|Hx]; [by rewrite pretty_N_go_0|].
  rewrite pretty_N_go_step by lia.
  rewrite IH by (apply N.div_lt; lia). cbn [parse_digits].
  rewrite digit_val_pretty by (apply N.mod_lt; lia).
  f_equal. rewrite N2Z.inj_div, N2Z.inj_mod. cbn.
  rewrite <-Z.div_mod; lia.
Qed.

Lemma pretty_N_cons (x : N) : ∃ c s, pretty x = String c s ∧ c ≠ "+"%char ∧ c ≠ "-"%char.
Proof.
  destruct (pretty x) as [|c s] eqn:E.
  - exfalso. assert (parse_uint (pretty x) = None) as Hn by by rewrite E.
    unfold pretty, pretty_N in E. case_decide; [done|].
    pose proof (parse_digits_pretty_N_go x "") as Hp. rewrite E in Hp. cbn in Hp.
    destruct x; [done|discriminate].
  - exists c, s. split; [done|].
    unfold pretty, pretty_N in E. case_decide as Hx; [by simplify_eq/=|].
    pose proof (parse_digits_pretty_N_go x "") as Hp. rewrite E in Hp. cbn in Hp.
    split; intros ->; cbn in Hp; discriminate.
Qed.

Lemma parse_uint_pretty (x : N) : parse_uint (pretty x) = Some (Z.of_N x).
Proof.
  destruct (decide (x = 0%N)) as [->|Hx]; [done|].
  destruct (pretty_N_cons x) as (c & s & E & _). unfold parse_uint. rewrite E, <-E.
  unfold pretty, pretty_N. case_decide; [done|]. by rewrite parse_digits_pretty_N_go.
Qed.

Lemma parse_signed_pretty (x : N) :
  match pretty x with
  | String "+" s' => parse_uint s'
  | String "-" s' => Z.opp <$> parse_uint s'
  | _ => parse_uint (pretty x)
  end = Some (Z.of_N x).
Proof.
  destruct (pretty_N_cons x) as (c & s & E & H1 & H2).
  pose proof (parse_uint_pretty x) as Hp. rewrite E in *.
  destruct c as [[] [] [] [] [] [] [] []]; first [exact Hp | congruence].
Qed.

(** Formatting a 32-bit integer and parsing it back is the identity. *)
Lemma parseInt32_sprintd (n : Z) :
  in_int32 n = true → parseInt32 (sprintd n) = Some n.
Proof.
  intros H. unfold parseInt32, sprintd.
  destruct n as [|p|p].
  - done.
  - change (pretty (Z.pos p)) with (pretty (N.pos p)).
    rewrite parse_signed_pretty. cbn. by rewrite H.
  - change (((Z.opp <$> parse_uint (pretty (N.pos p))) ≫=
             λ z, if in_int32 z then Some z else None) = Some (Z.neg p)).
    rewrite parse_uint_pretty.
    change ((if in_int32 (Z.neg p) then Some (Z.neg p) else None) = Some (Z.neg p)).
    by rewrite H.
Qed.

(** Outside the 32-bit range the parse is an error. *)
Lemma parseInt32_sprintd_overflow (n : Z) :
  (0 ≤ n)%Z → in_int32 n = false → parseInt32 (sprintd n) = None.
Proof.
  intros Hn H. unfold parseInt32, sprintd.
  destruct n as [|p|p]; [done| |lia].
  change (pretty (Z.pos p)) with (pretty (N.pos p)).
  rewrite parse_signed_pretty. cbn. by rewrite H.
Qed.

(** The text of a number has no letter, comma or colon in it. *)
Lemma has_char_parse_digits c a s v :
  digit_val c = None → parse_digits a s = Some v → has_char c s = false.
Proof.
  intros Hc. revert a. induction s as [|x s IH]; intros a H; [done|].
  cbn in *. destruct (digit_val x) eqn:E; [|done].
  rewrite bool_decide_eq_false_2 by congruence. eauto.
Qed.

Lemma string_cons_app a (s1 s2 : string) : String a s1 +:+ s2 = String a (s1 +:+ s2).
Proof. done. Qed.

Lemma string_nil_app (s : string) : "" +:+ s = s.
Proof. done. Qed.

Lemma has_char_app c s1 s2 : has_char c (s1 +:+ s2) = has_char c s1 || has_char c s2.
Proof. induction s1 as [|a s1 IH]; [done|]. rewrite string_cons_app. cbn. by rewrite IH, orb_assoc. Qed.

Lemma has_char_sprintd c n :
  digit_val c = None → c ≠ "-"%char → has_char c (sprintd n) = false.
Proof.
  intros Hc Hm. unfold sprintd.
  assert (∀ x : N, has_char c (pretty x) = false) as HN.
  { intros x. pose proof (parse_uint_pretty x) as Hp.
    destruct (pretty x) as [|a s] eqn:E; [done|].
    exact (has_char_parse_digits _ _ _ _ Hc Hp). }
  destruct n as [|p|p]; [by apply (HN 0%N)|by apply (HN (N.pos p))|].
  change (pretty (Z.neg p)) with ("-" +:+ pretty (N.pos p)).
  rewrite has_char_app, HN. cbn. by rewrite bool_decide_eq_false_2 by congruence.
Qed.

Lemma split_on_ne_nil c s : split_on c s ≠ [].
Proof.
  destruct s as [|a s]; cbn; [done|]. case_bool_decide; [done|].
  by destruct (split_on c s).
Qed.

Lemma split_on_no_sep c s : has_char c s = false → split_on c s = [s].
Proof.
  induction s as [|a s IH]; cbn; [done|].
  intros [Ha Hs]%orb_false_elim. by rewrite Ha, IH.
Qed.

(** Splitting a text to which a separator and a separator-free word were
    appended adds exactly that word. *)
Lemma split_on_snoc c s w :
  has_char c w = false → split_on c (s +:+ String c w) = split_on c s ++ [w].
Proof.
  intros Hw. induction s as [|a s IH]; rewrite ?string_nil_app, ?string_cons_app; cbn.
  - rewrite bool_decide_eq_true_2 by done. by rewrite split_on_no_sep.
  - rewrite IH. case_bool_decide; [done|].
    destruct (split_on c s) as [|x xs] eqn:E; [|done].
    by apply split_on_ne_nil in E.
Qed.

Lemma string_app_assoc (a b c : string) : (a +:+ b) +:+ c = a +:+ (b +:+ c).
Proof. induction a as [|x a IH]; [done|]. rewrite !string_cons_app. by rewrite IH. Qed.

Lemma string_app_nil_r (a : string) : a +:+ "" = a.
Proof. induction a as [|x a IH]; [done|]. rewrite !string_cons_app. by rewrite IH. Qed.

Lemma join_split_on c s : join (String c "") (split_on c s) = s.
Proof.
  induction s as [|a s IH]; [done|]. cbn [split_on].
  pose proof (split_on_ne_nil c s) as Hne.
  destruct (split_on c s) as [|w ws]; [done|].
  case_bool_decide as Ha; destruct ws; cbn in *;
    rewrite ?string_cons_app, ?string_nil_app, ?string_app_nil_r in *; by subst.
Qed.
