(* ===== verification/Api.v ===== *)
(** * The API objects and their constants

    The Kubernetes core types the operator reads and writes (pods, node
    affinity, label selectors), the plugin configuration of [api/common] and
    the custom resources of [api/v1beta1], with the plugin lookup.

    Fields of [corev1.Pod] that the operator neither reads nor writes are left
    out; the inter-pod affinities, which it only compares with nil, carry their
    content as an uninterpreted text. *)
From stdpp Require Import base gmap strings list.
From S2P Require Import Prelude.

(** ** Constants of [pkg/utils/const.go] *)
Module utils.

Definition ArchitectureAmd64 := "amd64".
Definition ArchitectureArm64 := "arm64".
Definition ArchitecturePpc64le := "ppc64le".
Definition ArchitectureS390x := "s390x".

Definition ArchLabel := "kubernetes.io/arch".
Definition NodeAffinityLabel := "multiarch.openshift.io/node-affinity".
Definition PreferredNodeAffinityLabel := "multiarch.openshift.io/preferred-node-affinity".
Definition PreferredNodeAffinitySourcesAnnotation :=
  "multiarch.openshift.io/preferred-affinity-sources".
Definition NodeAffinityLabelValueSet := "set".
Definition NodeAffinityLabelValueOverriden := "overriden".
Definition LabelValueNotSet := "not-set".
Definition SchedulingGateLabel := "multiarch.openshift.io/scheduling-gate".
Definition SchedulingGateLabelValueGated := "gated".
Definition SchedulingGateLabelValueRemoved := "removed".
Definition PodPlacementFinalizerName := "finalizers.multiarch.openshift.io/pod-placement".
Definition CPPCNoPPCObjectFinalizer := "finalizers.multiarch.openshift.io/no-pod-placement-config".
Definition SingleArchLabel := "multiarch.openshift.io/single-arch".
Definition MultiArchLabel := "multiarch.openshift.io/multi-arch".
Definition NoSupportedArchLabel := "multiarch.openshift.io/no-supported-arch".
Definition FallbackArchitectureLabel := "multiarch.openshift.io/fallback-arch".
Definition ImageInspectionErrorLabel := "multiarch.openshift.io/image-inspect-error".
Definition ImageInspectionErrorCountLabel := "multiarch.openshift.io/image-inspect-error-count".
Definition LabelGroup := "multiarch.openshift.io".

Definition SchedulingGateName := "multiarch.openshift.io/scheduling-gate".
Definition MasterNodeSelectorLabel := "node-role.kubernetes.io/master".
Definition ControlPlaneNodeSelectorLabel := "node-role.kubernetes.io/control-plane".

Definition ExecFormatErrorFinalizerName := "finalizers.multiarch.openshift.io/enoexec-events".
Definition ExecFormatErrorLabelKey := "multiarch.openshift.io/exec-format-error".
Definition True_ := "true".
Definition ExecFormatErrorEventReason := "ExecFormatError".
Definition UnknownContainer := "unknown-container".

Definition AllSupportedArchitecturesSet : gset string :=
  {[ ArchitectureAmd64; ArchitectureArm64; ArchitecturePpc64le; ArchitectureS390x ]}.

(** [path.Join(LabelGroup, arch)] for an [arch] that is one clean path
    element, as the members of [AllSupportedArchitecturesSet] are. *)
Definition ArchLabelValue (arch : string) : string := LabelGroup +:+ "/" +:+ arch.

End utils.

(** ** Object metadata *)
Record OwnerReference := mkOwnerRef {
  or_Kind : string;
  or_Controller : option bool;
}.

Record ObjectMeta := mkMeta {
  om_Name : string;
  om_GenerateName : string;
  om_Namespace : string;
  om_ResourceVersion : string;
  om_DeletionTimestamp : option Z;
  om_Labels : GoMap string;
  om_Annotations : GoMap string;
  om_OwnerReferences : GoSlice OwnerReference;
  om_Finalizers : GoSlice string;
}.

(** ** Node affinity *)
Inductive NodeSelectorOperator : Set :=
| NodeSelectorOpIn
| NodeSelectorOpNotIn
| NodeSelectorOpExists
| NodeSelectorOpDoesNotExist
| NodeSelectorOpGt
| NodeSelectorOpLt
| NodeSelectorOpInvalid (s : string).

Record NodeSelectorRequirement := mkNSR {
  nsr_Key : string;
  nsr_Operator : NodeSelectorOperator;
  nsr_Values : GoSlice string;
}.

Record NodeSelectorTerm := mkNST {
  nst_MatchExpressions : GoSlice NodeSelectorRequirement;
  nst_MatchFields : GoSlice NodeSelectorRequirement;
}.

Record NodeSelector := mkNS { ns_NodeSelectorTerms : GoSlice NodeSelectorTerm }.

Record PreferredSchedulingTerm := mkPST {
  pst_Weight : Z;
  pst_Preference : NodeSelectorTerm;
}.

Record NodeAffinity := mkNA {
  na_Required : option NodeSelector;
  na_Preferred : GoSlice PreferredSchedulingTerm;
}.

Record Affinity := mkAff {
  aff_NodeAffinity : option NodeAffinity;
  aff_PodAffinity : option string;
  aff_PodAntiAffinity : option string;
}.

#[export] Instance NodeSelectorOperator_eq_dec : EqDecision NodeSelectorOperator.
Proof. solve_decision. Defined.
#[export] Instance NodeSelectorRequirement_eq_dec : EqDecision NodeSelectorRequirement.
Proof. solve_decision. Defined.
#[export] Instance NodeSelectorTerm_eq_dec : EqDecision NodeSelectorTerm.
Proof. solve_decision. Defined.

(** ** Pods *)
Record Container := mkContainer { c_Image : string; c_ImagePullPolicy : string }.

Definition PullAlways := "Always".

Record ContainerStatus := mkCS { cs_Name : string; cs_ContainerID : string }.

Record PodSpec := mkPodSpec {
  ps_NodeName : string;
  ps_NodeSelector : GoMap string;
  ps_Affinity : option Affinity;
  ps_SchedulingGates : GoSlice string;
  ps_Containers : list Container;
  ps_InitContainers : list Container;
  ps_ImagePullSecrets : GoSlice string;
}.

Record CorePod := mkPod {
  p_Meta : ObjectMeta;
  p_Spec : PodSpec;
  p_ContainerStatuses : list ContainerStatus;
}.

(** Field updates. *)
Definition set_Labels (l : GoMap string) (m : ObjectMeta) : ObjectMeta :=
  mkMeta (om_Name m) (om_GenerateName m) (om_Namespace m) (om_ResourceVersion m)
    (om_DeletionTimestamp m) l (om_Annotations m) (om_OwnerReferences m) (om_Finalizers m).

Definition set_Annotations (a : GoMap string) (m : ObjectMeta) : ObjectMeta :=
  mkMeta (om_Name m) (om_GenerateName m) (om_Namespace m) (om_ResourceVersion m)
    (om_DeletionTimestamp m) (om_Labels m) a (om_OwnerReferences m) (om_Finalizers m).

Definition set_Affinity (a : option Affinity) (s : PodSpec) : PodSpec :=
  mkPodSpec (ps_NodeName s) (ps_NodeSelector s) a (ps_SchedulingGates s)
    (ps_Containers s) (ps_InitContainers s) (ps_ImagePullSecrets s).

Definition set_NodeSelector (n : GoMap string) (s : PodSpec) : PodSpec :=
  mkPodSpec (ps_NodeName s) n (ps_Affinity s) (ps_SchedulingGates s)
    (ps_Containers s) (ps_InitContainers s) (ps_ImagePullSecrets s).

Definition set_SchedulingGates (g : GoSlice string) (s : PodSpec) : PodSpec :=
  mkPodSpec (ps_NodeName s) (ps_NodeSelector s) (ps_Affinity s) g
    (ps_Containers s) (ps_InitContainers s) (ps_ImagePullSecrets s).

Definition upd_meta (f : ObjectMeta → ObjectMeta) (p : CorePod) : CorePod :=
  mkPod (f (p_Meta p)) (p_Spec p) (p_ContainerStatuses p).

Definition upd_spec (f : PodSpec → PodSpec) (p : CorePod) : CorePod :=
  mkPod (p_Meta p) (f (p_Spec p)) (p_ContainerStatuses p).

(** ** Label selectors *)
Record LabelSelectorRequirement := mkLSR {
  lsr_Key : string;
  lsr_Operator : string;
  lsr_Values : GoSlice string;
}.

Record LabelSelector := mkLS {
  ls_MatchLabels : GoMap string;
  ls_MatchExpressions : GoSlice LabelSelectorRequirement;
}.

(** ** Plugins ([api/common/plugins]) *)
Module plugins.

Record NodeAffinityScoringPlatformTerm := mkPlatform {
  pt_Architecture : string;
  pt_Weight : Z;
}.

Record NodeAffinityScoring := mkScoring {
  nas_Enabled : bool;
  nas_Platforms : GoSlice NodeAffinityScoringPlatformTerm;
}.

Record ExecFormatErrorMonitor := mkMonitor { efm_Enabled : bool }.

Record ArchitectureRule := mkRule {
  ar_Name : string;
  ar_Expression : string;
  ar_Architectures : GoSlice string;
}.

Record CelArchitecturePlacement := mkCel {
  cel_Enabled : bool;
  cel_FallbackArchitectures : GoSlice string;
  cel_Rules : GoSlice ArchitectureRule;
}.

Record LocalPlugins := mkLocalPlugins {
  lp_NodeAffinityScoring : option NodeAffinityScoring;
  lp_CelArchitecturePlacement : option CelArchitecturePlacement;
}.

Record Plugins := mkPlugins {
  pl_NodeAffinityScoring : option NodeAffinityScoring;
  pl_ExecFormatErrorMonitor : option ExecFormatErrorMonitor;
}.

(** [common.Plugin] *)
Inductive Plugin : Set :=
| NodeAffinityScoringPluginName
| ExecFormatErrorMonitorPluginName
| CelArchitecturePlacementPluginName.

#[global] Instance Plugin_eq_dec : EqDecision Plugin.
Proof. solve_decision. Defined.

(** [p.X != nil && p.X.IsEnabled()] *)
Definition enabled {A} (is_enabled : A → bool) (p : option A) : bool :=
  match p with Some a => is_enabled a | None => false end.

(** [localPluginChecks] and [(lp *LocalPlugins) PluginEnabled]: the receiver is
    a pointer, and a check that the table holds dereferences it. *)
Definition LocalPlugins_PluginEnabled (lp : option LocalPlugins) (p : Plugin) : outcome bool :=
  match p with
  | NodeAffinityScoringPluginName =>
      l ← deref lp; Ret (enabled nas_Enabled (lp_NodeAffinityScoring l))
  | CelArchitecturePlacementPluginName =>
      l ← deref lp; Ret (enabled cel_Enabled (lp_CelArchitecturePlacement l))
  | ExecFormatErrorMonitorPluginName => Ret false
  end.

(** [pluginChecks] and [(p *Plugins) PluginEnabled] *)
Definition Plugins_PluginEnabled (pl : option Plugins) (p : Plugin) : outcome bool :=
  match p with
  | NodeAffinityScoringPluginName =>
      l ← deref pl; Ret (enabled nas_Enabled (pl_NodeAffinityScoring l))
  | ExecFormatErrorMonitorPluginName =>
      l ← deref pl; Ret (enabled efm_Enabled (pl_ExecFormatErrorMonitor l))
  | CelArchitecturePlacementPluginName => Ret false
  end.

End plugins.

(** ** Custom resources ([api/v1beta1]) *)
Module v1beta1.
Import plugins.

Definition ClusterPodPlacementConfigKind := "ClusterPodPlacementConfig".
Definition PodPlacementConfigKind := "PodPlacementConfig".

Record ClusterPodPlacementConfigSpec := mkCPPCSpec {
  cs_LogVerbosity : string;
  cs_NamespaceSelector : option LabelSelector;
  cs_Plugins : option Plugins;
  cs_FallbackArchitecture : string;
}.

(** The object as the operands' informer stores it. *)
Record ClusterPodPlacementConfig := mkCPPC {
  cppc_Meta : ObjectMeta;
  cppc_Spec : ClusterPodPlacementConfigSpec;
}.

Record PodPlacementConfigSpec := mkPPCSpec {
  ps_LabelSelector : option LabelSelector;
  ps_Plugins : option LocalPlugins;
  ps_Priority : Z;
}.

Record PodPlacementConfig := mkPPC {
  ppc_Meta : ObjectMeta;
  ppc_Spec : PodPlacementConfigSpec;
}.

Definition ppc_Name (p : PodPlacementConfig) : string := om_Name (ppc_Meta p).
Definition ppc_Priority (p : PodPlacementConfig) : Z := ps_Priority (ppc_Spec p).

(** [Spec.Priority] is a [uint8]. *)
Definition ppc_wf (p : PodPlacementConfig) : Prop := (0 ≤ ppc_Priority p < 256)%Z.

(** [(c *ClusterPodPlacementConfig) PluginsEnabled] *)
Definition CPPC_PluginsEnabled_go (c : ClusterPodPlacementConfig) (p : Plugin) : outcome bool :=
  match cs_Plugins (cppc_Spec c) with
  | Some pl => Plugins_PluginEnabled (Some pl) p
  | None => Ret false
  end.

(** [(p *PodPlacementConfig) PluginsEnabled] *)
Definition PPC_PluginsEnabled_go (c : PodPlacementConfig) (p : Plugin) : outcome bool :=
  match ps_Plugins (ppc_Spec c) with
  | Some pl => LocalPlugins_PluginEnabled (Some pl) p
  | None => Ret false
  end.

(** The same two lookups as total functions: [CPPC_PluginsEnabled_go_ok] and
    [PPC_PluginsEnabled_go_ok] show that the nil check above makes them agree. *)
Definition CPPC_PluginsEnabled (c : ClusterPodPlacementConfig) (p : Plugin) : bool :=
  match CPPC_PluginsEnabled_go c p with Ret b => b | Panic => false end.

Definition PPC_PluginsEnabled (c : PodPlacementConfig) (p : Plugin) : bool :=
  match PPC_PluginsEnabled_go c p with Ret b => b | Panic => false end.

Lemma CPPC_PluginsEnabled_go_ok c p :
  CPPC_PluginsEnabled_go c p = Ret (CPPC_PluginsEnabled c p).
Proof.
  unfold CPPC_PluginsEnabled, CPPC_PluginsEnabled_go.
  by destruct (cs_Plugins _), p.
Qed.

Lemma PPC_PluginsEnabled_go_ok c p :
  PPC_PluginsEnabled_go c p = Ret (PPC_PluginsEnabled c p).
Proof.
  unfold PPC_PluginsEnabled, PPC_PluginsEnabled_go.
  by destruct (ps_Plugins _), p.
Qed.

(** [HasEnabledPluginsRequiringSchedulingGate] *)
Definition HasEnabledPluginsRequiringSchedulingGate (p : PodPlacementConfig) : bool :=
  PPC_PluginsEnabled p NodeAffinityScoringPluginName ||
  PPC_PluginsEnabled p CelArchitecturePlacementPluginName.

(** The plugin configuration behind an enabled plugin is there to be read:
    [ppc.Spec.Plugins.NodeAffinityScoring] after the check never dereferences nil. *)
Definition ppc_scoring (p : PodPlacementConfig) : option NodeAffinityScoring :=
  ps_Plugins (ppc_Spec p) ≫= lp_NodeAffinityScoring.

Definition ppc_cel (p : PodPlacementConfig) : option CelArchitecturePlacement :=
  ps_Plugins (ppc_Spec p) ≫= lp_CelArchitecturePlacement.

Definition cppc_scoring (c : ClusterPodPlacementConfig) : option NodeAffinityScoring :=
  cs_Plugins (cppc_Spec c) ≫= pl_NodeAffinityScoring.

Lemma ppc_scoring_enabled p :
  PPC_PluginsEnabled p NodeAffinityScoringPluginName = true ↔
  ∃ s, ppc_scoring p = Some s ∧ nas_Enabled s = true.
Proof.
  unfold PPC_PluginsEnabled, PPC_PluginsEnabled_go, ppc_scoring.
  destruct (ps_Plugins _) as [[[s|] c]|]; cbn; naive_solver.
Qed.

Lemma ppc_cel_enabled p :
  PPC_PluginsEnabled p CelArchitecturePlacementPluginName = true ↔
  ∃ s, ppc_cel p = Some s ∧ cel_Enabled s = true.
Proof.
  unfold PPC_PluginsEnabled, PPC_PluginsEnabled_go, ppc_cel.
  destruct (ps_Plugins _) as [[s [c|]]|]; cbn; naive_solver.
Qed.

Lemma cppc_scoring_enabled c :
  CPPC_PluginsEnabled c NodeAffinityScoringPluginName = true ↔
  ∃ s, cppc_scoring c = Some s ∧ nas_Enabled s = true.
Proof.
  unfold CPPC_PluginsEnabled, CPPC_PluginsEnabled_go, cppc_scoring.
  destruct (cs_Plugins _) as [[[s|] e]|]; cbn; naive_solver.
Qed.

End v1beta1.
