(* ===== verification/LabelSelectors.v ===== *)
(** * Label selectors

    [metav1.LabelSelectorAsSelector] and the matching of the selector it
    returns, from the vendored [k8s.io/apimachinery].  The syntax checks on
    keys and values ([validateLabelKey], [validateLabelValue]) are parameters:
    the operator only sees whether they fail. *)
From stdpp Require Import base gmap strings list.
From S2P Require Import Prelude Api.

Module labels.

Inductive Operator : Set := OpEquals | OpIn | OpNotIn | OpExists | OpDoesNotExist.

Record Requirement := mkReq { rq_key : string; rq_op : Operator; rq_values : list string }.

(** The two dynamic types a [labels.Selector] has here. *)
Inductive Selector : Type :=
| nothingSelector
| internalSelector (rs : list Requirement).

#[global] Instance Operator_eq_dec : EqDecision Operator.
Proof. solve_decision. Defined.
#[global] Instance Requirement_eq_dec : EqDecision Requirement.
Proof. solve_decision. Defined.
#[global] Instance Selector_eq_dec : EqDecision Selector.
Proof. solve_decision. Defined.

Definition Nothing : Selector := nothingSelector.
Definition Everything : Selector := internalSelector [].

(** [(r *Requirement) Matches], for the operators a [LabelSelector] yields. *)
Definition req_Matches (r : Requirement) (ls : GoMap string) : bool :=
  match rq_op r with
  | OpEquals | OpIn =>
      match mlookup ls (rq_key r) with
      | Some v => bool_decide (v ∈ rq_values r)
      | None => false
      end
  | OpNotIn =>
      match mlookup ls (rq_key r) with
      | Some v => negb (bool_decide (v ∈ rq_values r))
      | None => true
      end
  | OpExists => bool_decide (is_Some (mlookup ls (rq_key r)))
  | OpDoesNotExist => negb (bool_decide (is_Some (mlookup ls (rq_key r))))
  end.

(** [Selector.Matches]; [internalSelector] is the conjunction of its
    requirements. *)
Definition Matches (s : Selector) (ls : GoMap string) : bool :=
  match s with
  | nothingSelector => false
  | internalSelector rs => forallb (λ r, req_Matches r ls) rs
  end.

Section validation.
Context (keyOk : string → bool) (valueOk : string → string → bool).

Definition invalid (k : string) : GoError := errOther ("invalid label selector: " +:+ k).

(** [labels.NewRequirement] *)
Definition NewRequirement (k : string) (op : Operator) (vs : list string) : res Requirement :=
  let arity :=
    match op with
    | OpIn | OpNotIn => negb (bool_decide (vs = []))
    | OpEquals => Nat.eqb (length vs) 1
    | OpExists | OpDoesNotExist => bool_decide (vs = [])
    end in
  if keyOk k && arity && forallb (valueOk k) vs
  then Ok (mkReq k op vs) else Err (invalid k).

Definition operatorOf (s : string) : option Operator :=
  if bool_decide (s = "In") then Some OpIn
  else if bool_decide (s = "NotIn") then Some OpNotIn
  else if bool_decide (s = "Exists") then Some OpExists
  else if bool_decide (s = "DoesNotExist") then Some OpDoesNotExist
  else None.

Definition exprRequirement (e : LabelSelectorRequirement) : res Requirement :=
  match operatorOf (lsr_Operator e) with
  | None => Err (invalid (lsr_Operator e))
  | Some op => NewRequirement (lsr_Key e) op (elems (lsr_Values e))
  end.

Fixpoint sequence {A} (l : list (res A)) : res (list A) :=
  match l with
  | [] => Ok []
  | r :: l' => x ← r; xs ← sequence l'; Ok (x :: xs)
  end.

(** [metav1.LabelSelectorAsSelector].  The requirements are then sorted by key,
    which does not change what the conjunction matches and is left out. *)
Definition LabelSelectorAsSelector (ps : option LabelSelector) : res Selector :=
  match ps with
  | None => Ok Nothing
  | Some s =>
      let ml := map_to_list (default ∅ (ls_MatchLabels s)) in
      let me := elems (ls_MatchExpressions s) in
      if Nat.eqb (length ml + length me) 0 then Ok Everything
      else
        rs1 ← sequence ((λ kv, NewRequirement kv.1 OpEquals [kv.2]) <$> ml);
        rs2 ← sequence (exprRequirement <$> me);
        Ok (internalSelector (rs1 ++ rs2))
  end.

(** Which selectors parse does not depend on the order the labels are visited. *)
Lemma sequence_ok {A} (l : list (res A)) xs :
  sequence l = Ok xs ↔ l = Ok <$> xs.
Proof.
  split.
  - revert xs. induction l as [|[x|e] l IH]; intros xs; cbn; [by intros [= <-]| |done].
    destruct (sequence l) as [ys|]; cbn; [|done]. intros [= <-]. cbn. by rewrite (IH ys).
  - intros ->. induction xs as [|x xs IH]; cbn; [done|]. by rewrite IH.
Qed.

End validation.
End labels.
