(* ===== verification/NodeMatch.v ===== *)
(** * Which nodes a pod may be scheduled on

    The specification the architecture constraints are proved against: the
    meaning the Kubernetes API gives to [nodeSelector] and to the required node
    affinity.  Node selector terms are ORed, the requirements of a term are
    ANDed, and an empty term matches nothing (the comments on [NodeSelector] and
    [NodeSelectorTerm] of the vendored [core/v1/types.go]).

    The numeric operators and the field selectors play no role for the
    architecture label: their meaning is the class [NodeEval]. *)
From stdpp Require Import base gmap strings list.
From S2P Require Import Prelude Api.

Record Node := mkNode { nd_Name : string; nd_Labels : gmap string string }.

Class NodeEval := {
  (** [Gt], [Lt] and operators the API does not define *)
  other_match : Node → NodeSelectorRequirement → bool;
  (** the [matchFields] requirements *)
  field_match : Node → NodeSelectorRequirement → bool;
}.

(** ** Accessors of the affinity structure *)
Definition required_of (s : PodSpec) : option NodeSelector :=
  (ps_Affinity s ≫= aff_NodeAffinity) ≫= na_Required.

Definition preferred_of (s : PodSpec) : GoSlice PreferredSchedulingTerm :=
  (ps_Affinity s ≫= aff_NodeAffinity) ≫= na_Preferred.

(** The terms a [range] over [...RequiredDuringScheduling...NodeSelectorTerms]
    visits. *)
Definition required_terms (s : PodSpec) : list NodeSelectorTerm :=
  match required_of s with
  | Some ns => elems (ns_NodeSelectorTerms ns)
  | None => []
  end.

Definition aff_of (s : PodSpec) : Affinity := default (mkAff None None None) (ps_Affinity s).
Definition na_of (s : PodSpec) : NodeAffinity :=
  default (mkNA None None) (aff_NodeAffinity (aff_of s)).

(** Assign the required (or preferred) part, creating the enclosing structures
    that are nil and keeping everything else. *)
Definition put_NodeAffinity (na : NodeAffinity) (s : PodSpec) : PodSpec :=
  set_Affinity (Some (mkAff (Some na) (aff_PodAffinity (aff_of s))
                        (aff_PodAntiAffinity (aff_of s)))) s.

Definition put_Required (ns : NodeSelector) (s : PodSpec) : PodSpec :=
  put_NodeAffinity (mkNA (Some ns) (na_Preferred (na_of s))) s.

Definition put_Preferred (l : GoSlice PreferredSchedulingTerm) (s : PodSpec) : PodSpec :=
  put_NodeAffinity (mkNA (na_Required (na_of s)) l) s.

Lemma required_of_put_Required ns s : required_of (put_Required ns s) = Some ns.
Proof. done. Qed.

Lemma preferred_of_put_Required ns s : preferred_of (put_Required ns s) = preferred_of s.
Proof. by destruct s as [?? [[[[??]|]??]|] ????]. Qed.

Lemma required_of_put_Preferred l s : required_of (put_Preferred l s) = required_of s.
Proof. by destruct s as [?? [[[[??]|]??]|] ????]. Qed.

Lemma preferred_of_put_Preferred l s : preferred_of (put_Preferred l s) = l.
Proof. done. Qed.

Lemma na_of_required s : na_Required (na_of s) = required_of s.
Proof. by destruct s as [?? [[[[??]|]??]|] ????]. Qed.

Lemma put_Required_put ns ns' s : put_Required ns (put_Required ns' s) = put_Required ns s.
Proof. done. Qed.

Lemma required_terms_put ns s :
  required_terms (put_Required ns s) = elems (ns_NodeSelectorTerms ns).
Proof. done. Qed.

#[export] Hint Rewrite required_of_put_Required preferred_of_put_Required
  required_of_put_Preferred preferred_of_put_Preferred put_Required_put required_terms_put : go.

(** ** Matching *)
Section matching.
Context {nodeEval : NodeEval}.

Definition exprMatch (n : Node) (r : NodeSelectorRequirement) : bool :=
  let v := nd_Labels n !! nsr_Key r in
  match nsr_Operator r with
  | NodeSelectorOpIn =>
      match v with Some x => bool_decide (x ∈ elems (nsr_Values r)) | None => false end
  | NodeSelectorOpNotIn =>
      match v with Some x => negb (bool_decide (x ∈ elems (nsr_Values r))) | None => true end
  | NodeSelectorOpExists => bool_decide (is_Some v)
  | NodeSelectorOpDoesNotExist => negb (bool_decide (is_Some v))
  | _ => other_match n r
  end.

Definition term_empty (t : NodeSelectorTerm) : bool :=
  bool_decide (elems (nst_MatchExpressions t) = []) && bool_decide (elems (nst_MatchFields t) = []).

Definition termMatch (n : Node) (t : NodeSelectorTerm) : bool :=
  negb (term_empty t)
  && forallb (exprMatch n) (elems (nst_MatchExpressions t))
  && forallb (field_match n) (elems (nst_MatchFields t)).

Definition selectorMatch (n : Node) (ns : NodeSelector) : bool :=
  existsb (termMatch n) (elems (ns_NodeSelectorTerms ns)).

(** [spec.nodeSelector]: every listed label must be on the node. *)
Definition nodeSelectorMatch (n : Node) (m : GoMap string) : bool :=
  bool_decide (default ∅ m ⊆ nd_Labels n).

(** The pod's hard constraints on the node. *)
Definition admits (n : Node) (s : PodSpec) : bool :=
  nodeSelectorMatch n (ps_NodeSelector s)
  && match required_of s with
     | None => true
     | Some ns => selectorMatch n ns
     end.

(** The node carries one of the listed architectures. *)
Definition node_arch_in (n : Node) (archs : list string) : bool :=
  match nd_Labels n !! utils.ArchLabel with
  | Some a => bool_decide (a ∈ archs)
  | None => false
  end.

Lemma exprMatch_arch_in n archs :
  exprMatch n (mkNSR utils.ArchLabel NodeSelectorOpIn (Some archs)) = node_arch_in n archs.
Proof. done. Qed.

Lemma existsb_all_and {A} (f : A → bool) (b : bool) (l : list A) :
  existsb (λ x, f x && b) l = existsb f l && b.
Proof. induction l as [|x l IH]; cbn; [done|]. rewrite IH. by destruct (f x), (existsb f l), b. Qed.

Lemma existsb_or {A} (f g : A → bool) (l : list A) :
  existsb (λ x, f x || g x) l = existsb f l || existsb g l.
Proof. induction l as [|x l IH]; cbn; [done|]. rewrite IH. by destruct (f x), (g x), (existsb f l). Qed.

Lemma existsb_fmap {A B} (g : B → bool) (f : A → B) (l : list A) :
  existsb g (f <$> l) = existsb (λ x, g (f x)) l.
Proof. induction l as [|x l IH]; cbn; [done|]. by rewrite IH. Qed.

Lemma existsb_ext {A} (f g : A → bool) (l : list A) :
  Forall (λ x, f x = g x) l → existsb f l = existsb g l.
Proof. induction 1 as [|x l Hx _ IH]; cbn; [done|]. by rewrite Hx, IH. Qed.

End matching.
