(* ===== verification/Models.v ===== *)
(** * The pod wrapper of [pkg/models/pod.go]

    A pod with the event recorder it publishes to.  The recorder is nil or
    holds the events published so far, newest last. *)
From Stdlib Require Import Ascii.
From stdpp Require Import base gmap strings list.
From S2P Require Import Prelude GoStd Api.

Module models.

Record Event := mkEvent { ev_Type : string; ev_Reason : string; ev_Message : string }.

Definition EventTypeNormal := "Normal".
Definition EventTypeWarning := "Warning".

(** [models.Pod]; the context is only used for logging. *)
Record Pod := mkP { pod_obj : CorePod; pod_recorder : option (list Event) }.

Definition NewPod (p : CorePod) (recorder : option (list Event)) : Pod := mkP p recorder.

Definition upd (f : CorePod → CorePod) (p : Pod) : Pod := mkP (f (pod_obj p)) (pod_recorder p).

Definition pod_Labels (p : Pod) : GoMap string := om_Labels (p_Meta (pod_obj p)).
Definition pod_Annotations (p : Pod) : GoMap string := om_Annotations (p_Meta (pod_obj p)).
Definition pod_Namespace (p : Pod) : string := om_Namespace (p_Meta (pod_obj p)).
Definition pod_Gates (p : Pod) : GoSlice string := ps_SchedulingGates (p_Spec (pod_obj p)).
Definition pod_Affinity (p : Pod) : option Affinity := ps_Affinity (p_Spec (pod_obj p)).
Definition pod_NodeSelector (p : Pod) : GoMap string := ps_NodeSelector (p_Spec (pod_obj p)).

(** [PublishEvent] *)
Definition PublishEvent (t reason msg : string) (p : Pod) : Pod :=
  mkP (pod_obj p) ((λ es, es ++ [mkEvent t reason msg]) <$> pod_recorder p).

(** [HasGate] *)
Definition HasGate (g : string) (p : Pod) : bool :=
  match pod_Gates p with
  | None => false
  | Some gs => existsb (λ x, bool_decide (x = g)) gs
  end.

(** [AddGate]: [make([]PodSchedulingGate, 0)] for a nil slice, then append. *)
Definition AddGate (g : string) (p : Pod) : Pod :=
  if HasGate g p then p
  else upd (upd_spec (set_SchedulingGates (Some (elems (pod_Gates p) ++ [g])))) p.

(** [RemoveGate] *)
Definition RemoveGate (g : string) (p : Pod) : Pod :=
  if negb (HasGate g p) then p
  else upd (upd_spec (set_SchedulingGates
         (Some (List.filter (λ x, negb (bool_decide (x = g))) (elems (pod_Gates p)))))) p.

(** [EnsureLabel], [EnsureNoLabel], [EnsureAnnotation] *)
Definition EnsureLabel (k v : string) (p : Pod) : Pod :=
  upd (upd_meta (λ m, set_Labels (mensure (om_Labels m) k v) m)) p.

Definition EnsureNoLabel (k : string) (p : Pod) : Pod :=
  upd (upd_meta (λ m, set_Labels (mdelete (om_Labels m) k) m)) p.

Definition EnsureAnnotation (k v : string) (p : Pod) : Pod :=
  upd (upd_meta (λ m, set_Annotations (mensure (om_Annotations m) k v) m)) p.

(** The value [EnsureAndIncrementLabel] writes, given what the label holds. *)
Definition next_count (cur : option string) : string :=
  match cur with
  | None => "1"
  | Some s =>
      match parseInt32 s with
      | None => "1"
      | Some n => sprintd (n + 1)
      end
  end.

(** [EnsureAndIncrementLabel] *)
Definition EnsureAndIncrementLabel (k : string) (p : Pod) : Pod :=
  EnsureLabel k (next_count (mlookup (pod_Labels p) k)) p.

(** [HasControlPlaneNodeSelector] *)
Definition HasControlPlaneNodeSelector (p : Pod) : bool :=
  existsb (λ l, bool_decide (is_Some (mlookup (pod_NodeSelector p) l)))
    [utils.MasterNodeSelectorLabel; utils.ControlPlaneNodeSelectorLabel].

(** [IsFromDaemonSet] *)
Definition IsFromDaemonSet (p : Pod) : bool :=
  existsb (λ o, bool_decide (or_Kind o = "DaemonSet") && default false (or_Controller o))
    (elems (om_OwnerReferences (p_Meta (pod_obj p)))).

(** The test [regexp.MatchString("^.+://[a-f0-9]{64}$", id)]: the expression
    fixes the last 67 characters, and [.+] is any non-empty text without a line
    feed before them. *)
Definition is_hex (c : ascii) : bool :=
  let n := nat_of_ascii c in
  ((97 <=? n) && (n <=? 102)) || ((48 <=? n) && (n <=? 57)).

Fixpoint str_forallb (f : ascii → bool) (s : string) : bool :=
  match s with
  | EmptyString => true
  | String c s' => f c && str_forallb f s'
  end.

Definition containerID_ok (id : string) : bool :=
  let n := String.length id in
  (68 <=? n)
  && str_forallb is_hex (String.substring (n - 64) 64 id)
  && bool_decide (String.substring (n - 67) 3 id = "://")
  && negb (has_char "010"%char (String.substring 0 (n - 67) id)).

(** [ContainerNameFor] *)
Definition ContainerNameFor (id : string) (p : Pod) : res string :=
  if negb (containerID_ok id)
  then Err (errOther ("invalid container ID format: " +:+ id))
  else match List.find (λ c, bool_decide (cs_ContainerID c = id))
               (p_ContainerStatuses (pod_obj p)) with
       | Some c => Ok (cs_Name c)
       | None => Err (errOther ("container with ID " +:+ id +:+ " not found in pod "
                                +:+ om_Name (p_Meta (pod_obj p))))
       end.

(** ** Lemmas: what each update leaves alone *)

Lemma pod_Labels_EnsureLabel k v p :
  pod_Labels (EnsureLabel k v p) = mensure (pod_Labels p) k v.
Proof. done. Qed.

Lemma pod_Labels_EnsureNoLabel k p :
  pod_Labels (EnsureNoLabel k p) = mdelete (pod_Labels p) k.
Proof. done. Qed.

Lemma HasGate_iff g p : HasGate g p = true ↔ g ∈ elems (pod_Gates p).
Proof.
  unfold HasGate. destruct (pod_Gates p) as [gs|]; cbn.
  - rewrite existsb_bool_decide, Exists_exists. naive_solver.
  - split; [done|]. by intros ?%elem_of_nil.
Qed.

Lemma elems_AddGate g p :
  elems (pod_Gates (AddGate g p)) =
  if HasGate g p then elems (pod_Gates p) else elems (pod_Gates p) ++ [g].
Proof. unfold AddGate. by destruct (HasGate g p). Qed.

Lemma elems_RemoveGate g p :
  elems (pod_Gates (RemoveGate g p)) =
  List.filter (λ x, negb (bool_decide (x = g))) (elems (pod_Gates p)).
Proof.
  unfold RemoveGate. destruct (HasGate g p) eqn:E; cbn; [done|].
  unfold HasGate in E. unfold elems. destruct (pod_Gates p) as [gs|]; cbn in *; [|done].
  apply existsb_false_Forall in E.
  induction E as [|x gs Hx _ IH]; cbn; [done|]. rewrite Hx. cbn. by f_equal.
Qed.

Lemma HasGate_RemoveGate_eq g p : HasGate g (RemoveGate g p) = false.
Proof.
  apply not_true_iff_false. rewrite HasGate_iff, elems_RemoveGate.
  rewrite list_elem_of_In, filter_In. intros [_ H].
  by rewrite bool_decide_eq_true_2 in H.
Qed.

Lemma HasGate_RemoveGate_ne g g' p :
  g ≠ g' → HasGate g' (RemoveGate g p) = HasGate g' p.
Proof.
  intros Hne. apply eq_true_iff_eq. rewrite !HasGate_iff, elems_RemoveGate.
  rewrite !list_elem_of_In, filter_In. rewrite bool_decide_eq_false_2 by congruence.
  naive_solver.
Qed.

Lemma HasGate_AddGate g p : HasGate g (AddGate g p) = true.
Proof.
  apply HasGate_iff. rewrite elems_AddGate. destruct (HasGate g p) eqn:E.
  - by apply HasGate_iff.
  - apply elem_of_app. right. by apply list_elem_of_singleton.
Qed.

#[export] Hint Rewrite pod_Labels_EnsureLabel pod_Labels_EnsureNoLabel
  HasGate_RemoveGate_eq HasGate_AddGate : go.

(** Counting: [n] increments of an absent counter give [n], up to the first
    value that no longer fits a 32-bit parse, after which it restarts at 1. *)
Lemma next_count_step (n : Z) :
  (0 ≤ n)%Z →
  next_count (Some (sprintd n)) =
  if (n <=? maxInt32)%Z then sprintd (n + 1) else "1".
Proof.
  intros Hn. unfold next_count. destruct (n <=? maxInt32)%Z eqn:E.
  - rewrite parseInt32_sprintd; [done|]. unfold in_int32. rewrite E, andb_true_r.
    apply Z.leb_le. unfold minInt32. lia.
  - rewrite parseInt32_sprintd_overflow; [done..|].
    unfold in_int32. by rewrite E, andb_false_r.
Qed.

Lemma EnsureAndIncrementLabel_iter k p (n : nat) :
  mlookup (pod_Labels p) k = None →
  (Z.of_nat n < 2 ^ 31)%Z →
  mlookup (pod_Labels (Nat.iter (S n) (EnsureAndIncrementLabel k) p)) k =
    Some (sprintd (Z.of_nat (S n))).
Proof.
  intros Hk. induction n as [|n IH]; intros Hn.
  - cbn [Nat.iter nat_rect]. unfold EnsureAndIncrementLabel.
    by rewrite pod_Labels_EnsureLabel, mlookup_mensure_eq, Hk.
  - cbn [Nat.iter nat_rect]. cbn [Nat.iter nat_rect] in IH. unfold EnsureAndIncrementLabel at 1.
    rewrite pod_Labels_EnsureLabel, mlookup_mensure_eq, IH by lia.
    rewrite next_count_step by lia. unfold maxInt32.
    rewrite (proj2 (Z.leb_le _ _)) by lia. f_equal. f_equal. lia.
Qed.

End models.
