(* ===== verification/ArchConstraints.v ===== *)
(** * Replacing a pod's architecture constraints

    [internal/controller/podplacement/architecture_removal.go] and
    [architecture_application.go]: the CEL plugin removes every architecture
    constraint of a pod and sets its own.  The theorems give the nodes the pod
    is admitted on afterwards, and show that applying the same choice a second
    time (webhook, then reconciler) changes nothing, as the API server refuses
    changes to a non-empty list of terms. *)
From stdpp Require Import base gmap strings list.
From S2P Require Import Prelude Api NodeMatch.

Definition is_arch_expr (r : NodeSelectorRequirement) : bool :=
  bool_decide (nsr_Key r = utils.ArchLabel).

(** The inner loop both files share: [var cleanedExpressions] appended to. *)
Definition cleanedExpressions (t : NodeSelectorTerm) : GoSlice NodeSelectorRequirement :=
  sappend None (List.filter (λ r, negb (is_arch_expr r)) (elems (nst_MatchExpressions t))).
Arguments cleanedExpressions : simpl never.

(** [removeArchitectureFromNodeSelector] *)
Definition removeArchitectureFromNodeSelector (p : CorePod) : bool * CorePod :=
  match ps_NodeSelector (p_Spec p) with
  | None => (false, p)
  | Some g =>
      match g !! utils.ArchLabel with
      | Some _ => (true, upd_spec (set_NodeSelector (Some (delete utils.ArchLabel g))) p)
      | None => (false, p)
      end
  end.

(** One iteration of the loop over the terms: the cleaned term, if kept, and
    whether something was removed. *)
Definition cleanTerm (t : NodeSelectorTerm) : bool * option NodeSelectorTerm :=
  let removed := existsb is_arch_expr (elems (nst_MatchExpressions t)) in
  let ce := cleanedExpressions t in
  if negb (bool_decide (elems ce = [])) || negb (bool_decide (elems (nst_MatchFields t) = []))
  then (removed, Some (mkNST ce (nst_MatchFields t)))
  else (true, None).

Definition cleanTerms (ts : list NodeSelectorTerm) : list NodeSelectorTerm :=
  omap (λ t, (cleanTerm t).2) ts.
Arguments cleanTerms : simpl never.

(** [removeArchitectureFromNodeAffinity] *)
Definition removeArchitectureFromNodeAffinity (p : CorePod) : bool * CorePod :=
  match ps_Affinity (p_Spec p) with
  | None => (false, p)
  | Some a =>
      match aff_NodeAffinity a with
      | None => (false, p)
      | Some na =>
          match na_Required na with
          | None => (false, p)
          | Some ns =>
              let terms := elems (ns_NodeSelectorTerms ns) in
              let removed := existsb (λ t, (cleanTerm t).1) terms in
              let cleaned := cleanTerms terms in
              let required := if bool_decide (cleaned = []) then None
                              else Some (mkNS (Some cleaned)) in
              let na' := match required, na_Preferred na with
                         | None, None => None
                         | _, _ => Some (mkNA required (na_Preferred na))
                         end in
              let a' := match na', aff_PodAffinity a, aff_PodAntiAffinity a with
                        | None, None, None => None
                        | _, _, _ => Some (mkAff na' (aff_PodAffinity a) (aff_PodAntiAffinity a))
                        end in
              (removed, upd_spec (set_Affinity a') p)
          end
      end
  end.

(** [removeAllArchitectureConstraints] *)
Definition removeAllArchitectureConstraints (p : CorePod) : bool * CorePod :=
  let '(b1, p1) := removeArchitectureFromNodeSelector p in
  let '(b2, p2) := removeArchitectureFromNodeAffinity p1 in
  (b1 || b2, p2).

(** The three nil checks that precede every change of the required affinity. *)
Definition ensureRequired (s : PodSpec) : PodSpec :=
  put_Required (default (mkNS None) (required_of s)) s.

Definition archRequirement (archs : list string) : NodeSelectorRequirement :=
  mkNSR utils.ArchLabel NodeSelectorOpIn (Some archs).

(** The loop body of [applyArchitectureNodeAffinity]. *)
Definition replaceArch (r : NodeSelectorRequirement) (t : NodeSelectorTerm) : NodeSelectorTerm :=
  mkNST (sappend (cleanedExpressions t) [r]) (nst_MatchFields t).

(** [applyArchitectureNodeAffinity] *)
Definition applyArchitectureNodeAffinity (archs : GoSlice string) (p : CorePod) : CorePod :=
  if bool_decide (elems archs = []) then p
  else
    let r := mkNSR utils.ArchLabel NodeSelectorOpIn archs in
    upd_spec (λ s0,
      let s := ensureRequired s0 in
      let existingTerms := required_terms s in
      if bool_decide (existingTerms = [])
      then put_Required (mkNS (Some [mkNST (Some [r]) None])) s
      else put_Required (mkNS (Some (replaceArch r <$> existingTerms))) s) p.

(** [applyArchitectureConstraints] *)
Definition applyArchitectureConstraints (archs : GoSlice string) (p : CorePod) : bool * CorePod :=
  if bool_decide (elems archs = []) then (false, p)
  else (true, applyArchitectureNodeAffinity archs (removeAllArchitectureConstraints p).2).

(** ** The non-architecture part of a pod's constraints *)

(** What is left of the node selector and of the required terms. *)
Definition strip_selector (m : GoMap string) : GoMap string := mdelete m utils.ArchLabel.

Lemma removeSelector_eq p :
  (removeArchitectureFromNodeSelector p).2 =
  upd_spec (λ s, set_NodeSelector (strip_selector (ps_NodeSelector s)) s) p.
Proof.
  destruct p as [m [nn [sg|] aff g c ic ips] st]; [|done].
  unfold removeArchitectureFromNodeSelector, strip_selector; cbn.
  destruct (sg !! utils.ArchLabel) eqn:E; [done|]. unfold upd_spec; cbn.
  by rewrite delete_id.
Qed.

Lemma removeAffinity_spec p :
  let q := (removeArchitectureFromNodeAffinity p).2 in
  ps_NodeSelector (p_Spec q) = ps_NodeSelector (p_Spec p)
  ∧ required_terms (p_Spec q) = cleanTerms (required_terms (p_Spec p))
  ∧ preferred_of (p_Spec q) = preferred_of (p_Spec p)
  ∧ (required_of (p_Spec q) = None ↔ cleanTerms (required_terms (p_Spec p)) = [])
  ∧ p_Meta q = p_Meta p.
Proof.
  destruct p as [m [nn sel aff g c ic ips] st].
  unfold removeArchitectureFromNodeAffinity, required_terms, required_of; cbn.
  destruct aff as [[[[[ns|] pref]|] pa paa]|]; cbn; try done.
  case_bool_decide as Hc; cbn; destruct pref, pa, paa; cbn; done.
Qed.

Lemma removeAll_spec p :
  let q := (removeAllArchitectureConstraints p).2 in
  ps_NodeSelector (p_Spec q) = strip_selector (ps_NodeSelector (p_Spec p))
  ∧ required_terms (p_Spec q) = cleanTerms (required_terms (p_Spec p))
  ∧ preferred_of (p_Spec q) = preferred_of (p_Spec p)
  ∧ (required_of (p_Spec q) = None ↔ cleanTerms (required_terms (p_Spec p)) = [])
  ∧ p_Meta q = p_Meta p.
Proof.
  unfold removeAllArchitectureConstraints.
  pose proof (removeSelector_eq p) as H1.
  destruct (removeArchitectureFromNodeSelector p) as [b1 p1]; cbn in H1; subst p1.
  pose proof (removeAffinity_spec
    (upd_spec (λ s, set_NodeSelector (strip_selector (ps_NodeSelector s)) s) p)) as H2.
  destruct (removeArchitectureFromNodeAffinity _) as [b2 p2]. exact H2.
Qed.

(** The terms [applyArchitectureNodeAffinity] leaves, given the cleaned ones. *)
Definition appliedTerms (r : NodeSelectorRequirement) (ts : list NodeSelectorTerm) :
    list NodeSelectorTerm :=
  match ts with
  | [] => [mkNST (Some [r]) None]
  | _ => replaceArch r <$> ts
  end.

(** The normal form of an application: the node selector without the
    architecture, and the applied terms in place of the required ones. *)
Lemma applyArchitectureConstraints_eq archs p :
  elems archs ≠ [] →
  (applyArchitectureConstraints archs p).2 =
  upd_spec (λ s, put_Required (mkNS (Some (appliedTerms
      (mkNSR utils.ArchLabel NodeSelectorOpIn archs) (cleanTerms (required_terms s)))))
      (set_NodeSelector (strip_selector (ps_NodeSelector s)) s)) p.
Proof.
  intros Ha. unfold applyArchitectureConstraints, applyArchitectureNodeAffinity.
  rewrite bool_decide_eq_false_2 by done. cbn [snd].
  unfold removeAllArchitectureConstraints.
  pose proof (removeSelector_eq p) as H1.
  destruct (removeArchitectureFromNodeSelector p) as [b1 p1]; cbn in H1; subst p1.
  destruct p as [m [nn sel aff g c ic ips] st].
  unfold removeArchitectureFromNodeAffinity, ensureRequired, required_terms, required_of,
    upd_spec; cbn.
  destruct aff as [[[[[ns|] pref]|] pa paa]|]; cbn; try done.
  destruct (cleanTerms (elems (ns_NodeSelectorTerms ns))) as [|t ts]; cbn;
    destruct pref, pa, paa; done.
Qed.

(** Cleaned terms have no architecture expression and are not empty, and
    cleaning is the identity on such terms. *)
Definition clean (t : NodeSelectorTerm) : Prop :=
  Forall (λ r, is_arch_expr r = false) (elems (nst_MatchExpressions t))
  ∧ (elems (nst_MatchExpressions t) ≠ [] ∨ elems (nst_MatchFields t) ≠ []).

Lemma elems_cleanedExpressions t :
  elems (cleanedExpressions t) =
  List.filter (λ r, negb (is_arch_expr r)) (elems (nst_MatchExpressions t)).
Proof. unfold cleanedExpressions. by rewrite elems_sappend. Qed.

Lemma filter_no_arch (l : list NodeSelectorRequirement) :
  Forall (λ r, is_arch_expr r = false) (List.filter (λ r, negb (is_arch_expr r)) l).
Proof.
  induction l as [|r l IH]; cbn; [done|].
  destruct (is_arch_expr r) eqn:E; cbn; [done|]. by constructor.
Qed.

Lemma filter_no_arch_id (l : list NodeSelectorRequirement) :
  Forall (λ r, is_arch_expr r = false) l →
  List.filter (λ r, negb (is_arch_expr r)) l = l.
Proof. induction 1 as [|r l Hr _ IH]; cbn; [done|]. rewrite Hr. cbn. by f_equal. Qed.

Lemma cleanTerm_clean t t' : (cleanTerm t).2 = Some t' → clean t'.
Proof.
  unfold cleanTerm. destruct (_ || _) eqn:E; cbn; [|done]. intros [= <-].
  split; cbn.
  - rewrite elems_cleanedExpressions. apply filter_no_arch.
  - apply orb_true_iff in E as [E|E]; bools; auto.
Qed.

Lemma cleanTerms_clean ts : Forall clean (cleanTerms ts).
Proof.
  apply Forall_forall. intros t' Ht. unfold cleanTerms in Ht.
  apply list_elem_of_omap in Ht as (t & _ & Ht). by eapply cleanTerm_clean.
Qed.

(** Replacing the architecture of a clean term and cleaning it again gives the
    same term, up to the nil-ness of an empty list of expressions. *)
Lemma cleanedExpressions_replaceArch archs t :
  clean t →
  cleanedExpressions (replaceArch (mkNSR utils.ArchLabel NodeSelectorOpIn archs) t) =
  sappend None (elems (nst_MatchExpressions t)).
Proof.
  intros [Hf _]. unfold cleanedExpressions at 1, replaceArch. cbn [nst_MatchExpressions].
  rewrite elems_sappend, elems_cleanedExpressions, List.filter_app.
  rewrite !filter_no_arch_id by (rewrite ?filter_no_arch_id; done).
  cbn. by rewrite app_nil_r.
Qed.

Lemma cleanTerm_replaceArch archs t :
  clean t →
  (cleanTerm (replaceArch (mkNSR utils.ArchLabel NodeSelectorOpIn archs) t)).2 =
  Some (mkNST (sappend None (elems (nst_MatchExpressions t))) (nst_MatchFields t)).
Proof.
  intros Hc. unfold cleanTerm. rewrite cleanedExpressions_replaceArch by done.
  rewrite elems_sappend. cbn [elems app]. destruct Hc as [_ Hne].
  destruct (elems (nst_MatchExpressions t)); cbn; [|done].
  rewrite bool_decide_eq_false_2; [done|]. by destruct Hne.
Qed.

Lemma cleanTerm_normal t t' :
  (cleanTerm t).2 = Some t' →
  nst_MatchExpressions t' = sappend None (elems (nst_MatchExpressions t')).
Proof.
  unfold cleanTerm. destruct (_ || _); cbn; [|done]. intros [= <-]. cbn.
  unfold cleanedExpressions. by destruct (List.filter _ _).
Qed.

Lemma cleanTerms_cons t ts :
  cleanTerms (t :: ts) =
  match (cleanTerm t).2 with Some t' => t' :: cleanTerms ts | None => cleanTerms ts end.
Proof. done. Qed.

Lemma cleanTerms_applied archs ts :
  cleanTerms (appliedTerms (mkNSR utils.ArchLabel NodeSelectorOpIn archs) (cleanTerms ts))
  = cleanTerms ts.
Proof.
  set (r := mkNSR _ _ _).
  assert (H : cleanTerms (replaceArch r <$> cleanTerms ts) = cleanTerms ts).
  { induction ts as [|t ts IH]; [done|]. rewrite cleanTerms_cons.
    destruct (cleanTerm t).2 as [t'|] eqn:E; [|done]. rewrite fmap_cons, cleanTerms_cons.
    unfold r in *.
    rewrite (cleanTerm_replaceArch archs t') by (by eapply cleanTerm_clean).
    rewrite <-(cleanTerm_normal _ _ E), IH. by destruct t'. }
  destruct (cleanTerms ts) as [|t ts'] eqn:E; [done|]. exact H.
Qed.

(** ** Theorems *)

(** The requirement is part of every applied term. *)
Lemma appliedTerms_arch r ts :
  Forall (λ t, r ∈ elems (nst_MatchExpressions t)) (appliedTerms r ts).
Proof.
  assert (H : Forall (λ t, r ∈ elems (nst_MatchExpressions t)) (replaceArch r <$> ts)).
  { apply Forall_fmap, Forall_forall. intros t _. cbn.
    rewrite elems_sappend. apply elem_of_app. right. by apply list_elem_of_singleton. }
  destruct ts; [|exact H]. constructor; [|done]. by apply list_elem_of_singleton.
Qed.

Section semantics.
Context {nodeEval : NodeEval}.

Lemma termMatch_replaceArch n r t :
  clean t → termMatch n (replaceArch r t) = termMatch n t && exprMatch n r.
Proof.
  intros [Hf Hne]. unfold termMatch, replaceArch, term_empty.
  cbn [nst_MatchExpressions nst_MatchFields].
  rewrite elems_sappend, elems_cleanedExpressions, filter_no_arch_id by done.
  rewrite forallb_app. cbn [forallb].
  rewrite (bool_decide_eq_false_2 (_ ++ _ = [])) by (by destruct (elems _)).
  assert (bool_decide (elems (nst_MatchExpressions t) = []) &&
          bool_decide (elems (nst_MatchFields t) = []) = false) as ->.
  { apply andb_false_iff. rewrite !bool_decide_eq_false. done. }
  cbn. rewrite andb_true_r. by destruct (forallb _ _), (exprMatch n r), (forallb _ _).
Qed.

Lemma selectorMatch_applied n r ts :
  Forall clean ts →
  existsb (termMatch n) (appliedTerms r ts) =
  (bool_decide (ts = []) || existsb (termMatch n) ts) && exprMatch n r.
Proof.
  intros Hc. destruct ts as [|t ts].
  { cbn. unfold termMatch. cbn. by rewrite !andb_true_r, orb_false_r. }
  rewrite bool_decide_eq_false_2 by done. unfold appliedTerms. rewrite existsb_fmap, orb_false_l.
  rewrite <-existsb_all_and. apply existsb_ext.
  eapply Forall_impl; [exact Hc|]. intros x Hx. by apply termMatch_replaceArch.
Qed.

(** The nodes a pod is admitted on after its architecture constraints were
    replaced: those whose architecture is one of [archs] and that satisfy the
    rest of the node selector and of the required affinity. *)
Lemma applyArchitectureConstraints_admits (n : Node) (archs : list string) (p : CorePod) :
  archs ≠ [] →
  admits n (p_Spec (applyArchitectureConstraints (Some archs) p).2) =
  nodeSelectorMatch n (strip_selector (ps_NodeSelector (p_Spec p)))
  && (bool_decide (cleanTerms (required_terms (p_Spec p)) = [])
      || existsb (termMatch n) (cleanTerms (required_terms (p_Spec p))))
  && node_arch_in n archs.
Proof.
  intros Ha. rewrite applyArchitectureConstraints_eq by done.
  unfold admits; cbn [p_Spec upd_spec]. rewrite required_of_put_Required.
  unfold selectorMatch; cbn [ns_NodeSelectorTerms elems ps_NodeSelector].
  rewrite selectorMatch_applied by apply cleanTerms_clean.
  rewrite exprMatch_arch_in. by rewrite andb_assoc.
Qed.

End semantics.

(** A later choice of architectures replaces an earlier one, without
    accumulating terms; in particular the same choice made again by the
    reconciler leaves the pod the webhook produced as it is. *)
Lemma applyArchitectureConstraints_last_wins (a1 a2 : list string) (p : CorePod) :
  a1 ≠ [] → a2 ≠ [] →
  (applyArchitectureConstraints (Some a2) (applyArchitectureConstraints (Some a1) p).2).2 =
  (applyArchitectureConstraints (Some a2) p).2.
Proof.
  intros H1 H2. rewrite !applyArchitectureConstraints_eq by done.
  destruct p as [m s st]. unfold upd_spec; cbn [p_Spec p_Meta p_ContainerStatuses].
  rewrite required_terms_put. cbn [ns_NodeSelectorTerms elems].
  rewrite cleanTerms_applied. f_equal.
  destruct s as [nn [sel|] aff g c ic ips]; [|done]. unfold strip_selector; cbn.
  unfold put_Required, put_NodeAffinity, set_Affinity, set_NodeSelector; cbn.
  by rewrite delete_delete_eq.
Qed.

(** Removal is complete: neither the node selector nor a required term
    mentions the architecture afterwards, no empty term is left, and the
    preferred terms are those of before. *)
Lemma removeAllArchitectureConstraints_complete (p : CorePod) :
  let q := (removeAllArchitectureConstraints p).2 in
  mlookup (ps_NodeSelector (p_Spec q)) utils.ArchLabel = None
  ∧ Forall clean (required_terms (p_Spec q))
  ∧ preferred_of (p_Spec q) = preferred_of (p_Spec p)
  ∧ p_Meta q = p_Meta p.
Proof.
  pose proof (removeAll_spec p) as (H1 & H2 & H3 & _ & H5).
  cbn zeta in *. rewrite H1, H2. repeat split; try done.
  - apply mlookup_mdelete_eq.
  - apply cleanTerms_clean.
Qed.

(** ** The in-place override

    What the webhook and the reconciler do with the architectures the CEL plugin
    chose: drop the architecture from the node selector and replace it in every
    required term, without removing a term. *)
Definition overrideArchitectures (archs : GoSlice string) (p : CorePod) : CorePod :=
  applyArchitectureNodeAffinity archs (removeArchitectureFromNodeSelector p).2.

Lemma overrideArchitectures_eq archs p :
  elems archs ≠ [] →
  overrideArchitectures archs p =
  upd_spec (λ s, put_Required (mkNS (Some (appliedTerms
      (mkNSR utils.ArchLabel NodeSelectorOpIn archs) (required_terms s))))
      (set_NodeSelector (strip_selector (ps_NodeSelector s)) s)) p.
Proof.
  intros Ha. unfold overrideArchitectures, applyArchitectureNodeAffinity.
  rewrite bool_decide_eq_false_2 by done. rewrite removeSelector_eq.
  destruct p as [m [nn sel aff g c ic ips] st].
  unfold ensureRequired, required_terms, required_of, upd_spec; cbn.
  by destruct aff as [[[[[[[[|t ts]|]]|] pref]|] pa paa]|].
Qed.

(** The requirements of a term other than those on the architecture. *)
Definition restMatch `{!NodeEval} (n : Node) (t : NodeSelectorTerm) : bool :=
  forallb (exprMatch n) (List.filter (λ r, negb (is_arch_expr r)) (elems (nst_MatchExpressions t)))
  && forallb (field_match n) (elems (nst_MatchFields t)).

Lemma termMatch_replaceArch_rest `{!NodeEval} n r t :
  termMatch n (replaceArch r t) = restMatch n t && exprMatch n r.
Proof.
  unfold termMatch, replaceArch, term_empty, restMatch.
  cbn [nst_MatchExpressions nst_MatchFields].
  rewrite elems_sappend, elems_cleanedExpressions, forallb_app. cbn [forallb].
  rewrite (bool_decide_eq_false_2 (_ ++ _ = [])) by (by destruct (List.filter _ _)).
  cbn. rewrite andb_true_r. by destruct (forallb _ _), (exprMatch n r), (forallb _ _).
Qed.

(** C8: the nodes a pod is admitted on after the CEL plugin chose [archs]: the
    architecture is one of them, and every constraint of the pod that is not on
    the architecture still holds; constraints on the architecture that the
    user had set no longer count. *)
Theorem overrideArchitectures_admits `{!NodeEval} (n : Node) (archs : list string) (p : CorePod) :
  archs ≠ [] →
  admits n (p_Spec (overrideArchitectures (Some archs) p)) =
  nodeSelectorMatch n (strip_selector (ps_NodeSelector (p_Spec p)))
  && (bool_decide (required_terms (p_Spec p) = [])
      || existsb (restMatch n) (required_terms (p_Spec p)))
  && node_arch_in n archs.
Proof.
  intros Ha. rewrite overrideArchitectures_eq by done.
  unfold admits; cbn [p_Spec upd_spec]. rewrite required_of_put_Required.
  unfold selectorMatch; cbn [ns_NodeSelectorTerms elems ps_NodeSelector].
  rewrite <-andb_assoc. f_equal. destruct (required_terms (p_Spec p)) as [|t ts].
  { cbn. unfold termMatch. cbn. by rewrite !andb_true_r, orb_false_r. }
  rewrite bool_decide_eq_false_2 by done. unfold appliedTerms.
  rewrite existsb_fmap, orb_false_l, <-existsb_all_and. apply existsb_ext, Forall_forall.
  intros x _. apply termMatch_replaceArch_rest.
Qed.

(** Replacing twice. *)
Lemma replaceArch_replaceArch r r' t :
  is_arch_expr r' = true → replaceArch r (replaceArch r' t) = replaceArch r t.
Proof.
  intros Hr. unfold replaceArch at 1 3. cbn [nst_MatchFields]. f_equal.
  unfold cleanedExpressions at 1, replaceArch. cbn [nst_MatchExpressions].
  rewrite elems_sappend, elems_cleanedExpressions, List.filter_app. cbn [List.filter].
  rewrite Hr. cbn [negb]. rewrite app_nil_r, filter_no_arch_id by apply filter_no_arch.
  done.
Qed.

Lemma appliedTerms_twice r r' ts :
  is_arch_expr r' = true → appliedTerms r (appliedTerms r' ts) = appliedTerms r ts.
Proof.
  intros Hr. destruct ts as [|t ts]; cbn.
  - unfold replaceArch, cleanedExpressions. cbn. by rewrite Hr.
  - rewrite replaceArch_replaceArch by done. f_equal. rewrite <-list_fmap_compose.
    apply list_fmap_ext. intros i x _. by apply replaceArch_replaceArch.
Qed.

Lemma override_twice (a1 a2 : list string) (p : CorePod) :
  a1 ≠ [] → a2 ≠ [] →
  overrideArchitectures (Some a2) (overrideArchitectures (Some a1) p) =
  overrideArchitectures (Some a2) p.
Proof.
  intros H1 H2. rewrite !overrideArchitectures_eq by done.
  destruct p as [m s st]. unfold upd_spec; cbn [p_Spec p_Meta p_ContainerStatuses].
  rewrite required_terms_put. cbn [ns_NodeSelectorTerms elems].
  rewrite appliedTerms_twice by done. f_equal.
  destruct s as [nn [sel|] aff g c ic ips]; [|done]. unfold strip_selector; cbn.
  unfold put_Required, put_NodeAffinity, set_Affinity, set_NodeSelector; cbn.
  by rewrite delete_delete_eq.
Qed.

(** The last choice of the CEL plugin wins, and repeating a choice (the
    reconciler after the webhook) leaves the pod as it is; the number of terms
    of a non-empty list never changes. *)
Theorem overrideArchitectures_last_wins (a1 a2 : list string) (p : CorePod) :
  a1 ≠ [] → a2 ≠ [] →
  overrideArchitectures (Some a2) (overrideArchitectures (Some a1) p) =
    overrideArchitectures (Some a2) p
  ∧ (required_terms (p_Spec p) ≠ [] →
     length (required_terms (p_Spec (overrideArchitectures (Some a1) p))) =
     length (required_terms (p_Spec p))).
Proof.
  intros H1 H2. split; [by apply override_twice|]. intros Hne.
  rewrite overrideArchitectures_eq by done. unfold upd_spec; cbn [p_Spec].
  rewrite required_terms_put. cbn [ns_NodeSelectorTerms elems].
  destruct (required_terms (p_Spec p)); [done|]. unfold appliedTerms. by rewrite length_fmap.
Qed.
