(* ===== verification/Lru.v ===== *)
(** * The LRU cache of the vendored [hashicorp/golang-lru/v2/simplelru]

    The linked list of entries, most recently used first; the [items] map of the
    implementation is the index of that list by key. *)
From stdpp Require Import base gmap strings list.
From S2P Require Import Prelude.

Section lru.
Context {V : Type}.

Abbreviation lru := (list (string * V)).

Definition lru_find (k : string) (l : lru) : option V :=
  snd <$> List.find (λ e, bool_decide (e.1 = k)) l.

Definition lru_remove (k : string) (l : lru) : lru :=
  List.filter (λ e, negb (bool_decide (e.1 = k))) l.

(** [Get]: a hit moves the entry to the front. *)
Definition lru_Get (k : string) (l : lru) : option V * lru :=
  match lru_find k l with
  | Some v => (Some v, (k, v) :: lru_remove k l)
  | None => (None, l)
  end.

(** [Add]: an existing entry is moved to the front with the new value; a new one
    is pushed to the front and the oldest is dropped when the size is exceeded. *)
Definition lru_Add (size : nat) (k : string) (v : V) (l : lru) : lru :=
  match lru_find k l with
  | Some _ => (k, v) :: lru_remove k l
  | None => if size <? length ((k, v) :: l) then removelast ((k, v) :: l) else (k, v) :: l
  end.

(** The representation invariant: one entry per key, at most [size] of them. *)
Definition lru_wf (size : nat) (l : lru) : Prop := NoDup l.*1 ∧ length l ≤ size.

Lemma lru_find_elem k v l : lru_find k l = Some v → (k, v) ∈ l.
Proof.
  unfold lru_find. intros H. apply fmap_Some in H as ([k' v'] & Hf & ->).
  apply find_some in Hf as [Hin Hk]. bools. cbn in *. subst. by apply list_elem_of_In.
Qed.

Lemma lru_find_None k l : lru_find k l = None → k ∉ l.*1.
Proof.
  unfold lru_find. intros H. apply fmap_None in H. intros Hin.
  apply list_elem_of_fmap in Hin as ([k' v] & Hk & Hin). cbn in Hk. subst k'.
  eapply find_none in H; [|by apply list_elem_of_In]. by bools.
Qed.

Lemma elem_of_lru_remove e k l : e ∈ lru_remove k l → e ∈ l ∧ e.1 ≠ k.
Proof.
  unfold lru_remove. rewrite !list_elem_of_In, filter_In. intros [? H]. by bools.
Qed.

Lemma lru_remove_keys k l : NoDup l.*1 → NoDup (lru_remove k l).*1 ∧ k ∉ (lru_remove k l).*1.
Proof.
  intros Hnd. split.
  - unfold lru_remove. induction l as [|[k' v] l IH]; cbn; [constructor|].
    cbn in Hnd. apply NoDup_cons in Hnd as [Hn Hnd].
    case_bool_decide; cbn; [by apply IH|]. constructor; [|by apply IH].
    intros Hin. apply Hn. apply list_elem_of_fmap in Hin as (e & He & Hin).
    apply list_elem_of_fmap. exists e. split; [done|]. by apply elem_of_lru_remove in Hin as [? _].
  - intros Hin. apply list_elem_of_fmap in Hin as (e & -> & Hin).
    by apply elem_of_lru_remove in Hin as [_ ?].
Qed.

Lemma lru_remove_length k v l : lru_find k l = Some v → length (lru_remove k l) < length l.
Proof.
  unfold lru_find, lru_remove. induction l as [|[k' v'] l IH]; cbn; [done|].
  case_bool_decide; cbn.
  - intros _. pose proof (List.filter_length_le (λ e : string * V, negb (bool_decide (e.1 = k))) l). lia.
  - intros H'. specialize (IH H'). lia.
Qed.

Lemma elem_of_removelast {A} (x : A) l : x ∈ removelast l → x ∈ l.
Proof.
  induction l as [|y l IH]; cbn; [done|]. destruct l; [by intros ?%elem_of_nil|].
  rewrite !elem_of_cons in *. naive_solver.
Qed.

Lemma NoDup_removelast {A} (l : list A) : NoDup l → NoDup (removelast l).
Proof.
  induction l as [|x l IH]; cbn; [done|]. rewrite NoDup_cons. intros [Hx Hl].
  destruct l; [constructor|]. constructor; [|by apply IH]. by intros ?%elem_of_removelast.
Qed.

Lemma removelast_fmap {A B} (f : A → B) (l : list A) : f <$> removelast l = removelast (f <$> l).
Proof.
  induction l as [|x l IH]; cbn; [done|]. destruct l; [done|]. cbn in *. by rewrite IH.
Qed.

Lemma length_removelast {A} (l : list A) : length (removelast l) = length l - 1.
Proof.
  induction l as [|x l IH]; cbn; [done|]. destruct l; [done|]. cbn in *. lia.
Qed.

Lemma lru_Get_wf size k l : lru_wf size l → lru_wf size (lru_Get k l).2.
Proof.
  intros [Hnd Hlen]. unfold lru_Get. destruct (lru_find k l) as [v|] eqn:E; [|done]. split; cbn.
  - destruct (lru_remove_keys k l Hnd). by constructor.
  - apply lru_remove_length in E. lia.
Qed.

Lemma lru_Add_wf size k v l : lru_wf size l → lru_wf size (lru_Add size k v l).
Proof.
  intros [Hnd Hlen]. unfold lru_Add. destruct (lru_find k l) as [w|] eqn:E.
  - split; cbn.
    + destruct (lru_remove_keys k l Hnd). by constructor.
    + apply lru_remove_length in E. lia.
  - assert (NoDup ((k, v) :: l).*1) as Hnd'.
    { cbn. constructor; [|done]. by apply lru_find_None. }
    destruct (size <? _) eqn:Hs; split; try done.
    + rewrite removelast_fmap. by apply NoDup_removelast.
    + rewrite length_removelast. cbn. lia.
    + apply Nat.ltb_ge in Hs. done.
Qed.

(** Both operations only keep entries that were there or were just added. *)
Lemma lru_Get_elem k l e : e ∈ (lru_Get k l).2 → e ∈ l.
Proof.
  unfold lru_Get. destruct (lru_find k l) as [v|] eqn:E; [|done]. cbn.
  rewrite elem_of_cons. intros [->|H]; [by apply lru_find_elem|].
  by apply elem_of_lru_remove in H as [? _].
Qed.

Lemma lru_Add_elem size k v l e : e ∈ lru_Add size k v l → e = (k, v) ∨ e ∈ l.
Proof.
  unfold lru_Add. destruct (lru_find k l).
  - rewrite elem_of_cons. intros [->|H]; [by left|].
    apply elem_of_lru_remove in H as [? _]. by right.
  - destruct (_ <? _); [intros H%elem_of_removelast|intros H];
      apply elem_of_cons in H as [->|H]; auto.
Qed.

Lemma lru_Get_found k l v : (lru_Get k l).1 = Some v → (k, v) ∈ l.
Proof.
  unfold lru_Get. destruct (lru_find k l) eqn:E; cbn; [|done].
  intros [= <-]. by apply lru_find_elem.
Qed.

End lru.
