(* ===== verification/LruRing.v ===== *)
(** * The linked list of the vendored [hashicorp/golang-lru/v2/internal]

    [list.go]: a ring of entries through a sentinel, with an index of the entries by
    key as both caches of the package keep it.  The fields of the entries are maps from
    addresses ([nil] is an absent value); an operation that dereferences [nil] is
    [None].  [ring] says which sequence of entries a list holds, [indexed] adds the
    index; the operations are shown to do on them what their names say. *)
From stdpp Require Import base gmap strings list.
From S2P Require Import Prelude GoStd Lru.

(** ** The list *)
Abbreviation loc := nat.

(** The sentinel *)
Definition root : loc := 0.

Record Data (V : Type) := mkData {
  d_Key : string;
  d_Value : V;
  d_ExpiresAt : Z;
  d_ExpireBucket : Z;   (** a [uint8] *)
}.
Arguments mkData {_}. Arguments d_Key {_}. Arguments d_Value {_}. Arguments d_ExpiresAt {_}. Arguments d_ExpireBucket {_}.

(** [LruList], with the memory of its entries *)
Record LruList (V : Type) := mkList {
  ll_next : gmap loc loc;
  ll_prev : gmap loc loc;
  ll_list : gset loc;         (** the entries whose [list] is this one *)
  ll_data : gmap loc (Data V);
  ll_alloc : loc;             (** the next fresh address *)
  ll_len : Z;
}.
Arguments mkList {_}. Arguments ll_next {_}. Arguments ll_prev {_}. Arguments ll_list {_}.
Arguments ll_data {_}. Arguments ll_alloc {_}. Arguments ll_len {_}.

Section list.
Context {V : Type}.
Implicit Types l : LruList V.

(** An assignment to a field *)
Definition assign (a : loc) (v : option loc) (m : gmap loc loc) : gmap loc loc := partial_alter (λ _, v) a m.
#[global] Arguments assign : simpl never.

Definition set_links (next prev : gmap loc loc) l : LruList V :=
  mkList next prev (ll_list l) (ll_data l) (ll_alloc l) (ll_len l).
Definition set_data (x : loc) (d : Data V) l : LruList V :=
  mkList (ll_next l) (ll_prev l) (ll_list l) (<[x := d]> (ll_data l)) (ll_alloc l) (ll_len l).

(** [Init] *)
Definition Init l : LruList V :=
  mkList (assign root (Some root) (ll_next l)) (assign root (Some root) (ll_prev l)) (ll_list l) (ll_data l) (ll_alloc l) 0.

(** [NewList] *)
Definition NewList : LruList V := Init (mkList ∅ ∅ ∅ ∅ 1 0).

(** [lazyInit] *)
Definition lazyInit l : LruList V := match ll_next l !! root with None => Init l | Some _ => l end.

(** [Length], [Back] *)
Definition Length l : Z := ll_len l.
Definition Back l : option loc := if (ll_len l =? 0)%Z then None else ll_prev l !! root.

(** [PrevEntry] *)
Definition PrevEntry (e : loc) l : option loc :=
  match ll_prev l !! e with
  | Some p => if bool_decide (e ∈ ll_list l) && negb (bool_decide (p = root)) then Some p else None
  | None => None
  end.

(** [e.prev.next = e.next; e.next.prev = e.prev] *)
Definition unlink (e : loc) l : option (LruList V) :=
  p ← ll_prev l !! e;
  let next := assign p (ll_next l !! e) (ll_next l) in
  n ← next !! e;
  Some (set_links next (assign n (ll_prev l !! e) (ll_prev l)) l).

(** [e.prev = at; e.next = at.next; e.prev.next = e; e.next.prev = e] *)
Definition linkAfter (e at_ : loc) l : option (LruList V) :=
  let prev := assign e (Some at_) (ll_prev l) in
  let next := assign e (ll_next l !! at_) (ll_next l) in
  p ← prev !! e;
  let next := assign p (Some e) next in
  n ← next !! e;
  Some (set_links next (assign n (Some e) prev) l).

(** [insert] *)
Definition insert (e at_ : loc) l : option (LruList V) :=
  l1 ← linkAfter e at_ l;
  Some (mkList (ll_next l1) (ll_prev l1) ({[e]} ∪ ll_list l1) (ll_data l1) (ll_alloc l1) (ll_len l1 + 1)).

(** [insertValue]: [&Entry] is a fresh address whose links are [nil]. *)
Definition insertValue (d : Data V) (at_ : loc) l : option (loc * LruList V) :=
  let e := ll_alloc l in
  l1 ← insert e at_ (mkList (assign e None (ll_next l)) (assign e None (ll_prev l)) (ll_list l ∖ {[e]})
                       (<[e := d]> (ll_data l)) (S e) (ll_len l));
  Some (e, l1).

(** [Remove] *)
Definition Remove (e : loc) l : option (LruList V) :=
  l1 ← unlink e l;
  Some (mkList (assign e None (ll_next l1)) (assign e None (ll_prev l1)) (ll_list l1 ∖ {[e]})
          (ll_data l1) (ll_alloc l1) (ll_len l1 - 1)).

(** [move] *)
Definition move (e at_ : loc) l : option (LruList V) :=
  if bool_decide (e = at_) then Some l else unlink e l ≫= linkAfter e at_.

(** [PushFront], [PushFrontExpirable]: the zero time is 0. *)
Definition PushFrontExpirable (k : string) (v : V) (expiresAt : Z) l : option (loc * LruList V) :=
  insertValue (mkData k v expiresAt 0) root (lazyInit l).
Definition PushFront (k : string) (v : V) l : option (loc * LruList V) := PushFrontExpirable k v 0 l.

(** [MoveToFront] *)
Definition MoveToFront (e : loc) l : option (LruList V) :=
  if negb (bool_decide (e ∈ ll_list l)) || bool_decide (ll_next l !! root = Some e) then Some l
  else move e root l.

(** ** The sequence of entries *)

(** Two neighbours *)
Definition linked (next prev : gmap loc loc) (a b : loc) : Prop := next !! a = Some b ∧ prev !! b = Some a.

Fixpoint links (next prev : gmap loc loc) (xs : list loc) : Prop :=
  match xs with
  | a :: ((b :: _) as xs') => linked next prev a b ∧ links next prev xs'
  | _ => True
  end.
#[global] Arguments links : simpl never.

Record ring l (xs : list loc) : Prop := mkRing {
  rg_links : links (ll_next l) (ll_prev l) (root :: xs ++ [root]);
  rg_nodup : NoDup (root :: xs);
  rg_alloc x : x ∈ root :: xs → x < ll_alloc l;
  rg_list x : x ∈ xs → x ∈ ll_list l;
  rg_len : ll_len l = Z.of_nat (length xs);
}.

(** Segments can be split and put together. *)
Lemma links_cons next prev a b xs :
  links next prev (a :: b :: xs) ↔ linked next prev a b ∧ links next prev (b :: xs).
Proof. done. Qed.

Lemma links_app next prev xs a ys :
  links next prev (xs ++ a :: ys) ↔ links next prev (xs ++ [a]) ∧ links next prev (a :: ys).
Proof.
  assert (links next prev [a]) by done.
  induction xs as [|x xs IH]; [cbn; tauto|]. destruct xs as [|y xs]; cbn [app] in *; rewrite !links_cons; tauto.
Qed.

(** A segment depends on the [next] of all but its last entry and on the [prev] of all
    but its first. *)
Lemma links_frame next prev next' prev' xs :
  (∀ a, a ∈ removelast xs → next' !! a = next !! a) → (∀ b, b ∈ tail xs → prev' !! b = prev !! b) →
  links next prev xs → links next' prev' xs.
Proof.
  induction xs as [|a xs IH]; [done|]. destruct xs as [|b xs]; [done|]. intros Hn Hp [[H1 H2] H3]. split.
  - split; [rewrite Hn; [done|by left]|rewrite Hp; [done|by left]].
  - apply IH; [|intros y Hy; apply Hp; by right|done]. intros y Hy. apply Hn. by right.
Qed.

Lemma lookup_assign a v m y : assign a v m !! y = if decide (y = a) then v else m !! y.
Proof. unfold assign. case_decide as E; [subst; by rewrite lookup_partial_alter_eq|by rewrite lookup_partial_alter_ne]. Qed.

(** An entry has a neighbour on each side. *)
Lemma neighbours (x : loc) xs ys :
  ∃ s1 p n s2, root :: (xs ++ x :: ys) ++ [root] = s1 ++ p :: x :: n :: s2
    ∧ root :: xs = s1 ++ [p] ∧ ys ++ [root] = n :: s2.
Proof.
  destruct (exists_last (l := root :: xs)) as (s1 & p & Hl); [done|].
  destruct (ys ++ [root]) as [|n s2] eqn:Hr; [by apply app_eq_nil in Hr as [_ ?]|].
  exists s1, p, n, s2. split_and!; [|done|done].
  rewrite <-app_assoc. cbn. change (root :: xs ++ x :: ys ++ [root]) with ((root :: xs) ++ x :: ys ++ [root]).
  by rewrite Hl, Hr, <-app_assoc.
Qed.

Lemma removelast_snoc {A} (xs : list A) a : removelast (xs ++ [a]) = xs.
Proof. rewrite removelast_app by done. cbn. apply app_nil_r. Qed.

Lemma removelast_take {A} (l : list A) n : removelast (take n l) = take (min n (length l) - 1) l.
Proof.
  revert l. induction n as [|n IH]; intros [|x l]; cbn; [done..|]. rewrite Nat.sub_0_r.
  destruct l as [|y l]; [by destruct n|]. destruct n as [|n]; [done|]. cbn [take length] in *. specialize (IH (y :: l)). cbn [take length] in IH.
  rewrite IH. cbn. by rewrite Nat.sub_0_r.
Qed.

(** The entry is taken out. *)
Lemma unlink_ring l xs x ys :
  links (ll_next l) (ll_prev l) (root :: (xs ++ x :: ys) ++ [root]) → NoDup (root :: xs ++ x :: ys) →
  ∃ next prev, unlink x l = Some (set_links next prev l) ∧ links next prev (root :: (xs ++ ys) ++ [root]).
Proof.
  intros Hl Hnd. destruct (neighbours x xs ys) as (s1 & p & n & s2 & Hall & Hxs & Hys). rewrite Hall in Hl.
  assert (Hs : NoDup (s1 ++ p :: x :: ys)).
  { replace (s1 ++ p :: x :: ys) with ((root :: xs) ++ x :: ys); [done|]. by rewrite Hxs, <-app_assoc. }
  assert (Ht : NoDup (xs ++ x :: n :: s2)).
  { rewrite <-Hys. replace (xs ++ x :: ys ++ [root]) with ((xs ++ x :: ys) ++ [root]) by by rewrite <-app_assoc.
    apply NoDup_app. apply NoDup_cons in Hnd as [Hr Hnd]. split_and!; [done| |apply NoDup_singleton].
    intros y Hy ->%list_elem_of_singleton. done. }
  apply links_app in Hl as [L1 [[Hpx Hxp] L2]]. destruct L2 as [[Hxn Hnx] L3].
  assert (Hpne : p ≠ x) by (apply NoDup_app in Hs as (_ & _ & [Hs _]%NoDup_cons); set_solver).
  assert (Hnne : n ≠ x) by (apply NoDup_app in Ht as (_ & _ & [Ht _]%NoDup_cons); set_solver).
  unfold unlink. rewrite Hxp. cbn [mbind option_bind]. rewrite lookup_assign, decide_False, Hxn by done.
  cbn [mbind option_bind]. do 2 eexists. split; [done|].
  replace (root :: (xs ++ ys) ++ [root]) with (s1 ++ p :: n :: s2).
  2: { rewrite <-app_assoc, Hys. change (root :: xs ++ n :: s2) with ((root :: xs) ++ n :: s2). by rewrite Hxs, <-app_assoc. }
  apply links_app. split; [|split].
  - eapply links_frame; [| |exact L1].
    + rewrite removelast_snoc. intros a Ha. rewrite lookup_assign, decide_False; [done|].
      apply NoDup_app in Hs as (_ & Hs & _). intros ->. apply (Hs p Ha). by left.
    + intros b Hb. rewrite lookup_assign, decide_False; [done|]. rewrite <-Hxs in Hb. cbn in Hb.
      apply NoDup_app in Ht as (_ & Ht & _). intros ->. apply (Ht n Hb). by right; left.
  - split; rewrite lookup_assign, decide_True by done; [|done]. by rewrite ?Hxn.
  - eapply links_frame; [| |exact L3].
    + intros a Ha. rewrite lookup_assign, decide_False; [done|]. rewrite <-Hys, removelast_snoc in Ha.
      apply NoDup_app in Hs as (_ & _ & [Hs _]%NoDup_cons). set_solver.
    + cbn. intros b Hb. rewrite lookup_assign, decide_False; [done|].
      apply NoDup_app in Ht as (_ & _ & [_ [Ht _]%NoDup_cons]%NoDup_cons). set_solver.
Qed.

(** An entry that is in no list is put to the front. *)
Lemma linkAfter_ring l xs x :
  links (ll_next l) (ll_prev l) (root :: xs ++ [root]) → NoDup (root :: xs) → x ∉ root :: xs →
  ∃ next prev, linkAfter x root l = Some (set_links next prev l) ∧ links next prev (root :: (x :: xs) ++ [root]).
Proof.
  intros Hl Hnd Hx. destruct (xs ++ [root]) as [|n s2] eqn:Hxs; [by apply app_eq_nil in Hxs as [_ ?]|].
  destruct Hl as [[Hrn Hnr] Hl].
  assert (Ht : NoDup (n :: s2)).
  { rewrite <-Hxs. apply NoDup_cons in Hnd as [Hr Hnd]. apply NoDup_app. split_and!; [done| |apply NoDup_singleton].
    intros y Hy ->%list_elem_of_singleton. done. }
  assert (Hin : ∀ y, y ∈ n :: s2 → y ∈ root :: xs).
  { intros y. rewrite <-Hxs, elem_of_app, list_elem_of_singleton, elem_of_cons. tauto. }
  assert (x ≠ root) by set_solver. assert (x ≠ n) by (intros ->; apply Hx, Hin; by left).
  unfold linkAfter. rewrite lookup_assign, decide_True by done. cbn [mbind option_bind].
  rewrite !lookup_assign, decide_False, decide_True, Hrn by done. cbn [mbind option_bind].
  do 2 eexists. split; [done|]. cbn [app]. rewrite Hxs. split; [|split].
  - split; rewrite !lookup_assign; [by rewrite decide_True|]. by rewrite decide_False, decide_True.
  - split; rewrite !lookup_assign; [|by rewrite decide_True]. by rewrite decide_False, decide_True.
  - eapply links_frame; [| |exact Hl].
    + intros a Ha. rewrite !lookup_assign. rewrite <-Hxs, removelast_snoc in Ha.
      apply NoDup_cons in Hnd as [Hr _]. rewrite !decide_False; [done|set_solver..].
    + cbn. intros b Hb. rewrite !lookup_assign. apply NoDup_cons in Ht as [Ht _].
      rewrite !decide_False; [done| |set_solver]. intros ->. apply Hx, Hin. by right.
Qed.

(** ** The operations *)
Lemma Init_ring l : 0 < ll_alloc l → ring (Init l) [].
Proof.
  intros Ha. constructor; cbn; [|apply NoDup_singleton|by intros x ->%list_elem_of_singleton|by intros x ?%elem_of_nil|done].
  split; [|done]. by split; rewrite lookup_assign, decide_True.
Qed.

Lemma NewList_ring : ring NewList [].
Proof. apply Init_ring. cbn. lia. Qed.

Lemma ring_lazyInit l xs : ring l xs → lazyInit l = l.
Proof. intros [Hl _ _ _ _]. unfold lazyInit. destruct xs; cbn [app] in Hl; by destruct Hl as [[-> _] _]. Qed.

(** Links of other entries that change do not matter. *)
Lemma links_assign_other (x : loc) v w next prev xs :
  x ∉ xs → links next prev xs → links (assign x v next) (assign x w prev) xs.
Proof.
  intros Hx. apply links_frame; intros y Hy; rewrite lookup_assign, decide_False; [done|..|done|].
  - intros ->. by apply Hx, elem_of_removelast.
  - intros ->. apply Hx. destruct xs; [done|by right].
Qed.

Lemma ring_fresh l xs : ring l xs → ll_alloc l ∉ root :: xs.
Proof. intros Hr Hin. apply (rg_alloc _ _ Hr) in Hin. lia. Qed.

Lemma not_in_ends x (xs : list loc) : x ∉ root :: xs → x ∉ root :: xs ++ [root].
Proof. rewrite !elem_of_cons, elem_of_app, list_elem_of_singleton. tauto. Qed.

(** [PushFront] *)
Lemma ring_insertValue l xs d :
  ring l xs →
  ∃ l', insertValue d root l = Some (ll_alloc l, l') ∧ ring l' (ll_alloc l :: xs)
    ∧ ll_data l' = <[ll_alloc l := d]> (ll_data l).
Proof.
  intros Hr. pose proof (ring_fresh l xs Hr) as Hf. destruct Hr as [H1 H2 H3 H4 H5]. unfold insertValue, insert.
  set (l0 := mkList _ _ _ _ _ _). destruct (linkAfter_ring l0 xs (ll_alloc l)) as (next & prev & -> & Hl).
  { apply links_assign_other; [by apply not_in_ends|done]. } { done. } { done. }
  cbn [mbind option_bind]. eexists. split; [done|]. split; [|done]. constructor; cbn.
  - exact Hl.
  - apply NoDup_cons in H2 as [Hr Hnd]. apply NoDup_cons. split; [|by apply NoDup_cons; split; [set_solver|]]. set_solver.
  - intros x Hx. destruct (decide (x = ll_alloc l)) as [->|Hne]; [lia|]. assert (x < ll_alloc l); [|lia].
    apply H3. set_solver.
  - intros x [->|Hx]%elem_of_cons; [set_solver|]. apply H4 in Hx as Hx'.
    assert (x ≠ ll_alloc l) by (intros ->; apply Hf; by right). set_solver.
  - rewrite H5. lia.
Qed.

(** [Remove] *)
Lemma ring_Remove l xs x ys :
  ring l (xs ++ x :: ys) →
  ∃ l', Remove x l = Some l' ∧ ring l' (xs ++ ys) ∧ ll_data l' = ll_data l.
Proof.
  intros [H1 H2 H3 H4 H5]. unfold Remove. destruct (unlink_ring l xs x ys H1 H2) as (next & prev & -> & Hl).
  cbn [mbind option_bind]. eexists. split; [done|]. split; [|done].
  assert (Hx : x ∉ root :: xs ++ ys).
  { apply NoDup_cons in H2 as [Hr Hnd]. apply NoDup_app in Hnd as (_ & Hd & [Hx _]%NoDup_cons). set_solver. }
  assert (Hsub : ∀ y, y ∈ xs ++ ys → y ∈ xs ++ x :: ys) by set_solver.
  constructor; cbn.
  - apply links_assign_other; [by apply not_in_ends|done].
  - apply NoDup_cons in H2 as [Hr Hnd]. apply NoDup_cons. split; [set_solver|].
    apply NoDup_app in Hnd as (Ha & Hb & [_ Hc]%NoDup_cons). apply NoDup_app. set_solver.
  - intros y Hy. apply H3. set_solver.
  - intros y Hy. pose proof (H4 y (Hsub y Hy)). set_solver.
  - rewrite H5, !length_app. cbn. lia.
Qed.

(** [MoveToFront] *)
Lemma ring_MoveToFront l xs x ys :
  ring l (xs ++ x :: ys) →
  ∃ l', MoveToFront x l = Some l' ∧ ring l' (x :: xs ++ ys) ∧ ll_data l' = ll_data l.
Proof.
  intros Hr. pose proof Hr as [H1 H2 H3 H4 H5]. unfold MoveToFront.
  rewrite (bool_decide_eq_true_2 (x ∈ ll_list l)) by (apply H4; set_solver). cbn [negb orb].
  case_bool_decide as Hfirst.
  - exists l. split; [done|]. split; [|done]. destruct xs as [|y xs]; [done|]. cbn in H1. destruct H1 as [[H1 _] _].
    rewrite H1 in Hfirst. injection Hfirst as ->. apply NoDup_cons in H2 as [_ [Hx _]%NoDup_cons]. set_solver.
  - assert (Hx : x ∉ root :: xs ++ ys).
    { apply NoDup_cons in H2 as [Hr' Hnd]. apply NoDup_app in Hnd as (_ & Hd & [Hx _]%NoDup_cons). set_solver. }
    assert (Hp : root :: x :: xs ++ ys ≡ₚ root :: xs ++ x :: ys) by (by rewrite Permutation_middle).
    unfold move. rewrite bool_decide_eq_false_2 by set_solver.
    destruct (unlink_ring l xs x ys H1 H2) as (next & prev & -> & Hl). cbn [mbind option_bind].
    destruct (linkAfter_ring (set_links next prev l) (xs ++ ys) x Hl) as (next' & prev' & -> & Hl').
    { rewrite <-Hp in H2. rewrite Permutation_swap in H2. by apply NoDup_cons in H2 as [_ H2]. } { done. }
    eexists. split; [done|]. split; [|done]. constructor; cbn.
    + exact Hl'.
    + by rewrite Hp.
    + intros y. rewrite Hp. apply H3.
    + intros y Hy. apply H4. set_solver.
    + rewrite H5, !length_app. cbn. lia.
Qed.

(** [Back] *)
Lemma links_last next prev xs a : links next prev (root :: xs ++ [a]) → prev !! a = last (root :: xs).
Proof.
  intros H. destruct (exists_last (l := root :: xs)) as (s1 & p & Hp); [done|].
  change (root :: xs ++ [a]) with ((root :: xs) ++ [a]) in H. rewrite Hp, <-app_assoc in H. cbn in H.
  apply links_app in H as [_ [[_ H] _]]. by rewrite Hp, last_snoc.
Qed.

Lemma ring_Back l xs : ring l xs → Back l = last xs.
Proof.
  intros [H1 _ _ _ H5]. unfold Back. rewrite H5, (links_last _ _ _ _ H1). destruct xs; [done|]. done.
Qed.

(** The loop [for ent := Back(); ent != nil; ent = ent.PrevEntry()]; there are no more
    entries than addresses. *)
Fixpoint walk (fuel : nat) (e : option loc) l : list loc :=
  match fuel, e with
  | S n, Some x => x :: walk n (PrevEntry x l) l
  | _, _ => []
  end.
Definition entriesBack l : list loc := walk (ll_alloc l) (Back l) l.

Lemma walk_ring l xs ys fuel :
  ring l (xs ++ ys) → length xs < fuel → walk fuel (last xs) l = reverse xs.
Proof.
  revert ys fuel. induction xs as [|x xs IH] using rev_ind; intros ys fuel Hr Hf; [by destruct fuel|].
  rewrite last_snoc, reverse_snoc. destruct fuel as [|n]; [lia|]. cbn [walk]. f_equal.
  rewrite length_app in Hf. cbn in Hf. rewrite <-app_assoc in Hr. cbn in Hr.
  rewrite <-(IH (x :: ys) n) by (done || lia). f_equal. destruct Hr as [H1 H2 _ H4 _]. unfold PrevEntry.
  change (root :: (xs ++ x :: ys) ++ [root]) with ((root :: xs ++ x :: ys) ++ [root]) in H1.
  replace ((root :: xs ++ x :: ys) ++ [root]) with ((root :: xs) ++ x :: ys ++ [root]) in H1
    by (cbn; by rewrite <-app_assoc).
  apply links_app in H1 as [H1 _]. rewrite (links_last _ _ _ _ H1).
  rewrite (bool_decide_eq_true_2 (x ∈ ll_list l)) by (apply H4; set_solver). cbn [andb].
  destruct xs as [|y xs] using rev_ind; [done|]. rewrite app_comm_cons, !last_snoc. rewrite bool_decide_eq_false_2; [done|].
  intros ->. apply NoDup_cons in H2 as [H2 _]. set_solver.
Qed.

Lemma entriesBack_ring l xs : ring l xs → entriesBack l = reverse xs.
Proof.
  intros Hr. unfold entriesBack. rewrite (ring_Back l xs Hr). rewrite <-(app_nil_r xs) in Hr.
  apply (walk_ring l xs []); [done|]. rewrite app_nil_r in Hr.
  assert (length (root :: xs) ≤ length (seq 0 (ll_alloc l))) as H; [|rewrite length_seq in H; cbn in H; lia].
  apply NoDup_incl_length; [apply NoDup_ListNoDup, Hr|]. intros x Hx%list_elem_of_In.
  apply (rg_alloc l xs Hr) in Hx. apply in_seq. lia.
Qed.
End list.

(** ** The index of the entries by key *)
Section indexed.
Context {V : Type}.
Implicit Types (l : LruList V) (es : list (loc * Data V)).

Definition keys es : list string := (λ e, d_Key e.2) <$> es.

Record indexed l (items : gmap string loc) es : Prop := mkIndexed {
  ix_ring : ring l es.*1;
  ix_data x d : (x, d) ∈ es → ll_data l !! x = Some d;
  ix_keys : NoDup (keys es);
  ix_items k x : items !! k = Some x ↔ ∃ d, (x, d) ∈ es ∧ d_Key d = k;
}.

Lemma elem_of_keys k es : k ∈ keys es ↔ ∃ x d, (x, d) ∈ es ∧ d_Key d = k.
Proof.
  unfold keys. rewrite list_elem_of_fmap. split; [intros ([x d] & -> & H); eauto|intros (x & d & H & <-); by exists (x, d)].
Qed.

Lemma indexed_Init l : 0 < ll_alloc l → indexed (Init l) ∅ [].
Proof.
  intros Ha. constructor; [by apply Init_ring|by intros x d ?%elem_of_nil|constructor|]. intros k x.
  rewrite lookup_empty. split; [done|]. by intros (d & ?%elem_of_nil & _).
Qed.

Lemma indexed_alloc l items es : indexed l items es → 0 < ll_alloc l.
Proof. intros H. apply (rg_alloc _ _ (ix_ring _ _ _ H) root). by left. Qed.

(** A key is in the index exactly if it has an entry. *)
Lemma indexed_split l items es k x :
  indexed l items es → items !! k = Some x →
  ∃ e1 d e2, es = e1 ++ (x, d) :: e2 ∧ d_Key d = k ∧ ll_data l !! x = Some d.
Proof.
  intros H Hk. apply (ix_items _ _ _ H) in Hk as (d & Hin & Hd).
  pose proof (ix_data _ _ _ H x d Hin) as Hdata. apply list_elem_of_split in Hin as (e1 & e2 & ->). eauto 10.
Qed.

Lemma indexed_None l items es k : indexed l items es → items !! k = None ↔ k ∉ keys es.
Proof.
  intros H. rewrite elem_of_keys. split.
  - intros Hn (x & d & Hin & Hd). assert (items !! k = Some x) by (apply (ix_items _ _ _ H); eauto). congruence.
  - intros Hn. destruct (items !! k) as [x|] eqn:Hk; [|done]. apply (ix_items _ _ _ H) in Hk as (d & ? & ?). destruct Hn. eauto.
Qed.

Lemma keys_app es1 es2 : keys (es1 ++ es2) = keys es1 ++ keys es2.
Proof. apply fmap_app. Qed.

(** The entry of [k] is the only one of its key. *)
Lemma keys_middle e1 x d e2 :
  NoDup (keys (e1 ++ (x, d) :: e2)) → NoDup (keys (e1 ++ e2)) ∧ d_Key d ∉ keys (e1 ++ e2).
Proof.
  rewrite !keys_app. change (keys ((x, d) :: e2)) with (d_Key d :: keys e2). rewrite <-Permutation_middle.
  intros [H1 H2]%NoDup_cons. done.
Qed.

(** An entry is moved to the front *)
Lemma indexed_front l items e1 x d e2 :
  indexed l items (e1 ++ (x, d) :: e2) →
  ∃ l', MoveToFront x l = Some l' ∧ indexed l' items ((x, d) :: e1 ++ e2) ∧ ll_data l' = ll_data l.
Proof.
  intros [H1 H2 H3 H4]. rewrite fmap_app in H1. cbn in H1.
  destruct (ring_MoveToFront l _ x _ H1) as (l' & -> & Hr & Hd). exists l'. split; [done|]. split; [|done].
  assert (Hp : (x, d) :: e1 ++ e2 ≡ₚ e1 ++ (x, d) :: e2) by apply Permutation_middle.
  constructor.
  - cbn. by rewrite fmap_app.
  - intros y d' Hin. rewrite Hd. apply H2. by rewrite <-Hp.
  - unfold keys. by rewrite Hp.
  - intros k y. rewrite H4. by setoid_rewrite Hp.
Qed.

(** is removed with its key *)
Lemma indexed_Remove l items e1 x d e2 :
  indexed l items (e1 ++ (x, d) :: e2) →
  ∃ l', Remove x l = Some l' ∧ indexed l' (base.delete (d_Key d) items) (e1 ++ e2) ∧ ll_data l' = ll_data l.
Proof.
  intros [H1 H2 H3 H4]. rewrite fmap_app in H1. cbn in H1.
  destruct (ring_Remove l _ x _ H1) as (l' & -> & Hr & Hd). exists l'. split; [done|]. split; [|done].
  destruct (keys_middle _ _ _ _ H3) as [Hk Hn]. constructor.
  - by rewrite fmap_app.
  - intros y d' Hin. rewrite Hd. apply H2. set_solver.
  - done.
  - intros k y. rewrite lookup_delete_Some, H4. rewrite elem_of_keys in Hn. split.
    + intros (Hne & d' & [Hin|[[= -> ->]|Hin]%elem_of_cons]%elem_of_app & Hd'); [|done|]; exists d'; set_solver.
    + intros (d' & Hin & <-). split; [intros E; apply Hn; eauto|]. exists d'. set_solver.
Qed.

(** and added. *)
Lemma indexed_push l items es k v t :
  indexed l items es → items !! k = None →
  ∃ x l', PushFrontExpirable k v t l = Some (x, l') ∧ indexed l' (<[k := x]> items) ((x, mkData k v t 0) :: es)
    ∧ ll_data l' = <[x := mkData k v t 0]> (ll_data l).
Proof.
  intros H Hk. pose proof (proj1 (indexed_None _ _ _ _ H) Hk) as Hn. destruct H as [H1 H2 H3 H4].
  unfold PushFrontExpirable. rewrite (ring_lazyInit l _ H1).
  destruct (ring_insertValue l _ (mkData k v t 0) H1) as (l' & -> & Hr & Hd).
  exists (ll_alloc l), l'. split; [done|]. split; [|done]. constructor.
  - exact Hr.
  - intros x d Hin. rewrite Hd. apply elem_of_cons in Hin as [[= -> ->]|Hin]; [by rewrite lookup_insert_eq|].
    rewrite lookup_insert_ne; [by apply H2|]. intros <-. apply (ring_fresh l _ H1). right.
    apply list_elem_of_fmap. by exists (ll_alloc l, d).
  - change (NoDup (k :: keys es)). by apply NoDup_cons.
  - intros k' y. rewrite lookup_insert_Some, H4. split.
    + intros [[<- <-]|(Hne & d & Hin & Hd')]; [|by exists d; split; [right|]]. eexists. by split; [left|].
    + intros (d & [[= -> ->]|Hin]%elem_of_cons & <-); [by left|right]. split; [|by exists d].
      intros ->. apply Hn, elem_of_keys. eauto.
Qed.

(** The data of an entry changes, but for its key. *)
Lemma indexed_set l items e1 x d d' e2 :
  indexed l items (e1 ++ (x, d) :: e2) → d_Key d' = d_Key d → indexed (set_data x d' l) items (e1 ++ (x, d') :: e2).
Proof.
  intros [H1 H2 H3 H4] Hk. assert (Hx : x ∉ (e1 ++ e2).*1).
  { apply rg_nodup in H1. apply NoDup_cons in H1 as [_ H1]. rewrite fmap_app in H1 |- *. cbn in H1.
    rewrite <-Permutation_middle in H1. by apply NoDup_cons in H1 as [? _]. }
  constructor.
  - rewrite fmap_app in H1 |- *. destruct H1 as [R1 R2 R3 R4 R5]. by constructor.
  - intros y d0 Hin. cbn. apply elem_of_app in Hin. destruct (decide (y = x)) as [->|Hne].
    + rewrite lookup_insert_eq. destruct Hin as [Hin|[[= ->]|Hin]%elem_of_cons]; [|done|];
        destruct Hx; apply list_elem_of_fmap; exists (x, d0); set_solver.
    + rewrite lookup_insert_ne by done. apply H2. set_solver.
  - revert H3. rewrite !keys_app. change (keys ((x, d') :: e2)) with (d_Key d' :: keys e2). by rewrite Hk.
  - intros k y. rewrite H4. split; intros (d0 & Hin & Hd0).
    + apply elem_of_app in Hin as [Hin|[[= -> ->]|Hin]%elem_of_cons]; [exists d0|exists d'|exists d0]; set_solver.
    + apply elem_of_app in Hin as [Hin|[[= -> ->]|Hin]%elem_of_cons]; [exists d0|exists d|exists d0]; set_solver.
Qed.

Lemma indexed_Back l items es : indexed l items es → Back l = fst <$> last es.
Proof. intros H. rewrite (ring_Back _ _ (ix_ring _ _ _ H)). apply fmap_last. Qed.

(** The entries from the oldest to the newest *)
Lemma indexed_walk {A} (f : Data V → A) l items es :
  indexed l items es → omap (λ x, f <$> ll_data l !! x) (entriesBack l) = f <$> reverse es.*2.
Proof.
  intros H. rewrite (entriesBack_ring _ _ (ix_ring _ _ _ H)). pose proof (ix_data _ _ _ H) as Hd. clear H.
  rewrite <-!fmap_reverse. assert (Hd' : ∀ x d, (x, d) ∈ reverse es → ll_data l !! x = Some d).
  { intros x d Hin. apply Hd. by rewrite <-elem_of_reverse. }
  clear Hd. induction (reverse es) as [|[x d] ys IH]; [done|]. cbn. rewrite (Hd' x d) by left. cbn. f_equal.
  apply IH. intros y d' Hin. apply Hd'. by right.
Qed.

Lemma indexed_size l items es : indexed l items es → Length l = Z.of_nat (length es).
Proof. intros H. unfold Length. rewrite (rg_len _ _ (ix_ring _ _ _ H)), length_fmap. done. Qed.

(** ** The entries as the list of a cache: keys, and what [f] says of the entries *)
Section entries.
Context {A : Type} (f : Data V → A).

Definition entry_by (e : loc * Data V) : string * A := (d_Key e.2, f e.2).

Lemma entry_keys es : (entry_by <$> es).*1 = keys es.
Proof. unfold keys. by rewrite <-list_fmap_compose. Qed.

Lemma entry_snoc es e : entry_by <$> es ++ [e] = (entry_by <$> es) ++ [entry_by e].
Proof. by rewrite fmap_app. Qed.

Lemma remove_none k es : k ∉ keys es → lru_remove k (entry_by <$> es) = entry_by <$> es.
Proof.
  induction es as [|e es IH]; cbn; [done|]. rewrite not_elem_of_cons. intros [Hne Hes].
  rewrite bool_decide_eq_false_2 by (cbn; congruence). cbn. f_equal. by apply IH.
Qed.

Lemma find_none k es : k ∉ keys es → lru_find k (entry_by <$> es) = None.
Proof.
  rewrite <-entry_keys. intros Hn. destruct (lru_find k (entry_by <$> es)) as [v|] eqn:E; [|done].
  apply lru_find_elem in E. destruct Hn. apply list_elem_of_fmap. by exists (k, v).
Qed.

Lemma find_entry e1 x d e2 :
  NoDup (keys (e1 ++ (x, d) :: e2)) →
  lru_find (d_Key d) (entry_by <$> e1 ++ (x, d) :: e2) = Some (f d)
  ∧ lru_remove (d_Key d) (entry_by <$> e1 ++ (x, d) :: e2) = entry_by <$> e1 ++ e2.
Proof.
  intros [_ Hn]%keys_middle. rewrite keys_app, not_elem_of_app in Hn. destruct Hn as [Hn1 Hn2].
  unfold lru_find. rewrite !fmap_app. split.
  - induction e1 as [|e e1 IH]; cbn; [by rewrite bool_decide_eq_true_2|].
    cbn in Hn1. rewrite not_elem_of_cons in Hn1. destruct Hn1 as [Hne Hn1].
    rewrite bool_decide_eq_false_2 by congruence. by apply IH.
  - apply remove_none in Hn1, Hn2. unfold lru_remove in *. rewrite List.filter_app. cbn.
    rewrite bool_decide_eq_true_2 by done. cbn. by rewrite Hn1, Hn2.
Qed.
End entries.

(** The addresses differ. *)
Lemma indexed_fresh l items e1 x d e2 : indexed l items (e1 ++ (x, d) :: e2) → x ∉ (e1 ++ e2).*1.
Proof.
  intros H. pose proof (rg_nodup _ _ (ix_ring _ _ _ H)) as [_ Hnd]%NoDup_cons. rewrite fmap_app in Hnd |- *. cbn in Hnd.
  rewrite <-Permutation_middle in Hnd. by apply NoDup_cons in Hnd as [? _].
Qed.
End indexed.
