(* ===== verification/ExpirableLru.v ===== *)
(** * The cache with expiry of the vendored [hashicorp/golang-lru/v2/expirable]

    [expirable_lru.go] on the linked list of [LruRing]: the index, the hundred buckets
    of entries by age, and the goroutine that empties one bucket after the other, which
    lets go of the lock while it waits for the newest entry of a bucket to expire.
    Every operation of the package is here, with the callback on evictions [nil], as
    the program has it.

    [expirable_refines]: whatever the operations, the passing of time and the cleaning,
    the cache answers as a plain list of entries from which expired ones may disappear;
    nothing is dereferenced that is [nil] and no index is out of range. *)
From stdpp Require Import base gmap strings list relations.
From S2P Require Import Prelude GoStd Lru LruRing.

Module expirable.

Record Bucket := mkBucket {
  b_entries : gmap string loc;
  b_newest : option Z;        (** [None] is the zero time *)
}.

Record LRU (V : Type) := mkLRU {
  x_size : Z;
  x_list : LruList V;
  x_items : gmap string loc;
  x_ttl : Z;
  x_buckets : list Bucket;
  x_next : Z;                 (** [nextCleanupBucket], a [uint8] *)
}.
Arguments mkLRU {_}. Arguments x_size {_}. Arguments x_list {_}. Arguments x_items {_}. Arguments x_ttl {_}.
Arguments x_buckets {_}. Arguments x_next {_}.

Definition uint8 (z : Z) : Z := (z mod 256)%Z.
Definition numBuckets : Z := 100.
(** Ten years, in seconds *)
Definition noEvictionTTL : Z := 315360000.

Section lru.
Context {V : Type} (zero : V).
Implicit Types (c : LRU V) (es : list (loc * Data V)).

Definition with_list (l : LruList V) (items : gmap string loc) c : LRU V :=
  mkLRU (x_size c) l items (x_ttl c) (x_buckets c) (x_next c).
Definition with_buckets (bs : list Bucket) c : LRU V :=
  mkLRU (x_size c) (x_list c) (x_items c) (x_ttl c) bs (x_next c).

(** [NewLRU] *)
Definition NewLRU (size ttl : Z) : LRU V :=
  mkLRU (if (size <? 0)%Z then 0%Z else size) NewList ∅
    (if (ttl <=? 0)%Z then noEvictionTTL else ttl)
    (replicate (Z.to_nat numBuckets) (mkBucket ∅ None)) 0.

(** The goroutine runs. *)
Definition cleans c : bool := negb (bool_decide (x_ttl c = noEvictionTTL)).

(** [Before], of the zero time *)
Definition newer (o : option Z) (t : Z) : option Z :=
  match o with
  | None => Some t
  | Some t0 => if (t0 <? t)%Z then Some t else Some t0
  end.

(** [addToBucket] *)
Definition addToBucket (e : loc) c : option (LRU V) :=
  let bucketID := (uint8 (uint8 (numBuckets + x_next c) - 1) mod numBuckets)%Z in
  d ← ll_data (x_list c) !! e;
  let d' := mkData (d_Key d) (d_Value d) (d_ExpiresAt d) bucketID in
  b ← x_buckets c !! Z.to_nat bucketID;
  Some (with_buckets
    (<[Z.to_nat bucketID := mkBucket (<[d_Key d := e]> (b_entries b)) (newer (b_newest b) (d_ExpiresAt d))]> (x_buckets c))
    (with_list (set_data e d' (x_list c)) (x_items c) c)).

(** [removeFromBucket] *)
Definition removeFromBucket (e : loc) c : option (LRU V) :=
  d ← ll_data (x_list c) !! e;
  b ← x_buckets c !! Z.to_nat (d_ExpireBucket d);
  Some (with_buckets
    (<[Z.to_nat (d_ExpireBucket d) := mkBucket (base.delete (d_Key d) (b_entries b)) (b_newest b)]> (x_buckets c)) c).

(** [removeElement] *)
Definition removeElement (e : loc) c : option (LRU V) :=
  l ← Remove e (x_list c);
  d ← ll_data l !! e;
  removeFromBucket e (with_list l (base.delete (d_Key d) (x_items c)) c).

(** [removeOldest] *)
Definition removeOldest c : option (LRU V) :=
  match Back (x_list c) with
  | Some e => removeElement e c
  | None => Some c
  end.

(** [Purge] *)
Definition purgeBucket (data : gmap loc (Data V)) (b : Bucket) : Bucket :=
  mkBucket (foldr (λ e m, match data !! e with Some d => base.delete (d_Key d) m | None => m end)
              (b_entries b) (map_to_list (b_entries b)).*2) (b_newest b).
Definition Purge c : LRU V :=
  with_list (Init (x_list c)) ∅ (with_buckets (purgeBucket (ll_data (x_list c)) <$> x_buckets c) c).

(** [Add] *)
Definition Add (now : Z) (key : string) (value : V) c : option (bool * LRU V) :=
  match x_items c !! key with
  | Some ent =>
      l ← MoveToFront ent (x_list c);
      c1 ← removeFromBucket ent (with_list l (x_items c) c);
      d ← ll_data (x_list c1) !! ent;
      c2 ← addToBucket ent (with_list
        (set_data ent (mkData (d_Key d) value (now + x_ttl c) (d_ExpireBucket d)) (x_list c1)) (x_items c1) c1);
      Some (false, c2)
  | None =>
      '(ent, l) ← PushFrontExpirable key value (now + x_ttl c) (x_list c);
      c1 ← addToBucket ent (with_list l (<[key := ent]> (x_items c)) c);
      if (0 <? x_size c)%Z && (x_size c <? Length (x_list c1))%Z
      then c2 ← removeOldest c1; Some (true, c2)
      else Some (false, c1)
  end.

(** [Get]; [Peek] leaves the order alone. *)
Definition Get (now : Z) (key : string) c : option (option V * LRU V) :=
  match x_items c !! key with
  | Some ent =>
      d ← ll_data (x_list c) !! ent;
      if (d_ExpiresAt d <? now)%Z then Some (None, c)
      else l ← MoveToFront ent (x_list c); Some (Some (d_Value d), with_list l (x_items c) c)
  | None => Some (None, c)
  end.
Definition Peek (now : Z) (key : string) c : option (option V) :=
  match x_items c !! key with
  | Some ent =>
      d ← ll_data (x_list c) !! ent;
      Some (if (d_ExpiresAt d <? now)%Z then None else Some (d_Value d))
  | None => Some None
  end.

(** [Contains], [Len] *)
Definition Contains (key : string) c : bool := bool_decide (is_Some (x_items c !! key)).
Definition Len c : Z := Length (x_list c).

(** [Remove] *)
Definition RemoveKey (key : string) c : option (bool * LRU V) :=
  match x_items c !! key with
  | Some ent => c1 ← removeElement ent c; Some (true, c1)
  | None => Some (false, c)
  end.

(** [RemoveOldest], [GetOldest] *)
Definition RemoveOldest c : option (option (string * V) * LRU V) :=
  match Back (x_list c) with
  | Some ent =>
      c1 ← removeElement ent c;
      d ← ll_data (x_list c1) !! ent;
      Some (Some (d_Key d, d_Value d), c1)
  | None => Some (None, c)
  end.
Definition GetOldest c : option (option (string * V)) :=
  match Back (x_list c) with
  | Some ent => d ← ll_data (x_list c) !! ent; Some (Some (d_Key d, d_Value d))
  | None => Some None
  end.

(** [Keys], from the oldest to the newest; [Values] fills a slice of the length of the
    cache with the values that have not expired, and the rest of it stays zero. *)
Definition Keys c : list string := omap (λ e, d_Key <$> ll_data (x_list c) !! e) (entriesBack (x_list c)).
Definition Values (now : Z) c : list V :=
  let ds := omap (λ e, id <$> ll_data (x_list c) !! e) (entriesBack (x_list c)) in
  let vs := d_Value <$> List.filter (λ d, negb (d_ExpiresAt d <? now)%Z) ds in
  vs ++ replicate (size (x_items c) - length vs) zero.

(** [Resize] *)
Definition Resize (size : Z) c : option (Z * LRU V) :=
  let sized n c := mkLRU n (x_list c) (x_items c) (x_ttl c) (x_buckets c) (x_next c) in
  if (size <=? 0)%Z then Some (0%Z, sized 0%Z c)
  else
    let diff := Z.max 0 (Length (x_list c) - size) in
    c1 ← Nat.iter (Z.to_nat diff) (λ o, o ≫= removeOldest) (Some c);
    Some (diff, sized size c1).

(** [deleteExpired]: up to the wait, with what it waits for; and from it on, the
    entries in the order in which [range] has them. *)
Definition deleteExpired_wait (now : Z) c : option (Z * Z) :=
  b ← x_buckets c !! Z.to_nat (x_next c);
  Some (x_next c, match b_newest b with Some t => Z.max now t | None => now end).
Definition deleteExpired_delete (ents : list loc) c : option (LRU V) :=
  c1 ← foldl (λ o e, o ≫= removeElement e) (Some c) ents;
  Some (mkLRU (x_size c1) (x_list c1) (x_items c1) (x_ttl c1) (x_buckets c1) (uint8 (x_next c1 + 1) mod numBuckets)%Z).

(** ** The buckets

    Each entry is in the bucket that it names, but for those in [out]; a bucket holds
    nothing else, and nothing that expires later than its newest entry. *)
Record filed (bs : list Bucket) es (out : gset loc) : Prop := mkFiled {
  fd_len : length bs = Z.to_nat numBuckets;
  fd_bucket x d : (x, d) ∈ es → x ∉ out →
    ∃ b, bs !! Z.to_nat (d_ExpireBucket d) = Some b ∧ b_entries b !! d_Key d = Some x;
  fd_entries i b k x : bs !! i = Some b → b_entries b !! k = Some x →
    (x ∉ out) ∧ ∃ d t, (x, d) ∈ es ∧ d_Key d = k ∧ Z.to_nat (d_ExpireBucket d) = i
      ∧ b_newest b = Some t ∧ (d_ExpiresAt d ≤ t)%Z;
}.

(** Addresses and keys name entries. *)
Definition uniq es : Prop :=
  (∀ x d d', (x, d) ∈ es → (x, d') ∈ es → d = d')
  ∧ ∀ x y d d', (x, d) ∈ es → (y, d') ∈ es → d_Key d = d_Key d' → x = y.

Lemma indexed_uniq l items es : indexed l items es → uniq es.
Proof.
  intros H. split.
  - intros x d d' H1%(ix_data _ _ _ H) H2%(ix_data _ _ _ H). congruence.
  - intros x y d d' H1 H2 Hk. assert (items !! d_Key d = Some x) by (apply (ix_items _ _ _ H); eauto).
    assert (items !! d_Key d = Some y) by (apply (ix_items _ _ _ H); eauto). congruence.
Qed.

Lemma filed_perm bs es es' out : es ≡ₚ es' → filed bs es out → filed bs es' out.
Proof. intros Hp [H1 H2 H3]. constructor; [done|..]; by setoid_rewrite <-Hp. Qed.

(** An entry is taken out of its bucket. *)
Lemma filed_out bs es x d b :
  uniq es → filed bs es ∅ → (x, d) ∈ es → bs !! Z.to_nat (d_ExpireBucket d) = Some b →
  filed (<[Z.to_nat (d_ExpireBucket d) := mkBucket (base.delete (d_Key d) (b_entries b)) (b_newest b)]> bs) es {[x]}.
Proof.
  intros [U1 U2] [H1 H2 H3] Hx Hb. pose proof (lookup_lt_Some _ _ _ Hb) as Hlt. constructor; [by rewrite length_insert|..].
  - intros y d' Hy Hne. destruct (H2 y d' Hy) as (b' & Hb' & Hk); [set_solver|].
    destruct (decide (Z.to_nat (d_ExpireBucket d) = Z.to_nat (d_ExpireBucket d'))) as [E|E].
    + rewrite <-E in Hb' |- *. rewrite list_lookup_insert_eq by done. eexists. split; [done|]. cbn.
      rewrite Hb in Hb'. injection Hb' as <-. rewrite lookup_delete_ne; [done|]. intros Hkey.
      pose proof (U2 _ _ _ _ Hx Hy Hkey). set_solver.
    + rewrite list_lookup_insert_ne by done. eauto.
  - intros i b' k y Hi Hk. destruct (decide (i = Z.to_nat (d_ExpireBucket d))) as [->|E].
    + rewrite list_lookup_insert_eq in Hi by done. injection Hi as <-. cbn in Hk. apply lookup_delete_Some in Hk as [Hne Hk].
      destruct (H3 _ _ _ _ Hb Hk) as (_ & d' & t & Hy & <- & Hrest). split; [|by eauto 10].
      intros ->%elem_of_singleton. by destruct Hne, (U1 _ _ _ Hx Hy).
    + rewrite list_lookup_insert_ne in Hi by done. destruct (H3 _ _ _ _ Hi Hk) as (_ & d' & t & Hy & Hd & He & Hrest).
      split; [|by eauto 10]. intros ->%elem_of_singleton. rewrite (U1 _ _ _ Hy Hx) in He. by destruct E.
Qed.

(** An entry that is in no bucket can go, *)
Lemma filed_drop bs e1 x d e2 :
  x ∉ (e1 ++ e2).*1 → filed bs (e1 ++ (x, d) :: e2) {[x]} → filed bs (e1 ++ e2) ∅.
Proof.
  intros Hx [H1 H2 H3]. constructor; [done|..].
  - intros y d' Hy _. apply H2; [set_solver|]. intros ->%elem_of_singleton. apply Hx, list_elem_of_fmap. by exists (x, d').
  - intros i b k y Hi Hk. destruct (H3 _ _ _ _ Hi Hk) as (Hne & d' & t & Hy & Hrest). split; [set_solver|].
    exists d', t. split; [|done]. apply elem_of_app in Hy as [?|[[= -> ->]|?]%elem_of_cons]; set_solver.
Qed.

(** and one that is new can come. *)
Lemma filed_push bs es x d : x ∉ es.*1 → filed bs es ∅ → filed bs ((x, d) :: es) {[x]}.
Proof.
  intros Hx [H1 H2 H3]. constructor; [done|..].
  - intros y d' [[= -> ->]|Hy]%elem_of_cons Hne; [set_solver|]. apply H2; [done|set_solver].
  - intros i b k y Hi Hk. destruct (H3 _ _ _ _ Hi Hk) as (_ & d' & t & Hy & Hrest). split.
    + intros ->%elem_of_singleton. apply Hx, list_elem_of_fmap. by exists (x, d').
    + exists d', t. split; [by right|done].
Qed.

Lemma newer_ge o t : ∃ t', newer o t = Some t' ∧ (t ≤ t')%Z ∧ ∀ t0, o = Some t0 → (t0 ≤ t')%Z.
Proof.
  destruct o as [t0|]; cbn; [|exists t; split; [done|split; [lia|done]]].
  destruct (Z.ltb_spec t0 t); eexists; (split; [done|]); (split; [lia|]); intros ? [= <-]; lia.
Qed.

(** An entry that is in no bucket is put into one. *)
Lemma filed_in bs es es' x d i b :
  (∀ y e, y ≠ x → (y, e) ∈ es' ↔ (y, e) ∈ es) → (∀ e, (x, e) ∈ es' ↔ e = d) → uniq es' →
  filed bs es {[x]} → Z.to_nat (d_ExpireBucket d) = i → bs !! i = Some b →
  filed (<[i := mkBucket (<[d_Key d := x]> (b_entries b)) (newer (b_newest b) (d_ExpiresAt d))]> bs) es' ∅.
Proof.
  intros Hother Hx [U1 U2] [H1 H2 H3] Hi Hb. pose proof (lookup_lt_Some _ _ _ Hb) as Hlt.
  destruct (newer_ge (b_newest b) (d_ExpiresAt d)) as (t' & Ht' & Hge & Hmono).
  assert (Hin : (x, d) ∈ es') by (by apply Hx). constructor; [by rewrite length_insert|..].
  - intros y d' Hy _. destruct (decide (y = x)) as [->|Hne].
    + apply Hx in Hy as ->. rewrite Hi, list_lookup_insert_eq by done. eexists. split; [done|]. cbn. by rewrite lookup_insert_eq.
    + destruct (H2 y d') as (b' & Hb' & Hk); [by apply Hother|set_solver|].
      destruct (decide (i = Z.to_nat (d_ExpireBucket d'))) as [E|E].
      * rewrite <-E in Hb' |- *. rewrite list_lookup_insert_eq by done. eexists. split; [done|]. cbn.
        rewrite Hb in Hb'. injection Hb' as <-. rewrite lookup_insert_ne; [done|]. intros Hkey.
        by destruct Hne, (U2 _ _ _ _ Hin Hy Hkey).
      * rewrite list_lookup_insert_ne by done. eauto.
  - intros j b' k y Hj Hk. split; [set_solver|]. destruct (decide (j = i)) as [->|E].
    + rewrite list_lookup_insert_eq in Hj by done. injection Hj as <-. cbn in Hk |- *.
      apply lookup_insert_Some in Hk as [[<- <-]|[Hne Hk]]; [by exists d, t'|].
      destruct (H3 _ _ _ _ Hb Hk) as (Hyx & d' & t & Hy & <- & Hi' & Ht & Hle). exists d', t'.
      split; [apply Hother; [set_solver|done]|]. split; [done|]. split; [done|]. split; [done|].
      specialize (Hmono t Ht). lia.
    + rewrite list_lookup_insert_ne in Hj by done.
      destruct (H3 _ _ _ _ Hj Hk) as (Hyx & d' & t & Hy & Hrest). exists d', t.
      split; [apply Hother; [set_solver|done]|done].
Qed.

(** ** The representation *)
Record exp_ok c es : Prop := mkExpOk {
  xo_index : indexed (x_list c) (x_items c) es;
  xo_filed : filed (x_buckets c) es ∅;
  xo_next : (0 ≤ x_next c < numBuckets)%Z;
}.

(** What the cleaning relies on: nobody else moves to another bucket or puts something
    into the one that is next. *)
Record calm c c' : Prop := mkCalm {
  cm_ttl : x_ttl c' = x_ttl c;
  cm_next : x_next c' = x_next c;
  cm_newest : b_newest <$> x_buckets c' !! Z.to_nat (x_next c) = b_newest <$> x_buckets c !! Z.to_nat (x_next c);
}.

#[export] Instance calm_preorder : PreOrder calm.
Proof.
  split; [done|]. intros c1 c2 c3 [H1 H2 H3] [J1 J2 J3]. rewrite H2 in J3. constructor; congruence.
Qed.

Definition stamp (d : Data V) : V * Z := (d_Value d, d_ExpiresAt d).
Abbreviation entry := (entry_by stamp).

Lemma removeElement_ok c e1 x d e2 :
  exp_ok c (e1 ++ (x, d) :: e2) →
  ∃ c', removeElement x c = Some c' ∧ exp_ok c' (e1 ++ e2) ∧ calm c c' ∧ x_size c' = x_size c
    ∧ ll_data (x_list c') !! x = Some d.
Proof.
  intros [Hix Hfd Hn]. unfold removeElement.
  assert (Hin : (x, d) ∈ e1 ++ (x, d) :: e2) by set_solver. pose proof (ix_data _ _ _ Hix x d Hin) as Hd.
  destruct (indexed_Remove _ _ _ _ _ _ Hix) as (l & -> & Hl & Hdata). cbn [mbind option_bind]. rewrite Hdata, Hd.
  cbn [mbind option_bind]. unfold removeFromBucket. cbn [with_list x_list x_buckets]. rewrite Hdata, Hd.
  cbn [mbind option_bind]. destruct (fd_bucket _ _ _ Hfd x d Hin) as (b & Hb & _); [set_solver|]. rewrite Hb.
  cbn [mbind option_bind]. eexists. split; [done|]. split; [|split; [|by split; [|cbn; rewrite Hdata]]].
  - constructor; [done| |done]. apply (filed_drop _ _ x d); [by eapply indexed_fresh|].
    by eapply filed_out, Hb; [by eapply indexed_uniq|..].
  - constructor; [done|done|]. cbn. destruct (decide (Z.to_nat (d_ExpireBucket d) = Z.to_nat (x_next c))) as [E|E].
    + rewrite <-E, Hb. rewrite list_lookup_insert_eq by (by eapply lookup_lt_Some). done.
    + by rewrite list_lookup_insert_ne.
Qed.

Lemma bucketID_ok n :
  (0 ≤ n < numBuckets)%Z →
  let i := (uint8 (uint8 (numBuckets + n) - 1) mod numBuckets)%Z in (0 ≤ i < numBuckets)%Z ∧ i ≠ n.
Proof. unfold uint8, numBuckets. cbn zeta. intros H. Z.to_euclidean_division_equations; lia. Qed.

Lemma addToBucket_ok c e1 x d e2 :
  indexed (x_list c) (x_items c) (e1 ++ (x, d) :: e2) → filed (x_buckets c) (e1 ++ (x, d) :: e2) {[x]} →
  (0 ≤ x_next c < numBuckets)%Z →
  ∃ c' d', addToBucket x c = Some c' ∧ exp_ok c' (e1 ++ (x, d') :: e2) ∧ entry (x, d') = entry (x, d)
    ∧ calm c c' ∧ x_size c' = x_size c.
Proof.
  intros Hix Hfd Hn. unfold addToBucket. destruct (bucketID_ok (x_next c) Hn) as [Hr Hne].
  set (i := (uint8 _ mod _)%Z) in *. rewrite (ix_data _ _ _ Hix x d) by set_solver. cbn [mbind option_bind].
  destruct (lookup_lt_is_Some_2 (x_buckets c) (Z.to_nat i)) as [b Hb]; [rewrite (fd_len _ _ _ Hfd); lia|].
  rewrite Hb. cbn [mbind option_bind].
  set (d' := mkData (d_Key d) (d_Value d) (d_ExpiresAt d) i). eexists _, d'. split; [done|].
  assert (Hset : indexed (set_data x d' (x_list c)) (x_items c) (e1 ++ (x, d') :: e2)) by (by eapply indexed_set).
  pose proof (indexed_fresh _ _ _ _ _ _ Hix) as Hx. split; [constructor; [done| |done]|split; [done|split; [|done]]].
  - cbn. apply (filed_in _ (e1 ++ (x, d) :: e2) _ x d'); [| |by eapply indexed_uniq|done|done|done].
    + intros y e Hy. rewrite !elem_of_app, !elem_of_cons. naive_solver.
    + intros e. rewrite elem_of_app, elem_of_cons. split; [|intros ->; tauto].
      intros [H|[[= ->]|H]]; [|done|]; destruct Hx; apply list_elem_of_fmap; exists (x, e); set_solver.
  - constructor; [done|done|]. cbn. rewrite list_lookup_insert_ne; [done|]. lia.
Qed.

(** ** The cache as a list

    The most recently used entry comes first. *)
Abbreviation Entries := (list (string * (V * Z))).

Definition aGet (now : Z) (k : string) (l : Entries) : option V * Entries :=
  match lru_find k l with
  | Some (v, t) => if (t <? now)%Z then (None, l) else (Some v, (k, (v, t)) :: lru_remove k l)
  | None => (None, l)
  end.

Definition aAdd (size ttl now : Z) (k : string) (v : V) (l : Entries) : bool * Entries :=
  let e := (k, (v, (now + ttl)%Z)) in
  match lru_find k l with
  | Some _ => (false, e :: lru_remove k l)
  | None =>
      if (0 <? size)%Z && (size <? Z.of_nat (length (e :: l)))%Z then (true, removelast (e :: l)) else (false, e :: l)
  end.

Definition fresh_values (now : Z) (l : Entries) : list V :=
  (λ e : string * (V * Z), e.2.1) <$> List.filter (λ e, negb (e.2.2 <? now)%Z) (reverse l).

(** The cache has come to hold [l]. *)
Definition holds c c' (l : Entries) : Prop := ∃ es, exp_ok c' es ∧ l = entry <$> es ∧ calm c c' ∧ x_size c' = x_size c.

Lemma holds_same c es : exp_ok c es → holds c c (entry <$> es).
Proof. intros H. by exists es. Qed.

Lemma Get_holds c es now k :
  exp_ok c es →
  ∃ c', Get now k c = Some ((aGet now k (entry <$> es)).1, c') ∧ holds c c' (aGet now k (entry <$> es)).2.
Proof.
  intros H. pose proof H as [Hix Hfd Hn]. unfold Get, aGet. destruct (x_items c !! k) as [x|] eqn:Hk.
  - destruct (indexed_split _ _ _ _ _ Hix Hk) as (e1 & d & e2 & -> & <- & Hd). rewrite Hd. cbn [mbind option_bind].
    destruct (find_entry stamp e1 x d e2 (ix_keys _ _ _ Hix)) as [-> ->]. cbn [stamp]. destruct (_ <? now)%Z; cbn [fst snd].
    + exists c. split; [done|]. by apply holds_same.
    + destruct (indexed_front _ _ _ _ _ _ Hix) as (l & -> & Hl & _). cbn [mbind option_bind].
      eexists. split; [done|]. exists ((x, d) :: e1 ++ e2). split_and!; [|done|done|done]. constructor; [done| |done].
      cbn. eapply filed_perm; [|exact Hfd]. symmetry. apply Permutation_middle.
  - apply (indexed_None _ _ _ _ Hix) in Hk. rewrite (find_none _ _ _ Hk). exists c. split; [done|]. by apply holds_same.
Qed.

Lemma Peek_ok c es now k : exp_ok c es → Peek now k c = Some (aGet now k (entry <$> es)).1.
Proof.
  intros [Hix _ _]. unfold Peek, aGet. destruct (x_items c !! k) as [x|] eqn:Hk.
  - destruct (indexed_split _ _ _ _ _ Hix Hk) as (e1 & d & e2 & -> & <- & Hd). rewrite Hd. cbn [mbind option_bind].
    destruct (find_entry stamp e1 x d e2 (ix_keys _ _ _ Hix)) as [-> _]. cbn [stamp]. by destruct (_ <? now)%Z.
  - apply (indexed_None _ _ _ _ Hix) in Hk. by rewrite (find_none _ _ _ Hk).
Qed.

Lemma Contains_ok c es k : exp_ok c es → Contains k c = bool_decide (is_Some (lru_find k (entry <$> es))).
Proof.
  intros [Hix _ _]. unfold Contains. destruct (x_items c !! k) as [x|] eqn:Hk.
  - destruct (indexed_split _ _ _ _ _ Hix Hk) as (e1 & d & e2 & -> & <- & Hd).
    destruct (find_entry stamp e1 x d e2 (ix_keys _ _ _ Hix)) as [-> _]. by rewrite !bool_decide_eq_true_2.
  - apply (indexed_None _ _ _ _ Hix) in Hk. by rewrite (find_none _ _ _ Hk).
Qed.

Lemma RemoveKey_holds c es k :
  exp_ok c es →
  ∃ c', RemoveKey k c = Some (bool_decide (is_Some (lru_find k (entry <$> es))), c')
    ∧ holds c c' (lru_remove k (entry <$> es)).
Proof.
  intros H. pose proof H as [Hix _ _]. unfold RemoveKey. destruct (x_items c !! k) as [x|] eqn:Hk.
  - destruct (indexed_split _ _ _ _ _ Hix Hk) as (e1 & d & e2 & -> & <- & Hd).
    destruct (find_entry stamp e1 x d e2 (ix_keys _ _ _ Hix)) as [-> ->].
    destruct (removeElement_ok c e1 x d e2 H) as (c' & -> & Hok & Hc & Hs & _). cbn [mbind option_bind].
    exists c'. split; [by rewrite bool_decide_eq_true_2|]. by exists (e1 ++ e2).
  - apply (indexed_None _ _ _ _ Hix) in Hk. rewrite (find_none _ _ _ Hk). exists c. split; [done|].
    exists es. split_and!; [done| |done|done]. by rewrite remove_none.
Qed.

(** The oldest entry *)
Lemma removeOldest_holds c es :
  exp_ok c es → ∃ c', removeOldest c = Some c' ∧ holds c c' (removelast (entry <$> es)).
Proof.
  intros H. pose proof H as [Hix _ _]. unfold removeOldest. rewrite (indexed_Back _ _ _ Hix).
  destruct es as [|[x d] es] using rev_ind; [exists c; split; [done|by exists []]|]. rewrite last_snoc. cbn [fmap option_fmap option_map fst].
  destruct (removeElement_ok c es x d [] H) as (c' & -> & Hok & Hc & Hs & _). exists c'. split; [done|].
  rewrite app_nil_r in Hok. exists es. split_and!; [done| |done|done]. by rewrite entry_snoc, removelast_snoc.
Qed.

Lemma RemoveOldest_holds c es :
  exp_ok c es →
  ∃ c', RemoveOldest c = Some ((λ e : string * (V * Z), (e.1, e.2.1)) <$> last (entry <$> es), c')
    ∧ holds c c' (removelast (entry <$> es)).
Proof.
  intros H. pose proof H as [Hix _ _]. unfold RemoveOldest. rewrite (indexed_Back _ _ _ Hix).
  destruct es as [|[x d] es] using rev_ind; [exists c; split; [done|by exists []]|].
  rewrite entry_snoc, !last_snoc, removelast_snoc. cbn [fmap option_fmap option_map fst].
  destruct (removeElement_ok c es x d [] H) as (c' & -> & Hok & Hc & Hs & Hd). cbn [mbind option_bind]. rewrite Hd.
  cbn [mbind option_bind]. exists c'. split; [done|]. rewrite app_nil_r in Hok. by exists es.
Qed.

Lemma GetOldest_ok c es :
  exp_ok c es → GetOldest c = Some ((λ e : string * (V * Z), (e.1, e.2.1)) <$> last (entry <$> es)).
Proof.
  intros [Hix _ _]. unfold GetOldest. rewrite (indexed_Back _ _ _ Hix).
  destruct es as [|[x d] es] using rev_ind; [done|].
  rewrite entry_snoc, !last_snoc. cbn [fmap option_fmap option_map fst]. by rewrite (ix_data _ _ _ Hix x d) by set_solver.
Qed.

Lemma holds_trans c c1 c2 es l : exp_ok c1 es → calm c c1 → x_size c1 = x_size c → holds c1 c2 l → holds c c2 l.
Proof. intros _ Hc Hs (es2 & H1 & H2 & H3 & H4). exists es2. split_and!; [done|done|by etrans|congruence]. Qed.

(** An entry that is there gets a new value and a new bucket, *)
Lemma Add_hit c e1 x d e2 now v :
  exp_ok c (e1 ++ (x, d) :: e2) → x_items c !! d_Key d = Some x →
  ∃ c', Add now (d_Key d) v c = Some (false, c')
    ∧ holds c c' ((d_Key d, (v, (now + x_ttl c)%Z)) :: (entry <$> e1 ++ e2)).
Proof.
  intros [Hix Hfd Hn] Hk. unfold Add. rewrite Hk.
  assert (Hin : (x, d) ∈ e1 ++ (x, d) :: e2) by set_solver. pose proof (ix_data _ _ _ Hix x d Hin) as Hd.
  destruct (indexed_front _ _ _ _ _ _ Hix) as (l & -> & Hl & Hdata). cbn [mbind option_bind].
  unfold removeFromBucket. cbn [with_list x_list x_buckets]. rewrite Hdata, Hd. cbn [mbind option_bind].
  destruct (fd_bucket _ _ _ Hfd x d Hin) as (b & Hb & _); [set_solver|]. rewrite Hb.
  cbn [mbind option_bind with_buckets x_list with_list]. rewrite Hdata, Hd. cbn [mbind option_bind].
  set (d' := mkData (d_Key d) v (now + x_ttl c) (d_ExpireBucket d)). set (c1 := with_list (set_data x d' l) _ _).
  destruct (addToBucket_ok c1 [] x d' (e1 ++ e2)) as (c' & d'' & -> & Hok & He & Hc & Hs).
  - exact (indexed_set l (x_items c) [] x d d' (e1 ++ e2) Hl eq_refl).
  - cbn. pose proof (filed_out _ _ x d b (indexed_uniq _ _ _ Hix) Hfd Hin Hb) as Hout.
    apply (filed_drop _ _ x d) in Hout; [|by eapply indexed_fresh]. apply filed_push; [by eapply indexed_fresh|done].
  - done.
  - cbn [mbind option_bind]. exists c'. split; [done|]. exists ((x, d'') :: e1 ++ e2). split_and!; [done| | |done].
    + change (entry <$> (x, d'') :: e1 ++ e2) with (entry (x, d'') :: (entry <$> e1 ++ e2)). by rewrite He.
    + destruct Hc as [C1 C2 C3]. constructor; [done|done|]. cbn in C3. etrans; [exact C3|].
      destruct (decide (Z.to_nat (d_ExpireBucket d) = Z.to_nat (x_next c))) as [E|E].
      * rewrite <-E, Hb, list_lookup_insert_eq by (by eapply lookup_lt_Some). done.
      * by rewrite list_lookup_insert_ne.
Qed.

(** and one that is new may push the oldest out. *)
Lemma Add_miss c es now k v :
  exp_ok c es → x_items c !! k = None →
  let e := (k, (v, (now + x_ttl c)%Z)) in
  let evict := (0 <? x_size c)%Z && (x_size c <? Z.of_nat (S (length es)))%Z in
  ∃ c', Add now k v c = Some (evict, c')
    ∧ holds c c' (if evict then removelast (e :: (entry <$> es)) else e :: (entry <$> es)).
Proof.
  intros [Hix Hfd Hn] Hk. unfold Add. rewrite Hk.
  destruct (indexed_push _ _ _ k v (now + x_ttl c) Hix Hk) as (x & l & -> & Hl & Hdata). cbn [mbind option_bind].
  set (d := mkData k v (now + x_ttl c) 0) in *. set (c0 := with_list _ _ _).
  destruct (addToBucket_ok c0 [] x d es) as (c1 & d' & -> & Hok & He & Hc & Hs).
  - exact Hl.
  - cbn. apply filed_push; [|done]. exact (indexed_fresh _ _ [] x d es Hl).
  - done.
  - cbn [mbind option_bind app] in *. rewrite (indexed_size _ _ _ (xo_index _ _ Hok)). cbn [length].
    assert (Hl' : (k, (v, (now + x_ttl c)%Z)) :: (entry <$> es) = entry <$> (x, d') :: es).
    { change (entry (x, d) :: (entry <$> es) = entry (x, d') :: (entry <$> es)). by rewrite He. }
    assert (Hc' : calm c c1) by (destruct Hc as [C1 C2 C3]; by constructor). rewrite Hl'.
    destruct ((0 <? x_size c)%Z && _).
    + destruct (removeOldest_holds c1 _ Hok) as (c2 & -> & H2). cbn [mbind option_bind]. exists c2. split; [done|].
      by eapply holds_trans.
    + exists c1. split; [done|]. by exists ((x, d') :: es).
Qed.

Lemma Add_holds c es now k v :
  exp_ok c es →
  let r := aAdd (x_size c) (x_ttl c) now k v (entry <$> es) in
  ∃ c', Add now k v c = Some (r.1, c') ∧ holds c c' r.2.
Proof.
  intros H. pose proof H as [Hix _ _]. unfold aAdd. destruct (x_items c !! k) as [x|] eqn:Hk.
  - destruct (indexed_split _ _ _ _ _ Hix Hk) as (e1 & d & e2 & -> & <- & Hd).
    destruct (find_entry stamp e1 x d e2 (ix_keys _ _ _ Hix)) as [-> ->]. by apply (Add_hit c e1 x d e2).
  - pose proof (Add_miss c es now k v H Hk) as Hm. cbn zeta in *. apply (indexed_None _ _ _ _ Hix) in Hk.
    rewrite (find_none _ _ _ Hk). cbn [length]. rewrite length_fmap. by destruct ((0 <? x_size c)%Z && _).
Qed.

Lemma iter_removeOldest m c es :
  exp_ok c es →
  ∃ c', Nat.iter m (λ o, o ≫= removeOldest) (Some c) = Some c' ∧ holds c c' (take (length es - m) (entry <$> es)).
Proof.
  intros H. induction m as [|m (c1 & IH & es1 & Hok & Hes & Hc & Hs)].
  - exists c. split; [done|]. rewrite Nat.sub_0_r, firstn_all2 by (by rewrite length_fmap). by apply holds_same.
  - rewrite Nat.iter_succ, IH. cbn [mbind option_bind]. destruct (removeOldest_holds c1 es1 Hok) as (c2 & -> & H2).
    exists c2. split; [done|]. rewrite <-Hes, removelast_take, length_fmap in H2.
    replace (length es - S m) with (min (length es - m) (length es) - 1) by lia. by eapply holds_trans.
Qed.

Lemma size_items l items es : indexed (V := V) l items es → size items = length es.
Proof.
  intros H. assert (dom items = list_to_set (C := gset string) (keys es)) as Hd.
  { apply set_eq. intros k. rewrite elem_of_list_to_set, elem_of_keys, elem_of_dom. unfold is_Some.
    setoid_rewrite (ix_items _ _ _ H). naive_solver. }
  rewrite <-size_dom, Hd, size_list_to_set by apply H. unfold keys. by rewrite length_fmap.
Qed.

Lemma Keys_ok c es : exp_ok c es → Keys c = reverse (entry <$> es).*1.
Proof.
  intros [Hix _ _]. unfold Keys. rewrite (indexed_walk d_Key _ _ _ Hix), entry_keys. unfold keys.
  rewrite <-!fmap_reverse, <-list_fmap_compose. done.
Qed.

Lemma Values_ok now c es :
  exp_ok c es →
  let vs := fresh_values now (entry <$> es) in Values now c = vs ++ replicate (length es - length vs) zero.
Proof.
  intros [Hix _ _]. unfold Values. rewrite (indexed_walk id _ _ _ Hix), (size_items _ _ _ Hix), list_fmap_id.
  assert (Hv : d_Value <$> List.filter (λ d, negb (d_ExpiresAt d <? now)%Z) (reverse es.*2) = fresh_values now (entry <$> es)).
  { unfold fresh_values. rewrite <-!fmap_reverse. induction (reverse es) as [|[x d] l IH]; [done|]. cbn.
    destruct (negb _); cbn; [f_equal|]; exact IH. }
  by rewrite Hv.
Qed.

Lemma purge_empty (data : gmap loc (Data V)) b :
  (∀ k x, b_entries b !! k = Some x → ∃ d, data !! x = Some d ∧ d_Key d = k) → b_entries (purgeBucket data b) = ∅.
Proof.
  intros Hb. unfold purgeBucket. cbn. set (f := λ (e : loc) (m : gmap string loc), _).
  assert (Hf : ∀ ents k x, foldr f (b_entries b) ents !! k = Some x → b_entries b !! k = Some x ∧ (x ∉ ents)).
  { induction ents as [|e ents IH]; intros k x; cbn; [intros H; split; [done|by intros ?%elem_of_nil]|]. unfold f at 1.
    destruct (data !! e) as [d|] eqn:Hd; [intros [Hne Hk]%lookup_delete_Some|intros Hk].
    all: destruct (IH k x Hk) as [H1 H2]; (split; [done|]); intros [->|?]%elem_of_cons; [|done];
      destruct (Hb k e H1) as (d' & Hd' & Hk'); congruence. }
  apply map_eq. intros k. rewrite lookup_empty. destruct (foldr f _ _ !! k) as [x|] eqn:Hk; [|done].
  apply Hf in Hk as [H1 H2]. destruct H2. apply list_elem_of_fmap. exists (k, x). split; [done|]. by apply elem_of_map_to_list.
Qed.

Lemma Purge_holds c es : exp_ok c es → holds c (Purge c) [].
Proof.
  intros [Hix Hfd Hn]. exists []. split_and!; [|done| |done].
  - constructor; [apply indexed_Init; by eapply indexed_alloc| |done]. constructor; cbn.
    + rewrite length_fmap. apply Hfd.
    + by intros x d ?%elem_of_nil.
    + intros i b k x Hi Hk. rewrite list_lookup_fmap in Hi. apply fmap_Some in Hi as (b0 & Hi & ->).
      rewrite purge_empty in Hk; [by rewrite lookup_empty in Hk|]. intros k' x' Hk'.
      destruct (fd_entries _ _ _ Hfd _ _ _ _ Hi Hk') as (_ & d & t & Hin & Hd & _). exists d. split; [|done]. by eapply ix_data.
  - constructor; [done|done|]. cbn. rewrite list_lookup_fmap. by destruct (x_buckets c !! _).
Qed.

(** The entries of a bucket are removed. *)
Lemma removeAll_ok ents c es :
  exp_ok c es → NoDup ents → (∀ x, x ∈ ents → ∃ d, (x, d) ∈ es) →
  ∃ c' es', foldl (λ o e, o ≫= removeElement e) (Some c) ents = Some c' ∧ exp_ok c' es' ∧ calm c c' ∧ x_size c' = x_size c
    ∧ es' `sublist_of` es ∧ ∀ e, e ∈ es → e ∈ es' ∨ e.1 ∈ ents.
Proof.
  revert c es. induction ents as [|x ents IH]; intros c es H Hnd Hin.
  - exists c, es. by split_and!; [..|left].
  - apply NoDup_cons in Hnd as [Hx Hnd]. destruct (Hin x ltac:(by left)) as [d Hd].
    apply list_elem_of_split in Hd as (e1 & e2 & ->).
    destruct (removeElement_ok c e1 x d e2 H) as (c1 & Hc1 & Hok & Hcalm & Hs & _). cbn [foldl mbind option_bind]. rewrite Hc1.
    destruct (IH c1 (e1 ++ e2) Hok Hnd) as (c' & es' & -> & Hok' & Hcalm' & Hs' & Hsub & Hcov).
    { intros y Hy. destruct (Hin y ltac:(by right)) as [d' Hd']. exists d'. set_solver. }
    exists c', es'. split_and!; [done|done|by etrans|congruence| |].
    + etrans; [exact Hsub|]. apply sublist_app; [done|]. by apply sublist_cons.
    + intros e [He|[->|He]%elem_of_cons]%elem_of_app; [|by right; left|].
      all: destruct (Hcov e) as [?|?]; [set_solver|by left|by right; right].
Qed.

(** ** Runs

    Every method holds the lock from its beginning to its end, so calls of several
    goroutines are a sequence; the cleaning is two sections with a wait in between. *)
Inductive Op :=
| OGet (key : string) | OPeek (key : string) | OContains (key : string)
| OAdd (key : string) (value : V)
| ORemove (key : string) | ORemoveOldest | OGetOldest
| OKeys | OValues | OLen
| OResize (size : Z) | OPurge
| OTick (d : nat)
| OWait | ODelete (ents : list loc).

Inductive Ans :=
| ANone | ABool (b : bool) | AValue (o : option V) | AEntry (o : option (string * V))
| AKeys (ks : list string) | AValues (vs : list V) | AInt (n : Z).

Record St := mkSt {
  st_now : Z;
  st_lru : LRU V;
  st_cleaner : option (Z * Z);  (** the bucket it is going to empty, and when it may *)
}.

Definition set_lru c (s : St) : St := mkSt (st_now s) c (st_cleaner s).

(** [None] is a run-time panic. *)
Definition exec (op : Op) (s : St) : option (St * Ans) :=
  let c := st_lru s in let now := st_now s in
  match op with
  | OGet k => '(o, c') ← Get now k c; Some (set_lru c' s, AValue o)
  | OPeek k => o ← Peek now k c; Some (s, AValue o)
  | OContains k => Some (s, ABool (Contains k c))
  | OAdd k v => '(b, c') ← Add now k v c; Some (set_lru c' s, ABool b)
  | ORemove k => '(b, c') ← RemoveKey k c; Some (set_lru c' s, ABool b)
  | ORemoveOldest => '(o, c') ← RemoveOldest c; Some (set_lru c' s, AEntry o)
  | OGetOldest => o ← GetOldest c; Some (s, AEntry o)
  | OKeys => Some (s, AKeys (Keys c))
  | OValues => Some (s, AValues (Values now c))
  | OLen => Some (s, AInt (Len c))
  | OResize n => '(k, c') ← Resize n c; Some (set_lru c' s, AInt k)
  | OPurge => Some (set_lru (Purge c) s, ANone)
  | OTick d => Some (mkSt (now + Z.of_nat d) c (st_cleaner s), ANone)
  | OWait => w ← deleteExpired_wait now c; Some (mkSt now c (Some w), ANone)
  | ODelete ents => c' ← deleteExpired_delete ents c; Some (mkSt now c' None, ANone)
  end.

(** When the goroutine moves, and with which entries *)
Definition enabled (op : Op) (s : St) : Prop :=
  match op with
  | OWait => cleans (st_lru s) = true ∧ st_cleaner s = None
  | ODelete ents => ∃ i until b, st_cleaner s = Some (i, until) ∧ (until ≤ st_now s)%Z
      ∧ x_buckets (st_lru s) !! Z.to_nat i = Some b ∧ ents ≡ₚ (map_to_list (b_entries b)).*2
  | _ => True
  end.

Inductive runs : St → list (Op * Ans) → St → Prop :=
| runs_nil s : runs s [] s
| runs_cons s op a s1 tr s2 : enabled op s → exec op s = Some (s1, a) → runs s1 tr s2 → runs s ((op, a) :: tr) s2.

(** The same, of the list *)
Record ASt := mkASt { a_now : Z; a_size : Z; a_list : Entries }.
Definition set_alist (l : Entries) (s : ASt) : ASt := mkASt (a_now s) (a_size s) l.

Definition aexec (ttl : Z) (op : Op) (s : ASt) : ASt * Ans :=
  let l := a_list s in let now := a_now s in
  match op with
  | OGet k => (set_alist (aGet now k l).2 s, AValue (aGet now k l).1)
  | OPeek k => (s, AValue (aGet now k l).1)
  | OContains k => (s, ABool (bool_decide (is_Some (lru_find k l))))
  | OAdd k v => let r := aAdd (a_size s) ttl now k v l in (set_alist r.2 s, ABool r.1)
  | ORemove k => (set_alist (lru_remove k l) s, ABool (bool_decide (is_Some (lru_find k l))))
  | ORemoveOldest => (set_alist (removelast l) s, AEntry ((λ e : string * (V * Z), (e.1, e.2.1)) <$> last l))
  | OGetOldest => (s, AEntry ((λ e : string * (V * Z), (e.1, e.2.1)) <$> last l))
  | OKeys => (s, AKeys (reverse l.*1))
  | OValues => let vs := fresh_values now l in (s, AValues (vs ++ replicate (length l - length vs) zero))
  | OLen => (s, AInt (Z.of_nat (length l)))
  | OResize n =>
      if (n <=? 0)%Z then (mkASt now 0 l, AInt 0)
      else (mkASt now n (take (Z.to_nat n) l), AInt (Z.max 0 (Z.of_nat (length l) - n)))
  | OPurge => (set_alist [] s, ANone)
  | OTick d => (mkASt (now + Z.of_nat d) (a_size s) l, ANone)
  | OWait | ODelete _ => (s, ANone)
  end.

(** The cleaning removes some expired entries, and no others. *)
Definition cleaned (s s' : ASt) : Prop :=
  ∃ l', s' = set_alist l' s ∧ l' `sublist_of` a_list s ∧ ∀ e, e ∈ a_list s → e ∈ l' ∨ (e.2.2 ≤ a_now s)%Z.

Inductive astep (ttl : Z) : ASt → Op → Ans → ASt → Prop :=
| astep_op s op : astep ttl s op (aexec ttl op s).2 (aexec ttl op s).1
| astep_clean s s' ents : cleaned s s' → astep ttl s (ODelete ents) ANone s'.

Inductive aruns (ttl : Z) : ASt → list (Op * Ans) → ASt → Prop :=
| aruns_nil s : aruns ttl s [] s
| aruns_cons s op a s1 tr s2 : astep ttl s op a s1 → aruns ttl s1 tr s2 → aruns ttl s ((op, a) :: tr) s2.

(** ** The simulation *)
Definition cleaner_ok (s : St) : Prop :=
  match st_cleaner s with
  | None => True
  | Some (i, until) => i = x_next (st_lru s)
      ∧ ∀ b t, x_buckets (st_lru s) !! Z.to_nat i = Some b → b_newest b = Some t → (t ≤ until)%Z
  end.

Record simulates (ttl : Z) (s : St) (a : ASt) : Prop := mkSim {
  sm_rep : ∃ es, exp_ok (st_lru s) es ∧ a_list a = entry <$> es;
  sm_now : a_now a = st_now s;
  sm_size : a_size a = x_size (st_lru s);
  sm_ttl : ttl = x_ttl (st_lru s);
  sm_cleaner : cleaner_ok s;
}.

Lemma cleaner_calm s c' : calm (st_lru s) c' → cleaner_ok s → cleaner_ok (set_lru c' s).
Proof.
  intros [_ C2 C3]. unfold cleaner_ok. destruct s as [now c [[i until]|]]; cbn in *; [|done]. intros [-> Hb].
  split; [done|]. intros b t Hi Ht. rewrite Hi in C3. destruct (x_buckets c !! _) as [b0|]; [|done].
  cbn in C3. injection C3 as C3. eapply Hb; [done|congruence].
Qed.

(** A call that leaves the cache with the list [l] *)
Lemma simulates_holds ttl s a c' l :
  simulates ttl s a → holds (st_lru s) c' l → simulates ttl (set_lru c' s) (set_alist l a).
Proof.
  intros [H1 H2 H3 H4 H5] (es & E1 & -> & E3 & E4). constructor; cbn; [by exists es|done|congruence| |by apply cleaner_calm].
  rewrite H4. symmetry. apply E3.
Qed.

Lemma NewLRU_simulates now size ttl :
  simulates (if (ttl <=? 0)%Z then noEvictionTTL else ttl) (mkSt now (NewLRU size ttl) None)
    (mkASt now (if (size <? 0)%Z then 0%Z else size) []).
Proof.
  constructor; [|done..]. exists []. split; [|done]. constructor; [apply indexed_Init; cbn; lia| |cbn; unfold numBuckets; lia].
  constructor; cbn -[replicate].
  - apply length_replicate.
  - by intros x d ?%elem_of_nil.
  - intros i b k x [-> _]%lookup_replicate_1. cbn. by rewrite lookup_empty.
Qed.

Lemma Resize_simulates ttl s a n :
  simulates ttl s a →
  ∃ c' k, Resize n (st_lru s) = Some (k, c')
    ∧ (aexec ttl (OResize n) a).2 = AInt k ∧ simulates ttl (set_lru c' s) (aexec ttl (OResize n) a).1.
Proof.
  intros H. pose proof H as [(es & Hok & Hl) H2 H3 H4 H5]. unfold Resize, aexec.
  destruct (Z.leb_spec n 0) as [Hn|Hn].
  - do 2 eexists. split; [done|]. split; [done|]. constructor; cbn; [|done|done|done|].
    + exists es. split; [|done]. by destruct Hok.
    + unfold cleaner_ok in *. by destruct s as [now c [[i until]|]].
  - set (diff := Z.max 0 _). destruct (iter_removeOldest (Z.to_nat diff) _ _ Hok) as (c1 & -> & es1 & Hok1 & He1 & Hc1 & Hs1).
    cbn [mbind option_bind]. do 2 eexists. split; [done|].
    assert (Hlen : Length (x_list (st_lru s)) = Z.of_nat (length (a_list a))).
    { rewrite Hl, length_fmap. by apply (indexed_size _ _ _ (xo_index _ _ Hok)). }
    split; [cbn; unfold diff; by rewrite Hlen|]. constructor; cbn; [|done|done| |].
    + exists es1. split; [by destruct Hok1|]. rewrite Hl, <-He1. rewrite Hl, length_fmap in Hlen.
      assert (length es - Z.to_nat diff = min (Z.to_nat n) (length es)) as -> by (unfold diff; lia).
      rewrite <-take_take. f_equal. symmetry. apply firstn_all2. by rewrite length_fmap.
    + rewrite H4. symmetry. apply Hc1.
    + pose proof (cleaner_calm s c1 Hc1 H5) as Hcl. unfold cleaner_ok in *. by destruct s as [now c [[i until]|]].
Qed.

Lemma wait_simulates ttl s a :
  simulates ttl s a →
  ∃ w, deleteExpired_wait (st_now s) (st_lru s) = Some w ∧ simulates ttl (mkSt (st_now s) (st_lru s) (Some w)) a.
Proof.
  intros [(es & Hok & Hl) H2 H3 H4 H5]. unfold deleteExpired_wait.
  destruct (lookup_lt_is_Some_2 (x_buckets (st_lru s)) (Z.to_nat (x_next (st_lru s)))) as [b Hb].
  { rewrite (fd_len _ _ _ (xo_filed _ _ Hok)). pose proof (xo_next _ _ Hok). lia. }
  rewrite Hb. cbn [mbind option_bind]. eexists. split; [done|]. constructor; cbn; [by exists es|done..|].
  split; [done|]. intros b' t. rewrite Hb. intros [= <-] ->. lia.
Qed.

(** What the cleaning deletes has expired. *)
Lemma delete_simulates ttl s a ents :
  simulates ttl s a → enabled (ODelete ents) s →
  ∃ c' a', deleteExpired_delete ents (st_lru s) = Some c' ∧ cleaned a a' ∧ simulates ttl (mkSt (st_now s) c' None) a'.
Proof.
  intros [(es & Hok & Hl) H2 H3 H4 H5] (i & until & b & Hcl & Hnow & Hb & Hents). pose proof Hok as [Hix Hfd Hn].
  unfold cleaner_ok in H5. rewrite Hcl in H5. destruct H5 as [-> Hnew].
  assert (Hin : ∀ x, x ∈ ents → ∃ d, (x, d) ∈ es ∧ (d_ExpiresAt d ≤ st_now s)%Z).
  { intros x. rewrite Hents. intros ([k y] & -> & Hk%elem_of_map_to_list)%list_elem_of_fmap.
    destruct (fd_entries _ _ _ Hfd _ _ _ _ Hb Hk) as (_ & d & t & Hd & _ & _ & Ht & Hle). exists d.
    specialize (Hnew b t Hb Ht). split; [done|]. lia. }
  assert (Hnd : NoDup ents).
  { rewrite Hents. apply NoDup_fmap_2_strong; [|apply NoDup_map_to_list]. intros [k x] [k' y] Hk Hk' E. cbn in E. subst y.
    apply elem_of_map_to_list in Hk, Hk'. destruct (fd_entries _ _ _ Hfd _ _ _ _ Hb Hk) as (_ & d & ? & Hd & <- & _).
    destruct (fd_entries _ _ _ Hfd _ _ _ _ Hb Hk') as (_ & d' & ? & Hd' & <- & _).
    by rewrite (proj1 (indexed_uniq _ _ _ Hix) _ _ _ Hd Hd'). }
  destruct (removeAll_ok ents _ es Hok Hnd) as (c1 & es1 & Hc1 & Hok1 & Hcalm & Hs1 & Hsub & Hcov).
  { intros x (d & ? & _)%Hin. eauto. }
  unfold deleteExpired_delete. rewrite Hc1. cbn [mbind option_bind]. do 2 eexists. split; [done|].
  split; [exists (entry <$> es1); split; [done|]; rewrite Hl; split|constructor; cbn; [|done|congruence| |done]].
  - clear -Hsub. induction Hsub; cbn; by constructor.
  - intros e ([x d] & -> & He)%list_elem_of_fmap. destruct (Hcov (x, d) He) as [Hk|Hk].
    + left. apply list_elem_of_fmap. eauto.
    + right. destruct (Hin x Hk) as (d' & Hd' & Hle). rewrite (proj1 (indexed_uniq _ _ _ Hix) _ _ _ He Hd'). by rewrite H2.
  - exists es1. split; [|done]. destruct Hok1 as [O1 O2 O3]. constructor; [done|done|]. cbn. unfold uint8, numBuckets in *.
    Z.to_euclidean_division_equations; lia.
  - rewrite H4. symmetry. apply Hcalm.
Qed.

Lemma step_simulates ttl s a op :
  simulates ttl s a → enabled op s →
  ∃ s' r a', exec op s = Some (s', r) ∧ astep ttl a op r a' ∧ simulates ttl s' a'.
Proof.
  intros H He. pose proof H as [(es & Hok & Hl) H2 H3 H4 H5].
  assert (Hsame : ∀ r, exec op s = Some (s, r) → aexec ttl op a = (a, r) →
    ∃ s' r a', exec op s = Some (s', r) ∧ astep ttl a op r a' ∧ simulates ttl s' a').
  { intros r E1 E2. exists s, r, a. split; [done|]. split; [|done]. pose proof (astep_op ttl a op) as Ha. by rewrite E2 in Ha. }
  assert (Hput : ∀ r c' l, exec op s = Some (set_lru c' s, r) → holds (st_lru s) c' l → aexec ttl op a = (set_alist l a, r) →
    ∃ s' r a', exec op s = Some (s', r) ∧ astep ttl a op r a' ∧ simulates ttl s' a').
  { intros r c' l E1 E2 E3. exists (set_lru c' s), r, (set_alist l a). split; [done|]. split; [|by apply simulates_holds].
    pose proof (astep_op ttl a op) as Ha. by rewrite E3 in Ha. }
  destruct op; cbn [exec aexec] in *.
  - destruct (Get_holds _ es (st_now s) key Hok) as (c' & Hg & Hh). eapply Hput; [by rewrite Hg|exact Hh|by rewrite Hl, H2].
  - eapply Hsame; [by rewrite (Peek_ok _ es)|by rewrite Hl, H2].
  - eapply Hsame; [done|by rewrite Hl, (Contains_ok _ es)].
  - destruct (Add_holds _ es (st_now s) key value Hok) as (c' & Hg & Hh). cbn zeta in *.
    eapply Hput; [by rewrite Hg|exact Hh|by rewrite Hl, H2, H3, H4].
  - destruct (RemoveKey_holds _ es key Hok) as (c' & Hg & Hh). eapply Hput; [by rewrite Hg|exact Hh|by rewrite Hl].
  - destruct (RemoveOldest_holds _ es Hok) as (c' & Hg & Hh). eapply Hput; [by rewrite Hg|exact Hh|by rewrite Hl].
  - eapply Hsame; [by rewrite (GetOldest_ok _ es)|by rewrite Hl].
  - eapply Hsame; [done|by rewrite Hl, (Keys_ok _ es)].
  - eapply Hsame; [done|]. rewrite Hl, H2, length_fmap, (Values_ok _ _ es) by done. done.
  - eapply Hsame; [done|]. unfold Len. by rewrite Hl, length_fmap, (indexed_size _ _ _ (xo_index _ _ Hok)).
  - destruct (Resize_simulates ttl s a size H) as (c' & k & -> & Hr & Hs). cbn [mbind option_bind].
    do 3 eexists. split; [done|]. split; [|exact Hs]. rewrite <-Hr. apply astep_op.
  - eapply Hput; [done|by eapply Purge_holds|done].
  - do 3 eexists. split; [done|]. split; [apply astep_op|]. constructor; cbn; [by exists es|lia|done..].
  - destruct (wait_simulates ttl s a H) as (w & -> & Hw). cbn [mbind option_bind]. do 3 eexists. split; [done|].
    split; [apply (astep_op ttl a OWait)|done].
  - destruct (delete_simulates ttl s a ents H He) as (c' & a' & -> & Hc & Hs). cbn [mbind option_bind].
    do 3 eexists. split; [done|]. split; [by apply astep_clean|done].
Qed.

Lemma runs_simulate ttl s a tr s' :
  simulates ttl s a → runs s tr s' → ∃ a', aruns ttl a tr a' ∧ simulates ttl s' a'.
Proof.
  intros H Hr. revert a H. induction Hr as [s|s op r s1 tr s2 He Hx Hr IH]; intros a H; [exists a; split; [constructor|done]|].
  destruct (step_simulates ttl s a op H He) as (s1' & r' & a1 & Hx' & Ha & Hs). rewrite Hx in Hx'. injection Hx' as <- <-.
  destruct (IH a1 Hs) as (a' & Har & Hs'). exists a'. split; [by econstructor|done].
Qed.

(** C20: the cache with expiry is a list of entries.  Whatever the calls of its methods,
    the passing of time, and the turns of the goroutine that empties the buckets, which
    in between waits without the lock: all answers are those of a list in which a call
    puts an entry to the front, drops the last one, looks one up, and from which the
    goroutine removes only entries that have expired; and no call panics, by a [nil]
    pointer in the ring or an index out of the buckets. *)
Theorem expirable_refines now size ttl tr s :
  let ttl' := if (ttl <=? 0)%Z then noEvictionTTL else ttl in
  let size' := if (size <? 0)%Z then 0%Z else size in
  runs (mkSt now (NewLRU size ttl) None) tr s →
  (∃ a, aruns ttl' (mkASt now size' []) tr a ∧ a_now a = st_now s
     ∧ Keys (st_lru s) = reverse (a_list a).*1 ∧ Len (st_lru s) = Z.of_nat (length (a_list a)))
  ∧ ∀ op, enabled op s → is_Some (exec op s).
Proof.
  intros ttl' size' Hr. destruct (runs_simulate ttl' _ _ tr s (NewLRU_simulates now size ttl) Hr) as (a & Ha & Hs). split.
  - exists a. split; [done|]. destruct Hs as [(es & Hok & Hl) H2 _ _ _]. split; [done|]. rewrite Hl. split.
    + by apply Keys_ok.
    + unfold Len. by rewrite length_fmap, (indexed_size _ _ _ (xo_index _ _ Hok)).
  - intros op He. destruct (step_simulates ttl' s a op Hs He) as (s' & r & _ & -> & _). by eexists.
Qed.
End lru.
End expirable.
