(* ===== verification/SimpleLru.v ===== *)
(** * The cache of the vendored [hashicorp/golang-lru/v2/simplelru]

    [lru.go] on the linked list of [LruRing], every operation of it, with the callback
    on evictions [nil].  [simple_refines]: it answers as the list of [Lru], with which
    the CEL evaluator is modelled. *)
From stdpp Require Import base gmap strings list.
From S2P Require Import Prelude GoStd Lru LruRing.

Module simplelru.

Record LRU (V : Type) := mkLRU {
  x_size : Z;
  x_list : LruList V;
  x_items : gmap string loc;
}.
Arguments mkLRU {_}. Arguments x_size {_}. Arguments x_list {_}. Arguments x_items {_}.

Section lru.
Context {V : Type}.
Implicit Types (c : LRU V) (es : list (loc * Data V)).

(** [NewLRU] refuses a size that is not positive. *)
Definition NewLRU (size : Z) : res (LRU V) :=
  if (size <=? 0)%Z then Err (errOther "must provide a positive size") else Ok (mkLRU size NewList ∅).

(** [Purge] *)
Definition Purge c : LRU V := mkLRU (x_size c) (Init (x_list c)) ∅.

(** [removeElement], [removeOldest] *)
Definition removeElement (e : loc) c : option (LRU V) :=
  l ← Remove e (x_list c);
  d ← ll_data l !! e;
  Some (mkLRU (x_size c) l (base.delete (d_Key d) (x_items c))).
Definition removeOldest c : option (LRU V) :=
  match Back (x_list c) with
  | Some e => removeElement e c
  | None => Some c
  end.

(** [Add] *)
Definition Add (key : string) (value : V) c : option (bool * LRU V) :=
  match x_items c !! key with
  | Some ent =>
      l ← MoveToFront ent (x_list c);
      d ← ll_data l !! ent;
      Some (false, mkLRU (x_size c)
        (set_data ent (mkData (d_Key d) value (d_ExpiresAt d) (d_ExpireBucket d)) l) (x_items c))
  | None =>
      '(ent, l) ← PushFront key value (x_list c);
      let c1 := mkLRU (x_size c) l (<[key := ent]> (x_items c)) in
      if (x_size c <? Length l)%Z then c2 ← removeOldest c1; Some (true, c2) else Some (false, c1)
  end.

(** [Get], [Contains], [Peek] *)
Definition Get (key : string) c : option (option V * LRU V) :=
  match x_items c !! key with
  | Some ent =>
      l ← MoveToFront ent (x_list c);
      d ← ll_data l !! ent;
      Some (Some (d_Value d), mkLRU (x_size c) l (x_items c))
  | None => Some (None, c)
  end.
Definition Contains (key : string) c : bool := bool_decide (is_Some (x_items c !! key)).
Definition Peek (key : string) c : option (option V) :=
  match x_items c !! key with
  | Some ent => d ← ll_data (x_list c) !! ent; Some (Some (d_Value d))
  | None => Some None
  end.

(** [Remove], [RemoveOldest], [GetOldest] *)
Definition RemoveKey (key : string) c : option (bool * LRU V) :=
  match x_items c !! key with
  | Some ent => c1 ← removeElement ent c; Some (true, c1)
  | None => Some (false, c)
  end.
Definition RemoveOldest c : option (option (string * V) * LRU V) :=
  match Back (x_list c) with
  | Some ent =>
      c1 ← removeElement ent c;
      d ← ll_data (x_list c1) !! ent;
      Some (Some (d_Key d, d_Value d), c1)
  | None => Some (None, c)
  end.
Definition GetOldest c : option (option (string * V)) :=
  match Back (x_list c) with
  | Some ent => d ← ll_data (x_list c) !! ent; Some (Some (d_Key d, d_Value d))
  | None => Some None
  end.

(** [Keys] and [Values], from the oldest to the newest; [Len] *)
Definition Keys c : list string := omap (λ e, d_Key <$> ll_data (x_list c) !! e) (entriesBack (x_list c)).
Definition Values c : list V := omap (λ e, d_Value <$> ll_data (x_list c) !! e) (entriesBack (x_list c)).
Definition Len c : Z := Length (x_list c).

(** [Resize] *)
Definition Resize (size : Z) c : option (Z * LRU V) :=
  let diff := Z.max 0 (Len c - size) in
  c1 ← Nat.iter (Z.to_nat diff) (λ o, o ≫= removeOldest) (Some c);
  Some (diff, mkLRU size (x_list c1) (x_items c1)).

(** ** Calls *)
Inductive Op :=
| OGet (key : string) | OPeek (key : string) | OContains (key : string)
| OAdd (key : string) (value : V)
| ORemove (key : string) | ORemoveOldest | OGetOldest
| OKeys | OValues | OLen
| OResize (size : Z) | OPurge.

Inductive Ans :=
| ANone | ABool (b : bool) | AValue (o : option V) | AEntry (o : option (string * V))
| AKeys (ks : list string) | AValues (vs : list V) | AInt (n : Z).

(** [None] is a run-time panic. *)
Definition exec (op : Op) c : option (LRU V * Ans) :=
  match op with
  | OGet k => '(o, c') ← Get k c; Some (c', AValue o)
  | OPeek k => o ← Peek k c; Some (c, AValue o)
  | OContains k => Some (c, ABool (Contains k c))
  | OAdd k v => '(b, c') ← Add k v c; Some (c', ABool b)
  | ORemove k => '(b, c') ← RemoveKey k c; Some (c', ABool b)
  | ORemoveOldest => '(o, c') ← RemoveOldest c; Some (c', AEntry o)
  | OGetOldest => o ← GetOldest c; Some (c, AEntry o)
  | OKeys => Some (c, AKeys (Keys c))
  | OValues => Some (c, AValues (Values c))
  | OLen => Some (c, AInt (Len c))
  | OResize n => '(k, c') ← Resize n c; Some (c', AInt k)
  | OPurge => Some (Purge c, ANone)
  end.

Fixpoint execs (ops : list Op) c : option (LRU V * list Ans) :=
  match ops with
  | [] => Some (c, [])
  | op :: ops' => '(c1, a) ← exec op c; '(c2, tr) ← execs ops' c1; Some (c2, a :: tr)
  end.

(** The same, of a list; [lru_Add] for a size that is not negative. *)
Definition aAdd (size : Z) (k : string) (v : V) (l : list (string * V)) : bool * list (string * V) :=
  match lru_find k l with
  | Some _ => (false, (k, v) :: lru_remove k l)
  | None => if (size <? Z.of_nat (S (length l)))%Z then (true, removelast ((k, v) :: l)) else (false, (k, v) :: l)
  end.

Lemma aAdd_lru size k v l : (0 ≤ size)%Z → (aAdd size k v l).2 = lru_Add (Z.to_nat size) k v l.
Proof.
  intros Hs. unfold aAdd, lru_Add. destruct (lru_find k l); [done|]. cbn [length].
  destruct (Z.ltb_spec size (Z.of_nat (S (length l)))), (Nat.ltb_spec (Z.to_nat size) (S (length l))); (lia || done).
Qed.

Definition aexec (op : Op) (s : Z * list (string * V)) : Z * list (string * V) * Ans :=
  let '(size, l) := s in
  match op with
  | OGet k => (size, (lru_Get k l).2, AValue (lru_Get k l).1)
  | OPeek k => (s, AValue (lru_find k l))
  | OContains k => (s, ABool (bool_decide (is_Some (lru_find k l))))
  | OAdd k v => (size, (aAdd size k v l).2, ABool (aAdd size k v l).1)
  | ORemove k => (size, lru_remove k l, ABool (bool_decide (is_Some (lru_find k l))))
  | ORemoveOldest => (size, removelast l, AEntry (last l))
  | OGetOldest => (s, AEntry (last l))
  | OKeys => (s, AKeys (reverse l.*1))
  | OValues => (s, AValues (reverse l.*2))
  | OLen => (s, AInt (Z.of_nat (length l)))
  | OResize n => (n, take (Z.to_nat n) l, AInt (Z.max 0 (Z.of_nat (length l) - n)))
  | OPurge => (size, [], ANone)
  end.

Fixpoint aexecs (ops : list Op) (s : Z * list (string * V)) : list Ans :=
  match ops with
  | [] => []
  | op :: ops' => let '(s1, a) := aexec op s in a :: aexecs ops' s1
  end.

(** ** The simulation *)
Abbreviation entry := (entry_by (d_Value (V := V))).

Definition holds c (s : Z * list (string * V)) : Prop :=
  ∃ es, indexed (x_list c) (x_items c) es ∧ s = (x_size c, entry <$> es).

Lemma simple_removeElement_ok c e1 x d e2 :
  indexed (x_list c) (x_items c) (e1 ++ (x, d) :: e2) →
  ∃ c', removeElement x c = Some c' ∧ indexed (x_list c') (x_items c') (e1 ++ e2) ∧ x_size c' = x_size c
    ∧ ll_data (x_list c') !! x = Some d.
Proof.
  intros Hix. unfold removeElement. pose proof (ix_data _ _ _ Hix x d ltac:(set_solver)) as Hd.
  destruct (indexed_Remove _ _ _ _ _ _ Hix) as (l & -> & Hl & Hdata). cbn [mbind option_bind]. rewrite Hdata, Hd.
  eexists. split; [done|]. split; [done|]. split; [done|]. cbn. by rewrite Hdata.
Qed.

Lemma simple_removeOldest_ok c es :
  indexed (x_list c) (x_items c) es →
  ∃ c', removeOldest c = Some c' ∧ holds c' (x_size c, removelast (entry <$> es)).
Proof.
  intros Hix. unfold removeOldest. rewrite (indexed_Back _ _ _ Hix).
  destruct es as [|[x d] es] using rev_ind; [exists c; split; [done|by exists []]|]. rewrite last_snoc.
  cbn [fmap option_fmap option_map fst]. destruct (simple_removeElement_ok c es x d [] Hix) as (c' & -> & Hok & Hs & _).
  exists c'. split; [done|]. rewrite app_nil_r in Hok. exists es. split; [done|]. by rewrite Hs, entry_snoc, removelast_snoc.
Qed.

Lemma simple_iter_removeOldest m c es :
  indexed (x_list c) (x_items c) es →
  ∃ c', Nat.iter m (λ o, o ≫= removeOldest) (Some c) = Some c' ∧ holds c' (x_size c, take (length es - m) (entry <$> es)).
Proof.
  intros H. induction m as [|m (c1 & IH & es1 & Hok & [= Hs Hes])].
  - exists c. split; [done|]. exists es. by rewrite Nat.sub_0_r, firstn_all2 by (by rewrite length_fmap).
  - rewrite Nat.iter_succ, IH. cbn [mbind option_bind]. destruct (simple_removeOldest_ok c1 es1 Hok) as (c2 & -> & H2).
    exists c2. split; [done|]. rewrite <-Hes, removelast_take, length_fmap, <-Hs in H2.
    by replace (length es - S m) with (min (length es - m) (length es) - 1) by lia.
Qed.

Lemma simple_Get_ok c es k :
  indexed (x_list c) (x_items c) es →
  ∃ c', Get k c = Some ((lru_Get k (entry <$> es)).1, c') ∧ holds c' (x_size c, (lru_Get k (entry <$> es)).2).
Proof.
  intros Hix. unfold Get, lru_Get. destruct (x_items c !! k) as [x|] eqn:Hk.
  - destruct (indexed_split _ _ _ _ _ Hix Hk) as (e1 & d & e2 & -> & <- & Hd).
    destruct (find_entry d_Value e1 x d e2 (ix_keys _ _ _ Hix)) as [-> ->]. cbn [fst snd].
    destruct (indexed_front _ _ _ _ _ _ Hix) as (l & -> & Hl & Hdata). cbn [mbind option_bind]. rewrite Hdata, Hd.
    eexists. split; [done|]. by exists ((x, d) :: e1 ++ e2).
  - apply (indexed_None _ _ _ _ Hix) in Hk. rewrite (find_none _ _ _ Hk). exists c. split; [done|]. by exists es.
Qed.

Lemma simple_Add_ok c es k v :
  indexed (x_list c) (x_items c) es →
  let r := aAdd (x_size c) k v (entry <$> es) in ∃ c', Add k v c = Some (r.1, c') ∧ holds c' (x_size c, r.2).
Proof.
  intros Hix. unfold Add, aAdd. destruct (x_items c !! k) as [x|] eqn:Hk.
  - destruct (indexed_split _ _ _ _ _ Hix Hk) as (e1 & d & e2 & -> & <- & Hd).
    destruct (find_entry d_Value e1 x d e2 (ix_keys _ _ _ Hix)) as [-> ->]. cbn [fst snd].
    destruct (indexed_front _ _ _ _ _ _ Hix) as (l & -> & Hl & Hdata). cbn [mbind option_bind]. rewrite Hdata, Hd.
    cbn [mbind option_bind]. set (d' := mkData _ _ _ _). eexists. split; [done|]. exists ((x, d') :: e1 ++ e2). split; [|done].
    exact (indexed_set l (x_items c) [] x d d' (e1 ++ e2) Hl eq_refl).
  - unfold PushFront. destruct (indexed_push _ _ _ k v 0 Hix Hk) as (x & l & -> & Hl & _). cbn [mbind option_bind].
    apply (indexed_None _ _ _ _ Hix) in Hk. rewrite (find_none _ _ _ Hk). cbn zeta.
    rewrite (indexed_size _ _ _ Hl). cbn [length]. rewrite length_fmap.
    set (c1 := mkLRU _ l _). destruct (_ <? _)%Z; cbn [fst snd].
    + destruct (simple_removeOldest_ok c1 _ Hl) as (c2 & -> & H2). cbn [mbind option_bind]. by exists c2.
    + exists c1. split; [done|]. by eexists.
Qed.

Lemma simple_RemoveKey_ok c es k :
  indexed (x_list c) (x_items c) es →
  ∃ c', RemoveKey k c = Some (bool_decide (is_Some (lru_find k (entry <$> es))), c')
    ∧ holds c' (x_size c, lru_remove k (entry <$> es)).
Proof.
  intros Hix. unfold RemoveKey. destruct (x_items c !! k) as [x|] eqn:Hk.
  - destruct (indexed_split _ _ _ _ _ Hix Hk) as (e1 & d & e2 & -> & <- & Hd).
    destruct (find_entry d_Value e1 x d e2 (ix_keys _ _ _ Hix)) as [-> ->].
    destruct (simple_removeElement_ok c e1 x d e2 Hix) as (c' & -> & Hok & Hs & _). cbn [mbind option_bind].
    exists c'. split; [by rewrite bool_decide_eq_true_2|]. exists (e1 ++ e2). by rewrite Hs.
  - apply (indexed_None _ _ _ _ Hix) in Hk. rewrite (find_none _ _ _ Hk), (remove_none _ _ _ Hk). exists c. split; [done|]. by exists es.
Qed.

Lemma simple_Resize_ok c es n :
  indexed (x_list c) (x_items c) es →
  ∃ c', Resize n c = Some (Z.max 0 (Z.of_nat (length (entry <$> es)) - n), c')
    ∧ holds c' (n, take (Z.to_nat n) (entry <$> es)).
Proof.
  intros Hix. unfold Resize, Len. rewrite length_fmap, (indexed_size _ _ _ Hix). cbn zeta. set (diff := Z.max 0 _).
  destruct (simple_iter_removeOldest (Z.to_nat diff) c es Hix) as (c1 & -> & es1 & H1 & [= Hs He]). cbn [mbind option_bind].
  eexists. split; [done|]. exists es1. split; [done|]. cbn. rewrite <-He. f_equal.
  assert (length es - Z.to_nat diff = min (Z.to_nat n) (length es)) as -> by (unfold diff; lia).
  rewrite <-take_take. f_equal. symmetry. apply firstn_all2. by rewrite length_fmap.
Qed.

Lemma simple_exec_ok op c s :
  holds c s → ∃ c', exec op c = Some (c', (aexec op s).2) ∧ holds c' (aexec op s).1.
Proof.
  intros (es & Hix & ->). assert (Hsame : holds c (x_size c, entry <$> es)) by (by exists es).
  destruct op; cbn [exec aexec fst snd].
  - destruct (simple_Get_ok c es key Hix) as (c' & -> & H). by exists c'.
  - exists c. split; [|done]. unfold Peek. destruct (x_items c !! key) as [x|] eqn:Hk.
    + destruct (indexed_split _ _ _ _ _ Hix Hk) as (e1 & d & e2 & -> & <- & Hd). rewrite Hd.
      by destruct (find_entry d_Value e1 x d e2 (ix_keys _ _ _ Hix)) as [-> _].
    + apply (indexed_None _ _ _ _ Hix) in Hk. by rewrite (find_none _ _ _ Hk).
  - exists c. split; [|done]. unfold Contains. destruct (x_items c !! key) as [x|] eqn:Hk.
    + destruct (indexed_split _ _ _ _ _ Hix Hk) as (e1 & d & e2 & -> & <- & Hd).
      destruct (find_entry d_Value e1 x d e2 (ix_keys _ _ _ Hix)) as [-> _]. by rewrite !bool_decide_eq_true_2.
    + apply (indexed_None _ _ _ _ Hix) in Hk. by rewrite (find_none _ _ _ Hk).
  - destruct (simple_Add_ok c es key value Hix) as (c' & -> & H). by exists c'.
  - destruct (simple_RemoveKey_ok c es key Hix) as (c' & -> & H). by exists c'.
  - unfold RemoveOldest. rewrite (indexed_Back _ _ _ Hix). destruct es as [|[x d] es] using rev_ind; [by exists c|].
    rewrite entry_snoc, !last_snoc, removelast_snoc. cbn [fmap option_fmap option_map fst].
    destruct (simple_removeElement_ok c es x d [] Hix) as (c' & -> & Hok & Hs & Hd). cbn [mbind option_bind]. rewrite Hd.
    exists c'. split; [done|]. rewrite app_nil_r in Hok. exists es. by rewrite Hs.
  - exists c. split; [|done]. unfold GetOldest. rewrite (indexed_Back _ _ _ Hix).
    destruct es as [|[x d] es] using rev_ind; [done|]. rewrite entry_snoc, !last_snoc. cbn [fmap option_fmap option_map fst].
    by rewrite (ix_data _ _ _ Hix x d) by set_solver.
  - exists c. split; [|done]. unfold Keys. rewrite (indexed_walk d_Key _ _ _ Hix), <-fmap_reverse. by rewrite <-!list_fmap_compose, fmap_reverse.
  - exists c. split; [|done]. unfold Values. rewrite (indexed_walk d_Value _ _ _ Hix), <-fmap_reverse. by rewrite <-!list_fmap_compose, fmap_reverse.
  - exists c. split; [|done]. unfold Len. by rewrite length_fmap, (indexed_size _ _ _ Hix).
  - destruct (simple_Resize_ok c es size Hix) as (c' & -> & H). by exists c'.
  - eexists. split; [done|]. exists []. split; [|done]. apply indexed_Init. by eapply indexed_alloc.
Qed.

(** C21: the cache of compiled CEL programs (the vendored [simplelru], with its map
    into a doubly linked ring of entries), created with a positive size, runs every
    sequence of calls without a run-time panic and gives to each call the answer that
    a list of keys and values in order of use gives: a lookup and an insertion move
    the key to the front, an insertion beyond the size drops the last. *)
Theorem simple_refines size c ops :
  NewLRU size = Ok c → ∃ c', execs ops c = Some (c', aexecs ops (size, [])).
Proof.
  unfold NewLRU. destruct (size <=? 0)%Z; [done|]. intros [= <-].
  assert (H : holds (mkLRU size (@NewList V) ∅) (size, [])).
  { exists []. split; [|done]. apply indexed_Init. cbn. lia. }
  revert H. generalize (mkLRU size (@NewList V) ∅) as c, (size, [] : list (string * V)) as s.
  induction ops as [|op ops IH]; intros c s H; [by exists c|]. cbn [execs aexecs].
  destruct (simple_exec_ok op c s H) as (c1 & -> & H1). destruct (aexec op s) as [s1 a]. cbn [mbind option_bind fst snd] in *.
  destruct (IH c1 s1 H1) as (c2 & ->). by exists c2.
Qed.
End lru.
End simplelru.
