(* ===== verification/CelEval.v ===== *)
(** * The CEL evaluator

    [internal/controller/podplacement/cel_evaluator.go]: compilation with an LRU
    cache shared by all reconcile workers, evaluation of one expression against
    a pod, evaluation of a list of rules (first match wins), and the decision of
    the plugin.  The CEL engine ([github.com/google/cel-go]) is the class
    [CelEngine]: what the code sees of it is whether an expression compiles, to
    which type, and what its program returns on a pod.

    The mutex of the cache protects two separate critical sections of [compile],
    between which other goroutines may run: [step] is that interleaving, and
    [compile_concurrent] shows that every caller still gets what a fresh
    compilation gives. *)
From stdpp Require Import base gmap strings list relations.
From S2P Require Import Prelude GoStd Api Lru.
Import plugins.

(** The nested map [podToMap] builds; [self.metadata] is its only content. *)
Record PodMap := mkPodMap {
  pm_name : string;
  pm_generateName : string;
  pm_namespace : string;
  pm_labels : gmap string string;
  pm_annotations : gmap string string;
}.

Inductive CelValue : Type :=
| CBool (b : bool)
| COther (type_name : string).

Class CelEngine := {
  Ast : Type;
  Program : Type;
  (** [cel.NewEnv]: its error, if any *)
  NewEnv : option string;
  (** [env.Compile]: the checked expression or the issues' error *)
  Compile : string → Ast + string;
  OutputTypeIsBool : Ast → bool;
  OutputType : Ast → string;
  (** [env.Program] *)
  mkProgram : Ast → Program + string;
  (** [prog.Eval] with [self] bound to the map *)
  Eval : Program → PodMap → CelValue + string;
}.

(** [podToMap] *)
Definition podToMap (pod : option CorePod) : PodMap :=
  match pod with
  | None => mkPodMap "" "" "" ∅ ∅
  | Some p =>
      let m := p_Meta p in
      mkPodMap (om_Name m) (om_GenerateName m) (om_Namespace m)
        (default ∅ (om_Labels m)) (default ∅ (om_Annotations m))
  end.

Definition celExpressionCacheSize : nat := Z.to_nat 1024.

Record rulesEvalResult := mkRulesResult {
  rr_architectures : GoSlice string;
  rr_ruleName : string;
  rr_matched : bool;
  rr_allErrored : bool;
}.

Record evaluateResult := mkEvalResult {
  er_architectures : GoSlice string;
  er_ruleName : string;
  er_matched : bool;
  er_allRulesErrored : bool;
}.

Section evaluator.
Context {engine : CelEngine}.

Abbreviation Cache := (list (string * Program)).

(** The lock-free middle part of [compile]. *)
Definition compile_fresh (expression : string) : res Program :=
  match Compile expression with
  | inr e => Err (errOther ("CEL compilation error: " +:+ e))
  | inl ast =>
      if negb (OutputTypeIsBool ast)
      then Err (errOther ("CEL expression must return a boolean, got " +:+ OutputType ast))
      else match mkProgram ast with
           | inr e => Err (errOther ("failed to create CEL program: " +:+ e))
           | inl prog => Ok prog
           end
  end.

(** [compile], with no other goroutine between its two critical sections. *)
Definition compile (expression : string) (c : Cache) : Cache * res Program :=
  match lru_Get expression c with
  | (Some prog, c') => (c', Ok prog)
  | (None, c') =>
      match compile_fresh expression with
      | Err e => (c', Err e)
      | Ok prog => (lru_Add celExpressionCacheSize expression prog c', Ok prog)
      end
  end.

(** [evaluateWithMap] after a successful [compile]. *)
Definition evalProgram (prog : Program) (podMap : PodMap) : res bool :=
  match Eval prog podMap with
  | inr e =>
      if contains e "no such key" then Ok false
      else Err (errOther ("CEL evaluation error: " +:+ e))
  | inl (COther t) => Err (errOther ("CEL expression did not return a boolean: got " +:+ t))
  | inl (CBool b) => Ok b
  end.

(** [evaluateWithMap] *)
Definition evaluateWithMap (expression : string) (podMap : PodMap) (c : Cache) : Cache * res bool :=
  match compile expression c with
  | (c', Err e) => (c', Err e)
  | (c', Ok prog) => (c', evalProgram prog podMap)
  end.

(** [evaluate] *)
Definition evaluate (expression : string) (pod : option CorePod) (c : Cache) : Cache * res bool :=
  evaluateWithMap expression (podToMap pod) c.

(** The loop of [evaluateRules]: the first matching rule, or the final value of
    [atLeastOneEvaluated]. *)
Fixpoint evaluateRules_loop (rules : list ArchitectureRule) (podMap : PodMap)
    (atLeastOneEvaluated : bool) (c : Cache) : Cache * (ArchitectureRule + bool) :=
  match rules with
  | [] => (c, inr atLeastOneEvaluated)
  | rule :: rules' =>
      match evaluateWithMap (ar_Expression rule) podMap c with
      | (c', Err _) => evaluateRules_loop rules' podMap atLeastOneEvaluated c'
      | (c', Ok true) => (c', inl rule)
      | (c', Ok false) => evaluateRules_loop rules' podMap true c'
      end
  end.

Definition rulesOutcome (rules : list ArchitectureRule) (o : ArchitectureRule + bool) :
    rulesEvalResult :=
  match o with
  | inl rule => mkRulesResult (ar_Architectures rule) (ar_Name rule) true false
  | inr atLeastOneEvaluated =>
      if negb (bool_decide (rules = [])) && negb atLeastOneEvaluated
      then mkRulesResult None "" false true
      else mkRulesResult None "" false false
  end.

(** [evaluateRules] *)
Definition evaluateRules (rules : list ArchitectureRule) (pod : option CorePod) (c : Cache) :
    Cache * rulesEvalResult :=
  let '(c', o) := evaluateRules_loop rules (podToMap pod) false c in
  (c', rulesOutcome rules o).

(** [newCELEvaluator]; [lru.NewLRU] only fails for a size that is not positive. *)
Definition newCELEvaluator : res Cache :=
  match NewEnv with
  | Some e => Err (errOther ("failed to create CEL environment: " +:+ e))
  | None => Ok []
  end.

(** The package-level evaluator: [None] until [evaluatorOnce] has run. *)
Definition Package : Type := option (res Cache).

(** [getOrCreateEvaluator] *)
Definition getOrCreateEvaluator (g : Package) : Package * res Cache :=
  let r := default newCELEvaluator g in (Some r, r).

(** The three results the caller distinguishes. *)
Definition placementResult (fallback : GoSlice string) (rr : rulesEvalResult) : evaluateResult :=
  if rr_allErrored rr then mkEvalResult fallback "" false true
  else if rr_matched rr then mkEvalResult (rr_architectures rr) (rr_ruleName rr) true false
  else mkEvalResult fallback "" false false.

(** [evaluateCELArchitecturePlacement] after its nil check. *)
Definition evaluatePlacement (rules : GoSlice ArchitectureRule)
    (fallbackArchitectures : GoSlice string) (pod : option CorePod) (g : Package) :
    Package * res evaluateResult :=
  match getOrCreateEvaluator g with
  | (g', Err e) =>
      (g', Err (mkErr (err_kind e) ("failed to get CEL evaluator: " +:+ err_msg e)))
  | (_, Ok c) =>
      let '(c', rr) := evaluateRules (elems rules) pod c in
      (Some (Ok c'), Ok (placementResult fallbackArchitectures rr))
  end.

(** [evaluateCELArchitecturePlacement] *)
Definition evaluateCELArchitecturePlacement (rules : GoSlice ArchitectureRule)
    (fallbackArchitectures : GoSlice string) (pod : option CorePod) (g : Package) :
    Package * res evaluateResult :=
  match rules, fallbackArchitectures with
  | None, None => (g, Err (errOther "both rules and fallbackArchitectures are nil"))
  | _, _ => evaluatePlacement rules fallbackArchitectures pod g
  end.

(** [validateCELExpression] *)
Definition validateCELExpression (expression : string) : option GoError :=
  match newCELEvaluator with
  | Err e => Some e
  | Ok c =>
      match (compile expression c).2 with
      | Err e => Some e
      | Ok _ => None
      end
  end.

(** ** The specification: evaluation without a cache *)

Definition evalPure (expression : string) (podMap : PodMap) : res bool :=
  prog ← compile_fresh expression; evalProgram prog podMap.

Definition rule_true (podMap : PodMap) (r : ArchitectureRule) : Prop :=
  evalPure (ar_Expression r) podMap = Ok true.
Definition rule_errs (podMap : PodMap) (r : ArchitectureRule) : Prop :=
  is_ok (evalPure (ar_Expression r) podMap) = false.

(** What [evaluateRules] should answer: the first rule that holds; failing
    that, whether every rule failed. *)
Inductive rules_spec (podMap : PodMap) (rules : list ArchitectureRule) : rulesEvalResult → Prop :=
| rs_match pre r post :
    rules = pre ++ r :: post →
    Forall (λ x, ¬ rule_true podMap x) pre → rule_true podMap r →
    rules_spec podMap rules (mkRulesResult (ar_Architectures r) (ar_Name r) true false)
| rs_allErrored :
    rules ≠ [] → Forall (rule_errs podMap) rules →
    rules_spec podMap rules (mkRulesResult None "" false true)
| rs_none :
    Forall (λ x, ¬ rule_true podMap x) rules →
    (rules = [] ∨ Exists (λ x, ¬ rule_errs podMap x) rules) →
    rules_spec podMap rules (mkRulesResult None "" false false).

(** Every cached program is the one a fresh compilation gives. *)
Definition cache_ok (c : Cache) : Prop :=
  lru_wf celExpressionCacheSize c ∧ ∀ e p, (e, p) ∈ c → compile_fresh e = Ok p.

Definition pkg_ok (g : Package) : Prop :=
  match g with
  | None => True
  | Some (Err e) => newCELEvaluator = Err e
  | Some (Ok c) => newCELEvaluator = Ok [] ∧ cache_ok c
  end.

Lemma cache_ok_nil : cache_ok [].
Proof.
  split; [split; [constructor|cbn; lia]|]. by intros ?? ?%elem_of_nil.
Qed.

Lemma cache_ok_Get e c : cache_ok c → cache_ok (lru_Get e c).2.
Proof.
  intros [Hwf Hok]. split; [by apply lru_Get_wf|].
  intros ?? Hin. apply Hok. by eapply lru_Get_elem.
Qed.

Lemma cache_ok_Add e p c :
  compile_fresh e = Ok p → cache_ok c → cache_ok (lru_Add celExpressionCacheSize e p c).
Proof.
  intros Hp [Hwf Hok]. split; [by apply lru_Add_wf|].
  intros e' p' Hin. apply lru_Add_elem in Hin as [[= -> ->]|Hin]; [done|by apply Hok].
Qed.

Lemma cache_ok_hit e p c : cache_ok c → (lru_Get e c).1 = Some p → compile_fresh e = Ok p.
Proof. intros [_ Hok] Hg. apply Hok. by apply lru_Get_found. Qed.

Lemma compile_ok e c :
  cache_ok c → cache_ok (compile e c).1 ∧ (compile e c).2 = compile_fresh e.
Proof.
  intros Hok. unfold compile.
  pose proof (cache_ok_Get e c Hok) as Hg. pose proof (λ p, cache_ok_hit e p c Hok) as Hh.
  destruct (lru_Get e c) as [[p|] c']; cbn in *; [by rewrite (Hh p)|].
  destruct (compile_fresh e) eqn:E; cbn; [|done]. split; [|done]. by apply cache_ok_Add.
Qed.

Lemma evaluateWithMap_ok e pm c :
  cache_ok c →
  cache_ok (evaluateWithMap e pm c).1 ∧ (evaluateWithMap e pm c).2 = evalPure e pm.
Proof.
  intros Hok. unfold evaluateWithMap, evalPure.
  destruct (compile_ok e c Hok) as [H1 H2].
  destruct (compile e c) as [c' [p|x]]; cbn in *; rewrite <-H2; by split.
Qed.

(** The loop, cache aside. *)
Fixpoint loopPure (rules : list ArchitectureRule) (pm : PodMap) (one : bool) :
    ArchitectureRule + bool :=
  match rules with
  | [] => inr one
  | rule :: rules' =>
      match evalPure (ar_Expression rule) pm with
      | Err _ => loopPure rules' pm one
      | Ok true => inl rule
      | Ok false => loopPure rules' pm true
      end
  end.

Lemma evaluateRules_loop_ok rules pm one c :
  cache_ok c →
  cache_ok (evaluateRules_loop rules pm one c).1
  ∧ (evaluateRules_loop rules pm one c).2 = loopPure rules pm one.
Proof.
  revert one c. induction rules as [|r rules IH]; intros one c Hok; cbn; [done|].
  destruct (evaluateWithMap_ok (ar_Expression r) pm c Hok) as [H1 H2].
  destruct (evaluateWithMap _ pm c) as [c' o]; cbn in *. rewrite <-H2.
  destruct o as [[|]|]; [done|by apply IH|by apply IH].
Qed.

(** The loop's answer, with the flag it started from. *)
Lemma loopPure_spec rules pm one :
  match loopPure rules pm one with
  | inl r => ∃ pre post, rules = pre ++ r :: post
               ∧ Forall (λ x, ¬ rule_true pm x) pre ∧ rule_true pm r
  | inr b => Forall (λ x, ¬ rule_true pm x) rules
             ∧ (b = false ↔ one = false ∧ Forall (rule_errs pm) rules)
  end.
Proof.
  revert one. induction rules as [|x rules IH]; intros one; cbn; [naive_solver|].
  assert (Hstep : ∀ o, ¬ rule_true pm x →
    match loopPure rules pm o with
    | inl r => ∃ pre post, x :: rules = pre ++ r :: post
                 ∧ Forall (λ y, ¬ rule_true pm y) pre ∧ rule_true pm r
    | inr b => Forall (λ y, ¬ rule_true pm y) (x :: rules)
               ∧ (b = false ↔ o = false ∧ Forall (rule_errs pm) rules)
    end).
  { intros o Hx. specialize (IH o). destruct (loopPure rules pm o) as [r|b].
    - destruct IH as (pre & post & -> & Hpre & Hr). exists (x :: pre), post. by repeat constructor.
    - destruct IH as [H1 H2]. by split; [constructor|]. }
  destruct (evalPure (ar_Expression x) pm) as [[|]|e] eqn:E.
  - exists [], rules. by repeat split.
  - specialize (Hstep true). unfold rule_true in Hstep at 1. rewrite E in Hstep.
    destruct (loopPure rules pm true) as [r|b]; [by apply Hstep|].
    destruct Hstep as [H1 H2]; [done|]. split; [done|]. rewrite H2, Forall_cons.
    unfold rule_errs at 2. rewrite E. cbn. naive_solver.
  - specialize (Hstep one). unfold rule_true in Hstep at 1. rewrite E in Hstep.
    destruct (loopPure rules pm one) as [r|b]; [by apply Hstep|].
    destruct Hstep as [H1 H2]; [done|]. split; [done|]. rewrite H2, Forall_cons.
    unfold rule_errs at 2. rewrite E. cbn. naive_solver.
Qed.

Lemma rule_errs_dec pm rules :
  ¬ Forall (rule_errs pm) rules → Exists (λ x, ¬ rule_errs pm x) rules.
Proof.
  induction rules as [|x rules IH]; intros Hn; [by destruct Hn|].
  destruct (is_ok (evalPure (ar_Expression x) pm)) eqn:E.
  - left. unfold rule_errs. by rewrite E.
  - right. apply IH. intros H'. by apply Hn; constructor.
Qed.

Lemma rulesOutcome_spec rules pm :
  rules_spec pm rules (rulesOutcome rules (loopPure rules pm false)).
Proof.
  pose proof (loopPure_spec rules pm false) as H.
  destruct (loopPure rules pm false) as [r|b]; cbn.
  - destruct H as (pre & post & Heq & Hpre & Hr). by eapply rs_match.
  - destruct H as [H1 H2]. case_bool_decide as Hnil; cbn.
    + apply rs_none; [done|by left].
    + destruct b; cbn.
      * apply rs_none; [done|]. right. apply rule_errs_dec. naive_solver.
      * apply rs_allErrored; [done|]. by apply H2.
Qed.

(** C7: the first rule whose expression holds decides; "all rules errored" is
    reported exactly when there are rules and every one fails to compile or to
    evaluate; the shared cache never changes the answer. *)
Theorem evaluateRules_spec rules pod c :
  cache_ok c →
  rules_spec (podToMap pod) rules (evaluateRules rules pod c).2
  ∧ cache_ok (evaluateRules rules pod c).1.
Proof.
  intros Hok. unfold evaluateRules.
  destruct (evaluateRules_loop_ok rules (podToMap pod) false c Hok) as [H1 H2].
  destruct (evaluateRules_loop _ _ _ c) as [c' o]; cbn in *. subst o.
  split; [apply rulesOutcome_spec|done].
Qed.

(** The decision as a function of the rules, the fallback and the pod alone. *)
Definition placementPure (rules : GoSlice ArchitectureRule) (fallback : GoSlice string)
    (pod : option CorePod) : res evaluateResult :=
  match newCELEvaluator with
  | Err e => Err (mkErr (err_kind e) ("failed to get CEL evaluator: " +:+ err_msg e))
  | Ok _ => Ok (placementResult fallback (rulesOutcome (elems rules)
                  (loopPure (elems rules) (podToMap pod) false)))
  end.

Definition celPure (rules : GoSlice ArchitectureRule) (fallback : GoSlice string)
    (pod : option CorePod) : res evaluateResult :=
  match rules, fallback with
  | None, None => Err (errOther "both rules and fallbackArchitectures are nil")
  | _, _ => placementPure rules fallback pod
  end.

Lemma getOrCreateEvaluator_ok g :
  pkg_ok g →
  pkg_ok (getOrCreateEvaluator g).1
  ∧ match (getOrCreateEvaluator g).2 with
    | Ok c => newCELEvaluator = Ok [] ∧ cache_ok c
    | Err e => newCELEvaluator = Err e
    end.
Proof.
  unfold getOrCreateEvaluator. destruct g as [[c|e]|]; cbn; [done..|]. intros _.
  unfold newCELEvaluator. destruct NewEnv; cbn; [done|]. by split; split; auto using cache_ok_nil.
Qed.

Lemma evaluatePlacement_pure rules fb pod g :
  pkg_ok g →
  (evaluatePlacement rules fb pod g).2 = placementPure rules fb pod
  ∧ pkg_ok (evaluatePlacement rules fb pod g).1.
Proof.
  intros Hok. unfold evaluatePlacement, placementPure.
  destruct (getOrCreateEvaluator_ok g Hok) as [H1 H2].
  destruct (getOrCreateEvaluator g) as [g' [c|e]]; cbn in *; [|by rewrite H2].
  destruct H2 as [Hn Hc]. rewrite Hn. unfold evaluateRules.
  destruct (evaluateRules_loop_ok (elems rules) (podToMap pod) false c Hc) as [H3 H4].
  destruct (evaluateRules_loop _ _ _ c) as [c' o]; cbn in *. by subst o.
Qed.

Lemma evaluateCEL_pure rules fb pod g :
  pkg_ok g →
  (evaluateCELArchitecturePlacement rules fb pod g).2 = celPure rules fb pod
  ∧ pkg_ok (evaluateCELArchitecturePlacement rules fb pod g).1.
Proof.
  intros Hok. unfold evaluateCELArchitecturePlacement, celPure.
  destruct rules, fb; [by apply evaluatePlacement_pure..|done].
Qed.

(** ** Interleavings

    A goroutine in [compile] is before its lookup, between a miss and the store,
    or done. *)
Inductive Thread : Type :=
| TCall (e : string)
| TMiss (e : string)
| TDone (e : string) (r : res Program).

Inductive step : Cache * list Thread → Cache * list Thread → Prop :=
| st_call e c ts : step (c, ts) (c, ts ++ [TCall e])
| st_hit i e p c c' ts :
    ts !! i = Some (TCall e) → lru_Get e c = (Some p, c') →
    step (c, ts) (c', <[i := TDone e (Ok p)]> ts)
| st_miss i e c c' ts :
    ts !! i = Some (TCall e) → lru_Get e c = (None, c') →
    step (c, ts) (c', <[i := TMiss e]> ts)
| st_store i e p c ts :
    ts !! i = Some (TMiss e) → compile_fresh e = Ok p →
    step (c, ts) (lru_Add celExpressionCacheSize e p c, <[i := TDone e (Ok p)]> ts)
| st_fail i e x c ts :
    ts !! i = Some (TMiss e) → compile_fresh e = Err x →
    step (c, ts) (c, <[i := TDone e (Err x)]> ts).

Definition thread_ok (t : Thread) : Prop :=
  match t with TDone e r => r = compile_fresh e | _ => True end.

Lemma step_inv s s' :
  step s s' → cache_ok s.1 ∧ Forall thread_ok s.2 → cache_ok s'.1 ∧ Forall thread_ok s'.2.
Proof.
  destruct 1 as [e c ts|i e p c c' ts Hi Hg|i e c c' ts Hi Hg|i e p c ts Hi Hp|i e x c ts Hi Hp];
    cbn; intros [Hc Hts].
  - split; [done|]. apply Forall_app. by repeat constructor.
  - pose proof (cache_ok_Get e c Hc) as Hg'. rewrite Hg in Hg'. split; [done|].
    apply Forall_insert; [done|]. cbn. symmetry. apply (cache_ok_hit e p c Hc). by rewrite Hg.
  - pose proof (cache_ok_Get e c Hc) as Hg'. rewrite Hg in Hg'. split; [done|].
    by apply Forall_insert.
  - split; [by apply cache_ok_Add|]. by apply Forall_insert.
  - split; [done|]. by apply Forall_insert.
Qed.

(** Whatever the interleaving of the goroutines that share the evaluator,
    every finished call of [compile] returned what compiling the expression
    afresh returns, and the cache never exceeds its size. *)
Theorem compile_concurrent c ts :
  rtc step ([], []) (c, ts) →
  (∀ e r, TDone e r ∈ ts → r = compile_fresh e)
  ∧ length c ≤ celExpressionCacheSize ∧ NoDup c.*1.
Proof.
  intros Hr. assert (cache_ok c ∧ Forall thread_ok ts) as [[[Hnd Hlen] _] Hts].
  { change c with (c, ts).1. change ts with (c, ts).2 at 2.
    refine (rtc_ind_r (λ s, cache_ok s.1 ∧ Forall thread_ok s.2) _ _ _ _ Hr).
    - split; [apply cache_ok_nil|constructor].
    - intros y z _ Hst IH. by eapply step_inv. }
  split; [|done]. intros e r Hin. rewrite Forall_forall in Hts. by apply (Hts _ Hin).
Qed.

(** The sequential [compile] is one of those executions. *)
Lemma compile_is_execution e c ts :
  rtc step (c, ts) ((compile e c).1, ts ++ [TDone e (compile e c).2]).
Proof.
  eapply rtc_l; [apply (st_call e)|]. unfold compile.
  assert (Hi : (ts ++ [TCall e]) !! length ts = Some (TCall e))
    by (by rewrite list_lookup_middle).
  assert (Hins : ∀ t t', <[length ts := t]> (ts ++ [t']) = ts ++ [t]).
  { intros. rewrite <-(Nat.add_0_r (length ts)). by rewrite insert_app_r. }
  destruct (lru_Get e c) as [[p|] c'] eqn:Hg.
  - eapply rtc_l; [by eapply st_hit|]. rewrite Hins. apply rtc_refl.
  - eapply rtc_l; [by eapply st_miss|]. rewrite Hins.
    assert (Hm : (ts ++ [TMiss e]) !! length ts = Some (TMiss e)) by (by rewrite list_lookup_middle).
    destruct (compile_fresh e) eqn:E; cbn.
    + eapply rtc_l; [by eapply st_store|]. rewrite Hins. apply rtc_refl.
    + eapply rtc_l; [by eapply st_fail|]. rewrite Hins. apply rtc_refl.
Qed.

End evaluator.

(** ** The interface of the pod placement code *)
Class CelService (W : Type) :=
  cel_place : GoSlice ArchitectureRule → GoSlice string → CorePod → W → W * res evaluateResult.

(** What the callers rely on: the decision is a function of the configuration
    and the pod, whatever was evaluated before. *)
Class CelServiceOk (W : Type) `{!CelService W} := {
  cel_inv : W → Prop;
  cel_fun : GoSlice ArchitectureRule → GoSlice string → CorePod → res evaluateResult;
  cel_agree rules fb p w : cel_inv w → (cel_place rules fb p w).2 = cel_fun rules fb p;
  cel_inv_step rules fb p w : cel_inv w → cel_inv (cel_place rules fb p w).1;
}.

#[export] Instance package_service `{!CelEngine} : CelService Package :=
  λ rules fb p g, evaluateCELArchitecturePlacement rules fb (Some p) g.

#[export] Instance package_service_ok `{!CelEngine} : CelServiceOk Package := {|
  cel_inv := pkg_ok;
  cel_fun := λ rules fb p, celPure rules fb (Some p);
  cel_agree := λ rules fb p w H, proj1 (evaluateCEL_pure rules fb (Some p) w H);
  cel_inv_step := λ rules fb p w H, proj2 (evaluateCEL_pure rules fb (Some p) w H);
|}.
