(* ===== verification/Events.v ===== *)
(** * Event reasons and messages

    The constants of [internal/controller/podplacement/events.go]. *)
From Stdlib Require Import Ascii.
From stdpp Require Import base strings.
From S2P Require Import Prelude Api.

Module events.

Definition ArchitecturePredicatesConflict := "ArchAwarePredicatesConflict".
Definition ImageArchitectureInspectionError := "ArchAwareInspectionError".
Definition ArchitectureAwareNodeAffinitySet := "ArchAwarePredicateSet".
Definition ArchitectureAwareGatedPodIgnored := "ArchAwareGatedPodIgnored".
Definition ArchitectureAwareSchedulingGateAdded := "ArchAwareSchedGateAdded".
Definition ArchitectureAwareSchedulingGateRemovalFailure := "ArchAwareSchedGateRemovalFailed".
Definition ArchitectureAwareSchedulingGateRemovalSuccess := "ArchAwareSchedGateRemovalSuccess".
Definition NoSupportedArchitecturesFound := "NoSupportedArchitecturesFound".
Definition ArchitecturePreferredAffinityDuplicates := "ArchAwarePreferredAffinityDuplicates".
Definition ArchitectureAwareFallbackNodeAffinitySet := "ArchAwareFallbackPredicateSet".

Definition SchedulingGateAddedMsg :=
  "Successfully gated with the " +:+ utils.SchedulingGateName +:+ " scheduling gate".
Definition SchedulingGateRemovalSuccessMsg :=
  "Successfully removed the " +:+ utils.SchedulingGateName +:+ " scheduling gate".
Definition quote := String "034"%char "".
Definition SchedulingGateRemovalFailureMsg :=
  "Failed to remove the scheduling gate " +:+ quote +:+ utils.SchedulingGateName +:+ quote.
Definition ArchitecturePredicatesConflictMsg :=
  "All the scheduling predicates already include architecture-specific constraints".
Definition ArchitecturePredicateSetupMsg := "Set the supported architectures to ".

Definition ArchitecturePreferredPredicateSetupMsg :=
  "Applied all architecture preferences from configuration".
Definition ArchitecturePreferredAffinityWithDuplicatesMsg :=
  "Applied some architecture preferences from configuration; others were already set".
Definition ArchitecturePreferredAffinityAllDuplicatesMsg :=
  "Skipped all architecture preferences from configuration; all were already set".
Definition ArchitecturePreferredPredicateSkippedMsg :=
  "Skipped configuration; no architecture preferences were provided".

Definition ImageArchitectureInspectionErrorMsg :=
  "The operator encountered an error while inspecting the container image to determine its supported architectures. "
  +:+ "This is typically caused by the image registry being unreachable, returning an error, or a misconfiguration. "
  +:+ "Registry error: ".
Definition NoSupportedArchitecturesFoundMsg :=
  "Pod cannot be scheduled due to incompatible image architectures; container images have no supported architectures in common".
Definition ArchitectureAwareGatedPodIgnoredMsg :=
  "The gated pod has been modified and is no longer eligible for architecture-aware scheduling".
Definition ImageInspectionErrorMaxRetriesMsg :=
  "The operator was unable to determine the supported architectures after multiple retries. "
  +:+ "This is typically caused by the image registry being unreachable, returning an error, or a misconfiguration in the cluster's pull secrets or network. "
  +:+ "Registry error".
Definition ArchitectureFallbackSetupMsg :=
  "Image inspection failed; setting the nodeAffinity to the fallback architecture: ".

End events.
