(* ===== verification/PodModel.v ===== *)
(** * The pod operations of the pod placement operands

    [internal/controller/podplacement/pod_model.go]: required and preferred node
    affinity, the intersection of the architectures of the pod's images, retry
    counting, labels, and the decision to ignore a pod.

    The image inspection cache ([image.ICache]) is the class [ImageService]: a
    call may change the world it lives in and may fail.  The order in which Go
    ranges over the set of images is the class [RangeOrder]. *)
From Stdlib Require Import Ascii.
From stdpp Require Import base gmap strings list sorting.
From S2P Require Import Prelude GoStd Api LabelSelectors NodeMatch Models ArchConstraints.
From S2P Require Import Events.
Import plugins v1beta1 models events.

(** [image.ICache.GetCompatibleArchitecturesSet]: image reference, whether the
    cache is skipped, the pull secrets. *)
Class ImageService (W : Type) :=
  img_archs : string → bool → list string → W → W * res (gset string).

(** One enumeration of a Go map used as a set. *)
Class RangeOrder := range_images : gset (string * bool) → list (string * bool).
Class RangeOrderOk `{!RangeOrder} := range_images_perm s : range_images s ≡ₚ elements s.

Definition MaxRetryCount : Z := 5.

(** ** Scheduling gate *)
Definition HasSchedulingGate (p : Pod) : bool := HasGate utils.SchedulingGateName p.

Definition RemoveSchedulingGate (p : Pod) : Pod :=
  EnsureLabel utils.SchedulingGateLabel utils.SchedulingGateLabelValueRemoved
    (RemoveGate utils.SchedulingGateName p).

Definition ensureSchedulingGate (p : Pod) : Pod := AddGate utils.SchedulingGateName p.

Definition getPodImagePullSecrets (p : Pod) : list string :=
  match ps_ImagePullSecrets (p_Spec (pod_obj p)) with
  | None => []
  | Some l => l
  end.

(** ** Required affinity *)

(** The loop body of [setRequiredArchNodeAffinity]: a nil list of expressions
    becomes an empty one, and the requirement is appended unless the term has an
    expression on its key. *)
Definition has_key (k : string) (t : NodeSelectorTerm) : bool :=
  existsb (λ e, bool_decide (nsr_Key e = k)) (elems (nst_MatchExpressions t)).

Definition patchTerm (r : NodeSelectorRequirement) (t : NodeSelectorTerm) : NodeSelectorTerm :=
  let es := elems (nst_MatchExpressions t) in
  mkNST (Some (if has_key (nsr_Key r) t then es else es ++ [r])) (nst_MatchFields t).

Definition patchSelector (r : NodeSelectorRequirement) (ns : NodeSelector) : NodeSelector :=
  let terms := elems (ns_NodeSelectorTerms ns) in
  let terms' := if bool_decide (terms = []) then [mkNST None None] else terms in
  mkNS (Some (patchTerm r <$> terms')).

(** [setRequiredArchNodeAffinity]: the pointers it follows may be nil. *)
Definition setRequiredArchNodeAffinity_go (r : NodeSelectorRequirement) (p : Pod) : outcome Pod :=
  a ← deref (pod_Affinity p);
  na ← deref (aff_NodeAffinity a);
  ns ← deref (na_Required na);
  Ret (EnsureLabel utils.NodeAffinityLabel utils.NodeAffinityLabelValueSet
         (upd (upd_spec (put_Required (patchSelector r ns))) p)).

(** Its callers create the missing structures first; [setRequired_after_ensure]
    shows that the dereferences then succeed. *)
Definition ensureRequiredAffinity (p : Pod) : Pod := upd (upd_spec ensureRequired) p.

Definition setRequiredArchNodeAffinity (r : NodeSelectorRequirement) (p : Pod) : Pod :=
  match setRequiredArchNodeAffinity_go r p with Ret q => q | Panic => p end.

Definition spec_of (p : Pod) : PodSpec := p_Spec (pod_obj p).

(** ** Ignoring a pod *)

(** [publishIgnorePod] *)
Definition publishIgnorePod (p : Pod) : Pod :=
  PublishEvent EventTypeNormal ArchitecturePredicatesConflict ArchitecturePredicatesConflictMsg
    (EnsureLabel utils.NodeAffinityLabel utils.LabelValueNotSet p).

(** [isNodeSelectorConfiguredForArchitecture], and the pod it may have labelled. *)
Definition isNodeSelectorConfiguredForArchitecture (p : Pod) : bool * Pod :=
  if bool_decide (is_Some (mlookup (pod_NodeSelector p) utils.ArchLabel))
  then (true, publishIgnorePod p)
  else
    match required_of (spec_of p) with
    | None => (false, p)
    | Some ns => (forallb (has_key utils.ArchLabel) (elems (ns_NodeSelectorTerms ns)), p)
    end.

(** [isPreferredAffinityConfiguredForArchitecture] *)
Definition isPreferredAffinityConfiguredForArchitecture (p : Pod) : bool :=
  existsb (λ t, has_key utils.ArchLabel (pst_Preference t)) (elems (preferred_of (spec_of p))).

(** [hasMatchingPPCWithPlugin] *)
Definition hasMatchingPPCWithPlugin (matchingPPCs : list PodPlacementConfig) : bool :=
  existsb HasEnabledPluginsRequiringSchedulingGate matchingPPCs.

(** [shouldIgnorePod] *)
Definition shouldIgnorePod (operatorNamespace : string)
    (cppc : option ClusterPodPlacementConfig) (matchingPPCs : list PodPlacementConfig)
    (p : Pod) : bool * Pod :=
  if bool_decide (operatorNamespace = pod_Namespace p) then (true, p)
  else if hasPrefix (pod_Namespace p) "kube-" then (true, p)
  else if negb (bool_decide (ps_NodeName (spec_of p) = "")) then (true, p)
  else if HasControlPlaneNodeSelector p then (true, p)
  else if IsFromDaemonSet p then (true, p)
  else
    let '(configured, q) := isNodeSelectorConfiguredForArchitecture p in
    if negb configured then (false, q)
    else if isPreferredAffinityConfiguredForArchitecture q then (true, q)
    else
      let cppcPluginEnabled :=
        match cppc with
        | Some c => CPPC_PluginsEnabled c NodeAffinityScoringPluginName
        | None => false
        end in
      (negb cppcPluginEnabled && negb (hasMatchingPPCWithPlugin matchingPPCs), q).

(** [filterMatchingPPCs]: a configuration with no selector (nil) matches every
    pod, one whose selector does not parse matches none. *)
Definition matchesPod (keyOk : string → bool) (valueOk : string → string → bool) (p : Pod)
    (c : PodPlacementConfig) : bool :=
  match labels.LabelSelectorAsSelector keyOk valueOk (ps_LabelSelector (ppc_Spec c)) with
  | Err _ => false
  | Ok sel => bool_decide (sel = labels.Nothing) || labels.Matches sel (pod_Labels p)
  end.

Definition filterMatchingPPCs (keyOk : string → bool) (valueOk : string → string → bool)
    (items : list PodPlacementConfig) (p : Pod) : list PodPlacementConfig :=
  List.filter (matchesPod keyOk valueOk p) items.

(** ** Images and their architectures *)

(** [imagesNamesSet] *)
Definition imagesNamesSet (p : Pod) : gset (string * bool) :=
  list_to_set ((λ c, ("//" +:+ c_Image c, bool_decide (c_ImagePullPolicy c = PullAlways)))
    <$> (ps_Containers (spec_of p) ++ ps_InitContainers (spec_of p))).

(** [sets.List]: the members in ascending order; empty, not nil, for a nil set. *)
Definition sets_List (s : gset string) : list string := merge_sort String.le (elements s).

Section inspection.
Context {W : Type} {imageService : ImageService W} {rangeOrder : RangeOrder}.

(** The loop of [intersectImagesArchitecture]; the accumulator is nil until the
    first image has been inspected. *)
Fixpoint intersect_loop (images : list (string * bool)) (secrets : list string)
    (acc : option (gset string)) (w : W) : W * res (option (gset string)) :=
  match images with
  | [] => (w, Ok acc)
  | (name, skipCache) :: images' =>
      match img_archs name skipCache secrets w with
      | (w', Err e) => (w', Err e)
      | (w', Ok cur) =>
          intersect_loop images' secrets
            (Some (match acc with None => cur | Some s => s ∩ cur end)) w'
      end
  end.

(** [intersectImagesArchitecture] *)
Definition intersectImagesArchitecture (secrets : list string) (p : Pod) (w : W) :
    W * res (list string) :=
  match intersect_loop (range_images (imagesNamesSet p)) secrets None w with
  | (w', Err e) => (w', Err e)
  | (w', Ok acc) => (w', Ok (sets_List (default ∅ acc)))
  end.

(** [getArchitecturePredicate] *)
Definition predicateOf (architectures : list string) : NodeSelectorRequirement :=
  if bool_decide (architectures = [])
  then mkNSR utils.NoSupportedArchLabel NodeSelectorOpExists None
  else mkNSR utils.ArchLabel NodeSelectorOpIn (Some architectures).

Definition getArchitecturePredicate (secrets : list string) (p : Pod) (w : W) :
    W * res NodeSelectorRequirement :=
  match intersectImagesArchitecture secrets p w with
  | (w', Err e) => (w', Err e)
  | (w', Ok archs) => (w', Ok (predicateOf archs))
  end.

(** [ensureArchitectureLabels] *)
Definition ensureArchitectureLabels (r : NodeSelectorRequirement) (p : Pod) : Pod :=
  match nsr_Values r with
  | None => p
  | Some vs =>
      let p1 := match vs with
                | [] => EnsureLabel utils.NoSupportedArchLabel "" p
                | [_] => EnsureLabel utils.SingleArchLabel "" p
                | _ => EnsureLabel utils.MultiArchLabel "" p
                end in
      foldl (λ q v, if bool_decide (v ∈ utils.AllSupportedArchitecturesSet)
                    then EnsureLabel (utils.ArchLabelValue v) "" q else q) p1 vs
  end.

(** [SetNodeAffinityArchRequirement] once the predicate is known. *)
Definition applyPredicate (r : NodeSelectorRequirement) (p : Pod) : Pod :=
  let p1 := EnsureNoLabel utils.ImageInspectionErrorLabel p in
  let p2 := if bool_decide (elems (nsr_Values r) = [])
            then PublishEvent EventTypeNormal NoSupportedArchitecturesFound
                   NoSupportedArchitecturesFoundMsg p1
            else p1 in
  let p3 := ensureArchitectureLabels r p2 in
  let p4 := setRequiredArchNodeAffinity r (ensureRequiredAffinity p3) in
  PublishEvent EventTypeNormal ArchitectureAwareNodeAffinitySet
    (ArchitecturePredicateSetupMsg +:+ "{" +:+ join ", " (elems (nsr_Values r)) +:+ "}") p4.

(** [SetNodeAffinityArchRequirement]: the boolean of the result is not used by
    the callers but kept. *)
Definition SetNodeAffinityArchRequirement (secrets : list string) (p : Pod) (w : W) :
    W * Pod * res bool :=
  let '(configured, q) := isNodeSelectorConfiguredForArchitecture p in
  if configured then (w, publishIgnorePod q, Ok false)
  else
    match getArchitecturePredicate secrets q w with
    | (w', Err e) => (w', q, Err e)
    | (w', Ok r) => (w', applyPredicate r q, Ok true)
    end.

End inspection.

(** ** Preferred affinity *)

(** [trackAffinitySource] *)
Definition sourceEntry (arch : string) (weight : Z) (source : string) (applied : bool) : string :=
  arch +:+ ":" +:+ sprintd weight +:+ ":" +:+ source +:+ (if applied then "" else ":skipped").

Definition trackAffinitySource (arch : string) (weight : Z) (source : string) (applied : bool)
    (p : Pod) : Pod :=
  let existing := mget (pod_Annotations p) utils.PreferredNodeAffinitySourcesAnnotation in
  let newEntry := sourceEntry arch weight source applied in
  if negb (bool_decide (existing = ""))
     && existsb (λ e, bool_decide (e = newEntry)) (split_on ","%char existing)
  then p
  else if bool_decide (existing = "")
  then EnsureAnnotation utils.PreferredNodeAffinitySourcesAnnotation newEntry p
  else EnsureAnnotation utils.PreferredNodeAffinitySourcesAnnotation
         (existing +:+ "," +:+ newEntry) p.

(** [getExistingPreferredArchitectures] *)
Definition preferredArchs (ts : list PreferredSchedulingTerm) : list string :=
  t ← ts;
  e ← elems (nst_MatchExpressions (pst_Preference t));
  if bool_decide (nsr_Key e = utils.ArchLabel) then elems (nsr_Values e) else [].

Definition getExistingPreferredArchitectures (p : Pod) : gset string :=
  list_to_set (preferredArchs (elems (preferred_of (spec_of p)))).

(** The term added for one platform of the configuration. *)
Definition platformTerm (t : NodeAffinityScoringPlatformTerm) : PreferredSchedulingTerm :=
  mkPST (pt_Weight t)
    (mkNST (Some [mkNSR utils.ArchLabel NodeSelectorOpIn (Some [pt_Architecture t])]) None).

(** The loop of [SetPreferredArchNodeAffinity]: the terms to add, the skipped
    architectures, and the pod with its audit annotation. *)
Fixpoint preferred_loop (platforms : list NodeAffinityScoringPlatformTerm) (source : string)
    (seen : gset string) (p : Pod) : list PreferredSchedulingTerm * list string * Pod :=
  match platforms with
  | [] => ([], [], p)
  | t :: ts =>
      let a := pt_Architecture t in
      if bool_decide (a ∈ seen)
      then
        let '(terms, skipped, q) :=
          preferred_loop ts source seen (trackAffinitySource a (pt_Weight t) source false p) in
        (terms, a :: skipped, q)
      else
        let '(terms, skipped, q) :=
          preferred_loop ts source ({[a]} ∪ seen)
            (trackAffinitySource a (pt_Weight t) source true p) in
        (platformTerm t :: terms, skipped, q)
  end.

(** The three nil checks of [SetPreferredArchNodeAffinity]. *)
Definition ensurePreferred (s : PodSpec) : PodSpec :=
  put_Preferred (Some (elems (preferred_of s))) s.

(** [SetPreferredArchNodeAffinity] *)
Definition SetPreferredArchNodeAffinity (scoring : NodeAffinityScoring) (source : string)
    (p : Pod) : Pod :=
  let p0 := upd (upd_spec ensurePreferred) p in
  let '(terms, skipped, q) :=
    preferred_loop (elems (nas_Platforms scoring)) source
      (getExistingPreferredArchitectures p0) p0 in
  let q1 :=
    if bool_decide (terms = []) then q
    else EnsureLabel utils.PreferredNodeAffinityLabel utils.NodeAffinityLabelValueSet
           (upd (upd_spec (λ s, put_Preferred (sappend (preferred_of s) terms) s)) q) in
  match terms, skipped with
  | _ :: _, [] =>
      PublishEvent EventTypeNormal ArchitectureAwareNodeAffinitySet
        (ArchitecturePreferredPredicateSetupMsg +:+ " source: " +:+ source) q1
  | _ :: _, _ :: _ =>
      PublishEvent EventTypeNormal ArchitectureAwareNodeAffinitySet
        (ArchitecturePreferredAffinityWithDuplicatesMsg +:+ " source: " +:+ source
         +:+ ", skipped: " +:+ join ", " skipped) q1
  | [], _ :: _ =>
      PublishEvent EventTypeNormal ArchitecturePreferredAffinityDuplicates
        (ArchitecturePreferredAffinityAllDuplicatesMsg +:+ " source: " +:+ source
         +:+ ", architectures: " +:+ join ", " skipped) q1
  | [], [] => q1
  end.

(** [setRequiredNodeAffinityToFallbackArchitecture] *)
Definition setRequiredNodeAffinityToFallbackArchitecture (architecture : string) (p : Pod) : Pod :=
  let r := mkNSR utils.ArchLabel NodeSelectorOpIn (Some [architecture]) in
  PublishEvent EventTypeWarning ArchitectureAwareFallbackNodeAffinitySet
    (ArchitectureFallbackSetupMsg +:+ "{" +:+ architecture +:+ "}")
    (EnsureLabel utils.FallbackArchitectureLabel architecture
       (setRequiredArchNodeAffinity r (ensureRequiredAffinity p))).

(** ** Retries *)

(** [maxRetries] *)
Definition maxRetries (p : Pod) : bool :=
  match pod_Labels p with
  | None => false
  | Some _ =>
      match parseInt32 (mget (pod_Labels p) utils.ImageInspectionErrorCountLabel) with
      | None => true
      | Some v => (MaxRetryCount <=? v)%Z
      end
  end.

(** [string([]rune(s)[:n])] when the text has more than [n] runes, for a text
    that is valid UTF-8: a rune starts at every byte that is not of the form
    10xxxxxx. *)
Definition rune_start (c : ascii) : bool :=
  negb (bool_decide (N.land (N_of_ascii c) 192 = 128%N)).

Fixpoint truncateRunes (n : nat) (s : string) : string :=
  match s with
  | EmptyString => EmptyString
  | String c s' =>
      if rune_start c
      then match n with 0 => EmptyString | S m => String c (truncateRunes m s') end
      else String c (truncateRunes n s')
  end.

(** [handleError] *)
Definition handleError (err : option GoError) (p : Pod) : Pod :=
  match err with
  | None => p
  | Some e =>
      let errMsg := truncateRunes (Z.to_nat 256) (err_msg e) in
      PublishEvent EventTypeWarning ImageArchitectureInspectionError
        (ImageArchitectureInspectionErrorMsg +:+ errMsg)
        (EnsureAndIncrementLabel utils.ImageInspectionErrorCountLabel
          (EnsureAnnotation utils.ImageInspectionErrorLabel errMsg
            (EnsureLabel utils.ImageInspectionErrorLabel "" p)))
  end.

(** ** Frame lemmas: what each operation leaves alone *)

Lemma spec_of_EnsureLabel k v p : spec_of (EnsureLabel k v p) = spec_of p.
Proof. done. Qed.
Lemma spec_of_EnsureNoLabel k p : spec_of (EnsureNoLabel k p) = spec_of p.
Proof. done. Qed.
Lemma spec_of_EnsureAnnotation k v p : spec_of (EnsureAnnotation k v p) = spec_of p.
Proof. done. Qed.
Lemma spec_of_PublishEvent t r m p : spec_of (PublishEvent t r m p) = spec_of p.
Proof. done. Qed.
Lemma spec_of_EnsureAndIncrementLabel k p : spec_of (EnsureAndIncrementLabel k p) = spec_of p.
Proof. done. Qed.
Lemma spec_of_upd_spec f p : spec_of (upd (upd_spec f) p) = f (spec_of p).
Proof. done. Qed.

Lemma labels_PublishEvent t r m p : pod_Labels (PublishEvent t r m p) = pod_Labels p.
Proof. done. Qed.
Lemma labels_EnsureAnnotation k v p : pod_Labels (EnsureAnnotation k v p) = pod_Labels p.
Proof. done. Qed.
Lemma labels_upd_spec f p : pod_Labels (upd (upd_spec f) p) = pod_Labels p.
Proof. done. Qed.

Lemma spec_of_publishIgnorePod p : spec_of (publishIgnorePod p) = spec_of p.
Proof. done. Qed.

Lemma spec_of_handleError e p : spec_of (handleError e p) = spec_of p.
Proof. by destruct e. Qed.

Lemma spec_of_trackAffinitySource a w s b p : spec_of (trackAffinitySource a w s b p) = spec_of p.
Proof. unfold trackAffinitySource. destruct (_ && _); [done|]. by case_bool_decide. Qed.

Lemma labels_trackAffinitySource a w s b p :
  pod_Labels (trackAffinitySource a w s b p) = pod_Labels p.
Proof. unfold trackAffinitySource. destruct (_ && _); [done|]. by case_bool_decide. Qed.

Lemma spec_of_isNodeSelectorConfigured p :
  spec_of (isNodeSelectorConfiguredForArchitecture p).2 = spec_of p.
Proof.
  unfold isNodeSelectorConfiguredForArchitecture. case_bool_decide; [done|].
  by destruct (required_of _).
Qed.

Lemma spec_of_ensureArchitectureLabels r p : spec_of (ensureArchitectureLabels r p) = spec_of p.
Proof.
  unfold ensureArchitectureLabels. destruct (nsr_Values r) as [vs|]; [|done].
  set (p1 := match vs with [] => _ | _ => _ end).
  assert (spec_of p1 = spec_of p) as <- by (by destruct vs as [|? [|? ?]]).
  generalize p1. induction vs as [|v vs IH]; intros q; cbn; [done|].
  rewrite IH. by case_bool_decide.
Qed.

#[export] Hint Rewrite spec_of_EnsureLabel spec_of_EnsureNoLabel spec_of_EnsureAnnotation
  spec_of_PublishEvent spec_of_EnsureAndIncrementLabel spec_of_upd_spec labels_PublishEvent
  labels_EnsureAnnotation labels_upd_spec spec_of_publishIgnorePod spec_of_handleError
  spec_of_trackAffinitySource labels_trackAffinitySource spec_of_isNodeSelectorConfigured
  spec_of_ensureArchitectureLabels : go.

(** ** Required affinity *)

(** The dereferences of [setRequiredArchNodeAffinity] succeed at its call sites. *)
Lemma setRequired_after_ensure r p :
  setRequiredArchNodeAffinity_go r (ensureRequiredAffinity p) =
  Ret (EnsureLabel utils.NodeAffinityLabel utils.NodeAffinityLabelValueSet
    (upd (upd_spec (put_Required (patchSelector r (default (mkNS None) (required_of (spec_of p)))))) p)).
Proof. by destruct p as [[m [nn sel [[[[[ns|] pref]|] pa paa]|] g c ic ips] st] rec]. Qed.

Lemma setRequired_eq r p :
  setRequiredArchNodeAffinity r (ensureRequiredAffinity p) =
  EnsureLabel utils.NodeAffinityLabel utils.NodeAffinityLabelValueSet
    (upd (upd_spec (put_Required (patchSelector r (default (mkNS None) (required_of (spec_of p)))))) p).
Proof. unfold setRequiredArchNodeAffinity. by rewrite setRequired_after_ensure. Qed.

Lemma spec_of_applyPredicate r p :
  spec_of (applyPredicate r p) =
  put_Required (patchSelector r (default (mkNS None) (required_of (spec_of p)))) (spec_of p).
Proof.
  unfold applyPredicate. rewrite spec_of_PublishEvent, setRequired_eq. autorewrite with go.
  by case_bool_decide.
Qed.

Lemma spec_of_fallback a p :
  spec_of (setRequiredNodeAffinityToFallbackArchitecture a p) =
  put_Required (patchSelector (mkNSR utils.ArchLabel NodeSelectorOpIn (Some [a]))
    (default (mkNS None) (required_of (spec_of p)))) (spec_of p).
Proof.
  unfold setRequiredNodeAffinityToFallbackArchitecture. by rewrite setRequired_eq.
Qed.

Lemma required_terms_default s :
  elems (ns_NodeSelectorTerms (default (mkNS None) (required_of s))) = required_terms s.
Proof. unfold required_terms. by destruct (required_of s). Qed.

(** The terms that [patchSelector] patches. *)
Definition patched_terms (s : PodSpec) : list NodeSelectorTerm :=
  if bool_decide (required_terms s = []) then [mkNST None None] else required_terms s.

Lemma required_terms_patch r s :
  required_terms (put_Required (patchSelector r (default (mkNS None) (required_of s))) s) =
  patchTerm r <$> patched_terms s.
Proof.
  rewrite required_terms_put. unfold patchSelector, patched_terms.
  by rewrite required_terms_default.
Qed.

Section semantics.
Context {nodeEval : NodeEval}.

Lemma termMatch_patchTerm n r t :
  termMatch n (patchTerm r t) =
  if has_key (nsr_Key r) t then termMatch n t
  else (term_empty t || termMatch n t) && exprMatch n r.
Proof.
  unfold termMatch, term_empty, patchTerm. cbn [nst_MatchExpressions nst_MatchFields elems].
  destruct (has_key (nsr_Key r) t) eqn:Hk; [done|].
  rewrite (bool_decide_eq_false_2 (_ ++ _ = [])) by (by destruct (elems _)).
  rewrite forallb_app. cbn.
  destruct (elems (nst_MatchExpressions t)) eqn:E1; destruct (elems (nst_MatchFields t)) eqn:E2; cbn;
    destruct (exprMatch n r); rewrite ?andb_true_r, ?andb_false_r; done.
Qed.

(** A patched term asks what it asked before, and the requirement on top of it
    unless the user already constrained the same key. *)
Definition term_admits (r : NodeSelectorRequirement) (n : Node) (t : NodeSelectorTerm) : bool :=
  if has_key (nsr_Key r) t then termMatch n t
  else (term_empty t || termMatch n t) && exprMatch n r.

Lemma admits_patch n r s :
  admits n (put_Required (patchSelector r (default (mkNS None) (required_of s))) s) =
  nodeSelectorMatch n (ps_NodeSelector s) && existsb (term_admits r n) (patched_terms s).
Proof.
  unfold admits. rewrite required_of_put_Required. cbn [ps_NodeSelector put_Required]. f_equal.
  unfold selectorMatch, patchSelector, patched_terms. cbn [ns_NodeSelectorTerms elems].
  rewrite required_terms_default, existsb_fmap. apply existsb_ext, Forall_forall.
  intros t _. apply termMatch_patchTerm.
Qed.

(** With no term on the key the patch is a conjunction, in which a term that was empty
    counts as one that matches. *)
Definition has_empty_term (s : PodSpec) : bool := existsb term_empty (required_terms s).

Lemma admits_patch_fresh n r s :
  Forall (λ t, has_key (nsr_Key r) t = false) (required_terms s) →
  (required_of s = None ∨ required_terms s ≠ []) →
  admits n (put_Required (patchSelector r (default (mkNS None) (required_of s))) s) =
  (admits n s || (has_empty_term s && nodeSelectorMatch n (ps_NodeSelector s))) && exprMatch n r.
Proof.
  intros Hf Hne. rewrite admits_patch. unfold admits, patched_terms, has_empty_term.
  destruct (nodeSelectorMatch n (ps_NodeSelector s)); cbn [andb]; [|by rewrite andb_false_r].
  rewrite andb_true_r. case_bool_decide as Hnil.
  - destruct Hne as [->|?]; [|done]. cbn. unfold term_admits. cbn. by rewrite orb_false_r.
  - unfold required_terms in *. destruct (required_of s) as [ns|]; [|done].
    unfold selectorMatch. rewrite <-existsb_or, <-existsb_all_and. apply existsb_ext.
    eapply Forall_impl; [exact Hf|]. intros t Hk. unfold term_admits. rewrite Hk.
    by rewrite (orb_comm (term_empty t)).
Qed.

End semantics.

(** ** The intersection of the images' architectures *)

Lemma elem_of_sets_List a s : a ∈ sets_List s ↔ a ∈ s.
Proof. unfold sets_List. by rewrite merge_sort_Permutation, elem_of_elements. Qed.

Lemma sets_List_nil s : sets_List s = [] ↔ s = ∅.
Proof.
  split.
  - intros H. apply set_eq. intros a. rewrite <-elem_of_sets_List, H.
    split; [by intros ?%elem_of_nil|set_solver].
  - intros ->. done.
Qed.

Lemma sets_List_sorted s : Sorted String.le (sets_List s) ∧ NoDup (sets_List s).
Proof.
  split; [apply Sorted_merge_sort; apply _|].
  unfold sets_List. rewrite merge_sort_Permutation. apply NoDup_elements.
Qed.

Section inspection_lemmas.
Context {W : Type} {imageService : ImageService W} {rangeOrder : RangeOrder}
  {rangeOrderOk : RangeOrderOk}.

(** The registry answers the same for an image throughout the loop. *)
Definition image_answer (secrets : list string) (A : string → bool → res (gset string)) : Prop :=
  ∀ name skip w, (img_archs name skip secrets w).2 = A name skip.

(** What one inspected image contributes to the accumulator. *)
Definition meet (acc : option (gset string)) (cur : gset string) : gset string :=
  match acc with None => cur | Some s => s ∩ cur end.

Lemma intersect_loop_ok secrets A images acc w :
  image_answer secrets A →
  match (intersect_loop images secrets acc w).2 with
  | Ok out => ∃ sets, (λ i, A i.1 i.2) <$> images = Ok <$> sets
                      ∧ out = foldl (λ o s, Some (meet o s)) acc sets
  | Err e => ∃ i, i ∈ images ∧ A i.1 i.2 = Err e
  end.
Proof.
  intros HA. revert acc w. induction images as [|[name skip] images IH]; intros acc w; cbn.
  { by exists []. }
  specialize (HA name skip w) as Hi.
  destruct (img_archs name skip secrets w) as [w' [cur|e]]; cbn in Hi |- *.
  - specialize (IH (Some (meet acc cur)) w'). unfold meet at 1 in IH.
    destruct (intersect_loop images secrets _ w') as [w'' [out|e]]; cbn in *.
    + destruct IH as (sets & Hs & ->). exists (cur :: sets). cbn. rewrite <-Hi, Hs. done.
    + destruct IH as (i & Hin & He). exists i. split; [by right|done].
  - exists (name, skip). split; [by left|done].
Qed.

Lemma elem_of_meet_all a sets acc s :
  foldl (λ o s, Some (meet o s)) acc sets = Some s →
  (a ∈ s ↔ (∀ x, acc = Some x → a ∈ x) ∧ Forall (λ x, a ∈ x) sets).
Proof.
  revert acc. induction sets as [|x sets IH]; intros acc; cbn.
  { intros ->. rewrite Forall_nil. naive_solver. }
  intros H. rewrite (IH _ H), Forall_cons. unfold meet.
  destruct acc as [y|].
  - split; [intros [H1 H2]|intros (H1 & H2 & H3)].
    + specialize (H1 _ eq_refl). set_solver.
    + split; [|done]. intros ? [= <-]. specialize (H1 _ eq_refl). set_solver.
  - naive_solver.
Qed.

Lemma fmap_Ok_Forall (P : gset string → Prop) A (images : list (string * bool)) sets :
  (λ i, A i.1 i.2) <$> images = Ok <$> sets →
  Forall P sets ↔ ∀ i s, i ∈ images → A i.1 i.2 = Ok s → P s.
Proof.
  revert sets. induction images as [|i images IH]; intros [|x sets]; cbn; try done.
  { intros _. split; [|by constructor]. intros _ i s H. by apply elem_of_nil in H. }
  intros [= Hi Hs]. rewrite Forall_cons, (IH _ Hs). split.
  - intros [H1 H2] j s [->|Hj]%elem_of_cons Hjs; [|by eapply H2].
    rewrite Hi in Hjs. by injection Hjs as ->.
  - intros H. split; [apply (H i); [by left|done]|]. intros j s Hj. apply H. by right.
Qed.

Lemma images_nonempty p : ps_Containers (spec_of p) ≠ [] → range_images (imagesNamesSet p) ≠ [].
Proof.
  intros Hc Hn. pose proof (range_images_perm (imagesNamesSet p)) as Hp. rewrite Hn in Hp.
  symmetry in Hp. apply Permutation_nil_r in Hp. apply elements_empty_iff in Hp.
  destruct (ps_Containers (spec_of p)) as [|c cs] eqn:E; [done|].
  assert (imagesNamesSet p ≢ ∅); [|done]. unfold imagesNamesSet. rewrite E. set_solver.
Qed.

Lemma elem_of_range_images i p : i ∈ range_images (imagesNamesSet p) ↔ i ∈ imagesNamesSet p.
Proof. by rewrite (range_images_perm _), elem_of_elements. Qed.

(** The architectures are the sorted, duplicate-free list of those every image
    supports, in whatever order the set of images is visited. *)
Lemma intersectImagesArchitecture_ok secrets A p w :
  image_answer secrets A →
  ps_Containers (spec_of p) ≠ [] →
  match (intersectImagesArchitecture secrets p w).2 with
  | Ok archs =>
      (∀ i, i ∈ imagesNamesSet p → is_ok (A i.1 i.2) = true)
      ∧ Sorted String.le archs ∧ NoDup archs
      ∧ (∀ a, a ∈ archs ↔ ∀ i s, i ∈ imagesNamesSet p → A i.1 i.2 = Ok s → a ∈ s)
  | Err e => ∃ i, i ∈ imagesNamesSet p ∧ A i.1 i.2 = Err e
  end.
Proof.
  intros HA Hc. unfold intersectImagesArchitecture.
  pose proof (intersect_loop_ok secrets A (range_images (imagesNamesSet p)) None w HA) as Hl.
  destruct (intersect_loop _ secrets None w) as [w' [out|e]]; cbn in *.
  - destruct Hl as (sets & Hs & Hout).
    assert (∃ s, out = Some s) as [s ->].
    { pose proof (images_nonempty p Hc). destruct sets as [|x sets].
      { by destruct (range_images _). }
      subst out. cbn. clear. revert x. induction sets as [|y sets IH]; intros x; cbn; [by eexists|].
      apply IH. }
    destruct (sets_List_sorted s) as [H1 H2]. repeat split; try done; cbn.
    + intros i Hi. apply elem_of_range_images in Hi.
      assert (A i.1 i.2 ∈ (λ i, A i.1 i.2) <$> range_images (imagesNamesSet p)) as Hin
        by (apply list_elem_of_fmap; by exists i).
      rewrite Hs in Hin. apply list_elem_of_fmap in Hin as (x & -> & _). done.
    + rewrite elem_of_sets_List, (elem_of_meet_all a sets None s) by done.
      rewrite (fmap_Ok_Forall _ A _ _ Hs). intros [_ H] i x Hi. apply H.
      by apply elem_of_range_images.
    + rewrite elem_of_sets_List, (elem_of_meet_all a sets None s) by done.
      rewrite (fmap_Ok_Forall _ A _ _ Hs). intros H. split; [done|]. intros i x Hi. apply H.
      by apply elem_of_range_images.
  - destruct Hl as (i & Hi & He). exists i. by rewrite <-elem_of_range_images.
Qed.

End inspection_lemmas.

(** The user set no constraint on the architecture; a node selector has terms, as
    Kubernetes demands. *)
Definition user_unconstrained (s : PodSpec) : Prop :=
  mlookup (ps_NodeSelector s) utils.ArchLabel = None
  ∧ Forall (λ t, has_key utils.ArchLabel t = false ∧ has_key utils.NoSupportedArchLabel t = false)
      (required_terms s)
  ∧ (required_of s = None ∨ required_terms s ≠ []).

(** Every image of the pod runs on the architecture. *)
Definition all_support (A : string → bool → res (gset string)) (p : Pod) (a : string) : Prop :=
  ∀ i s, i ∈ imagesNamesSet p → A i.1 i.2 = Ok s → a ∈ s.

Lemma unconstrained_not_configured p :
  user_unconstrained (spec_of p) → isNodeSelectorConfiguredForArchitecture p = (false, p).
Proof.
  intros (Hs & Hf & Hne). unfold isNodeSelectorConfiguredForArchitecture.
  change (pod_NodeSelector p) with (ps_NodeSelector (spec_of p)).
  rewrite bool_decide_eq_false_2 by (rewrite Hs; by intros []).
  unfold required_terms in *. destruct (required_of (spec_of p)) as [ns|]; [|done].
  destruct (elems (ns_NodeSelectorTerms ns)) as [|t ts]; [naive_solver|].
  apply Forall_cons in Hf as [(Hk & _) _]. cbn [forallb]. by rewrite Hk.
Qed.

Section admission.
Context {W : Type} {imageService : ImageService W} {rangeOrder : RangeOrder}
  {rangeOrderOk : RangeOrderOk} {nodeEval : NodeEval}.

Lemma exprMatch_predicateOf n archs :
  exprMatch n (predicateOf archs) = true ↔
  (∃ a, nd_Labels n !! utils.ArchLabel = Some a ∧ a ∈ archs)
  ∨ (archs = [] ∧ is_Some (nd_Labels n !! utils.NoSupportedArchLabel)).
Proof.
  unfold predicateOf. case_bool_decide as Hnil; subst; unfold exprMatch; cbn.
  - rewrite bool_decide_eq_true. split; [by right|].
    intros [(a & _ & Ha)|[_ ?]]; [by apply elem_of_nil in Ha|done].
  - destruct (nd_Labels n !! utils.ArchLabel) as [a|]; [rewrite bool_decide_eq_true|]; naive_solver.
Qed.

Lemma predicateOf_fresh s archs :
  user_unconstrained s →
  Forall (λ t, has_key (nsr_Key (predicateOf archs)) t = false) (required_terms s).
Proof.
  intros (_ & Hf & _). eapply Forall_impl; [exact Hf|]. intros t (? & ?).
  unfold predicateOf. by case_bool_decide.
Qed.

(** C1: what the images of a pod make of its node affinity, for a pod whose author named
    neither the architecture nor the reserved no-supported-arch label and whose required
    node affinity, if there is one, has terms.  If all images can be inspected, the pod
    is afterwards admitted exactly on the nodes that admitted it before and whose
    architecture every image of the pod supports; when no architecture is common to the
    images, only on nodes with the no-supported-arch label.  The one exception is a term
    the author left empty: it matched no node, and afterwards counts as one that
    matches.  If some image cannot be inspected, an error is returned and the spec is as
    it was. *)
Theorem SetNodeAffinityArchRequirement_admits secrets A p w :
  image_answer secrets A →
  ps_Containers (spec_of p) ≠ [] →
  user_unconstrained (spec_of p) →
  let '(_, q, r) := SetNodeAffinityArchRequirement secrets p w in
  match r with
  | Ok b =>
      b = true ∧ (∀ i, i ∈ imagesNamesSet p → is_ok (A i.1 i.2) = true) ∧
      ∀ n, admits n (spec_of q) = true ↔
        (admits n (spec_of p) = true
         ∨ has_empty_term (spec_of p) = true ∧ nodeSelectorMatch n (ps_NodeSelector (spec_of p)) = true) ∧
        ((∃ a, nd_Labels n !! utils.ArchLabel = Some a ∧ all_support A p a)
         ∨ ((∀ a, ¬ all_support A p a) ∧ is_Some (nd_Labels n !! utils.NoSupportedArchLabel)))
  | Err _ => spec_of q = spec_of p ∧ ∃ i, i ∈ imagesNamesSet p ∧ is_ok (A i.1 i.2) = false
  end.
Proof.
  intros HA Hc Hu. unfold SetNodeAffinityArchRequirement, getArchitecturePredicate.
  rewrite unconstrained_not_configured by done.
  pose proof (intersectImagesArchitecture_ok secrets A p w HA Hc) as Hi.
  destruct (intersectImagesArchitecture secrets p w) as [w' [archs|e]]; cbn in Hi; cbv beta iota.
  - destruct Hi as (Hok & _ & _ & Hin). split; [done|]. split; [done|]. intros n.
    rewrite spec_of_applyPredicate, admits_patch_fresh
      by (first [by apply predicateOf_fresh | apply Hu]).
    rewrite andb_true_iff, orb_true_iff, andb_true_iff, exprMatch_predicateOf. unfold all_support.
    setoid_rewrite Hin. apply and_iff_compat_l, or_iff_compat_l, and_iff_compat_r.
    split; [intros -> a Ha; by apply Hin, elem_of_nil in Ha|].
    intros Hno. destruct archs as [|a archs]; [done|]. exfalso. apply (Hno a), Hin. by left.
  - destruct Hi as (i & Hi & He). split; [done|]. exists i. by rewrite He.
Qed.

(** Inspection fails exactly when the inspection of some image of the pod
    fails, and then neither the affinity nor anything else of the spec changes. *)
Theorem SetNodeAffinityArchRequirement_error secrets A p w :
  image_answer secrets A →
  ps_Containers (spec_of p) ≠ [] →
  (isNodeSelectorConfiguredForArchitecture p).1 = false →
  let '(_, q, r) := SetNodeAffinityArchRequirement secrets p w in
  (is_ok r = false ↔ ∃ i, i ∈ imagesNamesSet p ∧ is_ok (A i.1 i.2) = false)
  ∧ (is_ok r = false → spec_of q = spec_of p).
Proof.
  intros HA Hc Hn. unfold SetNodeAffinityArchRequirement, getArchitecturePredicate.
  pose proof (spec_of_isNodeSelectorConfigured p) as Hsp.
  destruct (isNodeSelectorConfiguredForArchitecture p) as [b q]; cbn in Hn, Hsp; subst b.
  assert (imagesNamesSet q = imagesNamesSet p) as Him by (unfold imagesNamesSet; by rewrite Hsp).
  rewrite <-Hsp in Hc.
  pose proof (intersectImagesArchitecture_ok secrets A q w HA Hc) as Hi. rewrite Him in Hi.
  destruct (intersectImagesArchitecture secrets q w) as [w' [archs|e]]; cbn in Hi; cbv beta iota.
  - destruct Hi as (Hok & _). split; [|done]. split; [done|].
    intros (i & Hin & He). by rewrite Hok in He.
  - split; [|done]. split; [|done]. intros _. destruct Hi as (i & Hin & He). exists i.
    by rewrite He.
Qed.

End admission.
