(* ===== verification/PodTheorems.v ===== *)
(** * Properties of the pod operations

    What the API server allows on a gated pod (KEP-3838) and that the affinity
    operations stay within it; idempotence of the required affinity; the
    preferred terms of a configuration; the audit annotation; the retry counter;
    the pods that are ignored. *)
From Stdlib Require Import Ascii.
From stdpp Require Import base gmap strings list sorting.
From S2P Require Import Prelude GoStd Api LabelSelectors NodeMatch Models ArchConstraints.
From S2P Require Import Events PodModel.
Import plugins v1beta1 models events.

(** ** KEP-3838

    What the API server lets an update change in the spec of a gated pod
    ([ValidatePodUpdate] of Kubernetes): the node selector may get further labels; a
    non-empty list of required node selector terms keeps its terms, each of which may
    get further expressions and fields behind those it has, unless it is empty; the
    preferred terms are free; gates may only be removed.  Everything else stays, pod
    affinity and anti-affinity among it. *)
Definition term_extends (t t' : NodeSelectorTerm) : Prop :=
  (term_empty t = true → term_empty t' = true)
  ∧ elems (nst_MatchExpressions t) `prefix_of` elems (nst_MatchExpressions t')
  ∧ elems (nst_MatchFields t) `prefix_of` elems (nst_MatchFields t').

Definition pod_affinity_of (s : PodSpec) : option string * option string :=
  (aff_PodAffinity (aff_of s), aff_PodAntiAffinity (aff_of s)).

Definition directives_ok (s s' : PodSpec) : Prop :=
  default ∅ (ps_NodeSelector s) ⊆ default ∅ (ps_NodeSelector s')
  ∧ (required_terms s = [] ∨ Forall2 term_extends (required_terms s) (required_terms s'))
  ∧ pod_affinity_of s' = pod_affinity_of s
  ∧ Forall (.∈ elems (ps_SchedulingGates s)) (elems (ps_SchedulingGates s'))
  ∧ ps_NodeName s' = ps_NodeName s
  ∧ ps_Containers s' = ps_Containers s ∧ ps_InitContainers s' = ps_InitContainers s
  ∧ ps_ImagePullSecrets s' = ps_ImagePullSecrets s.

#[export] Instance Container_eq_dec : EqDecision Container.
Proof. solve_decision. Defined.
#[export] Instance term_extends_dec t t' : Decision (term_extends t t').
Proof. unfold term_extends. apply _. Defined.
#[export] Instance directives_ok_dec s s' : Decision (directives_ok s s').
Proof. unfold directives_ok. apply _. Defined.

#[export] Instance term_extends_preorder : PreOrder term_extends.
Proof.
  split; [by intros t|]. intros t1 t2 t3 (H1 & H2 & H3) (G1 & G2 & G3).
  split; [auto|]. split; by etrans.
Qed.

#[export] Instance directives_ok_preorder : PreOrder directives_ok.
Proof.
  split.
  - intros s. unfold directives_ok. repeat split; try done; [right; reflexivity|by apply Forall_forall].
  - intros s1 s2 s3 (H1 & H2 & H3 & H4 & H5 & H6 & H7 & H8) (G1 & G2 & G3 & G4 & G5 & G6 & G7 & G8).
    split; [by etrans|]. split; [|split; [congruence|]; split; [rewrite Forall_forall in *; auto|]; repeat split; congruence].
    destruct H2 as [?|H2]; [by left|]. destruct G2 as [G2|G2]; [|right; by etrans].
    rewrite G2 in H2. left. by apply Forall2_nil_inv_r in H2.
Qed.

(** The user left no term empty. *)
Definition no_empty_terms (s : PodSpec) : Prop := Forall (λ t, term_empty t = false) (required_terms s).

#[export] Instance no_empty_terms_dec s : Decision (no_empty_terms s).
Proof. unfold no_empty_terms. apply _. Defined.

Lemma term_empty_iff t :
  term_empty t = true ↔ elems (nst_MatchExpressions t) = [] ∧ elems (nst_MatchFields t) = [].
Proof. unfold term_empty. rewrite andb_true_iff, !bool_decide_eq_true. done. Qed.

Lemma term_empty_patchTerm r t : term_empty (patchTerm r t) = false.
Proof.
  apply not_true_iff_false. rewrite term_empty_iff. cbn. intros [H _].
  destruct (has_key (nsr_Key r) t) eqn:Hk; [|by destruct (elems _)].
  unfold has_key in Hk. by rewrite H in Hk.
Qed.

(** A patched term extends the one it was, exactly if that was not empty. *)
Lemma patchTerm_extends r t : term_extends t (patchTerm r t) ↔ term_empty t = false.
Proof.
  split.
  - intros [H _]. apply not_true_iff_false. intros He%H. by rewrite term_empty_patchTerm in He.
  - intros He. split; [by rewrite He|]. split; [|done]. cbn.
    destruct (has_key _ t); [done|by apply prefix_app_r].
Qed.

Lemma no_empty_terms_patch r s :
  no_empty_terms (put_Required (patchSelector r (default (mkNS None) (required_of s))) s).
Proof.
  unfold no_empty_terms. rewrite required_terms_patch. apply Forall_fmap, Forall_forall.
  intros t _. apply term_empty_patchTerm.
Qed.

(** Appending the requirement to the terms is lawful exactly if none of them is empty. *)
Lemma directives_ok_patch r s :
  directives_ok s (put_Required (patchSelector r (default (mkNS None) (required_of s))) s)
  ↔ no_empty_terms s.
Proof.
  assert (Hterms : required_terms s = [] ∨ Forall2 term_extends (required_terms s)
      (required_terms (put_Required (patchSelector r (default (mkNS None) (required_of s))) s)) ↔ no_empty_terms s).
  { rewrite required_terms_patch. unfold patched_terms, no_empty_terms.
    case_bool_decide as Hnil; [rewrite Hnil; by split; [|left]|]. rewrite Forall2_fmap_r. split.
    - intros [?|Hf]; [done|]. apply Forall_forall. intros t Ht. apply list_elem_of_lookup in Ht as [i Hi].
      apply (patchTerm_extends r). by eapply (Forall2_lookup_lr _ _ _ i t t Hf).
    - intros Hf. right. apply Forall2_same_length_lookup. split; [done|]. intros i t t' Ht Ht'. simplify_eq.
      apply (patchTerm_extends r). rewrite Forall_forall in Hf. by eapply Hf, list_elem_of_lookup_2. }
  split; [intros (_ & Hf & _); by apply Hterms|]. intros Hn%Hterms.
  unfold directives_ok. do 2 (split; [done|]). repeat split. by apply Forall_forall.
Qed.

Lemma directives_ok_put_Preferred l s : directives_ok s (put_Preferred l s).
Proof.
  unfold directives_ok. repeat split; try done; [right|by apply Forall_forall]. unfold required_terms.
  rewrite required_of_put_Preferred. reflexivity.
Qed.

Lemma directives_ok_gates g s :
  Forall (.∈ elems (ps_SchedulingGates s)) (elems g) → directives_ok s (set_SchedulingGates g s).
Proof. intros Hg. unfold directives_ok. repeat split; try done. right. reflexivity. Qed.

#[export] Hint Resolve directives_ok_put_Preferred directives_ok_gates : go.

(** Setting the node affinity from the images, or to the fallback
    architecture, is a change of a gated pod that the API server accepts, if the user
    left no term empty: terms are neither added to nor removed from a non-empty list,
    and every term keeps the expressions it had. *)
Theorem required_affinity_directives_ok {W : Type} `{!ImageService W} `{!RangeOrder}
    (secrets : list string) (fallback : string) (p : Pod) (w : W) :
  no_empty_terms (spec_of p) →
  directives_ok (spec_of p) (spec_of (SetNodeAffinityArchRequirement secrets p w).1.2)
  ∧ directives_ok (spec_of p) (spec_of (setRequiredNodeAffinityToFallbackArchitecture fallback p)).
Proof.
  intros Hn. split.
  - unfold SetNodeAffinityArchRequirement.
    pose proof (spec_of_isNodeSelectorConfigured p) as Hs.
    destruct (isNodeSelectorConfiguredForArchitecture p) as [[] q]; cbn [snd] in Hs; rewrite <-Hs in *.
    + reflexivity.
    + destruct (getArchitecturePredicate secrets q w) as [w' [r|e]]; cbn [fst snd]; [|reflexivity].
      rewrite spec_of_applyPredicate. by apply directives_ok_patch.
  - rewrite spec_of_fallback. by apply directives_ok_patch.
Qed.

(** ** Patching twice *)

Lemma has_key_patchTerm r t : has_key (nsr_Key r) (patchTerm r t) = true.
Proof.
  unfold has_key at 1, patchTerm. cbn [nst_MatchExpressions elems].
  destruct (has_key (nsr_Key r) t) eqn:E; [exact E|].
  rewrite existsb_app. cbn. rewrite bool_decide_eq_true_2 by done. by rewrite orb_true_r.
Qed.

Lemma patchTerm_idemp r r' t :
  nsr_Key r' = nsr_Key r → patchTerm r' (patchTerm r t) = patchTerm r t.
Proof.
  intros Hk. unfold patchTerm at 1. rewrite Hk, has_key_patchTerm. done.
Qed.

Lemma patchSelector_idemp r r' ns :
  nsr_Key r' = nsr_Key r → patchSelector r' (patchSelector r ns) = patchSelector r ns.
Proof.
  intros Hk. unfold patchSelector. cbn [ns_NodeSelectorTerms elems].
  generalize dependent (elems (ns_NodeSelectorTerms ns)). intros ts.
  assert (H : ∀ l : list NodeSelectorTerm, patchTerm r' <$> (patchTerm r <$> l) = patchTerm r <$> l).
  { intros l. rewrite <-list_fmap_compose. apply list_fmap_ext. intros i t _. cbn.
    by apply patchTerm_idemp. }
  destruct ts as [|t ts]; by rewrite (bool_decide_eq_false_2 (_ <$> _ = [])), H.
Qed.

(** A term list patched for the architecture counts as configured. *)
Lemma configured_after_patch r p :
  nsr_Key r = utils.ArchLabel →
  (isNodeSelectorConfiguredForArchitecture
     (upd (upd_spec (put_Required (patchSelector r (default (mkNS None) (required_of (spec_of p)))))) p)).1
  = true.
Proof.
  intros Hk. unfold isNodeSelectorConfiguredForArchitecture. case_bool_decide; [done|].
  rewrite spec_of_upd_spec, required_of_put_Required. cbn [fst patchSelector ns_NodeSelectorTerms elems].
  apply forallb_forall. intros t Ht. apply list_elem_of_In, list_elem_of_fmap in Ht as (t0 & -> & _).
  rewrite <-Hk. apply has_key_patchTerm.
Qed.

Lemma configured_spec_only p q :
  spec_of p = spec_of q →
  (isNodeSelectorConfiguredForArchitecture p).1 = (isNodeSelectorConfiguredForArchitecture q).1.
Proof.
  intros H. unfold isNodeSelectorConfiguredForArchitecture.
  change (pod_NodeSelector p) with (ps_NodeSelector (spec_of p)).
  change (pod_NodeSelector q) with (ps_NodeSelector (spec_of q)). rewrite H.
  case_bool_decide; [done|]. by destruct (required_of _).
Qed.

Section repeated.
Context {W : Type} {imageService : ImageService W} {rangeOrder : RangeOrder}.

Lemma intersect_loop_world secrets A images acc w w' :
  image_answer secrets A →
  (intersect_loop images secrets acc w).2 = (intersect_loop images secrets acc w').2.
Proof.
  intros HA. revert acc w w'. induction images as [|[name skip] images IH]; intros acc w w'; cbn; [done|].
  pose proof (HA name skip w) as H1. pose proof (HA name skip w') as H2.
  destruct (img_archs name skip secrets w) as [u o], (img_archs name skip secrets w') as [u' o'].
  cbn in *. subst. destruct (A name skip); cbn; [apply IH|done].
Qed.

Lemma predicate_world secrets A p q w w' :
  image_answer secrets A → imagesNamesSet p = imagesNamesSet q →
  (getArchitecturePredicate secrets p w).2 = (getArchitecturePredicate secrets q w').2.
Proof.
  intros HA Him. unfold getArchitecturePredicate, intersectImagesArchitecture. rewrite Him.
  pose proof (intersect_loop_world secrets A (range_images (imagesNamesSet q)) None w w' HA) as H.
  destruct (intersect_loop _ secrets None w) as [u o], (intersect_loop _ secrets None w') as [u' o'].
  cbn in H. subst. by destruct o'.
Qed.

(** The whole effect on the spec, in one equation. *)
Lemma spec_of_SetNodeAffinity secrets p w :
  spec_of (SetNodeAffinityArchRequirement secrets p w).1.2 =
  if (isNodeSelectorConfiguredForArchitecture p).1 then spec_of p
  else match (getArchitecturePredicate secrets p w).2 with
       | Err _ => spec_of p
       | Ok r => put_Required (patchSelector r (default (mkNS None) (required_of (spec_of p)))) (spec_of p)
       end.
Proof.
  unfold SetNodeAffinityArchRequirement.
  pose proof (spec_of_isNodeSelectorConfigured p) as Hs.
  destruct (isNodeSelectorConfiguredForArchitecture p) as [b q] eqn:E; cbn [fst snd] in *.
  destruct b; [exact Hs|].
  assert (q = p) as ->.
  { unfold isNodeSelectorConfiguredForArchitecture in E. destruct (bool_decide _); [done|].
    destruct (required_of _); by injection E. }
  destruct (getArchitecturePredicate secrets p w) as [w' [r|e]]; cbn [fst snd]; [|done].
  apply spec_of_applyPredicate.
Qed.

(** Processing a pod again with the same images changes nothing of its
    spec: constraints never accumulate over retries. *)
Theorem SetNodeAffinityArchRequirement_idempotent secrets A p w w' :
  image_answer secrets A →
  let q := (SetNodeAffinityArchRequirement secrets p w).1.2 in
  spec_of (SetNodeAffinityArchRequirement secrets q w').1.2 = spec_of q.
Proof.
  intros HA q.
  assert (Him : imagesNamesSet q = imagesNamesSet p).
  { unfold imagesNamesSet, q. rewrite spec_of_SetNodeAffinity.
    destruct (isNodeSelectorConfiguredForArchitecture p).1; [done|].
    by destruct (getArchitecturePredicate secrets p w).2. }
  rewrite (spec_of_SetNodeAffinity secrets q w').
  destruct (isNodeSelectorConfiguredForArchitecture q).1 eqn:Hq; [done|].
  rewrite (predicate_world secrets A q p w' w HA Him).
  pose proof (spec_of_SetNodeAffinity secrets p w) as Hs. fold q in Hs.
  destruct (isNodeSelectorConfiguredForArchitecture p).1 eqn:Hp.
  { by rewrite (configured_spec_only q p Hs), Hp in Hq. }
  destruct (getArchitecturePredicate secrets p w).2 as [r|e]; [|done].
  rewrite Hs, required_of_put_Required, put_Required_put. cbn [from_option].
  f_equal. by apply patchSelector_idemp.
Qed.

End repeated.

(** ** Preferred terms *)

(** The platforms whose architecture was not seen before, first occurrence
    only. *)
Fixpoint fresh (seen : gset string) (ps : list NodeAffinityScoringPlatformTerm) :
    list NodeAffinityScoringPlatformTerm :=
  match ps with
  | [] => []
  | t :: ts =>
      if bool_decide (pt_Architecture t ∈ seen) then fresh seen ts
      else t :: fresh ({[pt_Architecture t]} ∪ seen) ts
  end.

Lemma preferred_loop_terms ps source seen p :
  (preferred_loop ps source seen p).1.1 = platformTerm <$> fresh seen ps
  ∧ spec_of (preferred_loop ps source seen p).2 = spec_of p.
Proof.
  revert seen p. induction ps as [|t ps IH]; intros seen p; cbn; [done|].
  case_bool_decide as Hs.
  - specialize (IH seen (trackAffinitySource (pt_Architecture t) (pt_Weight t) source false p)).
    destruct (preferred_loop ps source seen _) as [[ts sk] q]; cbn in *.
    destruct IH as [-> ->]. by rewrite spec_of_trackAffinitySource.
  - specialize (IH ({[pt_Architecture t]} ∪ seen)
      (trackAffinitySource (pt_Architecture t) (pt_Weight t) source true p)).
    destruct (preferred_loop ps source _ _) as [[ts sk] q]; cbn in *.
    destruct IH as [-> ->]. by rewrite spec_of_trackAffinitySource.
Qed.

Lemma fresh_spec seen ps :
  NoDup (pt_Architecture <$> fresh seen ps)
  ∧ (∀ a, a ∈ pt_Architecture <$> fresh seen ps → a ∉ seen)
  ∧ (∀ a, a ∈ pt_Architecture <$> ps → a ∈ seen ∨ a ∈ pt_Architecture <$> fresh seen ps)
  ∧ fresh seen ps `sublist_of` ps.
Proof.
  revert seen. induction ps as [|t ps IH]; intros seen; cbn.
  { repeat split; [constructor|by intros ? ?%elem_of_nil|by intros ? ?%elem_of_nil|done]. }
  case_bool_decide as Hs.
  - destruct (IH seen) as (H1 & H2 & H3 & H4). repeat split; try done.
    + intros a [->|Ha]%elem_of_cons; [by left|by apply H3].
    + by apply sublist_cons.
  - destruct (IH ({[pt_Architecture t]} ∪ seen)) as (H1 & H2 & H3 & H4). cbn. repeat split.
    + constructor; [|done]. intros Hin. apply H2 in Hin. set_solver.
    + intros a [->|Ha]%elem_of_cons; [done|]. apply H2 in Ha. set_solver.
    + intros a [->|Ha]%elem_of_cons; [right; by left|].
      destruct (H3 a Ha) as [Hin|Hin]; [|right; by right].
      apply elem_of_union in Hin as [->%elem_of_singleton|Hin]; [right; by left|by left].
    + by apply sublist_skip.
Qed.

Lemma fresh_nil seen ps : (∀ a, a ∈ pt_Architecture <$> ps → a ∈ seen) → fresh seen ps = [].
Proof.
  induction ps as [|t ps IH]; intros H; cbn; [done|].
  rewrite bool_decide_eq_true_2 by (apply H; by left). apply IH. intros a Ha. apply H. by right.
Qed.

Lemma put_Preferred_put l l' s : put_Preferred l (put_Preferred l' s) = put_Preferred l s.
Proof. done. Qed.

Lemma existing_ensure p :
  getExistingPreferredArchitectures (upd (upd_spec ensurePreferred) p) =
  getExistingPreferredArchitectures p.
Proof. done. Qed.

Lemma spec_of_SetPreferred sc source p :
  spec_of (SetPreferredArchNodeAffinity sc source p) =
  put_Preferred (Some (elems (preferred_of (spec_of p)) ++
    (platformTerm <$> fresh (getExistingPreferredArchitectures p) (elems (nas_Platforms sc)))))
    (spec_of p).
Proof.
  unfold SetPreferredArchNodeAffinity.
  pose proof (preferred_loop_terms (elems (nas_Platforms sc)) source
    (getExistingPreferredArchitectures (upd (upd_spec ensurePreferred) p))
    (upd (upd_spec ensurePreferred) p)) as [Ht Hs].
  rewrite existing_ensure in *. rewrite spec_of_upd_spec in Hs.
  destruct (preferred_loop _ _ _ _) as [[ts sk] q]; cbn [fst snd] in *. rewrite <-Ht.
  assert (spec_of (if bool_decide (ts = []) then q
    else EnsureLabel utils.PreferredNodeAffinityLabel utils.NodeAffinityLabelValueSet
      (upd (upd_spec (λ s, put_Preferred (sappend (preferred_of s) ts) s)) q)) =
    put_Preferred (Some (elems (preferred_of (spec_of p)) ++ ts)) (spec_of p)) as Hq.
  { case_bool_decide as Hnil; autorewrite with go; rewrite Hs; unfold ensurePreferred.
    - by rewrite Hnil, app_nil_r.
    - rewrite preferred_of_put_Preferred, put_Preferred_put. cbn [sappend elems]. by destruct ts. }
  destruct ts, sk; rewrite ?spec_of_PublishEvent; exact Hq.
Qed.

Lemma preferredArchs_platforms ps :
  preferredArchs (platformTerm <$> ps) = pt_Architecture <$> ps.
Proof.
  unfold preferredArchs. induction ps as [|t ps IH]; [done|]. cbn in *. by rewrite IH.
Qed.

Lemma preferredArchs_app l1 l2 :
  preferredArchs (l1 ++ l2) = preferredArchs l1 ++ preferredArchs l2.
Proof. unfold preferredArchs. apply bind_app. Qed.

Lemma existing_SetPreferred sc source p a :
  a ∈ getExistingPreferredArchitectures (SetPreferredArchNodeAffinity sc source p) ↔
  a ∈ getExistingPreferredArchitectures p
  ∨ a ∈ pt_Architecture <$> fresh (getExistingPreferredArchitectures p) (elems (nas_Platforms sc)).
Proof.
  unfold getExistingPreferredArchitectures at 1.
  rewrite spec_of_SetPreferred, preferred_of_put_Preferred. cbn [elems].
  rewrite preferredArchs_app, preferredArchs_platforms, elem_of_list_to_set, elem_of_app.
  apply or_iff_compat_r. unfold getExistingPreferredArchitectures.
  by rewrite elem_of_list_to_set.
Qed.

(** C36: the configuration only adds preferred terms after the ones the pod has,
    one per architecture that had no preference yet, in the order of the
    configuration; every architecture of the configuration has a preference
    afterwards, and the hard constraints are untouched. *)
Theorem SetPreferredArchNodeAffinity_spec sc source p :
  let q := SetPreferredArchNodeAffinity sc source p in
  ∃ new, elems (preferred_of (spec_of q)) = elems (preferred_of (spec_of p)) ++ (platformTerm <$> new)
  ∧ new `sublist_of` elems (nas_Platforms sc)
  ∧ NoDup (pt_Architecture <$> new)
  ∧ (∀ a, a ∈ pt_Architecture <$> new → a ∉ getExistingPreferredArchitectures p)
  ∧ (∀ a, a ∈ pt_Architecture <$> elems (nas_Platforms sc) →
          a ∈ getExistingPreferredArchitectures q)
  ∧ directives_ok (spec_of p) (spec_of q)
  ∧ required_of (spec_of q) = required_of (spec_of p) ∧ ps_NodeSelector (spec_of q) = ps_NodeSelector (spec_of p).
Proof.
  intros q. unfold q at 1. rewrite spec_of_SetPreferred, preferred_of_put_Preferred.
  exists (fresh (getExistingPreferredArchitectures p) (elems (nas_Platforms sc))).
  destruct (fresh_spec (getExistingPreferredArchitectures p) (elems (nas_Platforms sc)))
    as (H1 & H2 & H3 & H4).
  do 4 (split; [done|]). split; [|split; [|split]].
  - intros a Ha. unfold q. apply existing_SetPreferred. exact (H3 a Ha).
  - unfold q. rewrite spec_of_SetPreferred. auto with go.
  - unfold q. by rewrite spec_of_SetPreferred, required_of_put_Preferred.
  - unfold q. by rewrite spec_of_SetPreferred.
Qed.

(** Applying a configuration a second time (a retried reconcile) adds no
    preferred term. *)
Lemma SetPreferredArchNodeAffinity_idempotent sc source source' p :
  let q := SetPreferredArchNodeAffinity sc source p in
  spec_of (SetPreferredArchNodeAffinity sc source' q) = spec_of q.
Proof.
  intros q. rewrite (spec_of_SetPreferred sc source' q). rewrite fresh_nil.
  - unfold q. rewrite spec_of_SetPreferred, preferred_of_put_Preferred, put_Preferred_put.
    cbn [elems fmap]. by rewrite app_nil_r.
  - intros a Ha. unfold q. apply existing_SetPreferred.
    destruct (fresh_spec (getExistingPreferredArchitectures p) (elems (nas_Platforms sc)))
      as (_ & _ & H3 & _). exact (H3 a Ha).
Qed.

(** ** The audit annotation *)

(** The entries of the annotation, in the order they were recorded. *)
Definition source_entries (p : Pod) : list string :=
  let a := mget (pod_Annotations p) utils.PreferredNodeAffinitySourcesAnnotation in
  if bool_decide (a = "") then [] else split_on ","%char a.

Lemma sourceEntry_ne arch w src b : sourceEntry arch w src b ≠ "".
Proof.
  unfold sourceEntry. destruct arch as [|c arch]; [by rewrite string_nil_app|].
  by rewrite string_cons_app.
Qed.

Lemma sourceEntry_no_comma arch w src b :
  has_char ","%char arch = false → has_char ","%char src = false →
  has_char ","%char (sourceEntry arch w src b) = false.
Proof.
  intros Ha Hs. unfold sourceEntry. rewrite !has_char_app, Ha, Hs, has_char_sprintd by done.
  by destruct b.
Qed.

Lemma annotation_track arch w src b p :
  let a := mget (pod_Annotations p) utils.PreferredNodeAffinitySourcesAnnotation in
  let e := sourceEntry arch w src b in
  mget (pod_Annotations (trackAffinitySource arch w src b p))
    utils.PreferredNodeAffinitySourcesAnnotation =
  if bool_decide (e ∈ source_entries p) then a
  else if bool_decide (a = "") then e else a +:+ "," +:+ e.
Proof.
  intros a e. unfold trackAffinitySource, source_entries. fold a e.
  assert (∀ l, existsb (λ x, bool_decide (x = e)) l = bool_decide (e ∈ l)) as Hex.
  { intros l. apply eq_true_iff_eq. rewrite existsb_bool_decide, Exists_exists, bool_decide_eq_true.
    naive_solver. }
  rewrite Hex. destruct (bool_decide (a = "")) eqn:Ha; bools; cbn [negb andb].
  - rewrite bool_decide_eq_false_2 by apply not_elem_of_nil. apply mget_mensure_eq.
  - destruct (bool_decide (e ∈ _)); [done|]. apply mget_mensure_eq.
Qed.

(** Recording an entry appends it unless it is there. *)
Lemma source_entries_track arch w src b p :
  has_char ","%char arch = false → has_char ","%char src = false →
  let e := sourceEntry arch w src b in
  source_entries (trackAffinitySource arch w src b p) =
  if bool_decide (e ∈ source_entries p) then source_entries p else source_entries p ++ [e].
Proof.
  intros Ha Hs e. unfold source_entries at 1. rewrite annotation_track. fold e.
  pose proof (sourceEntry_ne arch w src b) as Hne. fold e in Hne.
  pose proof (sourceEntry_no_comma arch w src b Ha Hs) as Hc. fold e in Hc.
  destruct (bool_decide (e ∈ source_entries p)) eqn:Hin; [done|].
  unfold source_entries. set (a := mget _ _). destruct (bool_decide (a = "")) eqn:Ha0.
  - rewrite bool_decide_eq_false_2 by done. by rewrite split_on_no_sep.
  - rewrite (string_cons_app ","%char ""), string_nil_app. bools. rewrite bool_decide_eq_false_2.
    + by rewrite split_on_snoc.
    + destruct a; [done|]. by rewrite string_cons_app.
Qed.

(** The audit annotation is a set: recording what a configuration did, any
    number of times and in any order of calls, keeps the entries distinct and in
    order of first occurrence, and repeating a record changes nothing. *)
Theorem trackAffinitySource_set arch w src b p :
  has_char ","%char arch = false → has_char ","%char src = false →
  let q := trackAffinitySource arch w src b p in
  (NoDup (source_entries p) → NoDup (source_entries q))
  ∧ source_entries p `prefix_of` source_entries q
  ∧ (∀ e, e ∈ source_entries q ↔ e = sourceEntry arch w src b ∨ e ∈ source_entries p)
  ∧ trackAffinitySource arch w src b q = q.
Proof.
  intros Ha Hs q.
  pose proof (source_entries_track arch w src b p Ha Hs) as He. fold q in He. cbn zeta in He.
  assert (Hin : sourceEntry arch w src b ∈ source_entries q).
  { rewrite He. case_bool_decide; [done|]. apply elem_of_app. right. by apply list_elem_of_singleton. }
  repeat split.
  - intros Hnd. rewrite He. case_bool_decide; [done|]. apply NoDup_app. repeat split; [done| |].
    + intros x Hx ->%list_elem_of_singleton. done.
    + apply NoDup_singleton.
  - rewrite He. case_bool_decide; [done|]. by apply prefix_app_r.
  - rewrite He. case_bool_decide; [by right|]. rewrite elem_of_app, list_elem_of_singleton. tauto.
  - rewrite He. case_bool_decide.
    + naive_solver.
    + rewrite elem_of_app, list_elem_of_singleton. tauto.
  - unfold source_entries in Hin. unfold trackAffinitySource at 1.
    set (a := mget (pod_Annotations q) _) in *.
    destruct (bool_decide (a = "")) eqn:E; [by apply elem_of_nil in Hin|]. cbn [negb andb].
    assert (existsb (λ x, bool_decide (x = sourceEntry arch w src b)) (split_on ","%char a) = true)
      as ->; [|done].
    apply existsb_bool_decide, Exists_exists. by exists (sourceEntry arch w src b).
Qed.

(** ** Retries *)

Lemma count_handleError e p :
  mlookup (pod_Labels (handleError (Some e) p)) utils.ImageInspectionErrorCountLabel =
  Some (next_count (mlookup (pod_Labels p) utils.ImageInspectionErrorCountLabel)).
Proof.
  unfold handleError, EnsureAndIncrementLabel. rewrite labels_PublishEvent.
  rewrite pod_Labels_EnsureLabel, mlookup_mensure_eq, labels_EnsureAnnotation.
  by rewrite pod_Labels_EnsureLabel, mlookup_mensure_ne.
Qed.

(** [k] failed attempts in a row, whatever the errors were. *)
Definition errors_in_a_row (es : list GoError) (p : Pod) : Pod :=
  foldl (λ q e, handleError (Some e) q) p es.

Lemma count_errors es p :
  mlookup (pod_Labels p) utils.ImageInspectionErrorCountLabel = None →
  es ≠ [] → (Z.of_nat (length es) ≤ 2 ^ 31)%Z →
  mlookup (pod_Labels (errors_in_a_row es p)) utils.ImageInspectionErrorCountLabel =
  Some (sprintd (Z.of_nat (length es))).
Proof.
  intros Hp. induction es as [|e es IH] using rev_ind; [done|]. intros _ Hlen.
  rewrite length_app in Hlen |- *. cbn [length] in *.
  unfold errors_in_a_row. rewrite foldl_app. cbn [foldl]. rewrite count_handleError.
  destruct es as [|e' es']; [cbn; by rewrite Hp|].
  unfold errors_in_a_row in IH. rewrite IH by (done || lia).
  rewrite next_count_step by lia. unfold maxInt32. rewrite (proj2 (Z.leb_le _ _)) by lia.
  do 2 f_equal. lia.
Qed.

Lemma maxRetries_count p n :
  mlookup (pod_Labels p) utils.ImageInspectionErrorCountLabel = Some (sprintd n) →
  (0 ≤ n)%Z → maxRetries p = (MaxRetryCount <=? n)%Z.
Proof.
  intros Hl Hn. unfold maxRetries, mget. rewrite Hl. cbn [from_option id].
  destruct (pod_Labels p); [|done].
  destruct (n <=? maxInt32)%Z eqn:E.
  - rewrite parseInt32_sprintd; [done|]. unfold in_int32. rewrite E, andb_true_r.
    apply Z.leb_le. unfold minInt32. lia.
  - rewrite parseInt32_sprintd_overflow by (done || (unfold in_int32; by rewrite E, andb_false_r)).
    apply Z.leb_gt in E. symmetry. apply Z.leb_le. unfold maxInt32, MaxRetryCount in *. lia.
Qed.

(** The retry counter: a pod that had no failed attempt gives up exactly
    from the fifth consecutive failure on. *)
Theorem maxRetries_after_errors es p :
  mlookup (pod_Labels p) utils.ImageInspectionErrorCountLabel = None →
  es ≠ [] → (Z.of_nat (length es) ≤ 2 ^ 31)%Z →
  maxRetries (errors_in_a_row es p) = (5 <=? length es).
Proof.
  intros Hp Hne Hlen. rewrite (maxRetries_count _ (Z.of_nat (length es))) by (auto using count_errors; lia).
  unfold MaxRetryCount. destruct (5 <=? length es) eqn:E.
  - apply Nat.leb_le in E. apply Z.leb_le. lia.
  - apply Nat.leb_gt in E. apply Z.leb_gt. lia.
Qed.

(** The bound is sharp: at 2^31 the stored value no longer parses, which counts
    as exhausted, and the next failure starts over at 1. *)
Lemma retry_counter_wraps p :
  mlookup (pod_Labels p) utils.ImageInspectionErrorCountLabel = Some (sprintd (2 ^ 31)) →
  maxRetries p = true
  ∧ ∀ e, mlookup (pod_Labels (handleError (Some e) p)) utils.ImageInspectionErrorCountLabel = Some "1"
         ∧ maxRetries (handleError (Some e) p) = false.
Proof.
  intros H. split; [by rewrite (maxRetries_count p (2 ^ 31))|]. intros e.
  assert (mlookup (pod_Labels (handleError (Some e) p)) utils.ImageInspectionErrorCountLabel =
    Some (sprintd 1)) as Hc.
  { rewrite count_handleError, H, next_count_step by lia. done. }
  split; [exact Hc|]. by rewrite (maxRetries_count _ 1).
Qed.

(** ** Ignored pods *)

(** The user decided on the architecture: by node selector, or in every term of
    the required affinity. *)
Definition arch_decided (s : PodSpec) : Prop :=
  is_Some (mlookup (ps_NodeSelector s) utils.ArchLabel)
  ∨ ∃ ns, required_of s = Some ns
          ∧ Forall (λ t, has_key utils.ArchLabel t = true) (elems (ns_NodeSelectorTerms ns)).

Lemma configured_iff p :
  (isNodeSelectorConfiguredForArchitecture p).1 = true ↔ arch_decided (spec_of p).
Proof.
  unfold isNodeSelectorConfiguredForArchitecture, arch_decided.
  change (pod_NodeSelector p) with (ps_NodeSelector (spec_of p)).
  case_bool_decide as Hs; cbn; [naive_solver|].
  destruct (required_of (spec_of p)) as [ns|]; cbn; [|naive_solver].
  rewrite forallb_Forall. naive_solver.
Qed.

Lemma preferred_after_configured p :
  isPreferredAffinityConfiguredForArchitecture (isNodeSelectorConfiguredForArchitecture p).2 =
  isPreferredAffinityConfiguredForArchitecture p.
Proof.
  unfold isPreferredAffinityConfiguredForArchitecture. by rewrite spec_of_isNodeSelectorConfigured.
Qed.

(** Some configuration that applies to the pod has something left to do on a
    pod whose architecture is decided. *)
Definition plugins_apply (cppc : option ClusterPodPlacementConfig) (ppcs : list PodPlacementConfig) : Prop :=
  (∃ c, cppc = Some c ∧ CPPC_PluginsEnabled c NodeAffinityScoringPluginName = true)
  ∨ Exists (λ c, HasEnabledPluginsRequiringSchedulingGate c = true) ppcs.

Lemma plugins_apply_iff cppc ppcs :
  negb (match cppc with
        | Some c => CPPC_PluginsEnabled c NodeAffinityScoringPluginName
        | None => false
        end) && negb (hasMatchingPPCWithPlugin ppcs) = true ↔ ¬ plugins_apply cppc ppcs.
Proof.
  unfold hasMatchingPPCWithPlugin, plugins_apply.
  rewrite <-existsb_Exists, andb_true_iff, !negb_true_iff, <-!not_true_iff_false.
  destruct cppc as [c|]; naive_solver.
Qed.

Lemma shouldIgnorePod_spec ns cppc ppcs p :
  spec_of (shouldIgnorePod ns cppc ppcs p).2 = spec_of p.
Proof.
  unfold shouldIgnorePod. pose proof (spec_of_isNodeSelectorConfigured p) as Hs.
  repeat (destruct (_ : bool); [done|]).
  destruct (isNodeSelectorConfiguredForArchitecture p) as [[] q]; cbn [negb snd] in *; [|done].
  by destruct (isPreferredAffinityConfiguredForArchitecture q).
Qed.

(** Exactly which pods are ignored, whatever the order of the checks: those of
    the operator's or of a [kube-] namespace, bound to a node, directed to the
    control plane, owned by a DaemonSet, or with a decided architecture and
    nothing left for a plugin to do.  The check changes nothing of the spec. *)
Theorem shouldIgnorePod_iff ns cppc ppcs p :
  ((shouldIgnorePod ns cppc ppcs p).1 = true ↔
    ns = pod_Namespace p ∨ hasPrefix (pod_Namespace p) "kube-" = true
    ∨ ps_NodeName (spec_of p) ≠ "" ∨ HasControlPlaneNodeSelector p = true
    ∨ IsFromDaemonSet p = true
    ∨ (arch_decided (spec_of p) ∧
       (isPreferredAffinityConfiguredForArchitecture p = true ∨ ¬ plugins_apply cppc ppcs)))
  ∧ spec_of (shouldIgnorePod ns cppc ppcs p).2 = spec_of p.
Proof.
  unfold shouldIgnorePod.
  case_bool_decide; [naive_solver|]. destruct (hasPrefix _ _); [naive_solver|].
  destruct (bool_decide (ps_NodeName (spec_of p) = "")) eqn:Hn; bools; cbn [negb]; [|naive_solver].
  destruct (HasControlPlaneNodeSelector p); [naive_solver|].
  destruct (IsFromDaemonSet p); [naive_solver|].
  pose proof (configured_iff p) as Hc. pose proof (preferred_after_configured p) as Hp.
  pose proof (spec_of_isNodeSelectorConfigured p) as Hs.
  destruct (isNodeSelectorConfiguredForArchitecture p) as [conf q]; cbn [fst snd] in *.
  destruct conf; cbn [negb]; [|split; [naive_solver|done]].
  rewrite Hp. destruct (isPreferredAffinityConfiguredForArchitecture p); cbn [fst snd];
    [split; [naive_solver|done]|].
  split; [|done]. rewrite plugins_apply_iff. naive_solver.
Qed.
