(* ===== verification/PodReconciler.v ===== *)
(** * The pod reconciler

    [internal/controller/podplacement/pod_reconciler.go], [cel_integration.go]
    and [pkg/utils/secrets.go]: one reconcile of a gated pod.  The API server and
    the informer caches are the record [Env] of the answers one reconcile gets;
    [sort.Slice] and the order of map iteration are arbitrary; the CEL evaluator
    and the image inspection are the services of [CelEval] and [PodModel], and
    share a world [W] that lives across reconciles. *)
From stdpp Require Import base gmap strings list sorting.
From S2P Require Import Prelude GoStd Api LabelSelectors NodeMatch Models ArchConstraints.
From S2P Require Import CelEval Events PodModel PodTheorems.
Import plugins v1beta1 models events.

(** ** Secrets *)
Record Secret := mkSecret { sec_Type : string; sec_Data : GoMap string }.

(** [utils.ExtractAuthFromSecret]; [auths] is the member of that name of a JSON
    object, or the error of [json.Unmarshal]. *)
Definition ExtractAuthFromSecret (auths : string → res string) (s : Secret) : res string :=
  if bool_decide (sec_Type s = "kubernetes.io/dockercfg")
  then Ok (mget (sec_Data s) ".dockercfg")
  else if bool_decide (sec_Type s = "kubernetes.io/dockerconfigjson")
  then auths (mget (sec_Data s) ".dockerconfigjson")
  else Err (errOther "unknown secret type").

(** ** The answers of the cluster during one reconcile *)
Record Env := mkEnv {
  (** [utils.Namespace()] *)
  env_operatorNamespace : string;
  (** [clusterpodplacementconfig.GetClusterPodPlacementConfig()] *)
  env_cppc : option ClusterPodPlacementConfig;
  (** [r.List] from the informer cache and [r.APIReader.List] *)
  env_listCached : string → res (list PodPlacementConfig);
  env_listAPI : string → res (list PodPlacementConfig);
  env_keyOk : string → bool;
  env_valueOk : string → string → bool;
  (** [sort.Slice] by descending priority *)
  env_sort : list PodPlacementConfig → list PodPlacementConfig;
  env_getSecret : string → string → res Secret;
  env_auths : string → res string;
}.

(** What [sort.Slice] guarantees; it is not stable. *)
Definition sort_ok (sort : list PodPlacementConfig → list PodPlacementConfig) : Prop :=
  ∀ l, sort l ≡ₚ l ∧ StronglySorted (λ x y, ppc_Priority y ≤ ppc_Priority x)%Z (sort l).

Definition configSourceOf (ppc : PodPlacementConfig) : string :=
  PodPlacementConfigKind +:+ "-" +:+ ppc_Name ppc.

(** [%v] of a slice of strings *)
Definition sprintv (l : list string) : string := "[" +:+ join " " l +:+ "]".

Section reconciler.
Context {W : Type} {celService : CelService W} {imageService : ImageService W}
  {rangeOrder : RangeOrder}.

(** [applyCELArchitecturePlacement] once the rules were evaluated. *)
Definition applyCelResult (ppc : PodPlacementConfig) (r : evaluateResult) (p : Pod) : Pod * bool :=
  if er_allRulesErrored r then (p, false)
  else if bool_decide (elems (er_architectures r) = []) then (p, false)
  else
    let p1 := upd (overrideArchitectures (er_architectures r)) p in
    let p2 := EnsureLabel utils.NodeAffinityLabel utils.NodeAffinityLabelValueOverriden p1 in
    let archs := sprintv (elems (er_architectures r)) in
    (if er_matched r
     then PublishEvent EventTypeNormal "CELArchitecturePlacementApplied"
            ("Applied CEL rule '" +:+ er_ruleName r +:+ "' from " +:+ configSourceOf ppc
             +:+ ", architectures: " +:+ archs) p2
     else PublishEvent EventTypeNormal "CELArchitecturePlacementFallback"
            ("No CEL rules matched, using fallback architectures from " +:+ configSourceOf ppc
             +:+ ": " +:+ archs) p2, true).

(** [applyCELArchitecturePlacement] *)
Definition applyCELArchitecturePlacement (ppc : PodPlacementConfig) (p : Pod) (w : W) :
    W * Pod * bool :=
  if negb (PPC_PluginsEnabled ppc CelArchitecturePlacementPluginName) then (w, p, false)
  else
    match ppc_cel ppc with
    | None => (w, p, false)
    | Some celPlugin =>
        match cel_place (cel_Rules celPlugin) (cel_FallbackArchitectures celPlugin)
                (pod_obj p) w with
        | (w', Err e) =>
            (w', PublishEvent EventTypeWarning "CELEvaluationError"
                   ("Failed to evaluate CEL rules: " +:+ err_msg e) p, false)
        | (w', Ok r) => let '(q, b) := applyCelResult ppc r p in (w', q, b)
        end
    end.

(** The first loop of [applyMatchingPPCs]: stop at the first configuration that
    applies. *)
Fixpoint cel_loop (ppcs : list PodPlacementConfig) (p : Pod) (w : W) : W * Pod * bool :=
  match ppcs with
  | [] => (w, p, false)
  | ppc :: ppcs' =>
      match applyCELArchitecturePlacement ppc p w with
      | (w', q, true) => (w', q, true)
      | (w', q, false) => cel_loop ppcs' q w'
      end
  end.

(** The second loop. *)
Definition scoring_step (p : Pod) (ppc : PodPlacementConfig) : Pod :=
  if negb (PPC_PluginsEnabled ppc NodeAffinityScoringPluginName) then p
  else match ppc_scoring ppc with
       | Some sc => SetPreferredArchNodeAffinity sc (configSourceOf ppc) p
       | None => p
       end.

(** [applyMatchingPPCs] *)
Definition applyMatchingPPCs (sort : list PodPlacementConfig → list PodPlacementConfig)
    (matching : list PodPlacementConfig) (hasPreferredAffinityAtStart : bool) (p : Pod) (w : W) :
    W * Pod * bool :=
  let sorted := sort matching in
  let '(w', q, celApplied) := cel_loop sorted p w in
  if hasPreferredAffinityAtStart then (w', q, celApplied)
  else (w', foldl scoring_step q sorted, celApplied).

(** [trackSkippedMatchingConfigs]; the slice was sorted in place before. *)
Definition track_skipped (source : string) (p : Pod) (sc : NodeAffinityScoring) : Pod :=
  foldl (λ q t, trackAffinitySource (pt_Architecture t) (pt_Weight t) source false q) p
    (elems (nas_Platforms sc)).

Definition track_skipped_ppc (p : Pod) (ppc : PodPlacementConfig) : Pod :=
  if negb (PPC_PluginsEnabled ppc NodeAffinityScoringPluginName) then p
  else match ppc_scoring ppc with
       | Some sc => track_skipped (configSourceOf ppc) p sc
       | None => p
       end.

Definition enabled_cppc_scoring (cppc : option ClusterPodPlacementConfig) :
    option NodeAffinityScoring :=
  match cppc with
  | Some c => if CPPC_PluginsEnabled c NodeAffinityScoringPluginName then cppc_scoring c else None
  | None => None
  end.

Definition trackSkippedMatchingConfigs (sort : list PodPlacementConfig → list PodPlacementConfig)
    (cppc : option ClusterPodPlacementConfig) (matching : list PodPlacementConfig) (p : Pod) : Pod :=
  let q := foldl track_skipped_ppc p (sort (sort matching)) in
  match enabled_cppc_scoring cppc with
  | Some sc => track_skipped ClusterPodPlacementConfigKind q sc
  | None => q
  end.

(** [pullSecretDataList]: a secret that cannot be read or understood is skipped;
    no error is returned. *)
Definition secretData (env : Env) (ns name : string) : option string :=
  match env_getSecret env ns name with
  | Err _ => None
  | Ok s =>
      match ExtractAuthFromSecret (env_auths env) s with
      | Err _ => None
      | Ok d => Some d
      end
  end.

Definition pullSecretDataList (env : Env) (p : Pod) : res (list string) :=
  Ok (omap (secretData env (pod_Namespace p)) (getPodImagePullSecrets p)).

(** The event published before the gate is removed. *)
Definition publishNoPreferred (p : Pod) : Pod :=
  if bool_decide (mget (pod_Labels p) utils.PreferredNodeAffinityLabel = utils.LabelValueNotSet)
  then PublishEvent EventTypeNormal ArchitectureAwareNodeAffinitySet
         ArchitecturePreferredPredicateSkippedMsg p
  else p.

Definition err_of {A} (r : res A) : option GoError :=
  match r with Ok _ => None | Err e => Some e end.

(** The image-based part of [processPod]. *)
Definition imageBased (env : Env) (p : Pod) (w : W) : W * Pod :=
  let psdl := pullSecretDataList env p in
  let p1 := handleError (err_of psdl) p in
  let '(w2, p2, err) :=
    match psdl with
    | Err e => (w, p1, Some e)
    | Ok secrets =>
        let '(w', q, r) := SetNodeAffinityArchRequirement secrets p1 w in
        (w', handleError (err_of r) q, err_of r)
    end in
  let p3 :=
    match err with
    | Some e =>
        if maxRetries p2 then
          let q := PublishEvent EventTypeWarning ImageArchitectureInspectionError
                     (ImageInspectionErrorMaxRetriesMsg +:+ ": " +:+ err_msg e) p2 in
          match env_cppc env with
          | Some c =>
              if bool_decide (cs_FallbackArchitecture (cppc_Spec c) = "") then q
              else setRequiredNodeAffinityToFallbackArchitecture
                     (cs_FallbackArchitecture (cppc_Spec c)) q
          | None => q
          end
        else p2
    | None => p2
    end in
  if bool_decide (err = None) || maxRetries p3
  then (w2, RemoveSchedulingGate (publishNoPreferred p3))
  else (w2, p3).

(** The two listings: the API server is asked when the cache has nothing. *)
Definition listPPCs (env : Env) (ns : string) : res (list PodPlacementConfig) :=
  match env_listCached env ns with
  | Err e => Err e
  | Ok [] => env_listAPI env ns
  | Ok l => Ok l
  end.

(** [processPod] *)
Definition processPod (env : Env) (p : Pod) (w : W) : W * Pod :=
  let cppc := env_cppc env in
  match listPPCs env (pod_Namespace p) with
  | Err e => (w, handleError (Some e) p)
  | Ok items =>
      let matching := filterMatchingPPCs (env_keyOk env) (env_valueOk env) items p in
      let '(ignore, p0) := shouldIgnorePod (env_operatorNamespace env) cppc matching p in
      if ignore
      then (w, PublishEvent EventTypeWarning ArchitectureAwareGatedPodIgnored
                 ArchitectureAwareGatedPodIgnoredMsg (RemoveSchedulingGate p0))
      else
        let hasPreferred := isPreferredAffinityConfiguredForArchitecture p0 in
        let '(w1, p1, celApplied) := applyMatchingPPCs (env_sort env) matching hasPreferred p0 w in
        let p2 :=
          if hasPreferred then trackSkippedMatchingConfigs (env_sort env) cppc matching p1
          else match enabled_cppc_scoring cppc with
               | Some sc => SetPreferredArchNodeAffinity sc ClusterPodPlacementConfigKind p1
               | None => p1
               end in
        if celApplied then (w1, RemoveSchedulingGate (publishNoPreferred p2))
        else imageBased env p2 w1
  end.

(** [Reconcile]: the answers of [Get] and [Update], the error returned, the pod
    sent to the API server if any, and the pod as the call leaves it. *)
Record ReconcileResult := mkRR {
  rr_error : option GoError;
  rr_sent : option CorePod;
  rr_pod : option Pod;
}.

Definition Reconcile (env : Env) (get : res CorePod) (update : CorePod → res CorePod)
    (recorder : option (list Event)) (w : W) : W * ReconcileResult :=
  match get with
  | Err e => (w, mkRR (ignoreNotFound (Some e)) None None)
  | Ok obj =>
      let p := NewPod obj recorder in
      if negb (HasSchedulingGate p) then (w, mkRR None None (Some p))
      else
        let '(w', q) := processPod env p w in
        match update (pod_obj q) with
        | Err e =>
            (w', mkRR (Some e) (Some (pod_obj q))
               (Some (PublishEvent EventTypeWarning ArchitectureAwareSchedulingGateRemovalFailure
                        SchedulingGateRemovalFailureMsg q)))
        | Ok obj' =>
            let q' := mkP obj' (pod_recorder q) in
            (w', mkRR None (Some (pod_obj q))
               (Some (if HasSchedulingGate q' then q'
                      else PublishEvent EventTypeNormal
                             ArchitectureAwareSchedulingGateRemovalSuccess
                             SchedulingGateRemovalSuccessMsg q')))
        end
  end.

End reconciler.

(** [mapPPCToPods]: the requests for the gated pods of the namespace. *)
Definition mapPPCToPods (listGated : res (list CorePod)) : list (string * string) :=
  match listGated with
  | Err _ => []
  | Ok pods => (λ p, (om_Namespace (p_Meta p), om_Name (p_Meta p))) <$> pods
  end.
