(* ===== verification/ReconcilerTheorems.v ===== *)
(** * Properties of the pod reconciler

    What a reconcile may touch, when the scheduling gate goes away, that it goes
    away after a bounded number of failures, that the CEL plugin keeps the image
    inspection out, and that the unstable sort does not show. *)
From Stdlib Require Import Ascii.
From stdpp Require Import base gmap strings list sorting.
From S2P Require Import Prelude GoStd Api LabelSelectors NodeMatch Models ArchConstraints.
From S2P Require Import CelEval Events PodModel PodTheorems PodReconciler.
Import plugins v1beta1 models events.

(** ** What is left alone *)

Definition error_count (p : Pod) : option string :=
  mlookup (pod_Labels p) utils.ImageInspectionErrorCountLabel.

(** The parts of a pod that no operation of the operator changes: identity,
    containers, binding, pull secrets. *)
Definition same_workload (p q : Pod) : Prop :=
  pod_Namespace q = pod_Namespace p
  ∧ om_Name (p_Meta (pod_obj q)) = om_Name (p_Meta (pod_obj p))
  ∧ om_OwnerReferences (p_Meta (pod_obj q)) = om_OwnerReferences (p_Meta (pod_obj p))
  ∧ ps_NodeName (spec_of q) = ps_NodeName (spec_of p)
  ∧ ps_Containers (spec_of q) = ps_Containers (spec_of p)
  ∧ ps_InitContainers (spec_of q) = ps_InitContainers (spec_of p)
  ∧ ps_ImagePullSecrets (spec_of q) = ps_ImagePullSecrets (spec_of p).

(** A step that neither counts an error nor touches the gates. *)
Definition quiet (p q : Pod) : Prop :=
  same_workload p q ∧ error_count q = error_count p ∧ pod_Gates q = pod_Gates p.

#[export] Instance same_workload_preorder : PreOrder same_workload.
Proof.
  split; [by repeat split|]. intros p q r (?&?&?&?&?&?&?) (?&?&?&?&?&?&?).
  repeat split; congruence.
Qed.

#[export] Instance quiet_preorder : PreOrder quiet.
Proof.
  split; [by repeat split|]. intros p q r (?&?&?) (?&?&?).
  split; [by etrans|split; congruence].
Qed.

Lemma quiet_EnsureLabel k v p :
  k ≠ utils.ImageInspectionErrorCountLabel → quiet p (EnsureLabel k v p).
Proof.
  intros Hk. split; [by repeat split|]. split; [|done]. unfold error_count.
  by rewrite pod_Labels_EnsureLabel, mlookup_mensure_ne.
Qed.

Lemma quiet_EnsureNoLabel k p :
  k ≠ utils.ImageInspectionErrorCountLabel → quiet p (EnsureNoLabel k p).
Proof.
  intros Hk. split; [by repeat split|]. split; [|done]. unfold error_count.
  by rewrite pod_Labels_EnsureNoLabel, mlookup_mdelete_ne.
Qed.

Lemma quiet_PublishEvent t r m p : quiet p (PublishEvent t r m p).
Proof. by repeat split. Qed.

Lemma quiet_EnsureAnnotation k v p : quiet p (EnsureAnnotation k v p).
Proof. by repeat split. Qed.

Lemma quiet_put_Required ns p : quiet p (upd (upd_spec (put_Required ns)) p).
Proof. by repeat split. Qed.

Lemma quiet_put_Preferred f p : quiet p (upd (upd_spec (λ s, put_Preferred (f s) s)) p).
Proof. by repeat split. Qed.

#[export] Hint Resolve quiet_PublishEvent quiet_EnsureAnnotation quiet_put_Required
  quiet_put_Preferred : go.
#[export] Hint Extern 2 (quiet _ (EnsureLabel _ _ _)) => (apply quiet_EnsureLabel; discriminate) : go.
#[export] Hint Extern 2 (quiet _ (EnsureNoLabel _ _)) => (apply quiet_EnsureNoLabel; discriminate) : go.

(** Peel the outermost operation. *)
Ltac quiet_step := etrans; [|solve [eauto 2 with go]].

Lemma quiet_publishIgnorePod p : quiet p (publishIgnorePod p).
Proof. unfold publishIgnorePod. do 2 quiet_step. reflexivity. Qed.

Lemma quiet_configured p : quiet p (isNodeSelectorConfiguredForArchitecture p).2.
Proof.
  unfold isNodeSelectorConfiguredForArchitecture. case_bool_decide.
  - apply quiet_publishIgnorePod.
  - by destruct (required_of _).
Qed.

Lemma quiet_shouldIgnorePod ns cppc ppcs p : quiet p (shouldIgnorePod ns cppc ppcs p).2.
Proof.
  unfold shouldIgnorePod. pose proof (quiet_configured p) as H.
  repeat (destruct (_ : bool); [done|]).
  destruct (isNodeSelectorConfiguredForArchitecture p) as [[] q]; cbn [negb snd] in *; [|done].
  by destruct (isPreferredAffinityConfiguredForArchitecture q).
Qed.

Lemma quiet_trackAffinitySource a w s b p : quiet p (trackAffinitySource a w s b p).
Proof.
  unfold trackAffinitySource. destruct (_ && _); [done|]. case_bool_decide; auto with go.
Qed.

Lemma quiet_preferred_loop ps source seen p : quiet p (preferred_loop ps source seen p).2.
Proof.
  revert seen p. induction ps as [|t ps IH]; intros seen p; cbn; [done|].
  case_bool_decide.
  - specialize (IH seen (trackAffinitySource (pt_Architecture t) (pt_Weight t) source false p)).
    destruct (preferred_loop ps source seen _) as [[ts sk] q]; cbn in *.
    etrans; [apply quiet_trackAffinitySource|exact IH].
  - specialize (IH ({[pt_Architecture t]} ∪ seen)
      (trackAffinitySource (pt_Architecture t) (pt_Weight t) source true p)).
    destruct (preferred_loop ps source _ _) as [[ts sk] q]; cbn in *.
    etrans; [apply quiet_trackAffinitySource|exact IH].
Qed.

Lemma quiet_SetPreferred sc source p : quiet p (SetPreferredArchNodeAffinity sc source p).
Proof.
  unfold SetPreferredArchNodeAffinity. set (p0 := upd (upd_spec ensurePreferred) p).
  assert (quiet p p0) as H0 by (apply (quiet_put_Preferred (λ s, Some (elems (preferred_of s))))).
  pose proof (quiet_preferred_loop (elems (nas_Platforms sc)) source
    (getExistingPreferredArchitectures p0) p0) as H.
  destruct (preferred_loop _ _ _ _) as [[ts sk] q]; cbn [snd] in H.
  assert (quiet p (if bool_decide (ts = []) then q
    else EnsureLabel utils.PreferredNodeAffinityLabel utils.NodeAffinityLabelValueSet
      (upd (upd_spec (λ s, put_Preferred (sappend (preferred_of s) ts) s)) q))) as Hq.
  { etrans; [exact H0|]. etrans; [exact H|]. case_bool_decide; [done|]. quiet_step. auto with go. }
  destruct ts, sk; first [exact Hq | quiet_step; exact Hq].
Qed.

Lemma quiet_archLabel v q :
  v ∈ utils.AllSupportedArchitecturesSet → quiet q (EnsureLabel (utils.ArchLabelValue v) "" q).
Proof.
  intros Hv. apply quiet_EnsureLabel. unfold utils.AllSupportedArchitecturesSet in Hv.
  rewrite !elem_of_union, !elem_of_singleton in Hv.
  destruct Hv as [[[->| ->]| ->]| ->]; intros Heq; vm_compute in Heq; discriminate.
Qed.

Lemma quiet_ensureArchitectureLabels r p : quiet p (ensureArchitectureLabels r p).
Proof.
  unfold ensureArchitectureLabels. destruct (nsr_Values r) as [vs|]; [|done].
  set (p1 := match vs with [] => _ | _ => _ end).
  assert (quiet p p1) as H1 by (unfold p1; destruct vs as [|? [|? ?]]; auto with go).
  etrans; [exact H1|]. generalize p1. clear. induction vs as [|v vs IH]; intros q; cbn; [done|].
  etrans; [|apply IH]. case_bool_decide; [by apply quiet_archLabel|done].
Qed.

Lemma quiet_setRequired r p : quiet p (setRequiredArchNodeAffinity r (ensureRequiredAffinity p)).
Proof. rewrite setRequired_eq. quiet_step. auto with go. Qed.

Lemma quiet_applyPredicate r p : quiet p (applyPredicate r p).
Proof.
  unfold applyPredicate. quiet_step. etrans; [|apply quiet_setRequired].
  etrans; [|apply quiet_ensureArchitectureLabels]. case_bool_decide; [quiet_step|]; auto with go.
Qed.

Lemma quiet_fallback a p : quiet p (setRequiredNodeAffinityToFallbackArchitecture a p).
Proof.
  unfold setRequiredNodeAffinityToFallbackArchitecture. do 2 quiet_step. apply quiet_setRequired.
Qed.

Lemma quiet_override archs p : quiet p (upd (overrideArchitectures archs) p).
Proof.
  destruct p as [[m [nn sel aff g c ic ips] st] rec]. unfold upd; cbn [pod_obj pod_recorder].
  unfold overrideArchitectures, applyArchitectureNodeAffinity. rewrite removeSelector_eq.
  case_bool_decide; [by repeat split|]. unfold upd_spec; cbn [p_Spec p_Meta p_ContainerStatuses].
  case_bool_decide; by repeat split.
Qed.

Section reconciler.
Context {W : Type} {celService : CelService W} {imageService : ImageService W}
  {rangeOrder : RangeOrder}.

Lemma quiet_applyCelResult ppc r p : quiet p (applyCelResult ppc r p).1.
Proof.
  unfold applyCelResult. destruct (er_allRulesErrored r); [done|]. case_bool_decide; [done|].
  cbn [fst]. destruct (er_matched r); quiet_step; quiet_step; apply quiet_override.
Qed.

Lemma quiet_applyCEL ppc p (w : W) : quiet p (applyCELArchitecturePlacement ppc p w).1.2.
Proof.
  unfold applyCELArchitecturePlacement. destruct (negb _); [done|].
  destruct (ppc_cel ppc) as [c|]; [|done]. destruct (cel_place _ _ _ w) as [w' [r|e]].
  - pose proof (quiet_applyCelResult ppc r p). by destruct (applyCelResult ppc r p).
  - apply quiet_PublishEvent.
Qed.

Lemma quiet_cel_loop ppcs p (w : W) : quiet p (cel_loop ppcs p w).1.2.
Proof.
  revert p w. induction ppcs as [|ppc ppcs IH]; intros p w; cbn; [done|].
  pose proof (quiet_applyCEL ppc p w) as H.
  destruct (applyCELArchitecturePlacement ppc p w) as [[w' q] []]; cbn in *; [done|].
  etrans; [exact H|apply IH].
Qed.

Lemma quiet_foldl {A} (f : Pod → A → Pod) l p :
  (∀ q x, quiet q (f q x)) → quiet p (foldl f p l).
Proof.
  intros Hf. revert p. induction l as [|x l IH]; intros p; cbn; [done|].
  etrans; [apply Hf|apply IH].
Qed.

Lemma quiet_scoring_step q ppc : quiet q (scoring_step q ppc).
Proof.
  unfold scoring_step. destruct (negb _); [done|]. destruct (ppc_scoring ppc); [|done].
  apply quiet_SetPreferred.
Qed.

Lemma quiet_track_skipped source p sc : quiet p (track_skipped source p sc).
Proof. apply quiet_foldl. intros q t. apply quiet_trackAffinitySource. Qed.

Lemma quiet_applyMatchingPPCs sort matching b p (w : W) :
  quiet p (applyMatchingPPCs sort matching b p w).1.2.
Proof.
  unfold applyMatchingPPCs. pose proof (quiet_cel_loop (sort matching) p w) as H.
  destruct (cel_loop (sort matching) p w) as [[w' q] c]; cbn in H. destruct b; [done|].
  cbn [fst snd]. etrans; [exact H|]. apply quiet_foldl, quiet_scoring_step.
Qed.

Lemma quiet_trackSkipped sort cppc matching p :
  quiet p (trackSkippedMatchingConfigs sort cppc matching p).
Proof.
  unfold trackSkippedMatchingConfigs.
  assert (∀ q x, quiet q (track_skipped_ppc q x)) as H1.
  { intros q x. unfold track_skipped_ppc. destruct (negb _); [done|].
    destruct (ppc_scoring x); [apply quiet_track_skipped|done]. }
  pose proof (quiet_foldl track_skipped_ppc (sort (sort matching)) p H1) as H2.
  destruct (enabled_cppc_scoring cppc); [|done]. etrans; [exact H2|apply quiet_track_skipped].
Qed.

Lemma quiet_SetNodeAffinity secrets p (w : W) :
  quiet p (SetNodeAffinityArchRequirement secrets p w).1.2.
Proof.
  unfold SetNodeAffinityArchRequirement. pose proof (quiet_configured p) as H.
  destruct (isNodeSelectorConfiguredForArchitecture p) as [[] q]; cbn [fst snd] in *.
  - etrans; [exact H|apply quiet_publishIgnorePod].
  - destruct (getArchitecturePredicate secrets q w) as [w' [r|e]]; cbn [fst snd]; [|done].
    etrans; [exact H|apply quiet_applyPredicate].
Qed.

Lemma quiet_publishNoPreferred p : quiet p (publishNoPreferred p).
Proof. unfold publishNoPreferred. case_bool_decide; [auto with go|done]. Qed.

(** The pod between the decision not to ignore it and the image inspection. *)
Definition configured_pod (env : Env) (matching : list PodPlacementConfig) (p0 : Pod) (w : W) :
    W * Pod * bool :=
  let hasPreferred := isPreferredAffinityConfiguredForArchitecture p0 in
  let '(w1, p1, celApplied) := applyMatchingPPCs (env_sort env) matching hasPreferred p0 w in
  (w1, if hasPreferred then trackSkippedMatchingConfigs (env_sort env) (env_cppc env) matching p1
       else match enabled_cppc_scoring (env_cppc env) with
            | Some sc => SetPreferredArchNodeAffinity sc ClusterPodPlacementConfigKind p1
            | None => p1
            end, celApplied).

Lemma quiet_configured_pod env matching p0 (w : W) : quiet p0 (configured_pod env matching p0 w).1.2.
Proof.
  unfold configured_pod.
  pose proof (quiet_applyMatchingPPCs (env_sort env) matching
    (isPreferredAffinityConfiguredForArchitecture p0) p0 w) as H.
  destruct (applyMatchingPPCs _ _ _ p0 w) as [[w1 p1] c]; cbn [fst snd] in *.
  etrans; [exact H|]. destruct (isPreferredAffinityConfiguredForArchitecture p0).
  - apply quiet_trackSkipped.
  - destruct (enabled_cppc_scoring _); [apply quiet_SetPreferred|done].
Qed.

(** [processPod] in terms of [configured_pod]. *)
Lemma processPod_eq env p (w : W) :
  processPod env p w =
  match listPPCs env (pod_Namespace p) with
  | Err e => (w, handleError (Some e) p)
  | Ok items =>
      let matching := filterMatchingPPCs (env_keyOk env) (env_valueOk env) items p in
      let '(ignore, p0) := shouldIgnorePod (env_operatorNamespace env) (env_cppc env) matching p in
      if ignore
      then (w, PublishEvent EventTypeWarning ArchitectureAwareGatedPodIgnored
                 ArchitectureAwareGatedPodIgnoredMsg (RemoveSchedulingGate p0))
      else
        let '(w1, p2, celApplied) := configured_pod env matching p0 w in
        if celApplied then (w1, RemoveSchedulingGate (publishNoPreferred p2))
        else imageBased env p2 w1
  end.
Proof.
  unfold processPod, configured_pod. destruct (listPPCs _ _); [|done]. cbn zeta.
  destruct (shouldIgnorePod _ _ _ p) as [[] p0]; [done|].
  by destruct (applyMatchingPPCs _ _ _ p0 w) as [[w1 p1] c].
Qed.

(** ** When the gate is removed *)

Lemma gate_RemoveSchedulingGate p : HasSchedulingGate (RemoveSchedulingGate p) = false.
Proof. apply HasGate_RemoveGate_eq. Qed.

Lemma error_count_handleError e p :
  error_count (handleError (Some e) p) = Some (next_count (error_count p)).
Proof. apply count_handleError. Qed.

Lemma maxRetries_Some p v :
  error_count p = Some v →
  maxRetries p = match parseInt32 v with None => true | Some n => (MaxRetryCount <=? n)%Z end.
Proof.
  unfold error_count, maxRetries, mget. intros Hv. rewrite Hv. cbn [from_option id].
  by destruct (pod_Labels p).
Qed.

(** How the image-based part ends: ungated, or gated with one more error
    counted and retries left. *)
Lemma imageBased_cases env p (w : W) :
  let q := (imageBased env p w).2 in
  HasSchedulingGate q = false
  ∨ (pod_Gates q = pod_Gates p ∧ maxRetries q = false
     ∧ error_count q = Some (next_count (error_count p))).
Proof.
  unfold imageBased, pullSecretDataList. cbn [err_of handleError].
  set (secrets := omap _ _).
  pose proof (quiet_SetNodeAffinity secrets p w) as (_ & Hc & Hg).
  destruct (SetNodeAffinityArchRequirement secrets p w) as [[w' q] [b|e]]; cbn [err_of fst snd] in *.
  { left. rewrite bool_decide_eq_true_2 by done. cbn [orb snd]. apply gate_RemoveSchedulingGate. }
  rewrite bool_decide_eq_false_2 by done. cbn [orb].
  set (p2 := handleError (Some e) q).
  assert (error_count p2 = Some (next_count (error_count p))) as Hp2
    by (unfold p2; by rewrite error_count_handleError, Hc).
  destruct (maxRetries p2) eqn:Hm; [|right; rewrite Hm; cbn [snd]; auto].
  left. set (p3 := match env_cppc env with Some c => _ | None => _ end).
  assert (quiet p2 p3) as (_ & H3 & _).
  { unfold p3. destruct (env_cppc env) as [c|]; [|auto with go].
    case_bool_decide; [auto with go|]. etrans; [|apply quiet_fallback]. auto with go. }
  rewrite Hp2 in H3. rewrite (maxRetries_Some p3 _ H3), <-(maxRetries_Some p2 _ Hp2), Hm.
  cbn [snd]. apply gate_RemoveSchedulingGate.
Qed.

Lemma gate_kept_cases env p (w : W) :
  let q := (processPod env p w).2 in
  HasSchedulingGate q = true →
  (is_ok (listPPCs env (pod_Namespace p)) = false
   ∨ maxRetries q = false)
  ∧ error_count q = Some (next_count (error_count p)).
Proof.
  intros q. unfold q. rewrite processPod_eq. destruct (listPPCs env _) as [items|e]; cbn [is_ok].
  2: { intros _. split; [by left|]. apply error_count_handleError. }
  cbn zeta. set (matching := filterMatchingPPCs _ _ items p).
  pose proof (quiet_shouldIgnorePod (env_operatorNamespace env) (env_cppc env) matching p)
    as (_ & Hc0 & Hg0).
  destruct (shouldIgnorePod _ _ matching p) as [[] p0]; cbn [snd] in *.
  { intros H. change (HasSchedulingGate (RemoveSchedulingGate p0) = true) in H.
    by rewrite gate_RemoveSchedulingGate in H. }
  pose proof (quiet_configured_pod env matching p0 w) as (_ & Hc2 & Hg2).
  destruct (configured_pod env matching p0 w) as [[w1 p2] []]; cbn [fst snd] in *.
  { intros H. by rewrite gate_RemoveSchedulingGate in H. }
  intros H. destruct (imageBased_cases env p2 w1) as [Hi|(Hg & Hm & Hc)]; [congruence|].
  split; [by right|]. by rewrite Hc, Hc2, Hc0.
Qed.

(** A gated pod stays gated after a reconcile only when the configurations
    could not be listed, or when its images could not be inspected and fewer
    than the maximum number of failures were counted, this one included; a
    reconcile that cannot list the configurations leaves the spec as it is. *)
Theorem processPod_gate_kept env p (w : W) :
  let q := (processPod env p w).2 in
  (HasSchedulingGate q = true →
   (is_ok (listPPCs env (pod_Namespace p)) = false ∨ maxRetries q = false)
   ∧ error_count q = Some (next_count (error_count p)))
  ∧ (is_ok (listPPCs env (pod_Namespace p)) = false → spec_of q = spec_of p).
Proof.
  split; [apply gate_kept_cases|]. unfold processPod.
  destruct (listPPCs env (pod_Namespace p)); [done|]. intros _. apply spec_of_handleError.
Qed.

(** ** Bounded retries *)

(** The reconciles of one pod while it is gated; each finds the pod as the
    previous one left it. *)
Fixpoint reconciles (envs : list Env) (p : Pod) (w : W) : W * Pod :=
  match envs with
  | [] => (w, p)
  | env :: envs' =>
      if HasSchedulingGate p
      then let '(w', q) := processPod env p w in reconciles envs' q w'
      else (w, p)
  end.

Lemma reconciles_ungated envs p (w : W) :
  HasSchedulingGate p = false → reconciles envs p w = (w, p).
Proof. intros H. destruct envs; cbn; by rewrite ?H. Qed.

Lemma next_count_small (n : Z) :
  (0 ≤ n ≤ MaxRetryCount)%Z →
  next_count (if (n =? 0)%Z then None else Some (sprintd n)) = sprintd (n + 1).
Proof.
  intros Hn. destruct (n =? 0)%Z eqn:E.
  - apply Z.eqb_eq in E. by subst.
  - rewrite next_count_step by lia.
    rewrite (proj2 (Z.leb_le _ _)); [done|]. unfold maxInt32, MaxRetryCount in *. lia.
Qed.

Lemma reconciles_bounded envs p (w : W) (n : Z) :
  Forall (λ env, ∀ ns, is_ok (listPPCs env ns) = true) envs →
  error_count p = (if (n =? 0)%Z then None else Some (sprintd n)) →
  (0 ≤ n)%Z → (n + Z.of_nat (length envs) = MaxRetryCount)%Z →
  envs ≠ [] →
  HasSchedulingGate (reconciles envs p w).2 = false.
Proof.
  revert p w n. induction envs as [|env envs IH]; intros p w n Hl Hc Hn Hlen Hne; [done|].
  apply Forall_cons in Hl as [Hl1 Hl2]. cbn [reconciles length] in *.
  destruct (HasSchedulingGate p) eqn:Hg; [|done].
  pose proof (gate_kept_cases env p w) as Hk. cbn zeta in Hk.
  destruct (processPod env p w) as [w' q]; cbn [snd] in Hk.
  destruct (HasSchedulingGate q) eqn:Hq; [|by rewrite reconciles_ungated].
  destruct (Hk eq_refl) as [[Hf|Hm] Hcq]; [by rewrite Hl1 in Hf|].
  rewrite Hc, next_count_small in Hcq by lia.
  rewrite (maxRetries_count q (n + 1)) in Hm by (done || lia). apply Z.leb_gt in Hm.
  apply (IH q w' (n + 1)%Z); [done| |lia|lia|].
  - rewrite Hcq. by destruct (n + 1 =? 0)%Z eqn:E; [apply Z.eqb_eq in E; lia|].
  - intros ->. cbn in Hlen. lia.
Qed.

(** No pod stays gated forever because of its images: whatever the registry
    answers, once the configurations can be listed five reconciles of a pod that
    had no failure yet remove the gate. *)
Theorem ungated_within_max_retries envs p (w : W) :
  error_count p = None →
  Forall (λ env, ∀ ns, is_ok (listPPCs env ns) = true) envs →
  length envs = 5 →
  HasSchedulingGate (reconciles envs p w).2 = false.
Proof.
  intros Hc Hl Hlen. apply (reconciles_bounded envs p w 0); try done.
  - by rewrite Hlen.
  - by intros ->.
Qed.

(** ** The fallback architecture *)

Lemma labels_RemoveGate g p : pod_Labels (RemoveGate g p) = pod_Labels p.
Proof. unfold RemoveGate. by destruct (negb _). Qed.

Lemma labels_publishNoPreferred p : pod_Labels (publishNoPreferred p) = pod_Labels p.
Proof. unfold publishNoPreferred. by case_bool_decide. Qed.

Lemma spec_of_publishNoPreferred p : spec_of (publishNoPreferred p) = spec_of p.
Proof. unfold publishNoPreferred. by case_bool_decide. Qed.

Lemma admits_RemoveSchedulingGate `{!NodeEval} n p :
  admits n (spec_of (RemoveSchedulingGate p)) = admits n (spec_of p).
Proof. unfold RemoveSchedulingGate, RemoveGate. by destruct (negb _). Qed.

Lemma spec_of_SetNodeAffinity_err secrets p q e (w w' : W) :
  SetNodeAffinityArchRequirement secrets p w = (w', q, Err e) → spec_of q = spec_of p.
Proof.
  unfold SetNodeAffinityArchRequirement.
  pose proof (spec_of_isNodeSelectorConfigured p) as Hs.
  destruct (isNodeSelectorConfiguredForArchitecture p) as [[] p']; [done|].
  destruct (getArchitecturePredicate secrets p' w) as [w'' [r|x]]; [done|].
  by intros [= _ <- _].
Qed.

(** When the last retry fails and the cluster configuration names a fallback
    architecture, the pod is ungated with that architecture required in every
    term on which the user had not decided, and labelled with it. *)
Theorem fallback_after_max_retries env c e q p (w w' : W) `{!NodeEval} :
  let f := cs_FallbackArchitecture (cppc_Spec c) in
  let r := mkNSR utils.ArchLabel NodeSelectorOpIn (Some [f]) in
  env_cppc env = Some c → f ≠ "" →
  SetNodeAffinityArchRequirement
    (omap (secretData env (pod_Namespace p)) (getPodImagePullSecrets p)) p w = (w', q, Err e) →
  maxRetries (handleError (Some e) q) = true →
  let out := (imageBased env p w).2 in
  HasSchedulingGate out = false
  ∧ mlookup (pod_Labels out) utils.FallbackArchitectureLabel = Some f
  ∧ ∀ n, admits n (spec_of out) =
         nodeSelectorMatch n (ps_NodeSelector (spec_of p))
         && existsb (term_admits r n) (patched_terms (spec_of p)).
Proof.
  intros f r Hcppc Hf Hset Hm out. unfold out, imageBased, pullSecretDataList.
  cbn [err_of handleError]. rewrite Hset. cbn [err_of].
  rewrite bool_decide_eq_false_2 by done. cbn [orb]. rewrite Hm, Hcppc.
  rewrite bool_decide_eq_false_2 by done. fold f.
  set (p2 := PublishEvent _ _ _ (handleError (Some e) q)).
  assert (spec_of p2 = spec_of p) as Hp2
    by (unfold p2; rewrite spec_of_PublishEvent, spec_of_handleError;
        by eapply spec_of_SetNodeAffinity_err).
  pose proof (spec_of_fallback f p2) as Hsf. fold r in Hsf.
  set (p3 := setRequiredNodeAffinityToFallbackArchitecture f p2) in *.
  assert (maxRetries p3 = true) as ->.
  { pose proof (quiet_fallback f p2) as (_ & H3 & _).
    rewrite (error_count_handleError e q : error_count p2 = _) in H3.
    rewrite (maxRetries_Some p3 _ H3).
    by rewrite <-(maxRetries_Some (handleError (Some e) q) _ (error_count_handleError e q)). }
  cbn [snd]. split; [apply gate_RemoveSchedulingGate|]. split.
  - unfold RemoveSchedulingGate. rewrite pod_Labels_EnsureLabel, mlookup_mensure_ne by discriminate.
    rewrite labels_RemoveGate, labels_publishNoPreferred.
    unfold p3, setRequiredNodeAffinityToFallbackArchitecture.
    by rewrite labels_PublishEvent, pod_Labels_EnsureLabel, mlookup_mensure_eq.
  - intros n. rewrite admits_RemoveSchedulingGate, spec_of_publishNoPreferred, Hsf, Hp2.
    apply admits_patch.
Qed.

End reconciler.

(** ** Precedence of the CEL plugin *)

(** When the CEL plugin of some matching configuration applies, the gate is
    removed without consulting the image inspection at all: any two image
    services give the same result. *)
Theorem cel_skips_image_inspection {W : Type} {celService : CelService W} {rangeOrder : RangeOrder}
    (I1 I2 : ImageService W) env items p p0 (w : W) :
  listPPCs env (pod_Namespace p) = Ok items →
  let matching := filterMatchingPPCs (env_keyOk env) (env_valueOk env) items p in
  shouldIgnorePod (env_operatorNamespace env) (env_cppc env) matching p = (false, p0) →
  (cel_loop (env_sort env matching) p0 w).2 = true →
  processPod (imageService := I1) env p w = processPod (imageService := I2) env p w
  ∧ HasSchedulingGate (processPod (imageService := I1) env p w).2 = false.
Proof.
  intros Hl matching Hi Hcel.
  assert (Hc : (configured_pod env matching p0 w).2 = true).
  { unfold configured_pod, applyMatchingPPCs.
    destruct (cel_loop (env_sort env matching) p0 w) as [[w1 q1] b]; cbn in Hcel. subst b.
    by destruct (isPreferredAffinityConfiguredForArchitecture p0). }
  rewrite !processPod_eq, Hl. cbn zeta. fold matching. rewrite Hi.
  destruct (configured_pod env matching p0 w) as [[w1 p2] b]; cbn in Hc. subst b.
  split; [done|]. apply gate_RemoveSchedulingGate.
Qed.

(** ** The order of equal priorities *)

Lemma sort_unique s1 s2 l :
  sort_ok s1 → sort_ok s2 → NoDup (ppc_Priority <$> l) → s1 l = s2 l.
Proof.
  intros H1 H2 Hnd. destruct (H1 l) as [P1 S1], (H2 l) as [P2 S2].
  apply (sorted_perm_unique ppc_Priority); try done.
  - by rewrite P1.
  - by rewrite P1, P2.
Qed.

Lemma filterMatching_NoDup keyOk valueOk items p :
  NoDup (ppc_Priority <$> items) →
  NoDup (ppc_Priority <$> filterMatchingPPCs keyOk valueOk items p).
Proof.
  unfold filterMatchingPPCs. induction items as [|c items IH]; cbn; [done|].
  intros [Hc Hnd]%NoDup_cons. destruct (matchesPod keyOk valueOk p c); cbn; [|by apply IH].
  constructor; [|by apply IH]. intros Hin. apply Hc.
  apply list_elem_of_fmap in Hin as (x & Hx & Hin). apply list_elem_of_fmap. exists x.
  split; [done|]. apply list_elem_of_In, filter_In in Hin as [Hin _]. by apply list_elem_of_In.
Qed.

Definition with_sort (sort : list PodPlacementConfig → list PodPlacementConfig) (env : Env) : Env :=
  mkEnv (env_operatorNamespace env) (env_cppc env) (env_listCached env) (env_listAPI env)
    (env_keyOk env) (env_valueOk env) sort (env_getSecret env) (env_auths env).

(** The priorities of a namespace are distinct (the validating webhook sees to
    it); the result of a reconcile then does not depend on how the unstable sort
    orders equal elements. *)
Theorem processPod_sort_independent {W : Type} {celService : CelService W}
    {imageService : ImageService W} {rangeOrder : RangeOrder} s1 s2 env items p (w : W) :
  sort_ok s1 → sort_ok s2 →
  listPPCs env (pod_Namespace p) = Ok items → NoDup (ppc_Priority <$> items) →
  processPod (with_sort s1 env) p w = processPod (with_sort s2 env) p w.
Proof.
  intros H1 H2 Hl Hnd. rewrite !processPod_eq.
  change (listPPCs (with_sort s1 env)) with (listPPCs env).
  change (listPPCs (with_sort s2 env)) with (listPPCs env). rewrite Hl. cbn zeta.
  change (env_keyOk (with_sort s1 env)) with (env_keyOk env).
  change (env_keyOk (with_sort s2 env)) with (env_keyOk env).
  change (env_valueOk (with_sort s1 env)) with (env_valueOk env).
  change (env_valueOk (with_sort s2 env)) with (env_valueOk env).
  set (matching := filterMatchingPPCs _ _ items p).
  assert (Hm : NoDup (ppc_Priority <$> matching)) by (by apply filterMatching_NoDup).
  assert (E1 : s1 matching = s2 matching) by (by apply sort_unique).
  assert (E2 : s1 (s1 matching) = s2 (s2 matching)).
  { rewrite E1. apply sort_unique; try done. by rewrite (proj1 (H2 matching)). }
  change (env_operatorNamespace (with_sort s1 env)) with (env_operatorNamespace (with_sort s2 env)).
  change (env_cppc (with_sort s1 env)) with (env_cppc (with_sort s2 env)).
  destruct (shouldIgnorePod _ _ matching p) as [[] p0]; [done|].
  assert (configured_pod (with_sort s1 env) matching p0 w = configured_pod (with_sort s2 env) matching p0 w)
    as ->; [|done].
  unfold configured_pod, applyMatchingPPCs, trackSkippedMatchingConfigs, with_sort; cbn [env_sort env_cppc].
  by rewrite E2, E1.
Qed.

(** ** What the API server sees *)

Section directives.
Context {W : Type} {celService : CelService W} {imageService : ImageService W}
  {rangeOrder : RangeOrder}.

(** The scheduling directives of a pod without empty terms stay within KEP-3838. *)
Definition tightened (p q : Pod) : Prop :=
  no_empty_terms (spec_of p) → directives_ok (spec_of p) (spec_of q) ∧ no_empty_terms (spec_of q).

#[local] Instance tightened_preorder : PreOrder tightened.
Proof.
  split; [intros p Hp; by split|].
  intros p q r Hpq Hqr Hp. destruct (Hpq Hp) as [H1 Hq]. destruct (Hqr Hq) as [H2 Hr].
  split; [by etrans|done].
Qed.

Lemma tightened_spec_eq p q : spec_of q = spec_of p → tightened p q.
Proof. unfold tightened. intros -> Hp. by split. Qed.

Lemma tightened_SetPreferred sc source p : tightened p (SetPreferredArchNodeAffinity sc source p).
Proof.
  intros Hp. rewrite spec_of_SetPreferred. split; [auto with go|].
  unfold no_empty_terms, required_terms in *. by rewrite required_of_put_Preferred.
Qed.

Lemma tightened_patch r p q :
  spec_of q = put_Required (patchSelector r (default (mkNS None) (required_of (spec_of p)))) (spec_of p) →
  tightened p q.
Proof. intros Hq Hp. rewrite Hq. split; [by apply directives_ok_patch|apply no_empty_terms_patch]. Qed.

Lemma tightened_foldl {A} (f : Pod → A → Pod) l p :
  (∀ q x, tightened q (f q x)) → tightened p (foldl f p l).
Proof.
  intros Hf. revert p. induction l as [|x l IH]; intros p; cbn; [reflexivity|].
  etrans; [apply Hf|apply IH].
Qed.

Lemma tightened_RemoveSchedulingGate p : tightened p (RemoveSchedulingGate p).
Proof.
  intros Hp. unfold RemoveSchedulingGate, RemoveGate. rewrite spec_of_EnsureLabel.
  destruct (negb _); [by split|]. rewrite spec_of_upd_spec. split; [|done]. apply directives_ok_gates.
  apply Forall_forall. intros g Hg. cbn in Hg. apply list_elem_of_In, filter_In in Hg as [Hg _]. by apply list_elem_of_In.
Qed.

Lemma cel_loop_disabled ppcs p (w : W) :
  Forall (λ c, PPC_PluginsEnabled c CelArchitecturePlacementPluginName = false) ppcs →
  cel_loop ppcs p w = (w, p, false).
Proof.
  induction 1 as [|c ppcs Hc _ IH]; cbn; [done|].
  unfold applyCELArchitecturePlacement. rewrite Hc. exact IH.
Qed.

Lemma tightened_track_skipped source p sc : tightened p (track_skipped source p sc).
Proof.
  apply tightened_foldl. intros q t. apply tightened_spec_eq, spec_of_trackAffinitySource.
Qed.

Lemma tightened_configured_pod env matching p (w : W) :
  sort_ok (env_sort env) →
  Forall (λ c, PPC_PluginsEnabled c CelArchitecturePlacementPluginName = false) matching →
  tightened p (configured_pod env matching p w).1.2.
Proof.
  intros Hs Hm. unfold configured_pod, applyMatchingPPCs.
  rewrite cel_loop_disabled by (by rewrite (proj1 (Hs matching))).
  destruct (isPreferredAffinityConfiguredForArchitecture p); cbn [fst snd].
  - unfold trackSkippedMatchingConfigs.
    assert (tightened p (foldl track_skipped_ppc p (env_sort env (env_sort env matching)))) as H.
    { apply tightened_foldl. intros q x. unfold track_skipped_ppc.
      destruct (negb _); [reflexivity|]. destruct (ppc_scoring x); [|reflexivity].
      apply tightened_track_skipped. }
    destruct (enabled_cppc_scoring _); [|done]. etrans; [exact H|apply tightened_track_skipped].
  - assert (tightened p (foldl scoring_step p (env_sort env matching))) as H.
    { apply tightened_foldl. intros q x. unfold scoring_step.
      destruct (negb _); [reflexivity|]. destruct (ppc_scoring x); [|reflexivity].
      apply tightened_SetPreferred. }
    destruct (enabled_cppc_scoring _); [|done]. etrans; [exact H|apply tightened_SetPreferred].
Qed.

Lemma tightened_imageBased env p (w : W) : tightened p (imageBased env p w).2.
Proof.
  unfold imageBased, pullSecretDataList. cbn [err_of handleError]. set (secrets := omap _ _).
  assert (tightened p (SetNodeAffinityArchRequirement secrets p w).1.2) as H1.
  { pose proof (spec_of_SetNodeAffinity secrets p w) as Hs.
    destruct (isNodeSelectorConfiguredForArchitecture p).1; [by apply tightened_spec_eq|].
    destruct (getArchitecturePredicate secrets p w).2; [by eapply tightened_patch|by apply tightened_spec_eq]. }
  destruct (SetNodeAffinityArchRequirement secrets p w) as [[w' q] o]; cbn [fst snd] in H1.
  set (p2 := handleError (err_of o) q).
  assert (tightened p p2) as H2
    by (etrans; [exact H1|apply tightened_spec_eq, spec_of_handleError]).
  set (p3 := match err_of o with Some e => _ | None => _ end).
  assert (tightened p p3) as H3.
  { etrans; [exact H2|]. unfold p3. destruct (err_of o) as [e|]; [|reflexivity].
    destruct (maxRetries p2); [|reflexivity].
    destruct (env_cppc env) as [c|]; [|by apply tightened_spec_eq].
    case_bool_decide; [by apply tightened_spec_eq|]. eapply tightened_patch. by rewrite spec_of_fallback. }
  destruct (_ || _); cbn [snd]; [|exact H3]. etrans; [exact H3|].
  etrans; [apply tightened_spec_eq, spec_of_publishNoPreferred|apply tightened_RemoveSchedulingGate].
Qed.

Lemma tightened_processPod env p (w : W) :
  sort_ok (env_sort env) →
  (∀ items, listPPCs env (pod_Namespace p) = Ok items →
    Forall (λ c, PPC_PluginsEnabled c CelArchitecturePlacementPluginName = false)
      (filterMatchingPPCs (env_keyOk env) (env_valueOk env) items p)) →
  tightened p (processPod env p w).2.
Proof.
  intros Hs Hc. rewrite processPod_eq.
  destruct (listPPCs env (pod_Namespace p)) as [items|e];
    [|apply tightened_spec_eq, spec_of_handleError].
  specialize (Hc items eq_refl). cbn zeta. set (matching := filterMatchingPPCs _ _ items p) in *.
  pose proof (shouldIgnorePod_spec (env_operatorNamespace env) (env_cppc env) matching p) as Hi.
  destruct (shouldIgnorePod _ _ matching p) as [[] p0]; cbn [snd] in *.
  - etrans; [by apply tightened_spec_eq|]. apply (tightened_RemoveSchedulingGate p0).
  - etrans; [by apply tightened_spec_eq|].
    pose proof (tightened_configured_pod env matching p0 w Hs Hc) as H1.
    destruct (configured_pod env matching p0 w) as [[w1 p2] []]; cbn [fst snd] in H1.
    + etrans; [exact H1|]. etrans; [apply tightened_spec_eq, spec_of_publishNoPreferred|].
      apply tightened_RemoveSchedulingGate.
    + etrans; [exact H1|]. apply tightened_imageBased.
Qed.

(** C10: the update that a reconcile sends for a gated pod is one that the API server
    accepts, on every branch: ignored, inspected, failed, fallback.  The node selector
    keeps its labels, the required terms of a non-empty list keep their number and each
    its expressions and fields, pod affinity, anti-affinity, containers, pull secrets
    and node name stay as they are, and gates are only removed.  It holds unless the
    user left a required node selector term empty, which the server does not let
    anybody fill, or a matching configuration enables the CEL plugin, which replaces
    terms. *)
Theorem processPod_directives_ok env p (w : W) :
  sort_ok (env_sort env) →
  (∀ items, listPPCs env (pod_Namespace p) = Ok items →
    Forall (λ c, PPC_PluginsEnabled c CelArchitecturePlacementPluginName = false)
      (filterMatchingPPCs (env_keyOk env) (env_valueOk env) items p)) →
  no_empty_terms (spec_of p) →
  directives_ok (spec_of p) (spec_of (processPod env p w).2).
Proof. intros Hs Hc Hn. by apply tightened_processPod. Qed.

End directives.

(** ** The workload and foreign gates *)
Section workload.
Context {W : Type} {celService : CelService W} {imageService : ImageService W}
  {rangeOrder : RangeOrder}.

Definition keeps (p q : Pod) : Prop :=
  same_workload p q ∧ ∀ g, g ≠ utils.SchedulingGateName → HasGate g q = HasGate g p.

#[local] Instance keeps_preorder : PreOrder keeps.
Proof.
  split; [by repeat split|]. intros p q r [H1 H2] [G1 G2]. split; [by etrans|].
  intros g Hg. by rewrite G2, H2.
Qed.

Lemma quiet_keeps p q : quiet p q → keeps p q.
Proof. intros (H & _ & Hg). split; [done|]. intros g _. unfold HasGate. by rewrite Hg. Qed.

Lemma keeps_handleError e p : keeps p (handleError e p).
Proof. destruct e; by repeat split. Qed.

Lemma keeps_RemoveSchedulingGate p : keeps p (RemoveSchedulingGate p).
Proof.
  split.
  - unfold RemoveSchedulingGate, RemoveGate. by destruct (negb _); repeat split.
  - intros g Hg. apply (HasGate_RemoveGate_ne utils.SchedulingGateName g p). congruence.
Qed.

Lemma keeps_imageBased env p (w : W) : keeps p (imageBased env p w).2.
Proof.
  unfold imageBased, pullSecretDataList. cbn [err_of handleError]. set (secrets := omap _ _).
  pose proof (quiet_keeps _ _ (quiet_SetNodeAffinity secrets p w)) as H1.
  destruct (SetNodeAffinityArchRequirement secrets p w) as [[w' q] o]; cbn [fst snd] in H1.
  set (p2 := handleError (err_of o) q).
  assert (keeps p p2) as H2 by (etrans; [exact H1|apply keeps_handleError]).
  set (p3 := match err_of o with Some e => _ | None => _ end).
  assert (keeps p p3) as H3.
  { etrans; [exact H2|]. apply quiet_keeps. unfold p3. destruct (err_of o) as [e|]; [|done].
    destruct (maxRetries p2); [|done]. destruct (env_cppc env) as [c|]; [|auto with go].
    case_bool_decide; [auto with go|]. etrans; [|apply quiet_fallback]. auto with go. }
  destruct (_ || _); cbn [snd]; [|exact H3]. etrans; [exact H3|].
  etrans; [apply quiet_keeps, quiet_publishNoPreferred|apply keeps_RemoveSchedulingGate].
Qed.

(** A reconcile never changes what the pod runs: its name, owners,
    containers, images, pull secrets and node stay as they are, and scheduling
    gates of other controllers stay in place, on every branch, the CEL plugin
    included. *)
Theorem processPod_keeps_workload env p (w : W) :
  let q := (processPod env p w).2 in
  same_workload p q ∧ ∀ g, g ≠ utils.SchedulingGateName → HasGate g q = HasGate g p.
Proof.
  intros q. fold (keeps p q). unfold q. rewrite processPod_eq.
  destruct (listPPCs env (pod_Namespace p)) as [items|e]; [|apply keeps_handleError].
  cbn zeta. set (matching := filterMatchingPPCs _ _ items p).
  pose proof (quiet_keeps _ _ (quiet_shouldIgnorePod (env_operatorNamespace env) (env_cppc env)
    matching p)) as Hi.
  destruct (shouldIgnorePod _ _ matching p) as [[] p0]; cbn [snd] in *; (etrans; [exact Hi|]).
  - apply (keeps_RemoveSchedulingGate p0).
  - pose proof (quiet_keeps _ _ (quiet_configured_pod env matching p0 w)) as H1.
    destruct (configured_pod env matching p0 w) as [[w1 p2] []]; cbn [fst snd] in H1;
      (etrans; [exact H1|]).
    + etrans; [apply quiet_keeps, quiet_publishNoPreferred|]. apply keeps_RemoveSchedulingGate.
    + apply keeps_imageBased.
Qed.

End workload.
