(* ===== verification/Webhook.v ===== *)
(** * The scheduling gate webhook

    [internal/controller/podplacement/scheduling_gate_mutating_webhook.go]: the
    mutating admission of pods.  The response is the pod the patch produces, or
    an error; the write to the labels map that the handler does without a nil
    check is an [outcome]. *)
From stdpp Require Import base gmap strings list sorting.
From S2P Require Import Prelude GoStd Api LabelSelectors NodeMatch Models ArchConstraints.
From S2P Require Import CelEval Events PodModel PodTheorems PodReconciler ReconcilerTheorems.
Import plugins v1beta1 models events.

Inductive Response : Type :=
| Errored (code : Z) (e : GoError)
| Patched (p : CorePod).

Record WebhookEnv := mkWEnv {
  we_operatorNamespace : string;
  we_cppc : option ClusterPodPlacementConfig;
  we_listCached : string → res (list PodPlacementConfig);
  (** [apiReader], nil or its answer *)
  we_apiReader : option (string → res (list PodPlacementConfig));
  (** [ppcCacheSynced], nil or its answer *)
  we_cacheSynced : option bool;
  we_keyOk : string → bool;
  we_valueOk : string → string → bool;
  we_sort : list PodPlacementConfig → list PodPlacementConfig;
  (** the error of [json.Marshal], if any *)
  we_marshal : CorePod → option GoError;
  (** the error of [jsonpatch.CreatePatch] in [admission.PatchResponseFromRaw], if any *)
  we_patch : CorePod → option GoError;
}.

(** [patchedPodResponse] *)
Definition patchedPodResponse (env : WebhookEnv) (p : CorePod) : Response :=
  match we_marshal env p with
  | Some e => Errored 500 e
  | None =>
      match we_patch env p with
      | Some e => Errored 500 e
      | None => Patched p
      end
  end.

(** The listing: an error counts as an empty list, and the API server is asked
    only when the list is empty and the cache not known to be synced. *)
Definition listPPCs_webhook (env : WebhookEnv) (ns : string) : list PodPlacementConfig :=
  let items := match we_listCached env ns with Ok l => l | Err _ => [] end in
  let cacheNotYetSynced := match we_cacheSynced env with None => true | Some b => negb b end in
  match items, we_apiReader env with
  | [], Some api =>
      if cacheNotYetSynced then match api ns with Ok l => l | Err _ => [] end else []
  | _, _ => items
  end.

Section webhook.
Context {W : Type} {celService : CelService W}.

(** The loop of [applyCELInWebhook]. *)
Fixpoint cel_webhook_loop (ppcs : list PodPlacementConfig) (p : Pod) (w : W) : W * Pod :=
  match ppcs with
  | [] => (w, p)
  | ppc :: ppcs' =>
      if negb (PPC_PluginsEnabled ppc CelArchitecturePlacementPluginName)
      then cel_webhook_loop ppcs' p w
      else
        match ppc_cel ppc with
        | None => cel_webhook_loop ppcs' p w
        | Some celPlugin =>
            match cel_place (cel_Rules celPlugin) (cel_FallbackArchitectures celPlugin)
                    (pod_obj p) w with
            | (w', Err _) => cel_webhook_loop ppcs' p w'
            | (w', Ok r) =>
                if er_allRulesErrored r then cel_webhook_loop ppcs' p w'
                else if bool_decide (elems (er_architectures r) = [])
                then cel_webhook_loop ppcs' p w'
                else (w', EnsureLabel utils.NodeAffinityLabel utils.NodeAffinityLabelValueOverriden
                            (upd (overrideArchitectures (er_architectures r)) p))
            end
        end
  end.

(** [applyCELInWebhook] *)
Definition applyCELInWebhook (env : WebhookEnv) (matching : list PodPlacementConfig) (p : Pod)
    (w : W) : W * Pod :=
  cel_webhook_loop (we_sort env matching) p w.

(** The labels set before the decision. *)
Definition initialLabels (cppc : option ClusterPodPlacementConfig)
    (matching : list PodPlacementConfig) (p : Pod) : Pod :=
  let scoring := match cppc with
                 | Some c => CPPC_PluginsEnabled c NodeAffinityScoringPluginName
                 | None => false
                 end in
  let p1 := if scoring || hasMatchingPPCWithPlugin matching
            then EnsureLabel utils.PreferredNodeAffinityLabel utils.LabelValueNotSet p else p in
  EnsureLabel utils.SchedulingGateLabel utils.LabelValueNotSet
    (EnsureLabel utils.NodeAffinityLabel utils.LabelValueNotSet p1).

(** [pod.Labels[k] = v], which panics when the map is nil. *)
Definition writeLabel (k v : string) (p : Pod) : outcome Pod :=
  match mwrite (pod_Labels p) k v with
  | None => Panic
  | Some m => Ret (upd (upd_meta (set_Labels m)) p)
  end.

(** [Handle], after decoding: the pod to answer with, and whether it was gated. *)
Definition mutate (env : WebhookEnv) (obj : CorePod) (recorder : option (list Event)) (w : W) :
    outcome (W * Pod * bool) :=
  let p := NewPod obj recorder in
  let items := listPPCs_webhook env (pod_Namespace p) in
  let matching := filterMatchingPPCs (we_keyOk env) (we_valueOk env) items p in
  let p1 := initialLabels (we_cppc env) matching p in
  let '(ignore, p2) := shouldIgnorePod (we_operatorNamespace env) (we_cppc env) matching p1 in
  if ignore then Ret (w, p2, false)
  else
    let '(w', p3) := applyCELInWebhook env matching p2 w in
    p4 ← writeLabel utils.SchedulingGateLabel utils.SchedulingGateLabelValueGated
           (ensureSchedulingGate p3);
    Ret (w', p4, true).

(** [Handle] *)
Definition Handle (env : WebhookEnv) (decoded : res CorePod) (recorder : option (list Event))
    (w : W) : outcome (W * Response) :=
  match decoded with
  | Err e => Ret (w, Errored 400 e)
  | Ok obj =>
      '(w', p, _) ← mutate env obj recorder w;
      Ret (w', patchedPodResponse env (pod_obj p))
  end.

End webhook.

(** [delayedSchedulingGatedEvent]: the attempts of the exponential backoff (15
    steps) to read the pod; the event is recorded when it is found. *)
Fixpoint gatedEvent_attempts (steps : nat) (gets : nat → res unit) : bool :=
  match steps with
  | 0 => false
  | S n =>
      match gets 0 with
      | Ok _ => true
      | Err e => if isNotFound e then gatedEvent_attempts n (λ i, gets (S i)) else false
      end
  end.

Definition delayedSchedulingGatedEvent (clientSetNil submitFails : bool) (gets : nat → res unit) : bool :=
  negb clientSetNil && negb submitFails && gatedEvent_attempts 15 gets.

(** ** Admission *)
Section admission.
Context {W : Type} {celService : CelService W}.

Lemma labels_set_publishIgnorePod p : pod_Labels (publishIgnorePod p) ≠ None.
Proof. done. Qed.

Lemma labels_set_shouldIgnorePod ns cppc ppcs p :
  pod_Labels p ≠ None → pod_Labels (shouldIgnorePod ns cppc ppcs p).2 ≠ None.
Proof.
  intros Hp. unfold shouldIgnorePod. repeat (destruct (_ : bool); [done|]).
  assert (pod_Labels (isNodeSelectorConfiguredForArchitecture p).2 ≠ None) as H.
  { unfold isNodeSelectorConfiguredForArchitecture. case_bool_decide; [done|].
    by destruct (required_of _). }
  destruct (isNodeSelectorConfiguredForArchitecture p) as [[] q]; cbn [negb snd] in *; [|done].
  by destruct (isPreferredAffinityConfiguredForArchitecture q).
Qed.

Lemma cel_webhook_loop_shape ppcs p (w : W) :
  let q := (cel_webhook_loop ppcs p w).2 in
  q = p ∨ ∃ archs, q = EnsureLabel utils.NodeAffinityLabel utils.NodeAffinityLabelValueOverriden
                         (upd (overrideArchitectures archs) p).
Proof.
  revert w. induction ppcs as [|c ppcs IH]; intros w; cbn; [by left|].
  destruct (negb _); [apply IH|]. destruct (ppc_cel c) as [pl|]; [|apply IH].
  destruct (cel_place _ _ _ w) as [w' [r|e]]; [|apply IH].
  destruct (er_allRulesErrored r); [apply IH|]. case_bool_decide; [apply IH|].
  right. by eexists.
Qed.

Lemma quiet_cel_webhook_loop ppcs p (w : W) : quiet p (cel_webhook_loop ppcs p w).2.
Proof.
  destruct (cel_webhook_loop_shape ppcs p w) as [->|[archs ->]]; [done|].
  quiet_step. apply quiet_override.
Qed.

Lemma labels_set_cel_webhook_loop ppcs p (w : W) :
  pod_Labels p ≠ None → pod_Labels (cel_webhook_loop ppcs p w).2 ≠ None.
Proof. by destruct (cel_webhook_loop_shape ppcs p w) as [->|[archs ->]]. Qed.

Lemma quiet_initialLabels cppc matching p : quiet p (initialLabels cppc matching p).
Proof.
  unfold initialLabels. do 2 quiet_step. destruct (_ || _); [auto with go|done].
Qed.

Lemma spec_of_initialLabels cppc matching p : spec_of (initialLabels cppc matching p) = spec_of p.
Proof. unfold initialLabels. rewrite !spec_of_EnsureLabel. by destruct (_ || _). Qed.

Lemma labels_AddGate g p : pod_Labels (AddGate g p) = pod_Labels p.
Proof. unfold AddGate. by destruct (HasGate g p). Qed.

Lemma same_workload_AddGate g p : same_workload p (AddGate g p).
Proof. unfold AddGate. destruct (HasGate g p); by repeat split. Qed.

Lemma writeLabel_ok k v p :
  pod_Labels p ≠ None → writeLabel k v p = Ret (EnsureLabel k v p).
Proof.
  unfold writeLabel, mwrite. destruct p as [[[? ? ? ? ? [m|] ? ? ?] s st] rec]; cbn; [done|].
  by intros [].
Qed.

(** What the webhook decides and does, for the pod it was sent. *)
Definition ignored_by_webhook (env : WebhookEnv) (obj : CorePod) (recorder : option (list Event)) : bool :=
  let p := NewPod obj recorder in
  let matching := filterMatchingPPCs (we_keyOk env) (we_valueOk env)
                    (listPPCs_webhook env (pod_Namespace p)) p in
  (shouldIgnorePod (we_operatorNamespace env) (we_cppc env) matching
     (initialLabels (we_cppc env) matching p)).1.

(** C9: admission never panics, and refuses a pod that decodes only if the pod it makes
    of it cannot be marshalled or the patch not be computed, with a server error; a
    request that does not decode is answered as a bad request.  A pod that is to be
    ignored keeps its spec; any other pod is returned with the scheduling gate, appended
    once to the gates it had, labelled as gated, with its workload untouched. *)
Theorem webhook_mutate_spec env obj recorder (w : W) :
  ∃ w' p,
    mutate env obj recorder w = Ret (w', p, negb (ignored_by_webhook env obj recorder))
    ∧ Handle env (Ok obj) recorder w = Ret (w',
        match we_marshal env (pod_obj p), we_patch env (pod_obj p) with
        | None, None => Patched (pod_obj p)
        | Some e, _ | None, Some e => Errored 500 e
        end)
    ∧ (∀ e, Handle env (Err e) recorder w = Ret (w, Errored 400 e))
    ∧ same_workload (NewPod obj recorder) p
    ∧ (ignored_by_webhook env obj recorder = true → spec_of p = p_Spec obj)
    ∧ (ignored_by_webhook env obj recorder = false →
       elems (pod_Gates p) =
         (if HasSchedulingGate (NewPod obj recorder) then elems (ps_SchedulingGates (p_Spec obj))
          else elems (ps_SchedulingGates (p_Spec obj)) ++ [utils.SchedulingGateName])
       ∧ mlookup (pod_Labels p) utils.SchedulingGateLabel = Some utils.SchedulingGateLabelValueGated).
Proof.
  unfold Handle, mutate, ignored_by_webhook, patchedPodResponse. cbn zeta.
  set (p := NewPod obj recorder). set (matching := filterMatchingPPCs _ _ _ p).
  set (p1 := initialLabels (we_cppc env) matching p).
  pose proof (quiet_initialLabels (we_cppc env) matching p) as Q1. fold p1 in Q1.
  pose proof (quiet_shouldIgnorePod (we_operatorNamespace env) (we_cppc env) matching p1) as Q2.
  pose proof (shouldIgnorePod_spec (we_operatorNamespace env) (we_cppc env) matching p1) as S2.
  pose proof (labels_set_shouldIgnorePod (we_operatorNamespace env) (we_cppc env) matching p1) as L2.
  destruct (shouldIgnorePod _ _ matching p1) as [[] p2]; cbn [fst snd negb] in *.
  - exists w, p2. do 3 (split; [done|]). split; [etrans; [apply Q1|apply Q2]|]. split; [|done].
    intros _. rewrite S2. apply (spec_of_initialLabels (we_cppc env) matching p).
  - unfold applyCELInWebhook.
    pose proof (quiet_cel_webhook_loop (we_sort env matching) p2 w) as Q3.
    pose proof (labels_set_cel_webhook_loop (we_sort env matching) p2 w) as L3.
    destruct (cel_webhook_loop (we_sort env matching) p2 w) as [w' p3]; cbn [snd] in *.
    assert (quiet p p3) as Q by (etrans; [exact Q1|]; etrans; [exact Q2|exact Q3]).
    unfold ensureSchedulingGate. rewrite writeLabel_ok by (rewrite labels_AddGate; auto).
    exists w', (EnsureLabel utils.SchedulingGateLabel utils.SchedulingGateLabelValueGated
      (AddGate utils.SchedulingGateName p3)).
    do 3 (split; [done|]). split; [|split; [done|]].
    + etrans; [apply Q|]. apply (same_workload_AddGate _ p3).
    + intros _. split; [|apply mlookup_mensure_eq].
      change (pod_Gates (EnsureLabel utils.SchedulingGateLabel utils.SchedulingGateLabelValueGated
        (AddGate utils.SchedulingGateName p3))) with (pod_Gates (AddGate utils.SchedulingGateName p3)).
      rewrite elems_AddGate. destruct Q as (_ & _ & Hg).
      unfold HasSchedulingGate, HasGate. by rewrite Hg.
Qed.

End admission.

(** ** Webhook and reconciler make the same choice *)
Section agreement.
Context {W : Type} {celService : CelService W} {celOk : CelServiceOk W}.

(** The choice both loops implement: the architectures of the first
    configuration, in order, whose plugin is enabled, is not malformed and
    yields some architecture. *)
Definition ppc_choice (obj : CorePod) (c : PodPlacementConfig) : option (GoSlice string) :=
  if negb (PPC_PluginsEnabled c CelArchitecturePlacementPluginName) then None
  else
    match ppc_cel c with
    | None => None
    | Some pl =>
        match cel_fun (cel_Rules pl) (cel_FallbackArchitectures pl) obj with
        | Err _ => None
        | Ok r => if er_allRulesErrored r || bool_decide (elems (er_architectures r) = [])
                  then None else Some (er_architectures r)
        end
    end.

Fixpoint cel_choice (obj : CorePod) (ppcs : list PodPlacementConfig) : option (GoSlice string) :=
  match ppcs with
  | [] => None
  | c :: ppcs' => match ppc_choice obj c with Some a => Some a | None => cel_choice obj ppcs' end
  end.

(** What the choice does to the object. *)
Definition enact (choice : option (GoSlice string)) (p : Pod) : Pod :=
  match choice with
  | None => p
  | Some a => EnsureLabel utils.NodeAffinityLabel utils.NodeAffinityLabelValueOverriden
                (upd (overrideArchitectures a) p)
  end.

Lemma cel_webhook_loop_choice ppcs p (w : W) :
  cel_inv w →
  (cel_webhook_loop ppcs p w).2 = enact (cel_choice (pod_obj p) ppcs) p
  ∧ cel_inv (cel_webhook_loop ppcs p w).1.
Proof.
  revert w. induction ppcs as [|c ppcs IH]; intros w Hw; cbn; [done|]. unfold ppc_choice.
  destruct (negb _); [by apply IH|]. destruct (ppc_cel c) as [pl|]; [|by apply IH].
  pose proof (cel_agree (cel_Rules pl) (cel_FallbackArchitectures pl) (pod_obj p) w Hw) as Ha.
  pose proof (cel_inv_step (cel_Rules pl) (cel_FallbackArchitectures pl) (pod_obj p) w Hw) as Hi.
  destruct (cel_place _ _ _ w) as [w' o]; cbn in Ha, Hi. subst o.
  destruct (cel_fun _ _ _) as [r|e]; [|by apply IH].
  destruct (er_allRulesErrored r); [by apply IH|]. cbn [orb].
  case_bool_decide; [by apply IH|done].
Qed.

Lemma cel_loop_choice ppcs p (w : W) :
  cel_inv w →
  pod_obj (cel_loop ppcs p w).1.2 = pod_obj (enact (cel_choice (pod_obj p) ppcs) p)
  ∧ (cel_loop ppcs p w).2 = bool_decide (is_Some (cel_choice (pod_obj p) ppcs))
  ∧ cel_inv (cel_loop ppcs p w).1.1.
Proof.
  revert p w. induction ppcs as [|c ppcs IH]; intros p w Hw; cbn [cel_loop cel_choice]; [done|].
  unfold ppc_choice, applyCELArchitecturePlacement.
  destruct (negb _); [by apply IH|]. destruct (ppc_cel c) as [pl|]; [|by apply IH].
  pose proof (cel_agree (cel_Rules pl) (cel_FallbackArchitectures pl) (pod_obj p) w Hw) as Ha.
  pose proof (cel_inv_step (cel_Rules pl) (cel_FallbackArchitectures pl) (pod_obj p) w Hw) as Hi.
  destruct (cel_place _ _ _ w) as [w' o]; cbn [fst snd] in Ha, Hi. subst o.
  destruct (cel_fun _ _ _) as [r|e].
  - unfold applyCelResult. destruct (er_allRulesErrored r); [by apply IH|]. cbn [orb].
    case_bool_decide; [by apply IH|]. cbn [fst snd]. split; [by destruct (er_matched r)|done].
  - destruct (IH (PublishEvent EventTypeWarning "CELEvaluationError"
      ("Failed to evaluate CEL rules: " +:+ err_msg e) p) w' Hi) as (H1 & H2 & H3).
    cbn [pod_obj PublishEvent] in H1, H2 |- *. rewrite H1, H2. split; [|done].
    by destruct (cel_choice (pod_obj p) ppcs).
Qed.

Lemma choice_nonempty obj ppcs a : cel_choice obj ppcs = Some a → elems a ≠ [].
Proof.
  induction ppcs as [|c ppcs IH]; cbn; [done|].
  destruct (ppc_choice obj c) as [a'|] eqn:E; [|done]. intros [= ->].
  unfold ppc_choice in E. destruct (negb _); [done|]. destruct (ppc_cel c); [|done].
  destruct (cel_fun _ _ _) as [r|]; [|done]. destruct (_ || _) eqn:Eo; [done|].
  injection E as <-. bools. done.
Qed.

(** C11: on the same pod the webhook and the reconciler take the same decision and
    leave the same object, whatever the state of the shared evaluator. *)
Theorem webhook_reconciler_agree ppcs p (w1 w2 : W) :
  cel_inv w1 → cel_inv w2 →
  pod_obj (cel_loop ppcs p w1).1.2 = pod_obj (cel_webhook_loop ppcs p w2).2.
Proof.
  intros H1 H2. destruct (cel_loop_choice ppcs p w1 H1) as [-> _].
  by destruct (cel_webhook_loop_choice ppcs p w2 H2) as [-> _].
Qed.

(** The reconciler confirms what the webhook chose: if the decision on the
    persisted pod [p'] (same spec, other labels or names) is still the same, the
    CEL plugin applies again and the spec it leaves is the one that was
    persisted, so the update is not refused for its node selector terms. *)
Theorem reconciler_confirms_webhook ppcs p p' (w1 w2 : W) :
  cel_inv w1 → cel_inv w2 →
  is_Some (cel_choice (pod_obj p) ppcs) →
  spec_of p' = spec_of (cel_webhook_loop ppcs p w1).2 →
  cel_choice (pod_obj p') ppcs = cel_choice (pod_obj p) ppcs →
  (cel_loop ppcs p' w2).2 = true
  ∧ spec_of (cel_loop ppcs p' w2).1.2 = spec_of p'.
Proof.
  intros H1 H2 [a Ha] Hs Hc.
  destruct (cel_loop_choice ppcs p' w2 H2) as (E1 & E2 & _).
  destruct (cel_webhook_loop_choice ppcs p w1 H1) as [E3 _].
  rewrite Hc, Ha in *. split; [by rewrite E2|].
  unfold spec_of at 1. rewrite E1. rewrite E3 in Hs. cbn [enact] in *.
  assert (elems a ≠ []) as Hne by (by eapply choice_nonempty).
  change (p_Spec (overrideArchitectures a (pod_obj p')) = spec_of p').
  change (spec_of p' = p_Spec (overrideArchitectures a (pod_obj p))) in Hs.
  rewrite Hs. destruct a as [a|]; [|done].
  assert (∀ o o', p_Spec o = p_Spec o' →
    p_Spec (overrideArchitectures (Some a) o) = p_Spec (overrideArchitectures (Some a) o')) as Hext.
  { intros o o' Ho. rewrite !overrideArchitectures_eq by done. cbn. by rewrite Ho. }
  rewrite (Hext _ (overrideArchitectures (Some a) (pod_obj p)) Hs).
  by rewrite override_twice.
Qed.

End agreement.
