(* ===== verification/Validation.v ===== *)
(** * Validation of the custom resources

    The checks of [api/common/plugins] ([nodeaffinityscoring_plugin.go],
    [celarchitectureplacement_plugin.go]), the priority checks of
    [api/v1beta1/podplacementconfig_types.go], the validating webhooks
    [podplacementconfig_webhook.go] and [clusterpodplacementconfig_webhook.go].

    The reasons of a denial are kept as data instead of formatted messages.  The
    typed CEL environment is the class [ValidationEnv]; a checked expression is
    the tree [Expr], of which the code only looks at identifiers and field
    selections. *)
From stdpp Require Import base gmap strings list relations.
From S2P Require Import Prelude GoStd Api CelEval.
Import plugins v1beta1.

(** ** Checked CEL expressions *)
#[warnings="-register-all"]
Inductive Expr : Type :=
| EIdent (name : string)
| ESelect (operand : Expr) (field : string)
| EOther (children : list Expr).

(** [MatchDescendants] with the matcher that accepts all: post-order. *)
Fixpoint descendants (e : Expr) : list Expr :=
  match e with
  | EIdent _ => [e]
  | ESelect op _ => descendants op ++ [e]
  | EOther cs => flat_map descendants cs ++ [e]
  end.

Definition is_select (e : Expr) : bool :=
  match e with ESelect _ _ => true | _ => false end.

(** [selectPath]: the loop prepends the field names, then the identifier. *)
Fixpoint selectPath_loop (cur : Expr) (segments : list string) : list string :=
  match cur with
  | ESelect op f => selectPath_loop op (f :: segments)
  | EIdent s => s :: segments
  | EOther _ => []
  end.

Definition selectPath (node : Expr) : list string := selectPath_loop node [].

Inductive Denial : Type :=
| DuplicateArchitecture (arch : string)
| InvalidFallbackArchitecture (arch : string)
| InvalidRuleArchitecture (rule arch : string)
| CelEnvironment (msg : string)
| CelCompilation (rule msg : string)
| CelNotBoolean (rule type_name : string)
| CelDisallowedField (rule : string) (path : list string)
| PriorityUsed (priority : Z) (by_name : string).

(** [assertMetadataOnly] *)
Definition disallowed (path : list string) : bool :=
  match path with
  | s :: f :: _ => bool_decide (s = "self") && (bool_decide (f = "spec") || bool_decide (f = "status"))
  | _ => false
  end.

Definition assertMetadataOnly (ast : Expr) (ruleName : string) : option Denial :=
  match List.find (λ n, disallowed (selectPath n)) (List.filter is_select (descendants ast)) with
  | Some n => Some (CelDisallowedField ruleName (tail (selectPath n)))
  | None => None
  end.

(** ** Plugin checks *)

(** [ValidateArchitecturesSet]: the first duplicate, if any. *)
Fixpoint firstDuplicate (seen : gset string) (ts : list NodeAffinityScoringPlatformTerm) :
    option string :=
  match ts with
  | [] => None
  | t :: ts' =>
      if bool_decide (pt_Architecture t ∈ seen) then Some (pt_Architecture t)
      else firstDuplicate ({[pt_Architecture t]} ∪ seen) ts'
  end.

Definition ValidateArchitecturesSet (n : NodeAffinityScoring) : option Denial :=
  DuplicateArchitecture <$> firstDuplicate ∅ (elems (nas_Platforms n)).

(** [ValidateArchitectures] *)
Definition validArch (a : string) : bool :=
  bool_decide (a ∈ [utils.ArchitectureAmd64; utils.ArchitectureArm64;
                    utils.ArchitecturePpc64le; utils.ArchitectureS390x]).

Definition firstInvalid (archs : list string) : option string :=
  List.find (λ a, negb (validArch a)) archs.

Fixpoint firstInvalidRule (rules : list ArchitectureRule) : option Denial :=
  match rules with
  | [] => None
  | r :: rules' =>
      match firstInvalid (elems (ar_Architectures r)) with
      | Some a => Some (InvalidRuleArchitecture (ar_Name r) a)
      | None => firstInvalidRule rules'
      end
  end.

Definition ValidateArchitectures (c : CelArchitecturePlacement) : option Denial :=
  match firstInvalid (elems (cel_FallbackArchitectures c)) with
  | Some a => Some (InvalidFallbackArchitecture a)
  | None => firstInvalidRule (elems (cel_Rules c))
  end.

(** The typed environment of [getOrCreateValidationEnv]. *)
Class ValidationEnv := {
  venv_error : option string;
  venv_Compile : string → Expr + string;
  venv_TypeIsBool : Expr → bool;
  venv_TypeName : Expr → string;
}.

(** [ValidateCELExpressions] *)
Definition ValidateCELExpression `{!ValidationEnv} (r : ArchitectureRule) : option Denial :=
  match venv_Compile (ar_Expression r) with
  | inr msg => Some (CelCompilation (ar_Name r) msg)
  | inl ast =>
      if negb (venv_TypeIsBool ast) then Some (CelNotBoolean (ar_Name r) (venv_TypeName ast))
      else assertMetadataOnly ast (ar_Name r)
  end.

Fixpoint firstDenied {A} (f : A → option Denial) (l : list A) : option Denial :=
  match l with
  | [] => None
  | x :: l' => match f x with Some d => Some d | None => firstDenied f l' end
  end.

Definition ValidateCELExpressions `{!ValidationEnv} (c : CelArchitecturePlacement) : option Denial :=
  match venv_error with
  | Some msg => Some (CelEnvironment msg)
  | None => firstDenied ValidateCELExpression (elems (cel_Rules c))
  end.

(** ** Priorities *)

(** [ValidatePriorityNew] and [ValidatePriorityUpdate] *)
Definition ValidatePriorityNew (p : PodPlacementConfig) (items : list PodPlacementConfig) :
    option Denial :=
  firstDenied (λ item, if bool_decide (ppc_Priority item = ppc_Priority p)
                       then Some (PriorityUsed (ppc_Priority p) (ppc_Name item)) else None) items.

Definition ValidatePriorityUpdate (p old : PodPlacementConfig) (items : list PodPlacementConfig) :
    option Denial :=
  if bool_decide (ppc_Priority p = ppc_Priority old) then None
  else firstDenied (λ item,
         if negb (bool_decide (ppc_Name item = ppc_Name p))
            && bool_decide (ppc_Priority item = ppc_Priority p)
         then Some (PriorityUsed (ppc_Priority p) (ppc_Name item)) else None) items.

(** ** The webhooks *)
Inductive Operation : Set := Create | Update | Delete | Connect.

Inductive Verdict : Type :=
| Allowed
| Denied (d : Denial)
| Refused (code : Z) (msg : string).

(** [PodPlacementConfigWebhook.Handle]: the decoded objects and the answers of
    the API reader. *)
Definition validatePlugins `{!ValidationEnv} (p : PodPlacementConfig) : option Denial :=
  let scoring :=
    if PPC_PluginsEnabled p NodeAffinityScoringPluginName
    then ppc_scoring p ≫= ValidateArchitecturesSet else None in
  match scoring with
  | Some d => Some d
  | None =>
      if PPC_PluginsEnabled p CelArchitecturePlacementPluginName
      then match ppc_cel p with
           | Some c => match ValidateArchitectures c with
                       | Some d => Some d
                       | None => ValidateCELExpressions c
                       end
           | None => None
           end
      else None
  end.

Definition PPC_Handle `{!ValidationEnv} (op : Operation) (ns : string) (decoded : res PodPlacementConfig)
    (getCPPC : option GoError) (list_ : res (list PodPlacementConfig))
    (decodedOld : res PodPlacementConfig) : Verdict :=
  match op with
  | Create | Update =>
      match decoded with
      | Err e => Refused 400 ("failed to decode new PodPlacementConfig: " +:+ err_msg e)
      | Ok newPPC =>
          match getCPPC with
          | Some e =>
              if isNotFound e
              then Refused 400 "ClusterPodPlacementConfig does not exist: you must create a ClusterPodPlacementConfig before creating a namespaced PodPlacementConfig"
              else Refused 500 ("failed to check ClusterPodPlacementConfig: " +:+ err_msg e)
          | None =>
              match validatePlugins newPPC with
              | Some d => Denied d
              | None =>
                  match list_ with
                  | Err e => Refused 500 ("failed to list existing PodPlacementConfigs in namespace "
                                            +:+ quoted ns +:+ ": " +:+ err_msg e)
                  | Ok items =>
                      match op with
                      | Create =>
                          match ValidatePriorityNew newPPC items with
                          | Some d => Denied d
                          | None => Allowed
                          end
                      | _ =>
                          match decodedOld with
                          | Err e => Refused 400 ("failed to decode old PodPlacementConfig: " +:+ err_msg e)
                          | Ok oldPPC =>
                              match ValidatePriorityUpdate newPPC oldPPC items with
                              | Some d => Denied d
                              | None => Allowed
                              end
                          end
                      end
                  end
              end
          end
      end
  | _ => Allowed
  end.

(** [ClusterPodPlacementConfigValidator]: [validate] and [ValidateDelete]. *)
Definition CPPC_validate (c : ClusterPodPlacementConfig) : option Denial :=
  match cppc_scoring c with
  | None => None
  | Some sc => DuplicateArchitecture <$> firstDuplicate ∅ (elems (nas_Platforms sc))
  end.

Definition CPPC_ValidateDelete (list_ : res (list PodPlacementConfig)) : option GoError :=
  match list_ with
  | Err e => Some (mkErr (err_kind e) ("failed to list existing PodPlacementConfigs: " +:+ err_msg e))
  | Ok [] => None
  | Ok _ => Some (errOther "cannot delete ClusterPodPlacementConfig while local PodPlacementConfigs still exist")
  end.

(** ** The field allow-list *)

Section expr_ind.
Context (P : Expr → Prop) (Hid : ∀ s, P (EIdent s)) (Hsel : ∀ e f, P e → P (ESelect e f))
  (Hoth : ∀ cs, Forall P cs → P (EOther cs)).

Fixpoint Expr_ind' (e : Expr) : P e :=
  match e with
  | EIdent s => Hid s
  | ESelect op f => Hsel op f (Expr_ind' op)
  | EOther cs =>
      Hoth cs ((fix go (l : list Expr) : Forall P l :=
        match l with
        | [] => Forall_nil_2 P
        | x :: l' => Forall_cons_2 P x l' (Expr_ind' x) (go l')
        end) cs)
  end.

End expr_ind.

Lemma elem_of_descendants_other x cs :
  x ∈ flat_map descendants cs ↔ ∃ c, c ∈ cs ∧ x ∈ descendants c.
Proof.
  rewrite list_elem_of_In, in_flat_map. by setoid_rewrite list_elem_of_In.
Qed.

Lemma descendants_self e : e ∈ descendants e.
Proof. destruct e; cbn; rewrite ?elem_of_app, ?list_elem_of_singleton; auto. Qed.

Lemma descendants_trans x y e : x ∈ descendants y → y ∈ descendants e → x ∈ descendants e.
Proof.
  intros Hx. induction e as [s|op f IH|cs IH] using Expr_ind'; cbn [descendants].
  - by intros ->%list_elem_of_singleton.
  - rewrite elem_of_app, list_elem_of_singleton. intros [Hy| ->]; [|exact Hx].
    apply elem_of_app. left. by apply IH.
  - rewrite elem_of_app, list_elem_of_singleton. intros [Hy| ->]; [|exact Hx].
    apply elem_of_app. left. apply elem_of_descendants_other in Hy as (c & Hc & Hy).
    apply elem_of_descendants_other. exists c. split; [done|].
    rewrite Forall_forall in IH. by apply IH.
Qed.

(** The path ends with the accumulated segments. *)
Lemma selectPath_loop_app e l1 l2 :
  selectPath_loop e l1 ≠ [] → selectPath_loop e (l1 ++ l2) = selectPath_loop e l1 ++ l2.
Proof.
  revert l1. induction e as [s|op f IH|cs _] using Expr_ind'; intros l1; cbn; [done| |done].
  apply (IH (f :: l1)).
Qed.

Lemma selectPath_nil e l : selectPath_loop e l = [] ↔ selectPath e = [].
Proof.
  unfold selectPath. revert l. induction e as [s|op f IH|cs _] using Expr_ind'; intros l; cbn; [done| |done].
  by rewrite (IH (f :: l)), (IH [f]).
Qed.

Lemma selectPath_select op f :
  selectPath (ESelect op f) = (if bool_decide (selectPath op = []) then [] else selectPath op ++ [f]).
Proof.
  unfold selectPath at 1. cbn. case_bool_decide as H.
  - by apply selectPath_nil.
  - by apply (selectPath_loop_app op [] [f]).
Qed.

(** A path into [self.f] passes through the selection of [f] on [self]. *)
Lemma selectPath_self f rest e :
  selectPath e = "self" :: f :: rest → ESelect (EIdent "self") f ∈ descendants e.
Proof.
  revert rest. induction e as [s|op f' IH|cs _] using Expr_ind'; intros rest; [done| |done].
  rewrite selectPath_select. case_bool_decide as Hop; [done|].
  destruct rest as [|r rest] using rev_ind.
  - intros H. assert (selectPath op = ["self"] ∧ f' = f) as [Hs ->].
    { change ["self"; f] with (["self"] ++ [f]) in H. by apply app_inj_tail in H. }
    destruct op as [s|op' g|cs]; [cbn in Hs|rewrite selectPath_select in Hs; exfalso|done].
    + injection Hs as ->. apply descendants_self.
    + case_bool_decide; [done|]. by destruct (selectPath op') as [|? [|]].
  - intros H. assert (selectPath op = "self" :: f :: rest) as Hs.
    { change ("self" :: f :: rest ++ [r]) with (("self" :: f :: rest) ++ [r]) in H.
      by apply app_inj_tail in H as [? _]. }
    cbn [descendants]. apply elem_of_app. left. by eapply IH.
Qed.

(** The allow-list check accepts an expression exactly when neither
    [self.spec] nor [self.status] occurs in it, however deeply nested, inside a
    longer path, a macro or a function call. *)
Theorem assertMetadataOnly_iff ast ruleName :
  assertMetadataOnly ast ruleName = None ↔
  ∀ f, f = "spec" ∨ f = "status" → ESelect (EIdent "self") f ∉ descendants ast.
Proof.
  unfold assertMetadataOnly. split.
  - destruct (List.find _ _) as [n|] eqn:E; [done|]. intros _ f Hf Hin.
    pose proof (find_none _ _ E (ESelect (EIdent "self") f)) as Hn.
    rewrite filter_In, <-list_elem_of_In in Hn. specialize (Hn (conj Hin eq_refl)).
    by destruct Hf as [->| ->].
  - intros H. destruct (List.find _ _) as [n|] eqn:E; [|done]. exfalso.
    apply find_some in E as [Hin Hd]. apply filter_In in Hin as [Hin _].
    apply list_elem_of_In in Hin.
    destruct (selectPath n) as [|s [|f rest]] eqn:Hp; cbn in Hd; try done.
    apply andb_prop in Hd as [Hs Hf]. bools. subst s.
    apply orb_true_iff in Hf. apply (H f).
    + destruct Hf; bools; auto.
    + eapply descendants_trans; [|exact Hin]. by eapply selectPath_self.
Qed.

(** ** Architectures *)

Lemma firstDuplicate_None seen ts :
  firstDuplicate seen ts = None ↔
  NoDup (pt_Architecture <$> ts) ∧ ∀ a, a ∈ pt_Architecture <$> ts → a ∉ seen.
Proof.
  revert seen. induction ts as [|t ts IH]; intros seen; cbn.
  { split; [|done]. intros _. split; [constructor|]. by intros ? ?%elem_of_nil. }
  case_bool_decide as Hs.
  - split; [done|]. intros [_ H]. destruct (H (pt_Architecture t)); [by left|done].
  - rewrite IH, NoDup_cons. split.
    + intros [H1 H2]. split; [split; [|done]|].
      * intros Hin. apply H2 in Hin. set_solver.
      * intros a [->|Ha]%elem_of_cons; [done|]. apply H2 in Ha. set_solver.
    + intros [[H1 H2] H3]. split; [done|]. intros a Ha.
      assert (a ∉ seen) by (apply H3; by right). set_unfold. naive_solver.
Qed.

(** A scoring configuration, of a namespace or of the cluster, passes the
    check exactly when no architecture is listed twice. *)
Lemma ValidateArchitecturesSet_iff n c :
  (ValidateArchitecturesSet n = None ↔ NoDup (pt_Architecture <$> elems (nas_Platforms n)))
  ∧ (CPPC_validate c = None ↔
     ∀ sc, cppc_scoring c = Some sc → NoDup (pt_Architecture <$> elems (nas_Platforms sc))).
Proof.
  assert (∀ ts, DuplicateArchitecture <$> firstDuplicate ∅ ts = None ↔
                NoDup (pt_Architecture <$> ts)) as H.
  { intros ts. rewrite fmap_None, firstDuplicate_None. set_solver. }
  split; [apply H|]. unfold CPPC_validate. destruct (cppc_scoring c) as [sc|].
  - rewrite H. naive_solver.
  - naive_solver.
Qed.

Lemma validArch_iff a : validArch a = true ↔ a ∈ utils.AllSupportedArchitecturesSet.
Proof. unfold validArch, utils.AllSupportedArchitecturesSet. rewrite bool_decide_eq_true. set_solver. Qed.

Lemma firstInvalid_None l :
  firstInvalid l = None ↔ Forall (λ a, a ∈ utils.AllSupportedArchitecturesSet) l.
Proof.
  unfold firstInvalid. induction l as [|a l IH]; cbn; [done|].
  rewrite Forall_cons, <-IH, <-validArch_iff. destruct (validArch a); cbn; naive_solver.
Qed.

Lemma firstInvalidRule_None rules :
  firstInvalidRule rules = None ↔
  Forall (λ r, Forall (λ a, a ∈ utils.AllSupportedArchitecturesSet) (elems (ar_Architectures r))) rules.
Proof.
  induction rules as [|r rules IH]; cbn; [done|]. rewrite Forall_cons, <-IH, <-firstInvalid_None.
  destruct (firstInvalid _); naive_solver.
Qed.

Lemma ValidateArchitectures_None c :
  ValidateArchitectures c = None ↔
  Forall (λ a, a ∈ utils.AllSupportedArchitecturesSet) (elems (cel_FallbackArchitectures c))
  ∧ Forall (λ r, Forall (λ a, a ∈ utils.AllSupportedArchitecturesSet) (elems (ar_Architectures r)))
      (elems (cel_Rules c)).
Proof.
  unfold ValidateArchitectures. rewrite <-firstInvalidRule_None, <-firstInvalid_None.
  destruct (firstInvalid _); naive_solver.
Qed.

(** A plugin configuration that passed validation only ever sends pods to
    architectures the operator supports, whatever the rules evaluate to. *)
Theorem validated_placement_supported {engine : CelEngine} c pod r :
  ValidateArchitectures c = None →
  celPure (cel_Rules c) (cel_FallbackArchitectures c) pod = Ok r →
  Forall (λ a, a ∈ utils.AllSupportedArchitecturesSet) (elems (er_architectures r)).
Proof.
  intros [Hf Hr]%ValidateArchitectures_None. unfold celPure, placementPure.
  set (pure := Ok (placementResult _ _)).
  assert (pure = Ok r → Forall (λ a, a ∈ utils.AllSupportedArchitecturesSet)
    (elems (er_architectures r))) as Hp.
  { unfold pure. intros [= <-].
    pose proof (loopPure_spec (elems (cel_Rules c)) (podToMap pod) false) as Hl.
    destruct (loopPure _ _ false) as [x|b]; unfold placementResult, rulesOutcome; cbn.
    - destruct Hl as (pre & post & Heq & _ & _). rewrite Heq in Hr.
      apply Forall_app in Hr as [_ Hr]. by apply Forall_cons in Hr as [Hr _].
    - destruct (_ && _); cbn; done. }
  destruct (cel_Rules c), (cel_FallbackArchitectures c); try done;
    destruct newCELEvaluator; done || exact Hp.
Qed.
