(* ===== verification/CelSchema.v ===== *)
(** * The schema of the rules

    [podValidationTypeProvider] and [getOrCreateValidationEnv] of
    [api/common/plugins/celarchitectureplacement_plugin.go]: the types against which
    a rule is checked when it is admitted, and the environment that is built once
    for the process.  The rules run later, in [cel_evaluator.go], without types, on
    the nested map of [podToMap]; here the two are related.

    Selections are typed and evaluated as in the vendored [cel-go]
    ([checker.go: checkSelectField]): an object has its declared fields, a map has
    every field at the type of its values. *)
From stdpp Require Import base gmap strings list.
From S2P Require Import Prelude GoStd Api CelEval Validation.
Import plugins.

#[warnings="-register-all"]
Inductive DeclType : Type :=
| StringType
| MapType (key value : DeclType)
| ObjectType (name : string) (fields : list (string * DeclType)).

(** [podValidationTypeProvider] *)
Definition strToStr : DeclType := MapType StringType StringType.
Definition metadataType : DeclType :=
  ObjectType "pod.metadata"
    [ ("name", StringType); ("namespace", StringType); ("generateName", StringType);
      ("labels", strToStr); ("annotations", strToStr) ].
Definition podValidationTypeProvider : DeclType := ObjectType "pod" [("metadata", metadataType)].

(** A field of an association list. *)
Fixpoint field {A} (f : string) (fields : list (string * A)) : option A :=
  match fields with
  | [] => None
  | (g, x) :: rest => if String.eqb f g then Some x else field f rest
  end.

(** [checkSelectField]. *)
Definition checkSelectField (operand : DeclType) (f : string) : option DeclType :=
  match operand with
  | StringType => None
  | MapType _ v => Some v
  | ObjectType _ fields => field f fields
  end.

(** The type of a chain of selections that starts at [self]. *)
Fixpoint checkPath (e : Expr) : option DeclType :=
  match e with
  | EIdent x => if String.eqb x "self" then Some podValidationTypeProvider else None
  | ESelect op f => t ← checkPath op; checkSelectField t f
  | EOther _ => None
  end.

(** *** At run time *)
#[warnings="-register-all"]
Inductive Dyn : Type :=
| DStr (s : string)
| DTable (m : gmap string string)
| DObject (fields : list (string * Dyn)).

(** The [map[string]interface{}] that [podToMap] returns. *)
Definition reify (pm : PodMap) : Dyn :=
  DObject [ ("metadata",
    DObject [ ("name", DStr (pm_name pm)); ("generateName", DStr (pm_generateName pm));
              ("namespace", DStr (pm_namespace pm)); ("labels", DTable (pm_labels pm));
              ("annotations", DTable (pm_annotations pm)) ]) ].

Definition noSuchKey (f : string) : GoError := errOther ("no such key: " +:+ f).

Definition selectField (v : Dyn) (f : string) : res Dyn :=
  match v with
  | DStr _ => Err (errOther "no such overload")
  | DTable m => match m !! f with Some s => Ok (DStr s) | None => Err (noSuchKey f) end
  | DObject fields => match field f fields with Some x => Ok x | None => Err (noSuchKey f) end
  end.

Fixpoint evalPath (pm : PodMap) (e : Expr) : res Dyn :=
  match e with
  | EIdent x => if String.eqb x "self" then Ok (reify pm) else Err (errOther ("no such attribute: " +:+ x))
  | ESelect op f => v ← evalPath pm op; selectField v f
  | EOther _ => Err (errOther "not a selection")
  end.

(** ** What is admitted can be evaluated *)

(** A value of a declared type: an object has all of its fields. *)
Fixpoint has_type (t : DeclType) (v : Dyn) : Prop :=
  match t with
  | StringType => ∃ s, v = DStr s
  | MapType _ _ => ∃ m, v = DTable m
  | ObjectType _ fields =>
      ∃ vs, v = DObject vs ∧
        (fix all (fs : list (string * DeclType)) : Prop :=
           match fs with
           | [] => True
           | (f, t') :: rest => (∃ x, field f vs = Some x ∧ has_type t' x) ∧ all rest
           end) fields
  end.

(** The selections that have a type: the schema is three levels deep. *)
Definition self : Expr := EIdent "self".
Definition selfMetadata : Expr := ESelect self "metadata".

Inductive declared : Expr → DeclType → Prop :=
| declared_self : declared self podValidationTypeProvider
| declared_metadata : declared selfMetadata metadataType
| declared_string f : f ∈ ["name"; "namespace"; "generateName"] → declared (ESelect selfMetadata f) StringType
| declared_map f : f ∈ ["labels"; "annotations"] → declared (ESelect selfMetadata f) strToStr
| declared_key f k : f ∈ ["labels"; "annotations"] → declared (ESelect (ESelect selfMetadata f) k) StringType.

Lemma checkPath_declared e t : checkPath e = Some t → declared e t.
Proof.
  revert t. induction e as [x|op f IH|cs _] using Expr_ind'; intros t; cbn; [|..|done].
  - destruct (String.eqb_spec x "self") as [->|_]; [|done]. intros [= <-]. constructor.
  - destruct (checkPath op) as [u|] eqn:E; [|done]. cbn.
    destruct (IH _ eq_refl) as [| |g Hg|g Hg|g k Hg]; cbn; try done.
    + destruct (String.eqb_spec f "metadata") as [->|_]; [|done]. intros [= <-]. constructor.
    + repeat match goal with
        | |- context [String.eqb f ?x] => destruct (String.eqb_spec f x) as [->|_];
            [intros [= <-]; constructor; by vm_compute; set_solver|]
        end. done.
    + intros [= <-]. by constructor.
Qed.

(** The key is in the labels or annotations of the pod. *)
Definition carries (pm : PodMap) (f k : string) : Prop :=
  is_Some ((if String.eqb f "labels" then pm_labels pm else pm_annotations pm) !! k).

(** C33: a selection that the schema of the admission webhook accepts has a value of
    its declared type in the map the evaluator gives to the rules, whatever the pod:
    it fails only for a key that the labels or annotations of the pod do not carry;
    and the allow-list check accepts it too, since the schema declares neither
    [self.spec] nor [self.status]. *)
Theorem schema_sound pod e t ruleName :
  checkPath e = Some t →
  ((∃ v, evalPath (podToMap pod) e = Ok v ∧ has_type t v) ∨
   (∃ f k, f ∈ ["labels"; "annotations"] ∧ e = ESelect (ESelect selfMetadata f) k ∧
      ¬ carries (podToMap pod) f k ∧ evalPath (podToMap pod) e = Err (noSuchKey k)))
  ∧ assertMetadataOnly e ruleName = None.
Proof.
  intros Hd%checkPath_declared. split; [|by destruct Hd as [| |g Hg|g Hg|g k Hg]; vm_compute; repeat case_match].
  generalize (podToMap pod) as pm. intros pm. destruct Hd as [| |g Hg|g Hg|g k Hg].
  - left. eexists. split; [reflexivity|]. cbn. repeat (eexists || split).
  - left. eexists. split; [reflexivity|]. cbn. repeat (eexists || split).
  - left. repeat (apply elem_of_cons in Hg as [->|Hg]; [by repeat eexists|]). by apply elem_of_nil in Hg.
  - left. repeat (apply elem_of_cons in Hg as [->|Hg]; [by repeat eexists|]). by apply elem_of_nil in Hg.
  - destruct (decide (carries pm g k)) as [[s Hs]|Hn]; [left|right; exists g, k; split_and!; try done; revert Hn; unfold carries; rewrite <-eq_None_not_Some; intros Hn].
    + exists (DStr s). repeat (apply elem_of_cons in Hg as [->|Hg]; [cbn in *; rewrite Hs; by eauto|]).
      by apply elem_of_nil in Hg.
    + repeat (apply elem_of_cons in Hg as [->|Hg];
        [cbn in *; by rewrite Hn|]).
      by apply elem_of_nil in Hg.
Qed.

(** ** The environment is built once *)
Section validation_env.
(** [cel.Env] and the options made from the type provider. *)
Context {Env Opts : Type}.

(** What the library answers in one call. *)
Record Library := mkLibrary {
  lib_NewEnv : res Env;
  lib_EnvOptions : Env → DeclType → res Opts;
  lib_NewEnvWith : Opts → res Env;
}.

(** The package variables. *)
Record ValidationVars := mkVars {
  validationEnv : option Env;
  validationEnvErr : option GoError;
  validationOnce : bool;
}.
Definition noVars : ValidationVars := mkVars None None false.

Definition wrapped (prefix : string) (e : GoError) : GoError :=
  mkErr (err_kind e) (prefix +:+ ": " +:+ err_msg e).

(** The function handed to [validationOnce.Do]. *)
Definition buildValidationEnv (lib : Library) : res Env :=
  match lib_NewEnv lib with
  | Err e => Err (wrapped "failed to create base CEL environment" e)
  | Ok baseEnv =>
      match lib_EnvOptions lib baseEnv podValidationTypeProvider with
      | Err e => Err (wrapped "failed to build CEL environment options from type provider" e)
      | Ok envOpts =>
          match lib_NewEnvWith lib envOpts with
          | Err e => Err (wrapped "failed to create CEL environment" e)
          | Ok env => Ok env
          end
      end
  end.

Definition getOrCreateValidationEnv (lib : Library) (s : ValidationVars) : ValidationVars * res (option Env) :=
  let s' :=
    if validationOnce s then s
    else match buildValidationEnv lib with
         | Ok env => mkVars (Some env) (validationEnvErr s) true
         | Err e => mkVars (validationEnv s) (Some e) true
         end in
  (s', match validationEnvErr s' with Some e => Err e | None => Ok (validationEnv s') end).

Fixpoint answers (libs : list Library) (s : ValidationVars) : list (res (option Env)) :=
  match libs with
  | [] => []
  | lib :: rest => let '(s', r) := getOrCreateValidationEnv lib s in r :: answers rest s'
  end.

Lemma answers_done libs s r :
  validationOnce s = true → (getOrCreateValidationEnv (mkLibrary (Err (errOther "")) (λ _ _, Err (errOther ""))
    (λ _, Err (errOther ""))) s).2 = r → answers libs s = replicate (length libs) r.
Proof.
  intros Hs Hr. induction libs as [|lib rest IH]; [done|]. cbn in *. rewrite Hs in *. cbn in *.
  rewrite IH. by subst.
Qed.

(** Every call gives what the first one gave, whatever the library would answer
    later: an environment that is not nil, or the error of the first attempt. *)
Theorem validation_env_once lib libs :
  answers (lib :: libs) noVars
  = replicate (S (length libs)) (match buildValidationEnv lib with Ok env => Ok (Some env) | Err e => Err e end).
Proof.
  cbn. f_equal; [by destruct (buildValidationEnv lib)|].
  apply answers_done; by destruct (buildValidationEnv lib).
Qed.
End validation_env.
