(* ===== verification/Admission.v ===== *)
(** * Invariants the validating webhooks maintain

    The store of configurations as a state machine.  A request for a
    [PodPlacementConfig], and one to delete the [ClusterPodPlacementConfig], is
    under way for a while: the webhooks of [Validation] read the store, in requests
    of their own, and the API server stores the outcome later, when other requests
    may have been stored in between.  The state remembers where that happened, so
    that the theorem says what the webhooks guarantee and [race_duplicates_priority]
    and [race_orphans_config] what they do not. *)
From stdpp Require Import base gmap strings list relations.
From S2P Require Import Prelude GoStd Api Validation.
Import plugins v1beta1.

Definition ppc_ns (p : PodPlacementConfig) : string := om_Namespace (ppc_Meta p).

Record Cluster := mkCluster { cl_cppc : bool; cl_ppcs : list PodPlacementConfig }.

Definition in_ns (ns : string) (l : list PodPlacementConfig) : list PodPlacementConfig :=
  filter (λ p, ppc_ns p = ns) l.
Arguments in_ns : simpl never.

(** The API reader's answer for the singleton. *)
Definition get_cppc (exists_ : bool) : option GoError :=
  if exists_ then None else Some (mkErr KNotFound "not found").

Definition same_key (p q : PodPlacementConfig) : Prop :=
  ppc_ns p = ppc_ns q ∧ ppc_Name p = ppc_Name q.

#[export] Instance same_key_dec p q : Decision (same_key p q).
Proof. unfold same_key. apply _. Defined.

Definition replace (p : PodPlacementConfig) (l : list PodPlacementConfig) : list PodPlacementConfig :=
  (λ x, if bool_decide (same_key x p) then p else x) <$> l.

(** ** Requests under way

    The deletion of the cluster-wide configuration is under way until the object is
    gone: with finalizers it is still found in the meantime. *)
Inductive Request :=
| RCreate (p : PodPlacementConfig)
| RUpdate (old p : PodPlacementConfig)
| RDeleteCPPC.

Definition req_ns (r : Request) : option string :=
  match r with RCreate p | RUpdate _ p => Some (ppc_ns p) | RDeleteCPPC => None end.

(** What the webhook lists for the request. *)
Definition listing (r : Request) (l : list PodPlacementConfig) : list PodPlacementConfig :=
  match req_ns r with Some ns => in_ns ns l | None => l end.

(** A request and what its webhook has read so far. *)
Record Flight := mkFlight {
  fl_Request : Request;
  fl_Cppc : option bool;
  fl_Listed : option (list PodPlacementConfig);
}.

(** The webhook's verdict, from what it read. *)
Definition allowed `{!ValidationEnv} (f : Flight) : Prop :=
  match fl_Request f, fl_Cppc f, fl_Listed f with
  | RCreate p, Some b, Some l =>
      PPC_Handle Create (ppc_ns p) (Ok p) (get_cppc b) (Ok l) (Err (errOther "no old object")) = Allowed
  | RUpdate old p, Some b, Some l =>
      PPC_Handle Update (ppc_ns p) (Ok p) (get_cppc b) (Ok l) (Ok old) = Allowed
  | RDeleteCPPC, _, Some l => CPPC_ValidateDelete (Ok l) = None
  | _, _, _ => False
  end.

(** What storing a request makes of the cluster: a name is taken once, and an update
    is stored only over the object it was admitted against. *)
Definition stored (r : Request) (c c' : Cluster) : Prop :=
  match r with
  | RCreate p =>
      Forall (λ x, ¬ same_key x p) (cl_ppcs c) ∧ c' = mkCluster (cl_cppc c) (p :: cl_ppcs c)
  | RUpdate old p =>
      old ∈ cl_ppcs c ∧ same_key old p ∧ c' = mkCluster (cl_cppc c) (replace p (cl_ppcs c))
  | RDeleteCPPC => c' = mkCluster false (cl_ppcs c)
  end.

(** [st_Raced]: the namespaces in which a request was stored while another was under
    way; [st_Parted]: whether a creation was stored while a deletion of the
    cluster-wide configuration was under way, or the other way round. *)
Record Store := mkStore {
  st_Cluster : Cluster;
  st_Flights : list Flight;
  st_Raced : gset string;
  st_Parted : bool;
}.

Definition store_start : Store := mkStore (mkCluster false []) [] ∅ false.

Definition raced_by (r : Request) (others : list Flight) (raced : gset string) : gset string :=
  match req_ns r with
  | Some ns => if existsb (λ f, bool_decide (req_ns (fl_Request f) = Some ns)) others
               then {[ns]} ∪ raced else raced
  | None => raced
  end.

Definition parts (r q : Request) : bool :=
  match r, q with RCreate _, RDeleteCPPC | RDeleteCPPC, RCreate _ => true | _, _ => false end.

Definition parted_by (r : Request) (others : list Flight) (parted : bool) : bool :=
  parted || existsb (λ f, parts r (fl_Request f)) others.

Inductive cstep `{!ValidationEnv} : Store → Store → Prop :=
| cs_arrive c fs ra pa r :
    cstep (mkStore c fs ra pa) (mkStore c (mkFlight r None None :: fs) ra pa)
| cs_get c fs1 f fs2 ra pa :
    cstep (mkStore c (fs1 ++ f :: fs2) ra pa)
      (mkStore c (fs1 ++ mkFlight (fl_Request f) (Some (cl_cppc c)) (fl_Listed f) :: fs2) ra pa)
| cs_list c fs1 f fs2 ra pa :
    cstep (mkStore c (fs1 ++ f :: fs2) ra pa)
      (mkStore c (fs1 ++ mkFlight (fl_Request f) (fl_Cppc f)
                           (Some (listing (fl_Request f) (cl_ppcs c))) :: fs2) ra pa)
| cs_store c c' fs1 f fs2 ra pa :
    allowed f → stored (fl_Request f) c c' →
    cstep (mkStore c (fs1 ++ f :: fs2) ra pa)
      (mkStore c' (fs1 ++ fs2) (raced_by (fl_Request f) (fs1 ++ fs2) ra)
         (parted_by (fl_Request f) (fs1 ++ fs2) pa))
(* the request is denied, or fails after it was admitted *)
| cs_fail c fs1 f fs2 ra pa :
    cstep (mkStore c (fs1 ++ f :: fs2) ra pa) (mkStore c (fs1 ++ fs2) ra pa)
(* these are taken as they come: the webhooks' verdict on them does not matter here *)
| cs_delete c fs ra pa p :
    cstep (mkStore c fs ra pa)
      (mkStore (mkCluster (cl_cppc c) (filter (λ x, ¬ same_key x p) (cl_ppcs c))) fs ra pa)
| cs_create_cppc c fs ra pa :
    cstep (mkStore c fs ra pa) (mkStore (mkCluster true (cl_ppcs c)) fs ra pa).



















(** ** What the webhooks check *)
Section webhook.
Context {venv : ValidationEnv}.



(** ** The invariant *)


















End webhook.

(** ** Overlapping requests *)

(** A configuration without plugins. *)
Definition bare_ppc (ns name : string) (priority : Z) : PodPlacementConfig :=
  mkPPC (mkMeta name "" ns "" None None None None None) (mkPPCSpec None None priority).

(** Admission alone does not give distinct priorities: two concurrent
    creations in one namespace, each valid when it was checked, leave two
    configurations of equal priority. *)
Theorem race_duplicates_priority `{!ValidationEnv} :
  ∃ s ns, rtc cstep store_start s ∧ st_Raced s = {[ns]}
          ∧ ¬ NoDup (ppc_Priority <$> in_ns ns (cl_ppcs (st_Cluster s))).
Proof.
  set (a := bare_ppc "ns" "a" 7). set (b := bare_ppc "ns" "b" 7).
  eexists (mkStore (mkCluster true [b; a]) [] _ false), "ns". split; [|split].
  - eapply rtc_l; [apply cs_create_cppc|]. cbn.
    eapply rtc_l; [apply (cs_arrive _ _ _ _ (RCreate a))|].
    eapply rtc_l; [apply (cs_arrive _ _ _ _ (RCreate b))|].
    eapply rtc_l; [apply (cs_get _ [])|]. eapply rtc_l; [apply (cs_list _ [])|].
    eapply rtc_l; [apply (cs_get _ [_])|]. eapply rtc_l; [apply (cs_list _ [_])|]. cbn.
    eapply rtc_l; [eapply (cs_store _ _ [_]); [done|by split; [constructor|reflexivity]]|]. cbn.
    eapply rtc_l; [eapply (cs_store _ _ []); [done|]; split; [|reflexivity]|apply rtc_refl].
    repeat constructor. intros [_ Hn]. discriminate Hn.
  - set_solver.
  - cbn. intros [Hn _]%NoDup_cons. apply Hn. left.
Qed.

(** A creation that is checked before the cluster-wide configuration is deleted, and
    stored afterwards, leaves a configuration without it. *)
Theorem race_orphans_config `{!ValidationEnv} :
  ∃ s, rtc cstep store_start s ∧ st_Parted s = true
       ∧ cl_ppcs (st_Cluster s) ≠ [] ∧ cl_cppc (st_Cluster s) = false.
Proof.
  set (a := bare_ppc "ns" "a" 7). eexists (mkStore (mkCluster false [a]) [] ∅ true). split; [|done].
  eapply rtc_l; [apply cs_create_cppc|]. cbn.
  eapply rtc_l; [apply (cs_arrive _ _ _ _ (RCreate a))|].
  eapply rtc_l; [apply (cs_arrive _ _ _ _ RDeleteCPPC)|].
  eapply rtc_l; [apply (cs_list _ [])|].
  eapply rtc_l; [apply (cs_get _ [_])|]. eapply rtc_l; [apply (cs_list _ [_])|]. cbn.
  eapply rtc_l; [eapply (cs_store _ _ []); [done|reflexivity]|]. cbn.
  eapply rtc_l; [eapply (cs_store _ _ []); [done|by split; [constructor|reflexivity]]|]. apply rtc_refl.
Qed.
