(* ===== verification/Status.v ===== *)
(** * The status of the ClusterPodPlacementConfig

    [api/v1beta1/clusterpodplacementconfig_types.go] ([Build],
    [buildConditions] and the small formatting helpers), [conditions.go], and
    [api/common] (the log verbosity); [SetCondition] is the vendored helper of
    [openshift/library-go].  The clock is an argument: the time each condition
    would be stamped with. *)
From Stdlib Require Import Ascii.
From stdpp Require Import base gmap strings list.
From S2P Require Import Prelude GoStd Api.

(** ** Log verbosity ([api/common]) *)
Definition ToZapLevelInt (verbosity : string) : Z :=
  if bool_decide (verbosity = "Normal") then 0
  else if bool_decide (verbosity = "Debug") then 1
  else if bool_decide (verbosity = "Trace") then 2
  else if bool_decide (verbosity = "TraceAll") then 3
  else 0.

(** ** Conditions *)
Record Condition := mkCond {
  co_Type : string;
  co_Status : bool;
  co_Reason : string;
  co_Message : string;
  co_LastTransitionTime : Z;
}.

#[export] Instance Condition_eq_dec : EqDecision Condition.
Proof. solve_decision. Defined.

Definition MutatingWebhookConfigurationNotAvailable := "MutatingWebhookConfigurationNotAvailable".
Definition PodPlacementControllerNotRolledOutType := "PodPlacementControllerNotRolledOut".
Definition PodPlacementWebhookNotRolledOutType := "PodPlacementWebhookNotRolledOut".
Definition AvailableType := "Available".
Definition DegradedType := "Degraded".
Definition ProgressingType := "Progressing".
Definition DeprovisioningType := "Deprovisioning".
Definition AllComponentsReady := "AllComponentsReady".
Definition PendingDeprovisioningMsg :=
  "Some pods may still have the " +:+ utils.SchedulingGateName
  +:+ "scheduling gate. The pod placement controller is updating them and will terminate.".

(** [FindCondition] *)
Definition FindCondition (t : string) (cs : list Condition) : option Condition :=
  List.find (λ c, bool_decide (co_Type c = t)) cs.

(** [v1helpers.SetCondition]: the first condition of the type is changed in
    place, and restamped when its status changes. *)
Fixpoint SetCondition (new : Condition) (now : Z) (cs : list Condition) : list Condition :=
  match cs with
  | [] => [mkCond (co_Type new) (co_Status new) (co_Reason new) (co_Message new) now]
  | c :: cs' =>
      if bool_decide (co_Type c = co_Type new)
      then mkCond (co_Type c) (co_Status new) (co_Reason new) (co_Message new)
             (if bool_decide (co_Status c = co_Status new) then co_LastTransitionTime c else now)
           :: cs'
      else c :: SetCondition new now cs'
  end.

(** [notFromBool], [trimAndCapitalize] *)
Definition notFromBool (b : bool) : string := if b then "" else "not ".

Definition is_space (c : ascii) : bool :=
  let n := nat_of_ascii c in (n =? 32) || ((9 <=? n) && (n <=? 13)).

Fixpoint trim_left (s : string) : string :=
  match s with
  | EmptyString => EmptyString
  | String c s' => if is_space c then trim_left s' else s
  end.

Fixpoint trim_right (s : string) : string :=
  match s with
  | EmptyString => EmptyString
  | String c s' =>
      let r := trim_right s' in
      if is_space c && bool_decide (r = "") then EmptyString else String c r
  end.

(** [strings.TrimSpace] and [strings.ToUpper] on ASCII text *)
Definition TrimSpace (s : string) : string := trim_right (trim_left s).

Definition upper (c : ascii) : ascii :=
  let n := nat_of_ascii c in
  if (97 <=? n) && (n <=? 122) then ascii_of_nat (n - 32) else c.

Definition trimAndCapitalize (s : string) : string :=
  match TrimSpace s with
  | EmptyString => EmptyString
  | String c r => String (upper c) r
  end.

(** [ClusterPodPlacementConfigStatus] *)
Record CPPCStatus := mkStatus {
  st_Conditions : GoSlice Condition;
  st_available : bool;
  st_progressing : bool;
  st_degraded : bool;
  st_deprovisioning : bool;
  st_podPlacementControllerNotReady : bool;
  st_podPlacementWebhookNotReady : bool;
  st_mutatingWebhookConfigurationNotAvailable : bool;
  st_canDeployMutatingWebhook : bool;
}.

(** The shared reason of [buildConditions]. *)
Definition reasonOf (s : CPPCStatus) : string :=
  let r := (if st_podPlacementControllerNotReady s then PodPlacementControllerNotRolledOutType else "")
           +:+ (if st_podPlacementWebhookNotReady s then PodPlacementWebhookNotRolledOutType else "")
           +:+ (if st_mutatingWebhookConfigurationNotAvailable s
                then MutatingWebhookConfigurationNotAvailable else "") in
  if bool_decide (r = "") then AllComponentsReady else r.

(** The conditions [buildConditions] sets, in order, not yet stamped. *)
Definition desiredConditions (s : CPPCStatus) : list Condition :=
  let reason := reasonOf s in
  let cond t b r m := mkCond t b r m 0 in
  [ cond AvailableType (st_available s) reason
      ("The cluster pod placement config operand is " +:+ notFromBool (st_available s)
       +:+ "ready. We can" +:+ TrimSpace (notFromBool (st_available s))
       +:+ " gate and reconcile pods.");
    cond ProgressingType (st_progressing s) reason
      ("The cluster pod placement config operand is " +:+ notFromBool (st_progressing s)
       +:+ "progressing.");
    cond DegradedType (st_degraded s)
      (trimAndCapitalize (notFromBool (st_degraded s)) +:+ DegradedType)
      ("The cluster pod placement config operand is " +:+ notFromBool (st_degraded s)
       +:+ "degraded.");
    cond DeprovisioningType (st_deprovisioning s)
      (trimAndCapitalize (notFromBool (st_deprovisioning s)) +:+ DeprovisioningType)
      ("The cluster pod placement config operand is " +:+ notFromBool (st_deprovisioning s)
       +:+ "being deprovisioned. "
       +:+ (if st_deprovisioning s then PendingDeprovisioningMsg else ""));
    cond PodPlacementControllerNotRolledOutType (st_podPlacementControllerNotReady s)
      ("PodPlacementController"
       +:+ trimAndCapitalize (notFromBool (negb (st_podPlacementControllerNotReady s))) +:+ "Ready")
      ("The pod placement controller is "
       +:+ notFromBool (negb (st_podPlacementControllerNotReady s)) +:+ "fully rolled out.");
    cond PodPlacementWebhookNotRolledOutType (st_podPlacementWebhookNotReady s)
      ("PodPlacementWebhook"
       +:+ trimAndCapitalize (notFromBool (negb (st_podPlacementWebhookNotReady s))) +:+ "Ready")
      ("The pod placement webhook is "
       +:+ notFromBool (negb (st_podPlacementWebhookNotReady s)) +:+ "fully rolled out.");
    cond MutatingWebhookConfigurationNotAvailable (st_mutatingWebhookConfigurationNotAvailable s)
      reason
      ("The mutating webhook configuration is "
       +:+ notFromBool (negb (st_mutatingWebhookConfigurationNotAvailable s)) +:+ "ready.") ].

Definition setConditions (now : string → Z) (desired cs : list Condition) : list Condition :=
  foldl (λ acc d, SetCondition d (now (co_Type d)) acc) cs desired.

(** [buildConditions] *)
Definition buildConditions (now : string → Z) (s : CPPCStatus) : CPPCStatus :=
  mkStatus (Some (setConditions now (desiredConditions s) (elems (st_Conditions s))))
    (st_available s) (st_progressing s) (st_degraded s) (st_deprovisioning s)
    (st_podPlacementControllerNotReady s) (st_podPlacementWebhookNotReady s)
    (st_mutatingWebhookConfigurationNotAvailable s) (st_canDeployMutatingWebhook s).

(** [Build] *)
Definition Build (now : string → Z)
    (podPlacementControllerAvailable podPlacementWebhookAvailable
     podPlacementControllerUpToDate podPlacementWebhookUpToDate
     mutatingWebhookConfigurationAvailable deprovisioning : bool) (s : CPPCStatus) : CPPCStatus :=
  let available := mutatingWebhookConfigurationAvailable && podPlacementWebhookAvailable
                   && podPlacementControllerAvailable in
  buildConditions now
    (mkStatus (st_Conditions s)
       available
       ((negb podPlacementControllerUpToDate || negb podPlacementWebhookUpToDate
         || negb mutatingWebhookConfigurationAvailable) && negb deprovisioning)
       (negb available && negb deprovisioning)
       deprovisioning
       (negb podPlacementControllerAvailable || negb podPlacementControllerUpToDate)
       (negb podPlacementWebhookAvailable || negb podPlacementWebhookUpToDate)
       (negb mutatingWebhookConfigurationAvailable)
       (podPlacementWebhookAvailable && podPlacementControllerAvailable && negb deprovisioning)).

(** ** Setting conditions *)

Lemma Find_Set_eq new now cs :
  ∃ t, FindCondition (co_Type new) (SetCondition new now cs) =
       Some (mkCond (co_Type new) (co_Status new) (co_Reason new) (co_Message new) t)
  ∧ t = match FindCondition (co_Type new) cs with
        | Some c => if bool_decide (co_Status c = co_Status new) then co_LastTransitionTime c else now
        | None => now
        end.
Proof.
  unfold FindCondition. induction cs as [|c cs IH]; cbn.
  - rewrite bool_decide_eq_true_2 by done. by eexists.
  - case_bool_decide as Hc; cbn.
    + rewrite bool_decide_eq_true_2 by done. rewrite Hc. by eexists.
    + by rewrite bool_decide_eq_false_2.
Qed.

Lemma Find_Set_ne t new now cs :
  t ≠ co_Type new → FindCondition t (SetCondition new now cs) = FindCondition t cs.
Proof.
  intros Ht. unfold FindCondition. induction cs as [|c cs IH]; cbn.
  - by rewrite bool_decide_eq_false_2.
  - case_bool_decide as Hc; cbn.
    + rewrite Hc. by rewrite !bool_decide_eq_false_2.
    + by rewrite IH.
Qed.

Lemma types_Set new now cs :
  co_Type <$> SetCondition new now cs =
  if bool_decide (co_Type new ∈ co_Type <$> cs) then co_Type <$> cs
  else (co_Type <$> cs) ++ [co_Type new].
Proof.
  induction cs as [|c cs IH]; cbn.
  - by rewrite bool_decide_eq_false_2 by apply not_elem_of_nil.
  - destruct (bool_decide (co_Type c = co_Type new)) eqn:Hc; bools; cbn.
    + rewrite bool_decide_eq_true_2; [done|]. rewrite Hc. left.
    + rewrite IH. destruct (bool_decide (co_Type new ∈ co_Type <$> cs)) eqn:E; bools.
      * rewrite bool_decide_eq_true_2; [done|]. by right.
      * rewrite bool_decide_eq_false_2; [done|].
        intros [H|H]%elem_of_cons; [by symmetry in H|done].
Qed.

Lemma NoDup_types_Set new now cs : NoDup (co_Type <$> cs) → NoDup (co_Type <$> SetCondition new now cs).
Proof.
  intros H. rewrite types_Set. case_bool_decide; [done|]. apply NoDup_app.
  repeat split; [done| |apply NoDup_singleton]. intros x Hx ->%list_elem_of_singleton. done.
Qed.

Lemma setConditions_find now desired cs d :
  NoDup (co_Type <$> desired) → d ∈ desired →
  ∃ t, FindCondition (co_Type d) (setConditions now desired cs) =
       Some (mkCond (co_Type d) (co_Status d) (co_Reason d) (co_Message d) t)
  ∧ t = match FindCondition (co_Type d) cs with
        | Some c => if bool_decide (co_Status c = co_Status d) then co_LastTransitionTime c
                    else now (co_Type d)
        | None => now (co_Type d)
        end.
Proof.
  unfold setConditions. revert cs. induction desired as [|e desired IH]; intros cs Hnd Hd; cbn [foldl].
  { by apply elem_of_nil in Hd. }
  cbn in Hnd. apply NoDup_cons in Hnd as [He Hnd].
  apply elem_of_cons in Hd as [->|Hd].
  - assert (Hrest : ∀ l cs', co_Type e ∉ co_Type <$> l →
      FindCondition (co_Type e) (foldl (λ acc d, SetCondition d (now (co_Type d)) acc) cs' l) =
      FindCondition (co_Type e) cs').
    { clear. intros l. induction l as [|x l IH]; intros cs' Hx; cbn [foldl]; [done|].
      cbn in Hx. apply not_elem_of_cons in Hx as [Hx Hl]. rewrite IH by done. by apply Find_Set_ne. }
    rewrite Hrest by done. apply Find_Set_eq.
  - destruct (IH (SetCondition e (now (co_Type e)) cs) Hnd Hd) as (t & Hf & Ht).
    exists t. split; [done|]. rewrite Find_Set_ne in Ht; [done|].
    intros Heq. apply He. rewrite <-Heq. by apply list_elem_of_fmap_2.
Qed.

Lemma NoDup_types_setConditions now desired cs :
  NoDup (co_Type <$> cs) → NoDup (co_Type <$> setConditions now desired cs).
Proof.
  unfold setConditions. revert cs. induction desired as [|e desired IH]; intros cs H; cbn; [done|].
  apply IH. by apply NoDup_types_Set.
Qed.

Lemma desired_types s :
  co_Type <$> desiredConditions s =
  [AvailableType; ProgressingType; DegradedType; DeprovisioningType;
   PodPlacementControllerNotRolledOutType; PodPlacementWebhookNotRolledOutType;
   MutatingWebhookConfigurationNotAvailable].
Proof. done. Qed.

Lemma desired_NoDup s : NoDup (co_Type <$> desiredConditions s).
Proof. rewrite desired_types. apply (bool_decide_eq_true_1 _). by vm_compute. Qed.

(** After [Build] every condition tells the truth: it is there exactly once,
    its status is the corresponding flag, and the flags are consistent: the
    operand is available when everything it needs is, degraded when it is
    neither available nor being removed, and a removal is never reported as
    progress. *)
Theorem Build_truthful now ca wa cu wu ma de s :
  NoDup (co_Type <$> elems (st_Conditions s)) →
  let s' := Build now ca wa cu wu ma de s in
  let status t := co_Status <$> FindCondition t (elems (st_Conditions s')) in
  NoDup (co_Type <$> elems (st_Conditions s'))
  ∧ status AvailableType = Some (ca && wa && ma)
  ∧ status DegradedType = Some (negb (ca && wa && ma) && negb de)
  ∧ status ProgressingType = Some (negb (cu && wu && ma) && negb de)
  ∧ status DeprovisioningType = Some de
  ∧ status PodPlacementControllerNotRolledOutType = Some (negb (ca && cu))
  ∧ status PodPlacementWebhookNotRolledOutType = Some (negb (wa && wu))
  ∧ status MutatingWebhookConfigurationNotAvailable = Some (negb ma)
  ∧ st_canDeployMutatingWebhook s' = ca && wa && negb de.
Proof.
  intros Hnd s'. cbn zeta. split.
  { unfold s', Build, buildConditions. cbn [st_Conditions elems]. by apply NoDup_types_setConditions. }
  assert (Hst : ∀ i d, desiredConditions s' !! i = Some d →
    co_Status <$> FindCondition (co_Type d) (elems (st_Conditions s')) = Some (co_Status d)).
  { intros i d Hd. unfold s', Build, buildConditions in Hd |- *. cbn [st_Conditions elems].
    edestruct (setConditions_find now) as (t & Hf & _).
    - apply desired_NoDup.
    - apply list_elem_of_lookup_2 in Hd. exact Hd.
    - unfold desiredConditions in *. rewrite Hf. done. }
  repeat split.
  - etrans; [exact (Hst 0 _ eq_refl)|]. by destruct ca, wa, ma.
  - etrans; [exact (Hst 2 _ eq_refl)|]. by destruct ca, wa, ma, de.
  - etrans; [exact (Hst 1 _ eq_refl)|]. by destruct cu, wu, ma, de.
  - exact (Hst 3 _ eq_refl).
  - etrans; [exact (Hst 4 _ eq_refl)|]. by destruct ca, cu.
  - etrans; [exact (Hst 5 _ eq_refl)|]. by destruct wa, wu.
  - exact (Hst 6 _ eq_refl).
  - by destruct ca, wa, de.
Qed.

Lemma SetCondition_id new now cs t :
  FindCondition (co_Type new) cs =
    Some (mkCond (co_Type new) (co_Status new) (co_Reason new) (co_Message new) t) →
  SetCondition new now cs = cs.
Proof.
  unfold FindCondition. induction cs as [|c cs IH]; cbn; [done|].
  destruct (bool_decide (co_Type c = co_Type new)) eqn:E; bools.
  - intros [= ->]. cbn. by rewrite bool_decide_eq_true_2.
  - intros H. by rewrite (IH H).
Qed.

Lemma setConditions_id now desired cs :
  (∀ d, d ∈ desired → ∃ t, FindCondition (co_Type d) cs =
     Some (mkCond (co_Type d) (co_Status d) (co_Reason d) (co_Message d) t)) →
  setConditions now desired cs = cs.
Proof.
  unfold setConditions. induction desired as [|d desired IH]; intros H; cbn [foldl]; [done|].
  destruct (H d) as [t Ht]; [by left|]. rewrite (SetCondition_id _ _ _ _ Ht).
  apply IH. intros x Hx. apply H. by right.
Qed.

(** A second [Build] on the same observations changes nothing, transition
    times included; a condition that was there keeps its transition time unless
    its status changed, and is stamped with the current time otherwise. *)
Theorem Build_stable now now' ca wa cu wu ma de s :
  let s' := Build now ca wa cu wu ma de s in
  Build now' ca wa cu wu ma de s' = s'
  ∧ ∀ d, d ∈ desiredConditions s' →
      co_LastTransitionTime <$> FindCondition (co_Type d) (elems (st_Conditions s')) =
      Some (match FindCondition (co_Type d) (elems (st_Conditions s)) with
            | Some c => if bool_decide (co_Status c = co_Status d) then co_LastTransitionTime c
                        else now (co_Type d)
            | None => now (co_Type d)
            end).
Proof.
  assert (Hfind : ∀ u cs d, d ∈ desiredConditions u →
    ∃ t, FindCondition (co_Type d) (setConditions now (desiredConditions u) cs) =
         Some (mkCond (co_Type d) (co_Status d) (co_Reason d) (co_Message d) t)
         ∧ t = match FindCondition (co_Type d) cs with
               | Some c => if bool_decide (co_Status c = co_Status d) then co_LastTransitionTime c
                           else now (co_Type d)
               | None => now (co_Type d)
               end).
  { intros u cs d Hd. apply setConditions_find; [apply desired_NoDup|done]. }
  intros s'. set (cs' := elems (st_Conditions s')).
  assert (Hcs : ∀ d, d ∈ desiredConditions s' →
    ∃ t, FindCondition (co_Type d) cs' =
         Some (mkCond (co_Type d) (co_Status d) (co_Reason d) (co_Message d) t)
         ∧ t = match FindCondition (co_Type d) (elems (st_Conditions s)) with
               | Some c => if bool_decide (co_Status c = co_Status d) then co_LastTransitionTime c
                           else now (co_Type d)
               | None => now (co_Type d)
               end).
  { intros d Hd. exact (Hfind s' (elems (st_Conditions s)) d Hd). }
  split.
  - assert (setConditions now' (desiredConditions s') cs' = cs') as Hid.
    { apply setConditions_id. intros d Hd. destruct (Hcs d Hd) as (t & Hf & _). by exists t. }
    exact (f_equal (λ l, mkStatus (Some l) (st_available s') (st_progressing s') (st_degraded s')
      (st_deprovisioning s') (st_podPlacementControllerNotReady s')
      (st_podPlacementWebhookNotReady s') (st_mutatingWebhookConfigurationNotAvailable s')
      (st_canDeployMutatingWebhook s')) Hid).
  - intros d Hd. destruct (Hcs d Hd) as (t & -> & ->). done.
Qed.
