(* ===== verification/Conversion.v ===== *)
(** * Conversion between the API versions

    [api/v1alpha1/clusterPodPlacementConfig_conversion.go].  The assignment
    [dst.ObjectMeta = src.ObjectMeta] copies the reference to the annotations
    map, and [ConvertFrom] then writes to that map: annotations are locations of
    a heap here, so that the write shows in the source object too. *)
From stdpp Require Import base gmap strings list.
From S2P Require Import Prelude GoStd Api Status.
Import plugins v1beta1.

Definition FallbackArchAnnotation := "multiarch.openshift.io/fallback-architecture".

(** The maps in memory. *)
Abbreviation Heap := (gmap positive (gmap string string)).

(** [ObjectMeta] with its annotations as a reference ([None] is nil); the other
    fields travel unchanged. *)
Record MetaRef := mkMR { mr_rest : ObjectMeta; mr_Annotations : option positive }.

(** [v1alpha1.ClusterPodPlacementConfig] *)
Record Alpha := mkAlpha {
  al_Meta : MetaRef;
  al_LogVerbosity : string;
  al_NamespaceSelector : option LabelSelector;
  al_Conditions : GoSlice Condition;
}.

(** [v1beta1.ClusterPodPlacementConfig], the hub *)
Record Beta := mkBeta {
  be_Meta : MetaRef;
  be_LogVerbosity : string;
  be_NamespaceSelector : option LabelSelector;
  be_Plugins : option Plugins;
  be_FallbackArchitecture : string;
  be_Conditions : GoSlice Condition;
}.

(** [m[k]] through the reference. *)
Definition ann_lookup (h : Heap) (m : MetaRef) (k : string) : option string :=
  mr_Annotations m ≫= λ l, h !! l ≫= λ g, g !! k.

(** [ConvertTo]: the fields of [dst] that are not assigned stay. *)
Definition ConvertTo (h : Heap) (src : Alpha) (dst : Beta) : Beta :=
  mkBeta (al_Meta src) (al_LogVerbosity src) (al_NamespaceSelector src) (be_Plugins dst)
    (match ann_lookup h (al_Meta src) FallbackArchAnnotation with
     | Some arch => arch
     | None => be_FallbackArchitecture dst
     end)
    (al_Conditions src).

(** [ConvertFrom]: allocates the map when it is nil, then sets or deletes the
    annotation in the map both objects refer to. *)
Definition ConvertFrom (h : Heap) (src : Beta) : Heap * Alpha :=
  let '(h1, l) :=
    match mr_Annotations (be_Meta src) with
    | Some l => (h, l)
    | None => let l := fresh (dom h) in (<[l := ∅]> h, l)
    end in
  let g := default ∅ (h1 !! l) in
  let g' := if bool_decide (be_FallbackArchitecture src = "") then delete FallbackArchAnnotation g
            else <[FallbackArchAnnotation := be_FallbackArchitecture src]> g in
  (<[l := g']> h1,
   mkAlpha (mkMR (mr_rest (be_Meta src)) (Some l)) (be_LogVerbosity src)
     (be_NamespaceSelector src) (be_Conditions src)).

(** The zero value the conversion webhook decodes into. *)
Definition emptyBeta : Beta := mkBeta (mkMR (mkMeta "" "" "" "" None None None None None) None) ""
  None None "" None.

Lemma ann_lookup_insert h l g m k :
  mr_Annotations m = Some l → ann_lookup (<[l := g]> h) m k = g !! k.
Proof. intros Hm. unfold ann_lookup. rewrite Hm. cbn [mbind option_bind]. by rewrite lookup_insert_eq. Qed.

(** The annotations after [ConvertFrom], seen from the result. *)
Lemma ann_lookup_ConvertFrom h src k :
  ann_lookup (ConvertFrom h src).1 (al_Meta (ConvertFrom h src).2) k =
  if bool_decide (k = FallbackArchAnnotation)
  then (if bool_decide (be_FallbackArchitecture src = "") then None
        else Some (be_FallbackArchitecture src))
  else ann_lookup h (be_Meta src) k.
Proof.
  unfold ConvertFrom. destruct (mr_Annotations (be_Meta src)) as [l|] eqn:El;
    cbn [fst snd al_Meta]; rewrite ann_lookup_insert by done.
  - unfold ann_lookup. rewrite El. cbn [mbind option_bind].
    destruct (bool_decide (k = FallbackArchAnnotation)) eqn:Hk; bools; [subst k|]; case_bool_decide;
      rewrite ?lookup_delete_eq, ?lookup_insert_eq, ?lookup_delete_ne, ?lookup_insert_ne by done;
      try done; by destruct (h !! l).
  - unfold ann_lookup. rewrite El. cbn [mbind option_bind]. rewrite lookup_insert_eq. cbn [from_option id].
    destruct (bool_decide (k = FallbackArchAnnotation)) eqn:Hk; bools; [subst k|]; case_bool_decide;
      rewrite ?lookup_delete_eq, ?lookup_insert_eq, ?lookup_delete_ne, ?lookup_insert_ne by done;
      done.
Qed.

(** The conversion to v1alpha1 leaves its mark on the hub object it was
    given, because the annotations are shared: the source's annotations change
    exactly as those of the result. *)
Lemma ConvertFrom_aliases h src l :
  mr_Annotations (be_Meta src) = Some l →
  let '(h', a) := ConvertFrom h src in
  ∀ k, ann_lookup h' (be_Meta src) k = ann_lookup h' (al_Meta a) k.
Proof.
  intros El. assert (mr_Annotations (al_Meta (ConvertFrom h src).2) = Some l) as Hl
    by (unfold ConvertFrom; by rewrite El).
  destruct (ConvertFrom h src) as [h' a]; cbn [fst snd] in *.
  intros k. unfold ann_lookup. by rewrite El, Hl.
Qed.

(** C38: the round trip hub, v1alpha1, hub keeps the fallback architecture, log
    verbosity, namespace selector, conditions, and all metadata but one annotation:
    [multiarch.openshift.io/fallback-architecture], which carries the fallback
    architecture through v1alpha1, has on the result the fallback architecture as its
    value, and is absent when that is empty, whatever it was before.  The plugins are
    lost, since v1alpha1 cannot carry them.  The source object is left with the
    annotations of the result, because the conversion writes to the map they share,
    unless it had no annotations map. *)
Theorem conversion_round_trip h src :
  let '(h', a) := ConvertFrom h src in
  let back := ConvertTo h' a emptyBeta in
  be_FallbackArchitecture back = be_FallbackArchitecture src
  ∧ be_LogVerbosity back = be_LogVerbosity src
  ∧ be_NamespaceSelector back = be_NamespaceSelector src
  ∧ be_Conditions back = be_Conditions src
  ∧ mr_rest (be_Meta back) = mr_rest (be_Meta src)
  ∧ (∀ k, k ≠ FallbackArchAnnotation →
       ann_lookup h' (be_Meta back) k = ann_lookup h (be_Meta src) k)
  ∧ ann_lookup h' (be_Meta back) FallbackArchAnnotation
    = (if bool_decide (be_FallbackArchitecture src = "") then None else Some (be_FallbackArchitecture src))
  ∧ be_Plugins back = None
  ∧ (∀ k, ann_lookup h' (be_Meta src) k
          = if mr_Annotations (be_Meta src) is Some _ then ann_lookup h' (be_Meta back) k else None).
Proof.
  pose proof (ann_lookup_ConvertFrom h src) as Ha.
  pose proof (ConvertFrom_aliases h src) as Hs.
  assert (mr_rest (al_Meta (ConvertFrom h src).2) = mr_rest (be_Meta src)
    ∧ al_LogVerbosity (ConvertFrom h src).2 = be_LogVerbosity src
    ∧ al_NamespaceSelector (ConvertFrom h src).2 = be_NamespaceSelector src
    ∧ al_Conditions (ConvertFrom h src).2 = be_Conditions src) as (H1 & H2 & H3 & H4)
    by (unfold ConvertFrom; by destruct (mr_Annotations _)).
  destruct (ConvertFrom h src) as [h' a]; cbn [fst snd] in *.
  unfold ConvertTo; cbn [be_FallbackArchitecture be_LogVerbosity be_NamespaceSelector
    be_Conditions be_Meta be_Plugins]. repeat split; try done.
  - rewrite Ha, bool_decide_eq_true_2 by done. case_bool_decide as Hf; by rewrite ?Hf.
  - intros k Hk. by rewrite Ha, bool_decide_eq_false_2.
  - by rewrite Ha, bool_decide_eq_true_2.
  - intros k. destruct (mr_Annotations (be_Meta src)) as [l|] eqn:El; [by apply (Hs l)|].
    unfold ann_lookup. by rewrite El.
Qed.
