(* ===== verification/DeepCopy.v ===== *)
(** * Deep copies

    The generated [zz_generated.deepcopy.go] of [api/v1beta1], [api/v1alpha1] and
    [api/common/plugins], with the copies of the metadata they call
    ([k8s.io/apimachinery/pkg/apis/meta/v1], vendored), on a heap.

    A structure holds its scalars and the addresses of what it points to: a slice
    is the address of its backing array, a map the address of its table.  The
    result of [DeepCopyInto] is what [*out] holds when the call returns; it starts
    as [*in], so every field that is not assigned again stays the same.

    The reference is [clone], which is derived from the type: scalars are kept,
    everything behind a pointer, a slice or a map is cloned into a new cell.  The
    generated functions are equal to it, and [clone] is shown once for all types to
    denote the same value and to share nothing with the original. *)
From stdpp Require Import base gmap strings list.
From S2P Require Import Prelude.

(** ** The heap *)
Abbreviation loc := positive.

(** References, with the type of what they refer to. *)
Record ptr (A : Type) := mkPtr { p_addr : option loc }.
Record slice (A : Type) := mkSlice { s_addr : option loc }.
Record strmap := mkStrmap { m_addr : option loc }.
Arguments mkPtr {A} _.
Arguments p_addr {A} _.
Arguments mkSlice {A} _.
Arguments s_addr {A} _.

(** *** The structures, fields in the order of the source *)
(** A [metav1.Time]: the fields of its [time.Time] are only read, so it counts as a
    scalar ([DeepCopyInto] of [time.go] assigns it). *)
Record Time := mkTime { tm_nanos : Z }.
Record TypeMeta := mkTypeMeta { tm_Kind : string; tm_APIVersion : string }.
Record OwnerReference := mkOwner {
  or_APIVersion : string; or_Kind : string; or_Name : string; or_UID : string;
  or_Controller : ptr bool; or_BlockOwnerDeletion : ptr bool }.

(** [Raw] is the serialized set of fields, bytes. *)
Record FieldsV1 := mkFieldsV1 { fv_Raw : slice Z }.
Record ManagedFieldsEntry := mkManaged {
  mf_Manager : string; mf_Operation : string; mf_APIVersion : string; mf_Time : ptr Time;
  mf_FieldsType : string; mf_FieldsV1 : ptr FieldsV1; mf_Subresource : string }.

Record ObjectMeta := mkObjectMeta {
  om_Name : string; om_GenerateName : string; om_Namespace : string; om_SelfLink : string;
  om_UID : string; om_ResourceVersion : string; om_Generation : Z; om_CreationTimestamp : Time;
  om_DeletionTimestamp : ptr Time; om_DeletionGracePeriodSeconds : ptr Z;
  om_Labels : strmap; om_Annotations : strmap;
  om_OwnerReferences : slice OwnerReference; om_Finalizers : slice string;
  om_ManagedFields : slice ManagedFieldsEntry }.

Record ShardInfo := mkShardInfo { si_Selector : string }.
Record ListMeta := mkListMeta {
  lm_SelfLink : string; lm_ResourceVersion : string; lm_Continue : string;
  lm_RemainingItemCount : ptr Z; lm_ShardInfo : ptr ShardInfo }.

Record LabelSelectorRequirement := mkRequirement {
  lr_Key : string; lr_Operator : string; lr_Values : slice string }.
Record LabelSelector := mkSelector {
  ls_MatchLabels : strmap; ls_MatchExpressions : slice LabelSelectorRequirement }.
Record Condition := mkCondition {
  co_Type : string; co_Status : string; co_ObservedGeneration : Z; co_LastTransitionTime : Time;
  co_Reason : string; co_Message : string }.

Module plugins.
Record BasePlugin := mkBase { bp_Enabled : bool }.
Record NodeAffinityScoringPlatformTerm := mkTerm { pt_Architecture : string; pt_Weight : Z }.
Record NodeAffinityScoring := mkScoring {
  na_BasePlugin : BasePlugin; na_Platforms : slice NodeAffinityScoringPlatformTerm }.
Record ExecFormatErrorMonitor := mkMonitor { ef_BasePlugin : BasePlugin }.
Record ArchitectureRule := mkRule {
  ar_Name : string; ar_Expression : string; ar_Architectures : slice string }.
Record CelArchitecturePlacement := mkCel {
  ca_BasePlugin : BasePlugin; ca_FallbackArchitectures : slice string; ca_Rules : slice ArchitectureRule }.
Record LocalPlugins := mkLocal {
  lp_NodeAffinityScoring : ptr NodeAffinityScoring;
  lp_CelArchitecturePlacement : ptr CelArchitecturePlacement }.
Record Plugins := mkPlugins {
  pl_NodeAffinityScoring : ptr NodeAffinityScoring;
  pl_ExecFormatErrorMonitor : ptr ExecFormatErrorMonitor }.
End plugins.

Module v1beta1.
Record ClusterPodPlacementConfigSpec := mkCSpec {
  cs_LogVerbosity : string; cs_NamespaceSelector : ptr LabelSelector;
  cs_Plugins : ptr plugins.Plugins; cs_FallbackArchitecture : string }.
Record ClusterPodPlacementConfigStatus := mkCStatus {
  ct_Conditions : slice Condition; ct_available : bool; ct_progressing : bool; ct_degraded : bool;
  ct_deprovisioning : bool; ct_podPlacementControllerNotReady : bool;
  ct_podPlacementWebhookNotReady : bool; ct_mutatingWebhookConfigurationNotAvailable : bool;
  ct_canDeployMutatingWebhook : bool }.
Record ClusterPodPlacementConfig := mkC {
  c_TypeMeta : TypeMeta; c_ObjectMeta : ObjectMeta;
  c_Spec : ClusterPodPlacementConfigSpec; c_Status : ClusterPodPlacementConfigStatus }.
Record ClusterPodPlacementConfigList := mkCL {
  cl_TypeMeta : TypeMeta; cl_ListMeta : ListMeta; cl_Items : slice ClusterPodPlacementConfig }.

Record ENoExecEventSpec := mkESpec {}.
Record ENoExecEventStatus := mkEStatus {
  es_NodeName : string; es_PodName : string; es_PodNamespace : string; es_ContainerID : string }.
Record ENoExecEvent := mkE {
  e_TypeMeta : TypeMeta; e_ObjectMeta : ObjectMeta; e_Spec : ENoExecEventSpec; e_Status : ENoExecEventStatus }.
Record ENoExecEventList := mkEL {
  el_TypeMeta : TypeMeta; el_ListMeta : ListMeta; el_Items : slice ENoExecEvent }.

Record PodPlacementConfigSpec := mkPSpec {
  ps_LabelSelector : ptr LabelSelector; ps_Plugins : ptr plugins.LocalPlugins; ps_Priority : Z }.
Record PodPlacementConfigStatus := mkPStatus {}.
Record PodPlacementConfig := mkP {
  p_TypeMeta : TypeMeta; p_ObjectMeta : ObjectMeta; p_Spec : PodPlacementConfigSpec;
  p_Status : PodPlacementConfigStatus }.
Record PodPlacementConfigList := mkPL {
  ppl_TypeMeta : TypeMeta; ppl_ListMeta : ListMeta; ppl_Items : slice PodPlacementConfig }.
End v1beta1.

Module v1alpha1.
Record ClusterPodPlacementConfigSpec := mkCSpec {
  cs_LogVerbosity : string; cs_NamespaceSelector : ptr LabelSelector }.
Record ClusterPodPlacementConfigStatus := mkCStatus { ct_Conditions : slice Condition }.
Record ClusterPodPlacementConfig := mkC {
  c_TypeMeta : TypeMeta; c_ObjectMeta : ObjectMeta;
  c_Spec : ClusterPodPlacementConfigSpec; c_Status : ClusterPodPlacementConfigStatus }.
Record ClusterPodPlacementConfigList := mkCL {
  cl_TypeMeta : TypeMeta; cl_ListMeta : ListMeta; cl_Items : slice ClusterPodPlacementConfig }.
End v1alpha1.

(** *** Cells

    What an address can hold: one constructor for each type that is behind a
    pointer, a slice or a map. *)
Inductive Cell : Type :=
| CInt (x : Z)
| CBool (x : bool)
| CTime (x : Time)
| CStrings (x : list string)
| CBytes (x : list Z)
| CTable (x : gmap string string)
| CFieldsV1 (x : FieldsV1)
| CShardInfo (x : ShardInfo)
| COwners (x : list OwnerReference)
| CManaged (x : list ManagedFieldsEntry)
| CRequirements (x : list LabelSelectorRequirement)
| CConditions (x : list Condition)
| CLabelSelector (x : LabelSelector)
| CArchitectureRule (x : plugins.ArchitectureRule)
| CRules (x : list plugins.ArchitectureRule)
| CBasePlugin (x : plugins.BasePlugin)
| CCel (x : plugins.CelArchitecturePlacement)
| CMonitor (x : plugins.ExecFormatErrorMonitor)
| CLocalPlugins (x : plugins.LocalPlugins)
| CScoring (x : plugins.NodeAffinityScoring)
| CTerm (x : plugins.NodeAffinityScoringPlatformTerm)
| CTerms (x : list plugins.NodeAffinityScoringPlatformTerm)
| CPlugins (x : plugins.Plugins)
| CClusterPodPlacementConfig (x : v1beta1.ClusterPodPlacementConfig)
| CClusterPodPlacementConfigList (x : v1beta1.ClusterPodPlacementConfigList)
| CClusterPodPlacementConfigSpec (x : v1beta1.ClusterPodPlacementConfigSpec)
| CClusterPodPlacementConfigStatus (x : v1beta1.ClusterPodPlacementConfigStatus)
| CClusterPodPlacementConfigs (x : list v1beta1.ClusterPodPlacementConfig)
| CENoExecEvent (x : v1beta1.ENoExecEvent)
| CENoExecEventList (x : v1beta1.ENoExecEventList)
| CENoExecEventSpec (x : v1beta1.ENoExecEventSpec)
| CENoExecEventStatus (x : v1beta1.ENoExecEventStatus)
| CENoExecEvents (x : list v1beta1.ENoExecEvent)
| CPodPlacementConfig (x : v1beta1.PodPlacementConfig)
| CPodPlacementConfigList (x : v1beta1.PodPlacementConfigList)
| CPodPlacementConfigSpec (x : v1beta1.PodPlacementConfigSpec)
| CPodPlacementConfigStatus (x : v1beta1.PodPlacementConfigStatus)
| CPodPlacementConfigs (x : list v1beta1.PodPlacementConfig)
| CAClusterPodPlacementConfig (x : v1alpha1.ClusterPodPlacementConfig)
| CAClusterPodPlacementConfigList (x : v1alpha1.ClusterPodPlacementConfigList)
| CAClusterPodPlacementConfigSpec (x : v1alpha1.ClusterPodPlacementConfigSpec)
| CAClusterPodPlacementConfigStatus (x : v1alpha1.ClusterPodPlacementConfigStatus)
| CAClusterPodPlacementConfigs (x : list v1alpha1.ClusterPodPlacementConfig).

(** The types that can be put into a cell. *)
Class Boxed (A : Type) := {
  box : A → Cell;
  unbox : Cell → option A;
  unbox_box a : unbox (box a) = Some a;
}.

#[export] Instance boxed_Int : Boxed Z :=
  {| box := CInt; unbox x := match x with CInt y => Some y | _ => None end; unbox_box _ := eq_refl |}.
#[export] Instance boxed_Bool : Boxed bool :=
  {| box := CBool; unbox x := match x with CBool y => Some y | _ => None end; unbox_box _ := eq_refl |}.
#[export] Instance boxed_Time : Boxed Time :=
  {| box := CTime; unbox x := match x with CTime y => Some y | _ => None end; unbox_box _ := eq_refl |}.
#[export] Instance boxed_Strings : Boxed (list string) :=
  {| box := CStrings; unbox x := match x with CStrings y => Some y | _ => None end; unbox_box _ := eq_refl |}.
#[export] Instance boxed_Bytes : Boxed (list Z) :=
  {| box := CBytes; unbox x := match x with CBytes y => Some y | _ => None end; unbox_box _ := eq_refl |}.
#[export] Instance boxed_Table : Boxed (gmap string string) :=
  {| box := CTable; unbox x := match x with CTable y => Some y | _ => None end; unbox_box _ := eq_refl |}.
#[export] Instance boxed_FieldsV1 : Boxed FieldsV1 :=
  {| box := CFieldsV1; unbox x := match x with CFieldsV1 y => Some y | _ => None end; unbox_box _ := eq_refl |}.
#[export] Instance boxed_ShardInfo : Boxed ShardInfo :=
  {| box := CShardInfo; unbox x := match x with CShardInfo y => Some y | _ => None end; unbox_box _ := eq_refl |}.
#[export] Instance boxed_Owners : Boxed (list OwnerReference) :=
  {| box := COwners; unbox x := match x with COwners y => Some y | _ => None end; unbox_box _ := eq_refl |}.
#[export] Instance boxed_Managed : Boxed (list ManagedFieldsEntry) :=
  {| box := CManaged; unbox x := match x with CManaged y => Some y | _ => None end; unbox_box _ := eq_refl |}.
#[export] Instance boxed_Requirements : Boxed (list LabelSelectorRequirement) :=
  {| box := CRequirements; unbox x := match x with CRequirements y => Some y | _ => None end; unbox_box _ := eq_refl |}.
#[export] Instance boxed_Conditions : Boxed (list Condition) :=
  {| box := CConditions; unbox x := match x with CConditions y => Some y | _ => None end; unbox_box _ := eq_refl |}.
#[export] Instance boxed_LabelSelector : Boxed LabelSelector :=
  {| box := CLabelSelector; unbox x := match x with CLabelSelector y => Some y | _ => None end; unbox_box _ := eq_refl |}.
#[export] Instance boxed_ArchitectureRule : Boxed plugins.ArchitectureRule :=
  {| box := CArchitectureRule; unbox x := match x with CArchitectureRule y => Some y | _ => None end; unbox_box _ := eq_refl |}.
#[export] Instance boxed_Rules : Boxed (list plugins.ArchitectureRule) :=
  {| box := CRules; unbox x := match x with CRules y => Some y | _ => None end; unbox_box _ := eq_refl |}.
#[export] Instance boxed_BasePlugin : Boxed plugins.BasePlugin :=
  {| box := CBasePlugin; unbox x := match x with CBasePlugin y => Some y | _ => None end; unbox_box _ := eq_refl |}.
#[export] Instance boxed_Cel : Boxed plugins.CelArchitecturePlacement :=
  {| box := CCel; unbox x := match x with CCel y => Some y | _ => None end; unbox_box _ := eq_refl |}.
#[export] Instance boxed_Monitor : Boxed plugins.ExecFormatErrorMonitor :=
  {| box := CMonitor; unbox x := match x with CMonitor y => Some y | _ => None end; unbox_box _ := eq_refl |}.
#[export] Instance boxed_LocalPlugins : Boxed plugins.LocalPlugins :=
  {| box := CLocalPlugins; unbox x := match x with CLocalPlugins y => Some y | _ => None end; unbox_box _ := eq_refl |}.
#[export] Instance boxed_Scoring : Boxed plugins.NodeAffinityScoring :=
  {| box := CScoring; unbox x := match x with CScoring y => Some y | _ => None end; unbox_box _ := eq_refl |}.
#[export] Instance boxed_Term : Boxed plugins.NodeAffinityScoringPlatformTerm :=
  {| box := CTerm; unbox x := match x with CTerm y => Some y | _ => None end; unbox_box _ := eq_refl |}.
#[export] Instance boxed_Terms : Boxed (list plugins.NodeAffinityScoringPlatformTerm) :=
  {| box := CTerms; unbox x := match x with CTerms y => Some y | _ => None end; unbox_box _ := eq_refl |}.
#[export] Instance boxed_Plugins : Boxed plugins.Plugins :=
  {| box := CPlugins; unbox x := match x with CPlugins y => Some y | _ => None end; unbox_box _ := eq_refl |}.
#[export] Instance boxed_ClusterPodPlacementConfig : Boxed v1beta1.ClusterPodPlacementConfig :=
  {| box := CClusterPodPlacementConfig; unbox x := match x with CClusterPodPlacementConfig y => Some y | _ => None end; unbox_box _ := eq_refl |}.
#[export] Instance boxed_ClusterPodPlacementConfigList : Boxed v1beta1.ClusterPodPlacementConfigList :=
  {| box := CClusterPodPlacementConfigList; unbox x := match x with CClusterPodPlacementConfigList y => Some y | _ => None end; unbox_box _ := eq_refl |}.
#[export] Instance boxed_ClusterPodPlacementConfigSpec : Boxed v1beta1.ClusterPodPlacementConfigSpec :=
  {| box := CClusterPodPlacementConfigSpec; unbox x := match x with CClusterPodPlacementConfigSpec y => Some y | _ => None end; unbox_box _ := eq_refl |}.
#[export] Instance boxed_ClusterPodPlacementConfigStatus : Boxed v1beta1.ClusterPodPlacementConfigStatus :=
  {| box := CClusterPodPlacementConfigStatus; unbox x := match x with CClusterPodPlacementConfigStatus y => Some y | _ => None end; unbox_box _ := eq_refl |}.
#[export] Instance boxed_ClusterPodPlacementConfigs : Boxed (list v1beta1.ClusterPodPlacementConfig) :=
  {| box := CClusterPodPlacementConfigs; unbox x := match x with CClusterPodPlacementConfigs y => Some y | _ => None end; unbox_box _ := eq_refl |}.
#[export] Instance boxed_ENoExecEvent : Boxed v1beta1.ENoExecEvent :=
  {| box := CENoExecEvent; unbox x := match x with CENoExecEvent y => Some y | _ => None end; unbox_box _ := eq_refl |}.
#[export] Instance boxed_ENoExecEventList : Boxed v1beta1.ENoExecEventList :=
  {| box := CENoExecEventList; unbox x := match x with CENoExecEventList y => Some y | _ => None end; unbox_box _ := eq_refl |}.
#[export] Instance boxed_ENoExecEventSpec : Boxed v1beta1.ENoExecEventSpec :=
  {| box := CENoExecEventSpec; unbox x := match x with CENoExecEventSpec y => Some y | _ => None end; unbox_box _ := eq_refl |}.
#[export] Instance boxed_ENoExecEventStatus : Boxed v1beta1.ENoExecEventStatus :=
  {| box := CENoExecEventStatus; unbox x := match x with CENoExecEventStatus y => Some y | _ => None end; unbox_box _ := eq_refl |}.
#[export] Instance boxed_ENoExecEvents : Boxed (list v1beta1.ENoExecEvent) :=
  {| box := CENoExecEvents; unbox x := match x with CENoExecEvents y => Some y | _ => None end; unbox_box _ := eq_refl |}.
#[export] Instance boxed_PodPlacementConfig : Boxed v1beta1.PodPlacementConfig :=
  {| box := CPodPlacementConfig; unbox x := match x with CPodPlacementConfig y => Some y | _ => None end; unbox_box _ := eq_refl |}.
#[export] Instance boxed_PodPlacementConfigList : Boxed v1beta1.PodPlacementConfigList :=
  {| box := CPodPlacementConfigList; unbox x := match x with CPodPlacementConfigList y => Some y | _ => None end; unbox_box _ := eq_refl |}.
#[export] Instance boxed_PodPlacementConfigSpec : Boxed v1beta1.PodPlacementConfigSpec :=
  {| box := CPodPlacementConfigSpec; unbox x := match x with CPodPlacementConfigSpec y => Some y | _ => None end; unbox_box _ := eq_refl |}.
#[export] Instance boxed_PodPlacementConfigStatus : Boxed v1beta1.PodPlacementConfigStatus :=
  {| box := CPodPlacementConfigStatus; unbox x := match x with CPodPlacementConfigStatus y => Some y | _ => None end; unbox_box _ := eq_refl |}.
#[export] Instance boxed_PodPlacementConfigs : Boxed (list v1beta1.PodPlacementConfig) :=
  {| box := CPodPlacementConfigs; unbox x := match x with CPodPlacementConfigs y => Some y | _ => None end; unbox_box _ := eq_refl |}.
#[export] Instance boxed_AClusterPodPlacementConfig : Boxed v1alpha1.ClusterPodPlacementConfig :=
  {| box := CAClusterPodPlacementConfig; unbox x := match x with CAClusterPodPlacementConfig y => Some y | _ => None end; unbox_box _ := eq_refl |}.
#[export] Instance boxed_AClusterPodPlacementConfigList : Boxed v1alpha1.ClusterPodPlacementConfigList :=
  {| box := CAClusterPodPlacementConfigList; unbox x := match x with CAClusterPodPlacementConfigList y => Some y | _ => None end; unbox_box _ := eq_refl |}.
#[export] Instance boxed_AClusterPodPlacementConfigSpec : Boxed v1alpha1.ClusterPodPlacementConfigSpec :=
  {| box := CAClusterPodPlacementConfigSpec; unbox x := match x with CAClusterPodPlacementConfigSpec y => Some y | _ => None end; unbox_box _ := eq_refl |}.
#[export] Instance boxed_AClusterPodPlacementConfigStatus : Boxed v1alpha1.ClusterPodPlacementConfigStatus :=
  {| box := CAClusterPodPlacementConfigStatus; unbox x := match x with CAClusterPodPlacementConfigStatus y => Some y | _ => None end; unbox_box _ := eq_refl |}.
#[export] Instance boxed_AClusterPodPlacementConfigs : Boxed (list v1alpha1.ClusterPodPlacementConfig) :=
  {| box := CAClusterPodPlacementConfigs; unbox x := match x with CAClusterPodPlacementConfigs y => Some y | _ => None end; unbox_box _ := eq_refl |}.

(** *** Computations on the heap *)
Abbreviation Heap := (gmap loc Cell).
Definition M (A : Type) : Type := Heap → outcome (Heap * A).

#[export] Instance M_ret : MRet M := λ A a h, Ret (h, a).
#[export] Instance M_bind : MBind M := λ A B k c h,
  match c h with Ret (h', a) => k a h' | Panic => Panic end.

(** [*p], a panic if nothing of that type is there. *)
Definition load {A} `{Boxed A} (l : loc) : M A := λ h,
  match h !! l ≫= unbox with Some a => Ret (h, a) | None => Panic end.

(** A new cell with the given content. *)
Definition new {A} `{Boxed A} (a : A) : M loc := λ h,
  let l := fresh (dom h) in Ret (<[l := box a]> h, l).

(** [if in.F != nil { *out = new(T); ( *in).DeepCopyInto( *out) }], also
    [DeepCopy] itself: nil for nil. *)
Definition copyPointer {A} `{Boxed A} (DeepCopyInto : A → M A) (p : ptr A) : M (ptr A) :=
  match p_addr p with
  | None => mret (mkPtr None)
  | Some l =>
      a ← load l;
      a' ← DeepCopyInto a;
      l' ← new a';
      mret (mkPtr (Some l'))
  end.

(** [for i := range *in { ( *in)[i].DeepCopyInto(&( *out)[i]) }]. *)
Fixpoint copyElements {A} (DeepCopyInto : A → M A) (xs : list A) : M (list A) :=
  match xs with
  | [] => mret []
  | x :: rest => x' ← DeepCopyInto x; rest' ← copyElements DeepCopyInto rest; mret (x' :: rest')
  end.

(** [if in.F != nil { *out = make([]T, len( *in)); for ... }]. *)
Definition copySlice {A} `{Boxed (list A)} (DeepCopyInto : A → M A) (s : slice A) : M (slice A) :=
  match s_addr s with
  | None => mret (mkSlice None)
  | Some l =>
      xs ← load l;
      xs' ← copyElements DeepCopyInto xs;
      l' ← new xs';
      mret (mkSlice (Some l'))
  end.

(** [if in.F != nil { *out = make([]T, len( *in)); copy( *out, *in) }]. *)
Definition copyArray {A} `{Boxed (list A)} (s : slice A) : M (slice A) :=
  match s_addr s with
  | None => mret (mkSlice None)
  | Some l => xs ← load l; l' ← new xs; mret (mkSlice (Some l'))
  end.

(** [if in.F != nil { *out = make(map[string]string, len( *in)); for key, val := range *in { ( *out)[key] = val } }]. *)
Definition copyMap (m : strmap) : M strmap :=
  match m_addr m with
  | None => mret (mkStrmap None)
  | Some l =>
      t ← load l;
      l' ← new (map_fold (λ key val (acc : gmap string string), <[key := val]> acc) ∅ t);
      mret (mkStrmap (Some l'))
  end.

(** [if in.F != nil { *out = new(T); **out = **in }]. *)
Definition copyScalar {A} `{Boxed A} (p : ptr A) : M (ptr A) := copyPointer mret p.

(** ** The copies of the metadata, [k8s.io/apimachinery/pkg/apis/meta/v1] *)
Definition Time_DeepCopyInto (in_ : Time) : M Time :=
  mret in_.

Definition OwnerReference_DeepCopyInto (in_ : OwnerReference) : M OwnerReference :=
  controller ← copyScalar in_.(or_Controller);
  blockOwnerDeletion ← copyScalar in_.(or_BlockOwnerDeletion);
  mret {| or_APIVersion := in_.(or_APIVersion); or_Kind := in_.(or_Kind);
          or_Name := in_.(or_Name); or_UID := in_.(or_UID);
          or_Controller := controller; or_BlockOwnerDeletion := blockOwnerDeletion |}.

Definition FieldsV1_DeepCopyInto (in_ : FieldsV1) : M FieldsV1 :=
  raw ← copyArray in_.(fv_Raw);
  mret {| fv_Raw := raw |}.

Definition ManagedFieldsEntry_DeepCopyInto (in_ : ManagedFieldsEntry) : M ManagedFieldsEntry :=
  time_ ← copyPointer Time_DeepCopyInto in_.(mf_Time);
  fieldsV1 ← copyPointer FieldsV1_DeepCopyInto in_.(mf_FieldsV1);
  mret {| mf_Manager := in_.(mf_Manager); mf_Operation := in_.(mf_Operation);
          mf_APIVersion := in_.(mf_APIVersion); mf_Time := time_;
          mf_FieldsType := in_.(mf_FieldsType); mf_FieldsV1 := fieldsV1;
          mf_Subresource := in_.(mf_Subresource) |}.

Definition ObjectMeta_DeepCopyInto (in_ : ObjectMeta) : M ObjectMeta :=
  creationTimestamp ← Time_DeepCopyInto in_.(om_CreationTimestamp);
  deletionTimestamp ← copyPointer Time_DeepCopyInto in_.(om_DeletionTimestamp);
  deletionGracePeriodSeconds ← copyScalar in_.(om_DeletionGracePeriodSeconds);
  labels ← copyMap in_.(om_Labels);
  annotations ← copyMap in_.(om_Annotations);
  ownerReferences ← copySlice OwnerReference_DeepCopyInto in_.(om_OwnerReferences);
  finalizers ← copyArray in_.(om_Finalizers);
  managedFields ← copySlice ManagedFieldsEntry_DeepCopyInto in_.(om_ManagedFields);
  mret {| om_Name := in_.(om_Name); om_GenerateName := in_.(om_GenerateName);
          om_Namespace := in_.(om_Namespace); om_SelfLink := in_.(om_SelfLink);
          om_UID := in_.(om_UID); om_ResourceVersion := in_.(om_ResourceVersion);
          om_Generation := in_.(om_Generation);
          om_CreationTimestamp := creationTimestamp;
          om_DeletionTimestamp := deletionTimestamp;
          om_DeletionGracePeriodSeconds := deletionGracePeriodSeconds;
          om_Labels := labels; om_Annotations := annotations;
          om_OwnerReferences := ownerReferences; om_Finalizers := finalizers;
          om_ManagedFields := managedFields |}.

Definition ShardInfo_DeepCopyInto (in_ : ShardInfo) : M ShardInfo :=
  mret in_.

Definition ListMeta_DeepCopyInto (in_ : ListMeta) : M ListMeta :=
  remainingItemCount ← copyScalar in_.(lm_RemainingItemCount);
  shardInfo ← copyScalar in_.(lm_ShardInfo);
  mret {| lm_SelfLink := in_.(lm_SelfLink); lm_ResourceVersion := in_.(lm_ResourceVersion);
          lm_Continue := in_.(lm_Continue);
          lm_RemainingItemCount := remainingItemCount; lm_ShardInfo := shardInfo |}.

Definition LabelSelectorRequirement_DeepCopyInto (in_ : LabelSelectorRequirement) : M LabelSelectorRequirement :=
  values ← copyArray in_.(lr_Values);
  mret {| lr_Key := in_.(lr_Key); lr_Operator := in_.(lr_Operator); lr_Values := values |}.

Definition LabelSelector_DeepCopyInto (in_ : LabelSelector) : M LabelSelector :=
  matchLabels ← copyMap in_.(ls_MatchLabels);
  matchExpressions ← copySlice LabelSelectorRequirement_DeepCopyInto in_.(ls_MatchExpressions);
  mret {| ls_MatchLabels := matchLabels; ls_MatchExpressions := matchExpressions |}.

Definition Condition_DeepCopyInto (in_ : Condition) : M Condition :=
  lastTransitionTime ← Time_DeepCopyInto in_.(co_LastTransitionTime);
  mret {| co_Type := in_.(co_Type); co_Status := in_.(co_Status);
          co_ObservedGeneration := in_.(co_ObservedGeneration);
          co_LastTransitionTime := lastTransitionTime; co_Reason := in_.(co_Reason);
          co_Message := in_.(co_Message) |}.

(** ** [api/common/plugins] *)
Definition plugins_ArchitectureRule_DeepCopyInto (in_ : plugins.ArchitectureRule) : M plugins.ArchitectureRule :=
  architectures ← copyArray in_.(plugins.ar_Architectures);
  mret {| plugins.ar_Name := in_.(plugins.ar_Name);
          plugins.ar_Expression := in_.(plugins.ar_Expression);
          plugins.ar_Architectures := architectures |}.

Definition plugins_ArchitectureRule_DeepCopy (in_ : ptr plugins.ArchitectureRule) : M (ptr plugins.ArchitectureRule) :=
  copyPointer plugins_ArchitectureRule_DeepCopyInto in_.

Definition plugins_BasePlugin_DeepCopyInto (in_ : plugins.BasePlugin) : M plugins.BasePlugin :=
  mret in_.

Definition plugins_BasePlugin_DeepCopy (in_ : ptr plugins.BasePlugin) : M (ptr plugins.BasePlugin) :=
  copyPointer plugins_BasePlugin_DeepCopyInto in_.

Definition plugins_CelArchitecturePlacement_DeepCopyInto (in_ : plugins.CelArchitecturePlacement) : M plugins.CelArchitecturePlacement :=
  fallbackArchitectures ← copyArray in_.(plugins.ca_FallbackArchitectures);
  rules ← copySlice plugins_ArchitectureRule_DeepCopyInto in_.(plugins.ca_Rules);
  mret {| plugins.ca_BasePlugin := in_.(plugins.ca_BasePlugin);
          plugins.ca_FallbackArchitectures := fallbackArchitectures;
          plugins.ca_Rules := rules |}.

Definition plugins_CelArchitecturePlacement_DeepCopy (in_ : ptr plugins.CelArchitecturePlacement) : M (ptr plugins.CelArchitecturePlacement) :=
  copyPointer plugins_CelArchitecturePlacement_DeepCopyInto in_.

Definition plugins_ExecFormatErrorMonitor_DeepCopyInto (in_ : plugins.ExecFormatErrorMonitor) : M plugins.ExecFormatErrorMonitor :=
  mret in_.

Definition plugins_ExecFormatErrorMonitor_DeepCopy (in_ : ptr plugins.ExecFormatErrorMonitor) : M (ptr plugins.ExecFormatErrorMonitor) :=
  copyPointer plugins_ExecFormatErrorMonitor_DeepCopyInto in_.

Definition plugins_NodeAffinityScoringPlatformTerm_DeepCopyInto (in_ : plugins.NodeAffinityScoringPlatformTerm) : M plugins.NodeAffinityScoringPlatformTerm :=
  mret in_.

Definition plugins_NodeAffinityScoringPlatformTerm_DeepCopy (in_ : ptr plugins.NodeAffinityScoringPlatformTerm) : M (ptr plugins.NodeAffinityScoringPlatformTerm) :=
  copyPointer plugins_NodeAffinityScoringPlatformTerm_DeepCopyInto in_.

Definition plugins_NodeAffinityScoring_DeepCopyInto (in_ : plugins.NodeAffinityScoring) : M plugins.NodeAffinityScoring :=
  platforms ← copyArray in_.(plugins.na_Platforms);
  mret {| plugins.na_BasePlugin := in_.(plugins.na_BasePlugin);
          plugins.na_Platforms := platforms |}.

Definition plugins_NodeAffinityScoring_DeepCopy (in_ : ptr plugins.NodeAffinityScoring) : M (ptr plugins.NodeAffinityScoring) :=
  copyPointer plugins_NodeAffinityScoring_DeepCopyInto in_.

Definition plugins_LocalPlugins_DeepCopyInto (in_ : plugins.LocalPlugins) : M plugins.LocalPlugins :=
  nodeAffinityScoring ← copyPointer plugins_NodeAffinityScoring_DeepCopyInto in_.(plugins.lp_NodeAffinityScoring);
  celArchitecturePlacement ← copyPointer plugins_CelArchitecturePlacement_DeepCopyInto in_.(plugins.lp_CelArchitecturePlacement);
  mret {| plugins.lp_NodeAffinityScoring := nodeAffinityScoring;
          plugins.lp_CelArchitecturePlacement := celArchitecturePlacement |}.

Definition plugins_LocalPlugins_DeepCopy (in_ : ptr plugins.LocalPlugins) : M (ptr plugins.LocalPlugins) :=
  copyPointer plugins_LocalPlugins_DeepCopyInto in_.

Definition plugins_Plugins_DeepCopyInto (in_ : plugins.Plugins) : M plugins.Plugins :=
  nodeAffinityScoring ← copyPointer plugins_NodeAffinityScoring_DeepCopyInto in_.(plugins.pl_NodeAffinityScoring);
  execFormatErrorMonitor ← copyScalar in_.(plugins.pl_ExecFormatErrorMonitor);
  mret {| plugins.pl_NodeAffinityScoring := nodeAffinityScoring;
          plugins.pl_ExecFormatErrorMonitor := execFormatErrorMonitor |}.

Definition plugins_Plugins_DeepCopy (in_ : ptr plugins.Plugins) : M (ptr plugins.Plugins) :=
  copyPointer plugins_Plugins_DeepCopyInto in_.

(** ** [api/v1beta1] *)
Definition v1beta1_ClusterPodPlacementConfigSpec_DeepCopyInto (in_ : v1beta1.ClusterPodPlacementConfigSpec) : M v1beta1.ClusterPodPlacementConfigSpec :=
  namespaceSelector ← copyPointer LabelSelector_DeepCopyInto in_.(v1beta1.cs_NamespaceSelector);
  plugins ← copyPointer plugins_Plugins_DeepCopyInto in_.(v1beta1.cs_Plugins);
  mret {| v1beta1.cs_LogVerbosity := in_.(v1beta1.cs_LogVerbosity);
          v1beta1.cs_NamespaceSelector := namespaceSelector;
          v1beta1.cs_Plugins := plugins;
          v1beta1.cs_FallbackArchitecture := in_.(v1beta1.cs_FallbackArchitecture) |}.

Definition v1beta1_ClusterPodPlacementConfigSpec_DeepCopy (in_ : ptr v1beta1.ClusterPodPlacementConfigSpec) : M (ptr v1beta1.ClusterPodPlacementConfigSpec) :=
  copyPointer v1beta1_ClusterPodPlacementConfigSpec_DeepCopyInto in_.

Definition v1beta1_ClusterPodPlacementConfigStatus_DeepCopyInto (in_ : v1beta1.ClusterPodPlacementConfigStatus) : M v1beta1.ClusterPodPlacementConfigStatus :=
  conditions ← copySlice Condition_DeepCopyInto in_.(v1beta1.ct_Conditions);
  mret {| v1beta1.ct_Conditions := conditions;
          v1beta1.ct_available := in_.(v1beta1.ct_available);
          v1beta1.ct_progressing := in_.(v1beta1.ct_progressing);
          v1beta1.ct_degraded := in_.(v1beta1.ct_degraded);
          v1beta1.ct_deprovisioning := in_.(v1beta1.ct_deprovisioning);
          v1beta1.ct_podPlacementControllerNotReady := in_.(v1beta1.ct_podPlacementControllerNotReady);
          v1beta1.ct_podPlacementWebhookNotReady := in_.(v1beta1.ct_podPlacementWebhookNotReady);
          v1beta1.ct_mutatingWebhookConfigurationNotAvailable := in_.(v1beta1.ct_mutatingWebhookConfigurationNotAvailable);
          v1beta1.ct_canDeployMutatingWebhook := in_.(v1beta1.ct_canDeployMutatingWebhook) |}.

Definition v1beta1_ClusterPodPlacementConfigStatus_DeepCopy (in_ : ptr v1beta1.ClusterPodPlacementConfigStatus) : M (ptr v1beta1.ClusterPodPlacementConfigStatus) :=
  copyPointer v1beta1_ClusterPodPlacementConfigStatus_DeepCopyInto in_.

Definition v1beta1_ClusterPodPlacementConfig_DeepCopyInto (in_ : v1beta1.ClusterPodPlacementConfig) : M v1beta1.ClusterPodPlacementConfig :=
  objectMeta ← ObjectMeta_DeepCopyInto in_.(v1beta1.c_ObjectMeta);
  spec ← v1beta1_ClusterPodPlacementConfigSpec_DeepCopyInto in_.(v1beta1.c_Spec);
  status ← v1beta1_ClusterPodPlacementConfigStatus_DeepCopyInto in_.(v1beta1.c_Status);
  mret {| v1beta1.c_TypeMeta := in_.(v1beta1.c_TypeMeta); v1beta1.c_ObjectMeta := objectMeta;
          v1beta1.c_Spec := spec; v1beta1.c_Status := status |}.

Definition v1beta1_ClusterPodPlacementConfig_DeepCopy (in_ : ptr v1beta1.ClusterPodPlacementConfig) : M (ptr v1beta1.ClusterPodPlacementConfig) :=
  copyPointer v1beta1_ClusterPodPlacementConfig_DeepCopyInto in_.

Definition v1beta1_ClusterPodPlacementConfigList_DeepCopyInto (in_ : v1beta1.ClusterPodPlacementConfigList) : M v1beta1.ClusterPodPlacementConfigList :=
  listMeta ← ListMeta_DeepCopyInto in_.(v1beta1.cl_ListMeta);
  items ← copySlice v1beta1_ClusterPodPlacementConfig_DeepCopyInto in_.(v1beta1.cl_Items);
  mret {| v1beta1.cl_TypeMeta := in_.(v1beta1.cl_TypeMeta); v1beta1.cl_ListMeta := listMeta;
          v1beta1.cl_Items := items |}.

Definition v1beta1_ClusterPodPlacementConfigList_DeepCopy (in_ : ptr v1beta1.ClusterPodPlacementConfigList) : M (ptr v1beta1.ClusterPodPlacementConfigList) :=
  copyPointer v1beta1_ClusterPodPlacementConfigList_DeepCopyInto in_.

Definition v1beta1_ENoExecEventSpec_DeepCopyInto (in_ : v1beta1.ENoExecEventSpec) : M v1beta1.ENoExecEventSpec :=
  mret in_.

Definition v1beta1_ENoExecEventSpec_DeepCopy (in_ : ptr v1beta1.ENoExecEventSpec) : M (ptr v1beta1.ENoExecEventSpec) :=
  copyPointer v1beta1_ENoExecEventSpec_DeepCopyInto in_.

Definition v1beta1_ENoExecEventStatus_DeepCopyInto (in_ : v1beta1.ENoExecEventStatus) : M v1beta1.ENoExecEventStatus :=
  mret in_.

Definition v1beta1_ENoExecEventStatus_DeepCopy (in_ : ptr v1beta1.ENoExecEventStatus) : M (ptr v1beta1.ENoExecEventStatus) :=
  copyPointer v1beta1_ENoExecEventStatus_DeepCopyInto in_.

Definition v1beta1_ENoExecEvent_DeepCopyInto (in_ : v1beta1.ENoExecEvent) : M v1beta1.ENoExecEvent :=
  objectMeta ← ObjectMeta_DeepCopyInto in_.(v1beta1.e_ObjectMeta);
  mret {| v1beta1.e_TypeMeta := in_.(v1beta1.e_TypeMeta); v1beta1.e_ObjectMeta := objectMeta;
          v1beta1.e_Spec := in_.(v1beta1.e_Spec);
          v1beta1.e_Status := in_.(v1beta1.e_Status) |}.

Definition v1beta1_ENoExecEvent_DeepCopy (in_ : ptr v1beta1.ENoExecEvent) : M (ptr v1beta1.ENoExecEvent) :=
  copyPointer v1beta1_ENoExecEvent_DeepCopyInto in_.

Definition v1beta1_ENoExecEventList_DeepCopyInto (in_ : v1beta1.ENoExecEventList) : M v1beta1.ENoExecEventList :=
  listMeta ← ListMeta_DeepCopyInto in_.(v1beta1.el_ListMeta);
  items ← copySlice v1beta1_ENoExecEvent_DeepCopyInto in_.(v1beta1.el_Items);
  mret {| v1beta1.el_TypeMeta := in_.(v1beta1.el_TypeMeta); v1beta1.el_ListMeta := listMeta;
          v1beta1.el_Items := items |}.

Definition v1beta1_ENoExecEventList_DeepCopy (in_ : ptr v1beta1.ENoExecEventList) : M (ptr v1beta1.ENoExecEventList) :=
  copyPointer v1beta1_ENoExecEventList_DeepCopyInto in_.

Definition v1beta1_PodPlacementConfigSpec_DeepCopyInto (in_ : v1beta1.PodPlacementConfigSpec) : M v1beta1.PodPlacementConfigSpec :=
  labelSelector ← copyPointer LabelSelector_DeepCopyInto in_.(v1beta1.ps_LabelSelector);
  plugins ← copyPointer plugins_LocalPlugins_DeepCopyInto in_.(v1beta1.ps_Plugins);
  mret {| v1beta1.ps_LabelSelector := labelSelector; v1beta1.ps_Plugins := plugins;
          v1beta1.ps_Priority := in_.(v1beta1.ps_Priority) |}.

Definition v1beta1_PodPlacementConfigSpec_DeepCopy (in_ : ptr v1beta1.PodPlacementConfigSpec) : M (ptr v1beta1.PodPlacementConfigSpec) :=
  copyPointer v1beta1_PodPlacementConfigSpec_DeepCopyInto in_.

Definition v1beta1_PodPlacementConfigStatus_DeepCopyInto (in_ : v1beta1.PodPlacementConfigStatus) : M v1beta1.PodPlacementConfigStatus :=
  mret in_.

Definition v1beta1_PodPlacementConfigStatus_DeepCopy (in_ : ptr v1beta1.PodPlacementConfigStatus) : M (ptr v1beta1.PodPlacementConfigStatus) :=
  copyPointer v1beta1_PodPlacementConfigStatus_DeepCopyInto in_.

Definition v1beta1_PodPlacementConfig_DeepCopyInto (in_ : v1beta1.PodPlacementConfig) : M v1beta1.PodPlacementConfig :=
  objectMeta ← ObjectMeta_DeepCopyInto in_.(v1beta1.p_ObjectMeta);
  spec ← v1beta1_PodPlacementConfigSpec_DeepCopyInto in_.(v1beta1.p_Spec);
  mret {| v1beta1.p_TypeMeta := in_.(v1beta1.p_TypeMeta); v1beta1.p_ObjectMeta := objectMeta;
          v1beta1.p_Spec := spec; v1beta1.p_Status := in_.(v1beta1.p_Status) |}.

Definition v1beta1_PodPlacementConfig_DeepCopy (in_ : ptr v1beta1.PodPlacementConfig) : M (ptr v1beta1.PodPlacementConfig) :=
  copyPointer v1beta1_PodPlacementConfig_DeepCopyInto in_.

Definition v1beta1_PodPlacementConfigList_DeepCopyInto (in_ : v1beta1.PodPlacementConfigList) : M v1beta1.PodPlacementConfigList :=
  listMeta ← ListMeta_DeepCopyInto in_.(v1beta1.ppl_ListMeta);
  items ← copySlice v1beta1_PodPlacementConfig_DeepCopyInto in_.(v1beta1.ppl_Items);
  mret {| v1beta1.ppl_TypeMeta := in_.(v1beta1.ppl_TypeMeta); v1beta1.ppl_ListMeta := listMeta;
          v1beta1.ppl_Items := items |}.

Definition v1beta1_PodPlacementConfigList_DeepCopy (in_ : ptr v1beta1.PodPlacementConfigList) : M (ptr v1beta1.PodPlacementConfigList) :=
  copyPointer v1beta1_PodPlacementConfigList_DeepCopyInto in_.

(** ** [api/v1alpha1] *)
Definition v1alpha1_ClusterPodPlacementConfigSpec_DeepCopyInto (in_ : v1alpha1.ClusterPodPlacementConfigSpec) : M v1alpha1.ClusterPodPlacementConfigSpec :=
  namespaceSelector ← copyPointer LabelSelector_DeepCopyInto in_.(v1alpha1.cs_NamespaceSelector);
  mret {| v1alpha1.cs_LogVerbosity := in_.(v1alpha1.cs_LogVerbosity);
          v1alpha1.cs_NamespaceSelector := namespaceSelector |}.

Definition v1alpha1_ClusterPodPlacementConfigSpec_DeepCopy (in_ : ptr v1alpha1.ClusterPodPlacementConfigSpec) : M (ptr v1alpha1.ClusterPodPlacementConfigSpec) :=
  copyPointer v1alpha1_ClusterPodPlacementConfigSpec_DeepCopyInto in_.

Definition v1alpha1_ClusterPodPlacementConfigStatus_DeepCopyInto (in_ : v1alpha1.ClusterPodPlacementConfigStatus) : M v1alpha1.ClusterPodPlacementConfigStatus :=
  conditions ← copySlice Condition_DeepCopyInto in_.(v1alpha1.ct_Conditions);
  mret {| v1alpha1.ct_Conditions := conditions |}.

Definition v1alpha1_ClusterPodPlacementConfigStatus_DeepCopy (in_ : ptr v1alpha1.ClusterPodPlacementConfigStatus) : M (ptr v1alpha1.ClusterPodPlacementConfigStatus) :=
  copyPointer v1alpha1_ClusterPodPlacementConfigStatus_DeepCopyInto in_.

Definition v1alpha1_ClusterPodPlacementConfig_DeepCopyInto (in_ : v1alpha1.ClusterPodPlacementConfig) : M v1alpha1.ClusterPodPlacementConfig :=
  objectMeta ← ObjectMeta_DeepCopyInto in_.(v1alpha1.c_ObjectMeta);
  spec ← v1alpha1_ClusterPodPlacementConfigSpec_DeepCopyInto in_.(v1alpha1.c_Spec);
  status ← v1alpha1_ClusterPodPlacementConfigStatus_DeepCopyInto in_.(v1alpha1.c_Status);
  mret {| v1alpha1.c_TypeMeta := in_.(v1alpha1.c_TypeMeta); v1alpha1.c_ObjectMeta := objectMeta;
          v1alpha1.c_Spec := spec; v1alpha1.c_Status := status |}.

Definition v1alpha1_ClusterPodPlacementConfig_DeepCopy (in_ : ptr v1alpha1.ClusterPodPlacementConfig) : M (ptr v1alpha1.ClusterPodPlacementConfig) :=
  copyPointer v1alpha1_ClusterPodPlacementConfig_DeepCopyInto in_.

Definition v1alpha1_ClusterPodPlacementConfigList_DeepCopyInto (in_ : v1alpha1.ClusterPodPlacementConfigList) : M v1alpha1.ClusterPodPlacementConfigList :=
  listMeta ← ListMeta_DeepCopyInto in_.(v1alpha1.cl_ListMeta);
  items ← copySlice v1alpha1_ClusterPodPlacementConfig_DeepCopyInto in_.(v1alpha1.cl_Items);
  mret {| v1alpha1.cl_TypeMeta := in_.(v1alpha1.cl_TypeMeta); v1alpha1.cl_ListMeta := listMeta;
          v1alpha1.cl_Items := items |}.

Definition v1alpha1_ClusterPodPlacementConfigList_DeepCopy (in_ : ptr v1alpha1.ClusterPodPlacementConfigList) : M (ptr v1alpha1.ClusterPodPlacementConfigList) :=
  copyPointer v1alpha1_ClusterPodPlacementConfigList_DeepCopyInto in_.

(** ** [runtime.Object]

    An interface value: nil, or a type and a pointer, which may itself be nil. *)
Inductive Object : Type :=
| ONil
| O_v1beta1_ClusterPodPlacementConfig (p : ptr v1beta1.ClusterPodPlacementConfig)
| O_v1beta1_ClusterPodPlacementConfigList (p : ptr v1beta1.ClusterPodPlacementConfigList)
| O_v1beta1_ENoExecEvent (p : ptr v1beta1.ENoExecEvent)
| O_v1beta1_ENoExecEventList (p : ptr v1beta1.ENoExecEventList)
| O_v1beta1_PodPlacementConfig (p : ptr v1beta1.PodPlacementConfig)
| O_v1beta1_PodPlacementConfigList (p : ptr v1beta1.PodPlacementConfigList)
| O_v1alpha1_ClusterPodPlacementConfig (p : ptr v1alpha1.ClusterPodPlacementConfig)
| O_v1alpha1_ClusterPodPlacementConfigList (p : ptr v1alpha1.ClusterPodPlacementConfigList).

(** [if c := in.DeepCopy(); c != nil { return c }; return nil]. *)
Definition asObject {A} (wrap : ptr A → Object) (c : ptr A) : Object :=
  match p_addr c with Some _ => wrap c | None => ONil end.

Definition v1beta1_ClusterPodPlacementConfig_DeepCopyObject (in_ : ptr v1beta1.ClusterPodPlacementConfig) : M Object :=
  c ← v1beta1_ClusterPodPlacementConfig_DeepCopy in_; mret (asObject O_v1beta1_ClusterPodPlacementConfig c).

Definition v1beta1_ClusterPodPlacementConfigList_DeepCopyObject (in_ : ptr v1beta1.ClusterPodPlacementConfigList) : M Object :=
  c ← v1beta1_ClusterPodPlacementConfigList_DeepCopy in_; mret (asObject O_v1beta1_ClusterPodPlacementConfigList c).

Definition v1beta1_ENoExecEvent_DeepCopyObject (in_ : ptr v1beta1.ENoExecEvent) : M Object :=
  c ← v1beta1_ENoExecEvent_DeepCopy in_; mret (asObject O_v1beta1_ENoExecEvent c).

Definition v1beta1_ENoExecEventList_DeepCopyObject (in_ : ptr v1beta1.ENoExecEventList) : M Object :=
  c ← v1beta1_ENoExecEventList_DeepCopy in_; mret (asObject O_v1beta1_ENoExecEventList c).

Definition v1beta1_PodPlacementConfig_DeepCopyObject (in_ : ptr v1beta1.PodPlacementConfig) : M Object :=
  c ← v1beta1_PodPlacementConfig_DeepCopy in_; mret (asObject O_v1beta1_PodPlacementConfig c).

Definition v1beta1_PodPlacementConfigList_DeepCopyObject (in_ : ptr v1beta1.PodPlacementConfigList) : M Object :=
  c ← v1beta1_PodPlacementConfigList_DeepCopy in_; mret (asObject O_v1beta1_PodPlacementConfigList c).

Definition v1alpha1_ClusterPodPlacementConfig_DeepCopyObject (in_ : ptr v1alpha1.ClusterPodPlacementConfig) : M Object :=
  c ← v1alpha1_ClusterPodPlacementConfig_DeepCopy in_; mret (asObject O_v1alpha1_ClusterPodPlacementConfig c).

Definition v1alpha1_ClusterPodPlacementConfigList_DeepCopyObject (in_ : ptr v1alpha1.ClusterPodPlacementConfigList) : M Object :=
  c ← v1alpha1_ClusterPodPlacementConfigList_DeepCopy in_; mret (asObject O_v1alpha1_ClusterPodPlacementConfigList c).
