(* ===== verification/DeepCopyTheorems.v ===== *)
(** * Deep copies: the copy denotes the same value and shares nothing

    [den h a v fp]: in heap [h] the Go value [a] stands for the tree [v], read
    through exactly the cells [fp].  [Cloneable] derives from a type what a value
    of it denotes and the reference copy [clone]: scalars are kept, what is behind
    a pointer, a slice or a map is cloned into a new cell.  Every instance proves
    that [clone] is right; the generated functions are shown to be equal to
    [clone] at their type ([Generated]). *)
From stdpp Require Import base gmap strings list.
From S2P Require Import Prelude DeepCopy.

(** ** Values *)
Inductive Val : Type :=
| VNil
| VUnit
| VStr (s : string)
| VInt (z : Z)
| VBool (b : bool)
| VMap (m : gmap string string)
| VRef (v : Val)
| VCons (v w : Val).

(** The cells of [fp] hold the same in both heaps. *)
Definition agree (fp : gset loc) (h h' : Heap) : Prop := ∀ l, l ∈ fp → h' !! l = h !! l.

Lemma agree_union fp1 fp2 h h' : agree (fp1 ∪ fp2) h h' → agree fp1 h h' ∧ agree fp2 h h'.
Proof. unfold agree. set_solver. Qed.

Lemma agree_extends (fp : gset loc) (h h' : Heap) : fp ⊆ dom h → h ⊆ h' → agree fp h h'.
Proof.
  intros Hd Hs l Hl. apply Hd, elem_of_dom in Hl as [c Hc].
  transitivity (Some c); [exact (lookup_weaken _ _ _ _ Hc Hs)|done].
Qed.

Definition Den (A : Type) : Type := Heap → A → Val → gset loc → Prop.

(** What a copy has to do: return, keep the heap it was given, denote the same
    value, and reach only cells that are new. *)
Definition copies {A} (den : Den A) (f : A → M A) : Prop :=
  ∀ h a v fp, den h a v fp →
    ∃ h' a' fp', f a h = Ret (h', a') ∧ h ⊆ h' ∧ den h' a' v fp' ∧ fp' ## dom h.

Class Cloneable (A : Type) := {
  den : Den A;
  clone : A → M A;
  (** a denotation depends on its cells only, and these are allocated *)
  den_agree h h' a v fp : den h a v fp → agree fp h h' → den h' a v fp;
  den_dom h a v fp : den h a v fp → fp ⊆ dom h;
  clone_copies : copies den clone;
}.

Lemma den_extends `{Cloneable A} h h' (a : A) v fp : den h a v fp → h ⊆ h' → den h' a v fp.
Proof. intros Hd Hs. eapply den_agree; [done|]. eapply agree_extends; [by eapply den_dom|done]. Qed.

(** ** The instances *)

(** Scalars. *)
Definition scalar_den {A} (val : A → Val) : Den A := λ _ a v fp, v = val a ∧ fp = ∅.

Lemma scalar_copies {A} (val : A → Val) : copies (scalar_den val) mret.
Proof. intros h a v fp [-> ->]. exists h, a, ∅. repeat split; [done|set_solver]. Qed.

#[export] Program Instance scalar_string : Cloneable string :=
  {| den := scalar_den VStr; clone := mret; clone_copies := scalar_copies VStr |}.
Next Obligation. by intros ???? ? [-> ->]. Qed.
Next Obligation. intros ???? [-> ->]. set_solver. Qed.
#[export] Program Instance scalar_Z : Cloneable Z :=
  {| den := scalar_den VInt; clone := mret; clone_copies := scalar_copies VInt |}.
Next Obligation. by intros ???? ? [-> ->]. Qed.
Next Obligation. intros ???? [-> ->]. set_solver. Qed.
#[export] Program Instance scalar_bool : Cloneable bool :=
  {| den := scalar_den VBool; clone := mret; clone_copies := scalar_copies VBool |}.
Next Obligation. by intros ???? ? [-> ->]. Qed.
Next Obligation. intros ???? [-> ->]. set_solver. Qed.
#[export] Program Instance scalar_unit : Cloneable unit :=
  {| den := scalar_den (λ _, VUnit); clone := mret; clone_copies := scalar_copies (λ _, VUnit) |}.
Next Obligation. by intros ???? ? [-> ->]. Qed.
Next Obligation. intros ???? [-> ->]. set_solver. Qed.
#[export] Program Instance scalar_table : Cloneable (gmap string string) :=
  {| den := scalar_den VMap; clone := mret; clone_copies := scalar_copies VMap |}.
Next Obligation. by intros ???? ? [-> ->]. Qed.
Next Obligation. intros ???? [-> ->]. set_solver. Qed.

(** One computation after another. *)
Lemma bind_Ret {A B} (c : M A) (k : A → M B) h h' a :
  c h = Ret (h', a) → (c ≫= k) h = k a h'.
Proof. unfold mbind, M_bind. by intros ->. Qed.

Section pair.
Context {A B : Type} `{Cloneable A, Cloneable B}.

Definition pair_den : Den (A * B) := λ h p v fp,
  ∃ v1 v2 fp1 fp2, v = VCons v1 v2 ∧ fp = fp1 ∪ fp2 ∧ den h p.1 v1 fp1 ∧ den h p.2 v2 fp2.
Definition pair_clone (p : A * B) : M (A * B) :=
  a ← clone p.1; b ← clone p.2; mret (a, b).

#[export] Program Instance pair_Cloneable : Cloneable (A * B) := {| den := pair_den; clone := pair_clone |}.
Next Obligation.
  intros h h' p v fp (v1&v2&fp1&fp2&->&->&H1&H2) [??]%agree_union.
  exists v1, v2, fp1, fp2. eauto 6 using den_agree.
Qed.
Next Obligation.
  intros h p v fp (v1&v2&fp1&fp2&->&->&H1%den_dom&H2%den_dom). set_solver.
Qed.
Next Obligation.
  intros h p v fp (v1&v2&fp1&fp2&->&->&H1&H2).
  destruct (clone_copies _ _ _ _ H1) as (h1&a'&fp1'&E1&S1&D1&F1).
  destruct (clone_copies _ _ _ _ (den_extends _ _ _ _ _ H2 S1)) as (h2&b'&fp2'&E2&S2&D2&F2).
  exists h2, (a', b'), (fp1' ∪ fp2'). unfold pair_clone.
  rewrite (bind_Ret _ _ _ _ _ E1), (bind_Ret _ _ _ _ _ E2).
  split; [done|]. split; [by transitivity h1|]. split.
  - exists v1, v2, fp1', fp2'. eauto 6 using den_extends.
  - apply subseteq_dom in S1. set_solver.
Qed.
End pair.

Section elements.
Context {A : Type} `{Cloneable A}.

Fixpoint list_den (h : Heap) (xs : list A) (v : Val) (fp : gset loc) : Prop :=
  match xs with
  | [] => v = VNil ∧ fp = ∅
  | x :: rest =>
      ∃ v1 v2 fp1 fp2, v = VCons v1 v2 ∧ fp = fp1 ∪ fp2 ∧ den h x v1 fp1 ∧ list_den h rest v2 fp2
  end.

#[export] Program Instance list_Cloneable : Cloneable (list A) :=
  {| den := list_den; clone := copyElements clone |}.
Next Obligation.
  intros h h' xs; induction xs as [|x rest IH]; cbn; [done|].
  intros v fp (v1&v2&fp1&fp2&->&->&H1&H2) [??]%agree_union.
  exists v1, v2, fp1, fp2. eauto 6 using den_agree.
Qed.
Next Obligation.
  intros h xs; induction xs as [|x rest IH]; cbn; [by intros v fp [_ ->]; set_solver|].
  intros v fp (v1&v2&fp1&fp2&->&->&H1%den_dom&H2%IH). set_solver.
Qed.
Next Obligation.
  intros h xs; revert h; induction xs as [|x rest IH]; cbn; intros h v fp.
  { intros [-> ->]. exists h, [], ∅. repeat split; set_solver. }
  intros (v1&v2&fp1&fp2&->&->&H1&H2).
  destruct (clone_copies _ _ _ _ H1) as (h1&x'&fp1'&E1&S1&D1&F1).
  assert (H2' : list_den h1 rest v2 fp2).
  { eapply list_Cloneable_obligation_1; [done|].
    eapply agree_extends; [by eapply list_Cloneable_obligation_2|done]. }
  destruct (IH _ _ _ H2') as (h2&r'&fp2'&E2&S2&D2&F2).
  exists h2, (x' :: r'), (fp1' ∪ fp2').
  rewrite (bind_Ret _ _ _ _ _ E1), (bind_Ret _ _ _ _ _ E2).
  split; [done|]. split; [by transitivity h1|]. split.
  - exists v1, v2, fp1', fp2'. eauto 6 using den_extends.
  - apply subseteq_dom in S1. set_solver.
Qed.
End elements.

(** A reference: nil, or the address of a cell that is cloned. *)
Section reference.
Context {A : Type} `{Boxed A, Cloneable A}.

Definition ref_den : Den (option loc) := λ h r v fp,
  match r with
  | None => v = VNil ∧ fp = ∅
  | Some l => ∃ a v' fp', h !! l = Some (box a) ∧ den h a v' fp' ∧ v = VRef v' ∧ fp = {[l]} ∪ fp'
  end.
Definition ref_clone (r : option loc) : M (option loc) :=
  match r with
  | None => mret None
  | Some l => a ← load l; a' ← clone a; l' ← new a'; mret (Some l')
  end.

Lemma ref_den_agree h h' r v fp : ref_den h r v fp → agree fp h h' → ref_den h' r v fp.
Proof.
  destruct r as [l|]; [|done]. intros (a&v'&fp'&Hl&Hd&->&->) [Hag ?]%agree_union.
  exists a, v', fp'. rewrite Hag by set_solver. eauto using den_agree.
Qed.

Lemma ref_den_dom h r v fp : ref_den h r v fp → fp ⊆ dom h.
Proof.
  destruct r as [l|]; [|intros [_ ->]; set_solver].
  intros (a&v'&fp'&Hl&Hd%den_dom&->&->).
  assert (l ∈ dom h) by (apply elem_of_dom; eauto). set_solver.
Qed.

Lemma load_Ret h l (a : A) : h !! l = Some (box a) → load l h = Ret (h, a).
Proof. intros Hl. unfold load. rewrite Hl. cbn. by rewrite unbox_box. Qed.

Lemma ref_clone_copies : copies ref_den ref_clone.
Proof.
  intros h [l|] v fp; cbn; [|intros [-> ->]; exists h, None, ∅; repeat split; set_solver].
  intros (a&v'&fp'&Hl&Hd&->&->).
  destruct (clone_copies _ _ _ _ Hd) as (h1&a'&fp1&E1&S1&D1&F1).
  pose proof (is_fresh (dom h1)) as Hf.
  assert (S2 : h1 ⊆ <[fresh (dom h1) := box a']> h1)
    by (apply insert_subseteq, not_elem_of_dom, Hf).
  exists (<[fresh (dom h1) := box a']> h1), (Some (fresh (dom h1))), ({[fresh (dom h1)]} ∪ fp1).
  rewrite (bind_Ret _ _ _ _ _ (load_Ret _ _ _ Hl)), (bind_Ret _ _ _ _ _ E1).
  split; [done|]. split; [by transitivity h1|]. split.
  - exists a', v', fp1. rewrite lookup_insert_eq. eauto using den_extends.
  - apply subseteq_dom in S1. set_solver.
Qed.
End reference.

(** A type that is in bijection with a cloneable one: records, through tuples. *)
Section iso.
Context {A T : Type} `{Cloneable T} (tuple : A → T) (untuple : T → A).
Hypothesis tuple_untuple : ∀ x, tuple (untuple x) = x.

Definition iso_clone (a : A) : M A := x ← clone (tuple a); mret (untuple x).

Lemma iso_copies : copies (λ h a, den h (tuple a)) iso_clone.
Proof.
  intros h a v fp Hd. destruct (clone_copies _ _ _ _ Hd) as (h'&x&fp'&E&?&?&?).
  exists h', (untuple x), fp'. unfold iso_clone. rewrite (bind_Ret _ _ _ _ _ E), tuple_untuple. done.
Qed.

Definition iso_Cloneable : Cloneable A :=
  {| den h a := den h (tuple a); clone := iso_clone; clone_copies := iso_copies;
     den_agree h h' a := den_agree h h' (tuple a); den_dom h a := den_dom h (tuple a) |}.
End iso.

Definition ref_Cloneable (A : Type) `{Boxed A, Cloneable A} : Cloneable (option loc) :=
  {| den := ref_den; clone := ref_clone; clone_copies := ref_clone_copies;
     den_agree := ref_den_agree; den_dom := ref_den_dom |}.

#[export] Instance ptr_Cloneable {A} `{Boxed A, Cloneable A} : Cloneable (ptr A) :=
  @iso_Cloneable _ _ (ref_Cloneable A) p_addr mkPtr (λ _, eq_refl).
#[export] Instance slice_Cloneable {A} `{Boxed (list A), Cloneable A} : Cloneable (slice A) :=
  @iso_Cloneable _ _ (ref_Cloneable (list A)) s_addr mkSlice (λ _, eq_refl).
#[export] Instance strmap_Cloneable : Cloneable strmap :=
  @iso_Cloneable _ _ (ref_Cloneable (gmap string string)) m_addr mkStrmap (λ _, eq_refl).

(** ** The building blocks of the generated code *)

(** A type without references: its values are copied by assignment. *)
Class Flat (A : Type) `{Cloneable A} : Prop := flat : ∀ (a : A) h, clone a h = Ret (h, a).

(** A function of the generated code is the reference copy. *)
Class Generated {A} `{Cloneable A} (f : A → M A) : Prop := generated : ∀ a h, f a h = clone a h.

#[export] Instance flat_string : Flat string.
Proof. done. Qed.
#[export] Instance flat_Z : Flat Z.
Proof. done. Qed.
#[export] Instance flat_bool : Flat bool.
Proof. done. Qed.
#[export] Instance flat_table : Flat (gmap string string).
Proof. done. Qed.
#[export] Instance generated_assignment {A} `{Flat A} : Generated (A:=A) mret.
Proof. intros a h. by rewrite flat. Qed.

#[export] Instance generated_copyPointer {A} `{Boxed A, Cloneable A} (f : A → M A) :
  Generated f → Generated (copyPointer f).
Proof.
  intros Hf [[l|]] h; [|done]. unfold copyPointer. cbn. unfold iso_clone, ref_clone, mbind, M_bind. cbn.
  destruct (load l h) as [[h1 a]|]; [|done]. by rewrite generated; destruct (clone a h1) as [[??]|].
Qed.

#[export] Instance generated_copyScalar {A} `{Boxed A, Flat A} : Generated (A:=ptr A) copyScalar.
Proof. apply generated_copyPointer, _. Qed.

Lemma copyElements_ext {A} (f g : A → M A) xs :
  (∀ a h, f a h = g a h) → ∀ h, copyElements f xs h = copyElements g xs h.
Proof.
  intros Hfg. induction xs as [|x rest IH]; intros h; [done|]. cbn. unfold mbind, M_bind.
  rewrite Hfg. destruct (g x h) as [[??]|]; [|done]. by rewrite IH.
Qed.

Lemma copyElements_flat {A} `{Flat A} (xs : list A) h : copyElements clone xs h = Ret (h, xs).
Proof.
  revert h; induction xs as [|x rest IH]; intros h; [done|]. cbn. unfold mbind, M_bind.
  by rewrite flat, IH.
Qed.

#[export] Instance generated_copySlice {A} `{Boxed (list A), Cloneable A} (f : A → M A) :
  Generated f → Generated (copySlice f).
Proof.
  intros Hf [[l|]] h; [|done]. unfold copySlice. cbn. unfold iso_clone, ref_clone, mbind, M_bind. cbn.
  destruct (load l h) as [[h1 xs]|]; [|done].
  by rewrite (copyElements_ext _ _ _ Hf); destruct (copyElements clone xs h1) as [[??]|].
Qed.

#[export] Instance generated_copyArray {A} `{Boxed (list A), Flat A} : Generated (A:=slice A) copyArray.
Proof.
  intros [[l|]] h; [|done]. unfold copyArray. cbn. unfold iso_clone, ref_clone, mbind, M_bind. cbn.
  destruct (load l h) as [[h1 xs]|]; [|done]. by rewrite copyElements_flat.
Qed.

(** Ranging over a map and inserting what is found rebuilds the map. *)
Lemma map_fold_insert_all (m : gmap string string) :
  map_fold (λ k v (acc : gmap string string), <[k := v]> acc) ∅ m = m.
Proof.
  apply (map_fold_weak_ind (λ (r m : gmap string string), r = m)); [done|]. by intros k v m' r _ ->.
Qed.

#[export] Instance generated_copyMap : Generated copyMap.
Proof.
  intros [[l|]] h; [|done]. unfold copyMap. cbn. unfold iso_clone, ref_clone, mbind, M_bind. cbn.
  destruct (load l h) as [[h1 m]|]; [|done]. by rewrite map_fold_insert_all.
Qed.

(** ** The structures *)

(** [tuple (untuple x) = x]. *)
Ltac tuples := intros; by repeat match goal with x : _ * _ |- _ => destruct x | x : unit |- _ => destruct x end.

Lemma clone_pair {A B} `{Cloneable A, Cloneable B} (p : A * B) h :
  clone p h =
    match clone p.1 h with
    | Ret (h1, a) => match clone p.2 h1 with Ret (h2, b) => Ret (h2, (a, b)) | Panic => Panic end
    | Panic => Panic
    end.
Proof. done. Qed.

(** The copy of a record field by field is the copy of the tuple of its fields. *)
Ltac fields :=
  cbn [clone iso_Cloneable]; unfold iso_clone, mbind, M_bind, mret, M_ret;
  rewrite ?clone_pair; cbn [fst snd]; rewrite ?flat;
  repeat (match goal with
    | |- match ?f ?a ?h with Ret _ => _ | Panic => _ end = _ =>
        rewrite (generated (f:=f) a h); first [rewrite (flat a h) | destruct (clone a h) as [[??]|]]
    end; rewrite ?flat); try done.
Ltac flat_fields :=
  intros [] ?; cbn [clone iso_Cloneable]; unfold iso_clone, mbind, M_bind, mret, M_ret;
  rewrite ?clone_pair; cbn [fst snd]; by rewrite ?flat.
Ltac generated_fields := intros ? ?; fields.

#[export] Instance clone_TypeMeta : Cloneable TypeMeta.
Proof.
  refine (iso_Cloneable (λ r, (tm_Kind r, tm_APIVersion r))
    (λ '(a, b), mkTypeMeta a b) _).
  tuples.
Defined.
#[export] Instance flat_TypeMeta : Flat TypeMeta.
Proof. unfold clone_TypeMeta; flat_fields. Qed.

#[export] Instance clone_Time : Cloneable Time.
Proof.
  refine (iso_Cloneable tm_nanos
    mkTime _).
  tuples.
Defined.
#[export] Instance flat_Time : Flat Time.
Proof. unfold clone_Time; flat_fields. Qed.
#[export] Instance generated_Time : Generated Time_DeepCopyInto.
Proof. apply generated_assignment. Qed.

#[export] Instance clone_OwnerReference : Cloneable OwnerReference.
Proof.
  refine (iso_Cloneable (λ r, (or_APIVersion r, or_Kind r, or_Name r, or_UID r, or_Controller r, or_BlockOwnerDeletion r))
    (λ '(a, b, c, d, e, f), mkOwner a b c d e f) _).
  tuples.
Defined.
#[export] Instance generated_OwnerReference : Generated OwnerReference_DeepCopyInto.
Proof. unfold OwnerReference_DeepCopyInto, clone_OwnerReference; generated_fields. Qed.

#[export] Instance clone_FieldsV1 : Cloneable FieldsV1.
Proof.
  refine (iso_Cloneable fv_Raw
    mkFieldsV1 _).
  tuples.
Defined.
#[export] Instance generated_FieldsV1 : Generated FieldsV1_DeepCopyInto.
Proof. unfold FieldsV1_DeepCopyInto, clone_FieldsV1; generated_fields. Qed.

#[export] Instance clone_ManagedFieldsEntry : Cloneable ManagedFieldsEntry.
Proof.
  refine (iso_Cloneable (λ r, (mf_Manager r, mf_Operation r, mf_APIVersion r, mf_Time r, mf_FieldsType r, mf_FieldsV1 r, mf_Subresource r))
    (λ '(a, b, c, d, e, f, g), mkManaged a b c d e f g) _).
  tuples.
Defined.
#[export] Instance generated_ManagedFieldsEntry : Generated ManagedFieldsEntry_DeepCopyInto.
Proof. unfold ManagedFieldsEntry_DeepCopyInto, clone_ManagedFieldsEntry; generated_fields. Qed.

#[export] Instance clone_ObjectMeta : Cloneable ObjectMeta.
Proof.
  refine (iso_Cloneable (λ r, (om_Name r, om_GenerateName r, om_Namespace r, om_SelfLink r, om_UID r, om_ResourceVersion r, om_Generation r, om_CreationTimestamp r, om_DeletionTimestamp r, om_DeletionGracePeriodSeconds r, om_Labels r, om_Annotations r, om_OwnerReferences r, om_Finalizers r, om_ManagedFields r))
    (λ '(a, b, c, d, e, f, g, h, i, j, k, l, m, n, o), mkObjectMeta a b c d e f g h i j k l m n o) _).
  tuples.
Defined.
#[export] Instance generated_ObjectMeta : Generated ObjectMeta_DeepCopyInto.
Proof. unfold ObjectMeta_DeepCopyInto, clone_ObjectMeta; generated_fields. Qed.

#[export] Instance clone_ShardInfo : Cloneable ShardInfo.
Proof.
  refine (iso_Cloneable si_Selector
    mkShardInfo _).
  tuples.
Defined.
#[export] Instance flat_ShardInfo : Flat ShardInfo.
Proof. unfold clone_ShardInfo; flat_fields. Qed.
#[export] Instance generated_ShardInfo : Generated ShardInfo_DeepCopyInto.
Proof. apply generated_assignment. Qed.

#[export] Instance clone_ListMeta : Cloneable ListMeta.
Proof.
  refine (iso_Cloneable (λ r, (lm_SelfLink r, lm_ResourceVersion r, lm_Continue r, lm_RemainingItemCount r, lm_ShardInfo r))
    (λ '(a, b, c, d, e), mkListMeta a b c d e) _).
  tuples.
Defined.
#[export] Instance generated_ListMeta : Generated ListMeta_DeepCopyInto.
Proof. unfold ListMeta_DeepCopyInto, clone_ListMeta; generated_fields. Qed.

#[export] Instance clone_LabelSelectorRequirement : Cloneable LabelSelectorRequirement.
Proof.
  refine (iso_Cloneable (λ r, (lr_Key r, lr_Operator r, lr_Values r))
    (λ '(a, b, c), mkRequirement a b c) _).
  tuples.
Defined.
#[export] Instance generated_LabelSelectorRequirement : Generated LabelSelectorRequirement_DeepCopyInto.
Proof. unfold LabelSelectorRequirement_DeepCopyInto, clone_LabelSelectorRequirement; generated_fields. Qed.

#[export] Instance clone_LabelSelector : Cloneable LabelSelector.
Proof.
  refine (iso_Cloneable (λ r, (ls_MatchLabels r, ls_MatchExpressions r))
    (λ '(a, b), mkSelector a b) _).
  tuples.
Defined.
#[export] Instance generated_LabelSelector : Generated LabelSelector_DeepCopyInto.
Proof. unfold LabelSelector_DeepCopyInto, clone_LabelSelector; generated_fields. Qed.

#[export] Instance clone_Condition : Cloneable Condition.
Proof.
  refine (iso_Cloneable (λ r, (co_Type r, co_Status r, co_ObservedGeneration r, co_LastTransitionTime r, co_Reason r, co_Message r))
    (λ '(a, b, c, d, e, f), mkCondition a b c d e f) _).
  tuples.
Defined.
#[export] Instance generated_Condition : Generated Condition_DeepCopyInto.
Proof. unfold Condition_DeepCopyInto, clone_Condition; generated_fields. Qed.

#[export] Instance clone_plugins_ArchitectureRule : Cloneable plugins.ArchitectureRule.
Proof.
  refine (iso_Cloneable (λ r, (plugins.ar_Name r, plugins.ar_Expression r, plugins.ar_Architectures r))
    (λ '(a, b, c), plugins.mkRule a b c) _).
  tuples.
Defined.
#[export] Instance generated_plugins_ArchitectureRule : Generated plugins_ArchitectureRule_DeepCopyInto.
Proof. unfold plugins_ArchitectureRule_DeepCopyInto, clone_plugins_ArchitectureRule; generated_fields. Qed.

#[export] Instance clone_plugins_BasePlugin : Cloneable plugins.BasePlugin.
Proof.
  refine (iso_Cloneable plugins.bp_Enabled
    plugins.mkBase _).
  tuples.
Defined.
#[export] Instance flat_plugins_BasePlugin : Flat plugins.BasePlugin.
Proof. unfold clone_plugins_BasePlugin; flat_fields. Qed.
#[export] Instance generated_plugins_BasePlugin : Generated plugins_BasePlugin_DeepCopyInto.
Proof. apply generated_assignment. Qed.

#[export] Instance clone_plugins_CelArchitecturePlacement : Cloneable plugins.CelArchitecturePlacement.
Proof.
  refine (iso_Cloneable (λ r, (plugins.ca_BasePlugin r, plugins.ca_FallbackArchitectures r, plugins.ca_Rules r))
    (λ '(a, b, c), plugins.mkCel a b c) _).
  tuples.
Defined.
#[export] Instance generated_plugins_CelArchitecturePlacement : Generated plugins_CelArchitecturePlacement_DeepCopyInto.
Proof. unfold plugins_CelArchitecturePlacement_DeepCopyInto, clone_plugins_CelArchitecturePlacement; generated_fields. Qed.

#[export] Instance clone_plugins_ExecFormatErrorMonitor : Cloneable plugins.ExecFormatErrorMonitor.
Proof.
  refine (iso_Cloneable plugins.ef_BasePlugin
    plugins.mkMonitor _).
  tuples.
Defined.
#[export] Instance flat_plugins_ExecFormatErrorMonitor : Flat plugins.ExecFormatErrorMonitor.
Proof. unfold clone_plugins_ExecFormatErrorMonitor; flat_fields. Qed.
#[export] Instance generated_plugins_ExecFormatErrorMonitor : Generated plugins_ExecFormatErrorMonitor_DeepCopyInto.
Proof. apply generated_assignment. Qed.

#[export] Instance clone_plugins_NodeAffinityScoringPlatformTerm : Cloneable plugins.NodeAffinityScoringPlatformTerm.
Proof.
  refine (iso_Cloneable (λ r, (plugins.pt_Architecture r, plugins.pt_Weight r))
    (λ '(a, b), plugins.mkTerm a b) _).
  tuples.
Defined.
#[export] Instance flat_plugins_NodeAffinityScoringPlatformTerm : Flat plugins.NodeAffinityScoringPlatformTerm.
Proof. unfold clone_plugins_NodeAffinityScoringPlatformTerm; flat_fields. Qed.
#[export] Instance generated_plugins_NodeAffinityScoringPlatformTerm : Generated plugins_NodeAffinityScoringPlatformTerm_DeepCopyInto.
Proof. apply generated_assignment. Qed.

#[export] Instance clone_plugins_NodeAffinityScoring : Cloneable plugins.NodeAffinityScoring.
Proof.
  refine (iso_Cloneable (λ r, (plugins.na_BasePlugin r, plugins.na_Platforms r))
    (λ '(a, b), plugins.mkScoring a b) _).
  tuples.
Defined.
#[export] Instance generated_plugins_NodeAffinityScoring : Generated plugins_NodeAffinityScoring_DeepCopyInto.
Proof. unfold plugins_NodeAffinityScoring_DeepCopyInto, clone_plugins_NodeAffinityScoring; generated_fields. Qed.

#[export] Instance clone_plugins_LocalPlugins : Cloneable plugins.LocalPlugins.
Proof.
  refine (iso_Cloneable (λ r, (plugins.lp_NodeAffinityScoring r, plugins.lp_CelArchitecturePlacement r))
    (λ '(a, b), plugins.mkLocal a b) _).
  tuples.
Defined.
#[export] Instance generated_plugins_LocalPlugins : Generated plugins_LocalPlugins_DeepCopyInto.
Proof. unfold plugins_LocalPlugins_DeepCopyInto, clone_plugins_LocalPlugins; generated_fields. Qed.

#[export] Instance clone_plugins_Plugins : Cloneable plugins.Plugins.
Proof.
  refine (iso_Cloneable (λ r, (plugins.pl_NodeAffinityScoring r, plugins.pl_ExecFormatErrorMonitor r))
    (λ '(a, b), plugins.mkPlugins a b) _).
  tuples.
Defined.
#[export] Instance generated_plugins_Plugins : Generated plugins_Plugins_DeepCopyInto.
Proof. unfold plugins_Plugins_DeepCopyInto, clone_plugins_Plugins; generated_fields. Qed.

#[export] Instance clone_v1beta1_ClusterPodPlacementConfigSpec : Cloneable v1beta1.ClusterPodPlacementConfigSpec.
Proof.
  refine (iso_Cloneable (λ r, (v1beta1.cs_LogVerbosity r, v1beta1.cs_NamespaceSelector r, v1beta1.cs_Plugins r, v1beta1.cs_FallbackArchitecture r))
    (λ '(a, b, c, d), v1beta1.mkCSpec a b c d) _).
  tuples.
Defined.
#[export] Instance generated_v1beta1_ClusterPodPlacementConfigSpec : Generated v1beta1_ClusterPodPlacementConfigSpec_DeepCopyInto.
Proof. unfold v1beta1_ClusterPodPlacementConfigSpec_DeepCopyInto, clone_v1beta1_ClusterPodPlacementConfigSpec; generated_fields. Qed.

#[export] Instance clone_v1beta1_ClusterPodPlacementConfigStatus : Cloneable v1beta1.ClusterPodPlacementConfigStatus.
Proof.
  refine (iso_Cloneable (λ r, (v1beta1.ct_Conditions r, v1beta1.ct_available r, v1beta1.ct_progressing r, v1beta1.ct_degraded r, v1beta1.ct_deprovisioning r, v1beta1.ct_podPlacementControllerNotReady r, v1beta1.ct_podPlacementWebhookNotReady r, v1beta1.ct_mutatingWebhookConfigurationNotAvailable r, v1beta1.ct_canDeployMutatingWebhook r))
    (λ '(a, b, c, d, e, f, g, h, i), v1beta1.mkCStatus a b c d e f g h i) _).
  tuples.
Defined.
#[export] Instance generated_v1beta1_ClusterPodPlacementConfigStatus : Generated v1beta1_ClusterPodPlacementConfigStatus_DeepCopyInto.
Proof. unfold v1beta1_ClusterPodPlacementConfigStatus_DeepCopyInto, clone_v1beta1_ClusterPodPlacementConfigStatus; generated_fields. Qed.

#[export] Instance clone_v1beta1_ClusterPodPlacementConfig : Cloneable v1beta1.ClusterPodPlacementConfig.
Proof.
  refine (iso_Cloneable (λ r, (v1beta1.c_TypeMeta r, v1beta1.c_ObjectMeta r, v1beta1.c_Spec r, v1beta1.c_Status r))
    (λ '(a, b, c, d), v1beta1.mkC a b c d) _).
  tuples.
Defined.
#[export] Instance generated_v1beta1_ClusterPodPlacementConfig : Generated v1beta1_ClusterPodPlacementConfig_DeepCopyInto.
Proof. unfold v1beta1_ClusterPodPlacementConfig_DeepCopyInto, clone_v1beta1_ClusterPodPlacementConfig; generated_fields. Qed.

#[export] Instance clone_v1beta1_ClusterPodPlacementConfigList : Cloneable v1beta1.ClusterPodPlacementConfigList.
Proof.
  refine (iso_Cloneable (λ r, (v1beta1.cl_TypeMeta r, v1beta1.cl_ListMeta r, v1beta1.cl_Items r))
    (λ '(a, b, c), v1beta1.mkCL a b c) _).
  tuples.
Defined.
#[export] Instance generated_v1beta1_ClusterPodPlacementConfigList : Generated v1beta1_ClusterPodPlacementConfigList_DeepCopyInto.
Proof. unfold v1beta1_ClusterPodPlacementConfigList_DeepCopyInto, clone_v1beta1_ClusterPodPlacementConfigList; generated_fields. Qed.

#[export] Instance clone_v1beta1_ENoExecEventSpec : Cloneable v1beta1.ENoExecEventSpec.
Proof.
  refine (iso_Cloneable (λ _, ())
    (λ _, v1beta1.mkESpec) _).
  tuples.
Defined.
#[export] Instance flat_v1beta1_ENoExecEventSpec : Flat v1beta1.ENoExecEventSpec.
Proof. unfold clone_v1beta1_ENoExecEventSpec; flat_fields. Qed.
#[export] Instance generated_v1beta1_ENoExecEventSpec : Generated v1beta1_ENoExecEventSpec_DeepCopyInto.
Proof. apply generated_assignment. Qed.

#[export] Instance clone_v1beta1_ENoExecEventStatus : Cloneable v1beta1.ENoExecEventStatus.
Proof.
  refine (iso_Cloneable (λ r, (v1beta1.es_NodeName r, v1beta1.es_PodName r, v1beta1.es_PodNamespace r, v1beta1.es_ContainerID r))
    (λ '(a, b, c, d), v1beta1.mkEStatus a b c d) _).
  tuples.
Defined.
#[export] Instance flat_v1beta1_ENoExecEventStatus : Flat v1beta1.ENoExecEventStatus.
Proof. unfold clone_v1beta1_ENoExecEventStatus; flat_fields. Qed.
#[export] Instance generated_v1beta1_ENoExecEventStatus : Generated v1beta1_ENoExecEventStatus_DeepCopyInto.
Proof. apply generated_assignment. Qed.

#[export] Instance clone_v1beta1_ENoExecEvent : Cloneable v1beta1.ENoExecEvent.
Proof.
  refine (iso_Cloneable (λ r, (v1beta1.e_TypeMeta r, v1beta1.e_ObjectMeta r, v1beta1.e_Spec r, v1beta1.e_Status r))
    (λ '(a, b, c, d), v1beta1.mkE a b c d) _).
  tuples.
Defined.
#[export] Instance generated_v1beta1_ENoExecEvent : Generated v1beta1_ENoExecEvent_DeepCopyInto.
Proof. unfold v1beta1_ENoExecEvent_DeepCopyInto, clone_v1beta1_ENoExecEvent; generated_fields. Qed.

#[export] Instance clone_v1beta1_ENoExecEventList : Cloneable v1beta1.ENoExecEventList.
Proof.
  refine (iso_Cloneable (λ r, (v1beta1.el_TypeMeta r, v1beta1.el_ListMeta r, v1beta1.el_Items r))
    (λ '(a, b, c), v1beta1.mkEL a b c) _).
  tuples.
Defined.
#[export] Instance generated_v1beta1_ENoExecEventList : Generated v1beta1_ENoExecEventList_DeepCopyInto.
Proof. unfold v1beta1_ENoExecEventList_DeepCopyInto, clone_v1beta1_ENoExecEventList; generated_fields. Qed.

#[export] Instance clone_v1beta1_PodPlacementConfigSpec : Cloneable v1beta1.PodPlacementConfigSpec.
Proof.
  refine (iso_Cloneable (λ r, (v1beta1.ps_LabelSelector r, v1beta1.ps_Plugins r, v1beta1.ps_Priority r))
    (λ '(a, b, c), v1beta1.mkPSpec a b c) _).
  tuples.
Defined.
#[export] Instance generated_v1beta1_PodPlacementConfigSpec : Generated v1beta1_PodPlacementConfigSpec_DeepCopyInto.
Proof. unfold v1beta1_PodPlacementConfigSpec_DeepCopyInto, clone_v1beta1_PodPlacementConfigSpec; generated_fields. Qed.

#[export] Instance clone_v1beta1_PodPlacementConfigStatus : Cloneable v1beta1.PodPlacementConfigStatus.
Proof.
  refine (iso_Cloneable (λ _, ())
    (λ _, v1beta1.mkPStatus) _).
  tuples.
Defined.
#[export] Instance flat_v1beta1_PodPlacementConfigStatus : Flat v1beta1.PodPlacementConfigStatus.
Proof. unfold clone_v1beta1_PodPlacementConfigStatus; flat_fields. Qed.
#[export] Instance generated_v1beta1_PodPlacementConfigStatus : Generated v1beta1_PodPlacementConfigStatus_DeepCopyInto.
Proof. apply generated_assignment. Qed.

#[export] Instance clone_v1beta1_PodPlacementConfig : Cloneable v1beta1.PodPlacementConfig.
Proof.
  refine (iso_Cloneable (λ r, (v1beta1.p_TypeMeta r, v1beta1.p_ObjectMeta r, v1beta1.p_Spec r, v1beta1.p_Status r))
    (λ '(a, b, c, d), v1beta1.mkP a b c d) _).
  tuples.
Defined.
#[export] Instance generated_v1beta1_PodPlacementConfig : Generated v1beta1_PodPlacementConfig_DeepCopyInto.
Proof. unfold v1beta1_PodPlacementConfig_DeepCopyInto, clone_v1beta1_PodPlacementConfig; generated_fields. Qed.

#[export] Instance clone_v1beta1_PodPlacementConfigList : Cloneable v1beta1.PodPlacementConfigList.
Proof.
  refine (iso_Cloneable (λ r, (v1beta1.ppl_TypeMeta r, v1beta1.ppl_ListMeta r, v1beta1.ppl_Items r))
    (λ '(a, b, c), v1beta1.mkPL a b c) _).
  tuples.
Defined.
#[export] Instance generated_v1beta1_PodPlacementConfigList : Generated v1beta1_PodPlacementConfigList_DeepCopyInto.
Proof. unfold v1beta1_PodPlacementConfigList_DeepCopyInto, clone_v1beta1_PodPlacementConfigList; generated_fields. Qed.

#[export] Instance clone_v1alpha1_ClusterPodPlacementConfigSpec : Cloneable v1alpha1.ClusterPodPlacementConfigSpec.
Proof.
  refine (iso_Cloneable (λ r, (v1alpha1.cs_LogVerbosity r, v1alpha1.cs_NamespaceSelector r))
    (λ '(a, b), v1alpha1.mkCSpec a b) _).
  tuples.
Defined.
#[export] Instance generated_v1alpha1_ClusterPodPlacementConfigSpec : Generated v1alpha1_ClusterPodPlacementConfigSpec_DeepCopyInto.
Proof. unfold v1alpha1_ClusterPodPlacementConfigSpec_DeepCopyInto, clone_v1alpha1_ClusterPodPlacementConfigSpec; generated_fields. Qed.

#[export] Instance clone_v1alpha1_ClusterPodPlacementConfigStatus : Cloneable v1alpha1.ClusterPodPlacementConfigStatus.
Proof.
  refine (iso_Cloneable v1alpha1.ct_Conditions
    v1alpha1.mkCStatus _).
  tuples.
Defined.
#[export] Instance generated_v1alpha1_ClusterPodPlacementConfigStatus : Generated v1alpha1_ClusterPodPlacementConfigStatus_DeepCopyInto.
Proof. unfold v1alpha1_ClusterPodPlacementConfigStatus_DeepCopyInto, clone_v1alpha1_ClusterPodPlacementConfigStatus; generated_fields. Qed.

#[export] Instance clone_v1alpha1_ClusterPodPlacementConfig : Cloneable v1alpha1.ClusterPodPlacementConfig.
Proof.
  refine (iso_Cloneable (λ r, (v1alpha1.c_TypeMeta r, v1alpha1.c_ObjectMeta r, v1alpha1.c_Spec r, v1alpha1.c_Status r))
    (λ '(a, b, c, d), v1alpha1.mkC a b c d) _).
  tuples.
Defined.
#[export] Instance generated_v1alpha1_ClusterPodPlacementConfig : Generated v1alpha1_ClusterPodPlacementConfig_DeepCopyInto.
Proof. unfold v1alpha1_ClusterPodPlacementConfig_DeepCopyInto, clone_v1alpha1_ClusterPodPlacementConfig; generated_fields. Qed.

#[export] Instance clone_v1alpha1_ClusterPodPlacementConfigList : Cloneable v1alpha1.ClusterPodPlacementConfigList.
Proof.
  refine (iso_Cloneable (λ r, (v1alpha1.cl_TypeMeta r, v1alpha1.cl_ListMeta r, v1alpha1.cl_Items r))
    (λ '(a, b, c), v1alpha1.mkCL a b c) _).
  tuples.
Defined.
#[export] Instance generated_v1alpha1_ClusterPodPlacementConfigList : Generated v1alpha1_ClusterPodPlacementConfigList_DeepCopyInto.
Proof. unfold v1alpha1_ClusterPodPlacementConfigList_DeepCopyInto, clone_v1alpha1_ClusterPodPlacementConfigList; generated_fields. Qed.

(** ** The generated functions copy *)

(** A copy that shares nothing with the original: it returns, the original is
    left as it was, the copy stands for the same value, in cells that were not
    allocated before; afterwards writes to the cells of one leave the other. *)
Definition isolates {A} `{Cloneable A} (f : A → M A) : Prop :=
  ∀ h a v fp, den h a v fp →
    ∃ h' a' fp', f a h = Ret (h', a') ∧ h ⊆ h' ∧
      den h' a v fp ∧ den h' a' v fp' ∧ fp' ## dom h ∧ fp ## fp' ∧
      (∀ h'', agree fp' h' h'' → den h'' a' v fp') ∧
      (∀ h'', agree fp h' h'' → den h'' a v fp).

Lemma generated_isolates {A} `{Cloneable A} (f : A → M A) : Generated f → isolates f.
Proof.
  intros Hf h a v fp Hd. destruct (clone_copies _ _ _ _ Hd) as (h'&a'&fp'&E&S&D&F).
  exists h', a', fp'. rewrite (generated (f:=f)). pose proof (den_dom _ _ _ _ Hd).
  assert (fp ## fp') by set_solver. eauto 12 using den_extends, den_agree.
Qed.

(** [DeepCopyObject]: the nil interface for nil, otherwise the copy in an
    interface of its own type, never an interface that holds a nil pointer. *)
Definition copies_object {A} `{Boxed A, Cloneable A} (wrap : ptr A → Object) (f : ptr A → M Object) : Prop :=
  ∀ h p v fp, den h p v fp →
    match p_addr p with
    | None => f p h = Ret (h, ONil)
    | Some _ => ∃ h' l fp', f p h = Ret (h', wrap (mkPtr (Some l))) ∧ h ⊆ h' ∧
                  den h' (mkPtr (A:=A) (Some l)) v fp' ∧ fp ## fp'
    end.

Lemma generated_object {A} `{Boxed A, Cloneable A} wrap (f : A → M A) :
  Generated f → copies_object wrap (λ p, c ← copyPointer f p; mret (asObject wrap c)).
Proof.
  intros Hf h [[l|]] v fp Hd; cbn; [|done].
  destruct (generated_isolates (copyPointer f) _ _ _ _ _ Hd) as (h'&[l']&fp'&E&S&_&D&_&F&_).
  rewrite (bind_Ret _ _ _ _ _ E). cbn in Hd. destruct Hd as (x&v'&fp0&_&_&->&_).
  destruct l' as [l'|]; cbn in D; [|by destruct D]. by exists h', l', fp'.
Qed.

(** C39: every [DeepCopy] and [DeepCopyObject] that is generated for the resources
    and their parts returns (it does not panic) a copy that stands for the same
    value as the original and shares no cell with it, so that writes through one
    cannot be seen through the other; nil is copied to nil, and as an object to the
    nil interface. *)
Theorem deepcopy_isolates :
  isolates plugins_ArchitectureRule_DeepCopy ∧
  isolates plugins_BasePlugin_DeepCopy ∧
  isolates plugins_CelArchitecturePlacement_DeepCopy ∧
  isolates plugins_ExecFormatErrorMonitor_DeepCopy ∧
  isolates plugins_NodeAffinityScoringPlatformTerm_DeepCopy ∧
  isolates plugins_NodeAffinityScoring_DeepCopy ∧
  isolates plugins_LocalPlugins_DeepCopy ∧
  isolates plugins_Plugins_DeepCopy ∧
  isolates v1beta1_ClusterPodPlacementConfigSpec_DeepCopy ∧
  isolates v1beta1_ClusterPodPlacementConfigStatus_DeepCopy ∧
  isolates v1beta1_ClusterPodPlacementConfig_DeepCopy ∧
  isolates v1beta1_ClusterPodPlacementConfigList_DeepCopy ∧
  isolates v1beta1_ENoExecEventSpec_DeepCopy ∧
  isolates v1beta1_ENoExecEventStatus_DeepCopy ∧
  isolates v1beta1_ENoExecEvent_DeepCopy ∧
  isolates v1beta1_ENoExecEventList_DeepCopy ∧
  isolates v1beta1_PodPlacementConfigSpec_DeepCopy ∧
  isolates v1beta1_PodPlacementConfigStatus_DeepCopy ∧
  isolates v1beta1_PodPlacementConfig_DeepCopy ∧
  isolates v1beta1_PodPlacementConfigList_DeepCopy ∧
  isolates v1alpha1_ClusterPodPlacementConfigSpec_DeepCopy ∧
  isolates v1alpha1_ClusterPodPlacementConfigStatus_DeepCopy ∧
  isolates v1alpha1_ClusterPodPlacementConfig_DeepCopy ∧
  isolates v1alpha1_ClusterPodPlacementConfigList_DeepCopy ∧
  copies_object O_v1beta1_ClusterPodPlacementConfig v1beta1_ClusterPodPlacementConfig_DeepCopyObject ∧
  copies_object O_v1beta1_ClusterPodPlacementConfigList v1beta1_ClusterPodPlacementConfigList_DeepCopyObject ∧
  copies_object O_v1beta1_ENoExecEvent v1beta1_ENoExecEvent_DeepCopyObject ∧
  copies_object O_v1beta1_ENoExecEventList v1beta1_ENoExecEventList_DeepCopyObject ∧
  copies_object O_v1beta1_PodPlacementConfig v1beta1_PodPlacementConfig_DeepCopyObject ∧
  copies_object O_v1beta1_PodPlacementConfigList v1beta1_PodPlacementConfigList_DeepCopyObject ∧
  copies_object O_v1alpha1_ClusterPodPlacementConfig v1alpha1_ClusterPodPlacementConfig_DeepCopyObject ∧
  copies_object O_v1alpha1_ClusterPodPlacementConfigList v1alpha1_ClusterPodPlacementConfigList_DeepCopyObject.
Proof. repeat split; first [apply generated_isolates, _ | apply generated_object, _]. Qed.

(** A specification with a selector, in three cells. *)
Definition toySpec : v1beta1.PodPlacementConfigSpec :=
  v1beta1.mkPSpec (mkPtr (Some 2%positive)) (mkPtr None) 7.
Definition toyHeap : Heap :=
  {[ 1%positive := CTable {[ "app" := "web" ]};
     2%positive := CLabelSelector (mkSelector (mkStrmap (Some 1%positive)) (mkSlice None));
     3%positive := CPodPlacementConfigSpec toySpec ]}.

Definition toyVal (labels : gmap string string) : Val :=
  VRef (VCons (VCons (VRef (VCons (VRef (VMap labels)) VNil)) VNil) (VInt 7)).

(** It denotes what it should, and its copy, computed, is made of three new cells. *)
Example toySpec_denotes : ∃ fp, den toyHeap (mkPtr (A:=v1beta1.PodPlacementConfigSpec) (Some 3%positive))
  (toyVal {[ "app" := "web" ]}) fp.
Proof.
  eexists; cbn. eexists _, _, _; split; [reflexivity|]; split; [|by split].
  eexists _, _, _, _; split; [reflexivity|]; split; [reflexivity|]; split; [|by split].
  eexists _, _, _, _; split; [reflexivity|]; split; [reflexivity|]; split; [|by split].
  eexists _, _, _; split; [reflexivity|]; split; [|by split].
  eexists _, _, _, _; split; [reflexivity|]; split; [reflexivity|]; split; [|by split].
  eexists _, _, _; split; [reflexivity|]; by split.
Qed.

Example toySpec_copied :
  match v1beta1_PodPlacementConfigSpec_DeepCopy (mkPtr (Some 3%positive)) toyHeap with
  | Ret (h, p) => size h = 6 ∧ p = mkPtr (Some 6%positive)
  | Panic => False
  end.
Proof. vm_compute. done. Qed.
