(* ===== verification/ImageInspect.v ===== *)
(** * Image inspection

    [pkg/image]: what the registry inspector makes of a manifest
    ([inspector.go]), and the cache in front of it ([cache.go], [facade.go]) on
    the expirable LRU of the vendored [hashicorp/golang-lru/v2/expirable].

    Fetching and parsing a manifest is the work of [containers/image]; its
    results are the records below.  The credentials file ([auth.go]) only enters
    through the bytes it would have. *)
From Stdlib Require Import Ascii.
From stdpp Require Import base gmap strings list relations.
From S2P Require Import Prelude GoStd Api Lru ExpirableLru.

(** ** The registry inspector *)
Module inspector.

Record Platform := mkPlatformOCI { pf_Architecture : string; pf_OS : string }.

(** An entry of an image index. *)
Record Descriptor := mkDescriptor {
  d_Digest : string;
  d_Annotations : GoMap string;
  d_Platform : option Platform;
}.

(** [operatorSDKBuilderBundleAnnotationSet] *)
Definition operatorSDKBuilderBundleAnnotationSet : list string :=
  [ "operators.operatorframework.io.metrics.builder";
    "operators.operatorframework.io.bundle.mediatype.v1";
    "operators.operatorframework.io.bundle.manifests.v1";
    "operators.operatorframework.io.bundle.metadata.v1";
    "operators.operatorframework.io.bundle.package.v1";
    "operators.operatorframework.io.bundle.channels.v1";
    "operators.operatorframework.io.bundle.channel.default.v1" ].

(** [isBundleImage], on the labels of the image config. *)
Definition isBundleImage (labels : GoMap string) : bool :=
  existsb (λ l, bool_decide (l ∈ operatorSDKBuilderBundleAnnotationSet))
    (map_to_list (default ∅ labels)).*1.

Definition isAttestation (m : Descriptor) : bool :=
  match d_Annotations m with
  | None => false
  | Some a => bool_decide (is_Some (a !! "vnd.docker.reference.type"))
              || bool_decide (is_Some (a !! "vnd.docker.reference.digest"))
  end.

(** The loop over [index.Manifests]: the architectures, and the digest of the
    first accepted manifest.  The arguments of the log call for a skipped
    manifest read [m.Platform.Architecture] even when the platform is nil. *)
Fixpoint scanIndex (ms : list Descriptor) (archs : gset string) (first : option string) :
    outcome (gset string * option string) :=
  match ms with
  | [] => Ret (archs, first)
  | m :: ms' =>
      if isAttestation m then scanIndex ms' archs first
      else
        match d_Platform m with
        | None => Panic
        | Some pf =>
            if bool_decide (pf_Architecture pf = "unknown") then scanIndex ms' archs first
            else scanIndex ms' ({[pf_Architecture pf]} ∪ archs)
                   (match first with None => Some (d_Digest m) | Some _ => first end)
        end
  end.

(** What [containers/image] answers for one image reference. *)
Record Fetched := mkFetched {
  (** the index, or [None] for a single manifest *)
  f_index : option (list Descriptor);
  (** [IsRunningImageAllowed], the parsed image and its config, for the digest *)
  f_config : option string → res (GoMap string * string);
}.

(** [GetCompatibleArchitecturesSet] from the manifest on: the config carries the
    labels and the architecture. *)
Definition architecturesOf (f : Fetched) : outcome (res (gset string)) :=
  '(archs, digest) ← match f_index f with
                     | Some ms => scanIndex ms ∅ None
                     | None => Ret (∅, None)
                     end;
  Ret (match f_config f digest with
       | Err e => Err e
       | Ok (labels, architecture) =>
           if isBundleImage labels then Ok utils.AllSupportedArchitecturesSet
           else match f_index f with
                | None => Ok {[architecture]}
                | Some _ => Ok archs
                end
       end).

(** A manifest that counts: a platform image of a known architecture. *)
Definition runnable (m : Descriptor) (a : string) : Prop :=
  isAttestation m = false ∧ ∃ pf, d_Platform m = Some pf ∧ pf_Architecture pf = a ∧ a ≠ "unknown".

Lemma scanIndex_Panic ms archs first :
  scanIndex ms archs first = Panic ↔ Exists (λ m, isAttestation m = false ∧ d_Platform m = None) ms.
Proof.
  revert archs first. induction ms as [|m ms IH]; intros archs first; cbn.
  { by rewrite Exists_nil. }
  rewrite Exists_cons. destruct (isAttestation m); [rewrite IH; naive_solver|].
  destruct (d_Platform m) as [pf|]; [|naive_solver].
  case_bool_decide; rewrite IH; naive_solver.
Qed.

Lemma scanIndex_Ret ms archs first out digest :
  scanIndex ms archs first = Ret (out, digest) →
  ∀ a, a ∈ out ↔ a ∈ archs ∨ Exists (λ m, runnable m a) ms.
Proof.
  revert archs first. induction ms as [|m ms IH]; intros archs first; cbn.
  { intros [= <- <-] a. rewrite Exists_nil. naive_solver. }
  intros H a. rewrite Exists_cons. unfold runnable at 1. destruct (isAttestation m).
  { rewrite (IH _ _ H a). naive_solver. }
  destruct (d_Platform m) as [pf|]; [|done]. case_bool_decide as Hu.
  - rewrite (IH _ _ H a). naive_solver.
  - rewrite (IH _ _ H a), elem_of_union, elem_of_singleton. naive_solver.
Qed.

(** C23: the architectures reported for an image: those of the platform manifests
    of its index, attestations and unknown platforms left out; the one of the
    config for a single manifest; all supported ones for an operator bundle. *)
Theorem architecturesOf_spec f s :
  architecturesOf f = Ret (Ok s) →
  ∃ digest labels architecture, f_config f digest = Ok (labels, architecture)
  ∧ if isBundleImage labels then s = utils.AllSupportedArchitecturesSet
    else match f_index f with
         | None => s = {[architecture]}
         | Some ms => ∀ a, a ∈ s ↔ Exists (λ m, runnable m a) ms
         end.
Proof.
  unfold architecturesOf. destruct (f_index f) as [ms|] eqn:Ei; cbn.
  - destruct (scanIndex ms ∅ None) as [[archs digest]|] eqn:Es; cbn; [|done].
    intros [= H]. destruct (f_config f digest) as [[labels arch]|] eqn:Ec; [|done].
    exists digest, labels, arch. split; [done|]. destruct (isBundleImage labels).
    + by injection H as <-.
    + injection H as <-. intros a. rewrite (scanIndex_Ret _ _ _ _ _ Es a). set_solver.
  - intros [= H]. destruct (f_config f None) as [[labels arch]|] eqn:Ec; [|done].
    exists None, labels, arch. split; [done|].
    destruct (isBundleImage labels); by injection H as <-.
Qed.

(** The inspection crashes on an index with a platform-less manifest that is
    not marked as an attestation, and only on such an index. *)
Theorem architecturesOf_panics_iff f :
  architecturesOf f = Panic ↔
  ∃ ms, f_index f = Some ms ∧ Exists (λ m, isAttestation m = false ∧ d_Platform m = None) ms.
Proof.
  unfold architecturesOf. destruct (f_index f) as [ms|]; cbn; [|naive_solver].
  destruct (scanIndex ms ∅ None) as [[archs digest]|] eqn:E; cbn.
  - split; [done|]. intros (ms' & [= <-] & H). apply (scanIndex_Panic ms ∅ None) in H. congruence.
  - split; [|done]. intros _. exists ms. split; [done|]. by apply (scanIndex_Panic ms ∅ None).
Qed.

End inspector.

(** ** The cache *)
Module image_cache.

Abbreviation Entries := (list (string * (gset string * Z))).

Definition cacheSize : nat := Z.to_nat 256.
(** Six hours, in the unit of the clock (seconds). *)
Definition ttl : Z := 21600.

(** [expirable.LRU.Get]: an expired entry is a miss and stays where it is. *)
Definition exp_Get (now : Z) (h : string) (l : Entries) : option (gset string) * Entries :=
  match lru_find h l with
  | Some (s, e) => if (e <? now)%Z then (None, l) else (Some s, (h, (s, e)) :: lru_remove h l)
  | None => (None, l)
  end.

(** [expirable.LRU.Add] *)
Definition exp_Add (now : Z) (h : string) (s : gset string) (l : Entries) : Entries :=
  lru_Add cacheSize h (s, (now + ttl)%Z) l.

(** They are the list operations that the implementation refines. *)
Lemma image_cache_list now h s l :
  exp_Get now h l = expirable.aGet now h l
  ∧ exp_Add now h s l = (expirable.aAdd (Z.of_nat cacheSize) ttl now h s l).2.
Proof.
  split; [done|]. unfold exp_Add, lru_Add, expirable.aAdd. destruct (lru_find h l); [done|].
  assert ((cacheSize <? length ((h, (s, (now + ttl)%Z)) :: l)) =
    ((0 <? Z.of_nat cacheSize)%Z && (Z.of_nat cacheSize <? Z.of_nat (length ((h, (s, (now + ttl)%Z)) :: l)))%Z)) as ->.
  { apply eq_true_iff_eq. rewrite andb_true_iff, !Z.ltb_lt, Nat.ltb_lt. assert (Z.of_nat cacheSize = 256%Z) by done. lia. }
  by destruct (_ && _).
Qed.

(** [computeHash] for a given SHA-256 *)
Definition computeHash (sha256hex : string → string) (imageReference secrets : string) : string :=
  sha256hex (imageReference +:+ String "000"%char secrets).

(** The proxy with its inspector, which holds the global pull secret. *)
Record Proxy := mkProxy { px_entries : Entries; px_globalPullSecret : string }.

Definition newCacheProxy : Proxy := mkProxy [] "".

Section cache.
Context {R : Type}.
(** [registryInspector.GetCompatibleArchitecturesSet]: global pull secret, image,
    secrets; the registries may change with every call. *)
Context (inspect : string → string → list string → R → R * res (gset string)).
(** [marshaledImagePullSecrets] *)
Context (marshal : string → list string → res string).
Context (sha256hex : string → string).

(** [cacheProxy.GetCompatibleArchitecturesSet] at time [now]. *)
Definition GetCompatibleArchitecturesSet (now : Z) (image : string) (skipCache : bool)
    (secrets : list string) (px : Proxy) (r : R) : Proxy * R * res (gset string) :=
  match marshal image secrets with
  | Err e => (px, r, Err e)
  | Ok authJSON =>
      let hash := computeHash sha256hex image authJSON in
      let '(hit, l) := exp_Get now hash (px_entries px) in
      let px1 := mkProxy l (px_globalPullSecret px) in
      match hit, skipCache with
      | Some s, false => (px1, r, Ok s)
      | _, _ =>
          match inspect (px_globalPullSecret px) image secrets r with
          | (r', Err e) => (px1, r', Err e)
          | (r', Ok s) =>
              (if skipCache then px1
               else mkProxy (exp_Add now hash s l) (px_globalPullSecret px), r', Ok s)
          end
      end
  end.

(** [Facade.StoreGlobalPullSecret]: store, then clear the cache. *)
Definition storeGlobalPullSecret (secret : string) (px : Proxy) : Proxy :=
  mkProxy (px_entries px) secret.
Definition clearCache (px : Proxy) : Proxy := mkProxy [] (px_globalPullSecret px).
Definition StoreGlobalPullSecret (secret : string) (px : Proxy) : Proxy :=
  clearCache (storeGlobalPullSecret secret px).

(** *** What a cached answer stands for

    The successful inspections so far: when, with which global pull secret, for
    which key, with which result. *)
Record Answer := mkAnswer { an_time : Z; an_secret : string; an_key : string; an_set : gset string }.

Record State := mkState {
  s_now : Z;
  s_proxy : Proxy;
  s_reg : R;
  s_log : list Answer;
}.

Definition keyOf (image : string) (secrets : list string) : option string :=
  match marshal image secrets with
  | Ok a => Some (computeHash sha256hex image a)
  | Err _ => None
  end.

(** Whether a request reaches the registry. *)
Definition consults (now : Z) (image : string) (skip : bool) (secrets : list string) (px : Proxy) : bool :=
  match keyOf image secrets with
  | None => false
  | Some k => skip || match (exp_Get now k (px_entries px)).1 with Some _ => false | None => true end
  end.

(** The log after a request. *)
Definition logAfter (now : Z) (px : Proxy) (r : R) (image : string) (skip : bool)
    (secrets : list string) (log : list Answer) : list Answer :=
  match inspect (px_globalPullSecret px) image secrets r, keyOf image secrets,
        consults now image skip secrets px with
  | (_, Ok s), Some k, true => mkAnswer now (px_globalPullSecret px) k s :: log
  | _, _, _ => log
  end.

(** Requests, rotations of the global pull secret, time, and the background
    removal of expired entries, in any order. *)
Inductive step : State → State → Prop :=
| st_get now px r log image skip secrets px' r' o :
    GetCompatibleArchitecturesSet now image skip secrets px r = (px', r', o) →
    step (mkState now px r log)
         (mkState now px' r' (logAfter now px r image skip secrets log))
| st_store now px r log secret :
    step (mkState now px r log) (mkState now (StoreGlobalPullSecret secret px) r log)
| st_tick now px r log d :
    (0 ≤ d)%Z → step (mkState now px r log) (mkState (now + d) px r log)
| st_expire now px r log l :
    l `sublist_of` px_entries px →
    step (mkState now px r log) (mkState now (mkProxy l (px_globalPullSecret px)) r log).

Definition backed (now : Z) (gps : string) (log : list Answer) (e : string * (gset string * Z)) : Prop :=
  ∃ a, a ∈ log ∧ an_key a = e.1 ∧ an_set a = e.2.1 ∧ an_secret a = gps
       ∧ (e.2.2 = an_time a + ttl)%Z ∧ (an_time a ≤ now)%Z.

Definition inv (st : State) : Prop :=
  lru_wf cacheSize (px_entries (s_proxy st))
  ∧ ∀ e, e ∈ px_entries (s_proxy st) →
         backed (s_now st) (px_globalPullSecret (s_proxy st)) (s_log st) e.

Lemma exp_Get_wf now h (l : Entries) : lru_wf cacheSize l → lru_wf cacheSize (exp_Get now h l).2.
Proof.
  intros Hwf. pose proof (lru_Get_wf cacheSize h l Hwf) as Hg. unfold exp_Get, lru_Get in *.
  destruct (lru_find h l) as [[s e]|]; [|done]. by destruct (e <? now)%Z.
Qed.

Lemma exp_Get_elem now h (l : Entries) e : e ∈ (exp_Get now h l).2 → e ∈ l.
Proof.
  pose proof (lru_Get_elem h l e) as Hg. unfold exp_Get, lru_Get in *.
  destruct (lru_find h l) as [[s x]|]; [|done]. by destruct (x <? now)%Z.
Qed.

Lemma exp_Get_found now h (l : Entries) s :
  (exp_Get now h l).1 = Some s → ∃ e, (h, (s, e)) ∈ l ∧ (now ≤ e)%Z.
Proof.
  unfold exp_Get. destruct (lru_find h l) as [[s' e]|] eqn:E; [|done].
  destruct (e <? now)%Z eqn:Ee; [done|]. intros [= ->]. exists e.
  split; [by apply lru_find_elem|]. by apply Z.ltb_ge in Ee.
Qed.

Lemma lru_wf_sublist size (l l' : Entries) : l' `sublist_of` l → lru_wf size l → lru_wf size l'.
Proof.
  intros Hs [Hnd Hlen]. split.
  - eapply sublist_NoDup; [exact Hnd|]. by apply fmap_sublist.
  - apply sublist_length in Hs. lia.
Qed.

Lemma backed_mono now now' gps log log' e :
  (now ≤ now')%Z → (∀ a, a ∈ log → a ∈ log') → backed now gps log e → backed now' gps log' e.
Proof.
  intros Hn Hl (a & Ha & Hk & Hs & Hg & He & Ht). exists a. repeat split; auto; lia.
Qed.

(** The three ways a request ends. *)
Lemma Get_cases now image skip secrets px r px' r' o :
  GetCompatibleArchitecturesSet now image skip secrets px r = (px', r', o) →
  px_globalPullSecret px' = px_globalPullSecret px ∧
  ( (px' = px ∧ keyOf image secrets = None ∧ ∃ e, o = Err e)
  ∨ (∃ k, keyOf image secrets = Some k ∧
      px_entries px' = (exp_Get now k (px_entries px)).2 ∧
      ((consults now image skip secrets px = false ∧ ∃ s, (exp_Get now k (px_entries px)).1 = Some s ∧ o = Ok s)
       ∨ (consults now image skip secrets px = true ∧ o = (inspect (px_globalPullSecret px) image secrets r).2)))
  ∨ (∃ k s, keyOf image secrets = Some k ∧ skip = false ∧
      consults now image skip secrets px = true ∧
      (inspect (px_globalPullSecret px) image secrets r).2 = Ok s ∧ o = Ok s ∧
      px_entries px' = exp_Add now k s (exp_Get now k (px_entries px)).2) ).
Proof.
  unfold GetCompatibleArchitecturesSet, consults, keyOf.
  destruct (marshal image secrets) as [auth|e]; [|naive_solver].
  set (k := computeHash sha256hex image auth).
  destruct (exp_Get now k (px_entries px)) as [hit l] eqn:Eg; cbn [fst snd].
  destruct (inspect (px_globalPullSecret px) image secrets r) as [r1 [s|e]] eqn:Ei;
    destruct hit as [s0|], skip; cbn;
    intros [= <- <- <-]; (split; [done|right]); cbn; rewrite ?Ei.
  4: { right. exists k, s. rewrite Eg. eauto 8. }
  all: left; exists k; rewrite Eg; eauto 8.
Qed.

Lemma step_preserves_inv st st' : step st st' → inv st → inv st'.
Proof.
  destruct 1 as [now px r log image skip secrets px' r' o Hget|now px r log secret
    |now px r log d Hd|now px r log l Hl]; intros [Hwf Hb]; split; cbn in *.
  - apply Get_cases in Hget as (_ & [(-> & _)|[(k & _ & He & _)|(k & s & _ & _ & _ & _ & _ & He)]]);
      [done|rewrite He; by apply exp_Get_wf|rewrite He; by apply lru_Add_wf, exp_Get_wf].
  - intros e Hin. apply Get_cases in Hget as (Hg & Hc). rewrite Hg.
    set (log' := logAfter _ _ _ _ _ _ _).
    assert (Hsub : ∀ a, a ∈ log → a ∈ log').
    { intros a Ha. unfold log', logAfter. destruct (inspect _ image secrets r) as [? [?|?]]; [|done].
      destruct (keyOf image secrets); [|done]. destruct (consults now image skip secrets px); [|done].
      by right. }
    destruct Hc as [(-> & _)|[(k & _ & He & _)|(k & s & Hk & _ & Hcon & Hi & _ & He)]].
    + eapply backed_mono; [reflexivity|exact Hsub|]. by apply Hb.
    + eapply backed_mono; [reflexivity|exact Hsub|]. apply Hb. rewrite He in Hin. by eapply exp_Get_elem.
    + rewrite He in Hin. apply lru_Add_elem in Hin as [->|Hin].
      * exists (mkAnswer now (px_globalPullSecret px) k s). cbn. repeat split; try done.
        unfold log', logAfter. rewrite Hk, Hcon. destruct (inspect _ image secrets r) as [? o']. cbn in Hi.
        subst o'. left.
      * eapply backed_mono; [reflexivity|exact Hsub|]. apply Hb. by eapply exp_Get_elem.
  - split; [constructor|cbn; lia].
  - by intros e He%elem_of_nil.
  - done.
  - intros e He. eapply backed_mono; [|done|by apply Hb]. lia.
  - by eapply lru_wf_sublist.
  - intros e He. apply Hb. by eapply elem_of_submseteq, sublist_submseteq.
Qed.

Lemma reachable_inv now0 r0 st :
  rtc step (mkState now0 newCacheProxy r0 []) st → inv st.
Proof.
  intros Hr. refine (rtc_ind_r (λ s, inv s) _ _ _ _ Hr).
  - split; [split; [constructor|cbn; lia]|]. by intros e He%elem_of_nil.
  - intros y z _ Hst IH. by eapply step_preserves_inv.
Qed.

(** Every answer the cache gives without asking the registry is one the
    registry gave for the same key, with the global pull secret that is in force
    now, at most six hours ago; and the cache never exceeds its size. *)
Theorem cached_answers_are_fresh now0 r0 st image secrets px' r' s :
  rtc step (mkState now0 newCacheProxy r0 []) st →
  GetCompatibleArchitecturesSet (s_now st) image false secrets (s_proxy st) (s_reg st) = (px', r', Ok s) →
  length (px_entries (s_proxy st)) ≤ cacheSize
  ∧ ((inspect (px_globalPullSecret (s_proxy st)) image secrets (s_reg st)).2 = Ok s
     ∨ ∃ a, a ∈ s_log st ∧ Some (an_key a) = keyOf image secrets ∧ an_set a = s
            ∧ an_secret a = px_globalPullSecret (s_proxy st)
            ∧ (s_now st - ttl ≤ an_time a ≤ s_now st)%Z).
Proof.
  intros Hr Hget. destruct (reachable_inv _ _ _ Hr) as [[_ Hlen] Hb]. split; [done|].
  apply Get_cases in Hget as (_ & [(_ & _ & e & [=])|[(k & Hk & _ & [(_ & s' & Hf & [= <-])|[_ Ho]])|
    (k & s' & _ & _ & _ & Hi & [= <-] & _)]]); [|by left|by left].
  right. apply exp_Get_found in Hf as (e & He & Hnow). apply Hb in He as (a & Ha & Hka & Hs & Hg & Hexp & Ht).
  cbn in *. exists a. rewrite Hk, Hka. repeat split; try done. lia.
Qed.

End cache.

End image_cache.
