(* ===== verification/Prog.v ===== *)
(** * Programs that talk to the cluster

    The operator and the event handler are loops of requests to the API server,
    whose answers they cannot foresee: other actors change the cluster between any
    two requests and any request may fail.  A program is the tree of its requests
    ([prog]); [run] executes it against a server; [wp] is its weakest precondition
    over the trace of requests and answers, for every server. *)
From stdpp Require Import base list.
From S2P Require Import Prelude.

Section prog.
Context (Call : Type → Type).

Inductive prog (A : Type) : Type :=
| Return (a : A)
| Do (T : Type) (c : Call T) (k : T → prog A).
Arguments Return {A} a.
Arguments Do {A T} c k.

Fixpoint pbind {A B} (f : A → prog B) (p : prog A) : prog B :=
  match p with
  | Return a => f a
  | Do c k => Do c (λ t, pbind f (k t))
  end.

(** One request with the answer it got. *)
Record Ev := mkEv { ev_type : Type; ev_call : Call ev_type; ev_ans : ev_type }.
Arguments mkEv {_} _ _.

Class Server (W : Type) := serve : ∀ T, Call T → W → W * T.
Arguments serve {W _ T} c w.

(** The world after the program, its trace and its result. *)
Fixpoint run {W : Type} {srv : Server W} {A} (p : prog A) (w : W) : W * list Ev * A :=
  match p with
  | Return a => (w, [], a)
  | Do c k =>
      let '(w1, t) := serve c w in
      let '(w2, tr, a) := run (k t) w1 in
      (w2, mkEv c t :: tr, a)
  end.

(** What is assumed of the answers: [V c t] when [t] is a possible answer to [c]. *)
Abbreviation Answers := (∀ T, Call T → T → Prop).
Definition Anything : Answers := λ _ _ _, True.

Definition server_ok {W : Type} (srv : Server W) (V : Answers) : Prop :=
  ∀ T (c : Call T) w, V T c (serve c w).2.

(** Every way to run [p] after the trace [tr], with answers in [V], ends in [Q]. *)
Fixpoint wp (V : Answers) {A} (p : prog A) (Q : A → list Ev → Prop) (tr : list Ev) : Prop :=
  match p with
  | Return a => Q a tr
  | Do c k => ∀ t, V _ c t → wp V (k t) Q (tr ++ [mkEv c t])
  end.

Lemma wp_bind V {A B} (p : prog A) (f : A → prog B) Q tr :
  wp V p (λ a tr', wp V (f a) Q tr') tr → wp V (pbind f p) Q tr.
Proof. revert tr. induction p as [a|T c k IH]; intros tr; cbn; auto. Qed.

Lemma wp_mono V {A} (p : prog A) (Q Q' : A → list Ev → Prop) tr :
  (∀ a tr', Q a tr' → Q' a tr') → wp V p Q tr → wp V p Q' tr.
Proof. intros HQ. revert tr. induction p as [a|T c k IH]; intros tr; cbn; auto. Qed.

(** More is known of the answers. *)
Lemma wp_answers V V' {A} (p : prog A) Q tr :
  (∀ T (c : Call T) a, V' T c a → V T c a) → wp V p Q tr → wp V' p Q tr.
Proof. intros HV. revert tr. induction p as [a|T c k IH]; intros tr; cbn; eauto. Qed.

Lemma wp_run {W : Type} {srv : Server W} V {A} (p : prog A) Q tr w :
  server_ok srv V → wp V p Q tr → let '(_, tr', a) := run p w in Q a (tr ++ tr').
Proof.
  intros Hsrv. revert tr w. induction p as [a|T c k IH]; intros tr w; cbn; [by rewrite app_nil_r|].
  intros H. pose proof (Hsrv T c w) as Ht. destruct (serve c w) as [w1 t].
  specialize (IH t (tr ++ [mkEv c t]) w1 (H t Ht)).
  destruct (run (k t) w1) as [[w2 tr'] a]. by rewrite <-app_assoc in IH.
Qed.

(** A program whose requests all satisfy [P] (whatever the answers). *)
Fixpoint calls (P : ∀ T, Call T → Prop) {A} (p : prog A) : Prop :=
  match p with
  | Return _ => True
  | Do c k => P _ c ∧ ∀ t, calls P (k t)
  end.

Lemma calls_bind (P : ∀ T, Call T → Prop) {A B} (p : prog A) (f : A → prog B) :
  calls P p → (∀ a, calls P (f a)) → calls P (pbind f p).
Proof. induction p as [a|T c k IH]; cbn; [auto|]. intros [Hc Hk] Hf. eauto. Qed.

Lemma calls_mono (P P' : ∀ T, Call T → Prop) {A} (p : prog A) :
  (∀ T c, P T c → P' T c) → calls P p → calls P' p.
Proof. intros HP. induction p as [a|T c k IH]; cbn; [done|]. intros [Hc Hk]. auto. Qed.

(** The trace of such a program only grows by such requests. *)
Lemma wp_calls (P : ∀ T, Call T → Prop) V {A} (p : prog A) (Q : A → list Ev → Prop) tr :
  calls P p → wp V p Q tr →
  wp V p (λ a tr', Q a tr' ∧ ∃ new, tr' = tr ++ new ∧ Forall (λ e, P _ (ev_call e)) new) tr.
Proof.
  revert tr. induction p as [a|T c k IH]; intros tr; cbn.
  - intros _ HQ. split; [done|]. exists []. by rewrite app_nil_r.
  - intros [Hc Hk] HQ t Ht. eapply wp_mono; [|by apply IH; [apply Hk|apply HQ]].
    intros a tr' (HQ' & new & -> & Hf). split; [done|].
    exists (mkEv c t :: new). split; [by rewrite <-app_assoc|by constructor].
Qed.

Lemma wp_true V {A} (p : prog A) tr : wp V p (λ _ _, True) tr.
Proof. revert tr. induction p as [a|T c k IH]; intros tr; cbn; auto. Qed.

Lemma wp_only_calls (P : ∀ T, Call T → Prop) V {A} (p : prog A) tr :
  calls P p →
  wp V p (λ _ tr', ∃ new, tr' = tr ++ new ∧ Forall (λ e, P _ (ev_call e)) new) tr.
Proof.
  intros H. eapply wp_mono; [|apply (wp_calls P), wp_true; exact H]. by intros a tr' [_ Hn].
Qed.

(** Every request that satisfies [P] comes after a trace that satisfies [G]. *)
Definition guarded (P : ∀ T, Call T → Prop) (G : list Ev → Prop) (tr : list Ev) : Prop :=
  ∀ pre e post, tr = pre ++ e :: post → P _ (ev_call e) → G pre.

Section guarded.
Context (P : ∀ T, Call T → Prop) (G : list Ev → Prop).
Context (G_mono : ∀ tr tr', G tr → G (tr ++ tr')).

Lemma guarded_nil : guarded P G [].
Proof. intros pre e post H. by destruct pre. Qed.

Lemma guarded_snoc tr e :
  guarded P G tr → (P _ (ev_call e) → G tr) → guarded P G (tr ++ [e]).
Proof.
  intros Hg He pre x post Heq HP. destruct post as [|y post _] using rev_ind.
  - apply app_inj_tail in Heq as [-> ->]. auto.
  - rewrite app_comm_cons, app_assoc in Heq. apply app_inj_tail in Heq as [-> _].
    eapply Hg; [done|exact HP].
Qed.

Lemma guarded_app_no tr new :
  guarded P G tr → Forall (λ e, ¬ P _ (ev_call e)) new → guarded P G (tr ++ new).
Proof.
  intros Hg Hf. induction new as [|e new IH] using rev_ind; [by rewrite app_nil_r|].
  apply Forall_app in Hf as [Hf He]. rewrite app_assoc. apply guarded_snoc; [by apply IH|].
  intros HP. apply Forall_cons_1 in He as [He _]. by destruct (He HP).
Qed.

Lemma wp_guarded V {A} (p : prog A) tr :
  guarded P G tr → G tr → wp V p (λ _ tr', guarded P G tr') tr.
Proof using G_mono.
  revert tr. induction p as [a|T c k IH]; intros tr Hg HG; cbn; [done|]. intros t Ht.
  apply IH; [by apply guarded_snoc|by apply G_mono].
Qed.

Lemma wp_guarded_no V {A} (p : prog A) (Q : A → list Ev → Prop) tr :
  calls (λ T c, ¬ P T c) p → wp V p Q tr → guarded P G tr →
  wp V p (λ a tr', Q a tr' ∧ guarded P G tr') tr.
Proof.
  intros Hc HQ Hg. eapply wp_mono; [|by apply wp_calls; [exact Hc|exact HQ]].
  intros a tr' (Ha & new & -> & Hf). split; [done|]. by apply guarded_app_no.
Qed.
End guarded.

(** Every request with its answer is allowed by [ok] after what came before it;
    [guarded] is the special case of a condition on the request. *)
Definition always (ok : list Ev → Ev → Prop) (tr : list Ev) : Prop :=
  ∀ pre e post, tr = pre ++ e :: post → ok pre e.

Lemma always_snoc ok tr e : always ok (tr ++ [e]) ↔ always ok tr ∧ ok tr e.
Proof.
  split.
  - intros H. split; [|by apply (H tr e [])]. intros pre x post ->.
    apply (H pre x (post ++ [e])). by rewrite <-app_assoc.
  - intros [Hg He] pre x post Heq. destruct post as [|y post _] using rev_ind.
    + by apply app_inj_tail in Heq as [-> ->].
    + rewrite app_comm_cons, app_assoc in Heq. apply app_inj_tail in Heq as [-> _]. by eapply Hg.
Qed.

Lemma always_app ok tr new :
  always ok tr → (∀ mid e post, new = mid ++ e :: post → ok (tr ++ mid) e) → always ok (tr ++ new).
Proof.
  intros Ht. induction new as [|e new IH] using rev_ind; intros Hn; [by rewrite app_nil_r|].
  rewrite app_assoc. apply always_snoc. split; [|by apply (Hn new e [])].
  apply IH. intros mid x post ->. apply (Hn mid x (post ++ [e])). by rewrite <-app_assoc.
Qed.

Lemma always_prefix ok tr new : always ok (tr ++ new) → always ok tr.
Proof. intros H pre e post ->. apply (H pre e (post ++ new)). by rewrite <-app_assoc. Qed.

Lemma wp_and V {A} (p : prog A) (Q Q' : A → list Ev → Prop) tr :
  wp V p Q tr → wp V p Q' tr → wp V p (λ a tr', Q a tr' ∧ Q' a tr') tr.
Proof. revert tr. induction p as [a|T c k IH]; intros tr; cbn; auto. Qed.

(** With an answer for every request a program comes to an end. *)
Lemma wp_completes V {A} (p : prog A) Q tr :
  (∀ T (c : Call T), ∃ t, V T c t) → wp V p Q tr → ∃ a new, Q a (tr ++ new).
Proof.
  intros Hl. revert tr. induction p as [a|T c k IH]; intros tr; cbn.
  - intros H. exists a, []. by rewrite app_nil_r.
  - intros H. destruct (Hl T c) as [t Ht]. destruct (IH t _ (H t Ht)) as (a & new & HQ).
    exists a, (mkEv c t :: new). by rewrite <-app_assoc in HQ.
Qed.

(** So what holds of all traces of a program holds of the one under way. *)
Lemma wp_always_now V {A} (p : prog A) ok tr :
  (∀ T (c : Call T), ∃ t, V T c t) → wp V p (λ _ tr', always ok tr') tr → always ok tr.
Proof.
  intros Hl H. destruct (wp_completes V p _ tr Hl H) as (a & new & Ha). by eapply always_prefix.
Qed.

End prog.

Arguments Return {Call A} a.
Arguments Do {Call A T} c k.
Arguments mkEv {Call _} _ _.
Arguments ev_type {Call} _.
Arguments ev_call {Call} _.
Arguments ev_ans {Call} _.
Arguments serve {Call W _ T} c w.
Arguments run {Call W srv A} p w.
Arguments wp {Call} V {A} p Q tr.
Arguments Anything {Call} T c t.
Arguments server_ok {Call W} srv V.
Arguments calls {Call} P {A} p.
Arguments pbind {Call A B} f p.

Arguments guarded {Call} P G tr.
Arguments guarded_nil {Call} P G.
Arguments guarded_snoc {Call} P G tr e.
Arguments guarded_app_no {Call} P G tr new.
Arguments wp_guarded {Call} P G G_mono V {A} p tr.
Arguments wp_guarded_no {Call} P G V {A} p Q tr.
Arguments always {Call} ok tr.
Arguments always_app {Call} ok tr new.
Arguments always_snoc {Call} ok tr e.
Arguments wp_and {Call} V {A} p Q Q' tr.
Arguments wp_completes {Call} V {A} p Q tr.
Arguments wp_always_now {Call} V {A} p ok tr.
Arguments wp_run {Call W srv} V {A} p Q tr w.
Arguments wp_calls {Call} P V {A} p Q tr.
Arguments wp_only_calls {Call} P V {A} p tr.

#[export] Instance prog_ret Call : MRet (prog Call) := λ A a, Return a.
#[export] Instance prog_bind Call : MBind (prog Call) := λ A B f p, pbind f p.

(** One request. *)
Definition request {Call : Type → Type} {T} (c : Call T) : prog Call T := Do c Return.

(** ** Stepping through programs *)
Ltac prog_unfold := unfold mbind, prog_bind, mret, prog_ret, request.

(** Reduce the program at hand, and nothing else. *)
Ltac step := cbn [wp pbind calls fst snd].

