(* ===== verification/Operator.v ===== *)
(** * The operator: the ClusterPodPlacementConfig controller

    [internal/controller/operator/clusterpodplacementconfig_controller.go], with
    the parts of [pkg/utils/resource.go] and of the object builders it uses.  A
    reconcile is a program of requests to the API server ([Call]); objects of the
    operand are known by kind and name ([Ref]) and by the fields the controller
    reads or writes ([Object], [Manifest]).

    The status flags of the configuration are not serialised: an update replaces
    the conditions of the controller's copy by the stored ones and leaves the
    flags alone ([decodeInto]). *)
From Stdlib Require Import Ascii.
From stdpp Require Import base gmap strings list.
From S2P Require Import Prelude GoStd Api Status Prog.
Import plugins v1beta1.

(** ** Names ([pkg/utils/const.go]) *)
Definition OperatorName := "multiarch-tuning-operator".
Definition PodMutatingWebhookConfigurationName := "pod-placement-mutating-webhook-configuration".
Definition PodPlacementControllerName := "pod-placement-controller".
Definition PodPlacementWebhookName := "pod-placement-web-hook".
Definition ExecFormatErrorsDetected := "ExecFormatErrorsDetected".
Definition EnoexecControllerName := "enoexec-event-handler-controller".
Definition EnoexecDaemonSet := "enoexec-event-daemon".
(** [plugins.ExecFormatErrorMonitorPluginName], the string constant *)
Definition ExecFormatErrorMonitorName := "execFormatErrorMonitor".
Definition ENoExecEventErrorLabel := "multiarch.openshift.io/enoexec-event-error".

(** ** The objects of the operand *)
Inductive Kind : Set :=
| KMutatingWebhookConfiguration
| KService
| KDeployment
| KDaemonSet
| KClusterRole
| KClusterRoleBinding
| KRole
| KRoleBinding
| KServiceAccount
| KServiceMonitor
| KPrometheusRule.

Record Ref := mkRef { ref_Kind : Kind; ref_Name : string }.

#[export] Instance Kind_eq_dec : EqDecision Kind.
Proof. solve_decision. Defined.
#[export] Instance Ref_eq_dec : EqDecision Ref.
Proof. solve_decision. Defined.

(** What the controller reads of an object: metadata, the replica counts of a
    deployment, the pull secrets of a service account. *)
Record Object := mkObject {
  ob_UID : string;
  ob_Finalizers : list string;
  ob_Deleting : bool;
  ob_Generation : Z;
  ob_SpecReplicas : option Z;
  ob_ObservedGeneration : Z;
  ob_Replicas : Z;
  ob_UpdatedReplicas : Z;
  ob_ReadyReplicas : Z;
  ob_AvailableReplicas : Z;
  ob_UnavailableReplicas : Z;
  ob_ImagePullSecrets : list string;
}.

(** The object a typed client returns next to an error. *)
Definition zeroObject : Object := mkObject "" [] false 0 None 0 0 0 0 0 0 [].

Definition with_Finalizers (f : list string) (o : Object) : Object :=
  mkObject (ob_UID o) f (ob_Deleting o) (ob_Generation o) (ob_SpecReplicas o)
    (ob_ObservedGeneration o) (ob_Replicas o) (ob_UpdatedReplicas o) (ob_ReadyReplicas o)
    (ob_AvailableReplicas o) (ob_UnavailableReplicas o) (ob_ImagePullSecrets o).

(** A service account a role is bound to; the namespace is the operator's, or
    left out. *)
Record Subject := mkSubject { sj_Name : string; sj_InOperatorNamespace : bool }.

(** What the controller asks to be applied: the replicas and finalizers of a
    deployment, the namespace selector of the webhook configuration, the
    security context constraint of the pods, the role and the subjects of a
    binding.  The constant parts of the manifests (pod templates, policy rules,
    ports) are left out. *)
Record Manifest := mkManifest {
  mf_Ref : Ref;
  mf_Replicas : option Z;
  mf_Finalizers : list string;
  mf_NamespaceSelector : option LabelSelector;
  mf_SCC : string;
  mf_RoleRef : option Ref;
  mf_Subjects : list Subject;
}.

Definition plain (k : Kind) (name : string) : Manifest :=
  mkManifest (mkRef k name) None [] None "" None [].

(** An [ENoExecEvent], by name and labels. *)
Record ENoExecItem := mkItem { it_Name : string; it_Labels : GoMap string }.

(** ** Errors

    [errors.As] finds a [requeueAfterError] only at the top: a
    [utilerrors.Aggregate] does not unwrap. *)
#[warnings="-register-all"]
Inductive OpErr :=
| Plain (e : GoError)
| Aggregate (l : list OpErr).

(** [errorutils.NewAggregate], which drops the nil errors. *)
Definition newAggregate (l : list (option OpErr)) : option OpErr :=
  match omap id l with
  | [] => None
  | l' => Some (Aggregate l')
  end.

Definition newRequeueAfterError (seconds : Z) (msg : string) : OpErr :=
  Plain (mkErr (KRequeueAfter seconds) msg).

(** [errors.As(err, &requeueErr)] *)
Definition asRequeueAfter (e : OpErr) : option Z :=
  match e with
  | Plain (mkErr (KRequeueAfter d) _) => Some d
  | _ => None
  end.

(** [mergeWithStatusErr] *)
Definition mergeWithStatusErr (statusErr : option OpErr) (primaryErrs : list (option OpErr)) :
    option OpErr :=
  match statusErr ≫= asRequeueAfter with
  | Some _ => statusErr
  | None => newAggregate (primaryErrs ++ [statusErr])
  end.

(** ** The configuration *)
Record Config := mkConfig { cf_Obj : ClusterPodPlacementConfig; cf_Status : CPPCStatus }.

(** The object of a reply: its UID and what is serialised. *)
Record Reply := mkReply {
  rp_UID : string;
  rp_Obj : ClusterPodPlacementConfig;
  rp_Conditions : GoSlice Condition;
}.

Definition cf_Finalizers (c : Config) : list string :=
  elems (om_Finalizers (cppc_Meta (cf_Obj c))).
Definition cf_Deleting (c : Config) : bool :=
  bool_decide (is_Some (om_DeletionTimestamp (cppc_Meta (cf_Obj c)))).

Definition set_Finalizers (f : list string) (m : ObjectMeta) : ObjectMeta :=
  mkMeta (om_Name m) (om_GenerateName m) (om_Namespace m) (om_ResourceVersion m)
    (om_DeletionTimestamp m) (om_Labels m) (om_Annotations m) (om_OwnerReferences m) (Some f).

Definition cf_with_Finalizers (f : list string) (c : Config) : Config :=
  mkConfig (mkCPPC (set_Finalizers f (cppc_Meta (cf_Obj c))) (cppc_Spec (cf_Obj c))) (cf_Status c).

(** [controllerutil.ContainsFinalizer], [AddFinalizer], [RemoveFinalizer] *)
Definition containsFinalizer (f : string) (l : list string) : bool := bool_decide (f ∈ l).
Definition addFinalizer (f : string) (l : list string) : list string :=
  if containsFinalizer f l then l else l ++ [f].
Definition removeFinalizer (f : string) (l : list string) : list string := filter (λ x, x ≠ f) l.

Definition zeroStatus (conds : GoSlice Condition) : CPPCStatus :=
  mkStatus conds false false false false false false false false.

(** The reply of a request decoded over the copy that was sent: [conditions] is
    omitted when empty, and the flags are not part of it. *)
Definition decodeInto (r : Reply) (c : Config) : Config :=
  let s := cf_Status c in
  let conds := match elems (rp_Conditions r) with [] => st_Conditions s | l => Some l end in
  mkConfig (rp_Obj r)
    (mkStatus conds (st_available s) (st_progressing s) (st_degraded s) (st_deprovisioning s)
       (st_podPlacementControllerNotReady s) (st_podPlacementWebhookNotReady s)
       (st_mutatingWebhookConfigurationNotAvailable s) (st_canDeployMutatingWebhook s)).

(** ** Requests *)
Inductive Call : Type → Type :=
| GetCached (r : Ref) : Call (res Object)
| GetLive (r : Ref) : Call (res Object)
| UpdateObject (r : Ref) (o : Object) : Call (res Object)
| DeleteObject (r : Ref) : Call (option GoError)
| ApplyObject (m : Manifest) : Call (option GoError)
| SetControllerReference (m : Manifest) : Call (option GoError)
| GetConfigCached : Call (res Reply)
| GetConfigLive : Call (res Reply)
| UpdateConfig (c : ClusterPodPlacementConfig) : Call (res Reply)
| UpdateConfigStatus (c : Config) : Call (res Reply)
| ListPPCs : Call (res nat)
| ListPendingPods : Call (res (list CorePod))
| ListENoExecEvents : Call (res (list ENoExecItem))
| DeleteENoExecEvent (name : string) : Call (option GoError)
| GetNamespace : Call (res (GoMap string))
| UpdateNamespace (labels : GoMap string) : Call (option GoError)
| ClusterMinorVersion : Call (res Z)
| ServiceMonitorsAvailable : Call bool
| GetLogLevel : Call Z
| SetLogLevel (l : Z) : Call unit.

Abbreviation P := (prog Call).

(** ** Deleting and applying lists of objects ([pkg/utils/resource.go]) *)
Fixpoint DeleteResources_loop (refs : list Ref) (errs : list OpErr) : P (list OpErr) :=
  match refs with
  | [] => Return errs
  | r :: refs' =>
      e ← request (DeleteObject r);
      DeleteResources_loop refs'
        (errs ++ match ignoreNotFound e with Some err => [Plain err] | None => [] end)
  end.

Definition DeleteResources (refs : list Ref) : P (option OpErr) :=
  errs ← DeleteResources_loop refs [];
  Return (newAggregate (Some <$> errs)).

Fixpoint ApplyResources_loop (objs : list Manifest) (errs : list OpErr) : P (list OpErr) :=
  match objs with
  | [] => Return errs
  | o :: objs' =>
      e ← request (ApplyObject o);
      ApplyResources_loop objs' (errs ++ match e with Some err => [Plain err] | None => [] end)
  end.

Definition ApplyResources (objs : list Manifest) : P (option OpErr) :=
  errs ← ApplyResources_loop objs [];
  Return (newAggregate (Some <$> errs)).

(** [ctrl.SetControllerReference] over the objects, collecting the errors *)
Fixpoint setReferences (objs : list Manifest) : P (list OpErr) :=
  match objs with
  | [] => Return []
  | o :: objs' =>
      e ← request (SetControllerReference o);
      errs ← setReferences objs';
      Return (match e with Some err => Plain err :: errs | None => errs end)
  end.

(** ** Reading with the fallback to the API server

    [apiReader]: whether the reconciler was given an [APIReader]. *)
Section operator.
Context (apiReader : bool) (now : string → Z).

Definition notFoundErr (name : string) : GoError :=
  mkErr KNotFound ("objects " +:+ quoted name +:+ " not found").

Definition getCacheWithAPIFallback (r : Ref) : P (res Object) :=
  a ← request (GetCached r);
  let fallback (e : GoError) := if apiReader then request (GetLive r) else Return (Err e) in
  match a with
  | Ok o => if bool_decide (ob_UID o = "") then fallback (notFoundErr (ref_Name r)) else Return (Ok o)
  | Err e => if isNotFound e then fallback e else Return (Err e)
  end.

(** The same for the configuration. *)
Definition getConfig : P (res Reply) :=
  a ← request GetConfigCached;
  let fallback (e : GoError) := if apiReader then request GetConfigLive else Return (Err e) in
  match a with
  | Ok o => if bool_decide (rp_UID o = "") then fallback (notFoundErr "cluster") else Return (Ok o)
  | Err e => if isNotFound e then fallback e else Return (Err e)
  end.

(** [r.Update(ctx, clusterPodPlacementConfig)] with new finalizers *)
Definition updateFinalizers (f : list string) (c : Config) : P (Config * option OpErr) :=
  let c1 := cf_with_Finalizers f c in
  a ← request (UpdateConfig (cf_Obj c1));
  Return (match a with
          | Ok r => (decodeInto r c1, None)
          | Err e => (c1, Some (Plain e))
          end).

(** ** Status *)

(** [updateStatus] *)
Definition updateStatus (c : Config) : P (Config * option OpErr) :=
  let progressing := st_progressing (cf_Status c) in
  a ← request (UpdateConfigStatus c);
  Return (match a with
          | Err e => (c, Some (Plain e))
          | Ok r =>
              (decodeInto r c,
               if progressing
               then Some (newRequeueAfterError 5 "cluster pod placement config is not ready yet. re-queueing")
               else None)
          end).

Definition isDeploymentAvailable (o : Object) : bool := (0 <? ob_AvailableReplicas o)%Z.

Definition isDeploymentUpToDate (o : Object) : bool :=
  let expectedReplicas := default (-1)%Z (ob_SpecReplicas o) in
  ((ob_UpdatedReplicas o =? expectedReplicas) && (ob_Replicas o =? expectedReplicas)
   && (ob_AvailableReplicas o =? expectedReplicas) && (ob_ReadyReplicas o =? expectedReplicas)
   && (ob_UnavailableReplicas o =? 0) && (ob_ObservedGeneration o =? ob_Generation o))%Z.

Definition controllerDeployment := mkRef KDeployment PodPlacementControllerName.
Definition webhookDeployment := mkRef KDeployment PodPlacementWebhookName.
Definition webhookService := mkRef KService PodPlacementWebhookName.
Definition webhookConfiguration :=
  mkRef KMutatingWebhookConfiguration PodMutatingWebhookConfigurationName.

(** A typed client's answer: the object and an error other than NotFound. *)
Definition objectOf (a : res Object) : Object := match a with Ok o => o | Err _ => zeroObject end.
Definition hardError {A} (a : res A) : option GoError :=
  match a with Ok _ => None | Err e => ignoreNotFound (Some e) end.

(** The finalizer of a controller deployment that is being deleted under a live
    configuration is removed, so that it can be created again. *)
Definition releaseController (c : Config) (o : Object) : P (Object * option OpErr) :=
  if negb (cf_Deleting c) && ob_Deleting o then
    let f := removeFinalizer utils.PodPlacementFinalizerName (ob_Finalizers o) in
    if bool_decide (f = ob_Finalizers o) then Return (o, None)
    else
      a ← request (UpdateObject controllerDeployment (with_Finalizers f o));
      Return (match a with
              | Ok o' => (o', None)
              | Err e => (with_Finalizers f o, Some (Plain e))
              end)
  else Return (o, None).

(** [dependentsStatusToClusterPodPlacementConfig] *)
Definition dependentsStatus (c : Config) : P (Config * option OpErr) :=
  a ← request (GetLive controllerDeployment);
  match hardError a with
  | Some e => Return (c, Some (Plain e))
  | None =>
      r ← releaseController c (objectOf a);
      match r with
      | (_, Some e) => Return (c, Some e)
      | (controller, None) =>
          b ← request (GetLive webhookDeployment);
          match hardError b with
          | Some e => Return (c, Some (Plain e))
          | None =>
              m ← request (GetLive webhookConfiguration);
              match hardError m with
              | Some e => Return (c, Some (Plain e))
              | None =>
                  let webhook := objectOf b in
                  Return
                    (mkConfig (cf_Obj c)
                       (Build now (isDeploymentAvailable controller) (isDeploymentAvailable webhook)
                          (isDeploymentUpToDate controller) (isDeploymentUpToDate webhook)
                          (is_ok m) (cf_Deleting c) (cf_Status c)), None)
              end
          end
      end
  end.

(** ** Removing the exec format error plugin *)

Definition daemonSetRefs : list Ref :=
  [ mkRef KClusterRole EnoexecDaemonSet; mkRef KClusterRoleBinding EnoexecDaemonSet;
    mkRef KRole EnoexecDaemonSet; mkRef KRoleBinding EnoexecDaemonSet;
    mkRef KServiceAccount EnoexecDaemonSet; mkRef KDaemonSet EnoexecDaemonSet ].

Definition enoexecControllerRefs : list Ref :=
  [ mkRef KDeployment EnoexecControllerName; mkRef KRole EnoexecControllerName;
    mkRef KRoleBinding EnoexecControllerName; mkRef KClusterRole EnoexecControllerName;
    mkRef KClusterRoleBinding EnoexecControllerName; mkRef KServiceAccount EnoexecControllerName;
    mkRef KServiceAccount EnoexecDaemonSet; mkRef KService EnoexecControllerName ].

Definition enoexecMonitorRefs : list Ref :=
  [ mkRef KServiceMonitor EnoexecControllerName; mkRef KPrometheusRule ExecFormatErrorMonitorName;
    mkRef KPrometheusRule ExecFormatErrorsDetected ].

Definition enoexecDeployment := mkRef KDeployment EnoexecControllerName.
Definition enoexecDaemonSet := mkRef KDaemonSet EnoexecDaemonSet.

(** [deleteErroredENoExecEvents]: the numbers of events without and with the
    error label; the errors of the deletions are only logged. *)
Fixpoint deleteErroredENoExecEvents (items : list ENoExecItem) (nonErrored errored : nat) :
    P (nat * nat) :=
  match items with
  | [] => Return (nonErrored, errored)
  | it :: items' =>
      match mlookup (it_Labels it) ENoExecEventErrorLabel with
      | None => deleteErroredENoExecEvents items' (S nonErrored) errored
      | Some _ =>
          _ ← request (DeleteENoExecEvent (it_Name it));
          deleteErroredENoExecEvents items' nonErrored (S errored)
      end
  end.

(** Fetch a deployment and remove a finalizer from it; a missing deployment is
    not an error. *)
Definition releaseDeployment (r : Ref) (f : string) : P (option OpErr) :=
  a ← getCacheWithAPIFallback r;
  match a with
  | Err e => Return (option_map Plain (ignoreNotFound (Some e)))
  | Ok o =>
      let l := removeFinalizer f (ob_Finalizers o) in
      if bool_decide (l = ob_Finalizers o) then Return None
      else
        b ← request (UpdateObject r (with_Finalizers l o));
        Return (match b with Ok _ => None | Err e => Some (Plain e) end)
  end.

(** Remove a finalizer of the configuration, when it is there. *)
Definition releaseConfig (f : string) (c : Config) : P (Config * option OpErr) :=
  let l := removeFinalizer f (cf_Finalizers c) in
  if bool_decide (l = cf_Finalizers c) then Return (c, None) else updateFinalizers l c.

(** [handleEnoexecDelete] *)
Definition handleEnoexecDelete (c : Config) : P (Config * option OpErr) :=
  if negb (containsFinalizer utils.ExecFormatErrorFinalizerName (cf_Finalizers c))
  then Return (c, None)
  else
    e1 ← DeleteResources daemonSetRefs;
    match e1 with
    | Some e => Return (c, Some e)
    | None =>
        ds ← getCacheWithAPIFallback enoexecDaemonSet;
        match ds with
        | Ok _ => Return (c, Some (newRequeueAfterError 5 "enoexec DaemonSet is still terminating"))
        | Err e =>
            if negb (isNotFound e) then Return (c, Some (Plain e))
            else
              evs ← request ListENoExecEvents;
              match evs with
              | Err e => Return (c, Some (Plain e))
              | Ok items =>
                  counts ← deleteErroredENoExecEvents items 0 0;
                  if 0 <? counts.1
                  then Return (c, Some (newRequeueAfterError 5
                         "found existing ENoExecEvent resources that need reconciliation"))
                  else
                    e2 ← releaseDeployment enoexecDeployment utils.ExecFormatErrorFinalizerName;
                    match e2 with
                    | Some e => Return (c, Some e)
                    | None =>
                        mon ← request ServiceMonitorsAvailable;
                        e3 ← DeleteResources
                               (enoexecControllerRefs ++ if mon : bool then enoexecMonitorRefs else []);
                        match e3 with
                        | Some e => Return (c, Some e)
                        | None => releaseConfig utils.ExecFormatErrorFinalizerName c
                        end
                    end
              end
        end
    end.

(** ** Deleting the operand *)

Definition webhookRefs : list Ref :=
  [ webhookConfiguration; webhookService; webhookDeployment;
    mkRef KClusterRole PodPlacementWebhookName; mkRef KClusterRoleBinding PodPlacementWebhookName;
    mkRef KServiceAccount PodPlacementWebhookName ].

Definition controllerRefs : list Ref :=
  [ mkRef KService PodPlacementControllerName; controllerDeployment;
    mkRef KClusterRole PodPlacementControllerName;
    mkRef KClusterRoleBinding PodPlacementControllerName; mkRef KRole PodPlacementControllerName;
    mkRef KRoleBinding PodPlacementControllerName; mkRef KServiceAccount PodPlacementControllerName ].

Definition monitorRefs : list Ref :=
  [ mkRef KServiceMonitor PodPlacementWebhookName; mkRef KServiceMonitor PodPlacementControllerName;
    mkRef KPrometheusRule OperatorName ].

(** Whether one of the pods has the scheduling gate. *)
Definition hasGatedPod (pods : list CorePod) : bool :=
  existsb (λ p, existsb (λ g, bool_decide (g = utils.SchedulingGateName))
                  (elems (ps_SchedulingGates (p_Spec p)))) pods.

(** The last part of [handleDelete]: from the controller's finalizer on. *)
Definition finishDelete (c : Config) : P (Config * option OpErr) :=
  a ← getCacheWithAPIFallback controllerDeployment;
  match hardError a with
  | Some e => Return (c, Some (Plain e))
  | None =>
      let l := removeFinalizer utils.PodPlacementFinalizerName (ob_Finalizers (objectOf a)) in
      e1 ← (if bool_decide (l = ob_Finalizers (objectOf a)) then Return None
            else
              b ← request (UpdateObject controllerDeployment (with_Finalizers l (objectOf a)));
              Return (match b with Ok _ => None | Err e => Some (Plain e) end));
      match e1 with
      | Some e => Return (c, Some e)
      | None =>
          let l' := removeFinalizer utils.PodPlacementFinalizerName (cf_Finalizers c) in
          let unchanged := bool_decide (l' = cf_Finalizers c) in
          r ← (if unchanged then Return (c, None) else updateFinalizers l' c);
          match r with
          | (c', Some e) => Return (c', Some e)
          | (c', None) =>
              mon ← request ServiceMonitorsAvailable;
              e2 ← DeleteResources (controllerRefs ++ if mon : bool then monitorRefs else []);
              (** the [err] that is returned last is the one of the last read or update *)
              Return (c', match e2 with
                          | Some e => Some e
                          | None => if unchanged
                                    then match a with Ok _ => None | Err e => Some (Plain e) end
                                    else None
                          end)
          end
      end
  end.

(** [handleDelete] from the deletion of the webhook on. *)
Definition deleteOperand (c : Config) : P (Config * option OpErr) :=
  e1 ← DeleteResources webhookRefs;
  match e1 with
  | Some e => Return (c, Some e)
  | None =>
      s ← request (GetLive webhookService);
      match s with
      | Err e =>
          if isNotFound e then
            pods ← request ListPendingPods;
            match pods with
            | Err e => Return (c, Some (Plain e))
            | Ok l =>
                if hasGatedPod l
                then Return (c, Some (Plain (errOther
                       "waiting for pods with the scheduling gate to be ungated")))
                else finishDelete c
            end
          else Return (c, Some (Plain (errOther
                 "re-queueing to ensure the webhook objects deletion interrupt pods gating before checking the pods gating status")))
      | Ok _ => Return (c, Some (Plain (errOther
                 "re-queueing to ensure the webhook objects deletion interrupt pods gating before checking the pods gating status")))
      end
  end.

Definition RemainingPodPlacementConfig :=
  "cannot delete: namespaced PodPlacementConfig resources still exist".

(** [handleDelete] *)
Definition handleDelete (c : Config) : P (Config * option OpErr) :=
  r ← handleEnoexecDelete c;
  match r with
  | (c1, Some e) => Return (c1, Some e)
  | (c1, None) =>
      u ← updateStatus c1;
      let c2 := u.1 in
      if containsFinalizer utils.CPPCNoPPCObjectFinalizer (cf_Finalizers c2) then
        ppcs ← request ListPPCs;
        match ppcs with
        | Err e => Return (c2, Some (Plain e))
        | Ok n =>
            if 0 <? n
            then Return (c2, Some (Plain (errOther RemainingPodPlacementConfig)))
            else updateFinalizers
                   (removeFinalizer utils.CPPCNoPPCObjectFinalizer (cf_Finalizers c2)) c2
        end
      else deleteOperand c2
  end.

(** ** Creating the operand *)

(** The builders of [objects.go], [podplacement_objects.go] and
    [enoexecevent_objects.go]. *)
Definition buildService (name : string) : Manifest := plain KService name.
Definition buildServiceAccount (name : string) : Manifest := plain KServiceAccount name.
Definition buildClusterRole (name : string) : Manifest := plain KClusterRole name.
Definition buildClusterRoleBinding (name : string) (roleRef : Ref) (subjects : list Subject) : Manifest :=
  mkManifest (mkRef KClusterRoleBinding name) None [] None "" (Some roleRef) subjects.
Definition buildRole (name : string) : Manifest := plain KRole name.
Definition buildRoleBinding (name : string) (roleRef : Ref) (subjects : list Subject) : Manifest :=
  mkManifest (mkRef KRoleBinding name) None [] None "" (Some roleRef) subjects.
Definition buildServiceMonitor (name : string) : Manifest := plain KServiceMonitor name.

(** [strings.ToLower] on ASCII text *)
Definition lower (c : ascii) : ascii :=
  let n := nat_of_ascii c in
  if (65 <=? n) && (n <=? 90) then ascii_of_nat (n + 32) else c.
Fixpoint ToLower (s : string) : string :=
  match s with EmptyString => EmptyString | String c s' => String (lower c) (ToLower s') end.

Definition buildCPPCAvailabilityAlertRule : Manifest := plain KPrometheusRule OperatorName.
Definition buildExecFormatErrorAvailabilityAlertRule : Manifest :=
  plain KPrometheusRule (ToLower ExecFormatErrorMonitorName).
Definition buildExecFormatErrorsDetectedAlertRule : Manifest :=
  plain KPrometheusRule (ToLower ExecFormatErrorsDetected).

Definition buildDeployment (name : string) (replicas : Z) (finalizer : string) : Manifest :=
  mkManifest (mkRef KDeployment name) (Some replicas)
    (if bool_decide (finalizer = "") then [] else [finalizer]) None "restricted-v2" None [].

Definition buildWebhookDeployment : Manifest := buildDeployment PodPlacementWebhookName 3 "".

Definition buildControllerDeployment (scc : string) : Manifest :=
  let d := buildDeployment PodPlacementControllerName 2 utils.PodPlacementFinalizerName in
  mkManifest (mf_Ref d) (mf_Replicas d) (mf_Finalizers d) (mf_NamespaceSelector d) scc
    (mf_RoleRef d) (mf_Subjects d).

Definition buildDeploymentENoExecEventHandler : Manifest := buildDeployment EnoexecControllerName 2 "".
Definition buildDaemonSetENoExecEvent : Manifest := plain KDaemonSet EnoexecDaemonSet.

Definition buildMutatingWebhookConfiguration (c : Config) : Manifest :=
  mkManifest webhookConfiguration None [] (cs_NamespaceSelector (cppc_Spec (cf_Obj c))) "" None [].

(** [getCorrectHostmountAnyUIDSCC] *)
Definition getCorrectHostmountAnyUIDSCC : P (res string) :=
  v ← request ClusterMinorVersion;
  Return (match v with
          | Err e => Err e
          | Ok minor =>
              Ok (if minor <? 30 then "hostmount-anyuid"
                  else if (minor =? 30) || (minor =? 31) then "privileged"
                  else "hostmount-anyuid-v2")%Z
          end).

(** [buildPodPlacementConfigObjects] *)
Definition podPlacementObjects (scc : string) : list Manifest :=
  [ buildService PodPlacementControllerName; buildService PodPlacementWebhookName;
    buildClusterRole PodPlacementControllerName; buildClusterRole PodPlacementWebhookName;
    buildRole PodPlacementControllerName;
    buildServiceAccount PodPlacementWebhookName; buildServiceAccount PodPlacementControllerName;
    buildClusterRoleBinding PodPlacementControllerName
      (mkRef KClusterRole PodPlacementControllerName) [mkSubject PodPlacementControllerName true];
    buildRoleBinding PodPlacementControllerName
      (mkRef KRole PodPlacementControllerName) [mkSubject PodPlacementControllerName false];
    buildClusterRoleBinding PodPlacementWebhookName
      (mkRef KClusterRole PodPlacementWebhookName) [mkSubject PodPlacementWebhookName true];
    buildControllerDeployment scc; buildWebhookDeployment ].

Definition buildPodPlacementConfigObjects (c : Config) : P (Config * (list Manifest + OpErr)) :=
  v ← getCorrectHostmountAnyUIDSCC;
  match v with
  | Err e =>
      u ← updateStatus c;
      Return (u.1, inr (Aggregate (omap id [Some (Plain e); u.2])))
  | Ok scc => Return (c, inl (podPlacementObjects scc))
  end.

(** [buildENoExecEventObjects] *)
Definition enoexecObjects : list Manifest :=
  [ buildService EnoexecControllerName; buildServiceAccount EnoexecControllerName;
    buildServiceAccount EnoexecDaemonSet;
    buildClusterRole EnoexecControllerName; buildRole EnoexecControllerName;
    buildClusterRole EnoexecDaemonSet; buildRole EnoexecDaemonSet;
    buildClusterRoleBinding EnoexecControllerName
      (mkRef KClusterRole EnoexecControllerName) [mkSubject EnoexecControllerName true];
    buildRoleBinding EnoexecControllerName
      (mkRef KRole EnoexecControllerName) [mkSubject EnoexecControllerName true];
    buildClusterRoleBinding EnoexecDaemonSet
      (mkRef KClusterRole EnoexecDaemonSet) [mkSubject EnoexecDaemonSet true];
    buildRoleBinding EnoexecDaemonSet
      (mkRef KRole EnoexecDaemonSet) [mkSubject EnoexecDaemonSet true];
    buildDeploymentENoExecEventHandler ].

Definition enoexecMonitors : list Manifest :=
  [ buildServiceMonitor EnoexecControllerName; buildExecFormatErrorAvailabilityAlertRule;
    buildExecFormatErrorsDetectedAlertRule ].

Definition buildENoExecEventObjects : P (list Manifest) :=
  mon ← request ServiceMonitorsAvailable;
  Return (enoexecObjects ++ if mon : bool then enoexecMonitors else []).

(** [ensureNamespaceLabels] *)
Definition namespaceLabels : list (string * string) :=
  [ ("pod-security.kubernetes.io/audit", "privileged");
    ("pod-security.kubernetes.io/audit-version", "v1.29");
    ("pod-security.kubernetes.io/enforce", "privileged");
    ("pod-security.kubernetes.io/enforce-version", "v1.29");
    ("pod-security.kubernetes.io/warn", "privileged");
    ("pod-security.kubernetes.io/warn-version", "v1.29");
    ("workload.openshift.io/allowed", "management") ].

Definition ensureNamespaceLabels : P (option OpErr) :=
  a ← request GetNamespace;
  match a with
  | Err e => Return (Some (Plain e))
  | Ok labels =>
      e ← request (UpdateNamespace (foldl (λ m kv, mensure m kv.1 kv.2) labels namespaceLabels));
      Return (option_map Plain e)
  end.

(** [isEnoexecDaemonSetSAReady] *)
Definition isEnoexecDaemonSetSAReady : P (res bool) :=
  a ← request (GetCached (mkRef KServiceAccount EnoexecDaemonSet));
  Return (match a with
          | Err e => if isNotFound e then Ok false else Err e
          | Ok sa => Ok (negb (bool_decide (ob_ImagePullSecrets sa = [])))
          end).

(** Whether the DaemonSet is applied now, and whether it is deferred. *)
Definition daemonSetReady : P (res (bool * bool)) :=
  a ← request (GetCached enoexecDaemonSet);
  match a with
  | Ok _ => Return (Ok (true, false))
  | Err e =>
      if negb (isNotFound e) then Return (Err e)
      else
        r ← isEnoexecDaemonSetSAReady;
        Return (match r with Err e => Err e | Ok ready => Ok (ready, negb ready) end)
  end.

Definition monitorEnabled (c : Config) : bool :=
  CPPC_PluginsEnabled (cf_Obj c) ExecFormatErrorMonitorPluginName.

(** The end of [reconcile]: owner references, applying, status. *)
Definition applyObjects (objects : list Manifest) (daemonSetDeferred : bool) (c : Config) :
    P (Config * option OpErr) :=
  errs ← setReferences objects;
  match errs with
  | _ :: _ =>
      u ← updateStatus c;
      Return (u.1, mergeWithStatusErr u.2 (Some <$> errs))
  | [] =>
      e ← ApplyResources objects;
      match e with
      | Some err =>
          u ← updateStatus c;
          Return (u.1, mergeWithStatusErr u.2 [Some err])
      | None =>
          u ← updateStatus c;
          Return (u.1, match u.2 with
                       | Some e => Some e
                       | None =>
                           if daemonSetDeferred
                           then Some (newRequeueAfterError 5
                                  "waiting for enoexec SA imagePullSecrets before creating DaemonSet")
                           else None
                       end)
      end
  end.

(** The middle of [reconcile]: the webhook configuration and the DaemonSet. *)
Definition completeObjects (objects : list Manifest) (c : Config) : P (Config * option OpErr) :=
  let shouldEnsureMWC := st_canDeployMutatingWebhook (cf_Status c) in
  let shouldDeleteMWC :=
    negb shouldEnsureMWC && negb (st_mutatingWebhookConfigurationNotAvailable (cf_Status c)) in
  let objects1 := objects ++ if shouldEnsureMWC then [buildMutatingWebhookConfiguration c] else [] in
  _ ← (if shouldDeleteMWC then request (DeleteObject webhookConfiguration) else Return None);
  d ← (if monitorEnabled c then daemonSetReady else Return (Ok (false, false)));
  match d with
  | Err e =>
      u ← updateStatus c;
      Return (u.1, newAggregate [Some (Plain e); u.2])
  | Ok (includeDaemonSet, daemonSetDeferred) =>
      let objects2 := objects1 ++ if includeDaemonSet : bool then [buildDaemonSetENoExecEvent] else [] in
      mon ← request ServiceMonitorsAvailable;
      let objects3 := objects2 ++ if mon : bool
        then [ buildServiceMonitor PodPlacementControllerName;
               buildServiceMonitor PodPlacementWebhookName; buildCPPCAvailabilityAlertRule ]
        else [] in
      applyObjects objects3 daemonSetDeferred c
  end.

(** [reconcile] *)
Definition reconcile (c : Config) : P (Config * option OpErr) :=
  let desiredLogLevel := (- ToZapLevelInt (cs_LogVerbosity (cppc_Spec (cf_Obj c))))%Z in
  l ← request GetLogLevel;
  _ ← (if bool_decide (l = desiredLogLevel) then Return tt else request (SetLogLevel desiredLogLevel));
  e ← ensureNamespaceLabels;
  match e with
  | Some err =>
      u ← updateStatus c;
      Return (u.1, mergeWithStatusErr u.2 [Some err])
  | None =>
      b ← buildPodPlacementConfigObjects c;
      match b with
      | (c1, inr err) => Return (c1, Some err)
      | (c1, inl objects) =>
          if monitorEnabled c1 then
            more ← buildENoExecEventObjects;
            completeObjects (objects ++ more) c1
          else
            r ← handleEnoexecDelete c1;
            match r with
            | (c2, Some err) => Return (c2, Some err)
            | (c2, None) => completeObjects objects c2
            end
      end
  end.

(** ** [Reconcile] *)
Record Outcome := mkOutcome { oc_RequeueAfter : Z; oc_Error : option OpErr }.

(** A [requeueAfterError] becomes a delay; any other error is returned. *)
Definition outcomeOf (e : option OpErr) : Outcome :=
  match e with
  | None => mkOutcome 0 None
  | Some err => match asRequeueAfter err with
                | Some d => mkOutcome d None
                | None => mkOutcome 0 (Some err)
                end
  end.

(** The finalizer of the handler's deployment: [Some] when the reconcile ends. *)
Definition ensureEnoexecFinalizer : P (option Outcome) :=
  a ← request (GetCached enoexecDeployment);
  match a with
  | Err e => Return (match ignoreNotFound (Some e) with
                     | Some err => Some (mkOutcome 0 (Some (Plain err)))
                     | None => None
                     end)
  | Ok o =>
      if containsFinalizer utils.ExecFormatErrorFinalizerName (ob_Finalizers o) then Return None
      else
        b ← request (UpdateObject enoexecDeployment
               (with_Finalizers (addFinalizer utils.ExecFormatErrorFinalizerName (ob_Finalizers o)) o));
        Return (Some (match b with
                      | Ok _ => mkOutcome 0 None
                      | Err e => mkOutcome 0 (Some (Plain e))
                      end))
  end.

(** [Reconcile] of a live configuration whose finalizers are in place. *)
Definition reconcileLive (c : Config) : P Outcome :=
  d ← dependentsStatus c;
  match d with
  | (_, Some e) => Return (mkOutcome 0 (Some e))
  | (c1, None) =>
      r ← reconcile c1;
      Return (outcomeOf r.2)
  end.

Definition endUpdate (f : list string) (c : Config) : P Outcome :=
  u ← updateFinalizers f c;
  Return (mkOutcome 0 u.2).

(** The plugin's finalizers, then the operand. *)
Definition reconcilePlugin (c : Config) : P Outcome :=
  let fins := cf_Finalizers c in
  if monitorEnabled c then
    if negb (containsFinalizer utils.ExecFormatErrorFinalizerName fins)
    then endUpdate (addFinalizer utils.ExecFormatErrorFinalizerName fins) c
    else
      o ← ensureEnoexecFinalizer;
      match o with Some out => Return out | None => reconcileLive c end
  else reconcileLive c.

Definition Reconcile : P Outcome :=
  a ← getConfig;
  match a with
  | Err e => Return (mkOutcome 0 (option_map Plain (ignoreNotFound (Some e))))
  | Ok r =>
      let c := mkConfig (rp_Obj r) (zeroStatus (rp_Conditions r)) in
      let fins := cf_Finalizers c in
      if cf_Deleting c then
        if negb (containsFinalizer utils.PodPlacementFinalizerName fins)
        then Return (mkOutcome 0 None)
        else d ← handleDelete c; Return (outcomeOf d.2)
      else if negb (containsFinalizer utils.PodPlacementFinalizerName fins)
      then endUpdate (addFinalizer utils.PodPlacementFinalizerName fins) c
      else
        ppcs ← request ListPPCs;
        match ppcs with
        | Err e => Return (mkOutcome 0 (Some (Plain e)))
        | Ok n =>
            let should := 0 <? n in
            let has := containsFinalizer utils.CPPCNoPPCObjectFinalizer fins in
            if Bool.eqb should has then reconcilePlugin c
            else endUpdate (if should then addFinalizer utils.CPPCNoPPCObjectFinalizer fins
                            else removeFinalizer utils.CPPCNoPPCObjectFinalizer fins) c
        end
  end.

End operator.
