(* ===== verification/OperatorTheorems.v ===== *)
(** * What the operator guarantees while it creates and deletes the operand

    The statements are about the trace of requests of a reconcile, against every
    API server: other actors and failures are any answers.  The one assumption,
    where it is needed ([honest]), is optimistic concurrency: a successful update
    of the configuration reports the finalizers that were sent. *)
From stdpp Require Import base gmap strings list.
From S2P Require Import Prelude GoStd Api Status Prog Operator.
Import plugins v1beta1.

Abbreviation Event := (Ev Call).

Definition reply_finalizers (r : Reply) : list string :=
  elems (om_Finalizers (cppc_Meta (rp_Obj r))).

(** A successful update of the configuration or of its status. *)
Definition honest : ∀ T, Call T → T → Prop := λ T c,
  match c in Call T return T → Prop with
  | UpdateConfig o => λ a, ∀ r, a = Ok r →
      reply_finalizers r = elems (om_Finalizers (cppc_Meta o))
  | UpdateConfigStatus c => λ a, ∀ r, a = Ok r → reply_finalizers r = cf_Finalizers c
  | _ => λ _, True
  end.

(** ** Requests of interest *)

(** Requests that give the pod placement controller up: its deployment or the
    configuration lose the finalizer, or one of its objects is deleted. *)
Definition gives_up : ∀ T, Call T → Prop := λ T c,
  match c with
  | UpdateObject r o => r = controllerDeployment ∧ utils.PodPlacementFinalizerName ∉ ob_Finalizers o
  | UpdateConfig o =>
      utils.PodPlacementFinalizerName ∉ elems (om_Finalizers (cppc_Meta o))
  | DeleteObject r => r ∈ controllerRefs ++ monitorRefs
  | _ => False
  end.

(** Answers that show that no pod can be gated any more and none is. *)
Definition webhook_deleted (e : Event) : Prop :=
  match e with
  | mkEv c t => match c in Call T return T → Prop with
                | DeleteObject r => λ a, r = webhookConfiguration ∧ ignoreNotFound a = None
                | _ => λ _, False
                end t
  end.

Definition service_gone (e : Event) : Prop :=
  match e with
  | mkEv c t => match c in Call T return T → Prop with
                | GetLive r => λ a, r = webhookService ∧ ∃ err, a = Err err ∧ isNotFound err = true
                | _ => λ _, False
                end t
  end.

Definition no_gated_pods (e : Event) : Prop :=
  match e with
  | mkEv c t => match c in Call T return T → Prop with
                | ListPendingPods => λ a, ∃ l, a = Ok l ∧ hasGatedPod l = false
                | _ => λ _, False
                end t
  end.

(** The three answers, in this order. *)
Definition cleared (tr : list Event) : Prop :=
  ∃ a e1 b e2 c e3 d, tr = a ++ e1 :: b ++ e2 :: c ++ e3 :: d
    ∧ webhook_deleted e1 ∧ service_gone e2 ∧ no_gated_pods e3.

(** ** Stability *)
Lemma cleared_mono tr tr' : cleared tr → cleared (tr ++ tr').
Proof.
  intros (a & e1 & b & e2 & c & e3 & d & -> & H). exists a, e1, b, e2, c, e3, (d ++ tr').
  split; [|done]. by rewrite <-!app_assoc; cbn; rewrite <-!app_assoc; cbn; rewrite <-!app_assoc.
Qed.

(** ** Lists of requests *)
Lemma calls_DeleteResources (P : ∀ T, Call T → Prop) refs :
  Forall (λ r, P _ (DeleteObject r)) refs → calls P (DeleteResources refs).
Proof.
  intros H. unfold DeleteResources. prog_unfold. apply calls_bind; [|by intros].
  generalize (@nil OpErr). induction H as [|r refs Hr H IH]; intros errs; cbn; [done|].
  split; [done|]. intros t. apply IH.
Qed.

Lemma calls_ApplyResources (P : ∀ T, Call T → Prop) objs :
  Forall (λ o, P _ (ApplyObject o)) objs → calls P (ApplyResources objs).
Proof.
  intros H. unfold ApplyResources. prog_unfold. apply calls_bind; [|by intros].
  generalize (@nil OpErr). induction H as [|r refs Hr H IH]; intros errs; cbn; [done|].
  split; [done|]. intros t. apply IH.
Qed.

Lemma calls_deleteErrored (P : ∀ T, Call T → Prop) items a b :
  (∀ n, P _ (DeleteENoExecEvent n)) → calls P (deleteErroredENoExecEvents items a b).
Proof.
  intros HP. revert a b. induction items as [|it items IH]; intros a b; cbn; [done|].
  destruct (mlookup _ _); prog_unfold; cbn; auto.
Qed.

(** [DeleteResources] succeeds only when every deletion did, or found nothing. *)
Lemma wp_DeleteResources V refs tr :
  wp V (DeleteResources refs)
     (λ e tr', ∃ new, tr' = tr ++ new ∧
        (e = None → Forall2 (λ r ev, ∃ a, ev = mkEv (DeleteObject r) a ∧ ignoreNotFound a = None)
                      refs new)) tr.
Proof.
  unfold DeleteResources. prog_unfold. apply wp_bind. cbn.
  assert (H : ∀ errs tr, wp V (DeleteResources_loop refs errs)
    (λ es tr', ∃ new, tr' = tr ++ new ∧ (es = [] → errs = [] ∧
       Forall2 (λ r ev, ∃ a, ev = mkEv (DeleteObject r) a ∧ ignoreNotFound a = None) refs new)) tr).
  { clear tr. induction refs as [|r refs IH]; intros errs tr; cbn.
    - exists []. rewrite app_nil_r. split; [done|]. intros ->. split; [done|constructor].
    - intros a _. eapply wp_mono; [|apply IH]. intros es tr' (new & -> & Hn).
      exists (mkEv (DeleteObject r) a :: new). split; [by rewrite <-app_assoc|].
      intros Hes. destruct (Hn Hes) as [He Hf]. destruct (ignoreNotFound a) eqn:Ea.
      + by destruct errs.
      + rewrite app_nil_r in He. split; [done|]. constructor; eauto. }
  eapply wp_mono; [|apply H]. intros es tr' (new & -> & Hn). exists new. split; [done|].
  intros Hes. apply Hn. destruct es; [done|]. discriminate.
Qed.

Section operator.
Context (apiReader : bool).
Abbreviation getCacheWithAPIFallback := (getCacheWithAPIFallback apiReader).
Abbreviation releaseDeployment := (releaseDeployment apiReader).
Abbreviation handleEnoexecDelete := (handleEnoexecDelete apiReader).
Abbreviation finishDelete := (finishDelete apiReader).
Abbreviation deleteOperand := (deleteOperand apiReader).
Abbreviation handleDelete := (handleDelete apiReader).

(** ** Finalizers of the controller's copy *)
Lemma cf_Finalizers_set f c : cf_Finalizers (cf_with_Finalizers f c) = f.
Proof. done. Qed.

Lemma cf_Finalizers_decode r c : cf_Finalizers (decodeInto r c) = reply_finalizers r.
Proof. done. Qed.

Lemma elem_of_removeFinalizer f g l : f ∈ removeFinalizer g l ↔ f ≠ g ∧ f ∈ l.
Proof. unfold removeFinalizer. by rewrite list_elem_of_filter. Qed.

Lemma elem_of_addFinalizer f g l : f ∈ addFinalizer g l ↔ f = g ∨ f ∈ l.
Proof.
  unfold addFinalizer, containsFinalizer. case_bool_decide as H.
  - split; [by right|]. by intros [->|].
  - rewrite elem_of_app, list_elem_of_singleton. naive_solver.
Qed.

Lemma updateFinalizers_fins f c tr :
  wp honest (updateFinalizers f c) (λ r _, cf_Finalizers r.1 = f) tr.
Proof.
  unfold updateFinalizers. prog_unfold. step. intros [r|e] Ht; [|done]. cbn.
  rewrite cf_Finalizers_decode. by apply Ht.
Qed.

Lemma updateStatus_fins c tr :
  wp honest (updateStatus c) (λ r _, cf_Finalizers r.1 = cf_Finalizers c) tr.
Proof.
  unfold updateStatus. prog_unfold. step. intros [r|e] Ht; [|done]. cbn.
  rewrite cf_Finalizers_decode. by apply Ht.
Qed.

(** What [handleEnoexecDelete] does to the other finalizers: nothing. *)
Lemma handleEnoexecDelete_fins c tr :
  wp honest (handleEnoexecDelete c)
     (λ r _, ∀ f, f ≠ utils.ExecFormatErrorFinalizerName →
                  f ∈ cf_Finalizers r.1 ↔ f ∈ cf_Finalizers c) tr.
Proof.
  unfold Operator.handleEnoexecDelete. prog_unfold.
  destruct (negb _); [done|]. apply wp_bind.
  eapply wp_mono; [|apply wp_true]. intros [e|] tr1 _; [done|]. apply wp_bind.
  eapply wp_mono; [|apply wp_true]. intros [o|e] tr2 _; [done|]. destruct (negb _); [done|].
  step. intros [items|e'] _; [|done]. apply wp_bind.
  eapply wp_mono; [|apply wp_true]. intros n tr3 _. destruct (0 <? n.1); [done|]. apply wp_bind.
  eapply wp_mono; [|apply wp_true]. intros [e2|] tr4 _; [done|]. step. intros mon _. apply wp_bind.
  eapply wp_mono; [|apply wp_true]. intros [e3|] tr5 _; [done|].
  unfold releaseConfig. case_bool_decide; [done|].
  eapply wp_mono; [|apply updateFinalizers_fins]. intros r tr' Hr f Hf.
  rewrite Hr, elem_of_removeFinalizer. naive_solver.
Qed.

(** ** Reads and the plugin's objects give nothing up *)
Lemma calls_getCache (P : ∀ T, Call T → Prop) r :
  (∀ r, P _ (GetCached r)) → (∀ r, P _ (GetLive r)) → calls P (getCacheWithAPIFallback r).
Proof.
  intros Hc Hl. unfold Operator.getCacheWithAPIFallback. prog_unfold. step. split; [done|].
  intros [o|e]; repeat case_match; cbn; auto.
Qed.

Lemma calls_releaseDeployment (P : ∀ T, Call T → Prop) r f :
  (∀ r, P _ (GetCached r)) → (∀ r, P _ (GetLive r)) → (∀ o, P _ (UpdateObject r o)) →
  calls P (releaseDeployment r f).
Proof.
  intros Hc Hl Hu. unfold Operator.releaseDeployment. prog_unfold.
  apply calls_bind; [by apply calls_getCache|]. intros [o|e]; [|done].
  case_bool_decide; cbn; auto.
Qed.

(** The requests of [handleEnoexecDelete], for any predicate they satisfy. *)
Lemma calls_handleEnoexecDelete (P : ∀ T, Call T → Prop) c :
  (∀ r, P _ (GetCached r)) → (∀ r, P _ (GetLive r)) → (∀ o, P _ (UpdateObject enoexecDeployment o)) →
  Forall (λ r, P _ (DeleteObject r)) (daemonSetRefs ++ enoexecControllerRefs ++ enoexecMonitorRefs) →
  P _ ListENoExecEvents → (∀ n, P _ (DeleteENoExecEvent n)) → P _ ServiceMonitorsAvailable →
  P _ (UpdateConfig (cf_Obj (cf_with_Finalizers
         (removeFinalizer utils.ExecFormatErrorFinalizerName (cf_Finalizers c)) c))) →
  calls P (handleEnoexecDelete c).
Proof.
  intros Hc Hl Hu Hd Hle Hde Hm Hup. rewrite !Forall_app in Hd. destruct Hd as (Hd1 & Hd2 & Hd3).
  unfold Operator.handleEnoexecDelete. prog_unfold. destruct (negb _); [done|].
  apply calls_bind; [by apply calls_DeleteResources|]. intros [e|]; [done|].
  apply calls_bind; [by apply calls_getCache|]. intros [o|e]; [done|]. destruct (negb _); [done|].
  step. split; [done|]. intros [items|e']; [|done].
  apply calls_bind; [by apply calls_deleteErrored|]. intros n. destruct (0 <? n.1); [done|].
  apply calls_bind; [by apply calls_releaseDeployment|]. intros [e2|]; [done|].
  step. split; [done|]. intros mon. apply calls_bind.
  { apply calls_DeleteResources, Forall_app. split; [done|]. by destruct mon. }
  intros [e3|]; [done|]. unfold releaseConfig. case_bool_decide; [done|]. split; [exact Hup|done].
Qed.

Lemma enoexec_not_gives_up c :
  utils.PodPlacementFinalizerName ∈ cf_Finalizers c →
  calls (λ T c, ¬ gives_up T c) (handleEnoexecDelete c).
Proof.
  intros Hfin. apply calls_handleEnoexecDelete; cbn; try (by intros); try (intros; by intros []).
  - apply (bool_decide_unpack _). by vm_compute.
  - intros H. apply H, elem_of_removeFinalizer. done.
Qed.

(** ** Deleting the operand *)
Lemma cleared_intro tr new s pods :
  Forall2 (λ r ev, ∃ a, ev = mkEv (DeleteObject r) a ∧ ignoreNotFound a = None) webhookRefs new →
  isNotFound s = true → hasGatedPod pods = false →
  cleared (((tr ++ new) ++ [mkEv (GetLive webhookService) (Err s)])
           ++ [mkEv ListPendingPods (Ok pods)]).
Proof.
  intros Hd Hs Hp. unfold webhookRefs in Hd.
  apply Forall2_cons_inv_l in Hd as (e1 & new' & (a & -> & Ha) & _ & ->).
  exists tr, (mkEv (DeleteObject webhookConfiguration) a), new',
    (mkEv (GetLive webhookService) (Err s)), [], (mkEv ListPendingPods (Ok pods)), [].
  rewrite <-!app_assoc. cbn. repeat split; eauto.
Qed.

Lemma deleteOperand_guarded V c tr :
  guarded gives_up cleared tr →
  wp V (deleteOperand c) (λ _ tr', guarded gives_up cleared tr') tr.
Proof.
  intros Hg. unfold Operator.deleteOperand. prog_unfold. apply wp_bind.
  eapply wp_mono; [|apply (wp_guarded_no gives_up cleared V); [|apply wp_DeleteResources|done]].
  2: { apply calls_DeleteResources. cbn. apply (bool_decide_unpack _). by vm_compute. }
  intros [e|] tr1 [(new & -> & Hn) Hg1]; [done|]. specialize (Hn eq_refl).
  step. intros [o|e] _.
  { apply guarded_snoc; [done|]. by intros []. }
  destruct (isNotFound e) eqn:He; [|apply guarded_snoc; [done|]; by intros []].
  step. intros [pods|e'] _.
  2: { repeat (apply guarded_snoc; [|by intros []]). done. }
  assert (Hg2 : guarded gives_up cleared
    (((tr ++ new) ++ [mkEv (GetLive webhookService) (Err e)]) ++ [mkEv ListPendingPods (Ok pods)])).
  { repeat (apply guarded_snoc; [|by intros []]). done. }
  destruct (hasGatedPod pods) eqn:Hp; [done|].
  apply wp_guarded; [apply cleared_mono|done|]. by apply cleared_intro.
Qed.

Lemma handleDelete_guarded c tr :
  utils.PodPlacementFinalizerName ∈ cf_Finalizers c → guarded gives_up cleared tr →
  wp honest (handleDelete c) (λ _ tr', guarded gives_up cleared tr') tr.
Proof.
  intros Hfin Hg. unfold Operator.handleDelete. prog_unfold. apply wp_bind.
  eapply wp_mono; [|apply (wp_guarded_no gives_up cleared honest);
    [by apply enoexec_not_gives_up|apply handleEnoexecDelete_fins|done]].
  intros [c1 [e|]] tr1 [Hf Hg1]; [done|]. apply wp_bind.
  eapply wp_mono; [|apply (wp_guarded_no gives_up cleared honest);
    [split; [by intros []|done]|apply updateStatus_fins|done]].
  intros [c2 u] tr2 [Hf2 Hg2]. cbn [fst snd] in *.
  destruct (containsFinalizer _ _); [|by apply deleteOperand_guarded].
  step. intros [n|e] _; [|apply guarded_snoc; [done|]; by intros []].
  assert (Hg3 : guarded gives_up cleared (tr2 ++ [mkEv ListPPCs (Ok n)])).
  { apply guarded_snoc; [done|]. by intros []. }
  destruct (0 <? n); [done|]. unfold updateFinalizers. prog_unfold. step. intros a _.
  apply guarded_snoc; [done|]. cbn [gives_up ev_call]. intros Hno. exfalso. apply Hno.
  apply elem_of_removeFinalizer. rewrite Hf2, Hf by done. done.
Qed.

(** C6: the pod placement controller is never given up while pods may be gated.
    Whatever the API server answers and whatever fails, [handleDelete] removes
    the finalizer of the controller's deployment or of the configuration, or
    deletes an object of the controller, only after the webhook configuration was
    deleted, then the webhook's service was seen gone, and then a list of the
    pending pods had none with the scheduling gate. *)
Theorem handleDelete_waits_for_gated_pods {W : Type} (srv : Server Call W) c w :
  server_ok srv honest →
  utils.PodPlacementFinalizerName ∈ cf_Finalizers c →
  guarded gives_up cleared (run (handleDelete c) w).1.2.
Proof.
  intros Hsrv Hfin.
  pose proof (wp_run honest (handleDelete c) _ [] w Hsrv
    (handleDelete_guarded c [] Hfin (guarded_nil _ _))) as H.
  by destruct (run (handleDelete c) w) as [[w' tr] a].
Qed.

(** ** PodPlacementConfigs block the deletion *)
Definition operandRefs : list Ref := webhookRefs ++ controllerRefs ++ monitorRefs.

Definition deletes_operand : ∀ T, Call T → Prop := λ T c,
  match c with DeleteObject r => r ∈ operandRefs | _ => False end.

Definition drops_ppc_finalizer : ∀ T, Call T → Prop := λ T c,
  match c with
  | UpdateConfig o => utils.CPPCNoPPCObjectFinalizer ∉ elems (om_Finalizers (cppc_Meta o))
  | _ => False
  end.

Definition saw_no_ppcs (tr : list Event) : Prop := mkEv ListPPCs (Ok 0) ∈ tr.

Definition blocked (tr : list Event) : Prop :=
  guarded drops_ppc_finalizer saw_no_ppcs tr ∧ guarded deletes_operand (λ _, False) tr.

Lemma blocked_snoc tr e :
  blocked tr → ¬ deletes_operand _ (ev_call e) → (drops_ppc_finalizer _ (ev_call e) → saw_no_ppcs tr) →
  blocked (tr ++ [e]).
Proof. intros [H1 H2] He Hd. split; apply guarded_snoc; auto. Qed.

Lemma enoexec_blocked c tr :
  utils.CPPCNoPPCObjectFinalizer ∈ cf_Finalizers c → blocked tr →
  wp honest (handleEnoexecDelete c)
     (λ r tr', utils.CPPCNoPPCObjectFinalizer ∈ cf_Finalizers r.1 ∧ blocked tr') tr.
Proof.
  intros Hfin [H1 H2].
  eapply wp_mono; [|apply (wp_guarded_no drops_ppc_finalizer saw_no_ppcs);
    [|apply (wp_guarded_no deletes_operand (λ _, False));
      [|apply handleEnoexecDelete_fins|done]|done]].
  - intros [c1 e] tr' [[Hf ?] ?]. split; [by apply Hf|done].
  - apply calls_handleEnoexecDelete; cbn; try (by intros); try (intros; by intros []).
    + apply (bool_decide_unpack _). by vm_compute.
    + intros H. apply H, elem_of_removeFinalizer. done.
  - apply calls_handleEnoexecDelete; cbn; try (by intros); try (intros; by intros []).
    apply (bool_decide_unpack _). by vm_compute.
Qed.

Lemma handleDelete_blocked c tr :
  utils.CPPCNoPPCObjectFinalizer ∈ cf_Finalizers c → blocked tr →
  wp honest (handleDelete c) (λ _ tr', blocked tr') tr.
Proof.
  intros Hfin Hb. unfold Operator.handleDelete. prog_unfold. apply wp_bind.
  eapply wp_mono; [|by apply enoexec_blocked]. intros [c1 [e|]] tr1 [Hf Hb1]; [done|].
  unfold updateStatus. prog_unfold. cbn [fst snd] in Hf. step. intros a Ha.
  assert (Hb2 : blocked (tr1 ++ [mkEv (UpdateConfigStatus c1) a])).
  { apply blocked_snoc; [done|by intros []..]. }
  unfold containsFinalizer. rewrite bool_decide_eq_true_2; cycle 1.
  { destruct a as [r|]; [|done]. cbn. rewrite cf_Finalizers_decode, (Ha r eq_refl). done. }
  step. intros [n|e] _; [|apply blocked_snoc; [done|by intros []..]].
  assert (Hb3 : ∀ m, blocked ((tr1 ++ [mkEv (UpdateConfigStatus c1) a]) ++ [mkEv ListPPCs m])).
  { intros m. apply blocked_snoc; [done|by intros []..]. }
  destruct n as [|n]; [|apply Hb3]. cbn [Nat.ltb Nat.leb]. unfold updateFinalizers. prog_unfold. step.
  intros b _. apply blocked_snoc; [done|by intros []|]. intros _. apply elem_of_app. right. left.
Qed.

(** While the configuration carries the finalizer for namespaced
    configurations, deleting it tears nothing down: no object of the operand is
    deleted, and that finalizer is removed only after a list of the
    PodPlacementConfigs came back empty. *)
Theorem handleDelete_blocked_by_ppcs {W : Type} (srv : Server Call W) c w :
  server_ok srv honest →
  utils.CPPCNoPPCObjectFinalizer ∈ cf_Finalizers c →
  let tr := (run (handleDelete c) w).1.2 in
  guarded drops_ppc_finalizer saw_no_ppcs tr ∧ Forall (λ e, ¬ deletes_operand _ (ev_call e)) tr.
Proof.
  intros Hsrv Hfin. cbv zeta.
  assert (Hb : blocked []) by (split; apply guarded_nil).
  pose proof (wp_run honest (handleDelete c) _ [] w Hsrv (handleDelete_blocked c [] Hfin Hb)) as H.
  destruct (run (handleDelete c) w) as [[w' tr] a]. cbn [fst snd]. destruct H as [H1 H2]. split; [done|].
  apply Forall_forall. intros e He Hd. apply list_elem_of_split in He as (l1 & l2 & Heq).
  by eapply H2.
Qed.

(** ** Creating the operand *)
Section create.
Context (now : string → Z).
Abbreviation dependentsStatus := (dependentsStatus now).
Abbreviation reconcile := (reconcile apiReader).
Abbreviation reconcileLive := (reconcileLive apiReader now).
Abbreviation Reconcile := (Reconcile apiReader now).

Definition applies : ∀ T, Call T → Prop := λ T c,
  match c with ApplyObject _ => True | _ => False end.

Definition applies_webhook_configuration : ∀ T, Call T → Prop := λ T c,
  match c with ApplyObject m => mf_Ref m = webhookConfiguration | _ => False end.

(** The configuration was read, was not being deleted and had its finalizer. *)
Definition config_finalized (tr : list Event) : Prop :=
  ∃ r, (mkEv GetConfigCached (Ok r) ∈ tr ∨ mkEv GetConfigLive (Ok r) ∈ tr)
       ∧ om_DeletionTimestamp (cppc_Meta (rp_Obj r)) = None
       ∧ utils.PodPlacementFinalizerName ∈ reply_finalizers r.

(** A deployment was reported with an available replica. *)
Definition seen_available (d : Ref) (tr : list Event) : Prop :=
  ∃ o, isDeploymentAvailable o = true
       ∧ (mkEv (GetLive d) (Ok o) ∈ tr ∨ ∃ o', mkEv (UpdateObject d o') (Ok o) ∈ tr).

Definition operand_available (tr : list Event) : Prop :=
  seen_available controllerDeployment tr ∧ seen_available webhookDeployment tr.

Lemma config_finalized_mono tr tr' : config_finalized tr → config_finalized (tr ++ tr').
Proof. intros (r & H & ?). exists r. split; [|done]. rewrite !elem_of_app. tauto. Qed.

Lemma seen_available_mono d tr tr' : seen_available d tr → seen_available d (tr ++ tr').
Proof.
  intros (o & Ho & H). exists o. split; [done|]. rewrite !elem_of_app.
  destruct H as [H|[o' H]]; [by left; left|]. right. exists o'. apply elem_of_app. by left.
Qed.

Lemma operand_available_mono tr tr' : operand_available tr → operand_available (tr ++ tr').
Proof. intros [H1 H2]. split; by apply seen_available_mono. Qed.

(** *** The flag that gates the webhook configuration *)
Definition canDeploy (c : Config) : bool := st_canDeployMutatingWebhook (cf_Status c).

Lemma updateStatus_canDeploy V c tr : wp V (updateStatus c) (λ r _, canDeploy r.1 = canDeploy c) tr.
Proof. unfold updateStatus. prog_unfold. step. by intros [r|e] _. Qed.

Lemma updateFinalizers_canDeploy V f c tr :
  wp V (updateFinalizers f c) (λ r _, canDeploy r.1 = canDeploy c) tr.
Proof. unfold updateFinalizers. prog_unfold. step. by intros [r|e] _. Qed.

Lemma handleEnoexecDelete_canDeploy V c tr :
  wp V (handleEnoexecDelete c) (λ r _, canDeploy r.1 = canDeploy c) tr.
Proof.
  unfold Operator.handleEnoexecDelete. prog_unfold.
  destruct (negb _); [done|]. apply wp_bind.
  eapply wp_mono; [|apply wp_true]. intros [e|] tr1 _; [done|]. apply wp_bind.
  eapply wp_mono; [|apply wp_true]. intros [o|e] tr2 _; [done|]. destruct (negb _); [done|].
  step. intros [items|e'] _; [|done]. apply wp_bind.
  eapply wp_mono; [|apply wp_true]. intros n tr3 _. destruct (0 <? n.1); [done|]. apply wp_bind.
  eapply wp_mono; [|apply wp_true]. intros [e2|] tr4 _; [done|]. step. intros mon _. apply wp_bind.
  eapply wp_mono; [|apply wp_true]. intros [e3|] tr5 _; [done|].
  unfold releaseConfig. case_bool_decide; [done|]. apply updateFinalizers_canDeploy.
Qed.

(** [dependentsStatus] sets it only for replicas it has just been told of. *)
Lemma dependentsStatus_available V c tr :
  wp V (dependentsStatus c)
     (λ r tr', r.2 = None → canDeploy r.1 = true → operand_available tr') tr.
Proof.
  unfold Operator.dependentsStatus. prog_unfold. step. intros a _.
  destruct (hardError a) eqn:Ea; [done|]. apply wp_bind.
  eapply (wp_mono _ _ _ (λ r tr', r.2 = None → isDeploymentAvailable r.1 = true →
    seen_available controllerDeployment tr')).
  - intros [o [e|]] tr1 Hr; [done|]. step. intros b _. destruct (hardError b) eqn:Eb; [done|].
    step. intros m _. destruct (hardError m) eqn:Em; [done|]. step. intros _ Hd.
    unfold canDeploy in Hd. cbn in Hd. apply andb_prop in Hd as [[Hw Hc]%andb_prop _].
    split.
    + do 2 apply seen_available_mono. by apply Hr.
    + apply seen_available_mono. destruct b as [ob|eb]; [|done].
      exists ob. split; [done|]. left. apply elem_of_app. right. left.
  - unfold releaseController. prog_unfold.
    assert (Hget : isDeploymentAvailable (objectOf a) = true →
      seen_available controllerDeployment (tr ++ [mkEv (GetLive controllerDeployment) a])).
    { intros Ho. destruct a as [o|e]; [|done]. exists o. split; [done|]. left.
      apply elem_of_app. right. left. }
    destruct (_ && _); [|step; by auto]. case_bool_decide; [step; by auto|].
    step. intros [o|e] _; step; [|done]. intros _ Ho. exists o. split; [done|]. right.
    eexists. apply elem_of_app. right. left.
Qed.

(** *** Requests that apply nothing *)
Lemma calls_setReferences (P : ∀ T, Call T → Prop) objs :
  (∀ m, P _ (SetControllerReference m)) → calls P (setReferences objs).
Proof.
  intros HP. induction objs as [|o objs IH]; cbn; [done|]. split; [done|]. intros t.
  apply calls_bind; [done|]. by intros.
Qed.

(** Requests that read or write the configuration, other than its status. *)
Definition reads_config : ∀ T, Call T → Prop := λ T c,
  match c with GetConfigCached | GetConfigLive => True | _ => False end.
Definition handles_config : ∀ T, Call T → Prop := λ T c,
  match c with GetConfigCached | GetConfigLive | UpdateConfig _ => True | _ => False end.

(** Everything but the objects to apply and the reads of the configuration
    satisfies [P] ([harmless]), or everything but those and its updates ([tame]). *)
Definition harmless (P : ∀ T, Call T → Prop) : Prop :=
  ∀ T (c : Call T), ¬ applies T c → ¬ reads_config T c → P T c.
Definition tame (P : ∀ T, Call T → Prop) : Prop :=
  ∀ T (c : Call T), ¬ applies T c → ¬ handles_config T c → P T c.

Lemma harmless_tame P : harmless P → tame P.
Proof. intros HP T c Hc Hr. apply HP; [done|]. intros H. apply Hr. by destruct c. Qed.

Lemma calls_updateStatus P c : tame P → calls P (updateStatus c).
Proof. intros HP. unfold updateStatus. prog_unfold. step. split; [|done]. apply HP; by intros []. Qed.

Lemma calls_completeObjects P objects c :
  tame P → Forall (λ o, P _ (ApplyObject o)) objects →
  Forall (λ o, P _ (ApplyObject o))
    [buildDaemonSetENoExecEvent; buildServiceMonitor PodPlacementControllerName;
     buildServiceMonitor PodPlacementWebhookName; buildCPPCAvailabilityAlertRule] →
  (canDeploy c = true → P _ (ApplyObject (buildMutatingWebhookConfiguration c))) →
  calls P (completeObjects objects c).
Proof.
  intros HP Hobjs Hmore Hmwc. unfold completeObjects. prog_unfold.
  assert (Hh : ∀ T (c : Call T), ¬ applies T c → ¬ handles_config T c → P T c) by exact HP.
  apply calls_bind.
  { destruct (_ && _); [|done]. step. split; [apply Hh; by intros []|done]. }
  intros _. apply calls_bind.
  { destruct (monitorEnabled c); [|done]. unfold daemonSetReady, isEnoexecDaemonSetSAReady.
    prog_unfold. step. split; [apply Hh; by intros []|]. intros [o|e]; [done|].
    destruct (negb _); [done|]. step. split; [apply Hh; by intros []|]. done. }
  intros [[inc deferred]|e].
  2: { apply calls_bind; [by apply calls_updateStatus|done]. }
  step. split; [apply Hh; by intros []|]. intros mon. unfold applyObjects. prog_unfold.
  apply calls_bind; [apply calls_setReferences; intros; apply Hh; by intros []|].
  intros [|e errs]; [|apply calls_bind; [by apply calls_updateStatus|done]].
  apply calls_bind.
  - apply calls_ApplyResources. rewrite !Forall_cons in Hmore. destruct Hmore as (?&?&?&?&_).
    rewrite !Forall_app. repeat split.
    + done.
    + destruct (st_canDeployMutatingWebhook _) eqn:E; [|done]. repeat constructor. by apply Hmwc.
    + destruct inc; by repeat constructor.
    + destruct mon; by repeat constructor.
  - intros [e|]; (apply calls_bind; [by apply calls_updateStatus|done]).
Qed.

Lemma harmless_not_webhook : harmless (λ T c, ¬ applies_webhook_configuration T c).
Proof. intros T c Hc _ Ha. apply Hc. by destruct c. Qed.

Lemma tame_not_webhook : tame (λ T c, ¬ applies_webhook_configuration T c).
Proof. apply harmless_tame, harmless_not_webhook. Qed.

Lemma calls_ensureNamespaceLabels P : tame P → calls P ensureNamespaceLabels.
Proof.
  intros HP. unfold ensureNamespaceLabels. prog_unfold. step. split; [apply HP; by intros []|].
  intros [l|e]; [|done]. step. split; [apply HP; by intros []|done].
Qed.

Lemma calls_enoexec_harmless P c : harmless P → calls P (handleEnoexecDelete c).
Proof.
  intros HP.
  assert (Hd : ∀ l, Forall (λ r, P _ (DeleteObject r)) l).
  { intros l. apply Forall_forall. intros r _. apply HP; by intros []. }
  apply calls_handleEnoexecDelete; try apply Hd; intros; apply HP; by intros [].
Qed.

Lemma plain_not_webhook l :
  Forall (λ m, mf_Ref m ≠ webhookConfiguration) l →
  Forall (λ o, ¬ applies_webhook_configuration _ (ApplyObject o)) l.
Proof. done. Qed.

(** A configuration that may not be deployed stays so until the objects are
    applied: then the webhook configuration is not among them. *)
Lemma calls_complete_gated objects c :
  canDeploy c = false → Forall (λ m, mf_Ref m ≠ webhookConfiguration) objects →
  calls (λ T c, ¬ applies_webhook_configuration T c) (completeObjects objects c).
Proof.
  intros Hc Hobjs. apply calls_completeObjects; [apply tame_not_webhook|done| |by rewrite Hc].
  cbn. apply (bool_decide_unpack _). by vm_compute.
Qed.

Lemma podPlacementObjects_refs scc :
  mf_Ref <$> podPlacementObjects scc = mf_Ref <$> podPlacementObjects "".
Proof. done. Qed.

Lemma podPlacementObjects_not_webhook scc :
  Forall (λ m, mf_Ref m ≠ webhookConfiguration) (podPlacementObjects scc).
Proof. repeat constructor; discriminate. Qed.

Abbreviation gated tr := (guarded applies_webhook_configuration operand_available tr).

Lemma reconcile_gated V c tr :
  gated tr → (canDeploy c = true → operand_available tr) →
  wp V (reconcile c) (λ _ tr', gated tr') tr.
Proof.
  intros Hg Hcan. destruct (canDeploy c) eqn:Hc.
  { apply wp_guarded; [apply operand_available_mono|done|by apply Hcan]. }
  unfold Operator.reconcile. prog_unfold. step. intros l _.
  assert (Hg1 : gated (tr ++ [mkEv GetLogLevel l])) by (apply guarded_snoc; [done|by intros []]).
  apply wp_bind.
  eapply wp_mono; [|apply (wp_guarded_no applies_webhook_configuration operand_available);
    [|apply wp_true|exact Hg1]].
  2: { case_bool_decide; [done|]. step. split; [by intros []|done]. }
  intros _ tr1 [_ Hg2]. apply wp_bind.
  eapply wp_mono; [|apply (wp_guarded_no applies_webhook_configuration operand_available);
    [apply calls_ensureNamespaceLabels, tame_not_webhook|apply wp_true|exact Hg2]].
  intros [e|] tr2 [_ Hg3].
  { apply wp_bind. eapply wp_mono; [|apply (wp_guarded_no applies_webhook_configuration operand_available);
      [apply calls_updateStatus, tame_not_webhook|apply wp_true|exact Hg3]].
    by intros u tr3 [_ ?]. }
  unfold buildPodPlacementConfigObjects, getCorrectHostmountAnyUIDSCC. prog_unfold. step.
  intros v _.
  assert (Hg4 : gated (tr2 ++ [mkEv ClusterMinorVersion v])) by (apply guarded_snoc; [done|by intros []]).
  destruct v as [minor|e]; step.
  2: { intros a _. apply guarded_snoc; [done|by intros []]. }
  set (scc := if (minor <? 30)%Z then _ else _). clearbody scc.
  destruct (monitorEnabled c).
  - unfold buildENoExecEventObjects. prog_unfold. step. intros mon _.
    eapply wp_mono; [|apply (wp_guarded_no applies_webhook_configuration operand_available);
      [|apply wp_true|apply guarded_snoc; [exact Hg4|by intros []]]]; [by intros ? ? [_ ?]|].
    apply calls_complete_gated; [done|]. rewrite !Forall_app.
    repeat split; [apply podPlacementObjects_not_webhook| |]; destruct mon;
      repeat constructor; discriminate.
  - apply wp_bind.
    eapply wp_mono; [|apply (wp_guarded_no applies_webhook_configuration operand_available);
      [apply calls_enoexec_harmless, harmless_not_webhook|apply handleEnoexecDelete_canDeploy|exact Hg4]].
    intros [c2 [e|]] tr3 [Hc2 Hg5]; [done|]. cbn [fst snd] in Hc2.
    eapply wp_mono; [|apply (wp_guarded_no applies_webhook_configuration operand_available);
      [|apply wp_true|exact Hg5]]; [by intros ? ? [_ ?]|].
    apply calls_complete_gated; [congruence|apply podPlacementObjects_not_webhook].
Qed.

(** *** [Reconcile] *)
Lemma getConfig_seen V tr :
  wp V (getConfig apiReader)
     (λ a tr', ∀ r, a = Ok r → mkEv GetConfigCached (Ok r) ∈ tr' ∨ mkEv GetConfigLive (Ok r) ∈ tr') tr.
Proof.
  unfold getConfig. prog_unfold. step.
  assert (Hin : ∀ (t : list Event) e, e ∈ t ++ [e]) by (intros; apply elem_of_app; right; left).
  intros [o|e] _; repeat case_match; step; intros; simplify_eq; auto.
Qed.

Lemma calls_getConfig (P : ∀ T, Call T → Prop) :
  P _ GetConfigCached → P _ GetConfigLive → calls P (getConfig apiReader).
Proof.
  intros Hc Hl. unfold getConfig. prog_unfold. step. split; [done|].
  intros [o|e]; repeat case_match; by step.
Qed.

Lemma calls_updateFinalizers P f c : harmless P → calls P (updateFinalizers f c).
Proof. intros HP. unfold updateFinalizers. prog_unfold. step. split; [|done]. apply HP; by intros []. Qed.

Lemma calls_handleDelete P c : harmless P → calls P (handleDelete c).
Proof.
  intros HP. unfold Operator.handleDelete. prog_unfold.
  assert (Hd : ∀ l, calls P (DeleteResources l)).
  { intros l. apply calls_DeleteResources, Forall_forall. intros r _. apply HP; by intros []. }
  assert (Hh : ∀ T (c : Call T), ¬ applies T c → ¬ reads_config T c → P T c) by exact HP.
  apply calls_bind; [by apply calls_enoexec_harmless|]. intros [c1 [e|]]; [done|].
  apply calls_bind; [by apply calls_updateStatus, harmless_tame|]. intros [c2 u].
  destruct (containsFinalizer _ _).
  { step. split; [apply Hh; by intros []|]. intros [n|e]; [|done].
    destruct (0 <? n); [done|by apply calls_updateFinalizers]. }
  unfold Operator.deleteOperand. prog_unfold. apply calls_bind; [apply Hd|]. intros [e|]; [done|].
  step. split; [apply Hh; by intros []|]. intros [o|e]; [done|]. destruct (isNotFound e); [|done].
  step. split; [apply Hh; by intros []|]. intros [l|e']; [|done]. destruct (hasGatedPod l); [done|].
  unfold Operator.finishDelete. prog_unfold.
  apply calls_bind; [apply calls_getCache; intros; apply Hh; by intros []|]. intros a.
  destruct (hardError a); [done|]. apply calls_bind.
  { case_bool_decide; [done|]. step. split; [apply Hh; by intros []|done]. }
  intros [e1|]; [done|]. apply calls_bind.
  { case_bool_decide; [done|]. by apply calls_updateFinalizers. }
  intros [c3 [e3|]]; [done|]. step. split; [apply Hh; by intros []|]. intros mon.
  apply calls_bind; [apply Hd|done].
Qed.

(** The reconcile of anything but a live configuration with its finalizer
    applies nothing; [body] is the rest. *)
Lemma wp_Reconcile V (Q : list Event → Prop) :
  (∀ tr, Forall (λ e, ¬ applies _ (ev_call e)) tr → Q tr) →
  (∀ c tr, Forall (λ e, ¬ applies _ (ev_call e)) tr → config_finalized tr →
     wp V (reconcilePlugin apiReader now c) (λ _ tr', Q tr') tr) →
  wp V Reconcile (λ _ tr', Q tr') [].
Proof.
  intros HQ Hbody.
  set (N := λ T (c : Call T), ¬ applies T c). assert (HN : harmless N) by (intros T c Hc _; exact Hc).
  assert (Hno : ∀ A (p : prog Call A) tr, calls N p → Forall (λ e, N _ (ev_call e)) tr →
    wp V p (λ _ tr', Q tr') tr).
  { intros A p tr Hp Htr. eapply wp_mono; [|by apply (wp_only_calls N)].
    intros a tr' (new & -> & Hn). apply HQ, Forall_app. done. }
  unfold Operator.Reconcile. prog_unfold. apply wp_bind.
  eapply wp_mono; [|apply (wp_calls N V); [by apply calls_getConfig; intros []|apply getConfig_seen]].
  intros a tr (Hseen & new & -> & Hn). cbn [app] in *.
  destruct a as [r|e]; [|by apply HQ]. specialize (Hseen r eq_refl).
  set (c := mkConfig (rp_Obj r) (zeroStatus (rp_Conditions r))).
  destruct (cf_Deleting c) eqn:Hdel.
  { destruct (negb _); [by apply HQ|]. apply Hno; [|done].
    apply calls_bind; [by apply calls_handleDelete|done]. }
  assert (Hend : ∀ f tr, Forall (λ e, N _ (ev_call e)) tr → wp V (endUpdate f c) (λ _ tr', Q tr') tr).
  { intros f tr Htr. apply Hno; [|done]. unfold endUpdate. prog_unfold.
    apply calls_bind; [by apply calls_updateFinalizers|done]. }
  destruct (negb _) eqn:Hfin; [by apply Hend|]. apply negb_false_iff in Hfin.
  step. intros ppcs _.
  assert (Hn' : Forall (λ e, N _ (ev_call e)) (new ++ [mkEv ListPPCs ppcs])).
  { apply Forall_app. split; [done|]. constructor; [by intros []|done]. }
  destruct ppcs as [n|e]; [|by apply HQ].
  destruct (Bool.eqb _ _); [|by apply Hend]. apply Hbody; [done|].
  apply config_finalized_mono. exists r. split; [done|].
  unfold cf_Deleting, containsFinalizer in *. cbn in Hdel. bools. split; [|exact Hfin].
  destruct (om_DeletionTimestamp _); [|done]. destruct Hdel. by eexists.
Qed.

Lemma no_applies_guarded (P : ∀ T, Call T → Prop) G tr :
  (∀ T c, P T c → applies T c) → Forall (λ e, ¬ applies _ (ev_call e)) tr → guarded P G tr.
Proof.
  intros HP Hf. apply (guarded_app_no P G [] tr); [apply guarded_nil|].
  eapply Forall_impl; [exact Hf|]. cbn. intros e He Hp. by apply He, HP.
Qed.

Lemma Reconcile_finalized V :
  wp V Reconcile (λ _ tr', guarded applies config_finalized tr') [].
Proof.
  apply wp_Reconcile; [by intros; apply no_applies_guarded|].
  intros c tr Hn Hc. apply wp_guarded; [apply config_finalized_mono| |done].
  by apply no_applies_guarded.
Qed.

Lemma calls_ensureEnoexecFinalizer P : tame P → calls P ensureEnoexecFinalizer.
Proof.
  intros HP. unfold ensureEnoexecFinalizer. prog_unfold. step. split; [apply HP; by intros []|].
  intros [o|e]; [|done]. destruct (containsFinalizer _ _); [done|]. step.
  split; [apply HP; by intros []|done].
Qed.

Lemma calls_dependentsStatus P c : tame P → calls P (dependentsStatus c).
Proof.
  intros HP. assert (Hh : ∀ T (c : Call T), ¬ applies T c → ¬ handles_config T c → P T c) by exact HP.
  unfold Operator.dependentsStatus. prog_unfold. step. split; [apply Hh; by intros []|]. intros a.
  destruct (hardError a); [done|]. apply calls_bind.
  { unfold releaseController. prog_unfold. destruct (_ && _); [|done]. case_bool_decide; [done|].
    step. split; [apply Hh; by intros []|done]. }
  intros [o [e|]]; [done|]. step. split; [apply Hh; by intros []|]. intros b.
  destruct (hardError b); [done|]. step. split; [apply Hh; by intros []|]. intros m.
  by destruct (hardError m).
Qed.

Lemma reconcileLive_gated V c tr : gated tr → wp V (reconcileLive c) (λ _ tr', gated tr') tr.
Proof.
  intros Hg. unfold Operator.reconcileLive. prog_unfold. apply wp_bind.
  eapply wp_mono; [|apply (wp_guarded_no applies_webhook_configuration operand_available);
    [apply calls_dependentsStatus, tame_not_webhook|apply dependentsStatus_available|exact Hg]].
  intros [c1 [e|]] tr1 [Hc Hg1]; [done|]. apply wp_bind.
  eapply wp_mono; [|apply reconcile_gated; [done|by apply Hc]]. done.
Qed.

Lemma Reconcile_gated V : wp V Reconcile (λ _ tr', gated tr') [].
Proof.
  assert (HA : ∀ T c, applies_webhook_configuration T c → applies T c) by (intros T c; by destruct c).
  apply wp_Reconcile; [by intros; apply no_applies_guarded|].
  intros c tr Hn _. assert (Hg : gated tr) by (by apply no_applies_guarded).
  unfold reconcilePlugin. prog_unfold. destruct (monitorEnabled c); [|by apply reconcileLive_gated].
  destruct (negb _).
  { unfold endUpdate, updateFinalizers. prog_unfold. step. intros a _.
    apply guarded_snoc; [done|by intros []]. }
  apply wp_bind. eapply wp_mono; [|apply (wp_guarded_no applies_webhook_configuration operand_available);
    [apply calls_ensureEnoexecFinalizer, tame_not_webhook|apply wp_true|exact Hg]].
  intros [out|] tr1 [_ Hg1]; [done|]. by apply reconcileLive_gated.
Qed.

(** The operand exists only under the configuration's finalizer, and pods are
    sent to the webhook only when it and the controller run.  Whatever the API
    server answers, [Reconcile] applies an object only after it read a
    configuration that is not being deleted and has the finalizer; and applies
    the webhook configuration only after both deployments were reported with an
    available replica. *)
Theorem Reconcile_creates_under_finalizer {W : Type} (srv : Server Call W) w :
  let tr := (run Reconcile w).1.2 in
  guarded applies config_finalized tr
  ∧ guarded applies_webhook_configuration operand_available tr.
Proof.
  cbv zeta. assert (Hs : server_ok srv Anything) by done.
  pose proof (wp_run Anything Reconcile _ [] w Hs (Reconcile_finalized Anything)) as H1.
  pose proof (wp_run Anything Reconcile _ [] w Hs (Reconcile_gated Anything)) as H2.
  by destruct (run Reconcile w) as [[w' tr] a].
Qed.

End create.

(** ** Deletion completes

    A cluster that lets the deletion go through: deletions and updates succeed,
    reads fail at most with NotFound, the webhook's service and the plugin's
    DaemonSet are gone, no pod is gated and no unprocessed event is left. *)
Definition found_or_not {A} (a : res A) : Prop := hardError a = None.

Definition cooperates : ∀ T, Call T → T → Prop := λ T c,
  match c in Call T return T → Prop with
  | GetCached r => λ a, found_or_not a ∧ (r = enoexecDaemonSet → ¬ is_ok a)
  | GetLive r => λ a, found_or_not a ∧ (r = enoexecDaemonSet ∨ r = webhookService → ¬ is_ok a)
  | UpdateObject _ _ => λ a, is_ok a
  | DeleteObject _ => λ a, ignoreNotFound a = None
  | UpdateConfig o => λ a, ∃ r, a = Ok r ∧ reply_finalizers r = elems (om_Finalizers (cppc_Meta o))
  | UpdateConfigStatus c => λ a, ∀ r, a = Ok r → reply_finalizers r = cf_Finalizers c
  | ListPendingPods => λ a, ∃ l, a = Ok l ∧ hasGatedPod l = false
  | ListENoExecEvents => λ a, ∃ l, a = Ok l ∧
      Forall (λ it, is_Some (mlookup (it_Labels it) ENoExecEventErrorLabel)) l
  | _ => λ _, True
  end.

Lemma DeleteResources_ok refs tr :
  wp cooperates (DeleteResources refs) (λ e _, e = None) tr.
Proof.
  unfold DeleteResources. prog_unfold. apply wp_bind. step.
  assert (H : ∀ tr, wp cooperates (DeleteResources_loop refs []) (λ es _, es = []) tr).
  { clear tr. induction refs as [|r refs IH]; intros tr; [done|].
    cbn [DeleteResources_loop]. prog_unfold. step. intros a Ha. cbn in Ha. rewrite Ha. apply IH. }
  eapply wp_mono; [|apply H]. by intros ? ? ->.
Qed.

Lemma getCache_ok r tr :
  wp cooperates (getCacheWithAPIFallback r)
     (λ a _, found_or_not a ∧ (r = enoexecDaemonSet → ¬ is_ok a)) tr.
Proof.
  unfold Operator.getCacheWithAPIFallback. prog_unfold. step.
  assert (Hlive : ∀ a, cooperates _ (GetLive r) a →
    found_or_not a ∧ (r = enoexecDaemonSet → ¬ is_ok a)).
  { intros a [Ha Hr]. split; [done|]. intros ->. apply Hr. by left. }
  intros [o|e] [Hf Hn].
  - case_bool_decide; [|by step]. destruct apiReader; step; [by auto|]. split; [done|by intros ? []].
  - unfold found_or_not in Hf. cbn in Hf. destruct (isNotFound e) eqn:He; [|done].
    destruct apiReader; step; [by auto|]. split; [|done].
    unfold found_or_not. cbn. by rewrite He.
Qed.

Lemma deleteErrored_ok items n m tr :
  Forall (λ it, is_Some (mlookup (it_Labels it) ENoExecEventErrorLabel)) items →
  wp cooperates (deleteErroredENoExecEvents items n m) (λ r _, r.1 = n) tr.
Proof.
  intros H. revert n m tr. induction H as [|it items [v Hv] _ IH]; intros n m tr; [done|].
  cbn [deleteErroredENoExecEvents]. rewrite Hv. prog_unfold. step. intros a _. apply IH.
Qed.

Lemma releaseDeployment_ok r f tr : wp cooperates (releaseDeployment r f) (λ e _, e = None) tr.
Proof.
  unfold Operator.releaseDeployment. prog_unfold. apply wp_bind.
  eapply wp_mono; [|apply getCache_ok]. intros [o|e] tr1 [Hf _].
  - case_bool_decide; [done|]. step. by intros [o'|e] Ha.
  - unfold found_or_not, hardError in Hf. step. by rewrite Hf.
Qed.

Lemma updateFinalizers_ok f c tr :
  wp cooperates (updateFinalizers f c) (λ r _, r.2 = None ∧ cf_Finalizers r.1 = f) tr.
Proof. unfold updateFinalizers. prog_unfold. step. by intros a (r & -> & Hr). Qed.

Lemma handleEnoexecDelete_ok c tr :
  wp cooperates (handleEnoexecDelete c)
     (λ r _, r.2 = None ∧ cf_Finalizers r.1
        = removeFinalizer utils.ExecFormatErrorFinalizerName (cf_Finalizers c)) tr.
Proof.
  unfold Operator.handleEnoexecDelete, containsFinalizer. prog_unfold.
  case_bool_decide as Hin; step.
  2: { split; [done|]. unfold removeFinalizer. symmetry. apply filter_all, Forall_forall.
       by intros x Hx ->. }
  apply wp_bind. eapply wp_mono; [|apply DeleteResources_ok]. intros ? tr1 ->. apply wp_bind.
  eapply wp_mono; [|apply getCache_ok]. intros [o|e] tr2 [Hf Hn]; [by destruct (Hn eq_refl)|].
  unfold found_or_not in Hf. cbn in Hf. destruct (isNotFound e); [|done]. step.
  intros a (items & -> & Hall). apply wp_bind.
  eapply wp_mono; [|by apply deleteErrored_ok]. intros [n m] tr3 Hz. cbn in Hz. subst n. step.
  cbn [Nat.ltb Nat.leb]. apply wp_bind.
  eapply wp_mono; [|apply releaseDeployment_ok]. intros ? tr4 ->. step. intros mon _. apply wp_bind.
  eapply wp_mono; [|apply DeleteResources_ok]. intros ? tr5 ->.
  unfold releaseConfig. case_bool_decide as E; [by rewrite E|]. apply updateFinalizers_ok.
Qed.

Lemma finishDelete_ok c tr :
  utils.PodPlacementFinalizerName ∈ cf_Finalizers c →
  wp cooperates (finishDelete c)
     (λ r _, r.2 = None ∧ cf_Finalizers r.1
        = removeFinalizer utils.PodPlacementFinalizerName (cf_Finalizers c)) tr.
Proof.
  intros Hin. unfold Operator.finishDelete. prog_unfold. apply wp_bind.
  eapply wp_mono; [|apply getCache_ok]. intros a tr1 [Hf _]. unfold found_or_not in Hf. rewrite Hf.
  apply wp_bind. eapply (wp_mono _ _ _ (λ e _, e = None)); cycle 1.
  { case_bool_decide; [done|]. step. by intros [o|e] Ha. }
  intros ? tr2 ->.
  rewrite (bool_decide_eq_false_2 (removeFinalizer _ (cf_Finalizers c) = _)); cycle 1.
  { intros Heq. rewrite <-Heq in Hin. by apply elem_of_removeFinalizer in Hin as [? _]. }
  apply wp_bind. eapply wp_mono; [|apply updateFinalizers_ok].
  intros [c' e] tr3 [He Hc]. cbn in He, Hc. subst e. step. intros mon _. apply wp_bind.
  eapply wp_mono; [|apply DeleteResources_ok]. by intros ? tr4 ->.
Qed.

(** The cooperating cluster, with no namespaced configuration left. *)
Definition cooperates_alone : ∀ T, Call T → T → Prop := λ T c a,
  cooperates T c a ∧
  match c in Call T return T → Prop with ListPPCs => λ a, a = Ok 0 | _ => λ _, True end a.

(** What one pass leaves of the finalizers [f] of a configuration that is deleted:
    the one that waits for the namespaced configurations goes in a pass of its own. *)
Definition delete_pass (f : list string) : list string :=
  let f1 := removeFinalizer utils.ExecFormatErrorFinalizerName f in
  removeFinalizer
    (if containsFinalizer utils.CPPCNoPPCObjectFinalizer f
     then utils.CPPCNoPPCObjectFinalizer else utils.PodPlacementFinalizerName) f1.

Lemma deleteOperand_ok c tr :
  utils.PodPlacementFinalizerName ∈ cf_Finalizers c →
  wp cooperates (deleteOperand c)
     (λ r _, r.2 = None ∧ cf_Finalizers r.1
        = removeFinalizer utils.PodPlacementFinalizerName (cf_Finalizers c)) tr.
Proof.
  intros Hin. unfold Operator.deleteOperand. prog_unfold. apply wp_bind.
  eapply wp_mono; [|apply DeleteResources_ok]. intros ? tr2 ->. step.
  intros [o|e] [Hf Hn]; [exfalso; apply Hn; [by right|exact I]|].
  unfold found_or_not in Hf. cbn in Hf.
  destruct (isNotFound e); [|done]. step. intros x (l & -> & Hl). rewrite Hl.
  by apply finishDelete_ok.
Qed.

Lemma handleDelete_ok c tr :
  utils.PodPlacementFinalizerName ∈ cf_Finalizers c →
  wp cooperates_alone (handleDelete c)
     (λ r _, r.2 = None ∧ cf_Finalizers r.1 = delete_pass (cf_Finalizers c)) tr.
Proof.
  intros Hin. assert (Hw : ∀ T (k : Call T) a, cooperates_alone T k a → cooperates T k a) by (by intros ??? []).
  unfold Operator.handleDelete, delete_pass. prog_unfold. apply wp_bind.
  eapply wp_mono; [|apply (wp_answers _ cooperates); [exact Hw|apply handleEnoexecDelete_ok]].
  intros [c1 e] tr1 [He Hc]. cbn in He, Hc. subst e.
  unfold updateStatus. prog_unfold. step. intros a [Ha _]. set (c2 := fst _).
  assert (Hc2 : cf_Finalizers c2 = cf_Finalizers c1).
  { subst c2. destruct a as [r|e]; [|done]. cbn. rewrite cf_Finalizers_decode. by apply Ha. }
  clearbody c2. rewrite <-Hc, <-Hc2. unfold containsFinalizer.
  rewrite (bool_decide_ext (utils.CPPCNoPPCObjectFinalizer ∈ cf_Finalizers c2)
             (utils.CPPCNoPPCObjectFinalizer ∈ cf_Finalizers c));
    [|rewrite Hc2, Hc, elem_of_removeFinalizer; by intuition].
  case_bool_decide.
  - step. intros n [_ ->]. cbn [Nat.ltb Nat.leb].
    apply (wp_answers _ cooperates); [exact Hw|]. apply updateFinalizers_ok.
  - apply (wp_answers _ cooperates); [exact Hw|]. apply deleteOperand_ok.
    rewrite Hc2, Hc. by apply elem_of_removeFinalizer.
Qed.

(** C18: the deletion of the cluster configuration completes once the cluster lets
    it: deletions and updates succeed, reads fail at most with NotFound, the
    webhook's service and the plugin's DaemonSet are gone, no pending pod is gated,
    every exec format error event that is left is marked as failed, and no
    namespaced configuration is left. No pass of [handleDelete] then reports an
    error. When the configuration does not carry the finalizer that waits for the
    namespaced configurations, one pass removes the pod placement finalizer and the
    plugin's; when it does, the first pass removes that finalizer and the plugin's
    and keeps the pod placement one, and the next pass, on any configuration with
    the finalizers that are left, removes that too. *)
Theorem handleDelete_completes {W : Type} (srv : Server Call W) c w :
  server_ok srv cooperates_alone →
  utils.PodPlacementFinalizerName ∈ cf_Finalizers c →
  let finished c' := ∀ f, f ∈ cf_Finalizers c' ↔
    f ∈ cf_Finalizers c ∧ f ∉ [utils.PodPlacementFinalizerName; utils.CPPCNoPPCObjectFinalizer;
                               utils.ExecFormatErrorFinalizerName] in
  let '(w1, _, (c1, e1)) := run (handleDelete c) w in
  e1 = None ∧
  if bool_decide (utils.CPPCNoPPCObjectFinalizer ∈ cf_Finalizers c) then
    (∀ f, f ∈ cf_Finalizers c1 ↔
       f ∈ cf_Finalizers c ∧ f ∉ [utils.CPPCNoPPCObjectFinalizer; utils.ExecFormatErrorFinalizerName]) ∧
    ∀ c2, cf_Finalizers c2 = cf_Finalizers c1 →
      let '(_, _, (c3, e3)) := run (handleDelete c2) w1 in e3 = None ∧ finished c3
  else finished c1.
Proof.
  intros Hsrv Hin finished.
  assert (Hpass : ∀ c' w', utils.PodPlacementFinalizerName ∈ cf_Finalizers c' →
    let '(_, _, r) := run (handleDelete c') w' in
    r.2 = None ∧ cf_Finalizers r.1 = delete_pass (cf_Finalizers c')).
  { intros c' w' H'. pose proof (wp_run _ _ _ [] w' Hsrv (handleDelete_ok c' [] H')) as H.
    by destruct (run (handleDelete c') w') as [[? ?] ?]. }
  pose proof (Hpass c w Hin) as H1. destruct (run (handleDelete c) w) as [[w1 tr1] [c1 e1]].
  destruct H1 as [He Hc]. cbn in He, Hc. split; [exact He|].
  unfold delete_pass, containsFinalizer in Hc. subst finished. cbv beta.
  case_bool_decide as Hn.
  - assert (Hc1 : ∀ f, f ∈ cf_Finalizers c1 ↔ f ∈ cf_Finalizers c ∧
      f ∉ [utils.CPPCNoPPCObjectFinalizer; utils.ExecFormatErrorFinalizerName]).
    { intros f. rewrite Hc, !elem_of_removeFinalizer, not_elem_of_cons, list_elem_of_singleton. tauto. }
    split; [exact Hc1|]. intros c2 E2.
    assert (Hin2 : utils.PodPlacementFinalizerName ∈ cf_Finalizers c2).
    { rewrite E2, Hc1. split; [exact Hin|]. by apply (bool_decide_unpack _). }
    pose proof (Hpass c2 w1 Hin2) as H3. destruct (run (handleDelete c2) w1) as [[w3 tr3] [c3 e3]].
    destruct H3 as [He3 Hc3]. cbn in He3, Hc3. split; [exact He3|]. intros f.
    unfold delete_pass, containsFinalizer in Hc3. rewrite bool_decide_eq_false_2 in Hc3.
    + rewrite Hc3, !elem_of_removeFinalizer, E2, Hc1, !not_elem_of_cons. set_solver.
    + rewrite E2, Hc1. set_solver.
  - intros f. rewrite Hc, !elem_of_removeFinalizer, !not_elem_of_cons. set_solver.
Qed.

End operator.

(** ** What is applied and what is deleted *)

(** Everything the pod placement operand applies is deleted with it. *)
Lemma operand_deleted scc c :
  (mf_Ref <$> (podPlacementObjects scc ++ [buildMutatingWebhookConfiguration c;
    buildServiceMonitor PodPlacementControllerName; buildServiceMonitor PodPlacementWebhookName;
    buildCPPCAvailabilityAlertRule])) ⊆ operandRefs.
Proof.
  change (mf_Ref <$> _) with (mf_Ref <$> (podPlacementObjects "" ++
    [plain KMutatingWebhookConfiguration PodMutatingWebhookConfigurationName;
     buildServiceMonitor PodPlacementControllerName; buildServiceMonitor PodPlacementWebhookName;
     buildCPPCAvailabilityAlertRule])).
  apply (bool_decide_unpack _). by vm_compute.
Qed.

(** Of the objects the exec format error plugin applies, disabling the plugin
    deletes all but the two alert rules, which are created under lower-case names
    and deleted under names with capitals. *)
Theorem enoexec_rules_leak r :
  r ∈ mf_Ref <$> (enoexecObjects ++ enoexecMonitors ++ [buildDaemonSetENoExecEvent]) →
  r ∉ daemonSetRefs ++ enoexecControllerRefs ++ enoexecMonitorRefs ↔
  r = mkRef KPrometheusRule "execformaterrormonitor"
  ∨ r = mkRef KPrometheusRule "execformaterrorsdetected".
Proof.
  assert (H : Forall (λ r, r ∉ daemonSetRefs ++ enoexecControllerRefs ++ enoexecMonitorRefs ↔
    r = mkRef KPrometheusRule "execformaterrormonitor"
    ∨ r = mkRef KPrometheusRule "execformaterrorsdetected")
    (mf_Ref <$> (enoexecObjects ++ enoexecMonitors ++ [buildDaemonSetENoExecEvent]))).
  { apply (bool_decide_unpack _). by vm_compute. }
  rewrite Forall_forall in H. apply H.
Qed.
