(* ===== verification/OperatorTraces.v ===== *)
(** * What one reconcile of the operator may do, as a law of its trace

    The parts of [OperatorTheorems] as one condition on every request of
    [Reconcile] and what came before it ([lawful]), in the form the composition
    of the operator with the rest of the cluster needs ([System]): objects are
    applied under a live configuration with its finalizer; the finalizer is
    dropped only from a configuration that was read as being deleted, after the
    operand was cleared; and while it deletes, the controller only sends copies
    of the configuration that the API server gave it. *)
From stdpp Require Import base gmap strings list.
From S2P Require Import Prelude GoStd Api Status Prog Operator OperatorTheorems.
Import plugins v1beta1.

(** ** What a trace says of the configuration *)
Definition ok_of {A} (r : res A) : option A := match r with Ok a => Some a | Err _ => None end.

(** The configuration as [getConfig] read it. *)
Definition ev_read (e : Ev Call) : option Reply :=
  match e with
  | mkEv c t => match c in Call T return T → option Reply with
                | GetConfigCached => ok_of
                | GetConfigLive => ok_of
                | _ => λ _, None
                end t
  end.

(** Every copy the API server returned. *)
Definition ev_reply (e : Ev Call) : option Reply :=
  match e with
  | mkEv c t => match c in Call T return T → option Reply with
                | GetConfigCached => ok_of
                | GetConfigLive => ok_of
                | UpdateConfig _ => ok_of
                | UpdateConfigStatus _ => ok_of
                | _ => λ _, None
                end t
  end.

Definition cppc_version (o : ClusterPodPlacementConfig) : string := om_ResourceVersion (cppc_Meta o).
Definition reply_version (r : Reply) : string := cppc_version (rp_Obj r).
Definition reply_deleting (r : Reply) : Prop := is_Some (om_DeletionTimestamp (cppc_Meta (rp_Obj r))).
Definition reply_finalized (r : Reply) : Prop := utils.PodPlacementFinalizerName ∈ reply_finalizers r.

Definition reads (tr : list (Ev Call)) : list Reply := omap ev_read tr.
Definition versions (tr : list (Ev Call)) : list string := reply_version <$> omap ev_reply tr.

(** The resource version an update was sent with. *)
Definition sent_version : ∀ T, Call T → option string := λ T c,
  match c with
  | UpdateConfig o => Some (cppc_version o)
  | UpdateConfigStatus c => Some (cppc_version (cf_Obj c))
  | _ => None
  end.

(** The pod placement finalizer of the configuration is dropped. *)
Definition drops_finalizer : ∀ T, Call T → Prop := λ T c,
  match c with
  | UpdateConfig o => utils.PodPlacementFinalizerName ∉ elems (om_Finalizers (cppc_Meta o))
  | _ => False
  end.

Lemma drops_gives_up T c : drops_finalizer T c → gives_up T c.
Proof. by destruct c. Qed.

Definition applies_none (tr : list (Ev Call)) : Prop := Forall (λ e, ¬ applies _ (ev_call e)) tr.

(** Stored objects have a UID, so the fallback is for missing ones only. *)
Definition honest_cache : ∀ T, Call T → T → Prop := λ T c,
  match c in Call T return T → Prop with
  | GetConfigCached => λ a, ∀ r, a = Ok r → rp_UID r ≠ ""
  | _ => λ _, True
  end.
Definition faithful : ∀ T, Call T → T → Prop := λ T c t, honest T c t ∧ honest_cache T c t.

Lemma faithful_live T (c : Call T) : ∃ t, faithful T c t.
Proof.
  destruct c; try (by exists (Err (errOther ""))); try (by exists None); try (by exists true);
    by (exists 0%Z) || (by exists tt).
Qed.

Lemma wp_weaken (V V' : ∀ T, Call T → T → Prop) {A} (p : prog Call A) Q tr :
  (∀ T c t, V' T c t → V T c t) → wp V p Q tr → wp V' p Q tr.
Proof. intros HV. revert tr. induction p as [a|T c k IH]; intros tr; cbn; auto. Qed.

(** ** The law *)
Record lawful (pre : list (Ev Call)) (e : Ev Call) : Prop := mkLawful {
  law_reads : is_Some (ev_read e) → versions pre = [];
  law_applies : applies _ (ev_call e) →
    ∃ r, reads pre = [r] ∧ ¬ reply_deleting r ∧ reply_finalized r;
  law_drops : drops_finalizer _ (ev_call e) →
    cleared pre ∧ applies_none pre ∧ ∃ r, reads pre = [r] ∧ reply_deleting r;
  law_sent : ∀ r v, reads pre = [r] → reply_deleting r →
    sent_version _ (ev_call e) = Some v → v ∈ versions pre;
}.

(** ** Versions while deleting *)
Definition tracked (tr : list (Ev Call)) (c : Config) : Prop := cppc_version (cf_Obj c) ∈ versions tr.

Definition sends_known (pre : list (Ev Call)) (e : Ev Call) : Prop :=
  ∀ v, sent_version _ (ev_call e) = Some v → v ∈ versions pre.

Definition sends_nothing : ∀ T, Call T → Prop := λ T c, sent_version T c = None.

Lemma versions_app tr new : versions (tr ++ new) = versions tr ++ versions new.
Proof. unfold versions. by rewrite omap_app, fmap_app. Qed.

Lemma reads_app tr new : reads (tr ++ new) = reads tr ++ reads new.
Proof. apply omap_app. Qed.

Lemma tracked_mono tr new c : tracked tr c → tracked (tr ++ new) c.
Proof. unfold tracked. rewrite versions_app, elem_of_app. by left. Qed.

Lemma sends_known_quiet tr new :
  always sends_known tr → Forall (λ e, sends_nothing _ (ev_call e)) new →
  always sends_known (tr ++ new).
Proof.
  intros H Hn. induction new as [|e new IH] using rev_ind; [by rewrite app_nil_r|].
  apply Forall_app in Hn as [Hn He]. rewrite app_assoc. apply always_snoc. split; [by apply IH|].
  apply Forall_cons_1 in He as [He _]. intros v Hv. unfold sends_nothing in He. congruence.
Qed.

(** An update of a tracked copy leaves a tracked copy. *)
Lemma updateFinalizers_tracked V f c tr :
  tracked tr c → always sends_known tr →
  wp V (updateFinalizers f c) (λ r tr', tracked tr' r.1 ∧ always sends_known tr') tr.
Proof.
  intros Ht Hs. unfold updateFinalizers. prog_unfold. step. intros a _. split.
  - destruct a as [r|e]; [|by apply tracked_mono]. unfold tracked. rewrite versions_app.
    apply elem_of_app. right. by left.
  - apply always_snoc. split; [done|]. by intros v [= <-].
Qed.

Lemma updateStatus_tracked V c tr :
  tracked tr c → always sends_known tr →
  wp V (updateStatus c) (λ r tr', tracked tr' r.1 ∧ always sends_known tr') tr.
Proof.
  intros Ht Hs. unfold updateStatus. prog_unfold. step. intros a _. split.
  - destruct a as [r|e]; [|by apply tracked_mono]. unfold tracked. rewrite versions_app.
    apply elem_of_app. right. by left.
  - apply always_snoc. split; [done|]. by intros v [= <-].
Qed.

(** Programs that send no copy. *)
Lemma wp_quiet V {A} (p : prog Call A) tr :
  calls sends_nothing p → always sends_known tr →
  wp V p (λ _ tr', (∃ new, tr' = tr ++ new) ∧ always sends_known tr') tr.
Proof.
  intros Hp Hs. eapply wp_mono; [|by apply (wp_only_calls sends_nothing)].
  intros a tr' (new & -> & Hn). split; [by eexists|by apply sends_known_quiet].
Qed.

Section operator.
Context (apiReader : bool).
Abbreviation handleEnoexecDelete := (handleEnoexecDelete apiReader).
Abbreviation deleteOperand := (deleteOperand apiReader).
Abbreviation finishDelete := (finishDelete apiReader).
Abbreviation handleDelete := (handleDelete apiReader).

Lemma quiet_DeleteResources refs : calls sends_nothing (DeleteResources refs).
Proof. apply calls_DeleteResources, Forall_forall. done. Qed.

Lemma quiet_getCache r : calls sends_nothing (getCacheWithAPIFallback apiReader r).
Proof. by apply calls_getCache. Qed.

Lemma quiet_release r f : calls sends_nothing (releaseDeployment apiReader r f).
Proof. by apply calls_releaseDeployment. Qed.

Lemma quiet_deleteErrored items a b : calls sends_nothing (deleteErroredENoExecEvents items a b).
Proof. by apply calls_deleteErrored. Qed.

(** [handleEnoexecDelete] ends with the copy it was given, or with an update of it. *)
Lemma wp_handleEnoexecDelete V c (Q : Config * option OpErr → list (Ev Call) → Prop) tr :
  (∀ e new, Forall (λ e, sends_nothing _ (ev_call e)) new → Q (c, e) (tr ++ new)) →
  (∀ new, Forall (λ e, sends_nothing _ (ev_call e)) new →
     wp V (releaseConfig utils.ExecFormatErrorFinalizerName c) Q (tr ++ new)) →
  wp V (handleEnoexecDelete c) Q tr.
Proof.
  intros H1 H2. unfold Operator.handleEnoexecDelete. prog_unfold.
  assert (Hext : ∀ (A : Type) (p : prog Call A) (K : A → list (Ev Call) → Prop) new0,
    calls sends_nothing p → Forall (λ e, sends_nothing _ (ev_call e)) new0 →
    (∀ a new, Forall (λ e, sends_nothing _ (ev_call e)) new → K a (tr ++ new)) →
    wp V p K (tr ++ new0)).
  { intros A p K new0 Hp H0 HK. eapply wp_mono; [|by apply (wp_only_calls sends_nothing)].
    intros a tr' (new & -> & Hn). rewrite <-app_assoc. by apply HK, Forall_app. }
  rewrite <-(app_nil_r tr). assert (H0 : Forall (λ e, sends_nothing _ (ev_call e)) []) by constructor.
  destruct (negb _); [by apply H1|]. apply wp_bind.
  apply Hext; [apply quiet_DeleteResources|done|]. intros [e|] n1 Hn1; [by apply H1|]. apply wp_bind.
  apply Hext; [apply quiet_getCache|done|]. intros [o|e] n2 Hn2; [by apply H1|].
  destruct (negb _); [by apply H1|]. step. intros a _.
  assert (Hn3 : Forall (λ e, sends_nothing _ (ev_call e)) (n2 ++ [mkEv ListENoExecEvents a])).
  { apply Forall_app. split; [done|]. by constructor. }
  rewrite <-app_assoc. destruct a as [items|e']; [|by apply H1]. apply wp_bind.
  apply Hext; [apply quiet_deleteErrored|done|]. intros n n4 Hn4. destruct (0 <? n.1); [by apply H1|].
  apply wp_bind. apply Hext; [apply quiet_release|done|]. intros [e2|] n5 Hn5; [by apply H1|].
  step. intros mon _. rewrite <-app_assoc.
  assert (Hn6 : Forall (λ e, sends_nothing _ (ev_call e)) (n5 ++ [mkEv ServiceMonitorsAvailable mon])).
  { apply Forall_app. split; [done|]. by constructor. }
  apply wp_bind. apply Hext; [apply quiet_DeleteResources|done|].
  intros [e3|] n7 Hn7; [by apply H1|by apply H2].
Qed.

Lemma handleEnoexecDelete_tracked V c tr :
  tracked tr c → always sends_known tr →
  wp V (handleEnoexecDelete c) (λ r tr', tracked tr' r.1 ∧ always sends_known tr') tr.
Proof.
  intros Ht Hs. apply wp_handleEnoexecDelete.
  - intros e new Hn. split; [by apply tracked_mono|by apply sends_known_quiet].
  - intros new Hn. unfold releaseConfig.
    assert (tracked (tr ++ new) c) by (by apply tracked_mono).
    assert (always sends_known (tr ++ new)) by (by apply sends_known_quiet).
    case_bool_decide; [done|]. by apply updateFinalizers_tracked.
Qed.

Lemma finishDelete_tracked V c tr :
  tracked tr c → always sends_known tr →
  wp V (finishDelete c) (λ _ tr', always sends_known tr') tr.
Proof.
  intros Ht Hs. unfold Operator.finishDelete. prog_unfold. apply wp_bind.
  eapply wp_mono; [|apply wp_quiet; [apply quiet_getCache|done]].
  intros a tr1 [[n1 ->] Hs1]. destruct (hardError a); [done|]. apply wp_bind.
  eapply wp_mono; [|apply wp_quiet; [|exact Hs1]].
  2: { case_bool_decide; [done|]. by step. }
  intros [e|] tr2 [[n2 ->] Hs2]; [done|]. apply wp_bind.
  eapply (wp_mono _ _ _ (λ r tr', tracked tr' r.1 ∧ always sends_known tr')).
  - intros [c' [e|]] tr3 [Ht3 Hs3]; [done|]. step. intros mon _. apply wp_bind.
    eapply wp_mono; [|apply wp_quiet; [apply quiet_DeleteResources|]].
    + by intros e tr4 [_ Hs4].
    + apply always_snoc. split; [done|]. by intros v [=].
  - assert (tracked ((tr ++ n1) ++ n2) c) by (by do 2 apply tracked_mono).
    case_bool_decide; [done|]. by apply updateFinalizers_tracked.
Qed.

Lemma deleteOperand_tracked V c tr :
  tracked tr c → always sends_known tr →
  wp V (deleteOperand c) (λ _ tr', always sends_known tr') tr.
Proof.
  intros Ht Hs. unfold Operator.deleteOperand. prog_unfold. apply wp_bind.
  eapply wp_mono; [|apply wp_quiet; [apply quiet_DeleteResources|done]].
  intros [e|] tr1 [[n1 ->] Hs1]; [done|]. step. intros s _.
  assert (Hs2 : always sends_known ((tr ++ n1) ++ [mkEv (GetLive webhookService) s])).
  { apply always_snoc. split; [done|]. by intros v [=]. }
  destruct s as [o|e]; [done|]. destruct (isNotFound e); [|done]. step. intros l _.
  assert (Hs3 : always sends_known (((tr ++ n1) ++ [mkEv (GetLive webhookService) (Err e)])
    ++ [mkEv ListPendingPods l])) by (apply always_snoc; split; [done|]; by intros v [=]).
  destruct l as [pods|e']; [|done]. destruct (hasGatedPod pods); [done|].
  apply finishDelete_tracked; [by do 3 apply tracked_mono|done].
Qed.

Lemma handleDelete_tracked V c tr :
  tracked tr c → always sends_known tr →
  wp V (handleDelete c) (λ _ tr', always sends_known tr') tr.
Proof.
  intros Ht Hs. unfold Operator.handleDelete. prog_unfold. apply wp_bind.
  eapply wp_mono; [|by apply handleEnoexecDelete_tracked].
  intros [c1 [e|]] tr1 [Ht1 Hs1]; [done|]. apply wp_bind.
  eapply wp_mono; [|by apply updateStatus_tracked]. intros [c2 u] tr2 [Ht2 Hs2]. cbn [fst snd] in *.
  destruct (containsFinalizer _ _); [|by apply deleteOperand_tracked].
  step. intros ppcs _.
  assert (Hs3 : always sends_known (tr2 ++ [mkEv ListPPCs ppcs])).
  { apply always_snoc. split; [done|]. by intros v [=]. }
  destruct ppcs as [n|e]; [|done]. destruct (0 <? n); [done|].
  eapply wp_mono; [|apply updateFinalizers_tracked; [by apply tracked_mono|done]].
  by intros r tr' [_ ?].
Qed.

(** ** The live configuration: the finalizer is kept *)
Section live.
Context (now : string → Z).
Abbreviation dependentsStatus := (dependentsStatus now).
Abbreviation reconcile := (reconcile apiReader).
Abbreviation reconcilePlugin := (reconcilePlugin apiReader now).
Abbreviation Reconcile := (Reconcile apiReader now).

(** Everything a reconcile may apply. *)
Definition manifests (scc : string) (c : Config) : list Manifest :=
  (podPlacementObjects scc ++ enoexecObjects ++ enoexecMonitors)
  ++ [ buildDaemonSetENoExecEvent; buildServiceMonitor PodPlacementControllerName;
       buildServiceMonitor PodPlacementWebhookName; buildCPPCAvailabilityAlertRule ]
  ++ [ buildMutatingWebhookConfiguration c ].

Definition applies_ok (P : ∀ T, Call T → Prop) : Prop :=
  ∀ scc c, Forall (λ o, P _ (ApplyObject o)) (manifests scc c).

(** The requests of [reconcile], for any predicate they satisfy. *)
Lemma calls_reconcile (P : ∀ T, Call T → Prop) c :
  tame P → applies_ok P → calls P (handleEnoexecDelete c) → calls P (reconcile c).
Proof.
  intros HP Ha He. assert (Hh : ∀ T (c : Call T), ¬ applies T c → ¬ handles_config T c → P T c) by exact HP.
  assert (Hall : ∀ scc (c : Config), Forall (λ o, P _ (ApplyObject o)) (podPlacementObjects scc)
    ∧ Forall (λ o, P _ (ApplyObject o)) (enoexecObjects ++ enoexecMonitors)).
  { intros scc c'. specialize (Ha scc c'). unfold manifests in Ha. rewrite !Forall_app in *. tauto. }
  assert (Hc : ∀ objects c, Forall (λ o, P _ (ApplyObject o)) objects → calls P (completeObjects objects c)).
  { intros objects c' Ho. specialize (Ha "" c'). unfold manifests in Ha. rewrite !Forall_app in Ha.
    destruct Ha as (_ & Hm & Hw). apply calls_completeObjects; [done..|]. intros _.
    by apply Forall_cons_1 in Hw as [? _]. }
  unfold Operator.reconcile. prog_unfold. step. split; [apply Hh; by intros []|]. intros l.
  apply calls_bind; [case_bool_decide; [done|]; step; split; [apply Hh; by intros []|done]|].
  intros _. apply calls_bind; [by apply calls_ensureNamespaceLabels|].
  intros [e|]; [apply calls_bind; [by apply calls_updateStatus|done]|].
  unfold buildPodPlacementConfigObjects, getCorrectHostmountAnyUIDSCC. prog_unfold. step.
  split; [apply Hh; by intros []|]. intros [minor|e]; step; [|split; [apply Hh; by intros []|done]].
  destruct (monitorEnabled c).
  - unfold buildENoExecEventObjects. prog_unfold. step. split; [apply Hh; by intros []|]. intros mon.
    apply Hc, Forall_app. split; [by apply Hall|]. destruct (Hall "" c) as [_ Hm].
    apply Forall_app in Hm as [??]. apply Forall_app. by destruct mon.
  - apply calls_bind; [done|]. intros [c2 [e|]]; [done|]. by apply Hc, Hall.
Qed.

Lemma calls_endUpdate P f c : harmless P → calls P (endUpdate f c).
Proof.
  intros HP. unfold endUpdate. prog_unfold. apply calls_bind; [by apply calls_updateFinalizers|done].
Qed.

Lemma calls_reconcilePlugin (P : ∀ T, Call T → Prop) c :
  harmless P → applies_ok P → calls P (reconcilePlugin c).
Proof.
  intros HP Ha. pose proof (harmless_tame P HP) as Ht. unfold Operator.reconcilePlugin. prog_unfold.
  assert (Hlive : calls P (reconcileLive apiReader now c)).
  { unfold reconcileLive. prog_unfold.
    apply calls_bind; [by apply calls_dependentsStatus|]. intros [c1 [e|]]; [done|].
    apply calls_bind; [|done]. apply calls_reconcile; [done..|by apply calls_enoexec_harmless]. }
  destruct (monitorEnabled c); [|done]. destruct (negb _); [by apply calls_endUpdate|].
  apply calls_bind; [by apply calls_ensureEnoexecFinalizer|]. by intros [out|].
Qed.

Lemma calls_Reconcile (P : ∀ T, Call T → Prop) :
  P _ GetConfigCached → P _ GetConfigLive → harmless P → applies_ok P → calls P Reconcile.
Proof.
  intros H1 H2 HP Ha. unfold Operator.Reconcile. prog_unfold.
  apply calls_bind; [by apply calls_getConfig|]. intros [r|e]; [|done].
  destruct (cf_Deleting _).
  { destruct (negb _); [done|]. apply calls_bind; [by apply calls_handleDelete|done]. }
  destruct (negb _); [by apply calls_endUpdate|]. step. split; [apply HP; by intros []|].
  intros [n|e]; [|done]. destruct (Bool.eqb _ _); [by apply calls_reconcilePlugin|by apply calls_endUpdate].
Qed.

(** The webhook configuration is applied without finalizers. *)
Definition webhook_plain : ∀ T, Call T → Prop := λ T c,
  match c with
  | ApplyObject m => mf_Ref m = webhookConfiguration → mf_Finalizers m = []
  | _ => True
  end.

Lemma Reconcile_webhook_plain : calls webhook_plain Reconcile.
Proof.
  apply calls_Reconcile; [done..| |].
  - intros T c Ha _. by destruct c.
  - intros scc c. repeat constructor; done.
Qed.

(** No request of [p], run after [tr], drops the finalizer. *)
Abbreviation keeps := (guarded drops_finalizer (λ _, False)).

Lemma tame_keeps : tame (λ T c, ¬ drops_finalizer T c).
Proof. intros T c _ Hc Hd. apply Hc. by destruct c. Qed.

Lemma wp_keeps V {A} (p : prog Call A) (Q : A → list (Ev Call) → Prop) tr :
  calls (λ T c, ¬ drops_finalizer T c) p → wp V p Q tr → keeps tr →
  wp V p (λ a tr', Q a tr' ∧ keeps tr') tr.
Proof. apply wp_guarded_no. Qed.

Lemma enoexec_keeps c :
  utils.PodPlacementFinalizerName ∈ cf_Finalizers c →
  calls (λ T c, ¬ drops_finalizer T c) (handleEnoexecDelete c).
Proof.
  intros Hf. eapply calls_mono; [|by apply enoexec_not_gives_up].
  intros T c' Hc Hd. by apply Hc, drops_gives_up.
Qed.

Lemma dependentsStatus_obj V c tr :
  wp V (dependentsStatus c) (λ r _, cf_Obj r.1 = cf_Obj c) tr.
Proof.
  unfold Operator.dependentsStatus. prog_unfold. step. intros a _.
  destruct (hardError a); [done|]. apply wp_bind. eapply wp_mono; [|apply wp_true].
  intros [o [e|]] tr1 _; [done|]. step. intros b _. destruct (hardError b); [done|].
  step. intros m _. by destruct (hardError m).
Qed.

Lemma reconcile_keeps V c tr :
  utils.PodPlacementFinalizerName ∈ cf_Finalizers c → keeps tr →
  wp V (reconcile c) (λ _ tr', keeps tr') tr.
Proof.
  intros Hf Hk.
  eapply wp_mono; [|apply wp_keeps; [|apply wp_true|done]]; [by intros a tr' [_ ?]|].
  apply calls_reconcile; [apply tame_keeps| |by apply enoexec_keeps].
  intros scc c'. apply Forall_forall. by intros m _ [].
Qed.

Lemma endUpdate_keeps V f c tr :
  utils.PodPlacementFinalizerName ∈ f → keeps tr → wp V (endUpdate f c) (λ _ tr', keeps tr') tr.
Proof.
  intros Hf Hk. unfold endUpdate, updateFinalizers. prog_unfold. step. intros a _.
  apply guarded_snoc; [done|]. cbn. tauto.
Qed.

Lemma reconcilePlugin_keeps V c tr :
  utils.PodPlacementFinalizerName ∈ cf_Finalizers c → keeps tr →
  wp V (reconcilePlugin c) (λ _ tr', keeps tr') tr.
Proof.
  intros Hf Hk. unfold Operator.reconcilePlugin. prog_unfold.
  assert (Hlive : ∀ tr, keeps tr → wp V (reconcileLive apiReader now c) (λ _ tr', keeps tr') tr).
  { clear tr Hk. intros tr Hk. unfold reconcileLive. prog_unfold. apply wp_bind.
    eapply wp_mono; [|apply wp_keeps; [apply calls_dependentsStatus, tame_keeps|
      apply dependentsStatus_obj|done]].
    intros [c1 [e|]] tr1 [Hc Hk1]; [done|]. apply wp_bind. cbn in Hc.
    eapply wp_mono; [|apply reconcile_keeps; [|exact Hk1]]; [done|].
    unfold cf_Finalizers. by rewrite Hc. }
  destruct (monitorEnabled c); [|by apply Hlive]. destruct (negb _).
  { apply endUpdate_keeps; [|done]. apply elem_of_addFinalizer. by right. }
  apply wp_bind. eapply wp_mono; [|apply wp_keeps;
    [apply calls_ensureEnoexecFinalizer, tame_keeps|apply wp_true|done]].
  intros [out|] tr1 [_ Hk1]; [done|]. by apply Hlive.
Qed.

(** ** The configuration is read once *)
Abbreviation unread := (λ T c, ¬ reads_config T c).

Lemma harmless_unread : harmless unread.
Proof. by intros T c _ Hc. Qed.
Lemma tame_unread : tame unread.
Proof. apply harmless_tame, harmless_unread. Qed.

Lemma applies_unread : applies_ok unread.
Proof. intros scc c. apply Forall_forall. by intros m _ []. Qed.

(** ** The law of [Reconcile] *)
Lemma reads_unread new : Forall (λ e, ¬ reads_config _ (ev_call e)) new → reads new = [].
Proof.
  induction 1 as [|[T c t] new He _ IH]; [done|]. unfold reads in *. cbn [omap list_omap].
  cbn in He. destruct c; cbn; (done || by destruct He).
Qed.

(** What may follow the read of the configuration, in the three modes. *)
Definition mode_ok (r : Reply) (tr new : list (Ev Call)) : Prop :=
  (reply_deleting r → applies_none (tr ++ new) ∧ guarded drops_finalizer cleared (tr ++ new)
                      ∧ always sends_known (tr ++ new))
  ∧ (¬ reply_deleting r → guarded drops_finalizer (λ _, False) (tr ++ new))
  ∧ (¬ reply_deleting r → reply_finalized r ∨ applies_none (tr ++ new)).

Lemma lawful_app r tr new :
  reads tr = [r] → always lawful tr → Forall (λ e, ¬ reads_config _ (ev_call e)) new →
  mode_ok r tr new → always lawful (tr ++ new).
Proof.
  intros Hr Hl Hn (Hdel & Hkeep & Hfin). apply always_app; [done|]. intros mid e post ->.
  rewrite app_assoc in Hdel, Hkeep, Hfin.
  apply Forall_app in Hn as [Hmid Hn]. apply Forall_cons_1 in Hn as [He _].
  assert (Hpre : reads (tr ++ mid) = [r]) by (by rewrite reads_app, (reads_unread mid Hmid), app_nil_r).
  destruct (decide (reply_deleting r)) as [Hd|Hd].
  - destruct (Hdel Hd) as (Hna & Hg & Hs).
    assert (Hna' : ¬ applies _ (ev_call e)) by (apply Forall_app in Hna as [_ Hna]; by apply Forall_cons_1 in Hna as [? _]).
    constructor.
    + intros [x Hx]. exfalso. destruct e as [T c t]. by destruct c; try done; apply He.
    + done.
    + intros Hdr. apply Forall_app in Hna as [Hna _]. split; [by eapply Hg|]. split; [done|eauto].
    + intros r' v _ _ Hv. by eapply (Hs (tr ++ mid) e post).
  - specialize (Hkeep Hd). specialize (Hfin Hd). constructor.
    + intros [x Hx]. exfalso. destruct e as [T c t]. by destruct c; try done; apply He.
    + intros Ha. exists r. split; [done|]. split; [done|]. destruct Hfin as [?|Hna]; [done|].
      apply Forall_app in Hna as [_ Hna]. by apply Forall_cons_1 in Hna as [? _].
    + intros Hdr. exfalso. by eapply Hkeep.
    + intros r' v Hr' Hdel'. rewrite Hpre in Hr'. by injection Hr' as <-.
Qed.

Lemma getConfig_lawful :
  wp faithful (getConfig apiReader)
     (λ a tr, always lawful tr ∧ Forall (λ e, reads_config _ (ev_call e)) tr
              ∧ ∀ r, a = Ok r → reads tr = [r] ∧ reply_version r ∈ versions tr) [].
Proof.
  assert (Hl : ∀ pre e, versions pre = [] → reads_config _ (ev_call e) → lawful pre e).
  { intros pre [T c t] Hp Hc. constructor; cbn in *; [done|by destruct c..|].
    intros r v Hr. by destruct c. }
  assert (H1 : ∀ (a : res Reply), always lawful [mkEv GetConfigCached a]).
  { intros a. apply (always_snoc lawful [] (mkEv GetConfigCached a)). split; [|by apply Hl].
    by intros [|? ?] e0 post. }
  unfold getConfig. prog_unfold. step. intros [o|e] [_ Ho].
  - rewrite bool_decide_eq_false_2 by (by apply Ho). step. cbn [app].
    split; [apply H1|]. split; [by repeat constructor|]. intros r [= <-]. split; [done|by left].
  - destruct (isNotFound e); [destruct apiReader|];
      [|step; split; [apply H1|]; split; [by repeat constructor|done]..].
    step. intros t _. cbn [app]. split.
    + apply (always_snoc lawful [mkEv GetConfigCached (Err e)]). split; [apply H1|by apply Hl].
    + split; [by repeat constructor|]. intros r ->. split; [done|by left].
Qed.

(** The reads themselves give nothing up, send nothing and apply nothing. *)
Lemma only_reads (P : ∀ T, Call T → Prop) tr :
  Forall (λ e, reads_config _ (ev_call e)) tr →
  (∀ T c, reads_config T c → P T c) → Forall (λ e, P _ (ev_call e)) tr.
Proof. intros H HP. eapply Forall_impl; [exact H|]. cbn. auto. Qed.

(** The rest of a reconcile, after the configuration was read. *)
Lemma wp_rest r tr {A} (p : prog Call A) :
  reads tr = [r] → always lawful tr → calls unread p →
  wp faithful p (λ _ tr', ∀ new, tr' = tr ++ new → mode_ok r tr new) tr →
  wp faithful p (λ _ tr', always lawful tr') tr.
Proof.
  intros Hr Hl Hu Hm. eapply wp_mono; [|by apply (wp_calls unread)].
  intros a tr' (Hok & new & -> & Hn). apply (lawful_app r tr new); [done..|]. by apply Hok.
Qed.

Lemma handleDelete_mode r c tr :
  reply_deleting r → utils.PodPlacementFinalizerName ∈ cf_Finalizers c → tracked tr c →
  Forall (λ e, reads_config _ (ev_call e)) tr →
  wp faithful (handleDelete c) (λ _ tr', ∀ new, tr' = tr ++ new → mode_ok r tr new) tr.
Proof.
  intros Hd Hf Ht Hq. set (N := λ T (c : Call T), ¬ applies T c).
  assert (HN : harmless N) by (by intros T c' Hc _).
  assert (Hg : guarded gives_up cleared tr).
  { apply (guarded_app_no gives_up cleared [] tr); [apply guarded_nil|].
    apply (only_reads (λ T c, ¬ gives_up T c)); [done|]. intros T c' Hc. destruct c'; first [by destruct Hc|by intros []]. }
  eapply wp_mono; [|apply wp_and; [|apply wp_and]].
  2: by apply (wp_weaken honest); [intros T c' t [? _]|apply handleDelete_guarded].
  2: { apply (handleDelete_tracked faithful c tr Ht).
       apply (sends_known_quiet [] tr); [by intros [|? ?]|].
       apply only_reads; [done|]. intros T c' Hc. destruct c'; first [by destruct Hc|done]. }
  2: by apply (wp_only_calls N), calls_handleDelete.
  intros a tr' (Hg' & Hs & mid & -> & Hmid) new Hnew. apply app_inv_head in Hnew. subst mid.
  split; [|by split; intros []]. intros _. split; [|split; [|done]].
  { apply Forall_app. split; [|done]. apply (only_reads N); [done|]. intros T c' Hc. destruct c'; first [by destruct Hc|by intros []]. }
  intros pre e post Heq He. by eapply Hg', drops_gives_up.
Qed.

(** The live modes: what follows keeps the finalizer, and applies nothing unless
    the configuration has it. *)
Lemma live_mode r tr {A} (p : prog Call A) :
  ¬ reply_deleting r →
  wp faithful p (λ _ tr', keeps tr') tr →
  (reply_finalized r ∨ applies_none tr ∧ calls (λ T c, ¬ applies T c) p) →
  wp faithful p (λ _ tr', ∀ new, tr' = tr ++ new → mode_ok r tr new) tr.
Proof.
  intros Hd Hk Hf. set (N := λ T (c : Call T), ¬ applies T c).
  assert (H : wp faithful p (λ _ tr', reply_finalized r ∨ applies_none tr') tr).
  { destruct Hf as [Hf|[Hna Hc]]; [eapply wp_mono; [|apply wp_true]; by left|].
    eapply wp_mono; [|by apply (wp_only_calls N)]. intros a tr' (new & -> & Hn). right.
    by apply Forall_app. }
  eapply wp_mono; [|apply wp_and; [exact Hk|exact H]].
  intros a tr' [Hk' Hf'] new ->. by split_and!; [intros ?| |].
Qed.

Lemma Reconcile_lawful : wp faithful Reconcile (λ _ tr', always lawful tr') [].
Proof.
  unfold Operator.Reconcile. prog_unfold. apply wp_bind.
  eapply wp_mono; [|apply getConfig_lawful]. intros a tr (Hl & Hq & Ha).
  destruct a as [r|e]; [|done]. destruct (Ha r eq_refl) as [Hr Hv].
  set (c := mkConfig (rp_Obj r) (zeroStatus (rp_Conditions r))). unfold containsFinalizer.
  assert (Hdel : cf_Deleting c = bool_decide (reply_deleting r)) by done.
  assert (Hfin : ∀ f, f ∈ cf_Finalizers c ↔ f ∈ reply_finalizers r) by done.
  assert (Hk : keeps tr).
  { apply (guarded_app_no drops_finalizer _ [] tr); [apply guarded_nil|].
    apply (only_reads (λ T c, ¬ drops_finalizer T c)); [done|].
    intros T c' Hc. destruct c'; first [by destruct Hc|by intros []]. }
  assert (Hna : applies_none tr).
  { apply (only_reads (λ T c, ¬ applies T c)); [done|].
    intros T c' Hc. destruct c'; first [by destruct Hc|by intros []]. }
  rewrite Hdel. case_bool_decide as Hd.
  { case_bool_decide as Hf; [|done]. cbn [negb]. apply wp_bind.
    eapply wp_mono; [|apply (wp_rest r); [done..|apply calls_handleDelete, harmless_unread|]]; [done|].
    apply handleDelete_mode; [done|by apply Hfin|exact Hv|done]. }
  case_bool_decide as Hf; cbn [negb]; cycle 1.
  { apply (wp_rest r); [done..|apply calls_endUpdate, harmless_unread|]. apply live_mode; [done| |].
    - apply endUpdate_keeps; [|done]. apply elem_of_addFinalizer. by left.
    - right. split; [done|]. unfold endUpdate, updateFinalizers. prog_unfold. step.
      split; [by intros []|done]. }
  apply (wp_rest r); [done..| |].
  - step. split; [by intros []|]. intros [n|e]; [|done].
    destruct (Bool.eqb _ _); [apply calls_reconcilePlugin; [apply harmless_unread|apply applies_unread]|
      apply calls_endUpdate, harmless_unread].
  - apply live_mode; [done| |left; by apply Hfin]. step. intros ppcs _.
    assert (Hk' : keeps (tr ++ [mkEv ListPPCs ppcs])) by (by apply guarded_snoc; [|intros []]).
    destruct ppcs as [n|e]; [|done]. destruct (Bool.eqb _ _); [by apply reconcilePlugin_keeps|].
    apply endUpdate_keeps; [|done].
    destruct (0 <? n); [apply elem_of_addFinalizer; by right|by apply elem_of_removeFinalizer].
Qed.

End live.
End operator.
