(* ===== verification/EnoexecHandler.v ===== *)
(** * The exec format error event handler

    [internal/controller/enoexecevent/handler]: the reconciler of [ENoExecEvent]
    objects, which the node daemons create for a failed [execve].  It publishes an
    event on the pod, labels it and deletes the [ENoExecEvent].  A reconcile is a
    program of requests, as in [Operator]. *)
From Stdlib Require Import Ascii.
From stdpp Require Import base gmap strings list.
From S2P Require Import Prelude GoStd Api Models Prog.
Import models.

(** ** The object ([api/v1beta1/enoexecevent_types.go], [enoexecevent_model.go]) *)
Record ENoExecEvent := mkENoExec {
  en_Name : string;
  en_Namespace : string;
  en_Labels : GoMap string;
  en_NodeName : string;
  en_PodName : string;
  en_PodNamespace : string;
  en_ContainerID : string;
}.

Definition ErrorLabel := "multiarch.openshift.io/enoexec-event-error".
Definition ErrorReasonPodNotFound := "pod-not-found".
Definition ErrorReasonNodeNotFound := "node-not-found".
Definition ErrorReasonWrongNamespace := "wrong-namespace".
Definition ErrorReasonReconciliation := "reconciliation-error".

Definition en_EnsureLabel (k v : string) (e : ENoExecEvent) : ENoExecEvent :=
  mkENoExec (en_Name e) (en_Namespace e) (mensure (en_Labels e) k v) (en_NodeName e) (en_PodName e)
    (en_PodNamespace e) (en_ContainerID e).

(** [MarkAsError], [IsMarkedAsError], [HasErrorLabel] *)
Definition MarkAsError (e : ENoExecEvent) : ENoExecEvent := en_EnsureLabel ErrorLabel "true" e.
Definition IsMarkedAsError (e : ENoExecEvent) : bool :=
  bool_decide (mlookup (en_Labels e) ErrorLabel = Some "true").
Definition HasErrorLabel (e : ENoExecEvent) : bool :=
  bool_decide (is_Some (mlookup (en_Labels e) ErrorLabel)).

(** [utils.ExecFormatErrorEventMessage] *)
Definition newline : string := String "010"%char "".
Definition ExecFormatErrorEventMessage (containerName nodeArch : string) : string :=
  (if bool_decide (containerName = utils.UnknownContainer) then "A container "
   else "Container " +:+ quoted containerName +:+ " ")
  +:+ "is running a binary that is not compatible with the node architecture"
  +:+ (if bool_decide (nodeArch = "") then "" else " (" +:+ nodeArch +:+ ")")
  +:+ ". This is likely due to an error in the image build process or a misconfiguration " +:+ newline
  +:+ "in the container's startup scripts. Please ensure that the container image is built " +:+ newline
  +:+ "for the correct architecture and that all scripts and binaries are compatible with " +:+ newline
  +:+ "the target node's architecture.".

(** ** Requests *)
Inductive HCall : Type → Type :=
| GetEvent : HCall (res ENoExecEvent)
| UpdateEvent (e : ENoExecEvent) : HCall (option GoError)
| DeleteEvent (e : ENoExecEvent) : HCall (option GoError)
| GetPod (namespace name : string) : HCall (res CorePod)
| GetNode (name : string) : HCall (res (GoMap string))
| RecordOnPod (type reason message : string) : HCall unit
| UpdatePod (p : CorePod) : HCall (option GoError).

Abbreviation H := (prog HCall).

(** [markAsError]: the error of the update is only logged. *)
Definition markAsError (reason : string) (e : ENoExecEvent) : H ENoExecEvent :=
  let e1 := en_EnsureLabel ErrorLabel reason e in
  _ ← request (UpdateEvent e1);
  Return e1.

Section handler.
(** [utils.Namespace()], and whether the reconciler has an event recorder *)
Context (operatorNamespace : string) (hasRecorder : bool).

(** The pod with the label the handler adds. *)
Definition labelled (p : CorePod) : CorePod :=
  pod_obj (EnsureLabel utils.ExecFormatErrorLabelKey utils.True_ (NewPod p None)).

Definition containerNameOf (e : ENoExecEvent) (p : CorePod) : string :=
  match ContainerNameFor (en_ContainerID e) (NewPod p None) with
  | Ok n => n
  | Err _ => utils.UnknownContainer
  end.

(** [reconcile]: the event object, which may have been marked, and the error *)
Definition reconcileEvent (e : ENoExecEvent) : H (ENoExecEvent * option GoError) :=
  a ← request (GetPod (en_PodNamespace e) (en_PodName e));
  match a with
  | Err err => e1 ← markAsError ErrorReasonPodNotFound e; Return (e1, Some err)
  | Ok pod =>
      if negb (bool_decide (ps_NodeName (p_Spec pod) = en_NodeName e))
      then e1 ← markAsError ErrorReasonNodeNotFound e; Return (e1, None)
      else
        n ← request (GetNode (en_NodeName e));
        match n with
        | Err err => e1 ← markAsError ErrorReasonNodeNotFound e; Return (e1, Some err)
        | Ok nodeLabels =>
            _ ← (if hasRecorder
                 then request (RecordOnPod EventTypeWarning utils.ExecFormatErrorEventReason
                        (ExecFormatErrorEventMessage (containerNameOf e pod)
                           (mget nodeLabels utils.ArchLabel)))
                 else Return tt);
            u ← request (UpdatePod (labelled pod));
            match u with
            | Some err => e1 ← markAsError ErrorReasonPodNotFound e; Return (e1, Some err)
            | None => Return (e, None)
            end
        end
  end.

(** The end of [Reconcile]: the object is deleted after a success or a NotFound. *)
Definition finishEvent (e : ENoExecEvent) (err : option GoError) : H (option GoError) :=
  match ignoreNotFound err with
  | None =>
      d ← request (DeleteEvent e);
      match d with
      | Some derr => _ ← markAsError ErrorReasonReconciliation e; Return (ignoreNotFound (Some derr))
      | None => Return None
      end
  | Some err' => _ ← markAsError ErrorReasonReconciliation e; Return (Some err')
  end.

(** [Reconcile]: the error it returns *)
Definition ReconcileEvent : H (option GoError) :=
  a ← request GetEvent;
  match a with
  | Err err => Return (ignoreNotFound (Some err))
  | Ok e =>
      if negb (bool_decide (en_Namespace e = operatorNamespace))
      then _ ← markAsError ErrorReasonWrongNamespace e; Return None
      else if bool_decide (en_PodName e = "")
      then _ ← markAsError ErrorReasonPodNotFound e; Return None
      else
        r ← reconcileEvent e;
        finishEvent r.1 r.2
  end.

(** ** An event object is deleted only when there is nothing left to report *)
Definition deletes_event : ∀ T, HCall T → Prop := λ T c,
  match c with DeleteEvent _ => True | _ => False end.

(** Nothing is left to report of the event [e]: its pod or its node is not there, the
    pod of that name runs on another node, or it was labelled (or gone by then). *)
Definition nothing_left (e : ENoExecEvent) (tr : list (Ev HCall)) : Prop :=
  (∃ err, isNotFound err = true ∧ mkEv (GetPod (en_PodNamespace e) (en_PodName e)) (Err err) ∈ tr)
  ∨ (∃ pod, mkEv (GetPod (en_PodNamespace e) (en_PodName e)) (Ok pod) ∈ tr
       ∧ ps_NodeName (p_Spec pod) ≠ en_NodeName e)
  ∨ (∃ err, isNotFound err = true ∧ mkEv (GetNode (en_NodeName e)) (Err err) ∈ tr)
  ∨ (∃ pod err, mkEv (GetPod (en_PodNamespace e) (en_PodName e)) (Ok pod) ∈ tr
       ∧ ignoreNotFound err = None ∧ mkEv (UpdatePod (labelled pod)) err ∈ tr).

Definition reported_or_moot (tr : list (Ev HCall)) : Prop :=
  ∃ e, mkEv GetEvent (Ok e) ∈ tr ∧ en_Namespace e = operatorNamespace ∧ en_PodName e ≠ "" ∧ nothing_left e tr.

Abbreviation kept tr := (guarded deletes_event reported_or_moot tr).

Lemma kept_no V {A} (p : H A) (Q : A → list (Ev HCall) → Prop) tr :
  calls (λ T c, ¬ deletes_event T c) p → kept tr →
  (∀ a tr', tr `prefix_of` tr' → kept tr' → Q a tr') → wp V p Q tr.
Proof.
  intros Hc Hk HQ. eapply wp_mono; [|by apply wp_calls, wp_true; exact Hc].
  intros a tr' (_ & new & -> & Hn). apply HQ; [by eexists|]. by apply guarded_app_no.
Qed.

Lemma calls_mark (P : ∀ T, HCall T → Prop) reason e :
  (∀ e, P _ (UpdateEvent e)) → calls P (markAsError reason e).
Proof. intros HP. unfold markAsError. prog_unfold. step. by split. Qed.

Lemma nothing_left_mono e tr tr' : tr `prefix_of` tr' → nothing_left e tr → nothing_left e tr'.
Proof. intros [l ->]. unfold nothing_left. setoid_rewrite elem_of_app. naive_solver. Qed.

Lemma in_snoc (tr : list (Ev HCall)) x : x ∈ tr ++ [x].
Proof. apply elem_of_app. right. left. Qed.

(** [reconcileEvent] deletes nothing, and without an error other than NotFound
    there is nothing left to report. *)
Lemma reconcileEvent_kept V e tr :
  kept tr →
  wp V (reconcileEvent e)
     (λ r tr', tr `prefix_of` tr' ∧ kept tr' ∧ (ignoreNotFound r.2 = None → nothing_left e tr')) tr.
Proof.
  intros Hk. unfold reconcileEvent. prog_unfold. step. intros a _.
  assert (Hmark : ∀ reason (o : option GoError) tr1, tr `prefix_of` tr1 → kept tr1 →
    (ignoreNotFound o = None → nothing_left e tr1) →
    wp V (pbind (λ e1, Return (e1, o)) (markAsError reason e)) (λ r tr', tr `prefix_of` tr' ∧ kept tr' ∧
      (ignoreNotFound r.2 = None → nothing_left e tr')) tr1).
  { intros reason o tr1 Hp Hk1 Hn. apply wp_bind, kept_no; [apply calls_mark; by intros ? []|done|].
    intros e1 tr2 Hp2 Hk2. split; [by etrans|]. split; [done|]. intros Ho. by eapply nothing_left_mono, Hn. }
  assert (Hk1 : kept (tr ++ [mkEv (GetPod (en_PodNamespace e) (en_PodName e)) a])).
  { apply guarded_snoc; [done|by intros []]. }
  destruct a as [pod|err].
  2: { apply Hmark; [by eexists|done|]. intros Hn. left. exists err. split; [|apply in_snoc].
       cbn in Hn. by destruct (isNotFound err). }
  case_bool_decide as Hnode; cbn [negb].
  2: { apply Hmark; [by eexists|done|]. intros _. right; left. exists pod. by split; [apply in_snoc|]. }
  step. intros n _. set (tr1 := tr ++ _) in *.
  assert (Hk2 : kept (tr1 ++ [mkEv (GetNode (en_NodeName e)) n])) by (apply guarded_snoc; [done|by intros []]).
  destruct n as [labels|err].
  2: { apply Hmark; [eexists; unfold tr1; by rewrite <-app_assoc|done|]. intros Hn. right; right; left.
       exists err. split; [|apply in_snoc]. cbn in Hn. by destruct (isNotFound err). }
  apply wp_bind, kept_no; [destruct hasRecorder; [|done]; by split; [intros []|]|done|].
  intros _ tr2 Hp2 Hk3. step. intros u _.
  assert (Hk4 : kept (tr2 ++ [mkEv (UpdatePod (labelled pod)) u])) by (apply guarded_snoc; [done|by intros []]).
  assert (Hp3 : tr1 `prefix_of` tr2 ++ [mkEv (UpdatePod (labelled pod)) u]).
  { etrans; [|by eexists]. etrans; [|exact Hp2]. by eexists. }
  assert (Hleft : ignoreNotFound u = None → nothing_left e (tr2 ++ [mkEv (UpdatePod (labelled pod)) u])).
  { intros Hu. right; right; right. exists pod, u. split; [|by split; [|apply in_snoc]].
    destruct Hp3 as [l ->]. apply elem_of_app; left. apply in_snoc. }
  assert (Hp : tr `prefix_of` tr2 ++ [mkEv (UpdatePod (labelled pod)) u]) by (etrans; [by eexists|exact Hp3]).
  destruct u as [err|]; step; [by apply Hmark|by split; [|split]].
Qed.

Lemma ReconcileEvent_kept V : wp V ReconcileEvent (λ _ tr', kept tr') [].
Proof.
  assert (Hmark : ∀ reason e, calls (λ T c, ¬ deletes_event T c) (markAsError reason e)).
  { intros. apply calls_mark. by intros ? []. }
  unfold ReconcileEvent. prog_unfold. step. intros a _.
  assert (Hk : kept ([] ++ [mkEv GetEvent a])) by (apply guarded_snoc; [apply guarded_nil|by intros []]).
  destruct a as [e|err]; [|done].
  case_bool_decide as Hns; cbn [negb]; [|by apply wp_bind, kept_no].
  case_bool_decide; [by apply wp_bind, kept_no|]. apply wp_bind.
  eapply wp_mono; [|apply reconcileEvent_kept, Hk].
  intros [e1 err] tr (Hp & Hk1 & Hr). cbn [fst snd] in *. unfold finishEvent. prog_unfold.
  destruct (ignoreNotFound err); [by apply wp_bind, kept_no|]. step. intros d _.
  assert (Hk2 : kept (tr ++ [mkEv (DeleteEvent e1) d])).
  { apply guarded_snoc; [done|]. intros _. exists e. split; [|by auto].
    destruct Hp as [l ->]. apply elem_of_app; left. apply in_snoc. }
  destruct d as [derr|]; [|done]. by apply wp_bind, kept_no.
Qed.

(** An exec format error is never lost to a failure.  Whatever the API server
    answers, the handler deletes an [ENoExecEvent] only after its pod was labelled
    (or found deleted by then), or after it became moot: the pod or the node does
    not exist, or the pod of that name runs on another node. *)
Theorem handler_keeps_unreported_events {W : Type} (srv : Server HCall W) w :
  guarded deletes_event reported_or_moot (run ReconcileEvent w).1.2.
Proof.
  assert (Hs : server_ok srv Anything) by done.
  pose proof (wp_run Anything ReconcileEvent _ [] w Hs (ReconcileEvent_kept Anything)) as Hw.
  by destruct (run ReconcileEvent w) as [[w' tr] a].
Qed.

(** ** What is written to pods *)
Definition writes_pod (q : CorePod) : ∀ T, HCall T → Prop := λ T c,
  match c with UpdatePod p => p = q | _ => False end.

(** [q] is the pod of the event that was read, on the node of the event, with the
    label and nothing else changed. *)
Definition labelled_pod_of_event (q : CorePod) (tr : list (Ev HCall)) : Prop :=
  ∃ e pod, mkEv GetEvent (Ok e) ∈ tr
    ∧ mkEv (GetPod (en_PodNamespace e) (en_PodName e)) (Ok pod) ∈ tr
    ∧ ps_NodeName (p_Spec pod) = en_NodeName e ∧ q = labelled pod.

Abbreviation tame q tr := (guarded (writes_pod q) (labelled_pod_of_event q) tr).

Lemma tame_no V q {A} (p : H A) tr :
  calls (λ T c, ¬ writes_pod q T c) p → tame q tr → wp V p (λ _ tr', tame q tr') tr.
Proof.
  intros Hc Ht. eapply wp_mono; [|apply (wp_guarded_no (writes_pod q) (labelled_pod_of_event q) V p);
    [exact Hc|apply wp_true|exact Ht]].
  by intros a tr' [_ ?].
Qed.

Lemma mark_tame V q reason e {A} (x : ENoExecEvent → A) tr :
  tame q tr → wp V (pbind (λ e1, Return (x e1)) (markAsError reason e)) (λ _ tr', tame q tr') tr.
Proof.
  intros Ht. apply tame_no; [|done]. apply calls_bind; [|done]. apply calls_mark. by intros ? [].
Qed.

Lemma reconcileEvent_tame V q e tr :
  tame q tr → mkEv GetEvent (Ok e) ∈ tr → wp V (reconcileEvent e) (λ _ tr', tame q tr') tr.
Proof.
  intros Ht He. unfold reconcileEvent. prog_unfold. step. intros a _.
  set (tr1 := tr ++ [mkEv (GetPod _ _) a]).
  assert (Ht1 : tame q tr1) by (apply guarded_snoc; [done|by intros []]).
  destruct a as [pod|err]; [|by apply mark_tame].
  case_bool_decide as Hnode; cbn [negb]; [|by apply mark_tame]. step. intros n _.
  assert (Ht2 : tame q (tr1 ++ [mkEv (GetNode (en_NodeName e)) n])) by (apply guarded_snoc; [done|by intros []]).
  destruct n as [labels|err]; [|by apply mark_tame]. apply wp_bind.
  eapply wp_mono; [|apply (wp_guarded_no (writes_pod q) (labelled_pod_of_event q) V _
    (λ _ tr', tr1 `prefix_of` tr')); [| |exact Ht2]].
  - intros _ tr2 [Hp Htr]. step. intros u _.
    assert (Ht3 : tame q (tr2 ++ [mkEv (UpdatePod (labelled pod)) u])).
    { apply guarded_snoc; [done|]. cbn [writes_pod ev_call]. intros <-. destruct Hp as [l ->].
      exists e, pod. unfold tr1. rewrite !elem_of_app, !list_elem_of_singleton. auto 8. }
    destruct u as [err|]; [by apply mark_tame|done].
  - destruct hasRecorder; [|done]. by split; [intros []|].
  - destruct hasRecorder; step; [intros t _|]; rewrite <-?app_assoc; by eexists.
Qed.

Lemma ReconcileEvent_tame V q : wp V ReconcileEvent (λ _ tr', tame q tr') [].
Proof.
  unfold ReconcileEvent. prog_unfold. step. intros a _.
  assert (Ht : tame q ([] ++ [mkEv GetEvent a])) by (apply guarded_snoc; [apply guarded_nil|by intros []]).
  destruct a as [e|err]; [|done].
  destruct (negb _); [by apply mark_tame|]. case_bool_decide; [by apply mark_tame|]. apply wp_bind.
  eapply wp_mono; [|apply reconcileEvent_tame; [exact Ht|apply in_snoc]].
  intros [e1 err] tr Ht1. unfold finishEvent. prog_unfold. cbn [fst snd].
  destruct (ignoreNotFound err); [by apply mark_tame|]. step. intros d _.
  assert (Ht2 : tame q (tr ++ [mkEv (DeleteEvent e1) d])) by (apply guarded_snoc; [done|by intros []]).
  destruct d; [by apply mark_tame|done].
Qed.

(** The handler writes to a pod only the pod it read for the event, running on
    the event's node, with the exec format error label set to [true] and
    everything but the labels unchanged. *)
Theorem handler_only_labels_the_pod {W : Type} (srv : Server HCall W) w q a :
  mkEv (UpdatePod q) a ∈ (run ReconcileEvent w).1.2 →
  labelled_pod_of_event q (run ReconcileEvent w).1.2
  ∧ mlookup (om_Labels (p_Meta q)) utils.ExecFormatErrorLabelKey = Some "true".
Proof.
  assert (Hs : server_ok srv Anything) by done.
  pose proof (wp_run Anything ReconcileEvent _ [] w Hs (ReconcileEvent_tame Anything q)) as Hw.
  destruct (run ReconcileEvent w) as [[w' tr] r]. cbn [fst snd]. intros Hin.
  apply list_elem_of_split in Hin as (l1 & l2 & Heq). destruct (Hw l1 _ l2 Heq eq_refl)
    as (e & pod & He & Hp & Hn & ->).
  split; [|apply mlookup_mensure_eq]. exists e, pod. rewrite Heq, !elem_of_app. auto.
Qed.

(** ** The complete report *)

(** A cluster in which the event, its pod and its node are there to be read, and
    the writes succeed. *)
Definition cluster_of (e : ENoExecEvent) (pod : CorePod) (nodeLabels : GoMap string) :
    ∀ T, HCall T → T → Prop := λ T c,
  match c in HCall T return T → Prop with
  | GetEvent => λ a, a = Ok e
  | GetPod ns n => λ a, ns = en_PodNamespace e → n = en_PodName e → a = Ok pod
  | GetNode n => λ a, n = en_NodeName e → a = Ok nodeLabels
  | UpdatePod _ => λ a, a = None
  | DeleteEvent _ => λ a, a = None
  | _ => λ _, True
  end.

(** In such a cluster one reconcile reports the error completely and in order:
    it reads the event, the pod and the node, publishes the warning that names
    the container and the architecture, labels the pod, deletes the event object,
    and returns no error. *)
Theorem handler_reports {W : Type} (srv : Server HCall W) w e pod nodeLabels :
  server_ok srv (cluster_of e pod nodeLabels) →
  en_Namespace e = operatorNamespace → en_PodName e ≠ "" →
  ps_NodeName (p_Spec pod) = en_NodeName e → hasRecorder = true →
  let '(_, tr, r) := run ReconcileEvent w in
  r = None ∧
  tr = [mkEv GetEvent (Ok e); mkEv (GetPod (en_PodNamespace e) (en_PodName e)) (Ok pod);
        mkEv (GetNode (en_NodeName e)) (Ok nodeLabels);
        mkEv (RecordOnPod "Warning" "ExecFormatError"
          (ExecFormatErrorEventMessage (containerNameOf e pod) (mget nodeLabels utils.ArchLabel))) tt;
        mkEv (UpdatePod (labelled pod)) None; mkEv (DeleteEvent e) None].
Proof.
  intros Hsrv Hns Hname Hnode Hrec.
  assert (Hw : wp (cluster_of e pod nodeLabels) ReconcileEvent (λ r tr, r = None ∧ tr =
    [mkEv GetEvent (Ok e); mkEv (GetPod (en_PodNamespace e) (en_PodName e)) (Ok pod);
     mkEv (GetNode (en_NodeName e)) (Ok nodeLabels);
     mkEv (RecordOnPod "Warning" "ExecFormatError"
       (ExecFormatErrorEventMessage (containerNameOf e pod) (mget nodeLabels utils.ArchLabel))) tt;
     mkEv (UpdatePod (labelled pod)) None; mkEv (DeleteEvent e) None]) []).
  { unfold ReconcileEvent, reconcileEvent, finishEvent. prog_unfold. step. intros a ->.
    rewrite bool_decide_eq_true_2, (bool_decide_eq_false_2 (en_PodName e = "")) by done.
    cbn [negb]. step. intros a Ha. rewrite (Ha eq_refl eq_refl), bool_decide_eq_true_2 by done.
    cbn [negb]. step. intros b Hb. rewrite (Hb eq_refl), Hrec. step. intros [] _ u ->. step.
    cbn [ignoreNotFound]. step. by intros d ->. }
  pose proof (wp_run _ _ _ [] w Hsrv Hw) as H. by destruct (run ReconcileEvent w) as [[w' tr] r].
Qed.

End handler.
