(* ===== verification/Teardown.v ===== *)
(** * Tearing the exec format error monitor down

    The composition of the event handler ([EnoexecHandler]) with the operator's
    [handleEnoexecDelete] ([Operator]) through the [ENoExecEvent] objects: the
    operator deletes the daemon set, waits until the handler has dealt with the
    events that are left (deletes those that carry the handler's error label), and
    only then removes the handler.  Shown here: one reconcile of an event is enough
    to settle it, whatever happens to pods and nodes; once every event was
    reconciled the operator's next attempt goes through; and before that it does not
    take the handler away. *)
From stdpp Require Import base gmap strings list.
From S2P Require Import Prelude GoStd Api Models Status Prog Operator OperatorTheorems EnoexecHandler.
Import models.

(** ** The handler and the store of events *)
Section drain.
Context (operatorNamespace : string) (hasRecorder : bool).

(** Pods, nodes and the recorder answer as they like, with a state of their own. *)
Context {W : Type} (rest : Server HCall W).

Record EventWorld := mkEW { ew_events : gmap string ENoExecEvent; ew_rest : W }.

Definition eventGone (n : string) : GoError := mkErr KNotFound n.

(** The API server for a reconcile of the event [n]: its writes to events succeed
    unless the event is gone. *)
Definition event_server (n : string) : Server HCall EventWorld := λ T c,
  match c in HCall T return EventWorld → EventWorld * T with
  | GetEvent => λ w, (w, match ew_events w !! n with Some e => Ok e | None => Err (eventGone n) end)
  | UpdateEvent e => λ w,
      match ew_events w !! en_Name e with
      | Some _ => (mkEW (<[en_Name e := e]> (ew_events w)) (ew_rest w), None)
      | None => (w, Some (eventGone n))
      end
  | DeleteEvent e => λ w, (mkEW (base.delete (en_Name e) (ew_events w)) (ew_rest w), None)
  | c' => λ w, let '(r, t) := rest _ c' (ew_rest w) in (mkEW (ew_events w) r, t)
  end.

Definition reconcileIn (n : string) (w : EventWorld) : EventWorld :=
  (@run HCall _ (event_server n) _ (ReconcileEvent operatorNamespace hasRecorder) w).1.1.

Definition reconcileAll (names : list string) (w : EventWorld) : EventWorld :=
  foldl (λ w n, reconcileIn n w) w names.

Definition keyed (evs : gmap string ENoExecEvent) : Prop := ∀ n e, evs !! n = Some e → en_Name e = n.

(** The event is gone or marked. *)
Definition settled (evs : gmap string ENoExecEvent) (n : string) : Prop :=
  ∀ e, evs !! n = Some e → HasErrorLabel e = true.

Section one.
Context (n : string) (evs0 : gmap string ENoExecEvent).

(** Only [n] has changed. *)
Definition only_n (w : EventWorld) : Prop :=
  keyed (ew_events w) ∧ ∀ m, m ≠ n → ew_events w !! m = evs0 !! m.

(** The world and the result of a program run for the event [n]. *)
Definition final {A} (p : H A) (w : EventWorld) : EventWorld * A :=
  let '(w', _, a) := @run HCall _ (event_server n) _ p w in (w', a).

Lemma final_Do {A T} (c : HCall T) (k : T → H A) w :
  final (Do c k) w = let '(w1, t) := event_server n T c w in final (k t) w1.
Proof.
  unfold final. cbn. unfold serve. destruct (event_server n T c w) as [w1 t].
  by destruct (run (k t) w1) as [[??]?].
Qed.

Lemma final_bind {A B} (p : H A) (f : A → H B) w :
  final (pbind f p) w = let '(w1, a) := final p w in final (f a) w1.
Proof.
  revert w. induction p as [a|T c k IH]; intros w; [done|]. cbn [pbind]. rewrite !final_Do.
  destruct (event_server n T c w) as [w1 t]. apply IH.
Qed.

(** Marking and deleting settle the event. *)
Lemma mark_settles reason e w :
  only_n w → en_Name e = n →
  let '(w', e') := final (markAsError reason e) w in
  only_n w' ∧ settled (ew_events w') n ∧ en_Name e' = n.
Proof.
  intros [Hk Hm] He. unfold markAsError. prog_unfold. cbn [pbind]. rewrite final_Do. cbn -[mensure mlookup].
  rewrite He. destruct (ew_events w !! n) as [x|] eqn:Hx; cbn -[mensure mlookup]; 
    [|split; [done|]; split; [intros y; by rewrite Hx|done]].
  split; [split; cbn; [intros m y|intros m Hne]|split; [|done]].
  - destruct (decide (m = n)) as [->|]; [rewrite lookup_insert_eq; by intros [= <-]|].
    rewrite lookup_insert_ne by done. apply Hk.
  - rewrite lookup_insert_ne by done. by apply Hm.
  - intros y. cbn -[mensure mlookup]. rewrite lookup_insert_eq. intros [= <-]. unfold HasErrorLabel.
    cbn [en_Labels en_EnsureLabel]. rewrite mlookup_mensure_eq. by apply bool_decide_eq_true.
Qed.

Lemma delete_settles {A} e (k : option GoError → H A) w :
  only_n w → en_Name e = n →
  ∃ w', final (Do (DeleteEvent e) k) w = final (k None) w' ∧ only_n w' ∧ settled (ew_events w') n.
Proof.
  intros [Hk Hm] He. eexists. split; [rewrite final_Do; reflexivity|]. rewrite He.
  split; [split; cbn; [intros m y|intros m Hne]|intros y; cbn; by rewrite lookup_delete_eq].
  - destruct (decide (m = n)) as [->|]; [by rewrite lookup_delete_eq|].
    rewrite lookup_delete_ne by done. apply Hk.
  - rewrite lookup_delete_ne by done. by apply Hm.
Qed.

Lemma finish_settles e err w :
  only_n w → en_Name e = n →
  let '(w', _) := final (finishEvent e err) w in only_n w' ∧ settled (ew_events w') n.
Proof.
  intros Hw He. unfold finishEvent. prog_unfold. destruct (ignoreNotFound err) as [x|].
  - rewrite final_bind. pose proof (mark_settles ErrorReasonReconciliation e w Hw He) as Hmk.
    destruct (final _ w) as [w' e']. cbn. naive_solver.
  - cbn [pbind]. destruct (delete_settles e (λ d, match d with
      | Some derr => pbind (λ _, Return (ignoreNotFound (Some derr))) (markAsError ErrorReasonReconciliation e)
      | None => Return None end) w Hw He) as (w'&E&Hs). rewrite E. done.
Qed.

Lemma reconcileEvent_keeps e w :
  only_n w → en_Name e = n →
  let '(w', r) := final (reconcileEvent hasRecorder e) w in only_n w' ∧ en_Name r.1 = n.
Proof.
  intros Hw He. unfold reconcileEvent. prog_unfold. cbn [pbind].
  assert (Hmark : ∀ reason (o : option GoError) w, only_n w →
    let '(w', r) := final (pbind (λ e1, Return (e1, o)) (markAsError reason e)) w in only_n w' ∧ en_Name r.1 = n).
  { intros reason o w1 Hw1. rewrite final_bind. pose proof (mark_settles reason e w1 Hw1 He) as Hmk.
    destruct (final _ w1) as [w' e']. cbn. naive_solver. }
  rewrite final_Do. cbn. destruct (rest _ _ _) as [r1 [pod|err]]; [|by apply Hmark].
  case_bool_decide; cbn [negb]; [|by apply Hmark].
  rewrite final_Do. cbn. destruct (rest _ _ _) as [r2 [labels|err]]; [|by apply Hmark].
  destruct hasRecorder; cbn [pbind]; repeat (rewrite final_Do; cbn; destruct (rest _ _ _) as [? ?]);
    (destruct o as [err|]; [by apply Hmark|done]).
Qed.

Lemma reconcile_settles w :
  ew_events w = evs0 → keyed evs0 →
  only_n (reconcileIn n w) ∧ settled (ew_events (reconcileIn n w)) n.
Proof.
  intros Hw Hk. assert (Hon : only_n w) by (split; by rewrite Hw).
  assert (Hf : reconcileIn n w = (final (ReconcileEvent operatorNamespace hasRecorder) w).1).
  { unfold reconcileIn, final. by destruct (run _ w) as [[??]?]. }
  rewrite Hf. clear Hf. unfold ReconcileEvent. prog_unfold.
  rewrite final_bind, final_Do. cbn [event_server].
  destruct (ew_events w !! n) as [e|] eqn:Hn; [|split; [done|]; intros ?; cbn; by rewrite Hn].
  change (final (Return (Ok e)) w) with (w, Ok e). cbn [fst].
  assert (He : en_Name e = n) by (rewrite Hw in Hn; by apply Hk in Hn).
  assert (Hmark : ∀ reason, only_n (final (pbind (λ _, Return (A:=option GoError) None) (markAsError reason e)) w).1
    ∧ settled (ew_events (final (pbind (λ _, Return (A:=option GoError) None) (markAsError reason e)) w).1) n).
  { intros reason. rewrite final_bind. pose proof (mark_settles reason e w Hon He) as Hmk.
    destruct (final _ w) as [w' e']. cbn. naive_solver. }
  case_bool_decide; cbn [negb]; [|apply Hmark]. case_bool_decide; [apply Hmark|].
  rewrite final_bind. pose proof (reconcileEvent_keeps e w Hon He) as Hr.
  destruct (final _ w) as [w1 r]. destruct Hr as [Hw1 Hr1].
  pose proof (finish_settles r.1 r.2 w1 Hw1 Hr1) as Hfin. by destruct (final _ w1).
Qed.
End one.

(** Reconciling every event settles them all, in whatever order. *)
Lemma reconcileAll_settles names w :
  keyed (ew_events w) →
  keyed (ew_events (reconcileAll names w)) ∧
  ∀ n, n ∈ names ∨ settled (ew_events w) n → settled (ew_events (reconcileAll names w)) n.
Proof.
  revert w. induction names as [|n names IH]; intros w Hk.
  { split; [done|]. intros n [Hn|Hn]; [by apply elem_of_nil in Hn|done]. }
  destruct (reconcile_settles n (ew_events w) w eq_refl Hk) as [[Hk1 Hm1] Hs1].
  destruct (IH (reconcileIn n w) Hk1) as [Hk2 Hs2]. split; [done|].
  intros m Hm. cbn. apply Hs2. destruct (decide (m = n)) as [->|Hne]; [by right|].
  rewrite elem_of_cons in Hm. destruct Hm as [[?|?]|Hm]; [done|by left|right].
  intros e. rewrite Hm1 by done. apply Hm.
Qed.
End drain.

(** ** The operator waits for it *)

(** What the listing shows of the store. *)
Definition items_of (evs : gmap string ENoExecEvent) : list ENoExecItem :=
  (λ '(n, e), mkItem n (en_Labels e)) <$> map_to_list evs.

(** A cluster that lets the teardown through, except that the events are those of
    the store. *)
Definition cooperates_with (evs : gmap string ENoExecEvent) : ∀ T, Call T → T → Prop := λ T c,
  match c in Call T return T → Prop with
  | ListENoExecEvents => λ a, a = Ok (items_of evs)
  | c' => cooperates _ c'
  end.

Lemma settled_cooperates evs {W} (srv : Server Call W) :
  (∀ n, settled evs n) → server_ok srv (cooperates_with evs) → server_ok srv cooperates.
Proof.
  intros Hs Hsrv T c w. specialize (Hsrv T c w). destruct c; try exact Hsrv. cbn in *.
  exists (items_of evs). split; [done|]. apply Forall_fmap, Forall_forall.
  intros [n e] He%elem_of_map_to_list. apply Hs in He. unfold HasErrorLabel in He.
  by apply bool_decide_eq_true in He.
Qed.

(** The requests that take the handler away: the finalizer of its deployment, and
    the deletion of what belongs to it. *)
Definition removes_handler : ∀ T, Call T → Prop := λ T c,
  match c with
  | UpdateObject r _ => r = enoexecDeployment
  | DeleteObject r => r ∈ enoexecControllerRefs ∧ r ∉ daemonSetRefs
  | _ => False
  end.

Definition errored (it : ENoExecItem) : Prop := is_Some (mlookup (it_Labels it) ENoExecEventErrorLabel).

Definition saw_only_errored (tr : list (Ev Call)) : Prop :=
  ∃ items, mkEv ListENoExecEvents (Ok items) ∈ tr ∧ Forall errored items.

Lemma saw_mono tr tr' : saw_only_errored tr → saw_only_errored (tr ++ tr').
Proof. intros (items&?&?). exists items. rewrite elem_of_app. auto. Qed.

(** The count is zero only if every event carries the label. *)
Lemma deleteErrored_counts V items n m tr :
  wp V (deleteErroredENoExecEvents items n m) (λ r _, n ≤ r.1 ∧ (r.1 = 0 → Forall errored items)) tr.
Proof.
  revert n m tr. induction items as [|it items IH]; intros n m tr; [by cbn|].
  cbn [deleteErroredENoExecEvents]. destruct (mlookup _ _) as [v|] eqn:Hv; prog_unfold.
  - step. intros a _. eapply wp_mono; [|apply IH]. intros r tr' [H1 H2]. split; [done|].
    intros H0. constructor; [by exists v|auto].
  - eapply wp_mono; [|apply IH]. intros r tr' [H1 _]. split; lia.
Qed.

Section teardown.
Context (apiReader : bool).
Abbreviation handleEnoexecDelete := (Operator.handleEnoexecDelete apiReader).

(** The handler, its permissions and its deployment's finalizer go only after a
    listing in which every event carries the error label. *)
Theorem teardown_keeps_handler c {W} (srv : Server Call W) w :
  guarded removes_handler saw_only_errored (run (handleEnoexecDelete c) w).1.2.
Proof.
  assert (Hw : wp Anything (handleEnoexecDelete c) (λ _ tr, guarded removes_handler saw_only_errored tr) []).
  { unfold Operator.handleEnoexecDelete. prog_unfold. destruct (negb _); [apply guarded_nil|].
    apply wp_bind. eapply wp_mono; [|apply (wp_guarded_no removes_handler saw_only_errored _ _ (λ _ _, True));
      [|apply wp_true|apply guarded_nil]].
    2: { apply calls_DeleteResources. apply Forall_forall. intros r Hr [_ Hn]. done. }
    intros [e|] tr1 [_ H1]; [done|]. apply wp_bind.
    eapply wp_mono; [|apply (wp_guarded_no removes_handler saw_only_errored _ _ (λ _ _, True));
      [by apply calls_getCache; intros; intros []|apply wp_true|exact H1]].
    intros [o|e] tr2 [_ H2]; [done|]. destruct (negb _); [done|]. step. intros [items|e'] _.
    2: { apply guarded_snoc; [done|by intros []]. }
    set (tr3 := tr2 ++ _). assert (H3 : guarded removes_handler saw_only_errored tr3)
      by (apply guarded_snoc; [done|by intros []]).
    assert (Hin : mkEv ListENoExecEvents (Ok items) ∈ tr3) by (apply elem_of_app; right; by left).
    clearbody tr3. apply wp_bind.
    eapply wp_mono; [|apply wp_calls; [apply (calls_deleteErrored (λ T c, ¬ removes_handler T c)); by intros ? []|
      apply deleteErrored_counts]].
    intros r tr4 ([_ Hall] & new & -> & Hnew).
    assert (H4 : guarded removes_handler saw_only_errored (tr3 ++ new)) by by apply guarded_app_no.
    destruct (Nat.ltb_spec 0 r.1) as [|Hz]; [exact H4|].
    apply wp_guarded; [apply saw_mono|exact H4|].
    exists items. split; [apply elem_of_app; by left|]. apply Hall. lia. }
  pose proof (wp_run Anything _ _ [] w (λ _ _ _, I) Hw) as H. by destruct (run _ w) as [[??]?].
Qed.

(** As long as a listing shows an event without the label, the attempt fails. *)
Lemma teardown_waits (V : ∀ T, Call T → T → Prop) c items tr :
  containsFinalizer utils.ExecFormatErrorFinalizerName (cf_Finalizers c) = true →
  (∀ a, V _ ListENoExecEvents a → a = Ok items) → ¬ Forall errored items →
  wp V (handleEnoexecDelete c) (λ r _, r.2 ≠ None) tr.
Proof.
  intros Hf Hl Hn. unfold Operator.handleEnoexecDelete. rewrite Hf. cbn [negb]. prog_unfold.
  apply wp_bind. eapply wp_mono; [|apply wp_true]. intros [e|] tr1 _; [done|]. apply wp_bind.
  eapply wp_mono; [|apply wp_true]. intros [o|e] tr2 _; [done|]. destruct (negb _); [done|]. step.
  intros a ->%Hl. apply wp_bind. eapply wp_mono; [|apply deleteErrored_counts]. intros r tr3 [_ Hr].
  destruct (Nat.ltb_spec 0 r.1); [done|]. destruct Hn. apply Hr. lia.
Qed.

(** The teardown of the exec format error monitor terminates without losing a
    report it could make: once the handler has reconciled every event that is left,
    each of them once and in any order, whatever the pods, the nodes and the writes
    to pods answered, the operator's next attempt completes and removes the
    finalizer; and no attempt, at any time and against any server, takes the handler
    away before it has listed the events and found none without the error label. *)
Theorem teardown_drains operatorNamespace hasRecorder {W} (rest : Server HCall W) names w0 c
    {X} (srv : Server Call X) x :
  keyed (ew_events w0) → (∀ n, is_Some (ew_events w0 !! n) → n ∈ names) →
  server_ok srv (cooperates_with (ew_events (reconcileAll operatorNamespace hasRecorder rest names w0))) →
  let '(_, tr, r) := run (handleEnoexecDelete c) x in
  r.2 = None ∧ (utils.ExecFormatErrorFinalizerName ∉ cf_Finalizers r.1) ∧
  guarded removes_handler saw_only_errored tr.
Proof.
  intros Hk Hn Hsrv.
  destruct (reconcileAll_settles operatorNamespace hasRecorder rest names w0 Hk) as [_ Hs].
  apply settled_cooperates in Hsrv.
  2: { intros n. apply Hs. destruct (decide (is_Some (ew_events w0 !! n))) as [|Hno]; [left; auto|right].
       intros e He. by destruct Hno. }
  pose proof (wp_run cooperates _ _ [] x Hsrv (handleEnoexecDelete_ok apiReader c [])) as H.
  pose proof (teardown_keeps_handler c srv x) as Hg.
  destruct (run (handleEnoexecDelete c) x) as [[x' tr] r]. destruct H as [H1 H2]. cbn in Hg.
  split; [done|]. split; [|done]. rewrite H2. intros Hin%elem_of_removeFinalizer. by destruct Hin.
Qed.
End teardown.
