(* ===== verification/Bpf.v ===== *)
(** * An eBPF machine

    The instructions of [github.com/cilium/ebpf/asm] that the tracepoint uses, and
    what the kernel does with them.  Values are typed the way the kernel's verifier
    types them: a scalar, or a pointer into one of the regions a program may use.
    What the verifier would reject is a [Fault]: reading a register that holds
    nothing (the caller-saved registers after a call), an access outside a region,
    arithmetic on a value of the wrong type, a jump backwards or to nowhere, a
    reservation of the ring buffer that is submitted twice or forgotten.

    The kernel a program runs in is the record [Kernel]: the task, whether a
    reservation succeeds and what its memory holds, and which bytes of kernel
    memory can be read. *)
From stdpp Require Import base gmap strings list numbers.
From S2P Require Import Prelude.

Local Open Scope Z_scope.

Inductive Register : Set := R0 | R1 | R2 | R3 | R4 | R5 | R6 | R7 | R8 | R9 | R10.

Definition reg_index (r : Register) : nat :=
  match r with
  | R0 => 0 | R1 => 1 | R2 => 2 | R3 => 3 | R4 => 4 | R5 => 5
  | R6 => 6 | R7 => 7 | R8 => 8 | R9 => 9 | R10 => 10
  end%nat.

Inductive BuiltinFunc : Set :=
| FnGetCurrentTask
| FnRingbufReserve
| FnProbeReadKernel
| FnRingbufSubmit
| FnRingbufDiscard.

Inductive Insn : Set :=
| LoadMem (dst src : Register) (offset : Z)
| LoadMapPtr (dst : Register) (fd : Z)
| MovImm (dst : Register) (value : Z)
| MovReg (dst src : Register)
| AddImm (dst : Register) (value : Z)
| JNEImm (dst : Register) (value : Z) (label : string)
| JEqImm (dst : Register) (value : Z) (label : string)
| Ja (label : string)
| Call (fn : BuiltinFunc)
| Exit.

(** [asm.Instruction]: with the symbol it may carry. *)
Record Instruction := mkIns { ins_Insn : Insn; ins_Symbol : option string }.

Definition ins (i : Insn) : Instruction := mkIns i None.
Definition WithSymbol (s : string) (i : Instruction) : Instruction := mkIns (ins_Insn i) (Some s).

Abbreviation Instructions := (list Instruction).

(** [encodeFunctionReferences]: the position of a symbol. *)
Fixpoint symbolOffset (label : string) (p : Instructions) (i : nat) : option nat :=
  match p with
  | [] => None
  | x :: p' => if bool_decide (ins_Symbol x = Some label) then Some i
               else symbolOffset label p' (S i)
  end.

(** ** Values and memory *)
Definition wrap64 (z : Z) : Z := z `mod` 2 ^ 64.

Inductive Val : Set :=
| VInt (z : Z)
| VCtx
| VStack (offset : Z)
| VRing (offset : Z)
| VMap (fd : Z).

(** The bytes of an integer, in the order of the machine. *)
Fixpoint le_bytes (n : nat) (z : Z) : list Z :=
  match n with
  | O => []
  | S n' => z `mod` 256 :: le_bytes n' (z / 256)
  end.

Fixpoint le_value (l : list Z) : Z :=
  match l with
  | [] => 0
  | b :: l' => b + 256 * le_value l'
  end.

Inductive ByteOrder : Set := LittleEndian | BigEndian.

Definition to_bytes (o : ByteOrder) (n : nat) (z : Z) : list Z :=
  match o with LittleEndian => le_bytes n z | BigEndian => rev (le_bytes n z) end.

Definition of_bytes (o : ByteOrder) (l : list Z) : Z :=
  match o with LittleEndian => le_value l | BigEndian => le_value (rev l) end.

Definition is_byte (b : Z) : Prop := 0 ≤ b < 256.

(** The kernel around one run of a program. *)
Record Kernel := mkKernel {
  k_order : ByteOrder;
  (** [args->ret] of the tracepoint's context, a signed 64-bit integer *)
  k_ret : Z;
  (** [bpf_get_current_task] *)
  k_task : Z;
  (** what the reserved memory holds, or [None] when the buffer is full *)
  k_reserve : option (Z → Z);
  (** the bytes [bpf_probe_read_kernel] can read *)
  k_mem : Z → option Z;
}.

(** [bpf_probe_read_kernel]: all the bytes or a failure. *)
Definition k_read (k : Kernel) (addr : Z) (n : nat) : option (list Z) :=
  mapM (λ i, k_mem k (wrap64 (addr + Z.of_nat i))) (seq 0 n).

(** ** The machine *)
Record Machine := mkMachine {
  m_regs : list (option Val);
  (** the 512 bytes below the frame pointer; [None] is not initialised *)
  m_stack : list (option Z);
  (** the memory of the open reservation *)
  m_reserved : option (list Z);
  (** what was submitted, oldest first, and how many reservations were discarded *)
  m_ring : list (list Z);
  m_discarded : nat;
}.

Definition stackSize : nat := 512.

(** The state a tracepoint program starts in. *)
Definition start : Machine :=
  mkMachine (<[reg_index R10 := Some (VStack 0)]>
               (<[reg_index R1 := Some VCtx]> (replicate 11 None)))
    (replicate stackSize None) None [] 0.

Inductive Outcome :=
| Fault
| Exited (r0 : Z) (m : Machine)
| OutOfFuel.

Definition get (r : Register) (m : Machine) : option Val := m_regs m !! reg_index r ≫= id.

(** The frame pointer is read-only. *)
Definition set (r : Register) (v : Val) (m : Machine) : option Machine :=
  match r with
  | R10 => None
  | _ => Some (mkMachine (<[reg_index r := Some v]> (m_regs m)) (m_stack m) (m_reserved m)
                 (m_ring m) (m_discarded m))
  end.

(** After a call the result is in [R0] and [R1] to [R5] hold nothing. *)
Definition returned (v : Val) (m : Machine) : Machine :=
  mkMachine (Some v :: None :: None :: None :: None :: None :: drop 6 (m_regs m)) (m_stack m)
    (m_reserved m) (m_ring m) (m_discarded m).

Definition add (v : Val) (z : Z) : option Val :=
  match v with
  | VInt x => Some (VInt (wrap64 (x + z)))
  | VStack o => Some (VStack (o + z))
  | VRing o => Some (VRing (o + z))
  | VCtx | VMap _ => None
  end.

(** Comparison with a sign-extended immediate; a pointer only with 0, which it is not. *)
Definition eq_imm (v : Val) (z : Z) : option bool :=
  match v with
  | VInt x => Some (bool_decide (x = wrap64 z))
  | VRing _ => if bool_decide (z = 0) then Some false else None
  | _ => None
  end.

(** Where the bytes [-512 .. -1] of the stack are kept. *)
Definition stackIndex (o : Z) : nat := Z.to_nat (o + Z.of_nat stackSize).

Definition in_stack (o : Z) (n : nat) : bool :=
  (- Z.of_nat stackSize <=? o) && (o + Z.of_nat n <=? 0).
Definition in_ring (o : Z) (n : nat) (l : list Z) : bool :=
  (0 <=? o) && (o + Z.of_nat n <=? Z.of_nat (length l)).

(** Loads of eight bytes: from the context only [args->ret], at offset 16. *)
Definition load (k : Kernel) (m : Machine) (v : Val) (offset : Z) : option Val :=
  match v with
  | VCtx => if bool_decide (offset = 16) then Some (VInt (wrap64 (k_ret k))) else None
  | VStack o =>
      if in_stack (o + offset) 8
      then bs ← mapM id (take 8 (drop (stackIndex (o + offset)) (m_stack m)));
           Some (VInt (of_bytes (k_order k) bs))
      else None
  | _ => None
  end.

(** The destination of [bpf_probe_read_kernel]. *)
Definition store (v : Val) (bs : list Z) (m : Machine) : option Machine :=
  match v with
  | VStack o =>
      if in_stack o (length bs)
      then Some (mkMachine (m_regs m) (list_inserts (stackIndex o) (Some <$> bs) (m_stack m))
                   (m_reserved m) (m_ring m) (m_discarded m))
      else None
  | VRing o =>
      l ← m_reserved m;
      if in_ring o (length bs) l
      then Some (mkMachine (m_regs m) (m_stack m) (Some (list_inserts (Z.to_nat o) bs l))
                   (m_ring m) (m_discarded m))
      else None
  | _ => None
  end.

(** ** Helpers *)
Definition call (k : Kernel) (fn : BuiltinFunc) (m : Machine) : option Machine :=
  match fn with
  | FnGetCurrentTask => Some (returned (VInt (wrap64 (k_task k))) m)
  | FnRingbufReserve =>
      match get R1 m, get R2 m, get R3 m, m_reserved m with
      | Some (VMap _), Some (VInt size), Some (VInt 0), None =>
          match k_reserve k with
          | None => Some (returned (VInt 0) m)
          | Some junk =>
              Some (returned (VRing 0)
                      (mkMachine (m_regs m) (m_stack m)
                         (Some (junk <$> seqZ 0 size)) (m_ring m) (m_discarded m)))
          end
      | _, _, _, _ => None
      end
  | FnProbeReadKernel =>
      match get R1 m, get R2 m, get R3 m with
      | Some dst, Some (VInt size), Some (VInt src) =>
          let n := Z.to_nat size in
          match k_read k src n with
          | Some bs => m' ← store dst bs m; Some (returned (VInt 0) m')
          | None => (* the destination is cleared and -EFAULT returned *)
              m' ← store dst (replicate n 0) m; Some (returned (VInt (wrap64 (-14))) m')
          end
      | _, _, _ => None
      end
  | FnRingbufSubmit =>
      match get R1 m, get R2 m, m_reserved m with
      | Some (VRing 0), Some (VInt 0), Some l =>
          Some (returned (VInt 0)
                  (mkMachine (m_regs m) (m_stack m) None (m_ring m ++ [l]) (m_discarded m)))
      | _, _, _ => None
      end
  | FnRingbufDiscard =>
      match get R1 m, get R2 m, m_reserved m with
      | Some (VRing 0), Some (VInt 0), Some _ =>
          Some (returned (VInt 0)
                  (mkMachine (m_regs m) (m_stack m) None (m_ring m) (S (m_discarded m))))
      | _, _, _ => None
      end
  end.

(** ** Execution *)

(** The effect of one instruction: where to go on, or the end. *)
Inductive Next :=
| Continue (pc : nat) (m : Machine)
| Stop (r0 : Z) (m : Machine).

(** Only forward jumps. *)
Definition jump (p : Instructions) (pc : nat) (label : string) (m : Machine) : option Next :=
  t ← symbolOffset label p 0;
  if bool_decide (pc < t)%nat then Some (Continue t m) else None.

Definition execInsn (k : Kernel) (p : Instructions) (pc : nat) (i : Insn) (m : Machine) : option Next :=
  match i with
  | LoadMem dst src offset =>
      a ← get src m; v ← load k m a offset; m' ← set dst v m; Some (Continue (S pc) m')
  | LoadMapPtr dst fd =>
      if bool_decide (fd < 0) then None
      else m' ← set dst (VMap fd) m; Some (Continue (S pc) m')
  | MovImm dst v => m' ← set dst (VInt (wrap64 v)) m; Some (Continue (S pc) m')
  | MovReg dst src => v ← get src m; m' ← set dst v m; Some (Continue (S pc) m')
  | AddImm dst z => v ← get dst m; v' ← add v z; m' ← set dst v' m; Some (Continue (S pc) m')
  | JNEImm dst z l =>
      v ← get dst m; b ← eq_imm v z;
      if b : bool then Some (Continue (S pc) m) else jump p pc l m
  | JEqImm dst z l =>
      v ← get dst m; b ← eq_imm v z;
      if b : bool then jump p pc l m else Some (Continue (S pc) m)
  | Ja l => jump p pc l m
  | Call fn => m' ← call k fn m; Some (Continue (S pc) m')
  | Exit =>
      match get R0 m, m_reserved m with
      | Some (VInt z), None => Some (Stop z m)
      | _, _ => None
      end
  end.

Fixpoint exec (k : Kernel) (p : Instructions) (fuel : nat) (pc : nat) (m : Machine) : Outcome :=
  match fuel with
  | O => OutOfFuel
  | S fuel' =>
      match p !! pc ≫= λ x, execInsn k p pc (ins_Insn x) m with
      | None => Fault
      | Some (Stop z m') => Exited z m'
      | Some (Continue pc' m') => exec k p fuel' pc' m'
      end
  end.

(** A program ends after at most as many steps as it has instructions. *)
Definition run (k : Kernel) (p : Instructions) : Outcome := exec k p (S (length p)) 0 start.

(** ** Facts *)
Lemma symbolOffset_bound l p i t : symbolOffset l p i = Some t → (t < i + length p)%nat.
Proof.
  revert i. induction p as [|x p IH]; intros i; cbn; [done|].
  case_bool_decide; [intros [= <-]; lia|]. intros Ht%IH. lia.
Qed.

Lemma jump_forward p pc l m n :
  jump p pc l m = Some n → ∃ t, n = Continue t m ∧ (pc < t < length p)%nat.
Proof.
  unfold jump. destruct (symbolOffset l p 0) as [t|] eqn:E; cbn; [|done].
  apply symbolOffset_bound in E. case_bool_decide; [|done]. intros [= <-]. by exists t.
Qed.

Lemma execInsn_forward k p pc i m pc' m' :
  (pc < length p)%nat →
  execInsn k p pc i m = Some (Continue pc' m') → (pc < pc' ≤ length p)%nat.
Proof.
  intros Hpc H. destruct i; cbn in H;
    repeat match goal with
    | H : (_ ≫= _) = Some _ |- _ => apply bind_Some in H as (? & ? & H)
    | H : (if ?b then _ else _) = Some _ |- _ => destruct b
    | H : match ?x with _ => _ end = Some _ |- _ => destruct x
    | H : jump _ _ _ _ = Some _ |- _ => apply jump_forward in H as (? & [= -> ->] & ?)
    | H : Some (Continue _ _) = Some (Continue _ _) |- _ => injection H as <- <-
    end; try done; lia.
Qed.

(** Execution never runs out of fuel. *)
Lemma exec_enough k p fuel pc m :
  (pc ≤ length p < pc + fuel)%nat → exec k p fuel pc m ≠ OutOfFuel.
Proof.
  revert pc m. induction fuel as [|fuel IH]; intros pc m Hf; cbn; [lia|].
  destruct (p !! pc) as [x|] eqn:Ex; cbn; [|done]. apply lookup_lt_Some in Ex.
  destruct (execInsn k p pc (ins_Insn x) m) as [[pc' m'|z m']|] eqn:E; [|done..].
  apply execInsn_forward in E; [|done]. apply IH. lia.
Qed.

Lemma run_terminates k p : run k p ≠ OutOfFuel.
Proof. apply exec_enough. lia. Qed.

(** Bytes *)
Lemma length_le_bytes n z : length (le_bytes n z) = n.
Proof. revert z. induction n; intros; cbn; auto. Qed.

Lemma length_to_bytes o n z : length (to_bytes o n z) = n.
Proof. destruct o; cbn; rewrite ?length_rev; apply length_le_bytes. Qed.

Lemma le_value_bytes n z : 0 ≤ z < 256 ^ Z.of_nat n → le_value (le_bytes n z) = z.
Proof.
  revert z. induction n as [|n IH]; intros z Hz; cbn.
  { cbn in Hz. lia. }
  rewrite Nat2Z.inj_succ, Z.pow_succ_r in Hz by lia.
  rewrite IH.
  - pose proof (Z.div_mod z 256). lia.
  - split; [apply Z.div_pos; lia|]. apply Z.div_lt_upper_bound; lia.
Qed.

Lemma of_to_bytes o n z : 0 ≤ z < 256 ^ Z.of_nat n → of_bytes o (to_bytes o n z) = z.
Proof. destruct o; cbn; rewrite ?rev_involutive; apply le_value_bytes. Qed.

Lemma length_k_read k a n bs : k_read k a n = Some bs → length bs = n.
Proof. unfold k_read. intros H%length_mapM. by rewrite <-H, length_seq. Qed.

(** What was stored on the stack is what is loaded. *)
Lemma mapM_id_Some (l : list Z) : mapM id (Some <$> l) = Some l.
Proof. by apply mapM_fmap_Some. Qed.

Lemma take_drop_inserts {A} (i : nat) (k l : list A) :
  (i + length k ≤ length l)%nat → take (length k) (drop i (list_inserts i k l)) = k.
Proof.
  intros H. apply list_eq. intros j. destruct (decide (j < length k)%nat) as [Hj|Hj].
  - rewrite lookup_take_lt, lookup_drop, list_lookup_inserts by lia. f_equal. lia.
  - rewrite lookup_take_ge by lia. by rewrite lookup_ge_None_2 by lia.
Qed.
