(* ===== verification/Tracepoint.v ===== *)
(** * The exec format error tracepoint

    [internal/controller/enoexecevent/daemon/internal/tracepoint]: the eBPF program
    that is attached to the exit of [execve] ([tracepoint_program.go]), and what
    the daemon makes of the records it submits ([tracepoint.go],
    [tracepoint_helpers.go]). *)
From Stdlib Require Import Ascii.
From stdpp Require Import base gmap strings list numbers.
From S2P Require Import Prelude GoStd Bpf.

Local Open Scope Z_scope.

Definition ExitLabel := "exit".
Definition CleanupLabel := "cleanup".
Definition PayloadSize : Z := 8.

(** ** The program *)

(** Leave when the return value is not [-ENOEXEC]. *)
Definition jExitIfNoENOEXEC : Instructions :=
  [ ins (LoadMem R0 R1 16); ins (JNEImm R0 (-8) "exit") ].

(** [R6] is the current task. *)
Definition getCurrentTask : Instructions :=
  [ ins (Call FnGetCurrentTask); ins (MovReg R6 R0) ].

(** [R7] is the reserved space. *)
Definition ringBufReserve (fd : Z) : Instructions :=
  [ ins (LoadMapPtr R1 fd); ins (MovImm R2 PayloadSize); ins (MovImm R3 0);
    ins (Call FnRingbufReserve); ins (JEqImm R0 0 ExitLabel); ins (MovReg R7 R0) ].

Definition loadIntoRingBufEvent (srcReg : Register) (srcOffset size dstOffset : Z) : Instructions :=
  [ ins (MovReg R1 R7); ins (AddImm R1 dstOffset); ins (MovImm R2 size);
    ins (MovReg R3 srcReg); ins (AddImm R3 srcOffset); ins (Call FnProbeReadKernel);
    ins (JNEImm R0 0 CleanupLabel) ].

(** [R8] is the real parent. *)
Definition loadRealParent (offset : Z) : Instructions :=
  [ ins (MovReg R1 R10); ins (AddImm R1 (-8)); ins (MovImm R2 8); ins (MovReg R3 R6);
    ins (AddImm R3 offset); ins (Call FnProbeReadKernel); ins (JNEImm R0 0 CleanupLabel);
    ins (LoadMem R8 R10 (-8)); ins (JEqImm R8 0 CleanupLabel) ].

Definition submitEvent : Instructions :=
  [ ins (MovReg R1 R7); ins (MovImm R2 0); ins (Call FnRingbufSubmit); ins (Ja ExitLabel) ].

Definition rollbackEvent : Instructions :=
  [ WithSymbol CleanupLabel (ins (MovReg R1 R7)); ins (MovImm R2 0);
    ins (Call FnRingbufDiscard) ].

Definition exit_ : Instructions := [ WithSymbol ExitLabel (ins (MovImm R0 0)); ins Exit ].

Definition program (fd tgidOffset realParentOffset : Z) : Instructions :=
  jExitIfNoENOEXEC ++ getCurrentTask ++ ringBufReserve fd
  ++ loadIntoRingBufEvent R6 tgidOffset 4 4
  ++ loadRealParent realParentOffset
  ++ loadIntoRingBufEvent R8 tgidOffset 4 0
  ++ submitEvent ++ rollbackEvent ++ exit_.

(** [initializeProgSpec], given the descriptor of the events map and the offsets. *)
Definition initializeProgSpec (eventsFD : Z) (tgidOffset realParentOffset : option Z) :
    res Instructions :=
  if bool_decide (eventsFD = 0) then Err (errOther "events map FD is not set")
  else match tgidOffset, realParentOffset with
       | Some t, Some p => Ok (program eventsFD t p)
       | _, _ => Err (errOther "tgidOffset or realParentOffset is not set")
       end.

(** ** What the program should do

    The record for a failed [execve]: the thread group of the parent, then the one
    of the task. *)
Definition enoexecRecord (k : Kernel) (tgidOffset realParentOffset : Z) : option (list Z) :=
  if bool_decide (wrap64 (k_ret k) = wrap64 (-8)) then
    _ ← k_reserve k;
    current ← k_read k (wrap64 (wrap64 (k_task k) + tgidOffset)) 4;
    pointer ← k_read k (wrap64 (wrap64 (k_task k) + realParentOffset)) 8;
    let parent := of_bytes (k_order k) pointer in
    if bool_decide (parent = 0) then None
    else
      real_parent ← k_read k (wrap64 (parent + tgidOffset)) 4;
      Some (real_parent ++ current)
  else None.

(** Whether the run reserves space. *)
Definition reserves (k : Kernel) : bool :=
  bool_decide (wrap64 (k_ret k) = wrap64 (-8)) && bool_decide (is_Some (k_reserve k)).

(** ** The program meets it *)
Section program.
Context (k : Kernel) (fd tgid parent : Z) (fd_pos : 0 < fd).

Abbreviation p := (program fd tgid parent).

Lemma exit_offset : symbolOffset "exit" p 0 = Some 40%nat.
Proof. reflexivity. Qed.
Lemma cleanup_offset : symbolOffset "cleanup" p 0 = Some 37%nat.
Proof. reflexivity. Qed.

Lemma exec_S n pc m x :
  p !! pc = Some x →
  exec k p (S n) pc m =
  match execInsn k p pc (ins_Insn x) m with
  | None => Fault
  | Some (Stop z m') => Exited z m'
  | Some (Continue pc' m') => exec k p n pc' m'
  end.
Proof. intros Hx. cbn [exec]. by rewrite Hx. Qed.

(** Execute one instruction of the program. *)
Ltac exec1 :=
  cbn [Nat.add]; erewrite exec_S by reflexivity;
  cbn -[exec program wrap64 k_read of_bytes store load list_inserts bool_decide
        symbolOffset seqZ];
  change (wrap64 0) with 0; change (wrap64 4) with 4; change (wrap64 8) with 8;
  cbn -[exec program wrap64 k_read of_bytes store load list_inserts bool_decide
        symbolOffset seqZ];
  unfold jump; change ExitLabel with "exit"; change CleanupLabel with "cleanup";
  rewrite ?exit_offset, ?cleanup_offset; cbn [mbind option_bind];
  rewrite ?(bool_decide_eq_true_2 (_ < _)%nat) by lia; cbv beta iota.

(** The registers the program uses. *)
Definition file (r0 r1 r2 r3 r6 r7 r8 : option Val) : list (option Val) :=
  [r0; r1; r2; r3; None; None; r6; r7; r8; None; Some (VStack 0)].

Definition finished (o : Outcome) (ring : list (list Z)) (discarded : nat) : Prop :=
  ∃ m, o = Exited 0 m ∧ m_reserved m = None ∧ m_ring m = ring ∧ m_discarded m = discarded.

(** The run ends with the record [r] submitted, or the reservation discarded. *)
Definition ends (r : option (list Z)) (o : Outcome) (ring : list (list Z)) (d : nat) : Prop :=
  match r with
  | Some bs => finished o (ring ++ [bs]) d
  | None => finished o ring (S d)
  end.

Lemma exit_ok n r0 r1 r2 r3 r6 r7 r8 st ring d :
  finished (exec k p (2 + n) 40 (mkMachine (file r0 r1 r2 r3 r6 r7 r8) st None ring d)) ring d.
Proof. do 2 exec1. by eexists. Qed.

Lemma cleanup_ok n r0 r1 r2 r3 r6 r8 st l ring d :
  finished (exec k p (5 + n) 37 (mkMachine (file r0 r1 r2 r3 r6 (Some (VRing 0)) r8) st (Some l) ring d))
    ring (S d).
Proof. do 3 exec1. apply (exit_ok n (Some (VInt 0)) None None None). Qed.

Lemma submit_ok n r0 r1 r2 r3 r6 r8 st l ring d :
  finished (exec k p (6 + n) 33 (mkMachine (file r0 r1 r2 r3 r6 (Some (VRing 0)) r8) st (Some l) ring d))
    (ring ++ [l]) d.
Proof. do 4 exec1. apply (exit_ok n (Some (VInt 0)) None None None). Qed.

Lemma store_ring o bs l regs st ring d :
  0 ≤ o → o + Z.of_nat (length bs) ≤ Z.of_nat (length l) →
  store (VRing o) bs (mkMachine regs st (Some l) ring d)
  = Some (mkMachine regs st (Some (list_inserts (Z.to_nat o) bs l)) ring d).
Proof.
  intros H1 H2. cbn. unfold in_ring.
  by rewrite (proj2 (Z.leb_le _ _) H1), (proj2 (Z.leb_le _ _) H2).
Qed.

(** Storing the thread group of the parent. *)
Lemma parent_tgid_ok n r0 r1 r2 r3 r6 q st l ring d :
  length l = 8%nat →
  ends (bs ← k_read k (wrap64 (q + tgid)) 4; Some (list_inserts 0 bs l))
    (exec k p (13 + n) 26
      (mkMachine (file r0 r1 r2 r3 r6 (Some (VRing 0)) (Some (VInt q))) st (Some l) ring d)) ring d.
Proof.
  intros Hl. do 5 exec1. exec1. change (Z.to_nat 4) with 4%nat.
  destruct (k_read k (wrap64 (q + tgid)) 4) as [bs|] eqn:E.
  - apply length_k_read in E. rewrite store_ring by (rewrite ?E, ?Hl; lia).
    cbn [mbind option_bind]. exec1. rewrite (bool_decide_eq_true_2 (0 = 0)) by done.
    apply (submit_ok n (Some (VInt 0)) None None None).
  - rewrite store_ring by (rewrite ?Hl; cbn; lia). cbn [mbind option_bind]. exec1.
    rewrite (bool_decide_eq_false_2 (wrap64 (-14) = 0)) by done.
    apply (cleanup_ok (1 + n) (Some (VInt (wrap64 (-14)))) None None None).
Qed.

(** The pointer to the parent goes through the last eight bytes of the stack. *)
Definition spill (bs : list Z) (st : list (option Z)) : list (option Z) :=
  list_inserts (stackIndex (-8)) (Some <$> bs) st.

Lemma store_stack bs regs st l ring d :
  length bs = 8%nat →
  store (VStack (-8)) bs (mkMachine regs st l ring d) = Some (mkMachine regs (spill bs st) l ring d).
Proof. intros H. cbn. unfold in_stack. by rewrite H. Qed.

Lemma load_stack bs regs st l ring d :
  length bs = 8%nat → length st = stackSize →
  load k (mkMachine regs (spill bs st) l ring d) (VStack 0) (-8)
  = Some (VInt (of_bytes (k_order k) bs)).
Proof.
  intros Hb Hs. unfold load. change (in_stack (0 + -8) 8) with true. cbv iota. cbn [m_stack].
  change (stackIndex (0 + -8)) with (stackIndex (-8)). unfold spill.
  replace 8%nat with (length (Some <$> bs)) at 1 by (by rewrite length_fmap).
  rewrite take_drop_inserts, mapM_id_Some; [done|].
  rewrite length_fmap, Hb, Hs. vm_compute. lia.
Qed.

(** From the read of [real_parent] on. *)
Lemma real_parent_ok n r0 r1 r2 r3 t r8 st l ring d :
  length st = stackSize → length l = 8%nat →
  ends (pointer ← k_read k (wrap64 (t + parent)) 8;
        if bool_decide (of_bytes (k_order k) pointer = 0) then None
        else bs ← k_read k (wrap64 (of_bytes (k_order k) pointer + tgid)) 4;
             Some (list_inserts 0 bs l))
    (exec k p (22 + n) 17
      (mkMachine (file r0 r1 r2 r3 (Some (VInt t)) (Some (VRing 0)) r8) st (Some l) ring d)) ring d.
Proof.
  intros Hs Hl. do 6 exec1. change (Z.to_nat 8) with 8%nat.
  destruct (k_read k (wrap64 (t + parent)) 8) as [bs|] eqn:E; cbn [mbind option_bind].
  - apply length_k_read in E. rewrite store_stack by done. cbn [mbind option_bind].
    exec1. rewrite (bool_decide_eq_true_2 (0 = 0)) by done. exec1. unfold returned.
    cbn [drop id lookup list_lookup m_regs m_stack m_reserved m_ring m_discarded mbind option_bind].
    rewrite load_stack by done.
    cbn [mbind option_bind]. exec1. case_bool_decide.
    + apply (cleanup_ok (8 + n) (Some (VInt 0)) None None None).
    + apply (parent_tgid_ok n (Some (VInt 0)) None None None); done.
  - rewrite store_stack by done. cbn [mbind option_bind]. exec1.
    rewrite (bool_decide_eq_false_2 (wrap64 (-14) = 0)) by done.
    apply (cleanup_ok (10 + n) (Some (VInt (wrap64 (-14)))) None None None).
Qed.

Lemma two_words (par cur l : list Z) :
  length par = 4%nat → length cur = 4%nat → length l = 8%nat →
  list_inserts 0 par (list_inserts (Z.to_nat 4) cur l) = par ++ cur.
Proof.
  intros. do 4 (destruct par as [|? par]; [done|]). do 4 (destruct cur as [|? cur]; [done|]).
  do 8 (destruct l as [|? l]; [done|]). by destruct par, cur, l.
Qed.

(** From the read of the task's own thread group on. *)
Lemma task_tgid_ok n r0 r1 r2 r3 t r8 st l ring d :
  length st = stackSize → length l = 8%nat →
  ends (current ← k_read k (wrap64 (t + tgid)) 4;
        pointer ← k_read k (wrap64 (t + parent)) 8;
        if bool_decide (of_bytes (k_order k) pointer = 0) then None
        else real_parent ← k_read k (wrap64 (of_bytes (k_order k) pointer + tgid)) 4;
             Some (real_parent ++ current))
    (exec k p (29 + n) 10
      (mkMachine (file r0 r1 r2 r3 (Some (VInt t)) (Some (VRing 0)) r8) st (Some l) ring d)) ring d.
Proof.
  intros Hs Hl. do 6 exec1. change (Z.to_nat 4) with 4%nat.
  destruct (k_read k (wrap64 (t + tgid)) 4) as [cur|] eqn:E; cbn [mbind option_bind].
  - apply length_k_read in E. rewrite store_ring by (rewrite ?E, ?Hl; lia). cbn [mbind option_bind].
    exec1. rewrite (bool_decide_eq_true_2 (0 = 0)) by done.
    pose proof (real_parent_ok n (Some (VInt 0)) None None None t r8 st
      (list_inserts (Z.to_nat 4) cur l) ring d Hs ltac:(by rewrite length_inserts)) as H.
    refine (eq_rect _ (λ x, ends x _ _ _) H _ _). clear H.
    destruct (k_read k (wrap64 (t + parent)) 8) as [bs|]; cbn [mbind option_bind]; [|done].
    case_bool_decide; [done|].
    destruct (k_read k (wrap64 (of_bytes (k_order k) bs + tgid)) 4) as [par|] eqn:Ep;
      cbn [mbind option_bind]; [|done].
    apply length_k_read in Ep. f_equal. by apply two_words.
  - rewrite store_ring by (rewrite ?Hl; cbn; lia). cbn [mbind option_bind]. exec1.
    rewrite (bool_decide_eq_false_2 (wrap64 (-14) = 0)) by done.
    apply (cleanup_ok (17 + n) (Some (VInt (wrap64 (-14)))) None None None).
Qed.

(** From the reservation on. *)
Lemma reserve_ok n r0 r1 r2 r3 t r7 r8 st :
  length st = stackSize →
  let o := exec k p (35 + n) 4 (mkMachine (file r0 r1 r2 r3 (Some (VInt t)) r7 r8) st None [] 0) in
  match k_reserve k with
  | None => finished o [] 0
  | Some _ =>
      ends (current ← k_read k (wrap64 (t + tgid)) 4;
            pointer ← k_read k (wrap64 (t + parent)) 8;
            if bool_decide (of_bytes (k_order k) pointer = 0) then None
            else real_parent ← k_read k (wrap64 (of_bytes (k_order k) pointer + tgid)) 4;
                 Some (real_parent ++ current)) o [] 0
  end.
Proof using fd_pos.
  intros Hs. cbv zeta. exec1. rewrite (bool_decide_eq_false_2 (fd < 0)) by lia. cbn [mbind option_bind].
  do 3 exec1. destruct (k_reserve k) as [junk|]; cbn [mbind option_bind].
  - exec1. rewrite (bool_decide_eq_true_2 (0 = 0)) by done. cbn [mbind option_bind]. exec1.
    apply (task_tgid_ok n (Some (VRing 0)) None None None); [done|].
    by rewrite length_fmap, length_seqZ.
  - exec1. rewrite (bool_decide_eq_true_2 (0 = 0)) by done.
    apply (exit_ok (28 + n) (Some (VInt 0)) None None None).
Qed.

(** The run of the program, by execution instruction by instruction. *)
Lemma program_runs :
  ∃ m, run k p = Exited 0 m ∧ m_reserved m = None
  ∧ m_ring m = option_list (enoexecRecord k tgid parent)
  ∧ m_discarded m = (if reserves k && negb (bool_decide (is_Some (enoexecRecord k tgid parent)))
                     then 1 else 0)%nat.
Proof using fd_pos.
  match goal with |- ∃ m, _ ∧ _ ∧ _ = ?r ∧ _ = ?d => change (finished (exec k p 43 0 start) r d) end.
  unfold start, enoexecRecord, reserves.
  assert (length (replicate stackSize (@None Z)) = stackSize) as Hs by apply length_replicate.
  revert Hs. generalize (replicate stackSize (@None Z)). intros st Hs.
  exec1. unfold load. rewrite (bool_decide_eq_true_2 (16 = 16)) by done. cbn [mbind option_bind].
  exec1. case_bool_decide as Hret; cbn [andb].
  - do 2 exec1.
    pose proof (reserve_ok 4 (Some (VInt (wrap64 (k_task k)))) None None None
      (wrap64 (k_task k)) None None st Hs) as H.
    cbv zeta in H.
    destruct (k_reserve k) as [junk|]; cbn [mbind option_bind];
      [rewrite bool_decide_eq_true_2 by eauto|by rewrite bool_decide_eq_false_2 by (by intros [? ?])].
    cbn [andb].
    match type of H with ends ?r _ _ _ => destruct r as [bs|] end.
    + by rewrite bool_decide_eq_true_2 by eauto.
    + by rewrite bool_decide_eq_false_2 by (by intros [? ?]).
  - apply (exit_ok 39 (Some (VInt (wrap64 (k_ret k)))) (Some VCtx) None None None None None st [] 0).
Qed.
End program.

(** C16: the tracepoint's program is safe and does its job in every kernel: once the
    map and the offsets are there, the program that is loaded ends within its own
    length, without a fault the verifier would object to, and has submitted exactly
    the record of a failed [execve] whose task and parent can be read, and nothing
    for any other event; every reservation it makes is submitted or discarded. *)
Theorem program_correct k eventsFD tgidOffset realParentOffset p :
  0 ≤ eventsFD → initializeProgSpec eventsFD tgidOffset realParentOffset = Ok p →
  ∃ tgid parent m, tgidOffset = Some tgid ∧ realParentOffset = Some parent
  ∧ run k p = Exited 0 m ∧ m_reserved m = None
  ∧ m_ring m = option_list (enoexecRecord k tgid parent)
  ∧ m_discarded m = (if reserves k && negb (bool_decide (is_Some (enoexecRecord k tgid parent)))
                     then 1 else 0)%nat.
Proof.
  unfold initializeProgSpec. intros Hfd. case_bool_decide; [done|].
  destruct tgidOffset as [tgid|], realParentOffset as [parent|]; try done. intros [= <-].
  destruct (program_runs k eventsFD tgid parent) as [m Hm]; [lia|]. by exists tgid, parent, m.
Qed.
