(* ===== verification/TracepointUser.v ===== *)
(** * The tracepoint in user land

    [tracepoint.go] and [tracepoint_helpers.go]: sizing the ring buffer, finding the
    offsets the program needs, attaching it, and turning the records it submits
    into events that name a pod and a container. *)
From Stdlib Require Import Ascii.
From stdpp Require Import base gmap strings list numbers.
From S2P Require Import Prelude GoStd Api Models Prog Bpf Tracepoint.
Import models.

Local Open Scope Z_scope.

(** ** [NewTracepoint]: the size of the buffer and the byte order *)
Definition uint32 (z : Z) : Z := z `mod` 2 ^ 32.

(** [uint32(math.Ceil(float64(a) / float64(b)))]: the quotient of two 32-bit
    integers is an integer or at least [1/b] away from one, which is more than a
    double rounds, so the result is the exact one. *)
Definition ceilDiv (a b : Z) : Z := uint32 ((a + b - 1) / b).

Definition bufferSize (ps maxEvents : Z) : res Z :=
  if (ps <=? 0) || (4294967295 <? ps) then Err (errOther "invalid page size")
  else
    let pageSize := uint32 ps in
    let payloadSize := PayloadSize + 8 in
    Ok (uint32 (pageSize * ceilDiv (uint32 (maxEvents * payloadSize)) pageSize)).

(** The first byte of a 16-bit 1 in memory tells the order of the machine. *)
Definition detectOrder (machine : ByteOrder) : ByteOrder :=
  match to_bytes machine 2 1 with
  | 0 :: _ => BigEndian
  | _ => LittleEndian
  end.

Lemma detectOrder_ok o : detectOrder o = o.
Proof. by destruct o. Qed.

(** C37: the ring buffer that is asked for is a whole number of pages and holds
    [maxEvents] records of 16 bytes, with less than a page to spare, as long as
    that size fits in 32 bits. *)
Theorem bufferSize_ok (ps maxEvents : Z) :
  0 < ps → 0 ≤ maxEvents → maxEvents * 16 + ps ≤ 2 ^ 32 - 1 →
  ∃ pages, bufferSize ps maxEvents = Ok (pages * ps)
  ∧ maxEvents * 16 ≤ pages * ps < maxEvents * 16 + ps.
Proof.
  intros Hps Hm Hb. unfold bufferSize, ceilDiv, uint32, PayloadSize.
  change (8 + 8) with 16. rewrite (proj2 (Z.leb_gt ps 0)), (proj2 (Z.ltb_ge _ _)) by lia. cbn [orb].
  rewrite (Z.mod_small ps), (Z.mod_small (maxEvents * 16)) by lia.
  set (q := (maxEvents * 16 + ps - 1) / ps).
  pose proof (Z.div_mod (maxEvents * 16 + ps - 1) ps ltac:(lia)) as Hd. fold q in Hd.
  pose proof (Z.mod_pos_bound (maxEvents * 16 + ps - 1) ps Hps).
  assert (0 ≤ q) by (apply Z.div_pos; lia).
  assert (q * 1 ≤ q * ps) by (apply Z.mul_le_mono_nonneg_l; lia).
  exists q. rewrite (Z.mod_small q), (Z.mod_small (ps * q)) by lia.
  split; [by rewrite Z.mul_comm|lia].
Qed.

(** ** [initializeOffsets] *)

(** [btf.Member] and [btf.Bits.Bytes] *)
Record Member := mkMember { mb_Name : string; mb_Offset : Z }.
Definition Bytes (bits : Z) : Z := uint32 (bits / 8).

Record Scan := mkScan { sc_realParent : Z; sc_tgid : Z; sc_flags : Z }.
Definition realParentFound : Z := Z.shiftl 1 0.
Definition tgidFound : Z := Z.shiftl 1 1.

Definition scanRealParent (m : Member) (s : Scan) : res Scan :=
  if bool_decide (mb_Name m = "real_parent") then
    let offset := Bytes (mb_Offset m) in
    if 2147483647 <? offset then Err (errOther "real_parent offset too large")
    else Ok (mkScan offset (sc_tgid s) (Z.lor (sc_flags s) realParentFound))
  else Ok s.

Definition scanTgid (m : Member) (s : Scan) : res Scan :=
  if bool_decide (mb_Name m = "tgid") then
    let offset := Bytes (mb_Offset m) in
    if 2147483647 <? offset then Err (errOther "tgid offset too large")
    else Ok (mkScan (sc_realParent s) offset (Z.lor (sc_flags s) tgidFound))
  else Ok s.

Fixpoint scanMembers (l : list Member) (s : Scan) : res Scan :=
  match l with
  | [] => Ok s
  | m :: l' => s1 ← scanRealParent m s; s2 ← scanTgid m s1; scanMembers l' s2
  end.

(** The [real_parent] and [tgid] offsets of [task_struct]. *)
Definition initializeOffsets (members : list Member) : res (Z * Z) :=
  s ← scanMembers members (mkScan 0 0 0);
  if negb (bool_decide (sc_flags s = Z.lor realParentFound tgidFound))
  then Err (errOther "failed to find real_parent or tgid in task_struct")
  else Ok (sc_realParent s, sc_tgid s).

(** What the scan computes: the last member of each name. *)
Definition offsetOf (name : string) (l : list Member) : option Z :=
  (Bytes ∘ mb_Offset) <$> list.last (filter (λ m, mb_Name m = name) l).

Definition flag (b : Z) (o : option Z) : Z := match o with Some _ => b | None => 0 end.

Definition scanned (rp tg : option Z) : Scan :=
  mkScan (default 0 rp) (default 0 tg) (Z.lor (flag realParentFound rp) (flag tgidFound tg)).

Definition bits_ok (m : Member) : Prop := 0 ≤ mb_Offset m < 2 ^ 32.

Lemma Bytes_bound m : bits_ok m → (2147483647 <? Bytes (mb_Offset m)) = false.
Proof.
  intros [H1 H2]. apply Z.ltb_ge. unfold Bytes, uint32.
  assert (mb_Offset m / 8 < 2 ^ 29) by (apply Z.div_lt_upper_bound; lia).
  assert (0 ≤ mb_Offset m / 8) by (apply Z.div_pos; lia).
  rewrite Z.mod_small; lia.
Qed.

Lemma offsetOf_snoc name l m :
  offsetOf name (l ++ [m])
  = if bool_decide (mb_Name m = name) then Some (Bytes (mb_Offset m)) else offsetOf name l.
Proof.
  unfold offsetOf. rewrite list.filter_app, list.filter_cons, list.filter_nil.
  case_bool_decide; [rewrite decide_True by done|rewrite decide_False by done].
  - by rewrite list.last_snoc.
  - by rewrite app_nil_r.
Qed.

Lemma scanMembers_app l1 l2 s :
  scanMembers (l1 ++ l2) s = (s1 ← scanMembers l1 s; scanMembers l2 s1).
Proof.
  revert s. induction l1 as [|m l1 IH]; intros s; [done|]. cbn.
  destruct (scanRealParent m s) as [s1|]; [cbn|done].
  destruct (scanTgid m s1) as [s2|]; [cbn|done]. apply IH.
Qed.

Lemma scanMembers_ok l :
  Forall bits_ok l →
  scanMembers l (mkScan 0 0 0) = Ok (scanned (offsetOf "real_parent" l) (offsetOf "tgid" l)).
Proof.
  induction l as [|m l IH] using rev_ind; intros Hl; [done|].
  apply Forall_app in Hl as [Hl Hm]. apply Forall_cons_1 in Hm as [Hm _].
  rewrite scanMembers_app, IH by done. cbn [mbind res_bind scanMembers].
  unfold scanRealParent, scanTgid. rewrite !offsetOf_snoc, Bytes_bound by done.
  case_bool_decide as H1; cbn [mbind res_bind]; case_bool_decide as H2; cbn [mbind res_bind];
    [congruence| | |done];
    by destruct (offsetOf "real_parent" l), (offsetOf "tgid" l).
Qed.

(** The offsets given to the program are those of the [real_parent] and [tgid]
    members of the kernel's [task_struct], whatever else it has and in whatever
    order; they are 31-bit integers, and without one of the members there is an error. *)
Theorem initializeOffsets_ok (l : list Member) :
  Forall bits_ok l →
  match offsetOf "real_parent" l, offsetOf "tgid" l with
  | Some p, Some t =>
      initializeOffsets l = Ok (p, t) ∧ 0 ≤ p ≤ maxInt32 ∧ 0 ≤ t ≤ maxInt32
  | _, _ => ∃ e, initializeOffsets l = Err e
  end.
Proof.
  intros Hl. unfold initializeOffsets. rewrite scanMembers_ok by done. cbn [mbind res_bind].
  assert (∀ name o, offsetOf name l = Some o → 0 ≤ o ≤ maxInt32) as Hb.
  { intros name o Ho. unfold offsetOf in Ho. apply fmap_Some in Ho as (m & Hm & ->).
    apply list.last_Some_elem_of, list_elem_of_filter in Hm as [_ Hm].
    rewrite list.Forall_forall in Hl. specialize (Hl m Hm).
    pose proof (Bytes_bound m Hl) as Hn%Z.ltb_ge. split; [|exact Hn].
    by apply Z.mod_pos_bound. }
  destruct (offsetOf "real_parent" l) as [p|] eqn:Ep; destruct (offsetOf "tgid" l) as [t|] eqn:Et;
    cbn; eauto.
Qed.

(** ** Strings *)
Fixpoint sdrop (n : nat) (s : string) : string :=
  match n, s with
  | O, _ => s
  | S n', String _ s' => sdrop n' s'
  | S _, EmptyString => ""
  end.

Fixpoint stake (n : nat) (s : string) : string :=
  match n, s with
  | S n', String c s' => String c (stake n' s')
  | _, _ => ""
  end.

(** [strings.TrimSuffix(s, suffix)] *)
Fixpoint trimSuffix (s suffix : string) : string :=
  if bool_decide (s = suffix) then ""
  else match s with
       | EmptyString => ""
       | String c s' => String c (trimSuffix s' suffix)
       end.

(** [strings.Replace(s, old, new, 1)] for a non-empty [old] *)
Fixpoint replaceFirst (s old new : string) : string :=
  if hasPrefix s old then new +:+ sdrop (String.length old) s
  else match s with
       | EmptyString => ""
       | String c s' => String c (replaceFirst s' old new)
       end.

(** [strings.ReplaceAll(s, old, new)] for single characters *)
Fixpoint replaceChar (old new : ascii) (s : string) : string :=
  match s with
  | EmptyString => ""
  | String c s' => String (if bool_decide (c = old) then new else c) (replaceChar old new s')
  end.

(** [bufio.Scanner] over lines: a line of [MaxScanTokenSize] bytes or more is an
    error, a final empty line is no line, and a carriage return before the end
    of a line is dropped. *)
Definition MaxScanTokenSize : Z := 65536.
Definition LF : ascii := "010".
Definition CR : string := String "013"%char "".

Fixpoint dropLastEmpty (l : list string) : list string :=
  match l with
  | [] | [""] => []
  | x :: l' => x :: dropLastEmpty l'
  end.

Definition scanLines (text : string) : res (list string) :=
  let l := dropLastEmpty (split_on LF text) in
  if existsb (λ x, MaxScanTokenSize <=? Z.of_nat (String.length x)) l
  then Err (errOther "bufio.Scanner: token too long")
  else Ok ((λ x, trimSuffix x CR) <$> l).

(** ** [getPodContainerUUIDFor] *)

(** The class [[0-9a-fA-F_]]. *)
Definition uidChar (c : ascii) : bool :=
  let n := nat_of_ascii c in
  ((48 <=? n) && (n <=? 57) || (97 <=? n) && (n <=? 102) || (65 <=? n) && (n <=? 70)
   || (n =? 95))%nat.

(** A match of [pod([0-9a-fA-F_]{36})\.slice] at the start of [s], and the group. *)
Definition matchPod (s : string) : option string :=
  if hasPrefix s "pod" then
    let u := stake 36 (sdrop 3 s) in
    if (String.length u =? 36)%nat && str_forallb uidChar u && hasPrefix (sdrop 39 s) ".slice"
    then Some u else None
  else None.

(** [FindStringSubmatch]: the leftmost match. *)
Fixpoint findPod (s : string) : option string :=
  match matchPod s with
  | Some u => Some u
  | None => match s with EmptyString => None | String _ s' => findPod s' end
  end.

(** From the text of [/proc/<pid>/cgroup]: the UID of the pod and the container. *)
Definition podContainerOf (text : string) : res (string * string) :=
  lines ← scanLines text;
  let out := foldl String.append "" lines in
  let containerID := default "" (list.last (split_on "/" out)) in
  let containerID := trimSuffix containerID ".scope" in
  let containerID := replaceFirst containerID "crio-" "cri-o://" in
  let podUID := match findPod out with
                | Some u => replaceChar "_" "-" u
                | None => ""
                end in
  Ok (podUID, containerID).

(** ** Requests *)

(** [runtimeapi.PodSandbox]: its metadata is a pointer. *)
Record PodSandboxMetadata := mkSandbox { sb_Name : string; sb_Uid : string; sb_Namespace : string }.
Abbreviation PodSandbox := (option PodSandboxMetadata).

Inductive RCall : Type → Type :=
| ReadCgroup (pid : Z) : RCall (res string)
| DialCRI : RCall (option GoError)
| ListPodSandbox : RCall (res (list PodSandbox)).

Abbreviation RP := (prog RCall).

Definition getPodContainerUUIDFor (pid : Z) : RP (res (string * string)) :=
  a ← request (ReadCgroup pid);
  Return (text ← a; podContainerOf text).

(** The loop over the sandboxes: [GetUid] of a nil metadata is empty, its [Name]
    is a nil dereference. *)
Fixpoint sandboxName (uid : string) (l : list PodSandbox) : outcome (string * string) :=
  match l with
  | [] => Ret ("", "")
  | p :: l' =>
      if bool_decide (match p with Some m => sb_Uid m | None => "" end = uid)
      then m ← deref p; Ret (sb_Name m, sb_Namespace m)
      else sandboxName uid l'
  end.

Definition getPodNameFromUUID (uid : string) : RP (outcome (res (string * string))) :=
  d ← request DialCRI;
  match d with
  | Some e => Return (Ret (Err e))
  | None =>
      a ← request ListPodSandbox;
      Return match a with
             | Err e => Ret (Err e)
             | Ok l => n ← sandboxName uid l; Ret (Ok n)
             end
  end.

(** ** [processRecord] *)
Record ENOEXECInternalEvent := mkInternal {
  ie_PodName : string;
  ie_PodNamespace : string;
  ie_ContainerID : string;
}.

Fixpoint tryPids (pids : list Z) : RP (outcome (res ENOEXECInternalEvent)) :=
  match pids with
  | [] => Return (Ret (Err (errOther "failed to find pod/container UUIDs in record")))
  | pid :: pids' =>
      c ← getPodContainerUUIDFor pid;
      match c with
      | Err _ => tryPids pids'
      | Ok (podUUID, containerUUID) =>
          n ← getPodNameFromUUID podUUID;
          match n with
          | Panic => Return Panic
          | Ret (Err e) => Return (Ret (Err e))
          | Ret (Ok (podName, podNamespace)) =>
              if bool_decide (podName = "") then tryPids pids'
              else Return (Ret (Ok (mkInternal podName podNamespace containerUUID)))
          end
      end
  end.

(** The thread groups of a record: the parent's, then the task's. *)
Definition recordPids (order : ByteOrder) (raw : list Z) : Z * Z :=
  (of_bytes order (take 4 raw), of_bytes order (take 4 (drop 4 raw))).

(** With the [nil] context that [close] leaves behind, the first thing it does
    panics. *)
Definition processRecord (hasCtx : bool) (order : ByteOrder) (raw : list Z) :
    RP (outcome (res ENOEXECInternalEvent)) :=
  if negb hasCtx then Return Panic
  else if (length raw <? 8)%nat then Return (Ret (Err (errOther "record too short")))
  else
    let '(realParentTGID, currentTaskTGID) := recordPids order raw in
    tryPids [currentTaskTGID; realParentTGID].

(** ** What the path of a container says *)
Lemma length_string_app (a b : string) :
  String.length (a +:+ b) = (String.length a + String.length b)%nat.
Proof. induction a as [|c a IH]; [done|]. rewrite string_cons_app. cbn. by rewrite IH. Qed.

Lemma trimSuffix_app s suffix : trimSuffix (s +:+ suffix) suffix = s.
Proof.
  induction s as [|c s IH]; rewrite ?string_nil_app, ?string_cons_app.
  - destruct suffix; cbn; by rewrite bool_decide_eq_true_2.
  - cbn [trimSuffix]. rewrite bool_decide_eq_false_2, IH; [done|].
    intros H%(f_equal String.length). cbn in H. rewrite length_string_app in H. lia.
Qed.

Lemma trimSuffix_no_char s c : has_char c s = false → trimSuffix s (String c "") = s.
Proof.
  induction s as [|x s IH]; [done|]. cbn. intros [Hx%bool_decide_eq_false Hs]%orb_false_elim.
  rewrite bool_decide_eq_false_2 by (by intros [= -> ->]). by rewrite IH.
Qed.

Lemma stake_app n s t : String.length s = n → stake n (s +:+ t) = s.
Proof.
  revert n. induction s as [|c s IH]; intros [|n]; cbn; try done; intros [= H].
  rewrite string_cons_app. cbn. by rewrite IH.
Qed.

Lemma sdrop_app n s t : String.length s = n → sdrop n (s +:+ t) = t.
Proof.
  revert n. induction s as [|c s IH]; intros [|n]; cbn; try done; intros [= H].
  rewrite string_cons_app. cbn. by rewrite IH.
Qed.

Lemma hasPrefix_app p s : hasPrefix (p +:+ s) p = true.
Proof.
  unfold hasPrefix. induction p as [|c p IH]; rewrite ?string_nil_app, ?string_cons_app; [by destruct s|].
  cbn. by destruct (ascii_dec c c).
Qed.

Lemma matchPod_hit u s :
  String.length u = 36%nat → str_forallb uidChar u = true →
  matchPod ("pod" +:+ u +:+ ".slice" +:+ s) = Some u.
Proof.
  intros Hl Hu. unfold matchPod. rewrite hasPrefix_app.
  change (sdrop 3 ("pod" +:+ u +:+ ".slice" +:+ s)) with (u +:+ ".slice" +:+ s).
  change (sdrop 39 ("pod" +:+ u +:+ ".slice" +:+ s)) with (sdrop 36 (u +:+ ".slice" +:+ s)).
  by rewrite stake_app, sdrop_app, hasPrefix_app, Hl, Hu by done.
Qed.

Lemma matchPod_other c s : uidChar c = false → matchPod ("pod" +:+ String c s) = None.
Proof.
  intros Hc. unfold matchPod. rewrite hasPrefix_app. cbv zeta.
  change (stake 36 (sdrop 3 ("pod" +:+ String c s))) with (String c (stake 35 s)).
  cbn [str_forallb]. by rewrite Hc, andb_false_r.
Qed.

Lemma findPod_skip c s : matchPod (String c s) = None → findPod (String c s) = findPod s.
Proof. cbn [findPod]. by intros ->. Qed.

Lemma findPod_hit s u : matchPod s = Some u → findPod s = Some u.
Proof. destruct s; cbn [findPod]; by intros ->. Qed.

(** The control group CRI-O and systemd give a container, by the quality of
    service of the pod; systemd has no hyphen in the name of a slice. *)
Inductive QoS : Set := Guaranteed | Burstable | BestEffort.

Definition kubepods (q : QoS) : string :=
  match q with
  | Guaranteed => "0::/kubepods.slice/kubepods-"
  | Burstable => "0::/kubepods.slice/kubepods-burstable.slice/kubepods-burstable-"
  | BestEffort => "0::/kubepods.slice/kubepods-besteffort.slice/kubepods-besteffort-"
  end.

Definition cgroupOf (q : QoS) (uid cid : string) : string :=
  kubepods q +:+ "pod" +:+ replaceChar "-" "_" uid +:+ ".slice/crio-" +:+ cid +:+ ".scope"
  +:+ String LF "".

Definition hexOrHyphen (c : ascii) : bool := (uidChar c && negb (bool_decide (c = "_"%char)))
                                             || bool_decide (c = "-"%char).
Definition uid_ok (uid : string) : Prop :=
  String.length uid = 36%nat ∧ str_forallb hexOrHyphen uid = true.
Definition cid_ok (cid : string) : Prop :=
  String.length cid = 64%nat ∧ str_forallb is_hex cid = true.

Lemma length_replaceChar a b s : String.length (replaceChar a b s) = String.length s.
Proof. induction s; cbn; auto. Qed.

Lemma uid_escaped uid :
  str_forallb hexOrHyphen uid = true →
  str_forallb uidChar (replaceChar "-" "_" uid) = true
  ∧ replaceChar "_" "-" (replaceChar "-" "_" uid) = uid.
Proof.
  induction uid as [|c s IH]; cbn; [done|]. intros [Hc Hs]%andb_prop. destruct (IH Hs) as [IH1 IH2].
  unfold hexOrHyphen in Hc. apply orb_prop in Hc as [Hc|Hc].
  - apply andb_prop in Hc as [H1 H2%negb_true_iff]. bools.
    rewrite (bool_decide_eq_false_2 (c = "-"%char)) by (by intros ->).
    rewrite bool_decide_eq_false_2 by done. by rewrite H1, IH1, IH2.
  - bools. subst c. rewrite bool_decide_eq_true_2 by done. by rewrite IH1, IH2.
Qed.

Lemma str_forallb_no_char (f : ascii → bool) c s :
  f c = false → str_forallb f s = true → has_char c s = false.
Proof.
  intros Hc. induction s as [|x s IH]; [done|]. cbn. intros [Hx Hs]%andb_prop.
  rewrite bool_decide_eq_false_2 by congruence. auto.
Qed.

Lemma findPod_kubepods q u s :
  String.length u = 36%nat → str_forallb uidChar u = true →
  findPod (kubepods q +:+ "pod" +:+ u +:+ ".slice" +:+ s) = Some u.
Proof.
  intros Hl Hu. pose proof (findPod_hit _ _ (matchPod_hit u s Hl Hu)) as H.
  revert H. generalize ("pod" +:+ u +:+ ".slice" +:+ s). intros t <-.
  destruct q; cbn [kubepods]; rewrite ?string_cons_app, string_nil_app;
    repeat (rewrite findPod_skip by first [reflexivity | by apply matchPod_other]); done.
Qed.

Lemma has_char_kubepods q : has_char LF (kubepods q) = false ∧ has_char "013" (kubepods q) = false.
Proof. by destruct q. Qed.

Lemma scanLines_one s :
  s ≠ "" → Z.of_nat (String.length s) < MaxScanTokenSize →
  has_char LF s = false → has_char "013" s = false → scanLines (s +:+ String LF "") = Ok [s].
Proof.
  intros H0 H1 H2 H3. unfold scanLines. rewrite split_on_snoc, split_on_no_sep by done.
  replace (dropLastEmpty ([s] ++ [""])) with [s] by (by destruct s). cbn [existsb].
  rewrite (proj2 (Z.leb_gt _ _)) by done. cbn [orb fmap list_fmap]. unfold CR.
  by rewrite trimSuffix_no_char.
Qed.

(** The pod and the container of a process that runs in a CRI-O container. *)
Lemma podContainerOf_cgroup q uid cid :
  uid_ok uid → cid_ok cid → podContainerOf (cgroupOf q uid cid) = Ok (uid, "cri-o://" +:+ cid).
Proof.
  intros [Hul Huid] [Hcl Hcid]. destruct (uid_escaped uid Huid) as [Hesc Hback].
  set (u := replaceChar "-" "_" uid) in *.
  assert (String.length u = 36%nat) as Hl by (unfold u; by rewrite length_replaceChar).
  assert (∀ c, uidChar c = false → has_char c u = false) as Hu
    by (intros; by eapply str_forallb_no_char).
  assert (∀ c, is_hex c = false → has_char c cid = false) as Hc
    by (intros; by eapply str_forallb_no_char).
  set (path := kubepods q +:+ "pod" +:+ u +:+ ".slice" +:+ "/" +:+ "crio-" +:+ cid +:+ ".scope").
  assert (cgroupOf q uid cid = path +:+ String LF "") as ->.
  { unfold cgroupOf, path. by rewrite !string_app_assoc. }
  destruct (has_char_kubepods q) as [Hq1 Hq2].
  unfold podContainerOf. rewrite scanLines_one.
  - cbn [mbind res_bind foldl]. rewrite string_nil_app.
    assert (findPod path = Some u) as -> by (by apply findPod_kubepods). rewrite Hback.
    replace path with ((kubepods q +:+ "pod" +:+ u +:+ ".slice") +:+ String "/" ("crio-" +:+ cid +:+ ".scope"))
      by (unfold path; by rewrite !string_app_assoc).
    rewrite split_on_snoc, list.last_snoc by (rewrite !has_char_app, Hc; done). cbn [from_option id].
    rewrite <-string_app_assoc, trimSuffix_app. f_equal. f_equal. cbn. by destruct cid.
  - unfold path. by destruct q.
  - unfold path. rewrite !length_string_app, Hl, Hcl. destruct q; vm_compute; reflexivity.
  - unfold path. rewrite !has_char_app, Hq1, Hu, Hc; done.
  - unfold path. rewrite !has_char_app, Hq2, Hu, Hc; done.
Qed.

Lemma substring_full s : String.substring 0 (String.length s) s = s.
Proof. induction s as [|c s IH]; cbn; [done|]. by rewrite IH. Qed.

(** The handler takes the identifier. *)
Lemma containerID_ok_crio cid : cid_ok cid → containerID_ok ("cri-o://" +:+ cid) = true.
Proof.
  intros [Hl Hc]. unfold containerID_ok. rewrite length_string_app, Hl. cbn [String.length Nat.add].
  change (String.substring (72 - 64) 64 ("cri-o://" +:+ cid)) with (String.substring 0 64 cid).
  change (String.substring (72 - 67) 3 ("cri-o://" +:+ cid)) with ("://" +:+ String.substring 0 0 cid).
  change (String.substring 0 (72 - 67) ("cri-o://" +:+ cid)) with "cri-o".
  rewrite <-Hl, substring_full, Hc, Hl. by destruct cid.
Qed.

(** ** From the kernel to the event *)

(** What the daemon finds out about a process: its control group and the
    sandboxes of the node. *)
Definition node_of (pid : Z) (text : string) (sandboxes : list PodSandbox) :
    ∀ T, RCall T → T → Prop := λ T c,
  match c in RCall T return T → Prop with
  | ReadCgroup p => λ a, p = pid → a = Ok text
  | DialCRI => λ a, a = None
  | ListPodSandbox => λ a, a = Ok sandboxes
  end.

(** The first sandbox with the UID is the pod's. *)
Lemma sandboxName_first uid l1 m l2 :
  sb_Uid m = uid → uid ≠ "" → Forall (λ p, ∀ m', p = Some m' → sb_Uid m' ≠ uid) l1 →
  sandboxName uid (l1 ++ Some m :: l2) = Ret (sb_Name m, sb_Namespace m).
Proof.
  intros Hm Hne. induction l1 as [|p l1 IH]; intros Hl; cbn.
  - by rewrite bool_decide_eq_true_2.
  - apply Forall_cons_1 in Hl as [Hp Hl].
    rewrite bool_decide_eq_false_2; [by apply IH|]. destruct p; [by apply Hp|congruence].
Qed.

Section detected.
(** A task in a container, and the kernel it runs in. *)
Context (k : Kernel) (fd tgidOffset realParentOffset : Z).
Context (pid ppid parent : Z).
Context (Hpid : 0 ≤ pid < 2 ^ 32) (Hppid : 0 ≤ ppid < 2 ^ 32) (Hparent : 0 < parent < 2 ^ 64).

(** The kernel holds the two thread groups at the offsets. *)
Record task_in_kernel : Prop := {
  tk_current : k_read k (wrap64 (wrap64 (k_task k) + tgidOffset)) 4 = Some (to_bytes (k_order k) 4 pid);
  tk_parent : k_read k (wrap64 (wrap64 (k_task k) + realParentOffset)) 8
              = Some (to_bytes (k_order k) 8 parent);
  tk_ppid : k_read k (wrap64 (parent + tgidOffset)) 4 = Some (to_bytes (k_order k) 4 ppid);
}.

Lemma enoexecRecord_task :
  k_ret k = -8 → is_Some (k_reserve k) → task_in_kernel →
  enoexecRecord k tgidOffset realParentOffset
  = Some (to_bytes (k_order k) 4 ppid ++ to_bytes (k_order k) 4 pid).
Proof using Hparent.
  intros Hret [junk Hj] [H1 H2 H3]. unfold enoexecRecord.
  rewrite Hret, bool_decide_eq_true_2, Hj by done. cbn [mbind option_bind].
  rewrite H1. cbn [mbind option_bind]. rewrite H2. cbn [mbind option_bind].
  rewrite of_to_bytes by (change (256 ^ Z.of_nat 8) with (2 ^ 64); lia).
  by rewrite bool_decide_eq_false_2, H3 by lia.
Qed.

Lemma recordPids_record o :
  recordPids o (to_bytes o 4 ppid ++ to_bytes o 4 pid) = (ppid, pid).
Proof using Hpid Hppid.
  unfold recordPids. rewrite take_app_length', drop_app_length' by (by rewrite length_to_bytes).
  rewrite take_ge by (by rewrite length_to_bytes).
  by rewrite !of_to_bytes by (change (256 ^ Z.of_nat 4) with (2 ^ 32); lia).
Qed.

(** C17: the detection works end to end, on machines of either byte order.  When a
    task in a CRI-O container fails to execute with ENOEXEC, the program submits one
    record, and from that record the daemon computes the name and namespace of the
    pod and the identifier of the container, in the form the handler accepts. *)
Theorem enoexec_detected {W : Type} (srv : Server RCall W) w q uid cid m l1 l2 :
  0 < fd → k_ret k = -8 → is_Some (k_reserve k) → task_in_kernel →
  uid_ok uid → cid_ok cid →
  sb_Uid m = uid → sb_Name m ≠ "" → Forall (λ p, ∀ m', p = Some m' → sb_Uid m' ≠ uid) l1 →
  server_ok srv (node_of pid (cgroupOf q uid cid) (l1 ++ Some m :: l2)) →
  ∃ mach raw, run k (program fd tgidOffset realParentOffset) = Exited 0 mach
  ∧ m_ring mach = [raw]
  ∧ (Prog.run (processRecord true (k_order k) raw) w).2
    = Ret (Ok (mkInternal (sb_Name m) (sb_Namespace m) ("cri-o://" +:+ cid)))
  ∧ containerID_ok ("cri-o://" +:+ cid) = true.
Proof using Hpid Hppid Hparent.
  intros Hfd Hret Hres Htask Huid Hcid Hm Hname Hl1 Hsrv.
  destruct (program_runs k fd tgidOffset realParentOffset Hfd) as (mach & Hrun & _ & Hring & _).
  rewrite enoexecRecord_task in Hring by done.
  do 2 eexists. split; [done|]. split; [exact Hring|].
  split; [|by apply containerID_ok_crio].
  assert (Hw : wp (node_of pid (cgroupOf q uid cid) (l1 ++ Some m :: l2))
    (processRecord true (k_order k) (to_bytes (k_order k) 4 ppid ++ to_bytes (k_order k) 4 pid))
    (λ r _, r = Ret (Ok (mkInternal (sb_Name m) (sb_Namespace m) ("cri-o://" +:+ cid)))) []).
  { unfold processRecord. rewrite recordPids_record, length_app, !length_to_bytes. cbn [negb].
    cbn -[wp tryPids]. unfold tryPids, getPodContainerUUIDFor, getPodNameFromUUID. prog_unfold. step.
    intros a Ha. rewrite (Ha eq_refl). cbn [mbind res_bind].
    rewrite podContainerOf_cgroup by done. step. intros d ->. step. intros s ->.
    rewrite sandboxName_first; [|done| |done]; [|destruct Huid as [Hl _]; by intros ->].
    cbn [mbind outcome_bind]. by rewrite bool_decide_eq_false_2. }
  pose proof (wp_run _ _ _ [] w Hsrv Hw) as H.
  by destruct (Prog.run (processRecord true (k_order k) _) w) as [[? ?] ?].
Qed.
End detected.
