(* ===== verification/EnoexecDaemon.v ===== *)
(** * The exec format error daemon

    [internal/controller/enoexecevent/daemon]: the life cycle of the tracepoint
    ([attach], [close] and the start of [Run]), the storage worker that writes
    the events to the cluster ([k8s_enoexecevent.go]), and the two workers
    together with the channel between them ([daemon.go]). *)
From Stdlib Require Import Ascii.
From stdpp Require Import base gmap strings list numbers.
From S2P Require Import Prelude GoStd Api Models Prog EnoexecHandler Bpf Tracepoint TracepointUser.

Local Open Scope Z_scope.

(** ** Attaching and closing the tracepoint *)

(** What the kernel gives out, by descriptor. *)
Inductive Handle : Set :=
| HMap (fd : Z)
| HProg (fd : Z)
| HLink (fd : Z)
| HReader (id : Z).

#[export] Instance Handle_eq_dec : EqDecision Handle.
Proof. solve_decision. Defined.

Inductive TCall : Type → Type :=
| NewMap (name : string) (maxEntries : Z) : TCall (res Z)
| NewProgram (name : string) (p : Instructions) : TCall (res Z)
| LinkTracepoint (group name : string) (prog : Z) : TCall (res Z)
| NewReader (map : Z) : TCall (res Z)
| CloseHandle (h : Handle) : TCall (option GoError).

Abbreviation TP := (prog TCall).

(** [Tracepoint]; [tp_ctx] tells whether the context is set. *)
Record Tracepoint := mkTracepoint {
  tp_ctx : bool;
  tp_events : option Z;
  tp_prog : option Z;
  tp_link : option Z;
  tp_tgidOffset : option Z;
  tp_realParentOffset : option Z;
  tp_bufferSize : Z;
  tp_order : ByteOrder;
}.

(** [NewTracepoint], from what the machine and its kernel are like *)
Definition NewTracepoint (machine : ByteOrder) (pageSize : Z) (task_struct : res (list Member))
    (maxEvents : Z) : res Tracepoint :=
  size ← bufferSize pageSize maxEvents;
  members ← task_struct;
  offsets ← initializeOffsets members;
  Ok (mkTracepoint true None None None (Some offsets.2) (Some offsets.1) size (detectOrder machine)).

Definition closeHandle (h : option Handle) : TP (list GoError) :=
  match h with
  | None => Return []
  | Some h => e ← request (CloseHandle h); Return (option_list e)
  end.

(** [close]: the errors that were joined, and the tracepoint with everything [nil] *)
Definition close (tp : Tracepoint) : TP (list GoError * Tracepoint) :=
  e1 ← closeHandle (HMap <$> tp_events tp);
  e2 ← closeHandle (HLink <$> tp_link tp);
  e3 ← closeHandle (HProg <$> tp_prog tp);
  Return (e1 ++ e2 ++ e3,
          mkTracepoint false None None None (tp_tgidOffset tp) (tp_realParentOffset tp)
            (tp_bufferSize tp) (tp_order tp)).

(** A failed step: its error joined with those of [close]. *)
Definition failClosed {A} (e : GoError) (tp : Tracepoint) : TP (list GoError * Tracepoint + A) :=
  c ← close tp; Return (inl (e :: c.1, c.2)).

Definition with_events (fd : Z) (tp : Tracepoint) : Tracepoint :=
  mkTracepoint (tp_ctx tp) (Some fd) (tp_prog tp) (tp_link tp) (tp_tgidOffset tp)
    (tp_realParentOffset tp) (tp_bufferSize tp) (tp_order tp).
Definition with_prog (fd : Z) (tp : Tracepoint) : Tracepoint :=
  mkTracepoint (tp_ctx tp) (tp_events tp) (Some fd) (tp_link tp) (tp_tgidOffset tp)
    (tp_realParentOffset tp) (tp_bufferSize tp) (tp_order tp).
Definition with_link (fd : Z) (tp : Tracepoint) : Tracepoint :=
  mkTracepoint (tp_ctx tp) (tp_events tp) (tp_prog tp) (Some fd) (tp_tgidOffset tp)
    (tp_realParentOffset tp) (tp_bufferSize tp) (tp_order tp).

Definition attach (tp : Tracepoint) : TP (list GoError * Tracepoint + Tracepoint) :=
  m ← request (NewMap "multiarch_tuning_enoexec_events" (tp_bufferSize tp));
  match m with
  | Err e => failClosed e tp
  | Ok fd =>
      let tp1 := with_events fd tp in
      match initializeProgSpec fd (tp_tgidOffset tp) (tp_realParentOffset tp) with
      | Err e => failClosed e tp1
      | Ok instructions =>
          p ← request (NewProgram "multiarch_tuning_enoexec_tracepoint" instructions);
          match p with
          | Err e => failClosed e tp1
          | Ok pfd =>
              let tp2 := with_prog pfd tp1 in
              l ← request (LinkTracepoint "syscalls" "sys_exit_execve" pfd);
              match l with
              | Err e => failClosed e tp2
              | Ok lfd => Return (inr (with_link lfd tp2))
              end
          end
      end
  end.

(** [Run] up to its loop, with the deferred [close] on the error paths: the reader,
    or the errors.  [hasLogger]: the context carries a logger. *)
Definition startRun (hasLogger : bool) (tp : Tracepoint) :
    TP (list GoError * Tracepoint + Z * Tracepoint) :=
  if negb hasLogger then failClosed (errOther "failed to get logger from context") tp
  else
    a ← attach tp;
    match a with
    | inl (errs, tp1) => c ← close tp1; Return (inl (errs ++ c.1, c.2))
    | inr tp1 =>
        r ← request (NewReader (default 0 (tp_events tp1)));
        match r with
        | Err e =>
            c ← close tp1;
            d ← close c.2;                              (* deferred *)
            Return (inl (e :: c.1, d.2))
        | Ok rd => Return (inr (rd, tp1))
        end
    end.

(** The handles a trace leaves open; closing one that is not open is an error. *)
Definition opens (e : Ev TCall) : option Handle :=
  match e with
  | mkEv c a =>
      match c in TCall T return T → option Handle with
      | NewMap _ _ => λ a, match a with Ok fd => Some (HMap fd) | Err _ => None end
      | NewProgram _ _ => λ a, match a with Ok fd => Some (HProg fd) | Err _ => None end
      | LinkTracepoint _ _ _ => λ a, match a with Ok fd => Some (HLink fd) | Err _ => None end
      | NewReader _ => λ a, match a with Ok id => Some (HReader id) | Err _ => None end
      | CloseHandle _ => λ _, None
      end a
  end.

Definition closes (e : Ev TCall) : option Handle :=
  match ev_call e with CloseHandle h => Some h | _ => None end.

Definition without (h : Handle) (l : list Handle) : list Handle :=
  List.filter (λ x, negb (bool_decide (x = h))) l.

Definition track (open : option (list Handle)) (e : Ev TCall) : option (list Handle) :=
  l ← open;
  match closes e with
  | Some h => if bool_decide (h ∈ l) then Some (without h l) else None
  | None => Some (l ++ option_list (opens e))
  end.

Definition open_after (tr : list (Ev TCall)) : option (list Handle) := foldl track (Some []) tr.

Definition held (tp : Tracepoint) : list Handle :=
  option_list (HMap <$> tp_events tp) ++ option_list (HProg <$> tp_prog tp)
  ++ option_list (HLink <$> tp_link tp).

Lemma open_after_snoc tr e : open_after (tr ++ [e]) = track (open_after tr) e.
Proof. unfold open_after. by rewrite foldl_app. Qed.

Lemma track_close l h a :
  h ∈ l → track (Some l) (mkEv (CloseHandle h) a) = Some (without h l).
Proof. intros H. cbn. by rewrite bool_decide_eq_true_2. Qed.

(** [close] closes what the tracepoint holds, each handle once. *)
Lemma close_tracked V tp tr :
  open_after tr = Some (held tp) →
  wp V (close tp) (λ r tr', open_after tr' = Some [] ∧ held r.2 = []
                            ∧ tp_ctx r.2 = false) tr.
Proof.
  unfold close, held. destruct tp as [ctx ev pr li tg rp sz o]. cbn [tp_events tp_prog tp_link].
  intros H. destruct ev as [ev|], pr as [pr|], li as [li|]; cbn [fmap option_fmap option_map] in *;
    prog_unfold; unfold closeHandle; prog_unfold; step; intros;
    rewrite ?open_after_snoc, ?H; cbn -[track];
    repeat (rewrite track_close by set_solver; unfold without;
            cbn -[track bool_decide]; repeat (case_bool_decide; try congruence; cbn -[track bool_decide]));
    done.
Qed.

Definition cleaned {A} (ok : A → list (Ev TCall) → Prop) (r : list GoError * Tracepoint + A)
    (tr : list (Ev TCall)) : Prop :=
  match r with
  | inl (errs, tp) => errs ≠ [] ∧ open_after tr = Some [] ∧ held tp = []
  | inr a => ok a tr
  end.

Lemma failClosed_cleaned {A} V e tp tr (ok : A → list (Ev TCall) → Prop) :
  open_after tr = Some (held tp) → wp V (failClosed e tp) (cleaned ok) tr.
Proof.
  intros H. unfold failClosed. apply wp_bind.
  eapply wp_mono; [|by apply close_tracked]. intros [errs tp'] tr' (H1 & H2 & _). by split.
Qed.

Lemma attach_cleaned V tp tr :
  held tp = [] → open_after tr = Some [] →
  wp V (attach tp) (cleaned (λ tp' tr', open_after tr' = Some (held tp') ∧ length (held tp') = 3%nat)) tr.
Proof.
  intros Hh Ho. destruct tp as [ctx ev pr li tg rp sz o].
  destruct ev, pr, li; try done. unfold attach. prog_unfold. cbn [tp_tgidOffset tp_realParentOffset]. step.
  intros m _. assert (Hm : open_after (tr ++ [mkEv (NewMap "multiarch_tuning_enoexec_events" sz) m])
    = Some (option_list match m with Ok fd => Some (HMap fd) | Err _ => None end))
    by (rewrite open_after_snoc, Ho; by destruct m).
  cbn [tp_bufferSize]. destruct m as [fd|e]; [|by apply failClosed_cleaned].
  destruct (initializeProgSpec fd tg rp) as [code|e]; [|by apply failClosed_cleaned]. step.
  intros p _. set (tr1 := tr ++ _) in *.
  set (np := mkEv (NewProgram _ _) p).
  assert (Hp : open_after (tr1 ++ [np])
    = Some (HMap fd :: option_list match p with Ok fd => Some (HProg fd) | Err _ => None end))
    by (rewrite open_after_snoc, Hm; by destruct p).
  destruct p as [pfd|e]; [|by apply failClosed_cleaned]. step.
  intros l _. set (tr2 := tr1 ++ _) in *. set (nl := mkEv (LinkTracepoint _ _ _) l).
  assert (Hl : open_after (tr2 ++ [nl])
    = Some (HMap fd :: HProg pfd :: option_list match l with Ok fd => Some (HLink fd) | Err _ => None end))
    by (rewrite open_after_snoc, Hp; by destruct l).
  destruct l as [lfd|e]; [|by apply failClosed_cleaned]. by step.
Qed.

Lemma startRun_cleaned V hasLogger tp :
  held tp = [] →
  wp V (startRun hasLogger tp)
    (cleaned (λ r tr', open_after tr' = Some (held r.2 ++ [HReader r.1]) ∧ length (held r.2) = 3%nat)) [].
Proof.
  intros Hh. unfold startRun. destruct hasLogger; cbn [negb].
  2: { apply failClosed_cleaned. by rewrite Hh. }
  apply wp_bind. eapply wp_mono; [|by apply attach_cleaned].
  intros [[errs tp1]|tp1] tr.
  - intros (He & Ho & Hh1). apply wp_bind. eapply wp_mono; [|apply close_tracked; by rewrite Hh1].
    intros [errs2 tp2] tr2 (H1 & H2 & _). split; [|done]. by destruct errs.
  - intros [Ho Hl]. prog_unfold. step. intros r _.
    destruct r as [rd|e].
    + step. cbn [cleaned fst snd]. split; [|done]. by rewrite open_after_snoc, Ho.
    + apply wp_bind. eapply wp_mono.
      2: { apply close_tracked. rewrite open_after_snoc, Ho. cbn. by rewrite app_nil_r. }
      intros [errs2 tp2] tr2 (H1 & H2 & _). apply wp_bind. eapply wp_mono.
      2: { apply close_tracked. cbn [snd] in *. by rewrite H2. }
      intros [errs3 tp3] tr3 (H3 & H4 & _). by split.
Qed.

(** C28: starting the tracepoint leaks nothing and closes nothing twice.  Whatever the
    kernel answers, either it starts, holding exactly the map, the program, the
    link and the reader it opened, or it reports an error and every handle it
    opened has been closed. *)
Theorem startRun_no_leak {W : Type} (srv : Server TCall W) w hasLogger tp :
  held tp = [] →
  let '(_, tr, r) := Prog.run (startRun hasLogger tp) w in
  match r with
  | inl (errs, tp') => errs ≠ [] ∧ open_after tr = Some [] ∧ held tp' = []
  | inr (rd, tp') => open_after tr = Some (held tp' ++ [HReader rd]) ∧ length (held tp') = 3%nat
  end.
Proof.
  intros Hh. assert (Hs : server_ok srv Anything) by done.
  pose proof (wp_run _ _ _ [] w Hs (startRun_cleaned Anything hasLogger tp Hh)) as H.
  destruct (Prog.run _ _) as [[w' tr] [[errs tp']|[rd tp']]]; exact H.
Qed.

(** Every error path of the start leaves the context [nil]; a start that succeeds
    keeps it. *)
Lemma startRun_ctx V hasLogger tp tr :
  wp V (startRun hasLogger tp)
    (λ r _, match r with inl (_, tp') => tp_ctx tp' = false | inr (_, tp') => tp_ctx tp' = tp_ctx tp end) tr.
Proof.
  assert (Hc : ∀ tp' tr', wp V (close tp') (λ r _, tp_ctx r.2 = false) tr').
  { intros tp' tr'. unfold close. do 3 (apply wp_bind; eapply wp_mono; [|apply wp_true]; intros ?? _). done. }
  assert (Hf : ∀ A e tp' tr', wp V (failClosed (A := A) e tp')
    (λ r _, match r with inl (_, tp1) => tp_ctx tp1 = false | inr _ => False end) tr').
  { intros A e tp' tr'. apply wp_bind. eapply wp_mono; [|apply Hc]. by intros [??] ?. }
  unfold startRun. destruct hasLogger; cbn [negb]; [|eapply wp_mono; [|apply Hf]; by intros [[??]|] ?].
  apply wp_bind. eapply (wp_mono _ _ _ (λ r _,
    match r with inl (_, tp1) => tp_ctx tp1 = false | inr tp1 => tp_ctx tp1 = tp_ctx tp end)).
  - intros [[errs tp1]|tp1] tr1 H1.
    + apply wp_bind. eapply wp_mono; [|apply Hc]. by intros [??] ?.
    + prog_unfold. step. intros [rd|e] _; step; [done|]. apply wp_bind. eapply wp_mono; [|apply wp_true].
      intros c tr2 _. apply wp_bind. eapply wp_mono; [|apply Hc]. by intros [??] ?.
  - unfold attach. prog_unfold. step.
    intros [fd|e] _; [|eapply wp_mono; [|apply Hf]; by intros [[??]|] ?].
    destruct (initializeProgSpec _ _ _) as [code|e]; [|eapply wp_mono; [|apply Hf]; by intros [[??]|] ?]. step.
    intros [pfd|e] _; [|eapply wp_mono; [|apply Hf]; by intros [[??]|] ?]. step.
    intros [lfd|e] _; [done|]. eapply wp_mono; [|apply Hf]. by intros [[??]|] ?.
Qed.

(** ** The storage worker *)

(** [ToENoExecEvent], given the generated name *)
Definition ToENoExecEvent (uuid namespace nodeName : string) (e : ENOEXECInternalEvent) : ENoExecEvent :=
  mkENoExec uuid namespace None nodeName (ie_PodName e) (ie_PodNamespace e) (ie_ContainerID e).

(** [enoexecEvent.Status = *savedStatus] *)
Definition with_Status (saved e : ENoExecEvent) : ENoExecEvent :=
  mkENoExec (en_Name e) (en_Namespace e) (en_Labels e) (en_NodeName saved) (en_PodName saved)
    (en_PodNamespace saved) (en_ContainerID saved).

(** Creating and reading an object writes what the server has back into it. *)
Inductive SCall : Type → Type :=
| NewUUID : SCall string
| LimiterWait : SCall (option GoError)
| CreateEvent (e : ENoExecEvent) : SCall (res ENoExecEvent)
| GetStored (namespace name : string) : SCall (res ENoExecEvent)
| UpdateStatus (e : ENoExecEvent) : SCall (option GoError)
| RollbackEvent (e : ENoExecEvent) : SCall (option GoError).

Abbreviation SP := (prog SCall).

Definition isConflict (e : GoError) : bool := bool_decide (err_kind e = KConflict).

(** [retry.DefaultRetry.Steps] *)
Definition retrySteps : nat := 5.

(** One attempt: after the first the object is read again. *)
Definition attempt (first : bool) (saved e : ENoExecEvent) : SP (ENoExecEvent * option GoError) :=
  g ← (if first then Return (Ok e) else request (GetStored (en_Namespace e) (en_Name e)));
  match g with
  | Err err => Return (e, Some err)
  | Ok e0 =>
      let e1 := with_Status saved e0 in
      u ← request (UpdateStatus e1);
      Return (e1, u)
  end.

(** [RetryOnConflict]: the object as it is in the end and the last error *)
Fixpoint updateStatus (steps : nat) (first : bool) (saved e : ENoExecEvent) :
    SP (ENoExecEvent * option GoError) :=
  r ← attempt first saved e;
  match r.2, steps with
  | Some err, S steps' => if isConflict err then updateStatus steps' false saved r.1 else Return r
  | _, _ => Return r
  end.

Definition processEvent (hasLogger : bool) (namespace nodeName : string) (event : ENOEXECInternalEvent) :
    SP (option GoError) :=
  if negb hasLogger then Return (Some (errOther "failed to get logger from context"))
  else
    uuid ← request NewUUID;
    let enoexecEvent := ToENoExecEvent uuid namespace nodeName event in
    w ← request LimiterWait;
    match w with
    | Some err => Return (Some err)
    | None =>
        let savedStatus := enoexecEvent in
        c ← request (CreateEvent enoexecEvent);
        match c with
        | Err err => Return (Some err)
        | Ok created =>
            r ← updateStatus (retrySteps - 1) true savedStatus created;
            match r.2 with
            | None => Return None
            | Some err => _ ← request (RollbackEvent r.1); Return (Some err)
            end
        end
    end.

(** [registerScheme]: the error of each [AddToScheme]; the aggregate drops the [nil]s *)
Definition registerScheme (core apps multiarch : option GoError) : list GoError :=
  option_list core ++ option_list apps ++ option_list multiarch.

(** [K8sENOExecEventStorage], without the client *)
Record EventStorage := mkStorage { sg_nodeName : string; sg_namespace : string }.

(** [NewK8sENOExecEventStorage], from the configuration, the scheme and the client *)
Definition NewK8sENOExecEventStorage (hasLogger : bool) (config : option GoError)
    (core apps multiarch client : option GoError) (nodeName namespace : string) :
    list GoError + EventStorage :=
  if negb hasLogger then inl [errOther "failed to get logger from context"]
  else match config, registerScheme core apps multiarch, client with
       | Some e, _, _ => inl [e]
       | None, (_ :: _) as errs, _ => inl errs
       | None, [], Some e => inl [e]
       | None, [], None => inr (mkStorage nodeName namespace)
       end.

(** *** No orphans *)

(** The status that is written is the event's. *)
Definition sameStatus (a b : ENoExecEvent) : Prop :=
  en_NodeName a = en_NodeName b ∧ en_PodName a = en_PodName b
  ∧ en_PodNamespace a = en_PodNamespace b ∧ en_ContainerID a = en_ContainerID b.

(** The same object of the cluster. *)
Definition sameObject (a b : ENoExecEvent) : Prop :=
  en_Name a = en_Name b ∧ en_Namespace a = en_Namespace b.

(** The API server answers a creation and a read with the object that was named. *)
Definition keepsIdentity : ∀ T, SCall T → T → Prop := λ T c,
  match c in SCall T return T → Prop with
  | CreateEvent e => λ a, ∀ x, a = Ok x → sameObject x e
  | GetStored namespace name => λ a, ∀ x, a = Ok x → en_Name x = name ∧ en_Namespace x = namespace
  | _ => λ _, True
  end.

(** How a run that created [e0] ends: the status of [e0] was written to that
    object, or the deletion of that object was requested and an error is returned. *)
Definition settled (e0 : ENoExecEvent) (r : option GoError) (tr : list (Ev SCall)) : Prop :=
  match r with
  | None => ∃ e, sameObject e e0 ∧ sameStatus e e0 ∧ list.last tr = Some (mkEv (UpdateStatus e) None)
  | Some _ => ∃ e a, sameObject e e0 ∧ list.last tr = Some (mkEv (RollbackEvent e) a)
  end.

(** What an attempt to write the status of [saved] leaves. *)
Definition attempted (saved : ENoExecEvent) (r : ENoExecEvent * option GoError) (tr : list (Ev SCall)) : Prop :=
  sameObject r.1 saved ∧
  (r.2 = None → sameStatus r.1 saved ∧ list.last tr = Some (mkEv (UpdateStatus r.1) None)).

(** The object a request has created. *)
Definition createdObject (e : Ev SCall) : option ENoExecEvent :=
  match e with
  | mkEv c a =>
      match c in SCall T return T → option ENoExecEvent with
      | CreateEvent e0 => λ a, if is_ok a then Some e0 else None
      | _ => λ _, None
      end a
  end.

Lemma attempt_wp first saved e tr :
  sameObject e saved →
  wp keepsIdentity (attempt first saved e)
    (λ r tr', attempted saved r tr' ∧ omap createdObject tr' = omap createdObject tr) tr.
Proof.
  intros He. unfold attempt, attempted. destruct first; prog_unfold; step.
  - intros u _. rewrite omap_app, app_nil_r. split; [split; [exact He|]|done].
    intros ->. split; [done|apply list.last_snoc].
  - intros [e0|err] Hg; step; [|by rewrite omap_app, app_nil_r].
    intros u _. destruct (Hg e0 eq_refl) as [Hn Hs], He as [H1 H2].
    rewrite !omap_app, !app_nil_r. split; [split; [split; cbn; congruence|]|done].
    intros ->. split; [done|apply list.last_snoc].
Qed.

Lemma updateStatus_wp steps first saved e tr :
  sameObject e saved →
  wp keepsIdentity (updateStatus steps first saved e)
    (λ r tr', attempted saved r tr' ∧ omap createdObject tr' = omap createdObject tr) tr.
Proof.
  revert first e tr. induction steps as [|steps IH]; intros first e tr He; cbn [updateStatus];
    apply wp_bind; (eapply wp_mono; [|by apply attempt_wp]);
    intros [e1 [err|]] tr1 [H E]; cbn [fst snd] in *; try done.
  destruct (isConflict err); [|done]. rewrite <-E. apply IH, H.
Qed.

(** C27: the daemon leaves no object behind without a status.  Whatever else the API
    server answers, as long as it answers a creation and a read with the object
    that was named, and however often the status update conflicts: an object that
    was created carries the report's status and lies in the daemon's namespace, and
    when the run ends the last request either has written exactly that status to
    exactly that object, by name and namespace, and no error is returned, or it
    asks to delete exactly that object, and an error is returned. *)
Theorem processEvent_no_orphan {W : Type} (srv : Server SCall W) w hasLogger namespace nodeName event :
  server_ok srv keepsIdentity →
  let '(_, tr, r) := Prog.run (processEvent hasLogger namespace nodeName event) w in
  ∀ e0, e0 ∈ omap createdObject tr →
  e0 = ToENoExecEvent (en_Name e0) namespace nodeName event ∧ settled e0 r tr.
Proof.
  intros Hsrv.
  assert (Hw : wp keepsIdentity (processEvent hasLogger namespace nodeName event) (λ r tr,
    ∀ e0, e0 ∈ omap createdObject tr →
    e0 = ToENoExecEvent (en_Name e0) namespace nodeName event ∧ settled e0 r tr) []).
  { unfold processEvent. destruct hasLogger; cbn [negb]; prog_unfold; step; [|by intros ? ?%elem_of_nil].
    intros uuid _ wait _. destruct wait as [err|]; step; [by intros ? ?%elem_of_nil|].
    intros [c|err] Hc; step; [|by intros ? ?%elem_of_nil].
    apply wp_bind. eapply wp_mono; [|by apply updateStatus_wp, Hc].
    intros [e1 r] tr1 [[Ho Hn] E]. cbn [fst snd] in *. destruct r as [err|]; step.
    - intros a _ e0. rewrite omap_app, app_nil_r, E. intros ->%list_elem_of_singleton.
      split; [done|]. exists e1, a. split; [done|apply list.last_snoc].
    - intros e0. rewrite E. intros ->%list_elem_of_singleton. split; [done|]. by exists e1; destruct Hn. }
  pose proof (wp_run _ _ _ [] w Hsrv Hw) as H.
  by destruct (Prog.run _ w) as [[w' tr] r].
Qed.

(** *** Against a server that keeps the object *)

(** The object in the cluster and how many conflicts writers of its status are
    still going to meet. *)
Record Cluster := mkCluster { cl_object : option ENoExecEvent; cl_conflicts : nat }.

(** Status is a subresource: a creation drops it. *)
Definition without_Status (e : ENoExecEvent) : ENoExecEvent :=
  mkENoExec (en_Name e) (en_Namespace e) (en_Labels e) "" "" "" "".

#[export] Instance apiServer : Server SCall Cluster := λ T c w,
  match c in SCall T return Cluster * T with
  | NewUUID => (w, "uuid")
  | LimiterWait => (w, None)
  | CreateEvent e => (mkCluster (Some (without_Status e)) (cl_conflicts w), Ok (without_Status e))
  | GetStored _ _ =>
      (w, match cl_object w with Some e => Ok e | None => Err (mkErr KNotFound "not found") end)
  | UpdateStatus e =>
      match cl_conflicts w with
      | S n => (mkCluster (cl_object w) n, Some (mkErr KConflict "conflict"))
      | O => (mkCluster (Some e) 0, None)
      end
  | RollbackEvent _ => (mkCluster None (cl_conflicts w), None)
  end.

(** An event reaches the cluster complete in spite of up to four conflicts in a
    row; with five or more the object is gone again and the caller gets the error. *)
Theorem processEvent_conflicts namespace nodeName event n :
  let '(w, _, r) := Prog.run (processEvent true namespace nodeName event) (mkCluster None n) in
  if (n <? retrySteps)%nat
  then w = mkCluster (Some (ToENoExecEvent "uuid" namespace nodeName event)) 0 ∧ r = None
  else cl_object w = None ∧ r = Some (mkErr KConflict "conflict").
Proof. by do 6 (destruct n as [|n]; [done|]). Qed.

(** ** The daemon

    [RunDaemon]: the tracepoint worker, its monitor, the storage worker and the main
    goroutine, with the channel, the context and the ring buffer's reader between
    them.  A step is what a goroutine does between two points where another one
    may run.  Whether the tracepoint can be started ([startRun]), which records
    arrive, what [processRecord] makes of them and when the context is cancelled is
    up to the environment. *)
Section daemon.
Context {E : Type} (maxEvents : nat).

Inductive TpPc := TpStarting | TpReading | TpProcessing | TpSending (e : E) | TpDone | TpPanicked.
Inductive MonPc := MonIdle | MonStarting | MonWaiting | MonClosing | MonDone | MonPanicked.
Inductive StPc := StSelecting | StProcessing (e : E) | StDone.
Inductive MainPc := MainWaitCtx | MainWaitWorkers | MainReturned.

Record Daemon := mkDaemon {
  d_cancelled : bool;
  d_chan : list E;
  d_chanClosed : bool;
  (** [tp.ctx] is not [nil] *)
  d_tpCtx : bool;
  d_readerClosed : bool;
  d_tp : TpPc;
  d_mon : MonPc;
  d_st : StPc;
  d_main : MainPc;
  (** ghost: what was sent and what was taken from the channel *)
  d_sent : list E;
  d_taken : list E;
}.

Definition daemon_start : Daemon :=
  mkDaemon false [] false true false TpStarting MonIdle StSelecting MainWaitCtx [] [].

Inductive goroutine_step : Daemon → Daemon → Prop :=
| step_signal ch cc tc rc tp mo st ma se ta :
    goroutine_step (mkDaemon false ch cc tc rc tp mo st ma se ta)
                (mkDaemon true ch cc tc rc tp mo st ma se ta)
(* the tracepoint worker: [Run] up to its loop, which ends with [go tp.monitor(rd)] *)
| step_start c ch cc tc rc st ma se ta :
    goroutine_step (mkDaemon c ch cc tc rc TpStarting MonIdle st ma se ta)
                (mkDaemon c ch cc tc rc TpReading MonStarting st ma se ta)
| step_start_error c ch cc tc rc mo st ma se ta :
    (* every error path closes the tracepoint; then [cancelFn] and [wg.Done] *)
    goroutine_step (mkDaemon c ch cc tc rc TpStarting mo st ma se ta)
                (mkDaemon true ch cc false rc TpDone mo st ma se ta)
| step_read c ch cc tc mo st ma se ta :
    goroutine_step (mkDaemon c ch cc tc false TpReading mo st ma se ta)
                (mkDaemon c ch cc tc false TpProcessing mo st ma se ta)
| step_read_closed c ch cc tc mo st ma se ta :
    (* [Run] returns: deferred [close], [cancelFn] and [wg.Done] *)
    goroutine_step (mkDaemon c ch cc tc true TpReading mo st ma se ta)
                (mkDaemon true ch cc false true TpDone mo st ma se ta)
| step_read_error c ch cc tc mo st ma se ta :
    goroutine_step (mkDaemon c ch cc tc false TpReading mo st ma se ta)
                (mkDaemon true ch cc false true TpDone mo st ma se ta)
| step_record_panics c ch cc rc mo st ma se ta :
    goroutine_step (mkDaemon c ch cc false rc TpProcessing mo st ma se ta)
                (mkDaemon c ch cc false rc TpPanicked mo st ma se ta)
| step_record_dropped c ch cc rc mo st ma se ta :
    goroutine_step (mkDaemon c ch cc true rc TpProcessing mo st ma se ta)
                (mkDaemon c ch cc true rc TpReading mo st ma se ta)
| step_record_event c ch cc rc mo st ma se ta e :
    goroutine_step (mkDaemon c ch cc true rc TpProcessing mo st ma se ta)
                (mkDaemon c ch cc true rc (TpSending e) mo st ma se ta)
| step_send c ch tc rc mo st ma se ta e :
    (length ch < maxEvents)%nat →
    goroutine_step (mkDaemon c ch false tc rc (TpSending e) mo st ma se ta)
                (mkDaemon c (ch ++ [e]) false tc rc TpReading mo st ma (se ++ [e]) ta)
| step_send_closed c ch tc rc mo st ma se ta e :
    goroutine_step (mkDaemon c ch true tc rc (TpSending e) mo st ma se ta)
                (mkDaemon c ch true tc rc TpPanicked mo st ma se ta)
(* [monitor]: it reads [tp.ctx] for its logger and for [Done], which panics on the
   [nil] a [Run] that has already returned leaves; then [tp.close] and [rd.Close] *)
| step_monitor_start c ch cc rc tp st ma se ta :
    goroutine_step (mkDaemon c ch cc true rc tp MonStarting st ma se ta)
                (mkDaemon c ch cc true rc tp MonWaiting st ma se ta)
| step_monitor_panics c ch cc rc tp st ma se ta :
    goroutine_step (mkDaemon c ch cc false rc tp MonStarting st ma se ta)
                (mkDaemon c ch cc false rc tp MonPanicked st ma se ta)
| step_monitor_close ch cc tc rc tp st ma se ta :
    goroutine_step (mkDaemon true ch cc tc rc tp MonWaiting st ma se ta)
                (mkDaemon true ch cc false rc tp MonClosing st ma se ta)
| step_monitor_reader c ch cc tc rc tp st ma se ta :
    goroutine_step (mkDaemon c ch cc tc rc tp MonClosing st ma se ta)
                (mkDaemon c ch cc tc true tp MonDone st ma se ta)
(* the storage worker *)
| step_receive c e ch cc tc rc tp mo ma se ta :
    goroutine_step (mkDaemon c (e :: ch) cc tc rc tp mo StSelecting ma se ta)
                (mkDaemon c ch cc tc rc tp mo (StProcessing e) ma se (ta ++ [e]))
| step_store c ch cc tc rc tp mo e ma se ta :
    goroutine_step (mkDaemon c ch cc tc rc tp mo (StProcessing e) ma se ta)
                (mkDaemon c ch cc tc rc tp mo StSelecting ma se ta)
| step_storage_done ch cc tc rc tp mo ma se ta :
    goroutine_step (mkDaemon true ch cc tc rc tp mo StSelecting ma se ta)
                (mkDaemon true ch cc tc rc tp mo StDone ma se ta)
(* the main goroutine *)
| step_main_cancelled ch cc tc rc tp mo st se ta :
    goroutine_step (mkDaemon true ch cc tc rc tp mo st MainWaitCtx se ta)
                (mkDaemon true ch cc tc rc tp mo st MainWaitWorkers se ta)
| step_main_workers c ch cc tc rc mo se ta :
    goroutine_step (mkDaemon c ch cc tc rc TpDone mo StDone MainWaitWorkers se ta)
                (mkDaemon c ch true tc rc TpDone mo StDone MainReturned se ta).

(** A panic and the return of the main goroutine end the process. *)
Definition running (s : Daemon) : Prop :=
  d_tp s ≠ TpPanicked ∧ d_mon s ≠ MonPanicked ∧ d_main s ≠ MainReturned.
Definition daemon_step (s s' : Daemon) : Prop := running s ∧ goroutine_step s s'.

Definition daemon_reachable : Daemon → Prop := rtc daemon_step daemon_start.

(** *** Safety *)
Record daemon_inv (s : Daemon) : Prop := {
  di_fifo : d_sent s = d_taken s ++ d_chan s;
  di_bound : (length (d_chan s) ≤ maxEvents)%nat;
  di_closed : d_chanClosed s = true → d_tp s = TpDone ∧ d_st s = StDone ∧ d_main s = MainReturned;
  di_main : d_main s ≠ MainWaitCtx → d_cancelled s = true;
  di_returned : d_main s = MainReturned → d_chanClosed s = true;
  di_st : d_st s = StDone → d_cancelled s = true;
  di_tp : d_tp s = TpDone → d_cancelled s = true;
  di_mon : d_mon s = MonClosing ∨ d_mon s = MonDone ∨ d_mon s = MonPanicked → d_cancelled s = true;
  di_ctx : d_tpCtx s = false → d_cancelled s = true;
  di_reader : d_mon s = MonDone → d_readerClosed s = true;
  di_panic : d_tp s = TpPanicked → d_tpCtx s = false;
}.

Lemma daemon_inv_start : daemon_inv daemon_start.
Proof. split; cbn; try done; [lia|naive_solver]. Qed.

Lemma daemon_inv_step s s' : daemon_step s s' → daemon_inv s → daemon_inv s'.
Proof.
  intros [(Hp & Hm & Hr) Hs] [H1 H2 H3 H4 H5 H6 H7 H8 H9 H10 H11].
  destruct Hs; cbn in *; split; cbn in *;
    try first [assumption | done | by intros; discriminate | intuition congruence].
  - rewrite H1. by rewrite app_assoc.
  - rewrite length_app. cbn. lia.
  - rewrite H1. by rewrite <-app_assoc.
  - lia.
Qed.

Lemma daemon_inv_rtc s s' : rtc daemon_step s s' → daemon_inv s → daemon_inv s'.
Proof. induction 1; eauto using daemon_inv_step. Qed.

(** C25: the channel between the workers is used safely in every interleaving: the
    storage worker takes the events in the order they were sent, each once; the
    channel never holds more than its capacity; it is closed only after both
    workers have ended, so nothing is sent on it afterwards; and the tracepoint
    worker and its monitor panic at most during a shutdown. *)
Theorem daemon_channel_safe s :
  daemon_reachable s →
  d_sent s = d_taken s ++ d_chan s
  ∧ (length (d_chan s) ≤ maxEvents)%nat
  ∧ (d_chanClosed s = true → d_tp s = TpDone ∧ d_st s = StDone)
  ∧ (d_tp s = TpPanicked ∨ d_mon s = MonPanicked → d_cancelled s = true).
Proof.
  intros H. destruct (daemon_inv_rtc _ _ H daemon_inv_start). naive_solver.
Qed.

(** *** Shutdown *)

(** The tracepoint worker is about to use the context that was set to [nil], or waits
    for room in a channel that nobody empties any more. *)
Definition doomed (s : Daemon) : Prop :=
  (d_tp s = TpProcessing ∧ d_tpCtx s = false)
  ∨ (∃ e, d_tp s = TpSending e ∧ (maxEvents ≤ length (d_chan s))%nat ∧ d_st s = StDone).

Lemma doomed_step s s' :
  daemon_step s s' → d_chanClosed s = false → doomed s ∨ d_tp s = TpPanicked →
  doomed s' ∨ d_tp s' = TpPanicked.
Proof.
  intros [(Hp & Hmo & Hr) Hs] Hc Hd. unfold doomed in *. destruct Hs; cbn in *; try naive_solver.
  destruct Hd as [[[? ?]|(? & [= <-] & ? & ?)]|?]; [done|lia|done].
Qed.

Lemma doomed_rtc s s' :
  rtc daemon_step s s' → daemon_inv s → doomed s ∨ d_tp s = TpPanicked → d_main s' ≠ MainReturned.
Proof.
  induction 1 as [s|s t s' Hst _ IH]; intros Hi Hd.
  - intros Hm. destruct (di_closed s Hi) as (Ht & Hs & _); [by apply di_returned|].
    destruct Hd as [[[? ?]|(e & ? & ?)]|?]; congruence.
  - apply IH; [by eapply daemon_inv_step|]. eapply doomed_step; [exact Hst| |done].
    destruct (d_chanClosed s) eqn:Ec; [|done]. apply (di_closed s Hi) in Ec as (_ & _ & Hm).
    by destruct Hst as [(_ & _ & Hr) _].
Qed.

(** Each goroutine can be brought to its end. *)
Ltac one_step c := eapply rtc_l; [split; [by repeat split|apply c]|].

Lemma storage_ends ch cc tc rc tp mo st ma se ta :
  running (mkDaemon true ch cc tc rc tp mo st ma se ta) →
  rtc daemon_step (mkDaemon true ch cc tc rc tp mo st ma se ta)
                  (mkDaemon true ch cc tc rc tp mo StDone ma se ta).
Proof.
  intros (Hp & Hmo & Hr). cbn in *. destruct st as [|e|]; [|one_step step_store|done];
    by one_step step_storage_done.
Qed.

Lemma reading_ends ch cc tc rc mo st ma se ta :
  mo ≠ MonPanicked → ma ≠ MainReturned →
  rtc daemon_step (mkDaemon true ch cc tc rc TpReading mo st ma se ta)
                  (mkDaemon true ch cc false true TpDone mo st ma se ta).
Proof. intros Hmo Hr. destruct rc; [by one_step step_read_closed|by one_step step_read_error]. Qed.

(** Make room for one more event. *)
Lemma room_made ch cc tc rc tp mo st ma se ta :
  running (mkDaemon true ch cc tc rc tp mo st ma se ta) →
  (0 < maxEvents)%nat → (length ch ≤ maxEvents)%nat → st ≠ StDone ∨ (length ch < maxEvents)%nat →
  ∃ ch' st' ta', (length ch' < maxEvents)%nat ∧
  rtc daemon_step (mkDaemon true ch cc tc rc tp mo st ma se ta)
                  (mkDaemon true ch' cc tc rc tp mo st' ma se ta').
Proof.
  intros (Hp & Hmo & Hr) H0 Hl Hst. cbn in *. destruct (decide (length ch < maxEvents)%nat) as [|Hfull].
  { by exists ch, st, ta. }
  destruct ch as [|x ch]; [cbn in *; lia|]. cbn in *.
  destruct Hst as [Hst|?]; [|lia]. destruct st as [|e|]; [| |done].
  - exists ch, (StProcessing x), (ta ++ [x]). split; [lia|]. by one_step step_receive.
  - exists ch, (StProcessing x), (ta ++ [x]). split; [lia|].
    one_step step_store. by one_step step_receive.
Qed.

Lemma tracepoint_ends ch tc rc tp mo st ma se ta :
  let s := mkDaemon true ch false tc rc tp mo st ma se ta in
  running s → (0 < maxEvents)%nat → (length ch ≤ maxEvents)%nat → ¬ doomed s →
  ∃ ch' tc' rc' st' se' ta',
  rtc daemon_step s (mkDaemon true ch' false tc' rc' TpDone mo st' ma se' ta').
Proof.
  intros s (Hp & Hmo & Hr) H0 Hl Hd. unfold s, doomed in *. cbn in *.
  destruct tp as [| | |e| |]; [| | | | |done].
  - do 6 eexists. by one_step step_start_error.
  - do 6 eexists. by apply reading_ends.
  - destruct tc; [|by destruct Hd; left]. do 6 eexists.
    one_step step_record_dropped. by apply reading_ends.
  - edestruct (room_made ch false tc rc (TpSending e) mo st ma se ta) as (ch' & st' & ta' & Hl' & Hrtc);
      [by repeat split|done|done| |].
    { destruct (decide (length ch < maxEvents)%nat); [by right|left].
      intros ->. destruct Hd. right. exists e. repeat split. lia. }
    do 6 eexists. etrans; [exact Hrtc|]. one_step step_send; [exact Hl'|]. by apply reading_ends.
  - by do 6 eexists.
Qed.

(** C26: exactly when the daemon can still shut down.  From a reachable state of the
    running daemon, [RunDaemon] can still return if and only if the tracepoint
    worker is not about to use its [nil] context and not waiting for room in a
    channel the storage worker has left; in those two states it never returns. *)
Theorem daemon_shutdown s :
  (0 < maxEvents)%nat → daemon_reachable s → running s →
  (∃ s', rtc daemon_step s s' ∧ d_main s' = MainReturned) ↔ ¬ doomed s.
Proof.
  intros H0 Hreach Hrun. pose proof (daemon_inv_rtc _ _ Hreach daemon_inv_start) as Hi. split.
  { intros (s' & Hs & Hm) Hd. by eapply doomed_rtc; eauto. }
  intros Hd. pose proof (di_bound s Hi) as Hb.
  assert (d_chanClosed s = false) as Hcl.
  { destruct (d_chanClosed s) eqn:Ec; [|done]. apply (di_closed s Hi) in Ec as (_ & _ & Hm).
    by destruct Hrun as (_ & _ & ?). }
  destruct s as [c ch cc tc rc tp mo st ma se ta]. cbn in *. subst cc.
  assert (rtc daemon_step (mkDaemon c ch false tc rc tp mo st ma se ta)
                          (mkDaemon true ch false tc rc tp mo st ma se ta)) as H1.
  { destruct c; [done|]. eapply rtc_once. split; [done|constructor]. }
  destruct (tracepoint_ends ch tc rc tp mo st ma se ta) as (ch' & tc' & rc' & st' & se' & ta' & H2);
    [done..|].
  destruct Hrun as (_ & Hmo & Hma). cbn in Hmo, Hma.
  assert (running (mkDaemon true ch' false tc' rc' TpDone mo st' ma se' ta')) as H3 by done.
  exists (mkDaemon true ch' true tc' rc' TpDone mo StDone MainReturned se' ta'). split; [|done].
  etrans; [exact H1|]. etrans; [exact H2|]. etrans; [by apply storage_ends|].
  destruct ma; [| |done].
  - one_step step_main_cancelled. by one_step step_main_workers.
  - by one_step step_main_workers.
Qed.

(** The tracepoint is started and its monitor waits. *)
Definition daemon_started : Daemon :=
  mkDaemon false [] false true false TpReading MonWaiting StSelecting MainWaitCtx [] [].

Lemma daemon_starts : rtc daemon_step daemon_start daemon_started.
Proof. one_step step_start. by one_step step_monitor_start. Qed.

(** While the storage worker is busy the channel fills up. *)
Lemma channel_fills (e : E) n :
  (n ≤ maxEvents)%nat →
  rtc daemon_step daemon_start
    (mkDaemon false (replicate n e) false true false TpReading MonWaiting StSelecting MainWaitCtx
       (replicate n e) []).
Proof.
  induction n as [|n IH]; intros Hn; [exact daemon_starts|]. etrans; [apply IH; lia|].
  replace (replicate (S n) e) with (replicate n e ++ [e]) by (by rewrite <-replicate_S_end).
  one_step step_read. one_step (λ c ch cc rc mo st ma se ta, step_record_event c ch cc rc mo st ma se ta e).
  one_step step_send; [by rewrite length_replicate|done].
Qed.

(** The shutdown can fail in three ways, all reachable: the daemon comes to a halt
    before [RunDaemon] returned (the channel is full and the storage worker has
    left, so the send never completes and the wait for the workers never ends); the
    tracepoint worker panics, when a record is processed after [monitor] has set the
    context to [nil] and before it closed the reader; or [monitor] panics, when [Run]
    has returned, and set the context to [nil], before [monitor] has read it. *)
Theorem daemon_shutdown_can_fail (e : E) :
  (∃ s, daemon_reachable s ∧ running s ∧ ∀ s', ¬ daemon_step s s')
  ∧ (∃ s, daemon_reachable s ∧ d_tp s = TpPanicked)
  ∧ (∃ s, daemon_reachable s ∧ d_mon s = MonPanicked ∧ d_main s ≠ MainReturned).
Proof.
  split; [|split].
  - exists (mkDaemon true (replicate maxEvents e) false false true (TpSending e) MonDone StDone
              MainWaitWorkers (replicate maxEvents e) []). split; [|split; [done|]].
    + unfold daemon_reachable. etrans; [by apply (channel_fills e maxEvents)|].
      one_step step_read. one_step (λ c ch cc rc mo st ma se ta, step_record_event c ch cc rc mo st ma se ta e).
      one_step step_signal.
      one_step step_monitor_close. one_step step_monitor_reader. one_step step_storage_done.
      by one_step step_main_cancelled.
    + intros s' [_ Hs]. inversion Hs; subst. rewrite length_replicate in *. lia.
  - eexists. split.
    + unfold daemon_reachable. etrans; [apply daemon_starts|]. unfold daemon_started.
      one_step step_read. one_step step_signal. one_step step_monitor_close.
      one_step step_record_panics. apply rtc_refl.
    + done.
  - eexists. split.
    + unfold daemon_reachable, daemon_start. one_step step_start. one_step step_read_error.
      one_step step_monitor_panics. apply rtc_refl.
    + done.
Qed.
End daemon.
