(* ===== verification/GlobMatch.v ===== *)
(** * [path/filepath.Match]

    The matcher the image credentials rely on ([pkg/image/helpers_glob.go]), for
    ASCII text: the scanner that cuts a pattern into chunks, each with or without
    a star before it, the matcher of a chunk, and the loop over the chunks, which
    commits to the first place where a chunk fits.  The loop is proved to decide
    the declarative meaning of the pattern. *)
From Stdlib Require Import Ascii.
From stdpp Require Import base strings list sets.
From S2P Require Import Prelude.

Abbreviation chars := (list ascii).

(** What stands for one character: [?], a literal, a class. *)
Inductive Elem : Set :=
| EAny
| ELit (c : ascii)
| EClass (negated : bool) (ranges : list (ascii * ascii)).

Definition separator : ascii := "/".

Definition in_range (c : ascii) (r : ascii * ascii) : bool :=
  (nat_of_ascii r.1 <=? nat_of_ascii c) && (nat_of_ascii c <=? nat_of_ascii r.2).

Definition elem_ok (e : Elem) (c : ascii) : bool :=
  match e with
  | EAny => negb (bool_decide (c = separator))
  | ELit x => bool_decide (c = x)
  | EClass negated ranges => negb (eqb (existsb (in_range c) ranges) negated)
  end.

Definition isNil {A} (l : list A) : bool := match l with [] => true | _ => false end.

(** ** Parsing *)

Definition isc (x c : ascii) : bool := bool_decide (c = x).

Definition first_cons {A B} (a : A) (p : list A * B) : list A * B := (a :: p.1, p.2).

(** [scanChunk], after the stars: the text up to the next star outside a class.
    [escaped]: after a backslash. *)
Fixpoint takeChunk (inrange escaped : bool) (p : chars) : chars * chars :=
  match p with
  | [] => ([], [])
  | c :: p' =>
      if escaped then first_cons c (takeChunk inrange false p')
      else if isc "\" c then first_cons c (takeChunk inrange true p')
      else if isc "[" c then first_cons c (takeChunk true false p')
      else if isc "]" c then first_cons c (takeChunk false false p')
      else if isc "*" c && negb inrange then ([], p)
      else first_cons c (takeChunk inrange false p')
  end.

Fixpoint dropStars (p : chars) : bool * chars :=
  match p with
  | c :: p' => if isc "*" c then (true, (dropStars p').2) else (false, p)
  | [] => (false, [])
  end.

Definition scanChunk (p : chars) : bool * chars * chars :=
  ((dropStars p).1, (takeChunk false false (dropStars p).2).1, (takeChunk false false (dropStars p).2).2).

(** [getEsc]: a character of a class, which is not the last of the chunk *)
Definition getEsc (p : chars) : option (ascii * chars) :=
  match p with
  | [] => None
  | c :: p' =>
      if isc "-" c || isc "]" c then None
      else if isc "\" c then
        match p' with
        | d :: (_ :: _) as q => Some (d, q)
        | _ => None
        end
      else match p' with
           | [] => None
           | _ => Some (c, p')
           end
  end.

(** The ranges of a class up to its end. *)
Fixpoint parseRanges (fuel : nat) (acc : list (ascii * ascii)) (p : chars) :
    option (list (ascii * ascii) * chars) :=
  match fuel with
  | O => None
  | S fuel' =>
      match p with
      | [] => None
      | c :: p' =>
          if isc "]" c && negb (isNil acc) then Some (acc, p')
          else
            e ← getEsc p;
            match e.2 with
            | [] => None
            | d :: p2 =>
                if isc "-" d then
                  h ← getEsc p2;
                  parseRanges fuel' (acc ++ [(e.1, h.1)]) h.2
                else parseRanges fuel' (acc ++ [(e.1, e.1)]) (d :: p2)
            end
      end
  end.

(** The elements of a chunk; [None] is [ErrBadPattern]. *)
Fixpoint parseChunk (fuel : nat) (p : chars) : option (list Elem) :=
  match fuel with
  | O => None
  | S fuel' =>
      match p with
      | [] => Some []
      | c :: p1 =>
          if isc "[" c then
            let negated := match p1 with d :: _ => isc "^" d | [] => false end in
            let p2 := if negated then tail p1 else p1 in
            r ← parseRanges (length p2) [] p2;
            es ← parseChunk fuel' r.2; Some (EClass negated r.1 :: es)
          else if isc "?" c then es ← parseChunk fuel' p1; Some (EAny :: es)
          else if isc "\" c then
            match p1 with
            | [] => None
            | d :: p2 => es ← parseChunk fuel' p2; Some (ELit d :: es)
            end
          else es ← parseChunk fuel' p1; Some (ELit c :: es)
      end
  end.

(** A chunk with whether there is a star before it. *)
Abbreviation Seg := (bool * list Elem)%type.

Fixpoint parsePattern (fuel : nat) (p : chars) : option (list Seg) :=
  match fuel, p with
  | _, [] => Some []
  | O, _ => None
  | S fuel', _ =>
      let '(star, chunk, rest) := scanChunk p in
      es ← parseChunk (S (length chunk)) chunk;
      segs ← parsePattern fuel' rest;
      Some ((star, es) :: segs)
  end.

(** ** Matching *)

(** [matchChunk]: what is left of the text *)
Fixpoint matchChunk (es : list Elem) (s : chars) : option chars :=
  match es, s with
  | [], _ => Some s
  | e :: es', c :: s' => if elem_ok e c then matchChunk es' s' else None
  | _ :: _, [] => None
  end.

(** The last chunk must exhaust the text. *)
Definition accept (es : list Elem) (last : bool) (s : chars) : option chars :=
  t ← matchChunk es s;
  if last && negb (bool_decide (t = [])) then None else Some t.

(** Look for the chunk further on; a star does not skip a separator. *)
Fixpoint skipTo (es : list Elem) (last : bool) (s : chars) : option chars :=
  match s with
  | [] => None
  | c :: s' =>
      if bool_decide (c = separator) then None
      else match accept es last s' with
           | Some t => Some t
           | None => skipTo es last s'
           end
  end.

Fixpoint matchSegs (segs : list Seg) (s : chars) : bool :=
  match segs with
  | [] => isNil s
  | (star, es) :: segs' =>
      if star && isNil es then negb (existsb (λ c, bool_decide (c = separator)) s)
      else match accept es (isNil segs') s with
           | Some t => matchSegs segs' t
           | None =>
               if star then
                 match skipTo es (isNil segs') s with
                 | Some t => matchSegs segs' t
                 | None => false
                 end
               else false
           end
  end.

(** [filepath.Match(pattern, name)] *)
Definition Match (pattern name : string) : res bool :=
  let p := String.list_ascii_of_string pattern in
  match parsePattern (length p) p with
  | None => Err (errOther "syntax error in pattern")
  | Some segs => Ok (matchSegs segs (String.list_ascii_of_string name))
  end.

(** ** The meaning of a pattern *)
Inductive Tok : Set := TStar | TElem (e : Elem).

Definition plain (s : chars) : Prop := separator ∉ s.

Inductive glob : list Tok → chars → Prop :=
| glob_nil : glob [] []
| glob_star x ts s : plain x → glob ts s → glob (TStar :: ts) (x ++ s)
| glob_elem e c ts s : elem_ok e c = true → glob ts s → glob (TElem e :: ts) (c :: s).

Definition tokens (segs : list Seg) : list Tok :=
  flat_map (λ sg : Seg, (if sg.1 then [TStar] else []) ++ (TElem <$> sg.2)) segs.

(** How the scanner cuts: a star before every chunk but the first, and no chunk
    empty but one after a last star. *)
Fixpoint wf_segs (segs : list Seg) : Prop :=
  match segs with
  | [] => True
  | sg :: segs' => (sg.2 = [] → sg.1 = true ∧ segs' = [])
                   ∧ Forall (λ sg : Seg, sg.1 = true) segs' ∧ wf_segs segs'
  end.

(** *** The matcher decides it *)
Lemma glob_elems es ts s :
  glob ((TElem <$> es) ++ ts) s ↔ ∃ t, matchChunk es s = Some t ∧ glob ts t.
Proof.
  revert s. induction es as [|e es IH]; intros s; cbn.
  - split; [by exists s|]. by intros (t & [= ->] & ?).
  - split.
    + inversion 1 as [| |e' c ts' s' He Hs]; subst. rewrite He. by apply IH.
    + destruct s as [|c s]; [by intros (? & ? & ?)|]. destruct (elem_ok e c) eqn:He; [|by intros (? & ? & ?)].
      intros Ht%IH. by constructor.
Qed.

Lemma glob_star_inv ts s : glob (TStar :: ts) s ↔ ∃ x t, s = x ++ t ∧ plain x ∧ glob ts t.
Proof.
  split.
  - inversion 1; subst; eauto.
  - intros (x & t & -> & Hx & Ht). by constructor.
Qed.

(** A star absorbs what is put before it. *)
Lemma glob_star_more ts x s : plain x → glob (TStar :: ts) s → glob (TStar :: ts) (x ++ s).
Proof.
  intros Hx (y & t & -> & Hy & Ht)%glob_star_inv. rewrite app_assoc. constructor; [|done].
  unfold plain in *. set_solver.
Qed.

Lemma matchChunk_suffix es s t : matchChunk es s = Some t → ∃ x, s = x ++ t ∧ length x = length es.
Proof.
  revert s. induction es as [|e es IH]; intros s; cbn.
  - intros [= ->]. by exists [].
  - destruct s as [|c s]; [done|]. destruct (elem_ok e c); [|done].
    intros (x & -> & Hl)%IH. exists (c :: x). cbn. by rewrite Hl.
Qed.

(** The first suffix at which a chunk is accepted, if any. *)
Definition firstAccept (es : list Elem) (last : bool) (s : chars) : option chars :=
  match accept es last s with
  | Some t => Some t
  | None => skipTo es last s
  end.

Lemma plain_cons c s : plain (c :: s) ↔ c ≠ separator ∧ plain s.
Proof. unfold plain. set_solver. Qed.

Lemma firstAccept_cons es last c s :
  plain (c :: s) →
  firstAccept es last (c :: s) = match accept es last (c :: s) with
                                 | Some t => Some t
                                 | None => firstAccept es last s
                                 end.
Proof.
  intros [Hc _]%plain_cons. unfold firstAccept. cbn [skipTo].
  by rewrite (bool_decide_eq_false_2 (c = separator)).
Qed.

Lemma firstAccept_sound es last s t :
  plain s → firstAccept es last s = Some t → ∃ x s', s = x ++ s' ∧ accept es last s' = Some t.
Proof.
  induction s as [|c s IH]; intros Hp.
  - unfold firstAccept. destruct (accept es last []) eqn:E; [|done]. intros [= <-]. by exists [], [].
  - rewrite firstAccept_cons by done. destruct (accept es last (c :: s)) eqn:E.
    + intros [= <-]. by exists [], (c :: s).
    + apply plain_cons in Hp as [_ Hp]. intros (x & s' & -> & H)%IH; [|done]. by exists (c :: x), s'.
Qed.

(** It leaves at least as much as any other place. *)
Lemma firstAccept_first es last x s t :
  plain (x ++ s) → accept es last s = Some t →
  ∃ y, firstAccept es last (x ++ s) = Some (y ++ t).
Proof.
  induction x as [|c x IH]; intros Hp Ha.
  - exists []. unfold firstAccept. cbn. by rewrite Ha.
  - cbn [app]. rewrite firstAccept_cons by done. destruct (accept es last (c :: x ++ s)) as [t'|] eqn:E.
    + unfold accept in *.
      destruct (matchChunk es (c :: x ++ s)) as [u|] eqn:E1; [|done]. cbn in E.
      destruct (matchChunk es s) as [v|] eqn:E2; [|done]. cbn in Ha.
      destruct (last && _) in E; [done|]. injection E as <-.
      destruct (last && _) in Ha; [done|]. injection Ha as <-.
      apply matchChunk_suffix in E1 as (a & Ea & Hla). apply matchChunk_suffix in E2 as (b & -> & Hlb).
      rewrite app_assoc, app_comm_cons in Ea.
      exists (drop (length a) ((c :: x) ++ b)). f_equal.
      rewrite <-(drop_app_length' a u (length a)), <-Ea by done.
      rewrite drop_app_le; [done|]. cbn. rewrite length_app. lia.
    + apply plain_cons in Hp as [_ Hp]. by apply IH.
Qed.

Lemma accept_Some es last s t :
  accept es last s = Some t ↔ matchChunk es s = Some t ∧ (last = true → t = []).
Proof.
  unfold accept. destruct (matchChunk es s) as [u|]; cbn; [|naive_solver].
  destruct last; cbn; [|naive_solver]. case_bool_decide; cbn; naive_solver.
Qed.

Lemma plain_app s t : plain (s ++ t) ↔ plain s ∧ plain t.
Proof. unfold plain. set_solver. Qed.

(** What is left to do after a chunk is accepted. *)
Lemma accept_glob es segs s :
  (∃ t, accept es (isNil segs) s = Some t ∧ glob (tokens segs) t)
  ↔ ∃ t, matchChunk es s = Some t ∧ glob (tokens segs) t.
Proof.
  setoid_rewrite accept_Some. split; intros (t & H & Hg); exists t; [naive_solver|].
  split; [|done]. split; [done|]. destruct segs; [|done]. intros _. by inversion Hg.
Qed.

Lemma tokens_cons star es segs :
  tokens ((star, es) :: segs) = (if star : bool then [TStar] else []) ++ (TElem <$> es) ++ tokens segs.
Proof. unfold tokens. cbn. by rewrite app_assoc. Qed.

(** The first accepted place is as good as any. *)
Lemma star_first es segs s :
  Forall (λ sg : Seg, sg.1 = true) segs → plain s →
  glob (TStar :: (TElem <$> es) ++ tokens segs) s
  ↔ ∃ t, firstAccept es (isNil segs) s = Some t ∧ glob (tokens segs) t.
Proof.
  intros Hs Hp. rewrite glob_star_inv. split.
  - intros (x & s' & -> & Hx & Hg). apply glob_elems, accept_glob in Hg as (t & Ha & Hg).
    destruct (firstAccept_first es (isNil segs) x s' t Hp Ha) as [y Hy].
    exists (y ++ t). split; [done|]. apply firstAccept_sound in Hy as (a & b & Hab & Hb); [|done].
    apply accept_Some in Hb as [Hb Hl]. destruct segs as [|[[] es'] segs].
    + rewrite Hl by done. constructor.
    + rewrite tokens_cons. rewrite tokens_cons in Hg. apply glob_star_more; [|done].
      apply matchChunk_suffix in Hb as (u & -> & _). rewrite Hab, !plain_app in Hp. by apply Hp.
    + by apply Forall_cons_1 in Hs as [[=] _].
  - intros (t & Hf & Hg). apply firstAccept_sound in Hf as (x & s' & -> & Ha); [|done].
    exists x, s'. apply plain_app in Hp as [Hx _]. split; [done|]. split; [done|].
    apply glob_elems, accept_glob. by exists t.
Qed.

Lemma matchSegs_glob segs s :
  wf_segs segs → plain s → matchSegs segs s = true ↔ glob (tokens segs) s.
Proof.
  revert s. induction segs as [|[star es] segs IH]; intros s Hwf Hp.
  { cbn. destruct s; cbn; split; [constructor|done|done|by inversion 1]. }
  destruct Hwf as (He & Hs & Hwf). cbn [fst snd] in *. rewrite tokens_cons. cbn [matchSegs].
  assert (∀ t, plain t → matchSegs segs t = true ↔ glob (tokens segs) t) as IH' by auto. clear IH.
  destruct star; cbn [andb app].
  - destruct es as [|e es]; cbn [isNil].
    + destruct (He eq_refl) as [_ ->]. cbn. rewrite negb_true_iff. split.
      * intros _. rewrite <-(app_nil_r s). by repeat constructor.
      * intros _. apply not_true_is_false. rewrite existsb_bool_decide.
        intros (c & Hc & ->)%Exists_exists. by apply Hp, list_elem_of_In.
    + rewrite star_first by done. unfold firstAccept.
      destruct (accept (e :: es) (isNil segs) s) as [t|] eqn:E1; [|destruct (skipTo _ _ s) as [t|] eqn:E2].
      * apply accept_Some in E1 as [E1 _]. apply matchChunk_suffix in E1 as (x & -> & _).
        apply plain_app in Hp as [_ Hp]. rewrite IH' by done. naive_solver.
      * assert (firstAccept (e :: es) (isNil segs) s = Some t) as Hf by (unfold firstAccept; by rewrite E1).
        apply firstAccept_sound in Hf as (x & s' & -> & Ha); [|done].
        apply accept_Some in Ha as [Ha _]. apply matchChunk_suffix in Ha as (y & -> & _).
        rewrite !plain_app in Hp. rewrite IH' by apply Hp. naive_solver.
      * naive_solver.
  - rewrite glob_elems, <-accept_glob. destruct (accept es (isNil segs) s) as [t|] eqn:E; [|naive_solver].
    apply accept_Some in E as [E _]. apply matchChunk_suffix in E as (x & -> & _).
    apply plain_app in Hp as [_ Hp]. rewrite IH' by done. naive_solver.
Qed.

(** *** The parser *)
Definition starts_star (p : chars) : Prop := ∃ p', p = "*"%char :: p'.

Lemma isc_true x c : isc x c = true ↔ c = x.
Proof. apply bool_decide_eq_true. Qed.

Lemma takeChunk_rest i e p : (takeChunk i e p).2 = [] ∨ starts_star (takeChunk i e p).2.
Proof.
  revert i e. induction p as [|c p IH]; intros i e; cbn; [by left|].
  destruct e; [apply IH|]. destruct (isc "\" c); [apply IH|]. destruct (isc "[" c); [apply IH|].
  destruct (isc "]" c); [apply IH|]. destruct (isc "*" c) eqn:E; cbn; [|apply IH].
  apply isc_true in E as ->. destruct i; cbn; [apply IH|]. right. by eexists.
Qed.

Lemma takeChunk_nil i e p :
  (takeChunk i e p).1 = [] → p = [] ∨ starts_star p.
Proof.
  destruct p as [|c p]; [by left|]. cbn. right. destruct e; [done|]. destruct (isc "\" c); [done|].
  destruct (isc "[" c); [done|]. destruct (isc "]" c); [done|].
  destruct (isc "*" c) eqn:E; cbn in *; [|done]. apply isc_true in E as ->. by eexists.
Qed.

Lemma takeChunk_length i e p :
  length (takeChunk i e p).1 + length (takeChunk i e p).2 = length p.
Proof.
  revert i e. induction p as [|c p IH]; intros i e; cbn; [done|].
  destruct e; [|destruct (isc "\" c); [|destruct (isc "[" c); [|destruct (isc "]" c);
    [|destruct (_ && _); [done|]]]]]; cbn; by rewrite IH.
Qed.

Lemma dropStars_no_star p : ¬ starts_star (dropStars p).2.
Proof.
  induction p as [|c p IH]; cbn; [by intros [? ?]|]. destruct (isc "*" c) eqn:E; [done|].
  intros (p' & [= -> ->]). done.
Qed.

Lemma dropStars_star p : starts_star p → (dropStars p).1 = true.
Proof. by intros [p' ->]. Qed.

Lemma dropStars_length p :
  length (dropStars p).2 + (if (dropStars p).1 then 1 else 0) ≤ length p.
Proof.
  induction p as [|c p IH]; cbn; [lia|]. destruct (isc "*" c); cbn; [|lia].
  destruct (dropStars p).1; lia.
Qed.

(** Every round of the scanner makes progress. *)
Lemma scanChunk_progress p : p ≠ [] → length (scanChunk p).2 < length p.
Proof.
  intros Hp. unfold scanChunk. cbn. pose proof (dropStars_length p) as H1.
  pose proof (takeChunk_length false false (dropStars p).2) as H2.
  destruct (dropStars p).1 eqn:Es; [lia|].
  destruct (takeChunk false false (dropStars p).2).1 eqn:Et; [|cbn in *; lia].
  apply takeChunk_nil in Et as [Et|Et]; [|by apply dropStars_no_star in Et].
  destruct p as [|c p]; [done|]. cbn in Es, Et. by destruct (isc "*" c).
Qed.

Lemma parseChunk_nil n p : parseChunk n p = Some [] → p = [].
Proof.
  destruct n; cbn; [done|]. destruct p as [|c p]; [done|]. intros H.
  repeat match goal with
  | H : (_ ≫= _) = Some _ |- _ => apply bind_Some in H as (? & ? & H)
  | H : (if ?b then _ else _) = Some _ |- _ => destruct b
  | H : match ?x with _ => _ end = Some _ |- _ => destruct x
  end; done.
Qed.

Lemma parsePattern_star n p segs :
  p = [] ∨ starts_star p → parsePattern n p = Some segs →
  match segs with [] => True | sg :: _ => sg.1 = true end.
Proof.
  intros [->|Hs] H; [by destruct n; injection H as <-|].
  destruct Hs as [p' ->]. destruct n as [|n]; [done|]. cbn -[scanChunk parseChunk] in H.
  apply bind_Some in H as (es & _ & H). apply bind_Some in H as (segs' & _ & [= <-]). done.
Qed.

Lemma parsePattern_wf n p segs : parsePattern n p = Some segs → wf_segs segs.
Proof.
  revert p segs. induction n as [|n IH]; intros p segs H.
  { destruct p; [by injection H as <-|done]. }
  destruct p as [|c p]; [by injection H as <-|]. set (q := c :: p) in *.
  change (parsePattern (S n) q) with
    (es ← parseChunk (S (length (takeChunk false false (dropStars q).2).1))
           (takeChunk false false (dropStars q).2).1;
     segs ← parsePattern n (takeChunk false false (dropStars q).2).2;
     Some (((dropStars q).1, es) :: segs)) in H.
  apply bind_Some in H as (es & He & H). apply bind_Some in H as (segs' & Hs & [= <-]).
  pose proof (takeChunk_rest false false (dropStars q).2) as Hr.
  assert (Forall (λ sg : Seg, sg.1 = true) segs' ∧ wf_segs segs') as [Hf Hw].
  { specialize (IH _ _ Hs). split; [|done]. apply parsePattern_star in Hs; [|done].
    destruct segs' as [|sg segs']; [done|]. constructor; [done|]. by destruct IH as (_ & ? & _). }
  split; [|done]. cbn. intros ->. apply parseChunk_nil in He.
  destruct (takeChunk_nil _ _ _ He) as [Hn|Hn]; [|by apply dropStars_no_star in Hn].
  rewrite Hn in Hs. cbn in Hs. destruct n; injection Hs as <-; split; try done;
    subst q; cbn in *; by destruct (isc "*" c).
Qed.

(** The fuel is enough: with at least as much as there is text, more makes no
    difference. *)
Lemma getEsc_length p e : getEsc p = Some e → length e.2 < length p.
Proof.
  destruct p as [|c p]; cbn; [done|]. destruct (_ || _); [done|].
  destruct (isc "\" c); destruct p as [|d [|d' p]]; intros [= <-] || done; cbn; lia.
Qed.

Lemma parseRanges_length n acc p r : parseRanges n acc p = Some r → length r.2 < length p.
Proof.
  revert acc p. induction n as [|n IH]; intros acc p; cbn; [done|]. destruct p as [|c p]; [done|].
  destruct (_ && _); [intros [= <-]; cbn; lia|]. intros (e & He & H)%bind_Some.
  apply getEsc_length in He. destruct e.2 as [|d p2] eqn:Ee; [done|]. destruct (isc "-" d).
  - apply bind_Some in H as (h & Hh & H). apply getEsc_length in Hh. apply IH in H. cbn in *. lia.
  - apply IH in H. cbn in *. lia.
Qed.

Lemma parseRanges_fuel n m acc p :
  length p ≤ n → length p ≤ m → parseRanges n acc p = parseRanges m acc p.
Proof.
  revert m acc p. induction n as [|n IH]; intros [|m] acc [|c p] Hn Hm; cbn in Hn, Hm; try done; try lia.
  cbn [parseRanges]. destruct (_ && _); [done|].
  destruct (getEsc (c :: p)) as [e|] eqn:He; cbn [mbind option_bind]; [|done].
  apply getEsc_length in He. cbn in He.
  destruct e.2 as [|d p2] eqn:Ee; [done|]. cbn in He. destruct (isc "-" d).
  - destruct (getEsc p2) as [h|] eqn:Hh; cbn [mbind option_bind]; [|done].
    apply getEsc_length in Hh. apply IH; lia.
  - apply IH; cbn; lia.
Qed.

Lemma parseChunk_fuel n m p : length p < n → length p < m → parseChunk n p = parseChunk m p.
Proof.
  revert m p. induction n as [|n IH]; intros [|m] p Hn Hm; try lia. cbn.
  destruct p as [|c p]; [done|]. cbn in Hn, Hm.
  destruct (isc "[" c); [|destruct (isc "?" c); [|destruct (isc "\" c)]].
  - match goal with |- context [parseRanges (length ?q) [] ?q] =>
      assert (length q ≤ length p)
        by (destruct p as [|d p]; [done|]; destruct (isc "^" d); cbn; lia);
      destruct (parseRanges (length q) [] q) as [r|] eqn:Er; cbn; [|done]
    end.
    apply parseRanges_length in Er. rewrite (IH m r.2); [done|lia|lia].
  - rewrite (IH m p); [done|lia|lia].
  - destruct p as [|d p]; [done|]. cbn in *. rewrite (IH m p); [done|lia|lia].
  - rewrite (IH m p); [done|lia|lia].
Qed.

Lemma parsePattern_fuel n m p :
  length p ≤ n → length p ≤ m → parsePattern n p = parsePattern m p.
Proof.
  revert m p. induction n as [|n IH]; intros m p Hn Hm.
  { destruct p; [by destruct m|cbn in *; lia]. }
  destruct p as [|c p]; [by destruct m|]. destruct m as [|m]; [cbn in *; lia|].
  pose proof (scanChunk_progress (c :: p) ltac:(done)) as Hp.
  cbn [parsePattern]. destruct (scanChunk (c :: p)) as [[star chunk] rest]. cbn in Hn, Hm, Hp.
  destruct (parseChunk (S (length chunk)) chunk); cbn [mbind option_bind]; [|done].
  rewrite (IH m rest); [done|lia|lia].
Qed.

(** [filepath.Match] decides the meaning of a pattern, on names without a
    separator: a star stands for any text, [?] for any character, a class for the
    characters in its ranges (or outside them), and anything else for itself.  The
    loop commits to the first place where a chunk fits and never goes back. *)
Theorem Match_spec pattern name segs :
  let p := String.list_ascii_of_string pattern in
  parsePattern (length p) p = Some segs → plain (String.list_ascii_of_string name) →
  ∃ b, Match pattern name = Ok b
  ∧ (b = true ↔ glob (tokens segs) (String.list_ascii_of_string name)).
Proof.
  intros p Hs Hp. unfold Match. fold p. rewrite Hs. eexists. split; [done|].
  apply matchSegs_glob; [|done]. by eapply parsePattern_wf.
Qed.
