(* ===== verification/ImageAuth.v ===== *)
(** * Registry credentials

    [pkg/image/auth.go] and [helpers_glob.go]: the pull secrets of an image are
    merged into one set of credentials by registry; entries whose registry is a
    glob are expanded for the image, so that the image library, which knows no
    globs, finds them.

    [net/url] enters through the class [NetURL]; what is relied on is [NetURLLaws]. *)
From Stdlib Require Import Ascii.
From stdpp Require Import base gmap strings list relations.
From S2P Require Import Prelude GoStd GlobMatch.

(** ** URLs *)

(** [url.URL]: the host (with the port), the path, and the rest (user, query,
    fragment), which the code does not look at *)
Record URL := mkURL { u_Host : string; u_Path : string; u_Rest : string }.

Definition with_Host (h : string) (u : URL) : URL := mkURL h (u_Path u) (u_Rest u).

(** [strings.TrimPrefix] *)
Fixpoint dropPrefix (p s : string) : option string :=
  match p, s with
  | EmptyString, _ => Some s
  | String a p', String b s' => if bool_decide (a = b) then dropPrefix p' s' else None
  | String _ _, EmptyString => None
  end.
Definition trimPrefix (s p : string) : string := default s (dropPrefix p s).

Class NetURL := {
  (** [url.Parse] *)
  url_Parse : string → option URL;
  (** [URL.String] of a URL without a scheme *)
  url_String : URL → string;
}.

(** [strings.Index], [strings.LastIndex] for one character, as the texts around it *)
Fixpoint splitFirst (c : ascii) (s : string) : option (string * string) :=
  match s with
  | EmptyString => None
  | String a s' =>
      if bool_decide (a = c) then Some ("", s')
      else '(x, y) ← splitFirst c s'; Some (String a x, y)
  end.

Fixpoint splitLast (c : ascii) (s : string) : option (string * string) :=
  match s with
  | EmptyString => None
  | String a s' =>
      match splitLast c s' with
      | Some (x, y) => Some (String a x, y)
      | None => if bool_decide (a = c) then Some ("", s') else None
      end
  end.

(** [authCfg] *)
Abbreviation Auths := (gmap string string).

Section urls.
Context `{NetURL}.

Definition ParseSchemelessURL (s : string) : option URL := url_Parse ("https://" +:+ s).

(** [net.SplitHostPort]; [None] is an error *)
Definition SplitHostPort (hostport : string) : option (string * string) :=
  '(before, port) ← splitLast ":" hostport;
  match hostport with
  | String "[" inner =>
      '(h, after) ← splitFirst "]" hostport;
      if bool_decide (before = h +:+ "]") && negb (has_char "[" inner) && negb (has_char "]" after)
      then host ← dropPrefix "[" h; Some (host, port)
      else None
  | _ =>
      if has_char ":" before || has_char "[" hostport || has_char "]" hostport then None
      else Some (before, port)
  end.

Definition SplitURL (u : URL) : list string * string :=
  let '(host, port) := default (u_Host u, "") (SplitHostPort (u_Host u)) in
  (split_on "." host, port).

(** The loop over the parts, which are as many on both sides. *)
Fixpoint matchParts (globs targets : list string) : res bool :=
  match globs, targets with
  | g :: globs', t :: targets' =>
      matched ← Match g t;
      if matched : bool then matchParts globs' targets' else Ok false
  | _, _ => Ok true
  end.

Definition URLsMatch (globURL targetURL : URL) : res bool :=
  let '(globParts, globPort) := SplitURL globURL in
  let '(targetParts, targetPort) := SplitURL targetURL in
  if negb (bool_decide (globPort = targetPort)) then Ok false
  else if negb (length globParts =? length targetParts) then Ok false
  else if negb (hasPrefix (u_Path targetURL) (u_Path globURL)) then Ok false
  else matchParts globParts targetParts.

Definition URLsMatchStr (glob target : string) : res bool :=
  match ParseSchemelessURL glob, ParseSchemelessURL target with
  | Some g, Some t => URLsMatch g t
  | _, _ => Err (errOther "parse error")
  end.

(** ** Credentials *)
Definition addAuth (registry auth : string) (ac : Auths) : Auths := <[registry := auth]> ac.

(** The map that is merged wins, in whatever order it is read. *)
Definition addAuths (registryAuths ac : Auths) : Auths := map_fold addAuth ac registryAuths.

Definition containsGlob (s : string) : bool :=
  has_char "*" s || has_char "?" s || has_char "]" s.

(** The registry with the host of the image; [None] when they do not match *)
Definition matchAndExpandGlob (registryGlob imageReference : string) : option string :=
  if negb (containsGlob registryGlob) then None
  else
    let imageReference := trimPrefix imageReference "//" in
    match URLsMatchStr registryGlob imageReference with
    | Ok true =>
        irURL ← ParseSchemelessURL imageReference;
        regURL ← ParseSchemelessURL registryGlob;
        Some (trimPrefix (url_String (with_Host (u_Host irURL) regURL)) "//")
    | _ => None
    end.

(** The body of the loop of [expandGlobs] for one registry. *)
Definition expandOne (imageReference registry : string) (ac : Auths) : Auths :=
  match ac !! registry, matchAndExpandGlob registry imageReference with
  | Some auth, Some regURL =>
      if bool_decide (regURL = "") then ac
      else match ac !! regURL with
           | Some _ => ac
           | None => addAuth regURL auth ac
           end
  | _, _ => ac
  end.

(** [expandGlobs]: a [range] over a map visits the entries that are there from the
    beginning in any order, and may or may not visit those that are added. *)
Inductive expandLoop (imageReference : string) (initial : gset string) :
    gset string → Auths → Auths → Prop :=
| expand_end ac : expandLoop imageReference initial ∅ ac ac
| expand_initial todo k ac ac' :
    k ∈ todo →
    expandLoop imageReference initial (todo ∖ {[k]}) (expandOne imageReference k ac) ac' →
    expandLoop imageReference initial todo ac ac'
| expand_added todo k ac ac' :
    k ∈ dom ac → k ∉ initial →
    expandLoop imageReference initial todo (expandOne imageReference k ac) ac' →
    expandLoop imageReference initial todo ac ac'.

Definition expandGlobs (imageReference : string) (ac ac' : Auths) : Prop :=
  expandLoop imageReference (dom ac) (dom ac) ac ac'.

(** ** [marshaledImagePullSecrets] *)
Context (unmarshal : string → option Auths) (marshallAuths : Auths → res string).

Definition unmarshallAuthsDataAndStore (authsBytes : string) (ac : Auths) : res Auths :=
  match unmarshal authsBytes with
  | None => Err (errOther "invalid JSON")
  | Some auths => Ok (addAuths auths ac)
  end.

(** A secret that cannot be read is skipped. *)
Fixpoint mergeSecrets (secrets : list string) (ac : Auths) : Auths :=
  match secrets with
  | [] => ac
  | s :: secrets' =>
      mergeSecrets secrets' (match unmarshallAuthsDataAndStore s ac with Ok ac' => ac' | Err _ => ac end)
  end.

Definition marshaledImagePullSecrets (imageReference : string) (secrets : list string)
    (authJSON : res string) : Prop :=
  ∃ ac, expandGlobs imageReference (mergeSecrets secrets ∅) ac ∧ authJSON = marshallAuths ac.
End urls.

(** What is relied on of [net/url]: a host has no slash, and a URL printed without
    its scheme, with the host of another one, parses back to what was printed. *)
Class NetURLLaws `{NetURL} := {
  url_host_plain s u : ParseSchemelessURL s = Some u → has_char "/" (u_Host u) = false;
  url_roundtrip s t u v :
    ParseSchemelessURL s = Some u → ParseSchemelessURL t = Some v →
    ParseSchemelessURL (trimPrefix (url_String (with_Host (u_Host v) u)) "//")
    = Some (with_Host (u_Host v) u);
}.

(** ** Merging *)
Lemma addAuths_union r ac : addAuths r ac = r ∪ ac.
Proof.
  unfold addAuths, addAuth. induction r as [|k v r Hk Hf IH] using map_first_key_ind.
  - rewrite map_fold_empty. by rewrite (left_id_L ∅ (∪)).
  - rewrite map_fold_insert_first_key by done. rewrite IH. by rewrite insert_union_l.
Qed.

(** The last secret that has the registry. *)
Definition lastAuth (unmarshal : string → option Auths) (secrets : list string) (registry : string) :
    option string :=
  list.last (omap (λ s, unmarshal s ≫= (.!! registry)) secrets).

Lemma mergeSecrets_lookup unmarshal secrets ac registry :
  mergeSecrets unmarshal secrets ac !! registry
  = match lastAuth unmarshal secrets registry with
    | Some auth => Some auth
    | None => ac !! registry
    end.
Proof.
  revert ac. induction secrets as [|s secrets IH]; intros ac; cbn [mergeSecrets]; [done|].
  rewrite IH. unfold lastAuth, unmarshallAuthsDataAndStore. cbn [omap list_omap].
  destruct (unmarshal s) as [auths|]; cbn; [|done].
  rewrite addAuths_union, lookup_union.
  destruct (auths !! registry) as [a|]; cbn.
  - destruct (list.last _) eqn:El.
    + by rewrite list.last_cons, El.
    + rewrite list.last_cons, El. by destruct (ac !! registry).
  - by destruct (list.last _), (ac !! registry).
Qed.

Section expand.
Context `{NetURLLaws}.

(** ** Globs *)
Lemma matchParts_true globs targets :
  length globs = length targets →
  matchParts globs targets = Ok true ↔ Forall2 (λ g t, Match g t = Ok true) globs targets.
Proof.
  revert targets. induction globs as [|g globs IH]; intros [|t targets]; cbn; try done.
  intros [= Hl]. rewrite Forall2_cons. destruct (Match g t) as [[]|]; cbn; [|naive_solver..].
  rewrite IH by done. naive_solver.
Qed.

(** A part of a host name is covered by a part of a glob. *)
Definition covers (g t : string) : Prop :=
  ∃ segs, parsePattern (String.length g) (String.list_ascii_of_string g) = Some segs
  ∧ glob (tokens segs) (String.list_ascii_of_string t).

Lemma length_list_ascii s : length (String.list_ascii_of_string s) = String.length s.
Proof. induction s; cbn; auto. Qed.

Lemma plain_has_char s : has_char "/" s = false → plain (String.list_ascii_of_string s).
Proof.
  unfold plain, separator. induction s as [|c s IH]; cbn; [set_solver|].
  intros [Hc%bool_decide_eq_false Hs]%orb_false_elim. rewrite not_elem_of_cons. split; [congruence|auto].
Qed.

Lemma Match_covers g t : has_char "/" t = false → Match g t = Ok true → covers g t.
Proof.
  intros Ht HM. unfold covers. rewrite <-length_list_ascii. unfold Match in HM.
  destruct (parsePattern _ _) as [segs|] eqn:E; [|done]. exists segs. split; [done|].
  injection HM as HM. apply matchSegs_glob in HM; [done|by eapply parsePattern_wf|by apply plain_has_char].
Qed.

Lemma splitLast_eq c s x y : splitLast c s = Some (x, y) → s = x +:+ String c y.
Proof.
  revert x. induction s as [|a s IH]; intros x; cbn; [done|].
  destruct (splitLast c s) as [[x' y']|].
  - intros [= <- <-]. rewrite string_cons_app. by rewrite <-(IH x').
  - case_bool_decide; [|done]. intros [= <- <-]. by subst.
Qed.

Lemma splitFirst_eq c s x y : splitFirst c s = Some (x, y) → s = x +:+ String c y.
Proof.
  revert x. induction s as [|a s IH]; intros x; cbn; [done|]. case_bool_decide.
  - intros [= <- <-]. by subst.
  - destruct (splitFirst c s) as [[x' y']|]; cbn; [|done]. intros [= <- <-].
    rewrite string_cons_app. by rewrite <-(IH x').
Qed.

Lemma dropPrefix_eq p s t : dropPrefix p s = Some t → s = p +:+ t.
Proof.
  revert s. induction p as [|a p IH]; intros s; cbn; [by intros [= ->]|].
  destruct s as [|b s]; [done|]. case_bool_decide; [subst b|done].
  intros H1%IH. rewrite string_cons_app. by rewrite H1.
Qed.

Lemma SplitHostPort_plain hp host port :
  SplitHostPort hp = Some (host, port) → has_char "/" hp = false → has_char "/" host = false.
Proof.
  intros Hs Hp. unfold SplitHostPort in Hs.
  destruct (splitLast ":" hp) as [[before port']|] eqn:El; cbn [mbind option_bind andb] in Hs; [|done].
  pose proof (splitLast_eq _ _ _ _ El) as Heq. rewrite Heq, has_char_app in Hp.
  apply orb_false_elim in Hp as [Hb _].
  assert ((if has_char ":" before || has_char "[" hp || has_char "]" hp then None else Some (before, port'))
          = Some (host, port) → has_char "/" host = false) as Hplain.
  { destruct (_ || _); [done|]. by intros [= <- <-]. }
  destruct hp as [|[[] [] [] [] [] [] [] []] inner]; try (by apply Hplain).
  destruct (splitFirst "]" _) as [[h after]|] eqn:Ef; cbn [mbind option_bind andb] in Hs; [|done].
  case_bool_decide as Hbh; cbn [mbind option_bind andb] in Hs; [|done]. destruct (_ && _); [|done].
  destruct (dropPrefix "[" h) as [host'|] eqn:Ed; cbn [mbind option_bind andb] in Hs; [|done]. injection Hs as <- <-.
  rewrite Hbh, has_char_app in Hb. apply orb_false_elim in Hb as [Hb _].
  apply dropPrefix_eq in Ed as ->. rewrite has_char_app in Hb. by apply orb_false_elim in Hb as [_ Hb].
Qed.

Lemma split_on_plain c s w : has_char "/" s = false → w ∈ split_on c s → has_char "/" w = false.
Proof.
  revert w. induction s as [|a s IH]; cbn; intros w Hs.
  { intros ->%list_elem_of_singleton. done. }
  apply orb_false_elim in Hs as [Ha Hs]. destruct (bool_decide (a = c)).
  - intros [->|Hw]%elem_of_cons; [done|auto].
  - destruct (split_on c s) as [|x xs].
    + intros ->%list_elem_of_singleton. cbn. by rewrite Ha.
    + intros [->|Hw]%elem_of_cons; [|apply IH; [done|by right]].
      cbn. rewrite Ha. cbn. apply IH; [done|by left].
Qed.

Lemma SplitURL_plain s u w : ParseSchemelessURL s = Some u → w ∈ (SplitURL u).1 → has_char "/" w = false.
Proof.
  intros Hs%url_host_plain. unfold SplitURL.
  destruct (SplitHostPort (u_Host u)) as [[host port]|] eqn:E; cbn; [|by apply split_on_plain].
  apply split_on_plain. by eapply SplitHostPort_plain.
Qed.

(** Same port, and every part of the host name covered. *)
Definition hostCovered (g t : URL) : Prop :=
  (SplitURL g).2 = (SplitURL t).2 ∧ Forall2 covers (SplitURL g).1 (SplitURL t).1.

Lemma URLsMatch_covered s g t :
  ParseSchemelessURL s = Some t → URLsMatch g t = Ok true →
  hostCovered g t ∧ hasPrefix (u_Path t) (u_Path g) = true.
Proof.
  intros Ht. unfold URLsMatch, hostCovered. destruct (SplitURL g) as [gs gp].
  pose proof (SplitURL_plain s t) as Hpl. destruct (SplitURL t) as [ts tp]. cbn in *.
  case_bool_decide; cbn; [|done]. destruct (length gs =? length ts) eqn:El; cbn; [|done].
  destruct (hasPrefix _ _); cbn; [|done]. apply Nat.eqb_eq in El.
  intros HM%matchParts_true; [|done]. split; [|done]. split; [done|].
  apply Forall2_same_length_lookup_2; [done|]. intros i x y Hx Hy.
  rewrite Forall2_lookup in HM. specialize (HM i). rewrite Hx, Hy in HM. inversion HM; subst.
  apply Match_covers; [|done]. apply Hpl; [done|]. by eapply list_elem_of_lookup_2.
Qed.

(** ** Expansion *)
Section image.
Context (img : string).

Lemma expand_inv g k :
  matchAndExpandGlob g img = Some k →
  ∃ gu iu, ParseSchemelessURL g = Some gu ∧ ParseSchemelessURL (trimPrefix img "//") = Some iu
  ∧ k = trimPrefix (url_String (with_Host (u_Host iu) gu)) "//"
  ∧ ParseSchemelessURL k = Some (with_Host (u_Host iu) gu)
  ∧ hostCovered gu iu ∧ hasPrefix (u_Path iu) (u_Path gu) = true.
Proof.
  unfold matchAndExpandGlob. destruct (containsGlob g); cbn [negb]; [|done].
  unfold URLsMatchStr.
  destruct (ParseSchemelessURL g) as [gu|] eqn:Eg; [|done].
  destruct (ParseSchemelessURL (trimPrefix img "//")) as [iu|] eqn:Ei; [|done].
  destruct (URLsMatch gu iu) as [[]|] eqn:Em; [|done..]. cbn [mbind option_bind]. intros [= <-].
  exists gu, iu. do 3 (split; [done|]). split; [by eapply url_roundtrip|].
  by eapply URLsMatch_covered.
Qed.

(** An entry that was added expands to itself. *)
Lemma expand_idem g k k' :
  matchAndExpandGlob g img = Some k → matchAndExpandGlob k img = Some k' → k' = k.
Proof.
  intros (gu & iu & Hg & Hi & Hk & Hpk & _)%expand_inv (ku & iu' & Hk1 & Hi' & -> & _)%expand_inv.
  rewrite Hi in Hi'. injection Hi' as <-. rewrite Hpk in Hk1. injection Hk1 as <-. by rewrite Hk.
Qed.

Lemma expandOne_keeps r (ac : Auths) k v : ac !! k = Some v → expandOne img r ac !! k = Some v.
Proof.
  intros Hk. unfold expandOne. destruct (ac !! r); [|done]. destruct (matchAndExpandGlob r img) as [u|]; [|done].
  case_bool_decide; [done|]. destruct (ac !! u) eqn:E; [done|].
  unfold addAuth. rewrite lookup_insert_ne; congruence.
Qed.

Lemma expandOne_new r (ac : Auths) k v :
  expandOne img r ac !! k = Some v →
  ac !! k = Some v ∨ (ac !! k = None ∧ k ≠ "" ∧ ac !! r = Some v ∧ matchAndExpandGlob r img = Some k).
Proof.
  unfold expandOne. destruct (ac !! r) as [a|] eqn:Er; [|auto].
  destruct (matchAndExpandGlob r img) as [u|]; [|auto].
  case_bool_decide; [auto|]. destruct (ac !! u) eqn:E; [auto|]. unfold addAuth.
  destruct (decide (u = k)) as [->|Hne]; [rewrite lookup_insert_eq|rewrite lookup_insert_ne by done; auto].
  intros [= ->]. auto.
Qed.

(** Where an entry comes from: it was there, or it expands one that was. *)
Definition provenance (ac0 ac : Auths) : Prop :=
  ∀ k v, ac !! k = Some v →
  ac0 !! k = Some v ∨ (k ≠ "" ∧ ∃ g, ac0 !! g = Some v ∧ matchAndExpandGlob g img = Some k).

Lemma provenance_expandOne ac0 r ac : provenance ac0 ac → provenance ac0 (expandOne img r ac).
Proof.
  intros Hp k v Hk. apply expandOne_new in Hk as [Hk|(Hn & Hne & Hr & Hm)]; [by apply Hp|].
  right. split; [done|]. destruct (Hp r v Hr) as [Hr0|(_ & g & Hg & Hgr)]; [by exists r|].
  assert (k = r) as -> by (by eapply expand_idem). by rewrite Hn in Hr.
Qed.

Lemma expandLoop_keeps i todo (ac ac' : Auths) :
  expandLoop img i todo ac ac' → ∀ k v, ac !! k = Some v → ac' !! k = Some v.
Proof. induction 1; eauto using expandOne_keeps. Qed.

Lemma expandLoop_provenance ac0 i todo ac ac' :
  expandLoop img i todo ac ac' → provenance ac0 ac → provenance ac0 ac'.
Proof. induction 1; eauto using provenance_expandOne. Qed.

Lemma expandOne_done r (ac : Auths) a k :
  ac !! r = Some a → matchAndExpandGlob r img = Some k → k ≠ "" → is_Some (expandOne img r ac !! k).
Proof.
  intros Hr Hm Hk. unfold expandOne. rewrite Hr, Hm, bool_decide_eq_false_2 by done.
  destruct (ac !! k) eqn:E; [by rewrite E; eauto|]. unfold addAuth. rewrite lookup_insert_eq. eauto.
Qed.

Lemma expandLoop_complete i todo (ac ac' : Auths) :
  expandLoop img i todo ac ac' →
  ∀ g a k, g ∈ todo → ac !! g = Some a → matchAndExpandGlob g img = Some k → k ≠ "" → is_Some (ac' !! k).
Proof.
  induction 1 as [ac|todo r ac ac' Hr Hl IH|todo r ac ac' Hr Hi Hl IH]; intros g a k Hg Ha Hm Hk.
  - set_solver.
  - destruct (decide (g = r)) as [->|Hne].
    + destruct (expandOne_done _ _ _ _ Ha Hm Hk) as [v Hv]. exists v. by eapply expandLoop_keeps.
    + apply (IH g a k); [set_solver|by eapply expandOne_keeps|done|done].
  - apply (IH g a k); [done|by eapply expandOne_keeps|done|done].
Qed.

(** C24: expansion never changes a credential, and hands one on only to the registry it
    is for.  Every entry that was there is still there; a new one has the
    credential of a glob entry, the host of the image and the path of that entry;
    the glob covers the host part by part, with the same port, and its path is a
    prefix of the image's; whatever order the map is read in. *)
Theorem expandGlobs_safe (ac ac' : Auths) :
  expandGlobs img ac ac' →
  (∀ k v, ac !! k = Some v → ac' !! k = Some v)
  ∧ (∀ k v, ac' !! k = Some v → ac !! k = None →
     ∃ g gu iu, ac !! g = Some v
     ∧ ParseSchemelessURL g = Some gu ∧ ParseSchemelessURL (trimPrefix img "//") = Some iu
     ∧ ParseSchemelessURL k = Some (with_Host (u_Host iu) gu)
     ∧ hostCovered gu iu ∧ hasPrefix (u_Path iu) (u_Path gu) = true).
Proof.
  intros He. split; [by eapply expandLoop_keeps|]. intros k v Hk Hn.
  assert (provenance ac ac) as Hp by (intros ? ?; auto).
  destruct (expandLoop_provenance _ _ _ _ _ He Hp k v Hk) as [?|(_ & g & Hg & Hm)]; [congruence|].
  destruct (expand_inv g k Hm) as (gu & iu & H1 & H2 & _ & H3 & H4 & H5).
  by exists g, gu, iu.
Qed.

Lemma expandLoop_total i todo (ac : Auths) : ∃ ac', expandLoop img i todo ac ac'.
Proof.
  revert ac. induction todo as [|k todo Hk IH] using set_ind_L; intros ac; [eexists; constructor|].
  destruct (IH (expandOne img k ac)) as [ac' Hl]. exists ac'. apply (expand_initial _ _ _ k); [set_solver|].
  by replace (({[k]} ∪ todo) ∖ {[k]}) with todo by set_solver.
Qed.

(** When is the result of the expansion determined?  There always is one, every
    glob that matches is expanded in it, and it does not depend on the order in
    which the map is read provided that two entries that expand to the same
    registry, which has no entry of its own, have the same credential. *)
Theorem expandGlobs_deterministic (ac : Auths) :
  (∀ g1 g2 a1 a2 k, ac !! g1 = Some a1 → ac !! g2 = Some a2 →
     matchAndExpandGlob g1 img = Some k → matchAndExpandGlob g2 img = Some k →
     ac !! k = None → a1 = a2) →
  ∃ ac', ∀ ac'', expandGlobs img ac ac'' ↔ ac'' = ac'.
Proof.
  intros Hu. destruct (expandLoop_total (dom ac) (dom ac) ac) as [ac' H'].
  assert (∀ a1 a2 k v, expandGlobs img ac a1 → expandGlobs img ac a2 → a1 !! k = Some v → a2 !! k = Some v) as Hincl.
  { intros a1 a2 k v H1 H2 Hk. assert (provenance ac ac) as Hp by (intros ? ?; auto).
    destruct (ac !! k) as [w|] eqn:Ek.
    { rewrite (expandLoop_keeps _ _ _ _ H1 k w Ek) in Hk. rewrite <-Hk. by eapply expandLoop_keeps. }
    destruct (expandLoop_provenance _ _ _ _ _ H1 Hp k v Hk) as [?|(Hne & g & Hg & Hm)]; [congruence|].
    assert (g ∈ dom ac) as Hgd by (by eapply elem_of_dom_2).
    destruct (expandLoop_complete _ _ _ _ H2 g v k Hgd Hg Hm Hne) as [w Hw].
    destruct (expandLoop_provenance _ _ _ _ _ H2 Hp k w Hw) as [?|(_ & g' & Hg' & Hm')]; [congruence|].
    rewrite Hw. f_equal. by eapply Hu. }
  exists ac'. intros ac''. split; [|by intros ->]. intros H''. apply map_eq. intros k.
  apply option_eq. intros v. split; by apply Hincl.
Qed.
End image.
End expand.

(** ** Registries and paths in plain text

    An implementation of [NetURL] for references without user, query or fragment:
    the host ends at the first slash. *)
Module plainURL.

Definition parse (s : string) : option URL :=
  rest ← dropPrefix "https://" s;
  Some (match splitFirst "/" rest with
        | Some (host, path) => mkURL host (String "/" path) ""
        | None => mkURL rest "" ""
        end).

#[export] Instance plain_NetURL : NetURL :=
  {| url_Parse := parse; url_String u := "//" +:+ u_Host u +:+ u_Path u |}.

Lemma splitFirst_None c s : splitFirst c s = None → has_char c s = false.
Proof.
  induction s as [|a s IH]; cbn; [done|]. case_bool_decide; [done|].
  destruct (splitFirst c s) as [[x y]|]; cbn; [done|auto].
Qed.

Lemma splitFirst_no c s x y : splitFirst c s = Some (x, y) → has_char c x = false.
Proof.
  revert x. induction s as [|a s IH]; intros x; cbn; [done|]. case_bool_decide as Ha; [by intros [= <- <-]|].
  destruct (splitFirst c s) as [[x' y']|]; cbn; [|done]. intros [= <- <-].
  cbn. rewrite bool_decide_eq_false_2 by done. by apply IH.
Qed.

Lemma splitFirst_app c x y : has_char c x = false → splitFirst c (x +:+ String c y) = Some (x, y).
Proof.
  induction x as [|a x IH]; cbn [has_char].
  - intros _. rewrite string_nil_app. cbn. by rewrite bool_decide_eq_true_2.
  - intros [Ha Hx]%orb_false_elim. rewrite string_cons_app. cbn. rewrite Ha. by rewrite IH.
Qed.

Lemma splitFirst_no_char c s : has_char c s = false → splitFirst c s = None.
Proof.
  intros Hs. destruct (splitFirst c s) as [[x y]|] eqn:E; [|done].
  apply splitFirst_eq in E as ->. rewrite has_char_app in Hs. cbn in Hs.
  rewrite bool_decide_eq_true_2 in Hs by done. by rewrite orb_true_r in Hs.
Qed.

Lemma dropPrefix_app p s : dropPrefix p (p +:+ s) = Some s.
Proof.
  induction p as [|a p IH]; [by destruct s|]. rewrite string_cons_app. cbn.
  by rewrite bool_decide_eq_true_2.
Qed.

Lemma parse_schemeless s :
  ParseSchemelessURL s = Some (match splitFirst "/" s with
                               | Some (host, path) => mkURL host (String "/" path) ""
                               | None => mkURL s "" ""
                               end).
Proof. unfold ParseSchemelessURL. cbn [url_Parse plain_NetURL]. unfold parse. by rewrite dropPrefix_app. Qed.

#[export] Instance plain_NetURLLaws : NetURLLaws.
Proof.
  split.
  - intros s u. rewrite parse_schemeless. intros [= <-].
    destruct (splitFirst "/" s) as [[x y]|] eqn:E; cbn; [by eapply splitFirst_no|by apply splitFirst_None].
  - intros s t u v Hu Hv.
    assert (has_char "/" (u_Host v) = false) as Hh.
    { rewrite parse_schemeless in Hv. injection Hv as <-.
      destruct (splitFirst "/" t) as [[x y]|] eqn:E; cbn; [by eapply splitFirst_no|by apply splitFirst_None]. }
    cbn [url_String plain_NetURL with_Host u_Host u_Path].
    unfold trimPrefix. rewrite dropPrefix_app. cbn [default from_option id].
    rewrite parse_schemeless in *. injection Hu as <-.
    destruct (splitFirst "/" s) as [[x y]|] eqn:E; cbn [u_Path u_Rest with_Host].
    + by rewrite splitFirst_app.
    + rewrite string_app_nil_r. by rewrite splitFirst_no_char.
Qed.

(** Without that proviso the result is not determined: for [quay.io/team/app]
    the entries [*.io] and [quay.*] both expand to [quay.io], and which of the two
    credentials is used depends on the order in which the map is read. *)
Theorem expandGlobs_ambiguous :
  let ac : Auths := {["*.io" := "first"; "quay.*" := "second"]} in
  ∃ ac1 ac2, expandGlobs "//quay.io/team/app" ac ac1 ∧ expandGlobs "//quay.io/team/app" ac ac2
  ∧ ac1 !! "quay.io" = Some "first" ∧ ac2 !! "quay.io" = Some "second".
Proof.
  intros ac.
  set (one := expandOne "//quay.io/team/app").
  exists (one "quay.*" (one "*.io" ac)), (one "*.io" (one "quay.*" ac)).
  assert (∀ a b : string, a ≠ b → dom ac = {[a; b]} →
    expandGlobs "//quay.io/team/app" ac (one b (one a ac))) as Hord.
  { intros a b Hab Hd. unfold expandGlobs. rewrite Hd at 2.
    apply (expand_initial _ _ _ a); [set_solver|]. apply (expand_initial _ _ _ b); [set_solver|].
    replace (({[a; b]} : gset string) ∖ {[a]} ∖ {[b]}) with (∅ : gset string) by set_solver.
    constructor. }
  split; [apply Hord; [done|by vm_compute]|]. split; [apply Hord; [done|by vm_compute]|].
  by split; vm_compute.
Qed.
End plainURL.
