(* ===== verification/Inspector.v ===== *)
(** * The registry inspector at work

    [pkg/image/inspector.go] from the image reference and the pull secrets to the
    set of architectures: the normalisation of the reference, the credentials file
    in memory ([memfd_create]), the candidates of a short name, the signature policy
    and the manifests, as a program of system calls and calls to
    [containers/image]; and the paths of [systemconfig.go]. *)
From Stdlib Require Import Ascii.
From stdpp Require Import base gmap strings list relations pretty.
From S2P Require Import Prelude GoStd Api ImageInspect Prog ImageAuth.

(** ** [parseImageReference] *)

(** [strings.Index(s, "@sha")]: the texts before and from the first occurrence *)
Fixpoint cutSha (s : string) : option (string * string) :=
  if hasPrefix s "@sha" then Some ("", s)
  else match s with
       | EmptyString => None
       | String c s' => '(a, b) ← cutSha s'; Some (String c a, b)
       end.

Definition stail (s : string) : string := match s with EmptyString => "" | String _ s' => s' end.

Definition parseImageReference (imageName : string) : res string :=
  if bool_decide (imageName = "") then Err (errOther "invalid image name, must not be empty")
  else match cutSha imageName with
       | None => Ok imageName
       | Some (namePart, digestPart) =>
           if bool_decide (namePart = "") then Err (errOther "invalid image name, image must not be empty")
           else if contains (stail digestPart) "@sha"
           then Err (errOther "invalid image name, must only have one digest")
           else match splitLast ":" namePart with
                | None => Ok imageName
                | Some (before, after) =>
                    (* a slash after the last colon: the colon is the port's *)
                    if has_char "/" after then Ok imageName else Ok (before +:+ digestPart)
                end
       end.

Lemma cutSha_app n d :
  has_char "@" n = false → hasPrefix d "@sha" = true → cutSha (n +:+ d) = Some (n, d).
Proof.
  intros Hn Hd. induction n as [|c n IH]; rewrite ?string_nil_app, ?string_cons_app.
  - destruct d as [|x d]; [done|]. cbn [cutSha]. by rewrite Hd.
  - cbn in Hn. apply orb_false_elim in Hn as [Hc%bool_decide_eq_false Hn]. cbn [cutSha].
    assert (hasPrefix (String c (n +:+ d)) "@sha" = false) as ->.
    { unfold hasPrefix. cbn [String.prefix]. destruct (ascii_dec "@" c); congruence. }
    by rewrite IH.
Qed.

Lemma splitLast_app c a b : has_char c b = false → splitLast c (a +:+ String c b) = Some (a, b).
Proof.
  intros Hb. induction a as [|x a IH]; rewrite ?string_nil_app, ?string_cons_app; cbn.
  - destruct (splitLast c b) as [[x y]|] eqn:E.
    + apply splitLast_eq in E as ->. rewrite has_char_app in Hb. cbn in Hb.
      rewrite bool_decide_eq_true_2 in Hb by done. by rewrite orb_true_r in Hb.
    + by rewrite bool_decide_eq_true_2.
  - by rewrite IH.
Qed.

Lemma splitLast_None c s : has_char c s = false → splitLast c s = None.
Proof.
  induction s as [|a s IH]; cbn; [done|]. intros [Ha Hs]%orb_false_elim. by rewrite IH, Ha.
Qed.

(** A name: a registry with a port perhaps, and a repository without a tag. *)
Definition untagged (repo : string) : Prop :=
  has_char ":" repo = false ∨ ∃ host path, repo = host +:+ String ":" path
    ∧ has_char ":" path = false ∧ has_char "/" path = true.

(** A digest wins over a tag.  For a name with a tag and a digest the reference
    that is inspected is the name with the digest; with a digest alone, or a tag
    alone, it is what was given; the colon of a registry's port is never mistaken
    for a tag. *)
Theorem parseImageReference_spec repo tag digest :
  repo ≠ "" → has_char "@" repo = false → untagged repo →
  has_char "@" tag = false → has_char ":" tag = false → has_char "/" tag = false →
  hasPrefix digest "@sha" = true → contains (stail digest) "@sha" = false →
  parseImageReference (repo +:+ ":" +:+ tag +:+ digest) = Ok (repo +:+ digest)
  ∧ parseImageReference (repo +:+ digest) = Ok (repo +:+ digest)
  ∧ parseImageReference (repo +:+ ":" +:+ tag) = Ok (repo +:+ ":" +:+ tag).
Proof.
  intros Hr Hat Hun Ht1 Ht2 Ht3 Hd Hone.
  assert (∀ s, repo +:+ s ≠ "") as Hne by (by destruct repo).
  split; [|split].
  - unfold parseImageReference. rewrite bool_decide_eq_false_2 by apply Hne.
    replace (repo +:+ ":" +:+ tag +:+ digest) with ((repo +:+ String ":" tag) +:+ digest)
      by (rewrite string_app_assoc; done).
    rewrite cutSha_app; [|by rewrite has_char_app; cbn; rewrite Hat, Ht1|done].
    rewrite bool_decide_eq_false_2 by apply Hne. rewrite Hone, splitLast_app by done. by rewrite Ht3.
  - unfold parseImageReference. rewrite bool_decide_eq_false_2 by apply Hne.
    rewrite cutSha_app, bool_decide_eq_false_2, Hone by done.
    destruct Hun as [Hc|(host & path & -> & Hp1 & Hp2)]; [by rewrite splitLast_None|].
    by rewrite splitLast_app, Hp2 by done.
  - unfold parseImageReference. rewrite bool_decide_eq_false_2 by apply Hne.
    destruct (cutSha _) as [[a b]|] eqn:E; [|done]. exfalso.
    assert (∀ s x y, cutSha s = Some (x, y) → has_char "@" s = true) as Hc.
    { clear. induction s as [|c s IH]; intros x y; [done|]. cbn [cutSha].
      destruct (hasPrefix (String c s) "@sha") eqn:Ep.
      - intros _. unfold hasPrefix in Ep. cbn [String.prefix] in Ep. destruct (ascii_dec "@" c); [|done].
        cbn. by rewrite bool_decide_eq_true_2.
      - destruct (cutSha s) as [[a b]|]; [|done]. intros _. cbn. rewrite (IH a b) by done. apply orb_true_r. }
    apply Hc in E. rewrite !has_char_app, Hat, Ht1 in E. done.
Qed.

(** ** Paths ([systemconfig.go]) *)

(** [lookupEnvOr]; [env] is the environment *)
Definition lookupEnvOr (env : string → option string) (key defaultValue : string) : string :=
  default defaultValue (env key).

(** A path that is looked up once: the value and what is kept.  Both the unlocked and
    the locked test are on the kept value. *)
Definition cachedPath (env : string → option string) (key defaultValue kept : string) : string * string :=
  if negb (bool_decide (kept = "")) then (kept, kept)
  else let v := lookupEnvOr env key defaultValue in (v, v).

(** [types.SystemContext] *)
Record SystemContext := mkSys {
  sy_AuthFilePath : string;
  sy_RegistriesDirPath : string;
  sy_SystemRegistriesConfPath : string;
  sy_SystemRegistriesConfDirPath : string;
  sy_SignaturePolicyPath : string;
  sy_DockerPerHostCertDirPath : string;
}.

Definition RegistryCertsDir env := (cachedPath env "REGISTRIES_CERTS_DIR" "/etc/containers/registries.d" "").1.
Definition RegistriesConfPath env := (cachedPath env "REGISTRIES_CONF_PATH" "/etc/containers/registries.conf" "").1.
Definition RegistriesConfDir env := (cachedPath env "REGISTRIES_CONF_DIR" "/etc/containers/registries.conf.d" "").1.
Definition PolicyConfPath env := (cachedPath env "POLICY_CONF_PATH" "/etc/containers/policy.json" "").1.
Definition DockerCertsDir (env : string → option string) := lookupEnvOr env "DOCKER_CERTS_DIR" "".

Definition systemContext (env : string → option string) (authFile : string) : SystemContext :=
  mkSys authFile (RegistryCertsDir env) (RegistriesConfPath env) (RegistriesConfDir env)
    (PolicyConfPath env) (DockerCertsDir env).

(** A kept value is the one a fresh lookup gives: no caller sees another value than
    the first. *)
Lemma cachedPath_stable env key d :
  let '(v, kept) := cachedPath env key d "" in cachedPath env key d kept = (v, kept).
Proof.
  unfold cachedPath at 1. rewrite (bool_decide_eq_true_2 ("" = "")) by done. cbn [negb].
  unfold cachedPath. by destruct (negb _).
Qed.

(** ** Requests *)
Inductive ICall : Type → Type :=
| MemfdCreate (name : string) : ICall (res Z)
| Ftruncate (fd : Z) (n : nat) : ICall (option GoError)
| Mmap (fd : Z) (n : nat) : ICall (res Z)
| CopyTo (addr : Z) (b : string) : ICall unit
| Munmap (addr : Z) : ICall (option GoError)
| AddSeals (fd : Z) : ICall (option GoError)
| CloseFd (fd : Z) : ICall (option GoError)
| InvalidateCache : ICall unit
| ResolveShortname (sys : SystemContext) (name : string) : ICall (res (list string))
| ParseReference (name : string) : ICall (option GoError)
| NewImageSource (sys : SystemContext) (name : string) : ICall (res Z)
| CloseSource (src : Z) : ICall (option GoError)
| GetManifest (src : Z) : ICall (res (option (res (list inspector.Descriptor))))
| DefaultPolicy (sys : SystemContext) : ICall (option GoError)
| NewPolicyContext : ICall (option GoError)
| IsRunningImageAllowed (src : Z) (digest : option string) : ICall (bool * option GoError)
| FromUnparsedImage (src : Z) (digest : option string) : ICall (option GoError)
| OCIConfig (src : Z) (digest : option string) : ICall (res (GoMap string * string)).

Abbreviation IP := (prog ICall).

(** [writeMemFile]: each failure closes the descriptor, also the invalid one of a
    failed [memfd_create] *)
Definition closeAndFail {A} (fd : Z) (e : GoError) : IP (res A) :=
  _ ← request (CloseFd fd); Return (Err e).

Definition writeMemFile (name b : string) : IP (res Z) :=
  a ← request (MemfdCreate name);
  match a with
  | Err e => closeAndFail (-1) e
  | Ok fd =>
      t ← request (Ftruncate fd (String.length b));
      match t with
      | Some e => closeAndFail fd e
      | None =>
          m ← request (Mmap fd (String.length b));
          match m with
          | Err e => closeAndFail fd e
          | Ok data =>
              _ ← request (CopyTo data b);
              u ← request (Munmap data);
              match u with
              | Some e => closeAndFail fd e
              | None =>
                  s ← request (AddSeals fd);
                  match s with
                  | Some e => closeAndFail fd e
                  | None => Return (Ok fd)
                  end
              end
          end
      end
  end.

(** [createAuthFile], given what [marshaledImagePullSecrets] made of the secrets:
    the descriptor and the name of the file *)
Definition createAuthFile (authJSON : res string) : IP (res (Z * string)) :=
  match authJSON with
  | Err e => Return (Err e)
  | Ok b =>
      f ← writeMemFile "mto_ppc_inspector" b;
      Return (fd ← f; Ok (fd, "/proc/self/fd/" +:+ sprintd fd))
  end.

(** The loop over the candidates of [resolveAndOpenImageSource]: without any
    candidate there is neither a source nor an error. *)
Fixpoint tryCandidates (sys : SystemContext) (cands : list string) (errs : list GoError) :
    IP (res (option Z)) :=
  match cands with
  | [] => Return (match errs with [] => Ok None | e :: _ => Err e end)
  | c :: cands' =>
      let fqName := "//" +:+ c in
      p ← request (ParseReference fqName);
      match p with
      | Some e => tryCandidates sys cands' (errs ++ [e])
      | None =>
          s ← request (NewImageSource sys fqName);
          match s with
          | Err e => tryCandidates sys cands' (errs ++ [e])
          | Ok src => Return (Ok (Some src))
          end
      end
  end.

Definition resolveAndOpenImageSource (sys : SystemContext) (imageReference : string) : IP (res (option Z)) :=
  r ← request (ResolveShortname sys (trimPrefix imageReference "//"));
  match r with
  | Err e => Return (Err e)
  | Ok cands => tryCandidates sys cands []
  end.

(** From the signature policy on, for the instance of the manifest. *)
Definition inspectInstance (src : Z) (digest : option string) (index : option (gset string)) :
    IP (res (gset string)) :=
  a ← request (IsRunningImageAllowed src digest);
  if negb a.1 then Return (match a.2 with Some e => Err e | None => Ok ∅ end)
  else
    p ← request (FromUnparsedImage src digest);
    match p with
    | Some e => Return (Err e)
    | None =>
        c ← request (OCIConfig src digest);
        Return (config ← c;
                if inspector.isBundleImage config.1 then Ok utils.AllSupportedArchitecturesSet
                else match index with
                     | None => Ok {[config.2]}
                     | Some archs => Ok archs
                     end)
    end.

(** From the manifest on. *)
Definition inspectSource (sys : SystemContext) (src : Z) : IP (outcome (res (gset string))) :=
  m ← request (GetManifest src);
  match m with
  | Err e => Return (Ret (Err e))
  | Ok manifest =>
      d ← request (DefaultPolicy sys);
      match d with
      | Some e => Return (Ret (Err e))
      | None =>
          pc ← request NewPolicyContext;
          match pc, manifest with
          | Some e, _ => Return (Ret (Err e))
          | None, None => r ← inspectInstance src None None; Return (Ret r)
          | None, Some (Err e) => Return (Ret (Err e))
          | None, Some (Ok ms) =>
              match inspector.scanIndex ms ∅ None with
              | Panic => Return Panic
              | Ret (archs, digest) => r ← inspectInstance src digest (Some archs); Return (Ret r)
              end
          end
      end
  end.

(** [registryInspector.GetCompatibleArchitecturesSet]; the deferred calls also run
    when there is a panic, and closing a source that is nil is another one *)
Definition GetCompatibleArchitecturesSet (env : string → option string) (authJSON : res string)
    (imageReference : string) : IP (outcome (res (gset string))) :=
  f ← createAuthFile authJSON;
  match f with
  | Err e => Return (Ret (Err e))
  | Ok (fd, path) =>
      _ ← request InvalidateCache;
      r ← match parseImageReference imageReference with
          | Err e => Return (Ret (Err e))
          | Ok ref =>
              let sys := systemContext env path in
              s ← resolveAndOpenImageSource sys ref;
              match s with
              | Err e => Return (Ret (Err e))
              | Ok None => Return Panic
              | Ok (Some src) =>
                  o ← inspectSource sys src;
                  _ ← request (CloseSource src);
                  Return o
              end
          end;
      _ ← request (CloseFd fd);
      Return r
  end.

(** ** Nothing stays open *)
Inductive Resource : Set := RFile (fd : Z) | RSource (src : Z).

#[export] Instance Resource_eq_dec : EqDecision Resource.
Proof. solve_decision. Defined.

Definition iopens (e : Ev ICall) : option Resource :=
  match e with
  | mkEv c a =>
      match c in ICall T return T → option Resource with
      | MemfdCreate _ => λ a, match a with Ok fd => Some (RFile fd) | Err _ => None end
      | NewImageSource _ _ => λ a, match a with Ok src => Some (RSource src) | Err _ => None end
      | _ => λ _, None
      end a
  end.

(** [close(-1)] closes nothing. *)
Definition icloses (e : Ev ICall) : option Resource :=
  match ev_call e with
  | CloseFd fd => if bool_decide (fd = -1)%Z then None else Some (RFile fd)
  | CloseSource src => Some (RSource src)
  | _ => None
  end.

(** What is open after a trace, the latest first; [None] when something was closed
    that was not the latest to be opened. *)
Definition itrack (open : option (list Resource)) (e : Ev ICall) : option (list Resource) :=
  l ← open;
  match icloses e with
  | Some h => match l with
              | h' :: l' => if bool_decide (h = h') then Some l' else None
              | [] => None
              end
  | None => Some (option_list (iopens e) ++ l)
  end.

Definition iopen_after (tr : list (Ev ICall)) : option (list Resource) := foldl itrack (Some []) tr.

Lemma iopen_snoc tr e : iopen_after (tr ++ [e]) = itrack (iopen_after tr) e.
Proof. unfold iopen_after. by rewrite foldl_app. Qed.

(** The kernel gives out descriptors that are not negative. *)
Definition kernel_ok : ∀ T, ICall T → T → Prop := λ T c,
  match c in ICall T return T → Prop with
  | MemfdCreate _ => λ a, match a with Ok fd => (0 ≤ fd)%Z | Err _ => True end
  | _ => λ _, True
  end.

(** Neither opens nor closes anything. *)
Definition neutral (e : Ev ICall) : Prop := iopens e = None ∧ icloses e = None.

Lemma iopen_neutral tr e : neutral e → iopen_after (tr ++ [e]) = iopen_after tr.
Proof.
  intros [H1 H2]. rewrite iopen_snoc. unfold itrack. rewrite H1, H2. by destruct (iopen_after tr).
Qed.

Lemma iopen_close tr fd a l :
  (0 ≤ fd)%Z → iopen_after tr = Some (RFile fd :: l) → iopen_after (tr ++ [mkEv (CloseFd fd) a]) = Some l.
Proof.
  intros Hfd H. rewrite iopen_snoc, H. cbn.
  by rewrite bool_decide_eq_false_2, bool_decide_eq_true_2 by (done || lia).
Qed.

Ltac neutral := rewrite ?iopen_neutral by done.

Lemma writeMemFile_tracked name b tr l :
  iopen_after tr = Some l →
  wp kernel_ok (writeMemFile name b)
    (λ r tr', match r with
              | Ok fd => (0 ≤ fd)%Z ∧ iopen_after tr' = Some (RFile fd :: l)
              | Err _ => iopen_after tr' = Some l
              end) tr.
Proof.
  intros H. unfold writeMemFile, closeAndFail. prog_unfold. step. intros [fd|e] Ha; step.
  2: { intros a _. rewrite iopen_snoc. neutral. by rewrite H. }
  assert (iopen_after (tr ++ [mkEv (MemfdCreate name) (Ok fd)]) = Some (RFile fd :: l)) as Hfd
    by (by rewrite iopen_snoc, H).
  intros [e|] _; step.
  { intros a _. apply iopen_close; [done|]. by neutral. }
  intros [data|e] _; step.
  2: { intros a _. apply iopen_close; [done|]. by neutral. }
  intros [] _ [e|] _; step.
  { intros a _. apply iopen_close; [done|]. by neutral. }
  intros [e|] _; step.
  { intros a _. apply iopen_close; [done|]. by neutral. }
  split; [done|]. by neutral.
Qed.

Lemma wp_neutral {A} V (p : IP A) tr l :
  iopen_after tr = Some l → calls (λ T c, ∀ a, neutral (mkEv c a)) p →
  wp V p (λ _ tr', iopen_after tr' = Some l) tr.
Proof.
  revert tr. induction p as [a|T c k IH]; intros tr H Hc; cbn; [done|].
  intros t _. apply IH; [|apply Hc]. rewrite iopen_neutral; [done|]. apply Hc.
Qed.

Lemma tryCandidates_tracked sys cands errs tr l :
  iopen_after tr = Some l →
  wp kernel_ok (tryCandidates sys cands errs)
    (λ r tr', iopen_after tr' = Some (match r with Ok (Some src) => RSource src :: l | _ => l end)) tr.
Proof.
  revert errs tr. induction cands as [|c cands IH]; intros errs tr H; cbn [tryCandidates].
  { step. by destruct errs. }
  prog_unfold. step. intros [e|] _; [apply IH; by neutral|]. step. intros [src|e] _.
  - step. rewrite iopen_snoc. neutral. by rewrite H.
  - apply IH. by neutral.
Qed.

Lemma inspectSource_neutral sys src :
  calls (λ T c, ∀ a, neutral (mkEv c a)) (inspectSource sys src).
Proof.
  assert (∀ digest index, calls (λ T c, ∀ a, neutral (mkEv c a)) (inspectInstance src digest index)) as Hi.
  { intros digest index. unfold inspectInstance. prog_unfold. step. split; [done|]. intros [[] e]; step; [|done].
    split; [done|]. intros [e1|]; step; [done|]. by split. }
  unfold inspectSource. prog_unfold. step. split; [done|]. intros [manifest|e]; step; [|done].
  split; [done|]. intros [e|]; step; [done|]. split; [done|]. intros [e|]; step; [done|].
  destruct manifest as [[ms|e]|]; step; [|done|by apply calls_bind].
  destruct (inspector.scanIndex ms ∅ None) as [[archs digest]|]; [by apply calls_bind|done].
Qed.

Lemma GetCompatible_tracked env authJSON ref :
  wp kernel_ok (GetCompatibleArchitecturesSet env authJSON ref) (λ _ tr, iopen_after tr = Some []) [].
Proof.
  unfold GetCompatibleArchitecturesSet. apply wp_bind. unfold createAuthFile.
  destruct authJSON as [b|e]; [|done]. apply wp_bind.
  eapply wp_mono; [|by apply (writeMemFile_tracked _ _ [] [])].
  intros [fd|e] tr; step; [|done]. intros [Hfd H]. prog_unfold. step. intros [] _.
  apply wp_bind. eapply wp_mono.
  { intros o tr1 H1. step. intros a _. apply iopen_close; [exact Hfd|exact H1]. }
  assert (iopen_after (tr ++ [mkEv InvalidateCache tt]) = Some [RFile fd]) as H0 by (by neutral).
  destruct (parseImageReference ref) as [r|e]; [|done]. apply wp_bind.
  unfold resolveAndOpenImageSource. prog_unfold. step. intros [cands|e] _; step; [|by neutral].
  eapply wp_mono; [|apply tryCandidates_tracked; neutral; exact H].
  intros [[src|]|e] tr1 H1; [|exact H1..]. apply wp_bind.
  eapply wp_mono; [|by apply wp_neutral; [exact H1|apply inspectSource_neutral]].
  intros o tr2 H2. step. intros a _. rewrite iopen_snoc, H2. cbn. by rewrite bool_decide_eq_true_2.
Qed.

(** An inspection leaves nothing open: whatever fails on the way, and also when
    it panics, the credentials file and the image source it opened have been
    closed, each once and in the reverse order. *)
Theorem inspection_closes_everything {W : Type} (srv : Server ICall W) w env authJSON ref :
  server_ok srv kernel_ok →
  iopen_after (Prog.run (GetCompatibleArchitecturesSet env authJSON ref) w).1.2 = Some [].
Proof.
  intros Hs. pose proof (wp_run _ _ _ [] w Hs (GetCompatible_tracked env authJSON ref)) as H.
  by destruct (Prog.run _ w) as [[w' tr] r].
Qed.

(** ** The signature policy *)

(** [IsRunningImageAllowed]: "If it returns false, err must be non-nil". *)
Definition policy_contract : ∀ T, ICall T → T → Prop := λ T c,
  match c in ICall T return T → Prop with
  | IsRunningImageAllowed _ _ => λ a, a.1 = false → a.2 ≠ None
  | _ => λ _, True
  end.

Definition archsOf (labels : GoMap string) (architecture : string) (index : option (gset string)) : gset string :=
  if inspector.isBundleImage labels then utils.AllSupportedArchitecturesSet
  else match index with None => {[architecture]} | Some archs => archs end.

(** What stands behind a result for an instance of a manifest. *)
Definition allowed (src : Z) (digest : option string) (labels : GoMap string) (architecture : string)
    (tr : list (Ev ICall)) : Prop :=
  (∃ e, mkEv (IsRunningImageAllowed src digest) (true, e) ∈ tr)
  ∧ mkEv (OCIConfig src digest) (Ok (labels, architecture)) ∈ tr.

Lemma inspectInstance_allowed src digest index tr :
  wp policy_contract (inspectInstance src digest index)
    (λ r tr', tr `prefix_of` tr' ∧ ∀ s, r = Ok s →
       ∃ labels architecture, allowed src digest labels architecture tr' ∧ s = archsOf labels architecture index)
    tr.
Proof.
  unfold inspectInstance. prog_unfold. step. intros [ok e] Hok. destruct ok; step.
  2: { split; [by eexists|]. intros s. destruct e; [done|]. by destruct Hok. }
  intros [e1|] _; step.
  { rewrite <-app_assoc. split; [by eexists|done]. }
  intros [[labels arch]|e1] _; step; rewrite <-!app_assoc; (split; [by eexists|]); [|done].
  intros s Hs. exists labels, arch. split.
  - split; [exists e|]; rewrite !elem_of_app, !list_elem_of_singleton; auto.
  - cbn in Hs. unfold archsOf. cbn. destruct (inspector.isBundleImage labels); [congruence|].
    destruct index; congruence.
Qed.

(** What was fetched, as [inspector.Fetched] has it. *)
Definition fetched (manifest : option (list inspector.Descriptor)) (digest : option string)
    (labels : GoMap string) (architecture : string) : inspector.Fetched :=
  inspector.mkFetched manifest (λ d, if bool_decide (d = digest) then Ok (labels, architecture)
                                     else Err (errOther "not fetched")).

(** The manifest of the trace. *)
Definition manifest_ans (m : option (list inspector.Descriptor)) : res (option (res (list inspector.Descriptor))) :=
  Ok (Ok <$> m).

Definition justified (s : gset string) (tr : list (Ev ICall)) : Prop :=
  ∃ src m digest labels architecture,
    mkEv (GetManifest src) (manifest_ans m) ∈ tr
    ∧ allowed src digest labels architecture tr
    ∧ inspector.architecturesOf (fetched m digest labels architecture) = Ret (Ok s).

Lemma allowed_mono src digest labels arch tr tr' :
  tr `prefix_of` tr' → allowed src digest labels arch tr → allowed src digest labels arch tr'.
Proof.
  intros [l ->] [[e He] Hc]. split; [exists e|]; apply elem_of_app; by left.
Qed.

Lemma justified_mono s tr tr' : tr `prefix_of` tr' → justified s tr → justified s tr'.
Proof.
  intros Hp (src & m & digest & labels & arch & Hm & Ha & Hs). exists src, m, digest, labels, arch.
  split; [|split; [by eapply allowed_mono|done]]. destruct Hp as [l ->]. apply elem_of_app. by left.
Qed.

Lemma inspectSource_justified sys src tr :
  wp policy_contract (inspectSource sys src) (λ r tr', ∀ s, r = Ret (Ok s) → justified s tr') tr.
Proof.
  unfold inspectSource. prog_unfold. step. intros [m|e] _; step; [|done].
  intros [e|] _; step; [done|]. intros [e|] _; step; [done|].
  set (tr1 := ((tr ++ _) ++ _) ++ _).
  assert (mkEv (GetManifest src) (Ok m) ∈ tr1) as Hm.
  { unfold tr1. rewrite !elem_of_app, !list_elem_of_singleton. auto. }
  destruct m as [[ms|e]|]; [|done|].
  - destruct (inspector.scanIndex ms ∅ None) as [[archs digest]|] eqn:Es; [|done].
    apply wp_bind. eapply wp_mono; [|apply inspectInstance_allowed]. intros r tr2 [[l ->] Hr]. step.
    intros s [= ->]. destruct (Hr s eq_refl) as (labels & arch & Ha & ->).
    exists src, (Some ms), digest, labels, arch. split; [apply elem_of_app; by left|]. split; [done|].
    unfold inspector.architecturesOf. cbn. rewrite Es. cbn. rewrite bool_decide_eq_true_2 by done.
    unfold archsOf. by destruct (inspector.isBundleImage labels).
  - apply wp_bind. eapply wp_mono; [|apply inspectInstance_allowed]. intros r tr2 [[l ->] Hr]. step.
    intros s [= ->]. destruct (Hr s eq_refl) as (labels & arch & Ha & ->).
    exists src, None, None, labels, arch. split; [apply elem_of_app; by left|]. split; [done|].
    unfold inspector.architecturesOf. cbn. rewrite bool_decide_eq_true_2 by done.
    unfold archsOf. by destruct (inspector.isBundleImage labels).
Qed.

Lemma GetCompatible_justified env authJSON ref :
  wp policy_contract (GetCompatibleArchitecturesSet env authJSON ref)
    (λ r tr, ∀ s, r = Ret (Ok s) → justified s tr) [].
Proof.
  unfold GetCompatibleArchitecturesSet. apply wp_bind. eapply wp_mono; [|apply wp_true].
  intros [[fd path]|e] tr _; [|done]. prog_unfold. step. intros [] _. apply wp_bind. eapply wp_mono.
  { intros o tr1 H1. step. intros a _ s Hs. eapply justified_mono; [by eexists|]. exact (H1 s Hs). }
  destruct (parseImageReference ref) as [r|e]; [|done]. apply wp_bind. eapply wp_mono; [|apply wp_true].
  intros [[src|]|e] tr1 _; [|done..]. apply wp_bind.
  eapply wp_mono; [|apply inspectSource_justified]. intros o tr2 H2. step.
  intros a _ s Hs. eapply justified_mono; [by eexists|]. exact (H2 s Hs).
Qed.

(** C22: the inspector refines the rule for architectures under the signature policy.
    Whatever fails or is retried, a set of architectures it returns is the one
    [architecturesOf] gives for the manifest that was fetched and the configuration
    of the selected instance, and the policy allowed exactly that instance. *)
Theorem inspection_refines {W : Type} (srv : Server ICall W) w env authJSON ref s :
  server_ok srv policy_contract →
  (Prog.run (GetCompatibleArchitecturesSet env authJSON ref) w).2 = Ret (Ok s) →
  justified s (Prog.run (GetCompatibleArchitecturesSet env authJSON ref) w).1.2.
Proof.
  intros Hs. pose proof (wp_run _ _ _ [] w Hs (GetCompatible_justified env authJSON ref)) as H.
  destruct (Prog.run _ w) as [[w' tr] r]. exact (H s).
Qed.

(** ** The credentials file in memory *)

(** Files by descriptor, with their content and whether they are sealed, and the
    writable mappings by address. *)
Record MemKernel := mkMem {
  mk_files : gmap Z (string * bool);
  mk_maps : gmap Z Z;
  mk_next : Z;
}.

Fixpoint zeros (n : nat) : string := match n with O => "" | S n' => String "000" (zeros n') end.

(** Cut or extended with zeros. *)
Fixpoint resize (n : nat) (s : string) : string :=
  match n, s with
  | O, _ => ""
  | S n', String c s' => String c (resize n' s')
  | S n', EmptyString => zeros n
  end.

(** [copy]: as much as fits *)
Fixpoint overwrite (s b : string) : string :=
  match s, b with
  | String _ s', String c b' => String c (overwrite s' b')
  | _, _ => s
  end.

Definition EINVAL : GoError := errOther "invalid argument".
Definition EPERM : GoError := errOther "operation not permitted".
Definition EBUSY : GoError := errOther "device or resource busy".
Definition EBADF : GoError := errOther "bad file descriptor".

Definition mapped (fd : Z) (k : MemKernel) : bool :=
  existsb (λ m : Z * Z, bool_decide (m.2 = fd)) (map_to_list (mk_maps k)).

Definition on_file (fd : Z) (k : MemKernel) (f : string * bool → MemKernel * option GoError) :
    MemKernel * option GoError :=
  match mk_files k !! fd with Some c => f c | None => (k, Some EBADF) end.

(** The system calls of [writeMemFile] in the kernel; nothing else is answered. *)
#[export] Instance memKernel : Server ICall MemKernel := λ T c k,
  match c in ICall T return MemKernel * T with
  | MemfdCreate _ =>
      (mkMem (<[mk_next k := ("", false)]> (mk_files k)) (mk_maps k) (mk_next k + 1), Ok (mk_next k))
  | Ftruncate fd n =>
      on_file fd k (λ '(s, sealed), if sealed : bool then (k, Some EPERM)
        else (mkMem (<[fd := (resize n s, false)]> (mk_files k)) (mk_maps k) (mk_next k), None))
  | Mmap fd n =>
      match n, mk_files k !! fd with
      | S _, Some (_, false) =>
          (mkMem (mk_files k) (<[mk_next k := fd]> (mk_maps k)) (mk_next k + 1), Ok (mk_next k))
      | _, _ => (k, Err EINVAL)
      end
  | CopyTo addr b =>
      (match mk_maps k !! addr ≫= λ fd, (fd,.) <$> mk_files k !! fd with
       | Some (fd, (s, sealed)) =>
           mkMem (<[fd := (overwrite s b, sealed)]> (mk_files k)) (mk_maps k) (mk_next k)
       | None => k
       end, tt)
  | Munmap addr => (mkMem (mk_files k) (delete addr (mk_maps k)) (mk_next k), None)
  | AddSeals fd =>
      on_file fd k (λ '(s, _), if mapped fd k then (k, Some EBUSY)
        else (mkMem (<[fd := (s, true)]> (mk_files k)) (mk_maps k) (mk_next k), None))
  | CloseFd fd =>
      on_file fd k (λ _, (mkMem (delete fd (mk_files k)) (mk_maps k) (mk_next k), None))
  | InvalidateCache => (k, tt)
  | ResolveShortname _ _ => (k, Err EINVAL)
  | ParseReference _ => (k, Some EINVAL)
  | NewImageSource _ _ => (k, Err EINVAL)
  | CloseSource _ => (k, Some EINVAL)
  | GetManifest _ => (k, Err EINVAL)
  | DefaultPolicy _ => (k, Some EINVAL)
  | NewPolicyContext => (k, Some EINVAL)
  | IsRunningImageAllowed _ _ => (k, (false, Some EINVAL))
  | FromUnparsedImage _ _ => (k, Some EINVAL)
  | OCIConfig _ _ => (k, Err EINVAL)
  end.

Lemma resize_empty n : resize n "" = zeros n.
Proof. by destruct n. Qed.

Lemma overwrite_zeros b : overwrite (zeros (String.length b)) b = b.
Proof. induction b as [|c b IH]; cbn; [done|]. by rewrite IH. Qed.

Lemma run_Do {W : Type} {srv : Server ICall W} {A T} (c : ICall T) (k : T → IP A) w :
  ((Prog.run (Do c k) w).1.1, (Prog.run (Do c k) w).2)
  = ((Prog.run (k (serve c w).2) (serve c w).1).1.1, (Prog.run (k (serve c w).2) (serve c w).1).2).
Proof.
  cbn [Prog.run]. destruct (serve c w) as [w1 t]. cbn [fst snd].
  by destruct (Prog.run (k t) w1) as [[w2 tr] a].
Qed.

(** The file that [writeMemFile] returns holds exactly the bytes, is sealed
    against any further change, and is not mapped any more. *)
Theorem writeMemFile_content name b next :
  b ≠ "" →
  let '(w, _, r) := Prog.run (writeMemFile name b) (mkMem ∅ ∅ next) in
  w = mkMem {[next := (b, true)]} ∅ (next + 2) ∧ r = Ok next.
Proof.
  intros Hb. destruct (String.length b) as [|n] eqn:El; [by destruct b|].
  enough (((Prog.run (writeMemFile name b) (mkMem ∅ ∅ next)).1.1,
           (Prog.run (writeMemFile name b) (mkMem ∅ ∅ next)).2)
          = (mkMem {[next := (b, true)]} ∅ (next + 2), Ok next)) as H.
  { destruct (Prog.run _ _) as [[w tr] r]. by injection H as -> ->. }
  unfold writeMemFile. prog_unfold. cbn [pbind]. rewrite run_Do.
  change (serve (MemfdCreate name) (mkMem ∅ ∅ next))
    with (mkMem {[next := ("", false)]} ∅ (next + 1), Ok next : res Z).
  cbn [fst snd pbind]. rewrite run_Do.
  assert (serve (Ftruncate next (String.length b)) (mkMem {[next := ("", false)]} ∅ (next + 1))
          = (mkMem {[next := (zeros (S n), false)]} ∅ (next + 1), None)) as ->.
  { unfold serve, memKernel, on_file. cbn [mk_files]. rewrite lookup_singleton_eq, El, resize_empty. cbn.
    by rewrite insert_singleton_eq. }
  cbn [fst snd pbind]. rewrite run_Do, El.
  assert (serve (Mmap next (S n)) (mkMem {[next := (zeros (S n), false)]} ∅ (next + 1))
          = (mkMem {[next := (zeros (S n), false)]} {[next + 1 := next]} (next + 2), Ok (next + 1)))%Z as ->.
  { unfold serve, memKernel. cbn [mk_files]. rewrite lookup_singleton_eq. cbn. f_equal. f_equal. lia. }
  cbn [fst snd pbind]. rewrite run_Do.
  assert (serve (CopyTo (next + 1) b) (mkMem {[next := (zeros (S n), false)]} {[next + 1 := next]} (next + 2))
          = (mkMem {[next := (b, false)]} {[next + 1 := next]} (next + 2), tt))%Z as ->.
  { unfold serve, memKernel. cbn [mk_maps mk_files]. rewrite lookup_singleton_eq. cbn [mbind option_bind].
    rewrite lookup_singleton_eq. cbn -[zeros overwrite]. rewrite <-El, overwrite_zeros.
    by rewrite insert_singleton_eq. }
  cbn [fst snd pbind]. rewrite run_Do.
  assert (serve (Munmap (next + 1)) (mkMem {[next := (b, false)]} {[next + 1 := next]} (next + 2))
          = (mkMem {[next := (b, false)]} ∅ (next + 2), None))%Z as ->.
  { unfold serve, memKernel. cbn. by rewrite delete_singleton_eq. }
  cbn [fst snd pbind]. rewrite run_Do.
  assert (serve (AddSeals next) (mkMem {[next := (b, false)]} ∅ (next + 2))
          = (mkMem {[next := (b, true)]} ∅ (next + 2), None))%Z as ->.
  { unfold serve, memKernel, on_file, mapped. cbn [mk_files mk_maps]. rewrite lookup_singleton_eq, map_to_list_empty.
    cbn. by rewrite insert_singleton_eq. }
  done.
Qed.
