(* ===== verification/Transparency.v ===== *)
(** * The caches are invisible to the placement of pods

    [processPod] and the webhook reach the CEL evaluator and the image inspection
    only through the classes [CelService] and [ImageService]: two implementations
    that answer alike leave the same pods ([processPod_sim], [mutate_sim]).  With
    it the two caches of the program are removed: the reconciler that runs on the
    evaluator with its shared program cache and on the image cache ([cache.go],
    [facade.go]) leaves the pod that pure evaluation and a registry asked every
    time would leave, as long as the registry does not change its answers and the pull
    secrets of the pods have no globs. *)
From Stdlib Require Import Ascii.
From stdpp Require Import base gmap strings list sorting.
From S2P Require Import Prelude GoStd Api LabelSelectors NodeMatch Models ArchConstraints Lru.
From S2P Require Import CelEval Events PodModel PodTheorems PodReconciler ReconcilerTheorems.
From S2P Require Import Webhook ImageInspect ImageAuth.
Import plugins v1beta1 models events image_cache.

(** ** Implementations that answer alike *)
Section simulation.
Context {W1 W2 : Type} {C1 : CelService W1} {C2 : CelService W2}
  {I1 : ImageService W1} {I2 : ImageService W2} {rangeOrder : RangeOrder} {rangeOk : RangeOrderOk}.
Context (R : W1 → W2 → Prop) (good secret_ok : string → Prop).

(** The same answer, and related states after it. *)
Definition alike {A} (x : W1 * A) (y : W2 * A) : Prop := R x.1 y.1 ∧ x.2 = y.2.

Context (cel_alike : ∀ rules fb p w1 w2, R w1 w2 → alike (cel_place rules fb p w1) (cel_place rules fb p w2)).
Context (img_alike : ∀ name skip secrets w1 w2, good name → Forall secret_ok secrets → R w1 w2 →
  alike (img_archs name skip secrets w1) (img_archs name skip secrets w2)).

(** The secrets of the pods are among those the two inspections agree on. *)
Definition good_secrets (env : Env) : Prop := ∀ ns name d, secretData env ns name = Some d → secret_ok d.

(** Every image of the pod has a name the two inspections agree on. *)
Definition good_images (p : Pod) : Prop := ∀ i, i ∈ imagesNamesSet p → good i.1.

Lemma good_images_same p q : same_workload p q → good_images p → good_images q.
Proof using. intros (_ & _ & _ & _ & Hc & Hi & _) H i. unfold imagesNamesSet. rewrite Hc, Hi. apply H. Qed.

Lemma intersect_loop_sim images secrets acc w1 w2 :
  Forall (λ i, good i.1) images → Forall secret_ok secrets → R w1 w2 →
  alike (intersect_loop images secrets acc w1) (intersect_loop images secrets acc w2).
Proof using img_alike.
  intros Hg Hs. revert acc w1 w2. induction Hg as [|[name skip] images Hi _ IH]; intros acc w1 w2 HR; [done|].
  cbn. destruct (img_alike name skip secrets w1 w2 Hi Hs HR) as [H1 H2].
  destruct (img_archs name skip secrets w1) as [w1' o], (img_archs name skip secrets w2) as [w2' o'].
  cbn in *. subst o'. destruct o; [by apply IH|done].
Qed.

Lemma SetNodeAffinity_sim secrets p w1 w2 :
  good_images p → Forall secret_ok secrets → R w1 w2 →
  let '(w1', q, r) := SetNodeAffinityArchRequirement secrets p w1 in
  let '(w2', q', r') := SetNodeAffinityArchRequirement secrets p w2 in
  R w1' w2' ∧ q = q' ∧ r = r'.
Proof using img_alike rangeOk.
  intros Hg Hsec HR. unfold SetNodeAffinityArchRequirement.
  pose proof (quiet_configured p) as (Hq & _).
  destruct (isNodeSelectorConfiguredForArchitecture p) as [[] q]; [done|]. cbn [snd] in Hq.
  unfold getArchitecturePredicate, intersectImagesArchitecture.
  destruct (intersect_loop_sim (range_images (imagesNamesSet q)) secrets None w1 w2) as [H1 H2].
  { apply Forall_forall. intros i Hi%elem_of_range_images. by eapply good_images_same. }
  { done. } { done. }
  destruct (intersect_loop _ secrets None w1) as [w1' o], (intersect_loop _ secrets None w2) as [w2' o'].
  cbn in *. subst o'. by destruct o.
Qed.

Lemma imageBased_sim env p w1 w2 :
  good_secrets env → good_images p → R w1 w2 → alike (imageBased env p w1) (imageBased env p w2).
Proof using img_alike rangeOk.
  intros Hsec Hg HR. unfold imageBased, pullSecretDataList. cbn [err_of].
  set (secrets := omap _ _). set (p1 := handleError None p).
  pose proof (SetNodeAffinity_sim secrets p1 w1 w2) as H.
  destruct (SetNodeAffinityArchRequirement secrets p1 w1) as [[w1' q] r].
  destruct (SetNodeAffinityArchRequirement secrets p1 w2) as [[w2' q'] r'].
  destruct H as (HR' & <- & <-).
  { eapply good_images_same; [|exact Hg]. apply (keeps_handleError None p). }
  { apply Forall_forall. intros d (x & _ & Hx)%list_elem_of_omap. by eapply Hsec. }
  { done. }
  by case_match.
Qed.

Lemma cel_loop_sim ppcs p w1 w2 :
  R w1 w2 →
  R (cel_loop ppcs p w1).1.1 (cel_loop ppcs p w2).1.1
  ∧ (cel_loop ppcs p w1).1.2 = (cel_loop ppcs p w2).1.2
  ∧ (cel_loop ppcs p w1).2 = (cel_loop ppcs p w2).2.
Proof using cel_alike.
  revert p w1 w2. induction ppcs as [|c ppcs IH]; intros p w1 w2 HR; [done|]. cbn [cel_loop].
  unfold applyCELArchitecturePlacement. destruct (negb _); [by apply IH|].
  destruct (ppc_cel c) as [pl|]; [|by apply IH].
  destruct (cel_alike (cel_Rules pl) (cel_FallbackArchitectures pl) (pod_obj p) w1 w2 HR) as [H1 H2].
  destruct (cel_place _ _ _ w1) as [w1' o], (cel_place _ _ _ w2) as [w2' o']. cbn in *. subst o'.
  destruct o as [r|e]; [|by apply IH]. destruct (applyCelResult c r p) as [q []]; [done|by apply IH].
Qed.

Lemma configured_pod_sim env matching p w1 w2 :
  R w1 w2 →
  R (configured_pod env matching p w1).1.1 (configured_pod env matching p w2).1.1
  ∧ (configured_pod env matching p w1).1.2 = (configured_pod env matching p w2).1.2
  ∧ (configured_pod env matching p w1).2 = (configured_pod env matching p w2).2.
Proof using cel_alike.
  intros HR. unfold configured_pod, applyMatchingPPCs.
  destruct (cel_loop_sim (env_sort env matching) p w1 w2 HR) as (H1 & H2 & H3).
  destruct (cel_loop _ p w1) as [[w1' q] b], (cel_loop _ p w2) as [[w2' q'] b']. cbn in *. subst q' b'.
  by destruct (isPreferredAffinityConfiguredForArchitecture p).
Qed.

Lemma processPod_sim env p w1 w2 :
  good_secrets env → good_images p → R w1 w2 → alike (processPod env p w1) (processPod env p w2).
Proof using cel_alike img_alike rangeOk.
  intros Hsec Hg HR. rewrite !processPod_eq. destruct (listPPCs _ _) as [items|e]; [|done]. cbn zeta.
  set (matching := filterMatchingPPCs _ _ items p).
  pose proof (quiet_shouldIgnorePod (env_operatorNamespace env) (env_cppc env) matching p) as (Hq & _).
  destruct (shouldIgnorePod _ _ matching p) as [[] p0]; [done|]. cbn [snd] in Hq.
  destruct (configured_pod_sim env matching p0 w1 w2 HR) as (H1 & H2 & H3).
  pose proof (quiet_configured_pod env matching p0 w1) as (Hq' & _).
  destruct (configured_pod env matching p0 w1) as [[w1' q] b].
  destruct (configured_pod env matching p0 w2) as [[w2' q'] b']. cbn in *. subst q' b'.
  destruct b; [done|]. apply imageBased_sim; [done| |done]. eapply good_images_same; [|exact Hg]. by etrans.
Qed.

(** A reconcile sends the same pod and ends the same way. *)
Lemma Reconcile_sim env get update recorder w1 w2 :
  good_secrets env → (∀ obj, get = Ok obj → good_images (NewPod obj recorder)) → R w1 w2 →
  alike (Reconcile env get update recorder w1) (Reconcile env get update recorder w2).
Proof using cel_alike img_alike rangeOk.
  intros Hsec Hg HR. unfold Reconcile. destruct get as [obj|e]; [|done]. destruct (negb _); [done|].
  destruct (processPod_sim env (NewPod obj recorder) w1 w2 Hsec (Hg obj eq_refl) HR) as [H1 H2].
  destruct (processPod env _ w1) as [w1' q], (processPod env _ w2) as [w2' q']. cbn in *. subst q'.
  by destruct (update (pod_obj q)).
Qed.

Lemma cel_webhook_loop_sim ppcs p w1 w2 :
  R w1 w2 → alike (cel_webhook_loop ppcs p w1) (cel_webhook_loop ppcs p w2).
Proof using cel_alike.
  revert w1 w2. induction ppcs as [|c ppcs IH]; intros w1 w2 HR; [done|]. cbn [cel_webhook_loop].
  destruct (negb _); [by apply IH|]. destruct (ppc_cel c) as [pl|]; [|by apply IH].
  destruct (cel_alike (cel_Rules pl) (cel_FallbackArchitectures pl) (pod_obj p) w1 w2 HR) as [H1 H2].
  destruct (cel_place _ _ _ w1) as [w1' o], (cel_place _ _ _ w2) as [w2' o']. cbn in *. subst o'.
  destruct o as [r|e]; [|by apply IH]. destruct (er_allRulesErrored r); [by apply IH|].
  case_bool_decide; [by apply IH|done].
Qed.

(** And so does an admission. *)
Lemma Handle_sim env decoded recorder w1 w2 :
  R w1 w2 →
  match Handle env decoded recorder w1, Handle env decoded recorder w2 with
  | Ret x, Ret y => alike x y
  | Panic, Panic => True
  | _, _ => False
  end.
Proof using cel_alike.
  intros HR. unfold Handle, mutate. destruct decoded as [obj|e]; [|done].
  set (matching := filterMatchingPPCs _ _ _ _).
  destruct (shouldIgnorePod _ _ matching _) as [[] p2]; [done|]. unfold applyCELInWebhook.
  destruct (cel_webhook_loop_sim (we_sort env matching) p2 w1 w2 HR) as [H1 H2].
  destruct (cel_webhook_loop _ p2 w1) as [w1' q], (cel_webhook_loop _ p2 w2) as [w2' q']. cbn in *. subst q'.
  by destruct (writeLabel _ _ _).
Qed.
End simulation.

(** ** The image cache as the inspection the reconciler uses *)
Section cached.
Context {Reg : Type}.
(** The registries and the local clock, which inspections move on. *)
Context (inspect : string → string → list string → Reg → Reg * res (gset string)).
Context (clock : Reg → Z).
Context (marshal : string → list string → res string) (sha256hex : string → string).

(** [Facade.GetCompatibleArchitecturesSet] on the proxy and the world outside. *)
Definition cached_images : ImageService (Proxy * Reg) := λ image skip secrets '(px, r),
  let '(px', r', o) :=
    GetCompatibleArchitecturesSet inspect marshal sha256hex (clock r) image skip secrets px r in
  ((px', r'), o).

(** The inspection without a cache: credentials first, then the registry. *)
Definition direct (answers : string → list string → res (gset string)) :
    ImageService unit := λ image _ secrets _,
  (tt, match marshal image secrets with Err e => Err e | Ok _ => answers image secrets end).

Context (gps : string) (answers : string → list string → res (gset string)).

(** The registries do not change their answers. *)
Context (stable : ∀ image secrets r, (inspect gps image secrets r).2 = answers image secrets).
(** What an inspection answers depends on these secrets through the key made of them. *)
Context (secret_ok : string → Prop).
Context (by_credentials : ∀ image s1 s2 key, Forall secret_ok s1 → Forall secret_ok s2 →
  marshal image s1 = Ok key → marshal image s2 = Ok key → answers image s1 = answers image s2).
(** No collisions of SHA-256. *)
Context (sha_inj : ∀ x y, sha256hex x = sha256hex y → x = y).

(** A valid image reference has no NUL, the separator of the cache's keys. *)
Definition no_nul (image : string) : Prop := has_char "000"%char image = false.

Lemma computeHash_inj image image' a a' :
  no_nul image → no_nul image' →
  computeHash sha256hex image a = computeHash sha256hex image' a' → image = image' ∧ a = a'.
Proof using sha_inj.
  intros H1 H2 He%sha_inj.
  assert (E : splitFirst "000"%char (image +:+ String "000"%char a)
            = splitFirst "000"%char (image' +:+ String "000"%char a')) by (by rewrite He).
  rewrite !plainURL.splitFirst_app in E by done. by injection E.
Qed.

(** What is cached is what the registry would answer. *)
Definition entry_true (e : string * (gset string * Z)) : Prop :=
  ∀ image secrets, no_nul image → Forall secret_ok secrets →
    keyOf marshal sha256hex image secrets = Some e.1 → answers image secrets = Ok e.2.1.

Definition transparent (pr : Proxy * Reg) : Prop :=
  px_globalPullSecret pr.1 = gps ∧ Forall entry_true (px_entries pr.1).

Lemma entry_true_add image secrets k s e :
  no_nul image → Forall secret_ok secrets →
  keyOf marshal sha256hex image secrets = Some k → answers image secrets = Ok s →
  entry_true (k, (s, e)).
Proof using sha_inj by_credentials.
  intros Hi Hs Hk Ha image' secrets' Hi' Hs' Hk'. unfold keyOf in *. cbn in *.
  destruct (marshal image secrets) as [a|] eqn:E; [|done].
  destruct (marshal image' secrets') as [a'|] eqn:E'; [|done]. injection Hk as <-.
  injection Hk' as Hh. apply computeHash_inj in Hh as [-> ->]; [|done..]. rewrite <-Ha.
  by eapply by_credentials.
Qed.

Lemma exp_Get_true now k l :
  Forall entry_true l → Forall entry_true (exp_Get now k l).2
  ∧ ∀ s, (exp_Get now k l).1 = Some s → ∃ e, entry_true (k, (s, e)).
Proof using.
  intros Hl. rewrite Forall_forall in Hl. split.
  - apply Forall_forall. intros e He%exp_Get_elem. by apply Hl.
  - intros s Hs. apply exp_Get_found in Hs as (e & He & _). exists e. by apply Hl.
Qed.

(** A request through the cache answers what the registry would. *)
Lemma cached_answer image skip secrets pr :
  no_nul image → Forall secret_ok secrets → transparent pr →
  transparent (cached_images image skip secrets pr).1
  ∧ (cached_images image skip secrets pr).2
    = match marshal image secrets with Err e => Err e | Ok _ => answers image secrets end.
Proof using stable by_credentials sha_inj.
  intros Hi Hsec [Hg He]. destruct pr as [px r]. cbn in Hg, He. unfold cached_images.
  unfold GetCompatibleArchitecturesSet. destruct (marshal image secrets) as [auth|e] eqn:Em; [|done].
  set (k := computeHash sha256hex image auth).
  assert (Hk : keyOf marshal sha256hex image secrets = Some k) by (unfold keyOf; by rewrite Em).
  destruct (exp_Get_true (clock r) k (px_entries px) He) as [Hl Hhit].
  destruct (exp_Get (clock r) k (px_entries px)) as [hit l]. cbn [fst snd] in *.
  rewrite Hg. pose proof (stable image secrets r) as Hs.
  destruct (inspect gps image secrets r) as [r' o]. cbn in Hs. subst o.
  assert (Hreq : ∀ b, let '(px', r1, o) := match answers image secrets with
      | Ok s => (if b : bool then mkProxy l gps else mkProxy (exp_Add (clock r) k s l) gps, r', Ok s)
      | Err e => (mkProxy l gps, r', Err e) end in
    transparent (px', r1) ∧ o = answers image secrets).
  { intros b. destruct (answers image secrets) as [s|e] eqn:Ea; [|done]. split; [|done].
    destruct b; split; try done. cbn. apply Forall_forall. intros x [->|Hx]%lru_Add_elem.
    - by eapply entry_true_add.
    - rewrite Forall_forall in Hl. by apply Hl. }
  destruct hit as [s|], skip; cbn [fst snd].
  - specialize (Hreq true). by destruct (answers image secrets).
  - split; [by split|]. destruct (Hhit s eq_refl) as [e Ht]. symmetry. by apply (Ht image secrets).
  - specialize (Hreq true). by destruct (answers image secrets).
  - specialize (Hreq false). by destruct (answers image secrets).
Qed.
End cached.

(** ** Does the key determine the credentials?

    The key of the cache is made of the pod's own pull secrets; the inspection uses
    them together with the global pull secret.  The key determines what is used when
    the pod's secrets name registries without globs, and need not otherwise
    ([cache_key_ambiguous]). *)
Section key.
Context `{NetURL} (unmarshal : string → option Auths) (marshallAuths : Auths → res string).
Context (marshall_inj : ∀ a b x, marshallAuths a = Ok x → marshallAuths b = Ok x → a = b).

Definition plain_registries (ac : Auths) : Prop := ∀ r, is_Some (ac !! r) → containsGlob r = false.
Definition plain_secret (s : string) : Prop := ∀ auths, unmarshal s = Some auths → plain_registries auths.
Definition plain_secrets (secrets : list string) : Prop := Forall plain_secret secrets.

Lemma expandOne_plain image k (ac : Auths) : plain_registries ac → expandOne image k ac = ac.
Proof.
  intros Hp. unfold expandOne. destruct (ac !! k) as [a|] eqn:E; [|done].
  unfold matchAndExpandGlob. by rewrite Hp by eauto.
Qed.

Lemma expandLoop_plain image initial todo (ac ac' : Auths) :
  expandLoop image initial todo ac ac' → plain_registries ac → ac' = ac.
Proof.
  induction 1 as [|todo k ac ac' _ _ IH|todo k ac ac' _ _ _ IH]; [done|..]; intros Hp;
    rewrite expandOne_plain in IH by done; auto.
Qed.

Lemma mergeSecrets_plain secrets ac :
  plain_secrets secrets → plain_registries ac → plain_registries (mergeSecrets unmarshal secrets ac).
Proof.
  intros Hs. revert ac. induction Hs as [|s secrets Hs _ IH]; intros ac Ha; [done|]. cbn. apply IH.
  unfold unmarshallAuthsDataAndStore. destruct (unmarshal s) as [auths|] eqn:E; [|done].
  intros r [x Hx]. rewrite addAuths_union in Hx. apply lookup_union_Some_raw in Hx as [Hx|[_ Hx]].
  - eapply Hs; [done|by eexists].
  - apply Ha. by eexists.
Qed.

Lemma merged_plain image s1 s2 a1 a2 key :
  plain_secrets s1 → plain_secrets s2 →
  expandGlobs image (mergeSecrets unmarshal s1 ∅) a1 → marshallAuths a1 = Ok key →
  expandGlobs image (mergeSecrets unmarshal s2 ∅) a2 → marshallAuths a2 = Ok key →
  ∀ ac, mergeSecrets unmarshal s1 ac = mergeSecrets unmarshal s2 ac.
Proof using marshall_inj.
  intros H1 H2 E1 K1 E2 K2.
  assert (He : plain_registries ∅) by (intros r [x Hx]; by rewrite lookup_empty in Hx).
  apply expandLoop_plain in E1; [|by apply mergeSecrets_plain].
  apply expandLoop_plain in E2; [|by apply mergeSecrets_plain].
  assert (Hm : mergeSecrets unmarshal s1 ∅ = mergeSecrets unmarshal s2 ∅).
  { subst a1 a2. by eapply marshall_inj. }
  intros ac. apply map_eq. intros r. apply (f_equal (.!! r)) in Hm.
  rewrite !mergeSecrets_lookup in *. rewrite lookup_empty in Hm.
  destruct (lastAuth unmarshal s1 r), (lastAuth unmarshal s2 r); by simplify_eq.
Qed.

(** Own secrets without globs that give the same key give the same credentials,
    whatever the global pull secret is. *)
Lemma plain_credentials image gps s1 s2 key :
  plain_secrets s1 → plain_secrets s2 →
  marshaledImagePullSecrets unmarshal marshallAuths image s1 (Ok key) →
  marshaledImagePullSecrets unmarshal marshallAuths image s2 (Ok key) →
  ∀ b, marshaledImagePullSecrets unmarshal marshallAuths image (gps :: s1) b
     ↔ marshaledImagePullSecrets unmarshal marshallAuths image (gps :: s2) b.
Proof using marshall_inj.
  intros H1 H2 (a1 & E1 & K1) (a2 & E2 & K2) b. unfold marshaledImagePullSecrets. cbn [mergeSecrets].
  by rewrite (merged_plain image s1 s2 a1 a2 key).
Qed.

(** [marshaledImagePullSecrets] as a function: [expand] is the outcome of the loop that
    expands the globs, which visits a map while it writes to it. *)
Context (expand : string → Auths → Auths).
Context (expand_ok : ∀ image ac, expandGlobs image ac (expand image ac)).

Definition credentials (image : string) (secrets : list string) : res string :=
  marshallAuths (expand image (mergeSecrets unmarshal secrets ∅)).

Lemma credentials_possible image secrets :
  marshaledImagePullSecrets unmarshal marshallAuths image secrets (credentials image secrets).
Proof using expand_ok. eexists. split; [apply expand_ok|done]. Qed.

Lemma credentials_determined image gps s1 s2 key :
  plain_secrets s1 → plain_secrets s2 →
  credentials image s1 = Ok key → credentials image s2 = Ok key →
  credentials image (gps :: s1) = credentials image (gps :: s2).
Proof using expand_ok marshall_inj.
  intros H1 H2 K1 K2. unfold credentials. cbn [mergeSecrets].
  by erewrite (merged_plain image s1 s2).
Qed.
End key.

(** One such order: that of the set of registries. *)
Definition expandInOrder `{NetURL} (image : string) (ac : Auths) : Auths :=
  foldl (λ m k, expandOne image k m) ac (elements (dom ac)).

Lemma expandInOrder_ok `{NetURL} image ac : expandGlobs image ac (expandInOrder image ac).
Proof.
  assert (H' : ∀ l initial ac, NoDup l →
    expandLoop image initial (list_to_set l) ac (foldl (λ m k, expandOne image k m) ac l)).
  { clear ac. induction l as [|k l IH]; intros initial ac Hl; [constructor|]. apply NoDup_cons in Hl as [Hk Hl].
    apply (expand_initial _ _ _ k); [set_solver|]. cbn [foldl].
    replace (list_to_set (k :: l) ∖ {[k]} : gset string) with (list_to_set l : gset string) by set_solver.
    by apply IH. }
  unfold expandGlobs, expandInOrder. specialize (H' (elements (dom ac)) (dom ac) ac (NoDup_elements _)).
  by rewrite list_to_set_elements_L in H'.
Qed.

(** ** Both caches *)
Section both.
Context `{cel : CelEngine}.
Context {Reg : Type} (inspect : string → string → list string → Reg → Reg * res (gset string)).
Context (clock : Reg → Z) (sha256hex : string → string) (gps : string).
Context {rangeOrder : RangeOrder} {rangeOk : RangeOrderOk}.
Context {netURL : NetURL} (unmarshal : string → option Auths) (marshallAuths : Auths → res string).
Context (expand : string → Auths → Auths).
(** What the registries answer for an image, given the content of the auth file *)
Context (registry : string → res string → res (gset string)).

#[local] Abbreviation credentials := (credentials unmarshal marshallAuths expand).

(** The pod's secrets are used together with the global one. *)
Definition answers (image : string) (secrets : list string) : res (gset string) :=
  registry image (credentials image (gps :: secrets)).

(** The program's services on its own state: evaluator, image cache, world. *)
Definition program_cel : CelService (Package * (Proxy * Reg)) := λ rules fb p '(g, x),
  let '(g', o) := cel_place rules fb p g in ((g', x), o).
Definition program_images : ImageService (Package * (Proxy * Reg)) := λ image skip secrets '(g, x),
  let '(x', o) := cached_images inspect clock credentials sha256hex image skip secrets x in ((g, x'), o).

(** Pure evaluation, and a registry that is asked every time. *)
Definition pure_cel : CelService unit := λ rules fb p _, (tt, celPure rules fb (Some p)).
Definition pure_images : ImageService unit := direct credentials answers.

Definition caches_ok (w : Package * (Proxy * Reg)) : Prop :=
  cel_inv w.1 ∧ transparent credentials sha256hex gps answers (plain_secret unmarshal) w.2.

(** The registries answer by image and credentials, and do not change their answers. *)
Context (stable : ∀ image secrets r, (inspect gps image secrets r).2 = answers image secrets).
Context (expand_ok : ∀ image ac, expandGlobs image ac (expand image ac)).
Context (marshall_inj : ∀ a b x, marshallAuths a = Ok x → marshallAuths b = Ok x → a = b).
Context (sha_inj : ∀ x y, sha256hex x = sha256hex y → x = y).

Lemma answers_determined image s1 s2 key :
  Forall (plain_secret unmarshal) s1 → Forall (plain_secret unmarshal) s2 →
  credentials image s1 = Ok key → credentials image s2 = Ok key → answers image s1 = answers image s2.
Proof using expand_ok marshall_inj.
  intros H1 H2 K1 K2. unfold answers. by rewrite (credentials_determined unmarshal marshallAuths marshall_inj
    expand expand_ok image gps s1 s2 key H1 H2 K1 K2).
Qed.

Lemma both_cel rules fb p w u :
  caches_ok w → alike (λ w _, caches_ok w) (@cel_place _ program_cel rules fb p w) (@cel_place _ pure_cel rules fb p u).
Proof using.
  destruct w as [g x]. intros [Hg Hx]. cbn in Hg, Hx. unfold cel_place, program_cel, pure_cel.
  pose proof (cel_agree rules fb p g Hg) as Ha. pose proof (cel_inv_step rules fb p g Hg) as Hi.
  destruct (cel_place rules fb p g) as [g' o]. cbn in *. by subst o.
Qed.

Lemma both_images image skip secrets w u :
  no_nul image → Forall (plain_secret unmarshal) secrets → caches_ok w →
  alike (λ w _, caches_ok w) (@img_archs _ program_images image skip secrets w)
    (@img_archs _ pure_images image skip secrets u).
Proof using stable expand_ok marshall_inj sha_inj.
  destruct w as [g x]. intros Hi Hs [Hg Hx]. cbn in Hg, Hx. unfold img_archs, program_images, pure_images, direct.
  pose proof (cached_answer inspect clock credentials sha256hex gps answers stable (plain_secret unmarshal)
    answers_determined sha_inj image skip secrets x Hi Hs Hx) as [H1 H2].
  destruct (cached_images _ _ _ _ image skip secrets x) as [x' o]. by cbn in *.
Qed.

(** C12: the caches do not show, to pods whose pull secrets name registries without
    globs.  A reconcile on the program's own state (the evaluator with its program
    cache, the image cache filled by whatever such reconciles came before, the clock)
    sends the API server the pod, and returns the result, of a reconcile with pure
    evaluation of the rules and a registry asked every time with the credentials of the
    pod and the global pull secret; and it leaves the caches in a state of which the
    same holds again.  It is assumed that the registries keep their answers for an image
    and an auth file and that the global pull secret does not change, that SHA-256 and
    the marshalling of credentials have no collisions, that image references have no
    NUL byte, and that the order in which a map is visited depends on the map.  With
    globs it does not hold ([cache_key_ambiguous]). *)
Theorem caches_transparent env obj update recorder w :
  (∀ ns name d, secretData env ns name = Some d → plain_secret unmarshal d) →
  (∀ c, c ∈ ps_Containers (p_Spec obj) ++ ps_InitContainers (p_Spec obj) → no_nul (c_Image c)) →
  caches_ok w →
  let '(w', r) := @Reconcile _ program_cel program_images rangeOrder env (Ok obj) update recorder w in
  r = (@Reconcile _ pure_cel pure_images rangeOrder env (Ok obj) update recorder tt).2 ∧ caches_ok w'.
Proof using stable expand_ok marshall_inj sha_inj rangeOk.
  intros Hs Hn Hw.
  destruct (@Reconcile_sim _ _ program_cel pure_cel program_images pure_images rangeOrder rangeOk
    (λ w _, caches_ok w) no_nul (plain_secret unmarshal) (λ rules fb p w u, both_cel rules fb p w u)
    (λ name skip secrets w u, both_images name skip secrets w u) env (Ok obj) update recorder w tt) as [H1 H2].
  - exact Hs.
  - intros o [= <-] [name skip] Hi. unfold imagesNamesSet in Hi. apply elem_of_list_to_set in Hi.
    apply list_elem_of_fmap in Hi as (c & [= -> ->] & Hc). unfold no_nul. cbn. by apply Hn.
  - done.
  - by destruct (@Reconcile _ program_cel program_images rangeOrder env (Ok obj) update recorder w).
Qed.
End both.

(** With a glob the key does not determine the credentials: a pod that brings
    ["*.io"] only is inspected with the global credential for [quay.io], a pod that
    brings the same credential for both with its own, under the same key. *)
Section collision.
Import plainURL.

Definition own_glob : Auths := {[ "*.io" := "own" ]}.
Definition own_both : Auths := {[ "*.io" := "own"; "quay.io" := "own" ]}.
Definition global_auth : Auths := {[ "quay.io" := "global" ]}.

Theorem cache_key_ambiguous :
  ∃ key c1 c2, expandGlobs "//quay.io/team/app" own_glob key
    ∧ expandGlobs "//quay.io/team/app" own_both key
    ∧ expandGlobs "//quay.io/team/app" (addAuths own_glob global_auth) c1
    ∧ expandGlobs "//quay.io/team/app" (addAuths own_both global_auth) c2
    ∧ c1 !! "quay.io" = Some "global" ∧ c2 !! "quay.io" = Some "own".
Proof.
  set (one := expandOne "//quay.io/team/app").
  assert (Hone : ∀ (ac : Auths) k, dom ac = {[k]} → expandGlobs "//quay.io/team/app" ac (one k ac)).
  { intros ac k Hd. unfold expandGlobs. rewrite Hd at 2. apply (expand_initial _ _ _ k); [set_solver|].
    replace (({[k]} : gset string) ∖ {[k]}) with (∅ : gset string) by set_solver. constructor. }
  assert (Htwo : ∀ (ac : Auths) a b, a ≠ b → dom ac = {[a; b]} →
    expandGlobs "//quay.io/team/app" ac (one b (one a ac))).
  { intros ac a b Hab Hd. unfold expandGlobs. rewrite Hd at 2.
    apply (expand_initial _ _ _ a); [set_solver|]. apply (expand_initial _ _ _ b); [set_solver|].
    replace (({[a; b]} : gset string) ∖ {[a]} ∖ {[b]}) with (∅ : gset string) by set_solver. constructor. }
  exists own_both, (addAuths own_glob global_auth), (addAuths own_both global_auth).
  split_and!; try (vm_compute; reflexivity).
  - replace own_both with (one "*.io" own_glob) by (vm_compute; reflexivity). apply Hone. vm_compute; reflexivity.
  - replace own_both with (one "quay.io" (one "*.io" own_both)) at 2 by (vm_compute; reflexivity).
    apply Htwo; [done|vm_compute; reflexivity].
  - replace (addAuths own_glob global_auth)
      with (one "quay.io" (one "*.io" (addAuths own_glob global_auth))) at 2 by (vm_compute; reflexivity).
    apply Htwo; [done|vm_compute; reflexivity].
  - replace (addAuths own_both global_auth)
      with (one "quay.io" (one "*.io" (addAuths own_both global_auth))) at 2 by (vm_compute; reflexivity).
    apply Htwo; [done|vm_compute; reflexivity].
Qed.
End collision.
