(* ===== verification/CacheConcurrency.v ===== *)
(** * The image cache under concurrency

    The pod reconciler inspects images from [maxConcurrentReconciles] goroutines
    while the syncer of the global pull secret runs in another.  [cache.go],
    [facade.go] and [inspector.go] protect the cache (a mutex in the LRU of
    hashicorp) and the secret (a [RWMutex]) one access at a time, not the request
    as a whole.  Here a request of [cacheProxy.GetCompatibleArchitecturesSet] is
    the sequence of its atomic parts: the lookup, the reading of the secret, the
    answer of the registry, the insertion; and [Facade.StoreGlobalPullSecret] the
    two of its own.  [exec] runs one of them; a run is any sequence of them.

    [ImageInspect.image_cache] is the sequential reading of the same code. *)
From stdpp Require Import base gmap strings list.
From S2P Require Import Prelude GoStd Lru ImageInspect.
Import image_cache.

Module concurrent.

(** Where a request is *)
Inductive Phase :=
| Missed (key : string) (skipCache : bool)
| Inspecting (key : string) (skipCache : bool) (secret : string) (epoch : nat)
| Inspected (key : string) (skipCache : bool) (secret : string) (epoch : nat) (answer : gset string).

(** Between the two calls of [StoreGlobalPullSecret] *)
Inductive Syncer := Idle | Stored.

(** What was inserted, for the statements only: for which key, with the secret of
    which epoch, in which epoch, when. *)
Record Insertion := mkInsertion {
  in_key : string;
  in_set : gset string;
  in_secret : string;
  in_read : nat;
  in_epoch : nat;
  in_time : Z;
}.

Record State := mkState {
  c_now : Z;
  c_entries : Entries;
  c_secret : string;
  (** how often the secret was stored *)
  c_epoch : nat;
  c_syncer : Syncer;
  c_requests : gmap nat Phase;
  c_log : list Insertion;
}.

Definition start (now : Z) : State := mkState now [] "" 0 Idle ∅ [].

Definition set_entries (l : Entries) (st : State) : State :=
  mkState (c_now st) l (c_secret st) (c_epoch st) (c_syncer st) (c_requests st) (c_log st).
Definition set_requests (m : gmap nat Phase) (st : State) : State :=
  mkState (c_now st) (c_entries st) (c_secret st) (c_epoch st) (c_syncer st) m (c_log st).

Inductive Event :=
| Lookup (id : nat) (key : string) (skipCache : bool)   (** [imageRefsCache.Get] *)
| ReadSecret (id : nat)                                 (** under [RLock] *)
| RegistryAnswers (id : nat) (answer : option (gset string))
| Insert (id : nat)                                     (** [imageRefsCache.Add] *)
| StoreSecret (secret : string)                         (** [i.storeGlobalPullSecret] *)
| ClearCache                                            (** [i.clearCache] *)
| Tick (d : nat)
| Expire (key : string).                                (** the cleaner of the LRU, [ExpirableLru.cleaned] *)

Definition exec (e : Event) (st : State) : option State :=
  match e with
  | Lookup id k skip =>
      match c_requests st !! id with
      | Some _ => None
      | None =>
          let '(hit, l) := exp_Get (c_now st) k (c_entries st) in
          let st1 := set_entries l st in
          match hit, skip with
          | Some _, false => Some st1
          | _, _ => Some (set_requests (<[id := Missed k skip]> (c_requests st1)) st1)
          end
      end
  | ReadSecret id =>
      match c_requests st !! id with
      | Some (Missed k skip) =>
          Some (set_requests (<[id := Inspecting k skip (c_secret st) (c_epoch st)]> (c_requests st)) st)
      | _ => None
      end
  | RegistryAnswers id answer =>
      match c_requests st !! id, answer with
      | Some (Inspecting k skip sec ep), Some s =>
          Some (set_requests (<[id := Inspected k skip sec ep s]> (c_requests st)) st)
      | Some (Inspecting _ _ _ _), None => Some (set_requests (delete id (c_requests st)) st)
      | _, _ => None
      end
  | Insert id =>
      match c_requests st !! id with
      | Some (Inspected k skip sec ep s) =>
          let st1 := set_requests (delete id (c_requests st)) st in
          Some (if skip then st1
                else mkState (c_now st) (exp_Add (c_now st) k s (c_entries st)) (c_secret st) (c_epoch st)
                       (c_syncer st) (delete id (c_requests st))
                       (mkInsertion k s sec ep (c_epoch st) (c_now st) :: c_log st))
      | _ => None
      end
  | StoreSecret sec =>
      match c_syncer st with
      | Idle => Some (mkState (c_now st) (c_entries st) sec (S (c_epoch st)) Stored (c_requests st) (c_log st))
      | Stored => None
      end
  | ClearCache =>
      match c_syncer st with
      | Stored => Some (mkState (c_now st) [] (c_secret st) (c_epoch st) Idle (c_requests st) (c_log st))
      | Idle => None
      end
  | Tick d => Some (mkState (c_now st + Z.of_nat d) (c_entries st) (c_secret st) (c_epoch st) (c_syncer st)
                      (c_requests st) (c_log st))
  | Expire k => Some (set_entries (List.filter (λ p, negb (bool_decide (p.1 = k ∧ (p.2.2 ≤ c_now st)%Z))) (c_entries st)) st)
  end.

Fixpoint run (es : list Event) (st : State) : option State :=
  match es with
  | [] => Some st
  | e :: es' => exec e st ≫= run es'
  end.

(** ** The invariant *)
Definition phase_ok (st : State) (p : Phase) : Prop :=
  match p with
  | Missed _ _ => True
  | Inspecting _ _ sec ep | Inspected _ _ sec ep _ =>
      ep ≤ c_epoch st ∧ (ep = c_epoch st → sec = c_secret st)
  end.

Definition insertion_ok (st : State) (a : Insertion) : Prop :=
  in_read a ≤ in_epoch a ≤ c_epoch st
  ∧ (in_read a = c_epoch st → in_secret a = c_secret st)
  ∧ (in_time a ≤ c_now st)%Z.

Definition backed_by (st : State) (a : Insertion) (e : string * (gset string * Z)) : Prop :=
  in_key a = e.1 ∧ in_set a = e.2.1 ∧ e.2.2 = (in_time a + ttl)%Z
  ∧ (c_syncer st = Idle → in_epoch a = c_epoch st).

Record inv (st : State) : Prop := {
  inv_wf : lru_wf cacheSize (c_entries st);
  inv_requests : ∀ id p, c_requests st !! id = Some p → phase_ok st p;
  inv_log : ∀ a, a ∈ c_log st → insertion_ok st a;
  inv_entries : ∀ e, e ∈ c_entries st → ∃ a, a ∈ c_log st ∧ backed_by st a e;
}.

Lemma inv_start now : inv (start now).
Proof. split; cbn; [split; [constructor|cbn; lia]|done|set_solver..]. Qed.

(** Removing and reordering entries keeps the invariant. *)
Lemma inv_set_entries l st :
  lru_wf cacheSize l → (∀ e, e ∈ l → e ∈ c_entries st) → inv st → inv (set_entries l st).
Proof. intros Hwf Hl [H1 H2 H3 H4]. split; [done|exact H2|exact H3|]. intros e He. by apply H4, Hl. Qed.

Lemma inv_set_requests m st :
  (∀ id p, m !! id = Some p → phase_ok st p) → inv st → inv (set_requests m st).
Proof. by intros Hm [H1 H2 H3 H4]. Qed.

Lemma inv_insert_request id p st : phase_ok st p → inv st → inv (set_requests (<[id := p]> (c_requests st)) st).
Proof.
  intros Hp Hi. apply inv_set_requests; [|done]. intros id' p'.
  rewrite lookup_insert_Some. intros [[_ <-]|[_ H]]; [done|]. by eapply inv_requests.
Qed.

Lemma inv_delete_request id st : inv st → inv (set_requests (delete id (c_requests st)) st).
Proof.
  intros Hi. apply inv_set_requests; [|done]. intros id' p'.
  rewrite lookup_delete_Some. intros [_ H]. by eapply inv_requests.
Qed.

Lemma filter_sublist {A} (f : A → bool) l : List.filter f l `sublist_of` l.
Proof. induction l as [|x l IH]; cbn; [constructor|]. destruct (f x); by constructor. Qed.

(** The insertion of an answer *)
Lemma inv_insert st id k s sec ep :
  inv st → ep ≤ c_epoch st → (ep = c_epoch st → sec = c_secret st) →
  inv (mkState (c_now st) (exp_Add (c_now st) k s (c_entries st)) (c_secret st) (c_epoch st)
         (c_syncer st) (delete id (c_requests st))
         (mkInsertion k s sec ep (c_epoch st) (c_now st) :: c_log st)).
Proof.
  intros Hi Hep Hsec. pose proof Hi as [H1 H2 H3 H4]. split; cbn.
  - by apply lru_Add_wf.
  - apply (inv_requests _ (inv_delete_request id st Hi)).
  - intros a [->|Ha]%elem_of_cons; [|by apply H3]. unfold insertion_ok. cbn. lia || (split_and!; auto; lia).
  - intros e [->|He]%lru_Add_elem.
    + eexists. split; [by apply elem_of_cons; left|]. by unfold backed_by.
    + apply H4 in He as (a & Ha & Hb). exists a. split; [by apply elem_of_cons; right|done].
Qed.

Lemma exec_inv e st st' : inv st → exec e st = Some st' → inv st'.
Proof.
  intros Hi. destruct e as [id k skip|id|id answer|id|sec| |d|k]; cbn.
  - destruct (c_requests st !! id); [done|].
    pose proof (exp_Get_wf (c_now st) k _ (inv_wf st Hi)) as Hw.
    pose proof (exp_Get_elem (c_now st) k (c_entries st)) as He.
    destruct (exp_Get _ _ _) as [hit l]. pose proof (inv_set_entries l st Hw He Hi) as Hi'.
    destruct hit, skip; intros [= <-]; try done; exact (inv_insert_request id (Missed k _) (set_entries l st) I Hi').
  - destruct (c_requests st !! id) as [[]|] eqn:E; [|done..]. intros [= <-].
    by apply inv_insert_request.
  - destruct (c_requests st !! id) as [[]|] eqn:E, answer; try done; intros [= <-];
      [|by apply inv_delete_request].
    apply inv_insert_request; [|done]. exact (inv_requests st Hi _ _ E).
  - destruct (c_requests st !! id) as [[| |k skip sec ep s]|] eqn:E; [done..| |done].
    destruct (inv_requests st Hi _ _ E). destruct skip; intros [= <-];
      [by apply inv_delete_request|by apply inv_insert].
  - destruct (c_syncer st) eqn:Es; [|done]. intros [= <-]. destruct Hi as [H1 H2 H3 H4]. split; cbn; [done|..].
    + intros id p Hp%H2. destruct p; cbn in *; intuition lia.
    + intros a Ha%H3. unfold insertion_ok in *. cbn. intuition lia.
    + intros x (a & Ha & Hb & ?)%H4. exists a. split; [done|]. unfold backed_by. cbn. naive_solver.
  - destruct (c_syncer st); [done|]. intros [= <-]. destruct Hi as [H1 H2 H3 H4].
    split; cbn; [split; [constructor|cbn; lia]|done|done|set_solver].
  - intros [= <-]. destruct Hi as [H1 H2 H3 H4]. split; cbn; [done|done| |done].
    intros a Ha%H3. unfold insertion_ok in *. cbn. intuition lia.
  - intros [= <-]. set (l := List.filter _ _). assert (l `sublist_of` c_entries st) as Hl by apply filter_sublist.
    apply inv_set_entries; [eapply lru_wf_sublist; [exact Hl|apply Hi]| |done].
    intros e. rewrite !list_elem_of_In. unfold l. rewrite filter_In. by intros [? _].
Qed.

Lemma run_inv es st st' : inv st → run es st = Some st' → inv st'.
Proof.
  revert st. induction es as [|e es IH]; cbn; intros st Hi; [by intros [= <-]|].
  destruct (exec e st) eqn:E; [|done]. cbn. apply IH. by eapply exec_inv.
Qed.

Lemma run_app es es' st : run (es ++ es') st = run es st ≫= run es'.
Proof.
  revert st. induction es as [|e es IH]; cbn; intros st; [done|]. destruct (exec e st); cbn; auto.
Qed.

(** C19: whatever the interleaving of requests, rotations of the global pull secret,
    expiry and time, the cache stays within its size, and an answer it gives is one
    the registry gave for the same key, inserted at most six hours ago; once a
    rotation is complete it was inserted since, and obtained with the secret in
    force now unless its request had read the secret before the rotation and was
    still running then. *)
Theorem concurrent_answers es now st k s l :
  run es (start now) = Some st →
  exp_Get (c_now st) k (c_entries st) = (Some s, l) →
  length (c_entries st) ≤ cacheSize
  ∧ ∃ a, a ∈ c_log st ∧ in_key a = k ∧ in_set a = s
      ∧ (in_time a ≤ c_now st ≤ in_time a + ttl)%Z
      ∧ (c_syncer st = Idle →
         in_epoch a = c_epoch st ∧ (in_secret a = c_secret st ∨ in_read a < in_epoch a)).
Proof.
  intros Hr Hg. apply run_inv in Hr as [[_ H1] _ H3 H4]; [|apply inv_start]. split; [done|].
  destruct (exp_Get_found (c_now st) k (c_entries st) s) as (x & Hx & Hnow); [by rewrite Hg|].
  destruct (H4 _ Hx) as (a & Ha & Hk & Hs & He & Hid). exists a. cbn in *.
  destruct (H3 a Ha) as (Hep & Hsec & Ht). split_and!; try done; [lia|]. intros Hi%Hid. split; [done|].
  destruct (decide (in_read a = c_epoch st)); [left; auto|right; lia].
Qed.

(** *** Rotations with no inspection under way *)
Definition reads (p : Phase) : option nat :=
  match p with Missed _ _ => None | Inspecting _ _ _ ep | Inspected _ _ _ ep _ => Some ep end.

Definition settled (st : State) : bool :=
  bool_decide (map_Forall (λ _ p, reads p = None) (c_requests st)).

Definition rotates (e : Event) : bool := match e with StoreSecret _ => true | _ => false end.

(** Everything read or inserted in the epoch [ep] stems from it. *)
Record current (ep : nat) (sec : string) (st : State) : Prop := {
  cur_epoch : c_epoch st = ep;
  cur_secret : c_secret st = sec;
  cur_requests : ∀ id p x, c_requests st !! id = Some p → reads p = Some x → x = ep;
  cur_log : ∀ a, a ∈ c_log st → in_epoch a = ep → in_read a = ep;
}.

Lemma current_requests ep sec st m :
  current ep sec st → (∀ id p x, m !! id = Some p → reads p = Some x → x = ep ∨ c_requests st !! id = Some p) →
  current ep sec (set_requests m st).
Proof.
  intros [H1 H2 H3 H4] Hm. split; try done. intros id p x Hp Hx.
  destruct (Hm _ _ _ Hp Hx) as [->|Hp']; [done|]. by eapply H3.
Qed.

Lemma exec_current ep sec e st st' :
  rotates e = false → current ep sec st → exec e st = Some st' → current ep sec st'.
Proof.
  intros Hrot Hc. pose proof Hc as [H1 H2 H3 H4].
  destruct e as [id k skip|id|id answer|id|sec'| |d|k]; cbn; [..|done| | |].
  - destruct (c_requests st !! id); [done|]. destruct (exp_Get _ _ _) as [hit l].
    destruct hit, skip; intros [= <-]; split; cbn; try done;
      (intros id' p x [[_ <-]|[_ Hp]]%lookup_insert_Some ?; [done|by eapply H3]).
  - destruct (c_requests st !! id) as [[]|] eqn:E; [|done..]. intros [= <-]. apply current_requests; [done|].
    intros id' p x [[_ <-]|[_ Hp]]%lookup_insert_Some; [intros [= <-]; by left|by right].
  - destruct (c_requests st !! id) as [[]|] eqn:E, answer; try done; intros [= <-]; apply current_requests; try done.
    + intros id' p x [[_ <-]|[_ Hp]]%lookup_insert_Some; [|by right]. intros Hx. left. by apply (H3 id _ _ E).
    + intros id' p x [_ Hp]%lookup_delete_Some. by right.
  - destruct (c_requests st !! id) as [[| |k skip sec' ep' s]|] eqn:E; [done..| |done].
    assert (current ep sec (set_requests (delete id (c_requests st)) st)) as Hd.
    { apply current_requests; [done|]. intros id' p x [_ Hp]%lookup_delete_Some. by right. }
    destruct skip; intros [= <-]; [done|]. destruct Hd as [_ _ H3' _]. split; cbn; try done.
    intros a [->|Ha]%elem_of_cons; [|by apply H4]. intros _. cbn. by apply (H3 id _ _ E).
  - destruct (c_syncer st); [done|]. by intros [= <-].
  - by intros [= <-].
  - by intros [= <-].
Qed.

Lemma run_current ep sec es st st' :
  existsb rotates es = false → current ep sec st → run es st = Some st' → current ep sec st'.
Proof.
  revert st. induction es as [|e es IH]; cbn; intros st; [by intros _ ? [= <-]|].
  intros [He Hes]%orb_false_elim Hc. destruct (exec e st) eqn:E; [|done]. cbn.
  apply IH; [done|]. by eapply exec_current.
Qed.

(** A rotation of the global pull secret that starts while no request has read
    the secret takes effect completely: from the end of [StoreGlobalPullSecret] to
    the next rotation the cache only gives answers obtained with the new secret,
    whatever runs in between. *)
Theorem rotation_takes_effect es es' now st st' sec k s l :
  run es (start now) = Some st → settled st = true → existsb rotates es' = false →
  run (StoreSecret sec :: es') st = Some st' → c_syncer st' = Idle →
  exp_Get (c_now st') k (c_entries st') = (Some s, l) →
  c_secret st' = sec ∧ ∃ a, a ∈ c_log st' ∧ in_key a = k ∧ in_set a = s ∧ in_secret a = sec.
Proof.
  intros Hr Hset Hes Hr' Hidle Hg.
  pose proof (run_inv _ _ _ (inv_start now) Hr) as [_ _ H3 _].
  assert (run (es ++ StoreSecret sec :: es') (start now) = Some st') as Hr2 by by rewrite run_app, Hr.
  pose proof (run_inv _ _ _ (inv_start now) Hr2) as [_ _ H3' H4'].
  assert (current (S (c_epoch st)) sec st') as [C1 C2 _ C4].
  { cbn in Hr'. destruct (c_syncer st); [|done]. eapply run_current; [done| |exact Hr'].
    split; cbn; [done|done| |].
    - intros id p x Hp Hx. apply bool_decide_eq_true_1 in Hset. by rewrite (Hset id p Hp) in Hx.
    - intros a Ha He. destruct (H3 a Ha). lia. }
  split; [done|].
  destruct (exp_Get_found (c_now st') k (c_entries st') s) as (x & Hx & Hnow); [by rewrite Hg|].
  destruct (H4' _ Hx) as (a & Ha & Hk & Hs & He & Hid). exists a. split_and!; try done.
  destruct (H3' a Ha) as (_ & Hsec & _). rewrite Hsec; [done|]. rewrite C1. apply C4; [done|]. by rewrite Hid.
Qed.

(** The rotation races with an inspection: the request reads the old secret, the
    secret is stored and the cache cleared, and then the answer is inserted; for the
    next six hours the cache gives what the old secret could see. *)
Theorem stale_answer_after_rotation :
  ∃ st s, run [ StoreSecret "old"; ClearCache;
                Lookup 0 "image" false; ReadSecret 0;
                StoreSecret "new"; ClearCache;
                RegistryAnswers 0 (Some {["amd64"]}); Insert 0 ] (start 0) = Some st
  ∧ c_syncer st = Idle ∧ c_secret st = "new"
  ∧ (exp_Get (c_now st) "image" (c_entries st)).1 = Some s
  ∧ ∀ a, a ∈ c_log st → in_secret a = "old".
Proof.
  destruct (run _ (start 0)) as [st|] eqn:E; [|by vm_compute in E]. exists st, {["amd64"]}. split; [done|].
  vm_compute in E. injection E as <-. split_and!; [done|done|vm_compute; reflexivity|]. cbn.
  by intros a ->%list_elem_of_singleton.
Qed.

End concurrent.
