(* ===== verification/Metrics.v ===== *)
(** * Metrics

    The metrics of the pod placement processes, of the event handler and of the
    inspection cache: package variables that a [sync.Once] creates and registers
    with the process-wide registry, and their uses in the reconcilers, the webhook
    and the cache ([metrics/{common_metrics,controller,webhook}.go] of
    [podplacement], [metrics.go] of the event handler, [common_metrics.go] of
    [pkg/image]).

    A use of a variable that was not created, a second registration of a name and
    histogram buckets that do not increase are panics.  [Once.Do] returns only when
    the initialisation is complete, also to the callers that did not run it, so it
    is one step; the threads of a process interleave these steps in any order. *)
From stdpp Require Import base gmap strings list.
From S2P Require Import Prelude.

Inductive Metric : Type :=
| GatedPodsGauge
| TimeToProcessPod | TimeToProcessGatedPod | TimeToInspectImage | TimeToInspectPodImages
| ProcessedPodsCtrl | FailedInspectionCounter
| ProcessedPodsWH | GatedPods | ResponseTime
| EnoexecCounter | EnoexecCounterInvalid
| InspectionGauge | TimeToInspectImageGivenHit | TimeToInspectImageGivenMiss.

Definition metricName (m : Metric) : string :=
  match m with
  | GatedPodsGauge => "mto_ppo_pods_gated"
  | TimeToProcessPod => "mto_ppo_ctrl_time_to_process_pod_seconds"
  | TimeToProcessGatedPod => "mto_ppo_ctrl_time_to_process_gated_pod_seconds"
  | TimeToInspectImage => "mto_ppo_ctrl_time_to_inspect_image_seconds"
  | TimeToInspectPodImages => "mto_ppo_ctrl_time_to_inspect_pod_images_seconds"
  | ProcessedPodsCtrl => "mto_ppo_ctrl_processed_pods_total"
  | FailedInspectionCounter => "mto_ppo_ctrl_failed_image_inspection_total"
  | ProcessedPodsWH => "mto_ppo_wh_pods_processed_total"
  | GatedPods => "mto_ppo_wh_pods_gated_total"
  | ResponseTime => "mto_ppo_wh_response_time_seconds"
  | EnoexecCounter => "mto_enoexecevents_total"
  | EnoexecCounterInvalid => "mto_enoexecevents_invalid_total"
  | InspectionGauge => "mto_inspection_cache_size"
  | TimeToInspectImageGivenHit => "mto_cache_hit_processing_duration_seconds"
  | TimeToInspectImageGivenMiss => "mto_cache_miss_processing_duration_seconds"
  end.

(** The [sync.Once] variables: [onceHandler] and [onceImage] are the [onceCommon]
    of the event handler's package and of the image package. *)
Inductive Once : Type := onceCommon | onceController | onceWebhook | onceHandler | onceImage.

#[export] Instance Metric_eq_dec : EqDecision Metric.
Proof. solve_decision. Defined.
#[export] Instance Once_eq_dec : EqDecision Once.
Proof. solve_decision. Defined.

(** A process: which initialisations ran, which variables are set, the registered
    names (latest first) and what each metric counts. *)
Record MState := mkMS {
  ms_done : list Once;
  ms_vars : list Metric;
  ms_registry : list string;
  ms_value : Metric → Z;
}.

Definition emptyMetrics : MState := mkMS [] [] [] (λ _, 0%Z).

Definition MP : Type := MState → outcome MState.
Definition seq (f g : MP) : MP := λ s, match f s with Ret s' => g s' | Panic => Panic end.
Declare Scope metrics_scope.
Infix ">>" := seq (at level 60, right associativity) : metrics_scope.
Open Scope metrics_scope.

Definition setVar (m : Metric) : MP := λ s,
  Ret (mkMS (ms_done s) (m :: ms_vars s) (ms_registry s)
         (λ m', if decide (m' = m) then 0%Z else ms_value s m')).
Definition NewGauge : Metric → MP := setVar.
Definition NewCounter : Metric → MP := setVar.

(** [utils.Buckets], in milliseconds. *)
Definition Buckets : list Z :=
  [1; 2; 5; 10; 20; 50; 100; 200; 300; 400; 500; 600; 700; 800; 900; 1000; 2000; 4000]%Z.

(** The loop of [prometheus.NewHistogram] over its bounds. *)
Fixpoint increasing (bounds : list Z) : bool :=
  match bounds with
  | x :: (y :: _) as rest => negb (y <=? x)%Z && increasing rest
  | _ => true
  end.
Definition NewHistogram (m : Metric) (buckets : list Z) : MP := λ s,
  if increasing buckets then setVar m s else Panic.

(** [Registry.MustRegister]. *)
Fixpoint MustRegister (ms : list Metric) : MP := λ s,
  match ms with
  | [] => Ret s
  | m :: rest =>
      if bool_decide (m ∈ ms_vars s) && negb (bool_decide (metricName m ∈ ms_registry s))
      then MustRegister rest (mkMS (ms_done s) (ms_vars s) (metricName m :: ms_registry s) (ms_value s))
      else Panic
  end.

(** [once.Do(f)]. *)
Definition Do (o : Once) (f : MP) : MP := λ s,
  if bool_decide (o ∈ ms_done s) then Ret s
  else match f s with
       | Ret s' => Ret (mkMS (o :: ms_done s') (ms_vars s') (ms_registry s') (ms_value s'))
       | Panic => Panic
       end.

(** *** The initialisations *)
Definition initCommonMetrics : MP :=
  Do onceCommon (NewGauge GatedPodsGauge >> MustRegister [GatedPodsGauge]).

Definition initPodPlacementControllerMetrics : MP :=
  initCommonMetrics >>
  NewHistogram TimeToProcessPod Buckets >>
  NewHistogram TimeToProcessGatedPod Buckets >>
  NewHistogram TimeToInspectImage Buckets >>
  NewHistogram TimeToInspectPodImages Buckets >>
  NewCounter ProcessedPodsCtrl >>
  NewCounter FailedInspectionCounter >>
  MustRegister [TimeToProcessPod; TimeToProcessGatedPod; TimeToInspectImage;
                TimeToInspectPodImages; ProcessedPodsCtrl; FailedInspectionCounter].
Definition InitPodPlacementControllerMetrics : MP :=
  Do onceController initPodPlacementControllerMetrics.

Definition initWebhookMetrics : MP :=
  initCommonMetrics >>
  NewCounter ProcessedPodsWH >>
  NewCounter GatedPods >>
  NewHistogram ResponseTime Buckets >>
  MustRegister [ProcessedPodsWH; GatedPods; ResponseTime].
Definition InitWebhookMetrics : MP := Do onceWebhook initWebhookMetrics.

Definition InitMetrics : MP :=
  Do onceHandler
    (NewCounter EnoexecCounter >> NewCounter EnoexecCounterInvalid >>
     MustRegister [EnoexecCounter] >> MustRegister [EnoexecCounterInvalid]).

Definition InitCommonMetrics : MP :=
  Do onceImage
    (NewGauge InspectionGauge >>
     NewHistogram TimeToInspectImageGivenHit Buckets >>
     NewHistogram TimeToInspectImageGivenMiss Buckets >>
     MustRegister [InspectionGauge]).

(** *** Steps of a thread: an initialisation, or a method of a metric *)
Inductive Method : Type := MInc | MDec | MObserve | MSet (v : Z).
Inductive Step : Type :=
| Init (o : Once)
| Use (m : Metric) (f : Method).

#[export] Instance Method_eq_dec : EqDecision Method.
Proof. solve_decision. Defined.
#[export] Instance Step_eq_dec : EqDecision Step.
Proof. solve_decision. Defined.

(** A histogram's value is the number of its observations. *)
Definition apply (f : Method) (v : Z) : Z :=
  match f with MInc | MObserve => Z.succ v | MDec => Z.pred v | MSet v' => v' end.

Definition initialise (o : Once) : MP :=
  match o with
  | onceCommon => initCommonMetrics
  | onceController => InitPodPlacementControllerMetrics
  | onceWebhook => InitWebhookMetrics
  | onceHandler => InitMetrics
  | onceImage => InitCommonMetrics
  end.

Definition use (m : Metric) (f : Method) : MP := λ s,
  if bool_decide (m ∈ ms_vars s)
  then Ret (mkMS (ms_done s) (ms_vars s) (ms_registry s)
              (λ m', if decide (m' = m) then apply f (ms_value s m) else ms_value s m'))
  else Panic.

Definition exec1 (x : Step) : MP :=
  match x with Init o => initialise o | Use m f => use m f end.
Fixpoint exec (xs : list Step) : MP :=
  match xs with [] => Ret | x :: rest => exec1 x >> exec rest end.

Definition Inc (m : Metric) : Step := Use m MInc.
Definition Dec (m : Metric) : Step := Use m MDec.
Definition HistogramObserve (m : Metric) : Step := Use m MObserve.
Definition Set_ (m : Metric) (v : Z) : Step := Use m (MSet v).

(** *** What the components do with them, branch by branch *)

(** [cacheProxy.GetCompatibleArchitecturesSet]: the cache's length and how the call
    ended. *)
Inductive Lookup : Type := LookupError | LookupHit | LookupMiss.
Definition cacheLookup (len : nat) (r : Lookup) : list Step :=
  [Init onceImage; Set_ InspectionGauge (Z.of_nat len)] ++
  match r with
  | LookupError => []
  | LookupHit => [HistogramObserve TimeToInspectImageGivenHit]
  | LookupMiss => [HistogramObserve TimeToInspectImageGivenMiss]
  end.

(** [intersectImagesArchitecture]: the lookups it makes. *)
Definition inspectImages (lookups : list (nat * Lookup)) : list Step :=
  (concat ((λ '(len, r), cacheLookup len r ++ [HistogramObserve TimeToInspectImage]) <$> lookups))
  ++ [HistogramObserve TimeToInspectPodImages].

(** [PodReconciler.Reconcile]: nothing for a pod that is gone or not gated;
    otherwise the inspections, the errors that [handleError] counts, and the gate
    that was removed or not. *)
Inductive PodRun : Type :=
| PodSkipped
| PodProcessed (inspected : option (list (nat * Lookup))) (errors : nat) (ungated : bool).

Definition reconcilePod (r : PodRun) : list Step :=
  [Init onceController] ++
  match r with
  | PodSkipped => []
  | PodProcessed inspected errors ungated =>
      [Inc ProcessedPodsCtrl] ++
      (match inspected with Some lookups => inspectImages lookups | None => [] end) ++
      replicate errors (Inc FailedInspectionCounter) ++
      (if ungated then [Dec GatedPodsGauge] else []) ++
      [HistogramObserve TimeToProcessGatedPod]
  end ++ [HistogramObserve TimeToProcessPod].

(** [PodSchedulingGateMutatingWebHook.Handle], and the two constructors that
    create its metrics. *)
Definition handlePod (gated : bool) : list Step :=
  [Inc ProcessedPodsWH] ++
  (if gated then [Inc GatedPods; Inc GatedPodsGauge] else []) ++
  [HistogramObserve ResponseTime].
Definition NewPodSchedulingGateMutatingWebHook : list Step := [Init onceWebhook].
Definition NewPodPlacementConfigWebhook : list Step := [Init onceWebhook].

(** [Reconciler.Reconcile] of the event handler. *)
Inductive EventRun : Type := EventSkipped | EventDeleteFailed | EventReported | EventFailed.
Definition reconcileEvent (r : EventRun) : list Step :=
  [Init onceHandler] ++
  match r with
  | EventSkipped | EventDeleteFailed => []
  | EventReported => [Inc EnoexecCounter]
  | EventFailed => [Inc EnoexecCounterInvalid]
  end.

(** ** No process panics, whatever the interleaving *)

(** The metrics an initialisation leaves usable. *)
Definition provides (o : Once) : list Metric :=
  match o with
  | onceCommon => [GatedPodsGauge]
  | onceController =>
      [GatedPodsGauge; TimeToProcessPod; TimeToProcessGatedPod; TimeToInspectImage;
       TimeToInspectPodImages; ProcessedPodsCtrl; FailedInspectionCounter]
  | onceWebhook => [GatedPodsGauge; ProcessedPodsWH; GatedPods; ResponseTime]
  | onceHandler => [EnoexecCounter; EnoexecCounterInvalid]
  | onceImage => [InspectionGauge; TimeToInspectImageGivenHit; TimeToInspectImageGivenMiss]
  end.

(** The initialisation that creates a metric, and registers it. *)
Definition creator (m : Metric) : Once :=
  match m with
  | GatedPodsGauge => onceCommon
  | TimeToProcessPod | TimeToProcessGatedPod | TimeToInspectImage | TimeToInspectPodImages
  | ProcessedPodsCtrl | FailedInspectionCounter => onceController
  | ProcessedPodsWH | GatedPods | ResponseTime => onceWebhook
  | EnoexecCounter | EnoexecCounterInvalid => onceHandler
  | InspectionGauge | TimeToInspectImageGivenHit | TimeToInspectImageGivenMiss => onceImage
  end.
Definition exported (m : Metric) : bool :=
  match m with TimeToInspectImageGivenHit | TimeToInspectImageGivenMiss => false | _ => true end.

#[export] Instance metricName_inj : Inj (=) (=) metricName.
Proof. intros [] []; by vm_compute. Qed.

(** The variables and the registry follow the initialisations that ran. *)
Record consistent (s : MState) : Prop := {
  co_vars m : m ∈ ms_vars s ↔ creator m ∈ ms_done s;
  co_registry m : metricName m ∈ ms_registry s ↔ creator m ∈ ms_done s ∧ exported m = true;
  co_nodup : NoDup (ms_registry s);
  co_zero m : creator m ∉ ms_done s → ms_value s m = 0%Z;
  co_common : onceController ∈ ms_done s ∨ onceWebhook ∈ ms_done s → onceCommon ∈ ms_done s;
}.

(** A thread that uses only what it or an initialisation before it provides. *)
Fixpoint ready (have : list Metric) (xs : list Step) : bool :=
  match xs with
  | [] => true
  | Init o :: rest => ready (provides o ++ have) rest
  | Use m _ :: rest => bool_decide (m ∈ have) && ready have rest
  end.

Lemma MustRegister_app ms1 ms2 s : MustRegister (ms1 ++ ms2) s = (MustRegister ms1 >> MustRegister ms2) s.
Proof.
  revert s. induction ms1 as [|m rest IH]; intros s; [done|]. cbn. unfold seq. cbn.
  case_match; [apply IH|done].
Qed.

Lemma MustRegister_Ret ms s :
  (∀ m, m ∈ ms → m ∈ ms_vars s ∧ metricName m ∉ ms_registry s) → NoDup ms →
  MustRegister ms s =
    Ret (mkMS (ms_done s) (ms_vars s) (reverse (metricName <$> ms) ++ ms_registry s) (ms_value s)).
Proof.
  revert s. induction ms as [|m rest IH]; intros s Hok Hnd; [by destruct s|].
  apply NoDup_cons in Hnd as [Hm Hnd].
  rewrite fmap_cons, reverse_cons, <-app_assoc. cbn [MustRegister].
  destruct (Hok m) as [Hv Hr]; [left|]. rewrite !bool_decide_true, bool_decide_false by done. cbn.
  rewrite IH; [|intros m' Hm'|done].
  - done.
  - cbn. destruct (Hok m') as [??]; [by right|]. split; [done|].
    rewrite elem_of_cons. intros [->%(inj metricName)|]; done.
Qed.

(** An initialisation creates the metrics that it is the creator of, and registers
    the exported ones among them. *)
Lemma Do_declares o (body : MP) created registered s :
  consistent s → (o = onceController ∨ o = onceWebhook → onceCommon ∈ ms_done s) →
  (∀ m, m ∈ created ↔ creator m = o) → (∀ m, m ∈ registered ↔ creator m = o ∧ exported m = true) →
  NoDup registered →
  (o ∉ ms_done s → ∃ value,
     body s = MustRegister registered (mkMS (ms_done s) (created ++ ms_vars s) (ms_registry s) value)
     ∧ ∀ m, value m = ms_value s m) →
  ∃ s', Do o body s = Ret s' ∧ consistent s' ∧
    (∀ o', o' ∈ ms_done s' ↔ o' = o ∨ o' ∈ ms_done s) ∧ ∀ m, ms_value s' m = ms_value s m.
Proof.
  intros Hs Hc Hcr Hre Hnd Hbody. unfold Do. case_bool_decide as Ho.
  { exists s. split; [done|]. split; [done|]. split; [|done]. intros o'. split; [by right|]. by intros [->|]. }
  destruct (Hbody Ho) as (value&->&Hval). rewrite MustRegister_Ret; cbn; [|intros m [Hm He]%Hre; split|done].
  - eexists; split; [reflexivity|]. split; [split; cbn|split; cbn].
    + intros m. rewrite elem_of_app, Hcr, (co_vars s Hs), elem_of_cons. naive_solver.
    + intros m. rewrite elem_of_app, elem_of_reverse, list_elem_of_fmap, elem_of_cons, (co_registry s Hs).
      split; [|naive_solver].
      intros [(m'&->%(inj metricName)&?%Hre)|?]; naive_solver.
    + apply NoDup_app. split; [rewrite reverse_Permutation; by apply NoDup_fmap_2; [apply _|]|]. split; [|apply Hs].
      intros x. rewrite elem_of_reverse, list_elem_of_fmap. intros (m&->&[Hm _]%Hre) [Hd _]%(co_registry s Hs).
      by subst.
    + intros m Hm. rewrite elem_of_cons in Hm. rewrite Hval. apply (co_zero s Hs). naive_solver.
    + rewrite !elem_of_cons. pose proof (co_common s Hs). naive_solver.
    + intros o'. by rewrite elem_of_cons.
    + done.
  - rewrite elem_of_app, Hcr. by left.
  - intros [Hd _]%(co_registry s Hs). by subst.
Qed.

(** What every initialisation does to a consistent state. *)
Definition initialised (s s' : MState) (o : Once) : Prop :=
  consistent s' ∧ (∀ o', o' ∈ ms_done s → o' ∈ ms_done s') ∧
  (∀ m, m ∈ provides o → creator m ∈ ms_done s') ∧ ∀ m, ms_value s' m = ms_value s m.

(** The side conditions of [Do_declares] for concrete lists. *)
Ltac by_compute := apply (bool_decide_unpack _); by vm_compute.
Ltac declared := first
  [ by_compute
  | by intros []; by_compute
  | match goal with
    | Hs : consistent ?s |- _ =>
        intros ?; eexists; split; [reflexivity|]; cbn;
        intros; repeat case_decide; subst; try done; symmetry; by apply (co_zero s Hs)
    end ].

Lemma initCommonMetrics_ok s :
  consistent s →
  ∃ s', initCommonMetrics s = Ret s' ∧ consistent s' ∧
    (∀ o', o' ∈ ms_done s' ↔ o' = onceCommon ∨ o' ∈ ms_done s) ∧ ∀ m, ms_value s' m = ms_value s m.
Proof.
  intros Hs. apply (Do_declares onceCommon _ [GatedPodsGauge] [GatedPodsGauge]);
    [done|naive_solver|declared..].
Qed.

(** [initCommonMetrics] first, then what the package declares itself. *)
Lemma Do_after_common o (body : MP) created registered s :
  consistent s → o = onceController ∨ o = onceWebhook →
  (∀ m, m ∈ created ↔ creator m = o) → (∀ m, m ∈ registered ↔ creator m = o ∧ exported m = true) →
  NoDup registered →
  (∀ s, consistent s → o ∉ ms_done s → ∃ value,
     body s = MustRegister registered (mkMS (ms_done s) (created ++ ms_vars s) (ms_registry s) value)
     ∧ ∀ m, value m = ms_value s m) →
  ∃ s', Do o (initCommonMetrics >> body) s = Ret s' ∧ consistent s' ∧
    (∀ o', o' ∈ ms_done s' ↔ o' = o ∨ o' = onceCommon ∨ o' ∈ ms_done s) ∧ ∀ m, ms_value s' m = ms_value s m.
Proof.
  intros Hs Ho Hcr Hre Hnd Hbody.
  destruct (initCommonMetrics_ok s Hs) as (s1&E1&Hs1&Hd1&Hv1).
  destruct (decide (o ∈ ms_done s)) as [Hin|Hin].
  { exists s. unfold Do. rewrite bool_decide_true by done. pose proof (co_common s Hs). naive_solver. }
  assert (o ∉ ms_done s1) by (rewrite Hd1; naive_solver).
  destruct (Do_declares o body created registered s1) as (s'&E&Hs'&Hd&Hv);
    [done|intros; apply Hd1; by left|done..|by apply Hbody|].
  exists s'. split.
  - revert E. unfold Do. rewrite !bool_decide_false by done. unfold seq. by rewrite E1.
  - split; [done|]. split; [|intros m; by rewrite Hv]. intros o'. rewrite Hd, Hd1. done.
Qed.

(** Each package on its own. *)
Lemma InitPodPlacementControllerMetrics_ok s :
  consistent s →
  ∃ s', InitPodPlacementControllerMetrics s = Ret s' ∧ consistent s' ∧
    (∀ o', o' ∈ ms_done s' ↔ o' = onceController ∨ o' = onceCommon ∨ o' ∈ ms_done s) ∧
    ∀ m, ms_value s' m = ms_value s m.
Proof.
  intros Hs. apply (Do_after_common onceController _
    [FailedInspectionCounter; ProcessedPodsCtrl; TimeToInspectPodImages; TimeToInspectImage;
     TimeToProcessGatedPod; TimeToProcessPod]
    [TimeToProcessPod; TimeToProcessGatedPod; TimeToInspectImage;
     TimeToInspectPodImages; ProcessedPodsCtrl; FailedInspectionCounter]);
    [done|by left|declared..|clear; intros s Hs; declared].
Qed.

Lemma InitWebhookMetrics_ok s :
  consistent s →
  ∃ s', InitWebhookMetrics s = Ret s' ∧ consistent s' ∧
    (∀ o', o' ∈ ms_done s' ↔ o' = onceWebhook ∨ o' = onceCommon ∨ o' ∈ ms_done s) ∧
    ∀ m, ms_value s' m = ms_value s m.
Proof.
  intros Hs. apply (Do_after_common onceWebhook _ [ResponseTime; GatedPods; ProcessedPodsWH]
    [ProcessedPodsWH; GatedPods; ResponseTime]);
    [done|by right|declared..|clear; intros s Hs; declared].
Qed.

Lemma InitMetrics_ok s :
  consistent s →
  ∃ s', InitMetrics s = Ret s' ∧ consistent s' ∧
    (∀ o', o' ∈ ms_done s' ↔ o' = onceHandler ∨ o' ∈ ms_done s) ∧ ∀ m, ms_value s' m = ms_value s m.
Proof.
  intros Hs. apply (Do_declares onceHandler _ [EnoexecCounterInvalid; EnoexecCounter]
    ([EnoexecCounter] ++ [EnoexecCounterInvalid])); [done|naive_solver|declared..|].
  setoid_rewrite MustRegister_app. declared.
Qed.

Lemma InitCommonMetrics_ok s :
  consistent s →
  ∃ s', InitCommonMetrics s = Ret s' ∧ consistent s' ∧
    (∀ o', o' ∈ ms_done s' ↔ o' = onceImage ∨ o' ∈ ms_done s) ∧ ∀ m, ms_value s' m = ms_value s m.
Proof.
  intros Hs. apply (Do_declares onceImage _
    [TimeToInspectImageGivenMiss; TimeToInspectImageGivenHit; InspectionGauge] [InspectionGauge]);
    [done|naive_solver|declared..].
Qed.

Lemma initialise_ok o s : consistent s → ∃ s', initialise o s = Ret s' ∧ initialised s s' o.
Proof.
  intros Hs.
  destruct o;
    [ destruct (initCommonMetrics_ok s Hs) as (s'&?&?&Hd&?)
    | destruct (InitPodPlacementControllerMetrics_ok s Hs) as (s'&?&?&Hd&?)
    | destruct (InitWebhookMetrics_ok s Hs) as (s'&?&?&Hd&?)
    | destruct (InitMetrics_ok s Hs) as (s'&?&?&Hd&?)
    | destruct (InitCommonMetrics_ok s Hs) as (s'&?&?&Hd&?) ];
    exists s'; (split; [done|]); (split; [done|]); setoid_rewrite Hd;
    (split; [naive_solver|]); (split; [|done]); intros m; cbn;
    rewrite ?elem_of_cons, ?elem_of_nil; naive_solver.
Qed.

(** *** Interleavings *)
Inductive merges {A} : list (list A) → list A → Prop :=
| merges_done T : (∀ t, t ∈ T → t = []) → merges T []
| merges_step T i x t tr : T !! i = Some (x :: t) → merges (<[i := t]> T) tr → merges T (x :: tr).

Lemma merges_Permutation {A} (T : list (list A)) tr : merges T tr → tr ≡ₚ concat T.
Proof.
  induction 1 as [T HT|T i x t tr Hi _ IH].
  - induction T as [|t T IHT]; [done|]. cbn. rewrite (HT t) by left. apply IHT. intros t' ?. apply HT. by right.
  - rewrite IH. clear IH tr. revert i Hi. induction T as [|t0 T IHT]; intros [|i] Hi; simplify_eq/=; [done|].
    rewrite Permutation_middle. by apply Permutation_app_head, IHT.
Qed.

(** One thread after the other is an interleaving. *)
Lemma merges_after {A} (pre T : list (list A)) :
  (∀ t, t ∈ pre → t = []) → merges (pre ++ T) (concat T).
Proof.
  revert pre. induction T as [|t T IH]; intros pre Hpre.
  { rewrite app_nil_r. by constructor. }
  induction t as [|x t IHt]; cbn.
  - rewrite (cons_middle [] pre T), app_assoc. apply IH.
    intros t [Ht|Ht]%elem_of_app; [by apply Hpre|]. by apply list_elem_of_singleton in Ht.
  - apply (merges_step _ (length pre) x t); [by apply list_lookup_middle|].
    rewrite <-(Nat.add_0_r (length pre)), insert_app_r. exact IHt.
Qed.

(** What a sequence of steps does to a metric. *)
Definition effect (m : Metric) (xs : list Step) (v : Z) : Z :=
  foldl (λ v x, match x with Use m' f => if decide (m' = m) then apply f v else v | Init _ => v end) v xs.

Lemma exec_app xs ys s : exec (xs ++ ys) s = (exec xs >> exec ys) s.
Proof.
  revert s. induction xs as [|x xs IH]; intros s; [done|]. cbn. unfold seq at 1 2 3. cbn.
  destruct (exec1 x s) as [s'|]; [apply IH|done].
Qed.

(** A thread whose uses are covered can always go on. *)
Definition able (s : MState) (t : list Step) : Prop :=
  ∃ have, (∀ m, m ∈ have → creator m ∈ ms_done s) ∧ ready have t = true.

Lemma able_mono s s' t : (∀ o, o ∈ ms_done s → o ∈ ms_done s') → able s t → able s' t.
Proof. intros Hd (have&Hh&Hr). exists have. split; [|done]. eauto. Qed.

Lemma exec1_ok x t s :
  consistent s → able s (x :: t) →
  ∃ s', exec1 x s = Ret s' ∧ consistent s' ∧ (∀ o, o ∈ ms_done s → o ∈ ms_done s') ∧ able s' t ∧
    ∀ m, ms_value s' m = effect m [x] (ms_value s m).
Proof.
  intros Hs (have&Hh&Hr). destruct x as [o|m f]; cbn in Hr.
  - destruct (initialise_ok o s Hs) as (s'&E&Hs'&Hd&Hp&Hv). exists s'.
    split_and!; [done..| |done]. exists (provides o ++ have). split; [|done].
    intros m [?|?]%elem_of_app; eauto.
  - apply andb_prop in Hr as [Hm%bool_decide_eq_true Hr]. cbn. unfold use.
    apply Hh in Hm. rewrite bool_decide_true by by apply (co_vars s Hs).
    eexists; split; [reflexivity|]. split; [|split; [done|split; [by exists have|]]].
    + destruct Hs. split; cbn; try done. intros m' Hm'. case_decide; [by subst|]. eauto.
    + intros m'. cbn. repeat case_decide; naive_solver.
Qed.

Lemma exec_merges T tr s :
  merges T tr → consistent s → (∀ t, t ∈ T → able s t) →
  ∃ s', exec tr s = Ret s' ∧ consistent s' ∧ (∀ o, o ∈ ms_done s → o ∈ ms_done s') ∧
    ∀ m, ms_value s' m = effect m tr (ms_value s m).
Proof.
  intros HT. revert s. induction HT as [T HT|T i x t tr Hi _ IH]; intros s Hs Hab; [by exists s|].
  destruct (exec1_ok x t s Hs) as (s1&E1&Hs1&Hd1&Hab1&Hv1).
  { apply Hab. by eapply list_elem_of_lookup_2. }
  destruct (IH s1 Hs1) as (s2&E2&Hs2&Hd2&Hv2).
  { intros t' Ht'. apply list_elem_of_lookup in Ht' as [j Hj].
    apply list_lookup_insert_Some in Hj as [(->&->&_)|[_ Hj]]; [done|].
    eapply able_mono, Hab; [done|]. by eapply list_elem_of_lookup_2. }
  exists s2. cbn. unfold seq. rewrite E1. split_and!; [done..|by eauto|].
  intros m. rewrite Hv2, Hv1. done.
Qed.

(** *** The threads of the processes *)
Inductive Thread : Type :=
| NewWebhook
| NewConfigWebhook
| Admission (gated : bool)
| PodRequest (r : PodRun)
| EventRequest (r : EventRun).

Definition steps (t : Thread) : list Step :=
  match t with
  | NewWebhook => NewPodSchedulingGateMutatingWebHook
  | NewConfigWebhook => NewPodPlacementConfigWebhook
  | Admission gated => handlePod gated
  | PodRequest r => reconcilePod r
  | EventRequest r => reconcileEvent r
  end.

Lemma ready_mono have have' xs : have ⊆ have' → ready have xs = true → ready have' xs = true.
Proof.
  revert have have'. induction xs as [|[o|m f] xs IH]; intros have have' Hs; cbn; [done|..].
  - apply IH. set_solver.
  - intros [?%bool_decide_eq_true ?]%andb_prop. rewrite bool_decide_true by set_solver. by eapply IH.
Qed.

Lemma ready_app have xs ys : ready have xs = true → ready have ys = true → ready have (xs ++ ys) = true.
Proof.
  revert have. induction xs as [|[o|m f] xs IH]; intros have; cbn; [done|..].
  - intros. apply IH; [done|]. eapply ready_mono; [|done]. set_solver.
  - intros [-> ?]%andb_prop ?. cbn. by apply IH.
Qed.

Lemma ready_cacheLookup have len r : ready have (cacheLookup len r) = true.
Proof. apply (ready_mono []); [set_solver|]. by destruct r. Qed.

Lemma ready_inspectImages have lookups :
  TimeToInspectImage ∈ have → TimeToInspectPodImages ∈ have → ready have (inspectImages lookups) = true.
Proof.
  intros H1 H2. apply ready_app; [|by cbn; rewrite bool_decide_true].
  induction lookups as [|[len r] rest IH]; [done|]. cbn [fmap list_fmap concat].
  apply ready_app; [apply ready_app; [apply ready_cacheLookup|by cbn; rewrite bool_decide_true]|done].
Qed.

Lemma ready_steps startup t :
  (∀ gated, t = Admission gated → onceWebhook ∈ startup) → ready (startup ≫= provides) (steps t) = true.
Proof.
  intros Hw. destruct t as [| |gated|r|r]; [done|done|..].
  - apply (ready_mono (provides onceWebhook)); [|by destruct gated].
    intros m Hm. apply list_elem_of_bind. eauto.
  - change (ready (startup ≫= provides) (steps (PodRequest r)))
      with (ready (provides onceController ++ (startup ≫= provides)) (tail (reconcilePod r))).
    set (have := provides onceController ++ (startup ≫= provides)). cbn [tail reconcilePod app].
    assert (Hh : provides onceController ⊆ have) by set_solver.
    apply (ready_app have); [|apply (ready_mono (provides onceController)); [done|reflexivity]].
    destruct r as [|inspected errors ungated]; [done|]. repeat apply ready_app;
      try (apply (ready_mono (provides onceController)); [done|reflexivity]).
    + destruct inspected as [lookups|]; [|done]. apply ready_inspectImages; apply Hh; by_compute.
    + apply (ready_mono (provides onceController)); [done|].
      clear. induction errors as [|n IH]; [done|exact IH].
    + destruct ungated; [|done]. apply (ready_mono (provides onceController)); [done|reflexivity].
  - apply (ready_mono []); [set_solver|]. by destruct r.
Qed.

(** The pods a process has gated, less those it has released. *)
Definition balance (x : Step) : Z :=
  match x with
  | Use GatedPodsGauge MInc => 1
  | Use GatedPodsGauge MDec => -1
  | _ => 0
  end.
Fixpoint total (xs : list Step) : Z :=
  match xs with [] => 0 | x :: rest => balance x + total rest end%Z.

Lemma total_app xs ys : total (xs ++ ys) = (total xs + total ys)%Z.
Proof. induction xs as [|x xs IH]; cbn; [done|]. rewrite IH. lia. Qed.

Lemma total_Permutation xs ys : xs ≡ₚ ys → total xs = total ys.
Proof. induction 1; cbn; lia. Qed.

(** Nothing sets or observes the gauge. *)
Definition counts (x : Step) : Prop :=
  match x with Use GatedPodsGauge f => f = MInc ∨ f = MDec | _ => True end.

Lemma effect_total xs v : Forall counts xs → effect GatedPodsGauge xs v = (v + total xs)%Z.
Proof.
  intros H. revert v. induction H as [|x xs Hx _ IH]; intros v; cbn; [lia|].
  unfold effect in *. rewrite IH. destruct x as [o|m f]; [cbn; lia|].
  case_decide as Hm; [subst|destruct m; cbn; by try lia]. destruct Hx as [-> | ->]; cbn; lia.
Qed.

Lemma counts_cacheLookup len r : Forall counts (cacheLookup len r) ∧ total (cacheLookup len r) = 0%Z.
Proof. destruct r; (split; [by repeat constructor|done]). Qed.

Lemma counts_inspectImages lookups : Forall counts (inspectImages lookups) ∧ total (inspectImages lookups) = 0%Z.
Proof.
  unfold inspectImages. rewrite total_app, Forall_app. cbn [total balance HistogramObserve].
  induction lookups as [|[len r] rest [[IH1 ?] IH2]]; [by repeat constructor|]. cbn [fmap list_fmap concat].
  destruct (counts_cacheLookup len r) as [H1 H2]. rewrite !total_app, !Forall_app, H2.
  change (total [HistogramObserve TimeToInspectImage]) with 0%Z. split; [|lia]. split; [|done]. split; [|done]. split; [done|]. by repeat constructor.
Qed.

Definition gates (t : Thread) : Z :=
  match t with
  | Admission true => 1
  | PodRequest (PodProcessed _ _ true) => -1
  | _ => 0
  end.

Fixpoint sumGates (ts : list Thread) : Z :=
  match ts with [] => 0 | t :: rest => gates t + sumGates rest end%Z.

Lemma counts_steps t : Forall counts (steps t) ∧ total (steps t) = gates t.
Proof.
  destruct t as [| |[]|[|inspected errors ungated]|[]]; try (split; [by repeat constructor|done]).
  assert (Forall counts (match inspected with Some lookups => inspectImages lookups | None => [] end)
    ∧ total (match inspected with Some lookups => inspectImages lookups | None => [] end) = 0%Z) as [H1 H2]
    by (destruct inspected; [apply counts_inspectImages|by split; constructor]).
  assert (Forall counts (replicate errors (Inc FailedInspectionCounter))
    ∧ total (replicate errors (Inc FailedInspectionCounter)) = 0%Z) as [H3 H4].
  { induction errors as [|n [??]]; [by split; constructor|]. split; [by constructor|]. cbn. lia. }
  unfold steps, reconcilePod. rewrite !total_app, !Forall_app, H2, H4.
  destruct ungated; (split; [by repeat split; repeat constructor|done]).
Qed.

Lemma counts_concat threads :
  Forall counts (concat (steps <$> threads)) ∧
  total (concat (steps <$> threads)) = sumGates threads.
Proof.
  induction threads as [|t rest [IH1 IH2]]; [by split; constructor|]. cbn [fmap list_fmap concat sumGates].
  destruct (counts_steps t). rewrite Forall_app, total_app, IH2. split; [done|lia].
Qed.

Lemma consistent_empty : consistent emptyMetrics.
Proof. split; cbn; try done; try set_solver. constructor. Qed.

Lemma exec_startup startup s :
  consistent s →
  ∃ s', exec (Init <$> startup) s = Ret s' ∧ consistent s' ∧
    (∀ o, o ∈ ms_done s → o ∈ ms_done s') ∧
    (∀ m, m ∈ startup ≫= provides → creator m ∈ ms_done s') ∧ ∀ m, ms_value s' m = ms_value s m.
Proof.
  revert s. induction startup as [|o rest IH]; intros s Hs.
  { exists s. split_and!; try done. intros m. cbn. by rewrite elem_of_nil. }
  destruct (initialise_ok o s Hs) as (s1&E1&Hs1&Hd1&Hp1&Hv1).
  destruct (IH s1 Hs1) as (s2&E2&Hs2&Hd2&Hp2&Hv2).
  exists s2. cbn. unfold seq. rewrite E1. split_and!; [done..|by eauto| |intros m; by rewrite Hv2].
  intros m. rewrite elem_of_app. naive_solver.
Qed.

(** C40: in a process whose constructors have run the initialisations [startup],
    whatever requests it serves and however their steps interleave, no metric is
    used before it exists and none is registered twice, so nothing panics; every
    metric that was created is exported, except the two histograms of the
    inspection cache, which are never registered; and the gauge of gated pods is
    the number of pods this process has gated less the number this process has
    released. *)
Theorem metrics_never_panic startup threads tr :
  (∀ gated, Admission gated ∈ threads → onceWebhook ∈ startup) →
  merges (steps <$> threads) tr →
  ∃ s, exec ((Init <$> startup) ++ tr) emptyMetrics = Ret s ∧
    NoDup (ms_registry s) ∧
    (∀ m, m ∈ ms_vars s → (metricName m ∈ ms_registry s ↔
       m ≠ TimeToInspectImageGivenHit ∧ m ≠ TimeToInspectImageGivenMiss)) ∧
    ms_value s GatedPodsGauge = sumGates threads.
Proof.
  intros Hw Htr. destruct (exec_startup startup _ consistent_empty) as (s0&E0&Hs0&_&Hp0&Hv0).
  destruct (exec_merges _ _ s0 Htr Hs0) as (s&E&Hs&_&Hv).
  { intros t (th&->&Hth)%list_elem_of_fmap. exists (startup ≫= provides). split; [done|].
    apply ready_steps. intros gated ->. eauto. }
  exists s. rewrite exec_app. unfold seq. rewrite E0. split_and!; [done|apply Hs|..].
  - intros m Hm%(co_vars s Hs). rewrite (co_registry s Hs). destruct m; naive_solver.
  - rewrite Hv, Hv0. pose proof (merges_Permutation _ _ Htr) as Hperm.
    destruct (counts_concat threads) as [Hc Ht].
    rewrite effect_total by by rewrite Hperm. rewrite (total_Permutation _ _ Hperm), Ht. done.
Qed.

(** The webhook and the reconciler run in processes of their own: the gauge of the
    first counts all the pods it ever gated, that of the second is never positive. *)
Lemma sumGates_webhook gs : sumGates (Admission <$> gs) = Z.of_nat (length (filter (λ g, g = true) gs)).
Proof.
  induction gs as [|g gs IH]; [done|]. rewrite fmap_cons, filter_cons. cbn [sumGates]. rewrite IH.
  destruct g; case_decide; cbn; try done; lia.
Qed.

Lemma sumGates_reconciler rs : (sumGates (PodRequest <$> rs) ≤ 0)%Z.
Proof. induction rs as [|[|? ? []] rs IH]; cbn in *; lia. Qed.

Lemma metrics_never_panic_witness :
  let threads := [Admission true; Admission false; EventRequest EventReported;
                  PodRequest (PodProcessed (Some [(0, LookupMiss); (1, LookupHit)]) 1 true);
                  PodRequest PodSkipped] in
  ∃ s, exec ((Init <$> [onceWebhook; onceWebhook]) ++ concat (steps <$> threads)) emptyMetrics = Ret s ∧
    NoDup (ms_registry s) ∧ length (ms_registry s) = 13 ∧ ms_value s GatedPodsGauge = 0%Z.
Proof.
  intros threads.
  destruct (metrics_never_panic [onceWebhook; onceWebhook] threads (concat (steps <$> threads)))
    as (s&E&Hnd&_&Hg).
  - intros gated _. left.
  - apply (merges_after []). intros t Ht. by apply elem_of_nil in Ht.
  - exists s. split; [done|]. split; [done|]. split; [|by rewrite Hg].
    revert E. clear. vm_compute. by intros [= <-].
Defined.
