(* ===== verification/Informers.v ===== *)
(** * The informers of the operands

    [podplacement/global_pull_secret.go] (the syncer of the global pull secret)
    and [pkg/informers/clusterpodplacementconfig] (the syncer of the
    ClusterPodPlacementConfig and its store).  Both are event handlers of a
    shared informer of client-go; [processDelta] is what that informer does
    with one delta of its queue ([processDeltas] of the vendored
    [tools/cache/controller.go]): it updates its own index and then calls the
    handlers.  A deletion that the watch missed is found by the next list and
    comes as a [DeletedFinalStateUnknown]. *)
From stdpp Require Import base gmap strings list relations.
From S2P Require Import Prelude GoStd Api PodReconciler ImageInspect.

(** ** Shared informers of client-go *)
Section informer.
Context {T S : Type} (key : T → string).

(** What a handler gets, an [interface{}] *)
Inductive AnyObj := Typed (o : T) | DeletedFinalStateUnknown (k : string) (o : T).

Record Handlers := mkHandlers {
  AddFunc : AnyObj → S → S;
  UpdateFunc : AnyObj → AnyObj → S → S;
  DeleteFunc : AnyObj → S → S;
}.

Inductive Delta :=
| Upsert (o : T)            (** [Sync], [Replaced], [Added], [Updated] *)
| Deleted (o : T)           (** the watch reported the deletion *)
| DeletedUnknown (k : string) (o : T).  (** a list no longer has the object *)

Definition delta_obj (d : Delta) : T :=
  match d with Upsert o | Deleted o | DeletedUnknown _ o => o end.
Definition delta_key (d : Delta) : string :=
  match d with Upsert o | Deleted o => key o | DeletedUnknown k _ => k end.
Definition missed (d : Delta) : bool := match d with DeletedUnknown _ _ => true | _ => false end.

Definition processDelta (h : Handlers) (d : Delta) (st : gmap string T * S) : gmap string T * S :=
  let '(ix, s) := st in
  match d with
  | Upsert o =>
      (<[key o := o]> ix,
       match ix !! key o with
       | Some old => UpdateFunc h (Typed old) (Typed o) s
       | None => AddFunc h (Typed o) s
       end)
  | Deleted o => (delete (key o) ix, DeleteFunc h (Typed o) s)
  | DeletedUnknown k o => (delete k ix, DeleteFunc h (DeletedFinalStateUnknown k o) s)
  end.

Definition processDeltas (h : Handlers) (ds : list Delta) (st : gmap string T * S) : gmap string T * S :=
  foldl (λ st d, processDelta h d st) st ds.

Lemma processDeltas_snoc h ds d st :
  processDeltas h (ds ++ [d]) st = processDelta h d (processDeltas h ds st).
Proof. unfold processDeltas. by rewrite foldl_app. Qed.

(** What the API server guarantees of the objects a client is shown: the same name
    and resource version mean the same object. *)
Definition versioned (rv : T → string) (ds : list Delta) : Prop :=
  ∀ o o', o ∈ delta_obj <$> ds → o' ∈ delta_obj <$> ds → key o = key o' → rv o = rv o' → o = o'.

Lemma versioned_snoc rv ds d : versioned rv (ds ++ [d]) → versioned rv ds.
Proof. intros H o o' Ho Ho'. apply H; rewrite fmap_app; set_solver. Qed.

(** The index holds objects that the deltas brought, under their own name. *)
Lemma index_objects h ds s k o :
  (processDeltas h ds (∅, s)).1 !! k = Some o → key o = k ∧ o ∈ delta_obj <$> ds.
Proof.
  revert k o. induction ds as [|d ds IH] using rev_ind; intros k o; [done|].
  rewrite processDeltas_snoc, fmap_app.
  destruct (processDeltas h ds (∅, s)) as [ix s']. cbn in IH.
  destruct d as [x|x|k' x]; cbn [processDelta fst].
  - rewrite lookup_insert_Some. intros [[? ->]|[? ?%IH]]; set_solver.
  - rewrite lookup_delete_Some. intros [? ?%IH]. set_solver.
  - rewrite lookup_delete_Some. intros [? ?%IH]. set_solver.
Qed.
End informer.

Arguments AnyObj : clear implicits.
Arguments Handlers : clear implicits.
Arguments Delta : clear implicits.

(** ** [clusterPodPlacementConfigSyncer.go] and [internal/storage.go] *)
Module CPPCSyncer.
Import v1beta1.

(** The state is the variable of [internal/storage.go]. *)
Definition StoreClusterPodPlacementConfig (config : ClusterPodPlacementConfig) (s : option ClusterPodPlacementConfig) : option ClusterPodPlacementConfig :=
  Some config.
Definition DeleteClusterPodPlacementConfig (s : option ClusterPodPlacementConfig) : option ClusterPodPlacementConfig := None.
Definition GetClusterPodPlacementConfig (s : option ClusterPodPlacementConfig) : option ClusterPodPlacementConfig := s.

Definition onAdd (obj : AnyObj ClusterPodPlacementConfig) (s : option ClusterPodPlacementConfig) : option ClusterPodPlacementConfig :=
  match obj with
  | Typed CPPC => StoreClusterPodPlacementConfig CPPC s
  | _ => s
  end.

Definition onDelete (obj : AnyObj ClusterPodPlacementConfig) (s : option ClusterPodPlacementConfig) : option ClusterPodPlacementConfig :=
  match obj with
  | Typed _ => DeleteClusterPodPlacementConfig s
  | _ => s
  end.

Definition onUpdate (oldobj newobj : AnyObj ClusterPodPlacementConfig) (s : option ClusterPodPlacementConfig) : option ClusterPodPlacementConfig :=
  match oldobj, newobj with
  | Typed oldConfig, Typed newConfig =>
      if bool_decide (om_ResourceVersion (cppc_Meta oldConfig) = om_ResourceVersion (cppc_Meta newConfig))
      then s else onAdd newobj s
  | _, _ => s
  end.

Definition handlers : Handlers ClusterPodPlacementConfig (option ClusterPodPlacementConfig) := mkHandlers onAdd onUpdate onDelete.

Definition name (c : ClusterPodPlacementConfig) : string := om_Name (cppc_Meta c).
Definition version (c : ClusterPodPlacementConfig) : string := om_ResourceVersion (cppc_Meta c).

Definition run (ds : list (Delta ClusterPodPlacementConfig)) : gmap string ClusterPodPlacementConfig * option ClusterPodPlacementConfig :=
  processDeltas name handlers ds (∅, None).

(** While the index has the object, the store has it, whatever happened before. *)
Lemma store_holds k ds :
  versioned name version ds → Forall (λ d, delta_key name d = k) ds →
  ∀ c, (run ds).1 !! k = Some c → (run ds).2 = Some c.
Proof.
  unfold run. induction ds as [|d ds IH] using rev_ind; intros Hv Hk c; [done|].
  apply Forall_app in Hk as [Hk [Hd _]%Forall_cons].
  pose proof (index_objects name handlers ds None k) as Hix.
  rewrite processDeltas_snoc. specialize (IH (versioned_snoc _ _ _ _ Hv) Hk).
  destruct (processDeltas name handlers ds (∅, None)) as [ix s]. cbn [fst snd] in *.
  destruct d as [x|x|k' x]; cbn in Hd |- *; subst k;
    [rewrite lookup_insert_eq|by rewrite lookup_delete_eq..].
  intros [= <-]. destruct (ix !! name x) as [old|] eqn:E; [|done].
  cbn. case_bool_decide as Hrv; [|done].
  destruct (Hix _ eq_refl) as [Hn Hin].
  rewrite (IH _ eq_refl). f_equal. apply Hv; [rewrite fmap_app; set_solver..|done|done].
Qed.

(** C35: the webhook and the pod reconciler see the ClusterPodPlacementConfig of the
    cluster: after any deltas for the one object, the store has what the informer's
    index has whenever the index has it, and if every deletion was reported by the
    watch the two are equal, absence included. *)
Theorem store_follows_cluster k ds :
  versioned name version ds → Forall (λ d, delta_key name d = k) ds →
  (∀ c, (run ds).1 !! k = Some c → GetClusterPodPlacementConfig (run ds).2 = Some c)
  ∧ (existsb missed ds = false → GetClusterPodPlacementConfig (run ds).2 = (run ds).1 !! k).
Proof.
  intros Hv Hk. split; [by apply store_holds|].
  intros Hm. destruct ((run ds).1 !! k) eqn:E; [by eapply store_holds|].
  revert E. unfold run. induction ds as [|d ds _] using rev_ind; [done|].
  apply Forall_app in Hk as [_ [Hd _]%Forall_cons].
  rewrite existsb_app in Hm. apply orb_false_elim in Hm as [_ Hm].
  rewrite processDeltas_snoc.
  destruct (processDeltas name handlers ds (∅, None)) as [ix s].
  destruct d as [x|x|k' x]; cbn in *; subst; [by rewrite lookup_insert_eq|done|done].
Qed.

(** A deletion that the watch missed leaves the deleted object in the store: the
    handler does not look into the [DeletedFinalStateUnknown] it gets. *)
Theorem missed_deletion_keeps_config ds c :
  (run (ds ++ [DeletedUnknown (name c) c])).1 !! name c = None
  ∧ GetClusterPodPlacementConfig (run (ds ++ [DeletedUnknown (name c) c])).2
    = GetClusterPodPlacementConfig (run ds).2.
Proof.
  unfold run. rewrite processDeltas_snoc.
  destruct (processDeltas name handlers ds (∅, None)) as [ix s]. cbn.
  by rewrite lookup_delete_eq.
Qed.

End CPPCSyncer.

(** ** [global_pull_secret.go] *)
Module GlobalPullSecretSyncer.
Import image_cache.

Record SecretObject := mkSecretObject { so_Name : string; so_ResourceVersion : string; so_Secret : Secret }.

Section syncer.
(** the [auths] member of a JSON text, and the name of the secret to follow *)
Context (auths : string → res string) (s_name : string).

Definition onAddOrUpdate (obj : AnyObj SecretObject) (px : Proxy) : Proxy :=
  match obj with
  | Typed secret =>
      if negb (bool_decide (so_Name secret = s_name)) then px
      else match ExtractAuthFromSecret auths (so_Secret secret) with
           | Ok pullSecret => StoreGlobalPullSecret pullSecret px
           | Err _ => px
           end
  | _ => px
  end.

Definition onSecretUpdate (oldobj newobj : AnyObj SecretObject) (px : Proxy) : Proxy :=
  match oldobj, newobj with
  | Typed oldSecret, Typed newSecret =>
      if bool_decide (so_ResourceVersion oldSecret = so_ResourceVersion newSecret) then px
      else onAddOrUpdate newobj px
  | _, _ => px
  end.

(** [Start] registers no handler for deletions. *)
Definition secretHandlers : Handlers SecretObject Proxy := mkHandlers onAddOrUpdate onSecretUpdate (λ _ px, px).

Definition runSecrets (ds : list (Delta SecretObject)) (px : Proxy) : gmap string SecretObject * Proxy :=
  processDeltas so_Name secretHandlers ds (∅, px).

(** A delta reaches the proxy as the storing of a secret, or not at all. *)
Lemma processDelta_step d ix px :
  (processDelta so_Name secretHandlers d (ix, px)).2 = px
  ∨ ∃ o auth, d = Upsert o ∧ so_Name o = s_name
      ∧ ExtractAuthFromSecret auths (so_Secret o) = Ok auth
      ∧ (processDelta so_Name secretHandlers d (ix, px)).2 = StoreGlobalPullSecret auth px.
Proof.
  destruct d as [o|o|k o]; [|by left..].
  assert (onAddOrUpdate (Typed o) px = px
          ∨ ∃ auth, so_Name o = s_name ∧ ExtractAuthFromSecret auths (so_Secret o) = Ok auth
                    ∧ onAddOrUpdate (Typed o) px = StoreGlobalPullSecret auth px) as H.
  { cbn. case_bool_decide; [|by left]. destruct (ExtractAuthFromSecret _ _); [right; eauto|by left]. }
  cbn -[onAddOrUpdate]. destruct (ix !! so_Name o) as [old|]; cbn -[onAddOrUpdate]; [case_bool_decide; [by left|]|];
    (destruct H as [->|(auth & ? & ? & ->)]; [by left|right; by exists o, auth]).
Qed.

(** The image inspector authenticates with the global pull secret of the cluster:
    after any deltas of the informer, if the index has the followed secret and its
    credentials can be extracted, they are the ones in force; a malformed or deleted
    secret and every other secret of the namespace leave them; and the handler only
    ever acts on the cache as the rotation of the secret does, so that it starts
    empty with every new secret. *)
Theorem pull_secret_follows_cluster ds px :
  versioned so_Name so_ResourceVersion ds →
  (∀ s auth, (runSecrets ds px).1 !! s_name = Some s → ExtractAuthFromSecret auths (so_Secret s) = Ok auth →
     px_globalPullSecret (runSecrets ds px).2 = auth)
  ∧ (Forall (λ d, match d with
                  | Upsert o => so_Name o = s_name → is_ok (ExtractAuthFromSecret auths (so_Secret o)) = false
                  | _ => True end) ds → (runSecrets ds px).2 = px)
  ∧ ∀ R inspect marshal sha now (r : R) log,
      rtc (step inspect marshal sha) (mkState now px r log) (mkState now (runSecrets ds px).2 r log).
Proof.
  unfold runSecrets. induction ds as [|d ds IH] using rev_ind; intros Hv.
  { split_and!; [done|done|]. intros. apply rtc_refl. }
  destruct (IH (versioned_snoc _ _ _ _ Hv)) as (IH1 & IH2 & IH3).
  pose proof (index_objects so_Name secretHandlers ds px s_name) as Hix.
  rewrite processDeltas_snoc.
  destruct (processDeltas so_Name secretHandlers ds (∅, px)) as [ix px']. cbn [fst snd] in *.
  pose proof (processDelta_step d ix px') as Hd. split_and!.
  - intros s auth Hs Ha. destruct Hd as [Hd|(o & a & -> & Hn & He & ->)].
    + rewrite Hd. destruct d as [o|o|k o]; cbn [processDelta fst snd] in Hs, Hd.
      * destruct (decide (so_Name o = s_name)) as [Hn|Hn];
          [|rewrite lookup_insert_ne in Hs by done; by eapply IH1].
        rewrite Hn, lookup_insert_eq in Hs. injection Hs as ->.
        rewrite Hn in Hd. destruct (ix !! s_name) as [old|] eqn:E; cbn in Hd.
        -- case_bool_decide as Hrv; [|rewrite bool_decide_true, Ha in Hd by done; by rewrite <-Hd].
           destruct (Hix _ eq_refl) as [Hk Hin]. eapply IH1; [done|].
           replace old with s; [done|]. apply Hv; [rewrite fmap_app; set_solver..|congruence|done].
        -- rewrite bool_decide_true, Ha in Hd by done. by rewrite <-Hd.
      * apply lookup_delete_Some in Hs as [_ Hs]. by eapply IH1.
      * apply lookup_delete_Some in Hs as [_ Hs]. by eapply IH1.
    + cbn [processDelta fst] in Hs. rewrite Hn, lookup_insert_eq in Hs.
      injection Hs as ->. rewrite He in Ha. by injection Ha.
  - intros [Hf [Hd' _]%Forall_cons]%Forall_app. destruct Hd as [->|(o & a & -> & Hn & He & _)]; [by apply IH2|].
    by rewrite He in Hd'; specialize (Hd' Hn).
  - intros. etrans; [apply IH3|].
    destruct Hd as [->|(o & a & _ & _ & _ & ->)]; [apply rtc_refl|apply rtc_once; constructor].
Qed.

End syncer.
End GlobalPullSecretSyncer.
