(* ===== verification/Manifests.v ===== *)
(** * The objects of the operand

    [internal/controller/operator/objects.go], [podplacement_objects.go] and
    [enoexecevent_objects.go]: the manifests the operator applies, in full, and the
    lists the controller makes of them.  [Operator] knows them by the fields its
    control flow depends on; here every field that is set is modelled. *)
From Stdlib Require Import Ascii.
From stdpp Require Import base gmap strings list.
From S2P Require Import Prelude GoStd Api Status Prog Operator.
Import plugins v1beta1.

Local Open Scope Z_scope.

Module objects.

(** ** Kubernetes types, as far as they are used *)
Abbreviation StringMap := (list (string * string)).

Record Meta := mkMeta {
  me_Name : string;
  me_Namespace : string;
  me_Labels : StringMap;
  me_Annotations : StringMap;
  me_Finalizers : list string;
}.

Record ServicePort := mkPort { sp_Name : string; sp_Port : Z; sp_TargetPort : Z; sp_Protocol : string }.
Record Service := mkService { sv_Meta : Meta; sv_Ports : list ServicePort; sv_Selector : StringMap }.

(** The value of an environment variable, or the field of the pod it comes from. *)
Inductive EnvSource := Value (v : string) | FieldRef (apiVersion fieldPath : string).
Record EnvVar := mkEnv { ev_Name : string; ev_Value : EnvSource }.

Record HTTPGetAction := mkHTTPGet { hg_Path : string; hg_Port : Z; hg_Scheme : string }.
Record Probe := mkProbe {
  pr_HTTPGet : HTTPGetAction;
  pr_InitialDelaySeconds : Z;
  pr_TimeoutSeconds : Z;
  pr_PeriodSeconds : Z;
  pr_SuccessThreshold : Z;
  pr_FailureThreshold : Z;
}.

Record SecurityContext := mkSecurity {
  sx_AllowPrivilegeEscalation : option bool;
  sx_Drop : list string;
  sx_Privileged : option bool;
  sx_ReadOnlyRootFilesystem : option bool;
  sx_RunAsNonRoot : option bool;
  sx_RunAsUser : option Z;
  sx_SELinuxType : option string;
}.

Record VolumeMount := mkMount { vm_Name : string; vm_MountPath : string; vm_ReadOnly : bool }.

Inductive VolumeSource :=
| ConfigMapVolume (name : string) (items : StringMap)
| SecretVolume (name : string) (defaultMode : Z)
| HostPathVolume (path type : string)
| EmptyDirVolume.
Record Volume := mkVolume { vo_Name : string; vo_Source : VolumeSource }.

Record Container := mkContainer {
  ct_Name : string;
  ct_Image : string;
  ct_ImagePullPolicy : string;
  ct_Env : list EnvVar;
  ct_Args : list string;
  ct_Command : list string;
  ct_LivenessProbe : option Probe;
  ct_ReadinessProbe : option Probe;
  ct_Requests : StringMap;
  ct_SecurityContext : SecurityContext;
  ct_VolumeMounts : list VolumeMount;
}.

Record NodeRequirement := mkRequirement { nr_Key : string; nr_Operator : string; nr_Values : list string }.

Record TopologySpread := mkSpread {
  ts_MaxSkew : Z;
  ts_TopologyKey : string;
  ts_WhenUnsatisfiable : string;
  ts_LabelSelector : StringMap;
  ts_MatchLabelKeys : list string;
}.

Record PodSpec := mkPodSpec {
  pd_AutomountServiceAccountToken : option bool;
  pd_NodeAffinity : list (list NodeRequirement);
  pd_Containers : list Container;
  pd_PriorityClassName : string;
  pd_ServiceAccountName : string;
  pd_RunAsNonRoot : option bool;
  pd_HostPID : bool;
  pd_TopologySpread : list TopologySpread;
  pd_Volumes : list Volume;
}.

Record PodTemplate := mkTemplate { tp_Labels : StringMap; tp_Annotations : StringMap; tp_Spec : PodSpec }.

Record Deployment := mkDeployment {
  dp_Meta : Meta;
  dp_Replicas : Z;
  dp_Selector : StringMap;
  (** [MaxSurge] and [MaxUnavailable] of the rolling update *)
  dp_RollingUpdate : string * string;
  dp_Template : PodTemplate;
}.

Record DaemonSet := mkDaemonSet { ds_Meta : Meta; ds_Selector : StringMap; ds_Template : PodTemplate }.

Record PolicyRule := mkRule {
  ru_APIGroups : list string;
  ru_Resources : list string;
  ru_ResourceNames : list string;
  ru_Verbs : list string;
}.
Record Role := mkRole { ro_Meta : Meta; ro_Rules : list PolicyRule }.
Record RoleRef := mkRoleRef { rr_APIGroup : string; rr_Kind : string; rr_Name : string }.
Record RbacSubject := mkRbacSubject { rs_Kind : string; rs_Name : string; rs_Namespace : string }.
Record RoleBinding := mkBinding { rb_Meta : Meta; rb_RoleRef : RoleRef; rb_Subjects : list RbacSubject }.
Record ServiceAccount := mkServiceAccount { sa_Meta : Meta; sa_AutomountServiceAccountToken : option bool }.

Record Endpoint := mkEndpoint {
  ep_HonorLabels : bool;
  ep_Path : string;
  ep_Port : string;
  ep_Scheme : string;
  ep_BearerTokenFile : string;
  ep_CAFile : string;
  ep_ServerName : string;
}.
Record ServiceMonitor := mkServiceMonitor {
  sm_Meta : Meta;
  sm_Endpoints : list Endpoint;
  sm_NamespaceSelector : list string;
  sm_Selector : StringMap;
}.

Record AlertRule := mkAlert {
  al_Alert : string;
  al_Expr : string;
  al_For : string;
  al_Annotations : StringMap;
  al_Labels : StringMap;
}.
Record PrometheusRule := mkPrometheusRule { pm_Meta : Meta; pm_Groups : list (string * list AlertRule) }.

Record MutatingWebhook := mkWebhook {
  wh_AdmissionReviewVersions : list string;
  (** name, namespace and path of the service *)
  wh_Service : string * string * string;
  wh_NamespaceSelector : option LabelSelector;
  wh_FailurePolicy : string;
  wh_SideEffects : string;
  wh_Name : string;
  (** operations, API groups, API versions, resources *)
  wh_Rules : list (list string * list string * list string * list string);
}.
Record MutatingWebhookConfiguration := mkMWC { mw_Meta : Meta; mw_Webhooks : list MutatingWebhook }.

(** [client.Object] *)
Inductive Obj :=
| OService (o : Service)
| ODeployment (o : Deployment)
| ODaemonSet (o : DaemonSet)
| OClusterRole (o : Role)
| ORole (o : Role)
| OClusterRoleBinding (o : RoleBinding)
| ORoleBinding (o : RoleBinding)
| OServiceAccount (o : ServiceAccount)
| OServiceMonitor (o : ServiceMonitor)
| OPrometheusRule (o : PrometheusRule)
| OMutatingWebhookConfiguration (o : MutatingWebhookConfiguration).

(** ** Constants *)
Definition CREATE := "create".
Definition UPDATE := "update".
Definition PATCH := "patch".
Definition LIST := "list".
Definition WATCH := "watch".
Definition GET := "get".
Definition USE := "use".
Definition DELETE := "delete".
Definition serviceAccountKind := "ServiceAccount".
Definition roleKind := "Role".
Definition clusterRoleKind := "ClusterRole".
Definition requiredSCCAnnotation := "openshift.io/required-scc".
Definition requiredSCCRestrictedV2 := "restricted-v2".
Definition operandName := "pod-placement-controller".
Definition priorityClassName := "system-cluster-critical".
Definition OperandLabelKey := "multiarch.openshift.io/operand".
Definition ControllerNameKey := "controller".
Definition PodMutatingWebhookName := "pod-placement-scheduling-gate.multiarch.openshift.io".
Definition Group := "multiarch.openshift.io".
Definition ClusterPodPlacementConfigResource := "clusterpodplacementconfigs".
Definition PodPlacementConfigResource := "podplacementconfigs".
Definition ENoExecEventResource := "enoexecevents".
Definition rbacGroupName := "rbac.authorization.k8s.io".

Section builders.
(** [utils.Namespace()], [utils.Image()] and [os.Getenv] *)
Context (Namespace Image : string) (Getenv : string → string).

Definition operandLabels (name : string) : StringMap :=
  [(OperandLabelKey, operandName); (ControllerNameKey, name)].

(** ** [objects.go] *)
Definition buildService (name : string) : Service :=
  mkService
    (mkMeta name Namespace (operandLabels name)
       [("service.beta.openshift.io/serving-cert-secret-name", name)] [])
    [ mkPort "https" 443 9443 "TCP"; mkPort "metrics" 8443 8443 "TCP" ]
    (operandLabels name).

(** The pods of a deployment *)
Definition deploymentPodSpec (logVerbosity : Z) (name serviceAccount : string) (args : list string) : PodSpec :=
  mkPodSpec (Some true)
     [ [ mkRequirement utils.ArchLabel "In"
           [ utils.ArchitectureAmd64; utils.ArchitectureArm64; utils.ArchitectureS390x;
             utils.ArchitecturePpc64le ] ] ]
     [ mkContainer name Image "IfNotPresent"
         [ mkEnv "NAMESPACE" (Value Namespace);
           mkEnv "HTTP_PROXY" (Value (Getenv "HTTP_PROXY"));
           mkEnv "HTTPS_PROXY" (Value (Getenv "HTTPS_PROXY"));
           mkEnv "NO_PROXY" (Value (Getenv "NO_PROXY")) ]
         ([ "--health-probe-bind-address=:8081"; "--metrics-bind-address=:8443";
            "--initial-log-level=" +:+ sprintd logVerbosity ] ++ args)
         [ "/manager" ]
         (Some (mkProbe (mkHTTPGet "/healthz" 8081 "HTTP") 15 1 20 1 3))
         (Some (mkProbe (mkHTTPGet "/readyz" 8081 "HTTP") 5 1 10 1 3))
         [ ("cpu", "10m"); ("memory", "64Mi") ]
         (mkSecurity (Some false) ["ALL"] (Some false) (Some true) (Some true) None None)
         [ mkMount "trusted-ca" "/etc/pki/ca-trust/extracted/pem" true ] ]
     priorityClassName serviceAccount (Some true) false
     [ mkSpread 1 "kubernetes.io/hostname" "ScheduleAnyway" (operandLabels name)
         ["pod-template-hash"] ]
     [ mkVolume "trusted-ca"
         (ConfigMapVolume "multiarch-tuning-operator-trusted-ca"
            [("ca-bundle.crt", "tls-ca-bundle.pem")]) ].

Definition buildDeployment (logVerbosity : Z) (name : string) (replicas : Z) (serviceAccount finalizer : string)
    (args : list string) : Deployment :=
  let finalizers := if bool_decide (finalizer = "") then [] else [finalizer] in
  mkDeployment
    (mkMeta name Namespace (operandLabels name) [] finalizers)
    replicas
    (operandLabels name)
    ("25%", "25%")
    (mkTemplate (operandLabels name)
       [ ("target.workload.openshift.io/management",
          "{" +:+ quoted "effect" +:+ ": " +:+ quoted "PreferredDuringScheduling" +:+ "}");
         (requiredSCCAnnotation, requiredSCCRestrictedV2) ]
       (deploymentPodSpec logVerbosity name serviceAccount args)).

Definition buildClusterRole (name : string) (rules : list PolicyRule) : Role :=
  mkRole (mkMeta name "" (operandLabels name) [] []) rules.

Definition buildClusterRoleBinding (name : string) (roleRef : RoleRef) (subjects : list RbacSubject) : RoleBinding :=
  mkBinding (mkMeta name "" (operandLabels name) [] []) roleRef subjects.

Definition buildRoleBinding (name : string) (roleRef : RoleRef) (subjects : list RbacSubject) : RoleBinding :=
  mkBinding (mkMeta name Namespace (operandLabels name) [] []) roleRef subjects.

Definition buildServiceAccount (name : string) : ServiceAccount :=
  mkServiceAccount (mkMeta name Namespace (operandLabels name) [] []) (Some false).

Definition buildServiceMonitor (name : string) : ServiceMonitor :=
  mkServiceMonitor (mkMeta name Namespace [] [] [])
    [ mkEndpoint true "/metrics" "metrics" "https"
        "/var/run/secrets/kubernetes.io/serviceaccount/token"
        "/etc/prometheus/configmaps/serving-certs-ca-bundle/service-ca.crt"
        (name +:+ "." +:+ Namespace +:+ ".svc") ]
    [ Namespace ]
    [ (ControllerNameKey, name) ].

(** ** [podplacement_objects.go] *)
Definition buildMutatingWebhookConfiguration (namespaceSelector : option LabelSelector) :
    MutatingWebhookConfiguration :=
  mkMWC
    (mkMeta PodMutatingWebhookConfigurationName ""
       [(OperandLabelKey, operandName); (ControllerNameKey, PodPlacementWebhookName)]
       [("service.beta.openshift.io/inject-cabundle", "true")] [])
    [ mkWebhook ["v1"] (PodPlacementWebhookName, Namespace, "/add-pod-scheduling-gate")
        namespaceSelector "Ignore" "None" PodMutatingWebhookName
        [ (["CREATE"], [""], ["v1"], ["pods"]) ] ].

(** [append] to the volumes of the pod and to the mounts and the environment of its
    first container *)
Definition extendContainer (mounts : list VolumeMount) (env : list EnvVar) (c : Container) : Container :=
  mkContainer (ct_Name c) (ct_Image c) (ct_ImagePullPolicy c) (ct_Env c ++ env) (ct_Args c) (ct_Command c)
    (ct_LivenessProbe c) (ct_ReadinessProbe c) (ct_Requests c) (ct_SecurityContext c)
    (ct_VolumeMounts c ++ mounts).

Definition onFirst {A} (f : A → A) (l : list A) : list A :=
  match l with [] => [] | x :: l' => f x :: l' end.

Definition extendPod (volumes : list Volume) (mounts : list VolumeMount) (env : list EnvVar) (p : PodSpec) : PodSpec :=
  mkPodSpec (pd_AutomountServiceAccountToken p) (pd_NodeAffinity p)
    (onFirst (extendContainer mounts env) (pd_Containers p)) (pd_PriorityClassName p)
    (pd_ServiceAccountName p) (pd_RunAsNonRoot p) (pd_HostPID p) (pd_TopologySpread p)
    (pd_Volumes p ++ volumes).

Definition onPod (f : PodSpec → PodSpec) (d : Deployment) : Deployment :=
  mkDeployment (dp_Meta d) (dp_Replicas d) (dp_Selector d) (dp_RollingUpdate d)
    (mkTemplate (tp_Labels (dp_Template d)) (tp_Annotations (dp_Template d)) (f (tp_Spec (dp_Template d)))).

Definition onAnnotations (f : StringMap → StringMap) (d : Deployment) : Deployment :=
  mkDeployment (dp_Meta d) (dp_Replicas d) (dp_Selector d) (dp_RollingUpdate d)
    (mkTemplate (tp_Labels (dp_Template d)) (f (tp_Annotations (dp_Template d))) (tp_Spec (dp_Template d))).

(** [m[k] = v] on the association list *)
Fixpoint assign (k v : string) (m : StringMap) : StringMap :=
  match m with
  | [] => [(k, v)]
  | (k', v') :: m' => if bool_decide (k' = k) then (k, v) :: m' else (k', v') :: assign k v m'
  end.

Definition withSELinux (type : string) (c : Container) : Container :=
  let s := ct_SecurityContext c in
  mkContainer (ct_Name c) (ct_Image c) (ct_ImagePullPolicy c) (ct_Env c) (ct_Args c) (ct_Command c)
    (ct_LivenessProbe c) (ct_ReadinessProbe c) (ct_Requests c)
    (mkSecurity (sx_AllowPrivilegeEscalation s) (sx_Drop s) (sx_Privileged s) (sx_ReadOnlyRootFilesystem s)
       (sx_RunAsNonRoot s) (sx_RunAsUser s) (Some type))
    (ct_VolumeMounts c).

Definition onContainer (f : Container → Container) (p : PodSpec) : PodSpec :=
  mkPodSpec (pd_AutomountServiceAccountToken p) (pd_NodeAffinity p) (onFirst f (pd_Containers p))
    (pd_PriorityClassName p) (pd_ServiceAccountName p) (pd_RunAsNonRoot p) (pd_HostPID p)
    (pd_TopologySpread p) (pd_Volumes p).

Definition buildWebhookDeployment (logVerbosity : Z) : Deployment :=
  let d := buildDeployment logVerbosity PodPlacementWebhookName 3 PodPlacementWebhookName ""
             ["--enable-ppc-webhook"; "--enable-cppc-informer"] in
  let additionalVolumes := [ mkVolume "webhook-server-cert" (SecretVolume PodPlacementWebhookName 420) ] in
  let additionalMounts := [ mkMount "webhook-server-cert" "/var/run/manager/tls" true ] in
  onPod (extendPod additionalVolumes additionalMounts []) d.

Definition buildControllerDeployment (logVerbosity : Z) (requiredSCCHostmoundAnyUID : string)
    (seLinuxOptionsType : option string) : Deployment :=
  let d := buildDeployment logVerbosity PodPlacementControllerName 2 PodPlacementControllerName
             utils.PodPlacementFinalizerName
             ["--leader-elect"; "--enable-ppc-controllers"; "--enable-cppc-informer"] in
  let d := onAnnotations (assign requiredSCCAnnotation requiredSCCHostmoundAnyUID) d in
  let additionalVolumes :=
    [ mkVolume "webhook-server-cert" (SecretVolume PodPlacementControllerName 420);
      mkVolume "docker-conf" (HostPathVolume "/etc/docker/certs.d/" "DirectoryOrCreate");
      mkVolume "containers-conf" (HostPathVolume "/etc/containers/" "Directory");
      mkVolume "shortnames-cache" EmptyDirVolume ] in
  let additionalMounts :=
    [ mkMount "webhook-server-cert" "/var/run/manager/tls" true;
      mkMount "docker-conf" "/etc/docker/certs.d/" true;
      mkMount "containers-conf" "/etc/containers/" true;
      mkMount "shortnames-cache" "/tmp/container/cache" false ] in
  let additionalEnv := [ mkEnv "XDG_CACHE_HOME" (Value "/tmp/container/cache") ] in
  let d := onPod (extendPod additionalVolumes additionalMounts additionalEnv) d in
  match seLinuxOptionsType with
  | None => d
  | Some type => onPod (onContainer (withSELinux type)) d
  end.

Definition rule (groups resources verbs : list string) : PolicyRule := mkRule groups resources [] verbs.

Definition buildClusterRoleWebhook : Role :=
  buildClusterRole PodPlacementWebhookName
    [ rule [""] ["events"] [CREATE; PATCH];
      rule [Group] [ClusterPodPlacementConfigResource] [LIST; WATCH; GET];
      rule [Group] [PodPlacementConfigResource] [LIST; WATCH; GET];
      rule [""] ["pods"] [LIST; WATCH; GET];
      rule ["authentication.k8s.io"] ["tokenreviews"] [CREATE];
      rule ["authorization.k8s.io"] ["subjectaccessreviews"] [CREATE] ].

Definition buildClusterRoleController : Role :=
  buildClusterRole PodPlacementControllerName
    [ rule ["security.openshift.io"] ["securitycontextconstraints"] [USE];
      rule [""] ["pods"] [LIST; WATCH; GET; UPDATE];
      rule [""] ["events"] [CREATE; PATCH];
      rule [""] ["pods/status"] [UPDATE];
      rule [Group] [ClusterPodPlacementConfigResource] [LIST; WATCH; GET];
      rule [Group] [PodPlacementConfigResource] [LIST; WATCH; GET];
      rule [""] ["configmaps"] [LIST; WATCH; GET];
      rule [""] ["secrets"] [LIST; WATCH; GET];
      rule ["authentication.k8s.io"] ["tokenreviews"] [CREATE];
      rule ["authorization.k8s.io"] ["subjectaccessreviews"] [CREATE] ].

Definition allVerbs : list string := [LIST; WATCH; GET; UPDATE; PATCH; CREATE; DELETE].

Definition buildRoleController : Role :=
  mkRole (mkMeta PodPlacementControllerName Namespace [] [] [])
    [ rule [""] ["configmaps"] allVerbs; rule ["coordination.k8s.io"] ["leases"] allVerbs ].

(** [kube_deployment_status_replicas_available] of a deployment is 0 *)
Definition replicasAvailableIsZero (deployment : string) : string :=
  "kube_deployment_status_replicas_available{namespace=" +:+ quoted Namespace +:+ ", deployment="
  +:+ quoted deployment +:+ "} == 0".

Definition alertRules (name group : string) (rules : list AlertRule) : PrometheusRule :=
  mkPrometheusRule (mkMeta name Namespace [] [] []) [(group, rules)].

Definition buildCPPCAvailabilityAlertRule : PrometheusRule :=
  alertRules OperatorName "multiarch-tuning-operator.rules"
    [ mkAlert "PodPlacementControllerDown" (replicasAvailableIsZero PodPlacementControllerName) "1m"
        [ ("summary", "The pod placement controller should have at least 1 replica running and ready.");
          ("description", "The pod placement controller has been down for more than 1 minute. If the controller is not running, no architecture constraints can be set. The multiarch.openshift.io/scheduling-gate scheduling gate will not be automatically removed from gated pods, and pods may stuck in the Pending state.");
          ("runbook_url", "https://github.com/openshift/multiarch-tuning-operator/blob/main/docs/alerts/pod-placement-controller-down.md") ]
        [ ("severity", "critical") ];
      mkAlert "PodPlacementWebhookDown" (replicasAvailableIsZero PodPlacementWebhookName) "5m"
        [ ("summary", "The pod placement webhook should have at least 1 replica running and ready.");
          ("description", "The pod placement webhook has been down for more than 5 minutes. Pods will not be gated. Therefore, the architecture-specific constraints will not be enforced and pods may be scheduled on nodes that are not supported by their images.");
          ("runbook_url", "https://github.com/openshift/multiarch-tuning-operator/blob/main/docs/alerts/pod-placement-webhook-down.md") ]
        [ ("severity", "warning") ] ].

(** ** [enoexecevent_objects.go] *)
Definition buildClusterRoleENoExecEventsController : Role :=
  buildClusterRole EnoexecControllerName
    [ rule [""] ["pods"; "nodes"] [LIST; GET];
      rule [""] ["events"] [CREATE; PATCH];
      rule [""] ["pods"; "pods/status"] [UPDATE];
      rule ["authentication.k8s.io"] ["tokenreviews"] [CREATE];
      rule ["authorization.k8s.io"] ["subjectaccessreviews"] [CREATE] ].

Definition buildRoleENoExecEventController : Role :=
  mkRole (mkMeta EnoexecControllerName Namespace [] [] [])
    [ rule [Group] [ENoExecEventResource] allVerbs;
      rule [""] ["configmaps"] allVerbs;
      rule ["coordination.k8s.io"] ["leases"] allVerbs ].

Definition buildClusterRoleENoExecEventsDaemonSet : Role :=
  buildClusterRole EnoexecDaemonSet
    [ mkRule ["security.openshift.io"] ["securitycontextconstraints"] ["privileged"] [USE] ].

Definition buildRoleENoExecEventDaemonSet : Role :=
  mkRole (mkMeta EnoexecDaemonSet Namespace [] [] [])
    [ rule [Group] [ENoExecEventResource] [GET; CREATE; DELETE];
      rule [Group] [ENoExecEventResource +:+ "/status"] [UPDATE] ].

Definition buildDaemonSetENoExecEvent (serviceAccount name : string) (logVerbosity : Z) (args : list string) :
    DaemonSet :=
  mkDaemonSet
    (mkMeta EnoexecDaemonSet Namespace [("app", EnoexecDaemonSet)] [] [])
    [("app", EnoexecDaemonSet)]
    (mkTemplate [("app", EnoexecDaemonSet)] []
       (mkPodSpec (Some true) []
          [ mkContainer name Image "IfNotPresent"
              [ mkEnv "NAMESPACE" (FieldRef "v1" "metadata.namespace");
                mkEnv "NODE_NAME" (FieldRef "v1" "spec.nodeName") ]
              args
              [ "/enoexec-daemon"; "--initial-log-level=" +:+ sprintd logVerbosity ]
              None None []
              (mkSecurity None [] (Some true) (Some true) None (Some 0) None)
              [ mkMount "debugfs" "/sys/kernel/debug" true;
                mkMount "tracingfs" "/sys/kernel/tracing" true;
                mkMount "crio" "/var/run/crio/crio.sock" true ] ]
          "" serviceAccount None true []
          [ mkVolume "debugfs" (HostPathVolume "/sys/kernel/debug" "Directory");
            mkVolume "tracingfs" (HostPathVolume "/sys/kernel/tracing" "Directory");
            mkVolume "crio" (HostPathVolume "/var/run/crio/crio.sock" "Socket") ])).

Definition buildDeploymentENoExecEventHandler (logVerbosity : Z) : Deployment :=
  let d := buildDeployment logVerbosity EnoexecControllerName 2 EnoexecControllerName ""
             ["--leader-elect"; "--enable-enoexec-event-controllers"] in
  let additionalVolumes := [ mkVolume "metrics-cert" (SecretVolume EnoexecControllerName 420) ] in
  let additionalMounts := [ mkMount "metrics-cert" "/var/run/manager/tls" true ] in
  onPod (extendPod additionalVolumes additionalMounts []) d.

Definition buildExecFormatErrorAvailabilityAlertRule : PrometheusRule :=
  alertRules (ToLower ExecFormatErrorMonitorName) "multiarch-tuning-operator-enoexec.rules"
    [ mkAlert "ExecFormatErrorHandlerDown" (replicasAvailableIsZero EnoexecControllerName) "1m"
        [ ("summary", "The exec format error handler should have at least 1 replica running and ready.");
          ("description", "The exec format error handler has been down for more than 1 minute. ");
          ("runbook_url", "https://github.com/outrigger-project/multiarch-tuning-operator/blob/main/docs/alerts/enoexec-event-handler-down.md") ]
        [ ("severity", "critical") ];
      mkAlert "ExecFormatErrorDaemonDown"
        ("kube_daemonset_status_number_unavailable{namespace=" +:+ quoted Namespace +:+ ", daemonset="
         +:+ quoted EnoexecDaemonSet +:+ "} > 0") "20m"
        [ ("summary", "The exec format error daemon is not available in all the nodes.");
          ("description", "Some nodes that should be running the exec format error daemon have none of the daemonset pod running and available for more than 20 minutes. Exec Format Errors will not be detected in those nodes");
          ("runbook_url", "https://github.com/openshift/multiarch-tuning-operator/blob/main/docs/alerts/enoexec-event-daemon-down.md") ]
        [ ("severity", "warning") ] ].

Definition buildExecFormatErrorsDetectedAlertRule : PrometheusRule :=
  alertRules (ToLower ExecFormatErrorsDetected) "multiarch-tuning-operator-enoexec-detected.rules"
    [ mkAlert ExecFormatErrorsDetected "rate(mto_enoexecevents_total[6h]) > 0" "1m"
        [ ("summary", "Exec Format Errors detected in the past 6 hours.");
          ("description", "Exec Format Errors detected in the past 6 hours.");
          ("runbook_url", "https://github.com/outrigger-project/multiarch-tuning-operator/blob/main/docs/alerts/enoexec-controller-down.md") ]
        [ ("severity", "critical") ] ].

(** ** The lists of the controller *)
Definition sccFor (minor : Z) : string * option string :=
  if minor <? 30 then ("hostmount-anyuid", None)
  else if (minor =? 30) || (minor =? 31) then ("privileged", Some "spc_t")
  else ("hostmount-anyuid-v2", Some "spc_t").

Definition clusterRoleRef (name : string) : RoleRef := mkRoleRef rbacGroupName clusterRoleKind name.
Definition roleRef (name : string) : RoleRef := mkRoleRef rbacGroupName roleKind name.
Definition serviceAccountSubject (name : string) : RbacSubject :=
  mkRbacSubject serviceAccountKind name Namespace.

(** [buildPodPlacementConfigObjects] for a minor version of the cluster *)
Definition podPlacementObjects (logVerbosity minor : Z) : list Obj :=
  [ OService (buildService PodPlacementControllerName);
    OService (buildService PodPlacementWebhookName);
    OClusterRole buildClusterRoleController; OClusterRole buildClusterRoleWebhook; ORole buildRoleController;
    OServiceAccount (buildServiceAccount PodPlacementWebhookName);
    OServiceAccount (buildServiceAccount PodPlacementControllerName);
    OClusterRoleBinding (buildClusterRoleBinding PodPlacementControllerName
      (clusterRoleRef PodPlacementControllerName) [serviceAccountSubject PodPlacementControllerName]);
    ORoleBinding (buildRoleBinding PodPlacementControllerName
      (roleRef PodPlacementControllerName) [mkRbacSubject serviceAccountKind PodPlacementControllerName ""]);
    OClusterRoleBinding (buildClusterRoleBinding PodPlacementWebhookName
      (clusterRoleRef PodPlacementWebhookName) [serviceAccountSubject PodPlacementWebhookName]);
    ODeployment (buildControllerDeployment logVerbosity (sccFor minor).1 (sccFor minor).2);
    ODeployment (buildWebhookDeployment logVerbosity) ].

(** [buildENoExecEventObjects] *)
Definition enoexecObjects (logVerbosity : Z) : list Obj :=
  [ OService (buildService EnoexecControllerName);
    OServiceAccount (buildServiceAccount EnoexecControllerName);
    OServiceAccount (buildServiceAccount EnoexecDaemonSet);
    OClusterRole buildClusterRoleENoExecEventsController; ORole buildRoleENoExecEventController;
    OClusterRole buildClusterRoleENoExecEventsDaemonSet; ORole buildRoleENoExecEventDaemonSet;
    OClusterRoleBinding (buildClusterRoleBinding EnoexecControllerName
      (clusterRoleRef EnoexecControllerName) [serviceAccountSubject EnoexecControllerName]);
    ORoleBinding (buildRoleBinding EnoexecControllerName
      (roleRef EnoexecControllerName) [serviceAccountSubject EnoexecControllerName]);
    OClusterRoleBinding (buildClusterRoleBinding EnoexecDaemonSet
      (clusterRoleRef EnoexecDaemonSet) [serviceAccountSubject EnoexecDaemonSet]);
    ORoleBinding (buildRoleBinding EnoexecDaemonSet
      (roleRef EnoexecDaemonSet) [serviceAccountSubject EnoexecDaemonSet]);
    ODeployment (buildDeploymentENoExecEventHandler logVerbosity) ].

Definition enoexecMonitors : list Obj :=
  [ OServiceMonitor (buildServiceMonitor EnoexecControllerName);
    OPrometheusRule buildExecFormatErrorAvailabilityAlertRule;
    OPrometheusRule buildExecFormatErrorsDetectedAlertRule ].

Definition podPlacementMonitors : list Obj :=
  [ OServiceMonitor (buildServiceMonitor PodPlacementControllerName);
    OServiceMonitor (buildServiceMonitor PodPlacementWebhookName);
    OPrometheusRule buildCPPCAvailabilityAlertRule ].

(** Everything the controller applies with the monitor enabled. *)
Definition allObjects (logVerbosity minor : Z) (selector : option LabelSelector) : list Obj :=
  podPlacementObjects logVerbosity minor ++ enoexecObjects logVerbosity ++ enoexecMonitors
  ++ [ OMutatingWebhookConfiguration (buildMutatingWebhookConfiguration selector);
       ODaemonSet (buildDaemonSetENoExecEvent EnoexecDaemonSet EnoexecDaemonSet logVerbosity []) ]
  ++ podPlacementMonitors.

(** ** They refine what the controller reasons about *)
Definition lookupS (k : string) (m : StringMap) : option string := snd <$> List.find (λ p, bool_decide (p.1 = k)) m.

Definition eraseKind (k : string) : Kind := if bool_decide (k = roleKind) then KRole else KClusterRole.

Definition eraseBinding (k : Kind) (b : RoleBinding) : Manifest :=
  mkManifest (mkRef k (me_Name (rb_Meta b))) None [] None ""
    (Some (mkRef (eraseKind (rr_Kind (rb_RoleRef b))) (rr_Name (rb_RoleRef b))))
    ((λ s, mkSubject (rs_Name s) (bool_decide (rs_Namespace s = Namespace))) <$> rb_Subjects b).

(** The fields [Operator] keeps of an object. *)
Definition erase (o : Obj) : Manifest :=
  match o with
  | OService s => plain KService (me_Name (sv_Meta s))
  | ODeployment d =>
      mkManifest (mkRef KDeployment (me_Name (dp_Meta d))) (Some (dp_Replicas d)) (me_Finalizers (dp_Meta d))
        None (default "" (lookupS requiredSCCAnnotation (tp_Annotations (dp_Template d)))) None []
  | ODaemonSet d => plain KDaemonSet (me_Name (ds_Meta d))
  | OClusterRole r => plain KClusterRole (me_Name (ro_Meta r))
  | ORole r => plain KRole (me_Name (ro_Meta r))
  | OClusterRoleBinding b => eraseBinding KClusterRoleBinding b
  | ORoleBinding b => eraseBinding KRoleBinding b
  | OServiceAccount s => plain KServiceAccount (me_Name (sa_Meta s))
  | OServiceMonitor m => plain KServiceMonitor (me_Name (sm_Meta m))
  | OPrometheusRule r => plain KPrometheusRule (me_Name (pm_Meta r))
  | OMutatingWebhookConfiguration m =>
      mkManifest (mkRef KMutatingWebhookConfiguration (me_Name (mw_Meta m))) None []
        (list.head (mw_Webhooks m) ≫= wh_NamespaceSelector) "" None []
  end.

(** The manifests in full refine the ones the controller's model works with:
    forgetting the other fields of the objects that are built gives exactly the
    lists the controller of [Operator] applies, for every version of the cluster. *)
Lemma manifests_refine logVerbosity minor (c : Config) :
  Namespace ≠ "" →
  erase <$> podPlacementObjects logVerbosity minor = Operator.podPlacementObjects (sccFor minor).1
  ∧ erase <$> enoexecObjects logVerbosity = Operator.enoexecObjects
  ∧ erase <$> enoexecMonitors = Operator.enoexecMonitors
  ∧ erase <$> podPlacementMonitors
    = [ Operator.buildServiceMonitor PodPlacementControllerName;
        Operator.buildServiceMonitor PodPlacementWebhookName; Operator.buildCPPCAvailabilityAlertRule ]
  ∧ erase (OMutatingWebhookConfiguration
             (buildMutatingWebhookConfiguration (cs_NamespaceSelector (cppc_Spec (cf_Obj c)))))
    = Operator.buildMutatingWebhookConfiguration c
  ∧ erase (ODaemonSet (buildDaemonSetENoExecEvent EnoexecDaemonSet EnoexecDaemonSet logVerbosity []))
    = Operator.buildDaemonSetENoExecEvent.
Proof.
  intros Hns. unfold podPlacementObjects, enoexecObjects, Operator.podPlacementObjects, Operator.enoexecObjects.
  cbn -[bool_decide buildControllerDeployment Operator.buildControllerDeployment].
  unfold eraseBinding. cbn -[bool_decide buildControllerDeployment Operator.buildControllerDeployment].
  rewrite !(bool_decide_eq_true_2 (Namespace = Namespace)), !(bool_decide_eq_false_2 ("" = Namespace)) by done.
  split; [|done]. by destruct (sccFor minor) as [scc [se|]].
Qed.

(** ** They fit together *)
Definition metaOf (o : Obj) : Meta :=
  match o with
  | OService s => sv_Meta s
  | ODeployment d => dp_Meta d
  | ODaemonSet d => ds_Meta d
  | OClusterRole r | ORole r => ro_Meta r
  | OClusterRoleBinding b | ORoleBinding b => rb_Meta b
  | OServiceAccount s => sa_Meta s
  | OServiceMonitor m => sm_Meta m
  | OPrometheusRule r => pm_Meta r
  | OMutatingWebhookConfiguration m => mw_Meta m
  end.

Definition names (f : Obj → bool) (l : list Obj) : list string := me_Name ∘ metaOf <$> List.filter f l.

Definition isService o := match o with OService _ => true | _ => false end.
Definition isServiceAccount o := match o with OServiceAccount _ => true | _ => false end.
Definition isClusterRole o := match o with OClusterRole _ => true | _ => false end.
Definition isRole o := match o with ORole _ => true | _ => false end.

Definition mem (s : string) (l : list string) : bool := existsb (String.eqb s) l.

(** Labels satisfy a selector. *)
Definition selects (selector labels : StringMap) : bool :=
  forallb (λ p, existsb (λ q, String.eqb p.1 q.1 && String.eqb p.2 q.2) labels) selector.

Definition templates (l : list Obj) : list PodTemplate :=
  omap (λ o, match o with
             | ODeployment d => Some (dp_Template d)
             | ODaemonSet d => Some (ds_Template d)
             | _ => None
             end) l.

(** The secrets that the service CA operator creates for the services. *)
Definition servingCerts (l : list Obj) : list string :=
  omap (λ o, match o with
             | OService s => lookupS "service.beta.openshift.io/serving-cert-secret-name" (me_Annotations (sv_Meta s))
             | _ => None
             end) l.

Definition volumeOk (l : list Obj) (v : Volume) : bool :=
  match vo_Source v with SecretVolume s _ => mem s (servingCerts l) | _ => true end.

Definition probeOk (c : Container) (p : Probe) : bool :=
  mem ("--health-probe-bind-address=:" +:+ sprintd (hg_Port (pr_HTTPGet p))) (ct_Args c).

(** Every mount has a volume, every secret a service that owns it, the service account
    exists, and the probes ask the port the container is told to answer on. *)
Definition podOk (l : list Obj) (p : PodSpec) : bool :=
  forallb (λ c, forallb (λ m, mem (vm_Name m) (vo_Name <$> pd_Volumes p)) (ct_VolumeMounts c)
                && forallb (probeOk c) (option_list (ct_LivenessProbe c) ++ option_list (ct_ReadinessProbe c)))
    (pd_Containers p)
  && forallb (volumeOk l) (pd_Volumes p)
  && mem (pd_ServiceAccountName p) (names isServiceAccount l).

Definition bindingOk (l : list Obj) (b : RoleBinding) : bool :=
  mem (rr_Name (rb_RoleRef b)) (names (if String.eqb (rr_Kind (rb_RoleRef b)) roleKind then isRole else isClusterRole) l)
  && forallb (λ s, String.eqb (rs_Kind s) serviceAccountKind && mem (rs_Name s) (names isServiceAccount l))
       (rb_Subjects b).

(** A service selects the pods of exactly one workload, which serves the metrics on
    the port the service forwards to. *)
Definition serviceOk (l : list Obj) (s : Service) : bool :=
  match List.filter (λ t, selects (sv_Selector s) (tp_Labels t)) (templates l) with
  | [t] => forallb (λ c, mem "--metrics-bind-address=:8443" (ct_Args c)) (pd_Containers (tp_Spec t))
           && existsb (λ p, String.eqb (sp_Name p) "metrics" && (sp_TargetPort p =? 8443)) (sv_Ports s)
  | _ => false
  end.

Definition servicesOf (l : list Obj) : list Service :=
  omap (λ o, match o with OService s => Some s | _ => None end) l.

Definition monitorOk (l : list Obj) (m : ServiceMonitor) : bool :=
  match List.filter (λ s, selects (sm_Selector m) (me_Labels (sv_Meta s))) (servicesOf l) with
  | [s] => String.eqb (me_Name (sv_Meta s)) (me_Name (sm_Meta m))
           && forallb (λ e, mem (ep_Port e) (sp_Name <$> sv_Ports s)) (sm_Endpoints m)
  | _ => false
  end.

Definition webhookOk (l : list Obj) (w : MutatingWebhook) : bool :=
  let '(name, _, _) := wh_Service w in
  existsb (λ s, String.eqb (me_Name (sv_Meta s)) name && existsb (λ p, sp_Port p =? 443) (sv_Ports s))
    (servicesOf l).

Definition objOk (l : list Obj) (o : Obj) : bool :=
  match o with
  | OService s => serviceOk l s
  | ODeployment d => selects (dp_Selector d) (tp_Labels (dp_Template d)) && podOk l (tp_Spec (dp_Template d))
  | ODaemonSet d => selects (ds_Selector d) (tp_Labels (ds_Template d)) && podOk l (tp_Spec (ds_Template d))
  | OClusterRoleBinding b | ORoleBinding b => bindingOk l b
  | OServiceMonitor m => monitorOk l m
  | OMutatingWebhookConfiguration m => forallb (webhookOk l) (mw_Webhooks m)
  | _ => true
  end.

(** Objects of the cluster have no namespace, all others the operator's. *)
Definition placed (o : Obj) : Prop :=
  me_Namespace (metaOf o) = match o with
                            | OClusterRole _ | OClusterRoleBinding _ | OMutatingWebhookConfiguration _ => ""
                            | _ => Namespace
                            end.

(** C31: the objects of the operand fit together, with and without the exec format
    error monitor: selectors match the labels of their pod templates and each
    service the pods of exactly one workload; mounts, service accounts, roles,
    certificates, probes, monitored ports and the webhook's service all resolve
    within what is applied; no two objects have the same kind and name. *)
Theorem manifests_consistent logVerbosity minor selector :
  let all := allObjects logVerbosity minor selector in
  forallb (objOk all) all = true
  ∧ forallb (objOk (podPlacementObjects logVerbosity minor)) (podPlacementObjects logVerbosity minor) = true
  ∧ Forall placed all
  ∧ NoDup (mf_Ref ∘ erase <$> all).
Proof.
  intros all.
  destruct (sccFor minor) as [scc se] eqn:Es. unfold all, allObjects, podPlacementObjects.
  rewrite Es. cbn [fst snd].
  split; [by destruct se|]. split; [by destruct se|].
  split; [destruct se; repeat constructor|].
  apply (bool_decide_unpack _). by destruct se; vm_compute.
Qed.

(** ** Permissions *)
Definition permits (group resource verb : string) (r : PolicyRule) : bool :=
  mem group (ru_APIGroups r) && mem resource (ru_Resources r) && mem verb (ru_Verbs r)
  && match ru_ResourceNames r with [] => true | _ => false end.

Definition rulesNamed (f : Obj → option Role) (name : string) (l : list Obj) : list PolicyRule :=
  flat_map ro_Rules (List.filter (λ r, String.eqb (me_Name (ro_Meta r)) name) (omap f l)).

Definition bound (sa : string) (b : RoleBinding) : bool :=
  existsb (λ s, String.eqb (rs_Kind s) serviceAccountKind && String.eqb (rs_Name s) sa) (rb_Subjects b).

(** What the bindings of the list grant a service account of the operator's
    namespace: cluster roles everywhere, roles in that namespace. *)
Definition grants (l : list Obj) (sa : string) (inNamespace : bool) : list PolicyRule :=
  flat_map (λ o,
    match o with
    | OClusterRoleBinding b =>
        if bound sa b
        then rulesNamed (λ o, match o with OClusterRole r => Some r | _ => None end) (rr_Name (rb_RoleRef b)) l
        else []
    | ORoleBinding b =>
        if bound sa b && inNamespace
        then rulesNamed (λ o, match o with ORole r => Some r | _ => None end) (rr_Name (rb_RoleRef b)) l
        else []
    | _ => []
    end) l.

Definition may (l : list Obj) (sa : string) (inNamespace : bool) (group resource verb : string) : bool :=
  existsb (permits group resource verb) (grants l sa inNamespace).
End builders.
End objects.
