(* ===== verification/Permissions.v ===== *)
(** * The permissions are enough

    The components that run as workloads of the operand (the event handler of
    [EnoexecHandler], the daemon of [EnoexecDaemon]) against the roles that the
    operator binds to their service accounts ([Manifests]): every request they can
    make is granted. *)
From stdpp Require Import base gmap strings list.
From S2P Require Import Prelude GoStd Api Models Prog Operator EnoexecHandler Bpf Tracepoint TracepointUser.
From S2P Require Import EnoexecDaemon Manifests.
Import objects.

(** One permission: within the operator's namespace or anywhere, the API group, the
    resource and the verb. *)
Record Need := mkNeed { nd_InNamespace : bool; nd_Group : string; nd_Resource : string; nd_Verb : string }.

Section permissions.
Context (Namespace Image : string) (Getenv : string → string).
Context (logVerbosity minor : Z) (selector : option LabelSelector).

Abbreviation applied := (allObjects Namespace Image Getenv logVerbosity minor selector).

Definition granted (sa : string) (n : Need) : bool :=
  may applied sa (nd_InNamespace n) (nd_Group n) (nd_Resource n) (nd_Verb n).

(** An object of the operator's namespace, or of any. *)
Definition local (ns : string) : bool := bool_decide (ns = Namespace).

(** ** The handler *)
Definition handlerNeeds {T} (c : HCall T) : list Need :=
  match c with
  | GetEvent => mkNeed true Group ENoExecEventResource <$> [GET; LIST; WATCH]
  | UpdateEvent e => [mkNeed (local (en_Namespace e)) Group ENoExecEventResource UPDATE]
  | DeleteEvent e => [mkNeed (local (en_Namespace e)) Group ENoExecEventResource DELETE]
  | GetPod _ _ => [mkNeed false "" "pods" GET]
  | GetNode _ => [mkNeed false "" "nodes" GET]
  | RecordOnPod _ _ _ => mkNeed false "" "events" <$> [CREATE; PATCH]
  | UpdatePod _ => [mkNeed false "" "pods" UPDATE]
  end.

Definition handlerMay (e : Ev HCall) : Prop :=
  forallb (granted EnoexecControllerName) (handlerNeeds (ev_call e)) = true.

(** The cache of the handler holds the events of the operator's namespace. *)
Definition localEvents : ∀ T, HCall T → T → Prop := λ T c,
  match c in HCall T return T → Prop with
  | GetEvent => λ a, match a with Ok e => en_Namespace e = Namespace | Err _ => True end
  | _ => λ _, True
  end.

Lemma granted_local sa ns group resource verb :
  ns = Namespace → granted sa (mkNeed true group resource verb) = true →
  forallb (granted sa) [mkNeed (local ns) group resource verb] = true.
Proof. intros -> H. unfold local. rewrite bool_decide_eq_true_2 by done. cbn [forallb]. by rewrite H. Qed.

Lemma handler_update e a : en_Namespace e = Namespace → handlerMay (mkEv (UpdateEvent e) a).
Proof. intros H. apply granted_local; [done|]. by vm_compute. Qed.
Lemma handler_delete e a : en_Namespace e = Namespace → handlerMay (mkEv (DeleteEvent e) a).
Proof. intros H. apply granted_local; [done|]. by vm_compute. Qed.
Lemma handler_get a : handlerMay (mkEv GetEvent a).
Proof. by vm_compute. Qed.
Lemma handler_pod ns n a : handlerMay (mkEv (GetPod ns n) a).
Proof. by vm_compute. Qed.
Lemma handler_node n a : handlerMay (mkEv (GetNode n) a).
Proof. by vm_compute. Qed.
Lemma handler_record t r m a : handlerMay (mkEv (RecordOnPod t r m) a).
Proof. by vm_compute. Qed.
Lemma handler_label p a : handlerMay (mkEv (UpdatePod p) a).
Proof. by vm_compute. Qed.

#[local] Hint Resolve handler_update handler_delete handler_get handler_pod handler_node handler_record
  handler_label : core.

Lemma Forall_snoc' {A} (P : A → Prop) l x : Forall P l → P x → Forall P (l ++ [x]).
Proof. intros Hl Hx. apply Forall_app. auto. Qed.
#[local] Hint Resolve Forall_snoc' : core.

(** Events stay in the namespace when they are marked. *)
Lemma markAsError_may V reason e tr :
  en_Namespace e = Namespace → Forall handlerMay tr →
  wp V (markAsError reason e) (λ e1 tr', Forall handlerMay tr' ∧ en_Namespace e1 = Namespace) tr.
Proof. intros He Ht. unfold markAsError. prog_unfold. step. intros a _. auto. Qed.

Lemma reconcileEvent_may V hasRecorder e tr :
  en_Namespace e = Namespace → Forall handlerMay tr →
  wp V (reconcileEvent hasRecorder e)
    (λ r tr', Forall handlerMay tr' ∧ en_Namespace r.1 = Namespace) tr.
Proof.
  intros He Ht. unfold reconcileEvent. prog_unfold. step. intros [pod|err] _.
  2: { apply wp_bind. eapply wp_mono; [|by apply markAsError_may; auto]. done. }
  destruct (negb _).
  { apply wp_bind. eapply wp_mono; [|by apply markAsError_may; auto]. done. }
  step. intros [labels|err] _.
  2: { apply wp_bind. eapply wp_mono; [|by apply markAsError_may; auto]. done. }
  apply wp_bind. eapply wp_mono with (Q := λ _ tr', Forall handlerMay tr').
  2: { destruct hasRecorder; step; auto. }
  intros _ tr1 Ht1. step. intros [err|] _; [|by split; auto].
  apply wp_bind. eapply wp_mono; [|by apply markAsError_may; auto]. done.
Qed.

Lemma ReconcileEvent_may hasRecorder :
  wp localEvents (ReconcileEvent Namespace hasRecorder) (λ _ tr, Forall handlerMay tr) [].
Proof.
  unfold ReconcileEvent. prog_unfold. step. intros [e|err] He; [|step; auto]. cbn in He.
  rewrite bool_decide_eq_true_2 by done. cbn [negb]. case_bool_decide.
  { apply wp_bind. eapply wp_mono; [|apply markAsError_may; auto]. by intros ? ? [? ?]. }
  apply wp_bind. eapply wp_mono; [|apply reconcileEvent_may; auto].
  intros [e1 err] tr [Ht He1]. cbn [fst snd] in *. unfold finishEvent. prog_unfold.
  destruct (ignoreNotFound err).
  { apply wp_bind. eapply wp_mono; [|apply markAsError_may; auto]. by intros ? ? [? ?]. }
  step. intros [derr|] _; [|by step; auto].
  apply wp_bind. eapply wp_mono; [|apply markAsError_may; auto]. by intros ? ? [? ?].
Qed.

(** ** The daemon *)
Definition daemonNeeds {T} (c : SCall T) : list Need :=
  match c with
  | NewUUID | LimiterWait => []
  | CreateEvent e => [mkNeed (local (en_Namespace e)) Group ENoExecEventResource CREATE]
  | GetStored ns _ => [mkNeed (local ns) Group ENoExecEventResource GET]
  | UpdateStatus e => [mkNeed (local (en_Namespace e)) Group (ENoExecEventResource +:+ "/status") UPDATE]
  | RollbackEvent e => [mkNeed (local (en_Namespace e)) Group ENoExecEventResource DELETE]
  end.

Definition daemonMay (e : Ev SCall) : Prop :=
  forallb (granted EnoexecDaemonSet) (daemonNeeds (ev_call e)) = true.

(** The API server answers with the object that was asked for. *)
Definition sameNamespace : ∀ T, SCall T → T → Prop := λ T c,
  match c in SCall T return T → Prop with
  | CreateEvent e => λ a, match a with Ok e' => en_Namespace e' = en_Namespace e | Err _ => True end
  | GetStored ns _ => λ a, match a with Ok e' => en_Namespace e' = ns | Err _ => True end
  | _ => λ _, True
  end.

Lemma daemon_uuid a : daemonMay (mkEv NewUUID a).
Proof. done. Qed.
Lemma daemon_wait a : daemonMay (mkEv LimiterWait a).
Proof. done. Qed.
Lemma daemon_create e a : en_Namespace e = Namespace → daemonMay (mkEv (CreateEvent e) a).
Proof. intros H. apply granted_local; [done|]. by vm_compute. Qed.
Lemma daemon_get ns n a : ns = Namespace → daemonMay (mkEv (GetStored ns n) a).
Proof. intros H. apply granted_local; [done|]. by vm_compute. Qed.
Lemma daemon_status e a : en_Namespace e = Namespace → daemonMay (mkEv (UpdateStatus e) a).
Proof. intros H. apply granted_local; [done|]. by vm_compute. Qed.
Lemma daemon_rollback e a : en_Namespace e = Namespace → daemonMay (mkEv (RollbackEvent e) a).
Proof. intros H. apply granted_local; [done|]. by vm_compute. Qed.

#[local] Hint Resolve daemon_uuid daemon_wait daemon_create daemon_get daemon_status daemon_rollback : core.

Lemma attempt_may first saved e tr :
  en_Namespace e = Namespace → Forall daemonMay tr →
  wp sameNamespace (attempt first saved e)
    (λ r tr', Forall daemonMay tr' ∧ en_Namespace r.1 = Namespace) tr.
Proof.
  intros He Ht. unfold attempt. prog_unfold. destruct first; step.
  - intros u _. auto.
  - intros [e0|err] H; [|step; auto]. cbn in H. step. rewrite He in H. intros u _. auto.
Qed.

Lemma updateStatus_may steps first saved e tr :
  en_Namespace e = Namespace → Forall daemonMay tr →
  wp sameNamespace (updateStatus steps first saved e)
    (λ r tr', Forall daemonMay tr' ∧ en_Namespace r.1 = Namespace) tr.
Proof.
  revert first e tr. induction steps as [|steps IH]; intros first e tr He Ht; cbn [updateStatus];
    apply wp_bind; (eapply wp_mono; [|by apply attempt_may]); intros [e1 [err|]] tr1 [H1 H2]; try done.
  cbn [snd fst] in *. destruct (isConflict err); [by apply IH|done].
Qed.

Lemma processEvent_may hasLogger nodeName event :
  wp sameNamespace (processEvent hasLogger Namespace nodeName event) (λ _ tr, Forall daemonMay tr) [].
Proof.
  unfold processEvent. destruct hasLogger; cbn [negb]; prog_unfold; step; [|done].
  intros uuid _ [err|] _; step; [auto|]. intros [created|err] Hc; step; [|auto 6].
  apply wp_bind. eapply wp_mono; [|apply updateStatus_may; auto 6].
  intros [e1 [err|]] tr [H1 H2]; step; auto.
Qed.

(** C29: the roles the operator creates grant what its workloads do.  Every request the
    exec format error handler can make for an event of the operator's namespace,
    and every one the daemon can make for an event it detected, is permitted to
    the service account it runs as by the bindings in the list of objects the
    operator applies. *)
Theorem permissions_suffice {W W' : Type} (srv : Server HCall W) (srv' : Server SCall W') w w'
    hasRecorder hasLogger nodeName event :
  server_ok srv localEvents → server_ok srv' sameNamespace →
  Forall handlerMay (Prog.run (ReconcileEvent Namespace hasRecorder) w).1.2
  ∧ Forall daemonMay (Prog.run (processEvent hasLogger Namespace nodeName event) w').1.2.
Proof.
  intros Hs Hs'. split.
  - pose proof (wp_run _ _ _ [] w Hs (ReconcileEvent_may hasRecorder)) as H.
    by destruct (Prog.run _ w) as [[? ?] ?].
  - pose proof (wp_run _ _ _ [] w' Hs' (processEvent_may hasLogger nodeName event)) as H.
    by destruct (Prog.run _ w') as [[? ?] ?].
Qed.
End permissions.
