(* ===== verification/Apply.v ===== *)
(** * Applying objects

    [pkg/utils/resource.go]: which function applies which kind of object, the
    generation tracking of deployments and daemon sets on top of
    [library-go]'s [ApplyDeployment] and [ApplyDaemonSet], and the comparison of
    services; [pkg/utils/runtime.go]'s memory of available resources. *)
From stdpp Require Import base gmap strings list relations.
From S2P Require Import Prelude GoStd Api Prog Operator Manifests.

Local Open Scope Z_scope.

(** ** Workloads

    [Spec] is the spec of a deployment or a daemon set, [specHash] the hash of its
    JSON that [library-go] keeps in an annotation, [defaulted] what the API server makes
    of a spec it is sent (the defaults). *)
Definition specHashAnnotation := "operator.openshift.io/spec-hash".

(** [resourcemerge.MergeMap], for keys that do not end in a hyphen *)
Definition mergeMap (existing required : gmap string string) : gmap string string := required ∪ existing.
Definition mergeMapModified (existing required : gmap string string) : bool :=
  negb (bool_decide (map_Forall (λ k v, existing !! k = Some v) required)).

Section workload.
Context {Spec : Type} `{EqDecision Spec} (specHash : Spec → string) (defaulted : Spec → Spec).
(** Whether the server also counts changes of the annotations as a new generation: it
    does for deployments, and not for daemon sets. *)
Context (byAnnotations : bool).

(** The object in the cluster. *)
Record Workload := mkWorkload {
  wl_Labels : gmap string string;
  wl_Annotations : gmap string string;
  (** owner references: the rest of each, by group, kind and name *)
  wl_Owners : gmap string string;
  wl_Generation : Z;
  wl_Spec : Spec;
}.

(** The object that is applied. *)
Record Required := mkRequired {
  rq_Labels : gmap string string;
  rq_Annotations : gmap string string;
  rq_Owners : gmap string string;
  rq_Spec : Spec;
}.

(** The server on a write *)
Definition nextGeneration (annotations : gmap string string) (spec : Spec) (old : Workload) : Z :=
  if bool_decide (spec = wl_Spec old)
     && (negb byAnnotations || bool_decide (annotations = wl_Annotations old))
  then wl_Generation old else wl_Generation old + 1.

Definition updated (labels annotations owners : gmap string string) (spec : Spec) (old : Workload) : Workload :=
  mkWorkload labels annotations owners (nextGeneration annotations (defaulted spec) old) (defaulted spec).

(** [SetSpecHashAnnotation] *)
Definition withHash (rq : Required) : gmap string string :=
  <[specHashAnnotation := specHash (rq_Spec rq)]> (rq_Annotations rq).

(** [resourceapply.ApplyDeployment], without failures: the object and whether it was
    written *)
Definition ApplyWorkload (rq : Required) (expectedGeneration : Z) (existing : option Workload) : Workload * bool :=
  let annotations := withHash rq in
  match existing with
  | None => (mkWorkload (rq_Labels rq) annotations (rq_Owners rq) 1 (defaulted (rq_Spec rq)), true)
  | Some e =>
      let modified := mergeMapModified (wl_Labels e) (rq_Labels rq)
                      || mergeMapModified (wl_Annotations e) annotations
                      || mergeMapModified (wl_Owners e) (rq_Owners rq) in
      if negb modified && bool_decide (wl_Generation e = expectedGeneration) then (e, false)
      else (updated (mergeMap (wl_Labels e) (rq_Labels rq)) (mergeMap (wl_Annotations e) annotations)
              (mergeMap (wl_Owners e) (rq_Owners rq)) (rq_Spec rq) e, true)
  end.

(** [applyDeployment], [applyDaemonSet]: with the tracked generation, -1 when there is
    none; the new tracked generation *)
Definition applyTracked (rq : Required) (tracked : option Z) (existing : option Workload) :
    Workload * bool * option Z :=
  let '(result, modified) := ApplyWorkload rq (default (-1) tracked) existing in
  (result, modified, Some (wl_Generation result)).

(** *** In a cluster with others *)
Record Tracked := mkTracked { tr_Object : option Workload; tr_Generation : option Z }.

(** The operator's annotation is not there, or it is not the hash of a spec. *)
Definition no_hash (annotations : gmap string string) : Prop :=
  ∀ spec, annotations !! specHashAnnotation ≠ Some (specHash spec).

(** What others do: write spec, labels, annotations and owners at will, in one request,
    delete the object, or create another one.  They may keep, remove or garble the
    operator's annotation; they do not put the hash of a spec into it. *)
Inductive external_step : Tracked → Tracked → Prop :=
| ws_write e g labels annotations owners spec :
    annotations !! specHashAnnotation = wl_Annotations e !! specHashAnnotation ∨ no_hash annotations →
    external_step (mkTracked (Some e) g)
      (mkTracked (Some (mkWorkload labels annotations owners (nextGeneration annotations spec e) spec)) g)
| ws_delete o g : external_step (mkTracked o g) (mkTracked None g)
| ws_create g e :
    no_hash (wl_Annotations e) → wl_Generation e = 1 →
    external_step (mkTracked None g) (mkTracked (Some e) g).

(** In between, the operator applies an object (a failed apply changes nothing), or
    restarts and forgets. *)
Inductive world_step : Tracked → Tracked → Prop :=
| ws_apply rq o g :
    world_step (mkTracked o g)
      (let '(o', _, g') := applyTracked rq g o in mkTracked (Some o') g')
| ws_restart o g : world_step (mkTracked o g) (mkTracked o None)
| ws_external s s' : external_step s s' → world_step s s'.

Definition world_reachable : Tracked → Prop := rtc world_step (mkTracked None None).

(** An object that carries the hash of a spec is at least as new as the tracked
    generation, and at that generation it has a spec of that hash. *)
Definition tracked_inv (s : Tracked) : Prop :=
  (∀ e, tr_Object s = Some e → 1 ≤ wl_Generation e)
  ∧ ∀ e g hashed, tr_Object s = Some e → tr_Generation s = Some g →
    wl_Annotations e !! specHashAnnotation = Some (specHash hashed) →
    g ≤ wl_Generation e
    ∧ (g = wl_Generation e → ∃ spec, specHash hashed = specHash spec ∧ wl_Spec e = defaulted spec).

Lemma withHash_lookup rq : withHash rq !! specHashAnnotation = Some (specHash (rq_Spec rq)).
Proof. apply lookup_insert_eq. Qed.

(** After an apply the object has the hash and, at least if it was written, the spec. *)
Lemma mergeMapModified_false existing required k v :
  mergeMapModified existing required = false → required !! k = Some v → existing !! k = Some v.
Proof.
  unfold mergeMapModified. intros H%negb_false_iff%bool_decide_eq_true Hk. exact (H k v Hk).
Qed.

Lemma mergeMap_not_modified existing required :
  mergeMapModified (mergeMap existing required) required = false.
Proof.
  unfold mergeMapModified, mergeMap. apply negb_false_iff, bool_decide_eq_true.
  intros k v Hk. by apply lookup_union_Some_l.
Qed.

Lemma mergeMapModified_refl required : mergeMapModified required required = false.
Proof. apply negb_false_iff, bool_decide_eq_true. by intros k v Hk. Qed.

(** What an apply leaves behind. *)
Lemma ApplyWorkload_result rq g o :
  (ApplyWorkload rq g o).2 = true →
  wl_Spec (ApplyWorkload rq g o).1 = defaulted (rq_Spec rq)
  ∧ wl_Annotations (ApplyWorkload rq g o).1 !! specHashAnnotation = Some (specHash (rq_Spec rq)).
Proof.
  unfold ApplyWorkload. destruct o as [e|]; cbn [fst snd].
  - destruct (negb _ && _); [done|]. intros _. split; [done|]. cbn.
    apply lookup_union_Some_l, withHash_lookup.
  - intros _. split; [done|]. apply withHash_lookup.
Qed.

Lemma ApplyWorkload_skip rq g o :
  (ApplyWorkload rq g o).2 = false →
  ∃ e, o = Some e ∧ (ApplyWorkload rq g o).1 = e ∧ wl_Generation e = g
  ∧ wl_Annotations e !! specHashAnnotation = Some (specHash (rq_Spec rq)).
Proof.
  unfold ApplyWorkload. destruct o as [e|]; [|done].
  destruct (mergeMapModified (wl_Labels e) _) eqn:E1; cbn [orb negb andb]; [done|].
  destruct (mergeMapModified (wl_Annotations e) _) eqn:E2; cbn [orb negb andb]; [done|].
  destruct (mergeMapModified (wl_Owners e) _) eqn:E3; cbn [orb negb andb]; [done|].
  case_bool_decide; [|done]. intros _. exists e. do 3 (split; [done|]).
  eapply mergeMapModified_false; [exact E2|]. apply withHash_lookup.
Qed.

Lemma nextGeneration_le annotations spec old : wl_Generation old ≤ nextGeneration annotations spec old.
Proof. unfold nextGeneration. destruct (_ && _); lia. Qed.

(** A write that keeps the generation keeps the spec. *)
Lemma nextGeneration_same annotations spec old :
  nextGeneration annotations spec old = wl_Generation old → spec = wl_Spec old.
Proof. unfold nextGeneration. case_bool_decide; [done|]. cbn [andb]. lia. Qed.

Lemma ApplyWorkload_generation rq g o :
  (∀ e, o = Some e → 1 ≤ wl_Generation e) → 1 ≤ wl_Generation (ApplyWorkload rq g o).1.
Proof.
  unfold ApplyWorkload. destruct o as [e|]; [|done]. intros H. specialize (H e eq_refl).
  destruct (negb _ && _); [done|]. etrans; [exact H|]. apply nextGeneration_le.
Qed.

Lemma tracked_inv_apply rq o g :
  tracked_inv (mkTracked o g) →
  tracked_inv (let '(o', _, g') := applyTracked rq g o in mkTracked (Some o') g').
Proof.
  intros [Hpos Hi]. cbn in Hpos, Hi.
  unfold applyTracked. pose proof (ApplyWorkload_generation rq (default (-1) g) o Hpos) as Hgen.
  destruct (ApplyWorkload rq (default (-1) g) o) as [r m] eqn:E. split; cbn [tr_Object tr_Generation].
  { by intros e [= <-]. }
  intros e' g' h [= ->] [= <-] Hh. split; [done|]. intros _. destruct m.
  - destruct (ApplyWorkload_result rq (default (-1) g) o) as [H1 H2]; rewrite E in *; [done|].
    cbn in *. exists (rq_Spec rq). split; [congruence|done].
  - destruct (ApplyWorkload_skip rq (default (-1) g) o) as (e & -> & He & Hg & Hann); rewrite E in *; [done|].
    cbn [fst] in He. subst e'. destruct g as [g|]; cbn in Hg.
    + destruct (Hi e g h eq_refl eq_refl Hh) as [_ Hspec]. by apply Hspec.
    + specialize (Hpos e eq_refl). lia.
Qed.

Lemma tracked_inv_restart o g : tracked_inv (mkTracked o g) → tracked_inv (mkTracked o None).
Proof. intros [Hpos _]. split; [done|]. by intros. Qed.

Lemma tracked_inv_external s s' : external_step s s' → tracked_inv s → tracked_inv s'.
Proof.
  intros Hs [Hpos Hi]. destruct Hs as [e g labels ann owners spec Ha|o g|g e Ha Hg].
  - pose proof (nextGeneration_le ann spec e) as Hle. specialize (Hpos e eq_refl). split; cbn.
    + intros e' [= <-]. cbn. lia.
    + intros e' g' hashed [= <-] [= ->] Hh. cbn in *. destruct Ha as [Ha|Ha]; [|by apply Ha in Hh].
      rewrite Ha in Hh. destruct (Hi e g' hashed eq_refl eq_refl Hh) as [Hg Hs]. split; [lia|].
      intros E. rewrite (nextGeneration_same ann spec e) by lia. apply Hs. lia.
  - split; by intros.
  - split; cbn.
    + intros e' [= <-]. lia.
    + intros e' g' hashed [= <-] _ Hh. by apply Ha in Hh.
Qed.

Lemma tracked_inv_start : tracked_inv (mkTracked None None).
Proof. split; by intros. Qed.

Lemma tracked_inv_reachable s : world_reachable s → tracked_inv s.
Proof.
  intros H. apply (rtc_ind_r (λ s, tracked_inv s) (R := world_step) (mkTracked None None)).
  - exact tracked_inv_start.
  - intros y z _ Hyz Hy. destruct Hyz as [rq o g|o g|y z Hyz].
    + by apply tracked_inv_apply.
    + by eapply tracked_inv_restart.
    + by eapply tracked_inv_external.
  - exact H.
Qed.

(** What is required of the object, as the API server keeps it *)
Definition conforms (rq : Required) (e : Workload) : Prop :=
  wl_Spec e = defaulted (rq_Spec rq)
  ∧ map_Forall (λ k v, wl_Labels e !! k = Some v) (rq_Labels rq)
  ∧ map_Forall (λ k v, wl_Annotations e !! k = Some v) (withHash rq)
  ∧ map_Forall (λ k v, wl_Owners e !! k = Some v) (rq_Owners rq).

Lemma map_Forall_modified existing required :
  mergeMapModified existing required = false ↔ map_Forall (λ k v, existing !! k = Some v) required.
Proof. unfold mergeMapModified. by rewrite negb_false_iff, bool_decide_eq_true. Qed.

(** After an apply the metadata are the required ones, whether it wrote or not. *)
Lemma ApplyWorkload_meta rq g o :
  let e := (ApplyWorkload rq g o).1 in
  mergeMapModified (wl_Labels e) (rq_Labels rq) = false
  ∧ mergeMapModified (wl_Annotations e) (withHash rq) = false
  ∧ mergeMapModified (wl_Owners e) (rq_Owners rq) = false.
Proof.
  unfold ApplyWorkload. destruct o as [e|]; cbn -[mergeMapModified].
  - destruct (mergeMapModified (wl_Labels e) _) eqn:E1, (mergeMapModified (wl_Annotations e) _) eqn:E2,
      (mergeMapModified (wl_Owners e) _) eqn:E3; cbn [orb negb andb];
      try (split_and!; apply mergeMap_not_modified).
    case_bool_decide; [done|]. split_and!; apply mergeMap_not_modified.
  - split_and!; apply mergeMapModified_refl.
Qed.

(** Applying an object to what an earlier apply left writes nothing. *)
Lemma applyTracked_rests rq e :
  mergeMapModified (wl_Labels e) (rq_Labels rq) = false →
  mergeMapModified (wl_Annotations e) (withHash rq) = false →
  mergeMapModified (wl_Owners e) (rq_Owners rq) = false →
  applyTracked rq (Some (wl_Generation e)) (Some e) = (e, false, Some (wl_Generation e)).
Proof.
  intros Hl Ha Ho. unfold applyTracked, ApplyWorkload. cbn [default from_option id].
  rewrite Hl, Ha, Ho. cbn [orb negb andb]. by rewrite bool_decide_eq_true_2.
Qed.

Lemma applyTracked_conforms s rq :
  (∀ a b, specHash a = specHash b → a = b) → tracked_inv s →
  let '(e, _, g) := applyTracked rq (tr_Generation s) (tr_Object s) in
  conforms rq e ∧ applyTracked rq g (Some e) = (e, false, g).
Proof.
  intros hash_inj. destruct s as [o g]. cbn [tr_Object tr_Generation]. intros [Hpos Hi]. cbn in Hpos, Hi.
  unfold applyTracked at 1.
  pose proof (ApplyWorkload_result rq (default (-1) g) o) as Hres.
  pose proof (ApplyWorkload_skip rq (default (-1) g) o) as Hskip.
  pose proof (ApplyWorkload_meta rq (default (-1) g) o) as (Hl & Ha & Ho).
  destruct (ApplyWorkload rq (default (-1) g) o) as [r m] eqn:E. cbn [fst snd] in *.
  split; [|by apply applyTracked_rests].
  split; [|by split_and!; apply map_Forall_modified].
  destruct m; [by apply Hres|]. destruct Hskip as (e & -> & -> & Hg & Hann); [done|].
  destruct g as [g|]; cbn in Hg; [|specialize (Hpos e eq_refl); lia].
  destruct (Hi e g _ eq_refl eq_refl Hann) as [_ Hs]. destruct (Hs (eq_sym Hg)) as (spec & Hh & ->).
  f_equal. by symmetry; apply hash_inj.
Qed.

(** The annotation is trusted: an object with the required metadata and the hash of
    the required spec at the tracked generation, as somebody can recreate it, is left
    as it is, whatever its spec. *)
Theorem forged_hash_not_repaired rq spec :
  let e := mkWorkload (rq_Labels rq) (withHash rq) (rq_Owners rq) 1 spec in
  applyTracked rq (Some 1) (Some e) = (e, false, Some 1).
Proof. apply (applyTracked_rests rq (mkWorkload _ _ _ 1 spec)); apply mergeMapModified_refl. Qed.

(** Applying a deployment or a daemon set converges and then rests: in a cluster
    where others change, delete and recreate the object, without putting the hash of a
    spec into the operator's annotation, and the operator restarts, after every apply the object has the spec (with the server's defaults), labels,
    annotations and owner that are required, also when nothing was written; and
    applying it again writes nothing. *)
Theorem applyTracked_converges s rq :
  (∀ a b, specHash a = specHash b → a = b) → world_reachable s →
  let '(e, _, g) := applyTracked rq (tr_Generation s) (tr_Object s) in
  conforms rq e ∧ applyTracked rq g (Some e) = (e, false, g).
Proof. intros hash_inj Hr%tracked_inv_reachable. by apply applyTracked_conforms. Qed.
End workload.

(** ** Services *)
Module service.
Import objects.

(** [ServiceSpec]: what the operator manages, and the rest ([clusterIP], ...) *)
Record ServiceSpec := mkServiceSpec {
  ss_Ports : list ServicePort;
  ss_Selector : gmap string string;
  ss_Type : string;
  ss_Rest : string;
}.

Definition orDefault (s d : string) : string := if bool_decide (s = "") then d else s.

(** One position of [servicePortsMatch] *)
Definition portMatches (existing required : ServicePort) : bool :=
  bool_decide (sp_Name existing = sp_Name required)
  && bool_decide (orDefault (sp_Protocol existing) "TCP" = orDefault (sp_Protocol required) "TCP")
  && bool_decide (sp_Port existing = sp_Port required)
  && bool_decide (sp_TargetPort existing = sp_TargetPort required).

Fixpoint allMatch (existing required : list ServicePort) : bool :=
  match existing, required with
  | e :: existing', r :: required' => portMatches e r && allMatch existing' required'
  | _, _ => true
  end.

Definition servicePortsMatch (existing required : list ServicePort) : bool :=
  (length existing =? length required)%nat && allMatch existing required.

Definition serviceSpecMatchesRequired (existing required : ServiceSpec) : bool :=
  bool_decide (ss_Selector existing = ss_Selector required)
  && bool_decide (orDefault (ss_Type existing) "ClusterIP" = orDefault (ss_Type required) "ClusterIP")
  && servicePortsMatch (ss_Ports existing) (ss_Ports required).

(** The API server fills in the protocol, the target port and the type, and keeps what
    it assigned. *)
Definition defaultPort (p : ServicePort) : ServicePort :=
  mkPort (sp_Name p) (sp_Port p) (if bool_decide (sp_TargetPort p = 0) then sp_Port p else sp_TargetPort p)
    (orDefault (sp_Protocol p) "TCP").
Definition defaultSpec (assigned : string) (s : ServiceSpec) : ServiceSpec :=
  mkServiceSpec (defaultPort <$> ss_Ports s) (ss_Selector s) (orDefault (ss_Type s) "ClusterIP") assigned.

(** [applyService], without failures: what is stored and whether it was written;
    [assigned] is what the server assigns to a new service *)
Definition applyService (assigned : string) (required : ServiceSpec) (existing : option ServiceSpec) :
    ServiceSpec * bool :=
  match existing with
  | None => (defaultSpec assigned required, true)
  | Some e =>
      if serviceSpecMatchesRequired e required then (e, false)
      else (defaultSpec (ss_Rest e) required, true)
  end.

(** Every port names the port it forwards to. *)
Definition targeted (s : ServiceSpec) : Prop := Forall (λ p, sp_TargetPort p ≠ 0) (ss_Ports s).

Lemma orDefault_idem s d : d ≠ "" → orDefault (orDefault s d) d = orDefault s d.
Proof. intros Hd. unfold orDefault. repeat case_bool_decide; congruence. Qed.

Lemma allMatch_default l : Forall (λ p, sp_TargetPort p ≠ 0) l → allMatch (defaultPort <$> l) l = true.
Proof.
  induction 1 as [|p l Hp Hl IH]; [done|]. cbn. rewrite IH. unfold portMatches, defaultPort. cbn.
  rewrite (bool_decide_eq_false_2 (sp_TargetPort p = 0)), orDefault_idem by done.
  by rewrite !bool_decide_eq_true_2 by done.
Qed.

Lemma defaultSpec_matches assigned s :
  targeted s → serviceSpecMatchesRequired (defaultSpec assigned s) s = true.
Proof.
  intros Ht. unfold serviceSpecMatchesRequired, servicePortsMatch, defaultSpec. cbn.
  rewrite orDefault_idem, !bool_decide_eq_true_2, length_fmap, Nat.eqb_refl by done.
  by rewrite allMatch_default.
Qed.

(** Applying a service settles: afterwards the ports, the selector and the type are
    the required ones, what the server assigned to an existing service is kept, and
    a second apply does not write, so that the watch on the service does not
    trigger the next reconcile.  (It relies on every port naming its target.) *)
Theorem applyService_settles assigned required existing :
  targeted required →
  let '(e, written) := applyService assigned required existing in
  serviceSpecMatchesRequired e required = true
  ∧ (∀ old, existing = Some old → ss_Rest e = ss_Rest old)
  ∧ applyService assigned required (Some e) = (e, false).
Proof.
  intros Ht. unfold applyService. destruct existing as [e|].
  - destruct (serviceSpecMatchesRequired e required) eqn:E.
    + split; [done|]. split; [by intros ? [= ->]|]. by rewrite E.
    + rewrite defaultSpec_matches by done. split; [done|]. split; [by intros ? [= ->]|done].
  - rewrite defaultSpec_matches by done. by split.
Qed.

(** The services of the operand. *)
Definition specOf (s : Service) : ServiceSpec :=
  mkServiceSpec (sv_Ports s) (list_to_map (sv_Selector s)) "" "".

Lemma buildService_targeted ns name : targeted (specOf (buildService ns name)).
Proof. by repeat constructor. Qed.
End service.

(** ** [ApplyResource] *)

(** How an object is applied; every kind of object of the operand is handled. *)
Inductive Applier : Set := ByGeneration | ByComparison | ByLibrary.

Definition ApplyResource (k : Kind) : Applier :=
  match k with
  | KDeployment | KDaemonSet => ByGeneration
  | KService => ByComparison
  | KMutatingWebhookConfiguration | KRole | KRoleBinding | KServiceAccount | KClusterRole
  | KClusterRoleBinding | KServiceMonitor | KPrometheusRule => ByLibrary
  end.

(** ** [IsResourceAvailable] *)

(** The answer and what is remembered; [listed]: listing the resource succeeds now *)
Definition IsResourceAvailable (resource : string) (listed : bool) (known : gmap string bool) :
    bool * gmap string bool :=
  match known !! resource with
  | Some v => (v, known)
  | None => (listed, <[resource := listed]> known)
  end.

(** The first answer is the answer for the life of the process. *)
Lemma IsResourceAvailable_sticky resource listed listed' known :
  let '(v, known') := IsResourceAvailable resource listed known in
  IsResourceAvailable resource listed' known' = (v, known').
Proof.
  unfold IsResourceAvailable. destruct (known !! resource) as [v|] eqn:E; [by rewrite E|].
  by rewrite lookup_insert_eq.
Qed.
