(* ===== verification/Watches.v ===== *)
(** * What wakes the operator up

    [cppcUpdatePredicate] and [SetupWithManager] of
    [clusterpodplacementconfig_controller.go]: which events of which objects put
    the ClusterPodPlacementConfig into the work queue.  The loop around them
    (events, queue, reconcile, and the workloads that [Apply] writes) is a
    transition system, in which an event arrives together with the change it
    reports; the theorem is that an empty queue means that the cluster is as the
    configuration wants it. *)
From stdpp Require Import base gmap strings list relations.
From S2P Require Import Prelude GoStd Api LabelSelectors Prog Operator Manifests Apply.

Local Open Scope Z_scope.

(** ** Events *)

(** An object as the predicates see it; the rest is labels, annotations and status. *)
Record Watched (S : Type) := mkWatched {
  wa_Generation : Z;
  wa_DeletionTimestamp : option Z;
  wa_Finalizers : list string;
  wa_Spec : S;
  wa_Rest : string;
}.
Arguments mkWatched {S}.
Arguments wa_Generation {S} _.
Arguments wa_DeletionTimestamp {S} _.
Arguments wa_Finalizers {S} _.
Arguments wa_Spec {S} _.
Arguments wa_Rest {S} _.

Inductive WatchEvent (O : Type) := Created (o : O) | Updated (old new : O) | Deleted (o : O).
Arguments Created {O}.
Arguments Updated {O}.
Arguments Deleted {O}.

Definition cppcUpdatePredicate {S} (e : WatchEvent (Watched S)) : bool :=
  match e with
  | Created _ | Deleted _ => true
  | Updated old new =>
      if negb (bool_decide (wa_Generation old = wa_Generation new)) then true
      else if negb (bool_decide (wa_DeletionTimestamp old = wa_DeletionTimestamp new)) then true
      else if negb (bool_decide (wa_Finalizers old = wa_Finalizers new)) then true
      else false
  end.

(** The predicate of the watch on PodPlacementConfigs *)
Definition ppcPredicate {O} (e : WatchEvent O) : bool :=
  match e with Created _ | Deleted _ => true | Updated _ _ => false end.

(** [predicate.GenerationChangedPredicate] *)
Definition generationChanged {S} (e : WatchEvent (Watched S)) : bool :=
  match e with
  | Created _ | Deleted _ => true
  | Updated old new => negb (bool_decide (wa_Generation old = wa_Generation new))
  end.

(** ** [SetupWithManager] *)
Definition SingletonResourceObjectName := "cluster".

(** The map function of the watch on PodPlacementConfigs *)
Definition mapPPCToSingleton {O} (e : WatchEvent O) : list string :=
  if ppcPredicate e then [SingletonResourceObjectName] else [].

Inductive OwnsPredicate := EveryEvent | GenerationChanged.

(** The [Owns] of the controller; the last two if the monitoring resources are there *)
Definition owns (monitoring : bool) : list (Kind * OwnsPredicate) :=
  [ (KDeployment, EveryEvent); (KDaemonSet, EveryEvent); (KService, EveryEvent);
    (KClusterRole, EveryEvent); (KClusterRoleBinding, EveryEvent); (KRole, EveryEvent);
    (KRoleBinding, EveryEvent); (KServiceAccount, EveryEvent);
    (KMutatingWebhookConfiguration, GenerationChanged) ]
  ++ (if monitoring then [ (KServiceMonitor, GenerationChanged); (KPrometheusRule, GenerationChanged) ] else []).

Definition watchedKind (monitoring : bool) (k : Kind) : bool :=
  existsb (λ p, bool_decide (p.1 = k)) (owns monitoring).

(** ** The controller of the [PodPlacementConfig]s

    It is woken up by their events and does nothing: webhook and pod reconciler read the
    configurations themselves. *)
Definition PodPlacementConfig_requests {O} (name : O → string) (e : WatchEvent O) : list string :=
  match e with Created o | Deleted o => [name o] | Updated _ o => [name o] end.
Definition PodPlacementConfig_Reconcile (name : string) : prog Call (option GoError) := Return None.

(** ** The control loop *)
Section loop.
Context {CSpec Spec : Type} `{EqDecision Spec} (specHash : Spec → string) (defaulted : Spec → Spec).
Context (byAnnotations : bool).
(** What the builders make of the configuration's spec, and the controller reference
    that [SetControllerReference] adds *)
Context (desired : CSpec → @Required Spec) (ownerKey ownerRef : string).

Record Loop := mkLoop {
  lp_Config : Watched CSpec;
  lp_Workload : @Tracked Spec;
  lp_Queued : bool;
}.

Definition loop_start (c : Watched CSpec) : Loop := mkLoop c (mkTracked None None) true.

(** [handler.EnqueueRequestForOwner], for an event of the object before and after *)
Definition ownedBy (o : option (@Workload Spec)) : bool :=
  match o with
  | Some e => bool_decide (wl_Owners e !! ownerKey = Some ownerRef)
  | None => false
  end.
Definition enqueued (o o' : option (@Workload Spec)) : bool := ownedBy o || ownedBy o'.

(** [reconcile] of the workload *)
Definition reconcileWorkload (s : Loop) : Loop :=
  let '(e, modified, g) := applyTracked specHash defaulted byAnnotations (desired (wa_Spec (lp_Config s)))
                             (tr_Generation (lp_Workload s)) (tr_Object (lp_Workload s)) in
  mkLoop (lp_Config s) (mkTracked (Some e) g) modified.

Inductive loop_step : Loop → Loop → Prop :=
(** the configuration is edited; a spec changes together with its generation *)
| lp_edit c c' w q :
    (wa_Generation c = wa_Generation c' → wa_Spec c = wa_Spec c') → wa_DeletionTimestamp c' = None →
    loop_step (mkLoop c w q) (mkLoop c' w (q || cppcUpdatePredicate (Updated c c')))
(** others change the workload; every event of an owned object counts *)
| lp_drift c w w' q :
    external_step specHash byAnnotations w w' →
    loop_step (mkLoop c w q) (mkLoop c w' (q || enqueued (tr_Object w) (tr_Object w')))
(** the operator takes the request from the queue; its own write is an event again *)
| lp_reconcile s : lp_Queued s = true → loop_step s (reconcileWorkload s)
(** the operator restarts, and lists the configuration *)
| lp_restart c w q : loop_step (mkLoop c w q) (mkLoop c (mkTracked (tr_Object w) None) true).

Definition loop_inv (s : Loop) : Prop :=
  tracked_inv specHash defaulted (lp_Workload s)
  ∧ (lp_Queued s = false →
     ∃ e, tr_Object (lp_Workload s) = Some e
          ∧ conforms specHash defaulted (desired (wa_Spec (lp_Config s))) e).

(** A rejected update leaves everything the controller acts on. *)
Lemma cppcUpdatePredicate_rejects (old new : Watched CSpec) :
  cppcUpdatePredicate (Updated old new) = false ↔
  wa_Generation old = wa_Generation new
  ∧ wa_DeletionTimestamp old = wa_DeletionTimestamp new ∧ wa_Finalizers old = wa_Finalizers new.
Proof. cbn. repeat case_bool_decide; naive_solver. Qed.

Context (hash_inj : ∀ a b, specHash a = specHash b → a = b).
Context (desired_owned : ∀ c, rq_Owners (desired c) !! ownerKey = Some ownerRef).

Lemma conforms_owned c e : conforms specHash defaulted (desired c) e → ownedBy (Some e) = true.
Proof using desired_owned.
  intros (_ & _ & _ & Ho). apply bool_decide_eq_true_2. apply (Ho ownerKey), desired_owned.
Qed.

(** What a reconcile leaves: the invariant, the conforming object, and silence the
    second time. *)
Lemma reconcileWorkload_ok s :
  loop_inv s →
  loop_inv (reconcileWorkload s)
  ∧ (∃ e, tr_Object (lp_Workload (reconcileWorkload s)) = Some e
          ∧ conforms specHash defaulted (desired (wa_Spec (lp_Config s))) e)
  ∧ lp_Config (reconcileWorkload s) = lp_Config s
  ∧ lp_Queued (reconcileWorkload (reconcileWorkload s)) = false.
Proof using hash_inj.
  destruct s as [c [o g] q]. intros [Ht _]. unfold reconcileWorkload. cbn in *.
  pose proof (applyTracked_conforms specHash defaulted byAnnotations (mkTracked o g) (desired (wa_Spec c)) hash_inj Ht) as Hc.
  pose proof (tracked_inv_apply specHash defaulted byAnnotations (desired (wa_Spec c)) o g Ht) as Ht'.
  cbn in Hc. destruct (applyTracked specHash defaulted byAnnotations (desired (wa_Spec c)) g o) as [[e m] g'].
  destruct Hc as [Hc Hrest]. cbn. rewrite Hrest. split_and!; eauto. split; cbn; eauto.
Qed.

Lemma loop_inv_step s s' : loop_step s s' → loop_inv s → loop_inv s'.
Proof using hash_inj desired_owned.
  intros Hs Hi. destruct Hs as [c c' w q Hg _|c w w' q He|s _|c w q].
  - destruct Hi as [Ht Hc]. cbn in *. split; [done|]. cbn.
    intros [Hq Hp]%orb_false_elim. apply cppcUpdatePredicate_rejects in Hp as (Hgen & _ & _).
    rewrite <-(Hg Hgen). by apply Hc.
  - destruct Hi as [Ht Hc]. split; cbn in *; [by eapply tracked_inv_external|].
    intros [Hq Hp]%orb_false_elim. destruct (Hc Hq) as (e & Ho & Hconf).
    apply conforms_owned in Hconf. unfold enqueued in Hp. rewrite Ho, Hconf in Hp. done.
  - by apply reconcileWorkload_ok.
  - destruct Hi as [Ht _]. split; [|done]. cbn in *. destruct w as [o g]. by eapply tracked_inv_restart.
Qed.

Lemma loop_inv_reachable c s : rtc loop_step (loop_start c) s → loop_inv s.
Proof using hash_inj desired_owned.
  intros H. apply (rtc_ind_r (λ s, loop_inv s) (R := loop_step) (loop_start c)).
  - split; [exact (tracked_inv_start specHash defaulted)|done].
  - intros y z _ Hyz. by apply loop_inv_step.
  - exact H.
Qed.

(** C32: the operator notices and repairs.  Edits of the configuration, restarts and
    what others do to the workload interleave at will; others may write its spec and
    metadata, delete it and recreate it, and keep, remove or garble the spec-hash
    annotation of the operator.  It is assumed that others do not themselves put
    the hash of a spec into that annotation (a forged one is trusted, see
    [forged_hash_not_repaired]), that the hash has no collisions, that the objects to
    be applied carry the controller reference, that the configuration is not deleted
    and its generation changes with its spec, and that an event arrives together with
    the change it reports.  Then, when nothing
    is queued, the workload has the spec, labels, annotations and owner that the
    current configuration asks for; and from every state two reconciles without
    interference get there: the first brings the workload about, the second writes
    nothing and leaves the queue empty. *)
Theorem operator_repairs c s :
  rtc loop_step (loop_start c) s →
  (lp_Queued s = false →
   ∃ e, tr_Object (lp_Workload s) = Some e
        ∧ conforms specHash defaulted (desired (wa_Spec (lp_Config s))) e)
  ∧ (∃ e, tr_Object (lp_Workload (reconcileWorkload s)) = Some e
          ∧ conforms specHash defaulted (desired (wa_Spec (lp_Config s))) e)
  ∧ lp_Queued (reconcileWorkload (reconcileWorkload s)) = false
  ∧ lp_Workload (reconcileWorkload (reconcileWorkload s)) = lp_Workload (reconcileWorkload s).
Proof using hash_inj desired_owned.
  intros Hr%loop_inv_reachable. pose proof (reconcileWorkload_ok s Hr) as (_ & H1 & _ & H2).
  split; [apply Hr|]. split; [done|]. split; [done|].
  destruct Hr as [Ht _]. destruct s as [c' [o g] q]. unfold reconcileWorkload. cbn in *.
  pose proof (applyTracked_conforms specHash defaulted byAnnotations (mkTracked o g) (desired (wa_Spec c')) hash_inj Ht) as Hc.
  cbn in Hc. destruct (applyTracked specHash defaulted byAnnotations (desired (wa_Spec c')) g o) as [[e m] g'].
  destruct Hc as [_ Hrest]. cbn. by rewrite Hrest.
Qed.
End loop.

(** ** Nothing that is applied goes unwatched

    Whether the monitoring resources are there is asked once and remembered, so that
    the watches and the objects that are applied later agree. *)
Section watched.
Context (Namespace Image : string) (Getenv : string → string) (logVerbosity minor : Z).
Context (selector : option LabelSelector).

Definition kindOf (o : objects.Obj) : Kind := ref_Kind (mf_Ref (objects.erase Namespace o)).

(** The objects that [reconcile] applies *)
Definition appliedObjects (monitoring : bool) : list objects.Obj :=
  List.filter (λ o, monitoring || negb (bool_decide (kindOf o ∈ [KServiceMonitor; KPrometheusRule])))
    (objects.allObjects Namespace Image Getenv logVerbosity minor selector).

Lemma applied_watched monitoring :
  forallb (λ o, watchedKind monitoring (kindOf o)) (appliedObjects monitoring) = true.
Proof.
  unfold appliedObjects, objects.allObjects, objects.podPlacementObjects.
  destruct (objects.sccFor minor) as [scc se]. destruct monitoring, se; vm_compute; reflexivity.
Qed.
End watched.

(** The set-up of the watches and every later reconcile agree on the monitoring
    resources, whatever the server answers in between. *)
Lemma monitoring_agrees resource listed listed' known :
  let '(atSetup, known') := IsResourceAvailable resource listed known in
  (IsResourceAvailable resource listed' known').1 = atSetup.
Proof.
  pose proof (IsResourceAvailable_sticky resource listed listed' known) as H.
  destruct (IsResourceAvailable resource listed known) as [v known']. by rewrite H.
Qed.
