(* ===== verification/Main.v ===== *)
(** * The binaries

    [cmd/main.go] and [cmd/enoexec-daemon/main.go]: the flags, which of the
    components a process runs, under which leader election, and in which order;
    the start of the process in [pkg/utils/runtime.go] and the conversion of log
    levels in [pkg/utils/utils.go].  The flags are read with Go's [flag] package
    ([parseOne]) and [strconv.ParseInt(s, 0, 64)]; flags that other packages
    register on the same flag set (klog, controller-runtime) are a parameter. *)
From Stdlib Require Import Ascii.
From stdpp Require Import base gmap strings list.
From S2P Require Import Prelude GoStd Api Status.

(** ** Integers of Go *)
Definition int64 (z : Z) : Z := ((z + 2 ^ 63) mod 2 ^ 64 - 2 ^ 63)%Z.
Definition int8 (z : Z) : Z := ((z + 2 ^ 7) mod 2 ^ 8 - 2 ^ 7)%Z.

(** [strconv.underscoreOK], after the sign: [i] is the class of the last character,
    [hex] whether letters are digits. *)
Inductive Seen := Begin | Digit | Underscore | Other.

Definition isDigit (c : ascii) : bool := let n := nat_of_ascii c in (48 <=? n) && (n <=? 57).
Definition lower (c : ascii) : ascii :=
  let n := nat_of_ascii c in if (65 <=? n) && (n <=? 90) then ascii_of_nat (n + 32) else c.
Definition hexLetter (c : ascii) : bool := let n := nat_of_ascii (lower c) in (97 <=? n) && (n <=? 102).

Fixpoint underscoreLoop (hex : bool) (i : Seen) (s : string) : bool :=
  match s with
  | EmptyString => negb (match i with Underscore => true | _ => false end)
  | String c s' =>
      if isDigit c || (hex && hexLetter c) then underscoreLoop hex Digit s'
      else if bool_decide (c = "_"%char)
      then match i with Digit => underscoreLoop hex Underscore s' | _ => false end
      else match i with Underscore => false | _ => underscoreLoop hex Other s' end
  end.

(** The base of a literal and its digits, as base 0 reads the prefix *)
Definition literalBase (s : string) : Z * string :=
  match s with
  | String "0" (String c (String _ _ as s'')) =>
      if bool_decide (lower c = "b"%char) then (2%Z, s'')
      else if bool_decide (lower c = "o"%char) then (8%Z, s'')
      else if bool_decide (lower c = "x"%char) then (16%Z, s'')
      else (8%Z, String c s'')
  | String "0" (String _ _ as s') => (8%Z, s')
  | String "0" "" => (8%Z, "")
  | _ => (10%Z, s)
  end.

Definition underscoreOK (s : string) : bool :=
  match s with
  | String "0" (String c s') =>
      if bool_decide (lower c = "b"%char) || bool_decide (lower c = "o"%char) || bool_decide (lower c = "x"%char)
      then underscoreLoop (bool_decide (lower c = "x"%char)) Digit s'
      else underscoreLoop false Begin s
  | _ => underscoreLoop false Begin s
  end.

Definition digitOf (c : ascii) : option Z :=
  if isDigit c then Some (Z.of_nat (nat_of_ascii c) - 48)%Z
  else let n := Z.of_nat (nat_of_ascii (lower c)) in
       if ((97 <=? n) && (n <=? 122))%Z then Some (n - 87)%Z else None.

Fixpoint digitsIn (base acc : Z) (s : string) : option Z :=
  match s with
  | EmptyString => Some acc
  | String c s' =>
      if bool_decide (c = "_"%char) then digitsIn base acc s'
      else d ← digitOf c; if (d <? base)%Z then digitsIn base (base * acc + d)%Z s' else None
  end.

(** [strconv.ParseInt(s, 0, 64)]: [None] is the syntax or the range error. *)
Definition parseUintBase0 (s : string) : option Z :=
  match s with
  | "" => None
  | _ =>
      let '(base, ds) := literalBase s in
      n ← digitsIn base 0 ds;
      if has_char "_" s && negb (underscoreOK s) then None
      else if (n <? 2 ^ 64)%Z then Some n else None
  end.

Definition parseIntBase0 (s : string) : option Z :=
  let '(neg, u) := match s with
                   | String "+" s' => (false, parseUintBase0 s')
                   | String "-" s' => (true, parseUintBase0 s')
                   | _ => (false, parseUintBase0 s)
                   end in
  n ← u;
  if neg then if (n <=? 2 ^ 63)%Z then Some (- n)%Z else None
  else if (n <? 2 ^ 63)%Z then Some n else None.

(** [strconv.ParseBool] *)
Definition parseBool (s : string) : option bool :=
  if bool_decide (s ∈ ["1"; "t"; "T"; "true"; "TRUE"; "True"]) then Some true
  else if bool_decide (s ∈ ["0"; "f"; "F"; "false"; "FALSE"; "False"]) then Some false
  else None.

(** ** Flag sets ([flag] of Go's standard library) *)
Section flagset.
Context {F : Type}.

(** A flag: whether it is boolean, and [Value.Set] *)
Record Flag := mkFlag { fl_isBool : bool; fl_Set : string → F → option F }.

Inductive ParseResult :=
| Parsed (f : F) (rest : list string)
| ParseFailed.                          (** [ExitOnError]: the process ends *)

Definition cutAtEquals (s : string) : string * option string :=
  (fix go (first : bool) (s : string) :=
     match s with
     | EmptyString => ("", None)
     | String c s' =>
         if negb first && bool_decide (c = "="%char) then ("", Some s')
         else let '(n, v) := go false s' in (String c n, v)
     end) true s.

(** [FlagSet.Parse], by [FlagSet.parseOne] *)
Fixpoint parseFlags (lookup : string → option Flag) (args : list string) (f : F) : ParseResult :=
  match args with
  | [] => Parsed f []
  | s :: args' =>
      let body := match s with
                  | String "-" (String "-" "") => Some None
                  | String "-" (String "-" n) => Some (Some n)
                  | String "-" (String c n) => Some (Some (String c n))
                  | _ => None
                  end in
      match body with
      | None => Parsed f args
      | Some None => Parsed f args'
      | Some (Some name) =>
          match name with
          | String "-" _ | String "=" _ => ParseFailed
          | _ =>
              let '(name, value) := cutAtEquals name in
              match lookup name with
              | None => ParseFailed
              | Some fl =>
                  match fl_isBool fl, value, args' with
                  | true, v, _ =>
                      match fl_Set fl (from_option id "true" v) f with
                      | Some f' => parseFlags lookup args' f'
                      | None => ParseFailed
                      end
                  | false, Some v, _ =>
                      match fl_Set fl v f with
                      | Some f' => parseFlags lookup args' f'
                      | None => ParseFailed
                      end
                  | false, None, v :: args'' =>
                      match fl_Set fl v f with
                      | Some f' => parseFlags lookup args'' f'
                      | None => ParseFailed
                      end
                  | false, None, [] => ParseFailed
                  end
              end
          end
      end
  end.
End flagset.
Arguments Flag : clear implicits.
Arguments ParseResult : clear implicits.

(** ** [cmd/main.go] *)
Module manager.

(** The package variables that [bindFlags] binds *)
Record Flags := mkFlags {
  metricsAddr : string;
  probeAddr : string;
  certDir : string;
  globalPullSecretNamespace : string;
  globalPullSecretName : string;
  registryCertificatesConfigMapName : string;
  enableLeaderElection : bool;
  enableClusterPodPlacementConfigOperandWebHook : bool;
  enableClusterPodPlacementConfigOperandControllers : bool;
  enableENoExecEventControllers : bool;
  enableCPPCInformer : bool;
  enableOperator : bool;
  initialLogLevel : Z;
}.

Definition defaults : Flags :=
  mkFlags ":8080" ":8081" "/var/run/manager/tls" "openshift-config" "pull-secret"
    "image-registry-certificates" false false false false false false (ToZapLevelInt "Normal").

Definition stringVar (set : string → Flags → Flags) : Flag Flags := mkFlag false (λ v f, Some (set v f)).
Definition boolVar (set : bool → Flags → Flags) : Flag Flags :=
  mkFlag true (λ v f, b ← parseBool v; Some (set b f)).
Definition intVar (set : Z → Flags → Flags) : Flag Flags :=
  mkFlag false (λ v f, n ← parseIntBase0 v; Some (set n f)).

(** The flags of [bindFlags] *)
Definition flagTable : list (string * Flag Flags) :=
  [ ("metrics-bind-address", stringVar (λ v '(mkFlags a b c d e g h i j k l m n), mkFlags v b c d e g h i j k l m n));
    ("health-probe-bind-address", stringVar (λ v '(mkFlags a b c d e g h i j k l m n), mkFlags a v c d e g h i j k l m n));
    ("leader-elect", boolVar (λ v '(mkFlags a b c d e g h i j k l m n), mkFlags a b c d e g v i j k l m n));
    ("cert-dir", stringVar (λ v '(mkFlags a b c d e g h i j k l m n), mkFlags a b v d e g h i j k l m n));
    ("global-pull-secret-namespace", stringVar (λ v '(mkFlags a b c d e g h i j k l m n), mkFlags a b c v e g h i j k l m n));
    ("global-pull-secret-name", stringVar (λ v '(mkFlags a b c d e g h i j k l m n), mkFlags a b c d v g h i j k l m n));
    ("registry-certificates-configmap-name", stringVar (λ v '(mkFlags a b c d e g h i j k l m n), mkFlags a b c d e v h i j k l m n));
    ("enable-ppc-webhook", boolVar (λ v '(mkFlags a b c d e g h i j k l m n), mkFlags a b c d e g h v j k l m n));
    ("enable-ppc-controllers", boolVar (λ v '(mkFlags a b c d e g h i j k l m n), mkFlags a b c d e g h i v k l m n));
    ("enable-operator", boolVar (λ v '(mkFlags a b c d e g h i j k l m n), mkFlags a b c d e g h i j k l v n));
    ("enable-cppc-informer", boolVar (λ v '(mkFlags a b c d e g h i j k l m n), mkFlags a b c d e g h i j k v m n));
    ("enable-enoexec-event-controllers", boolVar (λ v '(mkFlags a b c d e g h i j k l m n), mkFlags a b c d e g h i j v l m n));
    ("initial-log-level", intVar (λ v '(mkFlags a b c d e g h i j k l m n), mkFlags a b c d e g h i j k l m v)) ].

Definition btoi (b : bool) : Z := if b then 1 else 0.

Inductive FlagError := AtLeastOne | OnlyOne.

Definition validateFlags (f : Flags) : option FlagError :=
  if negb (enableOperator f) && negb (enableClusterPodPlacementConfigOperandControllers f)
     && negb (enableClusterPodPlacementConfigOperandWebHook f) && negb (enableENoExecEventControllers f)
  then Some AtLeastOne
  else if (btoi (enableOperator f) + btoi (enableClusterPodPlacementConfigOperandControllers f)
           + btoi (enableClusterPodPlacementConfigOperandWebHook f) + btoi (enableENoExecEventControllers f) >? 1)%Z
  then Some OnlyOne
  else None.

(** What [main] passes to [ctrl.NewManager], as far as the flags decide it *)
Record CacheOptions := mkCacheOptions {
  (** [ByObject] of pods: a field selector *)
  co_pods : option (string * string);
  (** [DefaultNamespaces] *)
  co_namespaces : option (list string);
}.

Record Options := mkOptions {
  op_metricsAddr : string;
  op_probeAddr : string;
  op_certDir : string;
  op_webhookPort : Z;
  op_LeaderElection : bool;
  op_LeaderElectionID : string;
  op_Cache : CacheOptions;
}.

Definition leaderID (f : Flags) : string :=
  let leaderID := "208d7abd.multiarch.openshift.io" in
  let leaderID := if enableOperator f then "operator-" +:+ leaderID else leaderID in
  let leaderID := if enableClusterPodPlacementConfigOperandControllers f
                  then "ppc-controllers-" +:+ leaderID else leaderID in
  if enableENoExecEventControllers f then "enoexecevent-controllers-" +:+ leaderID else leaderID.

Definition cacheOpts (namespace : string) (f : Flags) : CacheOptions :=
  mkCacheOptions
    (if enableClusterPodPlacementConfigOperandControllers f then Some ("status.phase", "Pending") else None)
    (if enableENoExecEventControllers f then Some [namespace] else None).

Definition managerOptions (namespace : string) (f : Flags) : Options :=
  mkOptions (metricsAddr f) (probeAddr f) (certDir f) 9443 (enableLeaderElection f) (leaderID f)
    (cacheOpts namespace f).

(** The effects of [main], in the order of the code; those in [must] may fail. *)
Inductive Action :=
| SetLogLevel (level : Z)
| NewManager (o : Options)
| AddHealthzCheck
| AddReadyzCheck
| AddRunnable (name : string)
| SetupController (name : string)
| SetupWebhook (name : string)
| NewMultiPool
| RegisterWebhook (path : string)
| StartManager
| ReleasePool.

Inductive Outcome := Exited (code : Z) | Returned.

(** [must]: the first failure ends the process. *)
Definition mustFail (a : Action) : bool :=
  match a with SetLogLevel _ | RegisterWebhook _ | ReleasePool => false | _ => true end.

Fixpoint runActions (fails : Action → bool) (acts : list Action) : list Action * Outcome :=
  match acts with
  | [] => ([], Returned)
  | a :: acts' =>
      if mustFail a && fails a then ([a], Exited 1)
      else let '(tr, o) := runActions fails acts' in (a :: tr, o)
  end.

Definition RunOperator : list Action :=
  [ SetupController "ClusterPodPlacementConfig"; SetupWebhook "ClusterPodPlacementConfigConversionWebhook" ].

Definition RunPodPlacementConfigWebHook : list Action :=
  [ RegisterWebhook "/validate-multiarch-openshift-io-v1beta1-podplacementconfig" ].

Definition RunClusterPodPlacementConfigOperandControllers : list Action :=
  [ SetupController "PodReconciler"; AddRunnable "GlobalPullSecretSyncer" ].

Definition RunClusterPodPlacementConfigOperandWebHook : list Action :=
  [ NewMultiPool; RegisterWebhook "/add-pod-scheduling-gate" ].

Definition RunENoExecEventControllers : list Action := [ SetupController "ENoExecEventController" ].

Definition when {A} (b : bool) (l : list A) : list A := if b then l else [].

(** [main] after the flags are read and valid *)
Definition setup (namespace : string) (f : Flags) : list Action :=
  [ NewManager (managerOptions namespace f); AddHealthzCheck; AddReadyzCheck ]
  ++ when (enableCPPCInformer f) [AddRunnable "CPPCSyncer"]
  ++ when (enableOperator f) (RunOperator ++ RunPodPlacementConfigWebHook)
  ++ when (enableClusterPodPlacementConfigOperandControllers f) RunClusterPodPlacementConfigOperandControllers
  ++ when (enableClusterPodPlacementConfigOperandWebHook f) RunClusterPodPlacementConfigOperandWebHook
  ++ when (enableENoExecEventControllers f) RunENoExecEventControllers
  ++ [ StartManager ]
  ++ when (enableClusterPodPlacementConfigOperandWebHook f) [ReleasePool].

Section binary.
(** flags registered by klog and by controller-runtime, [utils.Namespace()], and
    which of the fallible actions fail *)
Context (otherFlags : string → option (Flag Flags)) (namespace : string) (fails : Action → bool).

Definition lookupFlag (name : string) : option (Flag Flags) :=
  match List.find (λ p, bool_decide (p.1 = name)) flagTable with
  | Some (_, fl) => Some fl
  | None => otherFlags name
  end.

(** [bindFlags]; the level is negated and truncated to eight bits *)
Definition bindFlags (args : list string) : ParseResult Flags := parseFlags lookupFlag args defaults.

Definition main (args : list string) : list Action * Outcome :=
  match bindFlags args with
  | ParseFailed => ([], Exited 2)
  | Parsed f _ =>
      let level := SetLogLevel (int8 (- initialLogLevel f)) in
      match validateFlags f with
      | Some _ => ([level], Exited 1)
      | None => let '(tr, o) := runActions fails (setup namespace f) in (level :: tr, o)
      end
  end.
End binary.

(** The part of the system a valid set of flags stands for *)
Inductive Component := Operator | PodPlacementControllers | PodPlacementWebhook | ENoExecEventHandler.

#[global] Instance Component_eq_dec : EqDecision Component.
Proof. solve_decision. Defined.

Definition component (f : Flags) : option Component :=
  match validateFlags f with
  | Some _ => None
  | None =>
      if enableOperator f then Some Operator
      else if enableClusterPodPlacementConfigOperandControllers f then Some PodPlacementControllers
      else if enableClusterPodPlacementConfigOperandWebHook f then Some PodPlacementWebhook
      else Some ENoExecEventHandler
  end.

(** The controllers, runnables and webhooks of each of them *)
Definition owned (c : Component) : list Action :=
  match c with
  | Operator => RunOperator ++ RunPodPlacementConfigWebHook
  | PodPlacementControllers => RunClusterPodPlacementConfigOperandControllers
  | PodPlacementWebhook => RunClusterPodPlacementConfigOperandWebHook
  | ENoExecEventHandler => RunENoExecEventControllers
  end.

Lemma component_enabled f c :
  component f = Some c →
  validateFlags f = None
  ∧ enableOperator f = bool_decide (c = Operator)
  ∧ enableClusterPodPlacementConfigOperandControllers f = bool_decide (c = PodPlacementControllers)
  ∧ enableClusterPodPlacementConfigOperandWebHook f = bool_decide (c = PodPlacementWebhook)
  ∧ enableENoExecEventControllers f = bool_decide (c = ENoExecEventHandler).
Proof.
  unfold component, validateFlags.
  destruct (enableOperator f), (enableClusterPodPlacementConfigOperandControllers f),
    (enableClusterPodPlacementConfigOperandWebHook f), (enableENoExecEventControllers f);
    try discriminate; by intros [= <-].
Qed.

Lemma valid_component f : validateFlags f = None → is_Some (component f).
Proof. unfold component. intros ->. repeat case_match; eauto. Qed.

(** The actions of a valid process: those that every process takes, the informer if
    asked for, and those of its component. *)
Lemma setup_component ns f c :
  component f = Some c →
  setup ns f = [ NewManager (managerOptions ns f); AddHealthzCheck; AddReadyzCheck ]
               ++ when (enableCPPCInformer f) [AddRunnable "CPPCSyncer"]
               ++ owned c ++ [StartManager] ++ when (bool_decide (c = PodPlacementWebhook)) [ReleasePool].
Proof.
  intros (_ & H1 & H2 & H3 & H4)%component_enabled. unfold setup. rewrite H1, H2, H3, H4.
  by destruct c.
Qed.

(** A run of actions is a prefix of them; it is all of them iff no step failed. *)
Lemma runActions_prefix fails acts :
  let '(tr, o) := runActions fails acts in
  match o with
  | Returned => tr = acts ∧ Forall (λ a, mustFail a && fails a = false) acts
  | Exited c => c = 1%Z ∧ ∃ done a rest, acts = done ++ a :: rest ∧ tr = done ++ [a]
                ∧ mustFail a && fails a = true ∧ Forall (λ a, mustFail a && fails a = false) done
  end.
Proof.
  induction acts as [|a acts IH]; cbn; [done|].
  destruct (mustFail a && fails a) eqn:E; [split; [done|by exists [], a, acts]|].
  destruct (runActions fails acts) as [tr [c|]].
  - destruct IH as (-> & pre & x & rest & -> & -> & Hx & Hp).
    split; [done|]. exists (a :: pre), x, rest. split_and!; try done. by constructor.
  - destruct IH as [-> Hf]. split; [done|by constructor].
Qed.

(** What a run reaches, it reaches after everything before it succeeded. *)
Lemma runActions_reaches fails l1 b l2 :
  b ∉ l1 → b ∈ (runActions fails (l1 ++ b :: l2)).1 →
  ∀ a, a ∈ l1 → a ∈ (runActions fails (l1 ++ b :: l2)).1 ∧ mustFail a && fails a = false.
Proof.
  induction l1 as [|x l1 IH]; cbn; intros Hb; [set_solver|].
  destruct (mustFail x && fails x) eqn:E; cbn; [set_solver|].
  destruct (runActions fails (l1 ++ b :: l2)) as [tr o]. cbn in *.
  intros Hin a. specialize (IH ltac:(set_solver) ltac:(set_solver)). set_solver.
Qed.

(** A process runs one component or none: if the arguments do not parse, or do not
    enable exactly one component, it exits before it creates a manager; otherwise
    what it sets up and starts is a prefix of the steps of that component, in the
    order of the code, cut after the first step that fails with exit code 1; the
    manager starts only after every step of the component has succeeded. *)
Theorem main_runs_one_component otherFlags ns fails args :
  let '(tr, o) := main otherFlags ns fails args in
  match bindFlags otherFlags args with
  | ParseFailed => tr = [] ∧ o = Exited 2
  | Parsed f _ =>
      match component f with
      | None => tr = [SetLogLevel (int8 (- initialLogLevel f))] ∧ o = Exited 1
      | Some c =>
          (∃ rest, SetLogLevel (int8 (- initialLogLevel f)) :: setup ns f = tr ++ rest
                   ∧ (o = Returned → rest = []) ∧ (o ≠ Returned → o = Exited 1))
          ∧ (∀ a c', a ∈ tr → a ∈ owned c' → c' = c)
          ∧ (StartManager ∈ tr → ∀ a, a ∈ owned c → a ∈ tr ∧ mustFail a && fails a = false)
      end
  end.
Proof.
  unfold main. destruct (bindFlags otherFlags args) as [f rest|]; [|done].
  destruct (component f) as [c|] eqn:Ec.
  2: { destruct (validateFlags f) eqn:Ev; [done|]. apply valid_component in Ev as [? ?]. congruence. }
  pose proof (component_enabled f c Ec) as (-> & _).
  pose proof (runActions_prefix fails (setup ns f)) as Hr.
  destruct (runActions fails (setup ns f)) as [tr o] eqn:Hrun.
  assert (∃ rest, setup ns f = tr ++ rest ∧ (o = Returned → rest = []) ∧ (o ≠ Returned → o = Exited 1)) as
    (rest' & Hs & Hret & Hex).
  { destruct o as [code|]; [destruct Hr as (-> & pre & a & r & -> & -> & _); exists r|destruct Hr as [-> _]; exists []].
    - by rewrite <-app_assoc.
    - by rewrite app_nil_r. }
  split; [exists rest'; by rewrite Hs|]. split.
  - intros a c' [->|Ha]%elem_of_cons Hc'; [destruct c'; set_solver|].
    assert (a ∈ setup ns f) as Hin by (rewrite Hs; set_solver).
    rewrite (setup_component ns f c Ec) in Hin. unfold when in Hin.
    destruct c, c', (enableCPPCInformer f); cbn in Hin, Hc'; set_solver.
  - intros [?|Hst]%elem_of_cons a Ha; [done|].
    rewrite (setup_component ns f c Ec), !app_assoc, <-(app_assoc _ [StartManager]) in Hrun.
    match type of Hrun with runActions _ (?l1 ++ [StartManager] ++ ?l2) = _ =>
      pose proof (runActions_reaches fails l1 StartManager l2) as Hreach end.
    change (StartManager :: ?l) with ([StartManager] ++ l) in Hreach. rewrite Hrun in Hreach. cbn [fst] in Hreach.
    destruct (Hreach ltac:(destruct c, (enableCPPCInformer f); cbn; set_solver) Hst a ltac:(set_solver)).
    set_solver.
Qed.

(** The processes of different components never compete for the same lease. *)
Lemma leaderID_component f f' c c' :
  component f = Some c → component f' = Some c' → leaderID f = leaderID f' → c = c'.
Proof.
  intros (_ & H1 & H2 & H3 & H4)%component_enabled (_ & H1' & H2' & H3' & H4')%component_enabled.
  unfold leaderID. rewrite H1, H2, H4, H1', H2', H4'. by destruct c, c'.
Qed.

(** *** The closure [ppcCacheSynced] of the webhook

    The variable [ppcHasSynced] keeps the informer once it was obtained. *)
Record PPCEnv := mkPPCEnv {
  (** [GetInformerForKind] succeeds *)
  pe_informer : bool;
  (** [informer.HasSynced()] *)
  pe_synced : bool;
}.

(** The answer, the variable afterwards, and whether the informer was asked for *)
Definition ppcCacheSynced (ppcHasSynced : bool) (e : PPCEnv) : bool * bool * bool :=
  if ppcHasSynced then (pe_synced e, true, false)
  else if negb (pe_informer e) then (false, false, true)
  else (pe_synced e, true, true).

Fixpoint ppcCalls (v : bool) (es : list PPCEnv) : list bool * list bool * bool :=
  match es with
  | [] => ([], [], v)
  | e :: es' =>
      let '(b, v', asked) := ppcCacheSynced v e in
      let '(bs, asks, v'') := ppcCalls v' es' in (b :: bs, asked :: asks, v'')
  end.

Lemma ppcCalls_synced es : ppcCalls true es = (pe_synced <$> es, replicate (length es) false, true).
Proof. induction es as [|e es IH]; cbn; [done|]. by rewrite IH. Qed.

(** The closure by which the webhook decides whether to trust its cache of
    PodPlacementConfigs: a failure to get the informer makes it answer false and is
    not remembered; from the first success on the answers are the informer's, and it
    is not asked for again. *)
Lemma ppcCalls_spec fs ss :
  Forall (λ e, pe_informer e = false) fs →
  match ss with [] => True | e :: _ => pe_informer e = true end →
  ppcCalls false (fs ++ ss)
  = (replicate (length fs) false ++ (pe_synced <$> ss),
     replicate (length fs) true ++ match ss with [] => [] | _ :: l => true :: replicate (length l) false end,
     match ss with [] => false | _ => true end).
Proof.
  intros Hf Hs. induction Hf as [|e fs He _ IH]; cbn.
  - destruct ss as [|e ss]; cbn; [done|]. unfold ppcCacheSynced. rewrite Hs. cbn. by rewrite ppcCalls_synced.
  - unfold ppcCacheSynced. rewrite He. cbn. by rewrite IH.
Qed.

End manager.

(** ** [utils.ToZapLevel] *)
Definition ToZapLevel (level : Z) : option Z :=
  let negated := int64 (- level) in
  if ((negated <? -128) || (negated >? 127))%Z then None else Some (int8 negated).

(** ** [cmd/enoexec-daemon/main.go] *)
Module daemon.

Record DaemonFlags := mkDaemonFlags { initialLogLevel : Z; logDevMode : bool }.

Definition daemonFlagTable : list (string * Flag DaemonFlags) :=
  [ ("initial-log-level", mkFlag false (λ v f, n ← parseIntBase0 v; Some (mkDaemonFlags n (logDevMode f))));
    ("log-dev-mode", mkFlag true (λ v f, b ← parseBool v; Some (mkDaemonFlags (initialLogLevel f) b))) ].

Definition daemonLookupFlag (name : string) : option (Flag DaemonFlags) :=
  snd <$> List.find (λ p, bool_decide (p.1 = name)) daemonFlagTable.

Definition daemonBindFlags (args : list string) : ParseResult DaemonFlags := parseFlags daemonLookupFlag args (mkDaemonFlags 0 false).

Inductive DaemonAction := BuildLogger (level : Z) (development : bool) | RunDaemon.

Definition daemonMain (fails : DaemonAction → bool) (args : list string) : list DaemonAction * Z :=
  match daemonBindFlags args with
  | ParseFailed => ([], 2)
  | Parsed f _ =>
      let logger := BuildLogger (int8 (- initialLogLevel f)) (logDevMode f) in
      if fails logger then ([logger], 1)
      else ([logger; RunDaemon], if fails RunDaemon then 1 else 0)
  end%Z.

End daemon.

(** ** [pkg/utils/runtime.go] *)
Definition initNamespace (LookupEnv : string → option string) : string :=
  match LookupEnv "NAMESPACE" with Some ns => ns | None => "default" end.
Definition initImage (LookupEnv : string → option string) : string :=
  match LookupEnv "IMAGE" with Some img => img | None => "quay.io/example/example-operator:latest" end.

(** [ToZapLevel] negates exactly the levels whose negation fits eight bits and
    refuses all others, the smallest integer included; on those the truncation that
    [main] does instead agrees with it, and outside them it never does. *)
Theorem ToZapLevel_spec level :
  (- 2 ^ 63 ≤ level < 2 ^ 63)%Z →
  ToZapLevel level = (if ((-127 <=? level) && (level <=? 128))%Z then Some (- level)%Z else None)
  ∧ (is_Some (ToZapLevel level) ↔ int8 (- level) = (- level)%Z).
Proof.
  intros Hl. unfold ToZapLevel, int64.
  assert (int8 (- level) = (- level)%Z ↔ (-127 ≤ level ≤ 128)%Z) as H8.
  { unfold int8. pose proof (Z.mod_pos_bound (- level + 2 ^ 7) (2 ^ 8) ltac:(lia)).
    split; [lia|]. intros. rewrite Z.mod_small; lia. }
  destruct (decide (level = - 2 ^ 63)%Z) as [->|Hne].
  { split; [done|]. rewrite H8. split; [intros [? [=]]|lia]. }
  rewrite (Z.mod_small (- level + 2 ^ 63)) by lia.
  replace (- level + 2 ^ 63 - 2 ^ 63)%Z with (- level)%Z by lia.
  destruct ((- level <? -128) || (- level >? 127))%Z eqn:E;
    destruct ((-127 <=? level) && (level <=? 128))%Z eqn:E'; try lia.
  - split; [done|]. rewrite H8. split; [intros [? [=]]|lia].
  - rewrite H8. assert (-127 ≤ level ≤ 128)%Z as Hb by lia. apply H8 in Hb as Hb'. rewrite Hb'. split; [done|]. by split; eauto.
Qed.
