(* ===== verification/Boot.v ===== *)
(** * What the operator deploys, started

    The composition of the object builders ([Manifests]) with the binaries
    ([Main]): the command line that the operator writes into each workload, read
    by the process that gets it. *)
From Stdlib Require Import Ascii.
From stdpp Require Import base gmap strings list.
From S2P Require Import Prelude GoStd Api LabelSelectors Status Operator Manifests Main.
Import objects.

Section boot.
Context (Namespace Image : string) (Getenv : string → string).
Context (otherFlags : string → option (Flag manager.Flags)).

Definition deployments (l : list Obj) : list Deployment :=
  omap (λ o, match o with ODeployment d => Some d | _ => None end) l.
Definition daemonSets (l : list Obj) : list DaemonSet :=
  omap (λ o, match o with ODaemonSet d => Some d | _ => None end) l.
Definition webhooks (l : list Obj) : list MutatingWebhook :=
  mjoin (omap (λ o, match o with OMutatingWebhookConfiguration m => Some (mw_Webhooks m) | _ => None end) l).

(** The command line of a container, the entry point first *)
Definition commandLine (c : Container) : list string := ct_Command c ++ ct_Args c.

(** The flags a container of the manager image ends up with *)
Definition flagsOf (c : Container) : option manager.Flags :=
  match commandLine c with
  | "/manager" :: args =>
      match manager.bindFlags otherFlags args with Parsed f [] => Some f | _ => None end
  | _ => None
  end.

Definition daemonFlagsOf (c : Container) : option daemon.DaemonFlags :=
  match commandLine c with
  | "/enoexec-daemon" :: args =>
      match daemon.daemonBindFlags args with Parsed f [] => Some f | _ => None end
  | _ => None
  end.

(** The certificate directory is the mount of a secret. *)
Definition certMounted (f : manager.Flags) (p : PodSpec) (c : Container) : bool :=
  existsb (λ m, bool_decide (vm_MountPath m = manager.certDir f)
                && existsb (λ v, bool_decide (vo_Name v = vm_Name m)
                                 && match vo_Source v with SecretVolume _ _ => true | _ => false end)
                     (pd_Volumes p)) (ct_VolumeMounts c).

(** The component that a deployment is for *)
Definition intended (name : string) : manager.Component :=
  if bool_decide (name = PodPlacementWebhookName) then manager.PodPlacementWebhook
  else if bool_decide (name = PodPlacementControllerName) then manager.PodPlacementControllers
  else manager.ENoExecEventHandler.

(** What the process of a container does *)
Definition process (level : Z) (d : Deployment) (c : Container) : bool :=
  let k := intended (me_Name (dp_Meta d)) in
  match flagsOf c with
  | None => false
  | Some f =>
      bool_decide (manager.component f = Some k)
      && bool_decide (manager.initialLogLevel f = level)
      && bool_decide (int8 (- manager.initialLogLevel f) = (- level)%Z)
      && certMounted f (tp_Spec (dp_Template d)) c
      && bool_decide (manager.enableLeaderElection f = negb (bool_decide (k = manager.PodPlacementWebhook)))
      && bool_decide (manager.enableCPPCInformer f = negb (bool_decide (k = manager.ENoExecEventHandler)))
  end.

Definition registers (path : string) (a : manager.Action) : bool :=
  match a with manager.RegisterWebhook p => bool_decide (p = path) | _ => false end.

(** The path of a webhook is served by the workload with the name of its service. *)
Definition served (l : list Obj) (w : MutatingWebhook) : bool :=
  let '(service, _, path) := wh_Service w in
  existsb (λ d, bool_decide (me_Name (dp_Meta d) = service)
                && forallb (λ c, match flagsOf c with
                                 | Some f => existsb (registers path) (manager.setup Namespace f)
                                 | None => false
                                 end) (pd_Containers (tp_Spec (dp_Template d))))
    (deployments l).

Definition daemonProcess (level : Z) (c : Container) : bool :=
  match daemonFlagsOf c with
  | Some f => bool_decide (daemon.initialLogLevel f = level) && negb (daemon.logDevMode f)
  | None => false
  end.

(** The components the deployments enable *)
Definition started (l : list Obj) : list (option manager.Component) :=
  mjoin ((λ d, (λ c, flagsOf c ≫= manager.component) <$> pd_Containers (tp_Spec (dp_Template d))) <$> deployments l).

Lemma ToZapLevelInt_range v : (ToZapLevelInt v ∈ [0; 1; 2; 3])%Z.
Proof. unfold ToZapLevelInt. repeat case_bool_decide; set_solver. Qed.

(** C30: every workload of the operand starts what it is meant to start, at every log
    verbosity: its command line parses completely, enables exactly the component the
    deployment is named after, at the configured log level, with the informer of the
    ClusterPodPlacementConfig where the component reads it, leader election for the
    reconcilers and the certificate directory mounted from a secret; the webhook
    configuration calls a path that the process behind its service registers; and
    the daemon's command line parses to the configured level. *)
Theorem deployments_boot verbosity minor selector :
  let level := ToZapLevelInt verbosity in
  let all := allObjects Namespace Image Getenv level minor selector in
  started all = Some <$> [manager.PodPlacementControllers; manager.PodPlacementWebhook; manager.ENoExecEventHandler]
  ∧ forallb (λ d, forallb (process level d) (pd_Containers (tp_Spec (dp_Template d)))) (deployments all) = true
  ∧ forallb (served all) (webhooks all) = true
  ∧ forallb (λ d, forallb (daemonProcess level) (pd_Containers (tp_Spec (ds_Template d)))) (daemonSets all) = true
  ∧ length (webhooks all) = 1 ∧ length (daemonSets all) = 1.
Proof.
  intros level all. pose proof (ToZapLevelInt_range verbosity) as Hlevel. fold level in Hlevel. clearbody level.
  unfold all, allObjects, podPlacementObjects.
  destruct (sccFor minor) as [scc se]. cbn [fst snd].
  repeat (apply elem_of_cons in Hlevel as [->|Hlevel]);
    [destruct se; vm_compute; split_and!; reflexivity..|by apply elem_of_nil in Hlevel].
Qed.
End boot.
