(* ===== verification/System.v ===== *)
(** * The system: API server, webhook, pod reconciler and operator together

    The components of the other files side by side on one cluster.  The state is
    what the API server stores of the ClusterPodPlacementConfig, of the operand's
    objects and of the pods, the copy of the configuration in the operator's
    informer cache, the admissions under way, and the reconcile the operator is
    in the middle of: the rest of its program and the trace of its requests so
    far.  A step is one request of the operator, one admission by the webhook
    ([Handle]), one reconcile of a pod ([PodReconciler.Reconcile]), the storing of
    an admitted pod, an update of the cache, or an action of somebody else; the
    operator may die at any point.

    The API server is nondeterministic: it may refuse any request, or carry it out
    and lose the answer.  What it does guarantee is in [serves]: resource versions
    are fresh, an update with an old one is refused, an object with finalizers is
    only marked when it is deleted and goes away with the last finalizer.  The
    only objects the operator updates are deployments. *)
From stdpp Require Import base gmap strings list relations.
From S2P Require Import Prelude GoStd Api LabelSelectors NodeMatch Models ArchConstraints.
From S2P Require Import CelEval Events PodModel PodTheorems PodReconciler ReconcilerTheorems.
From S2P Require Import Webhook Status Prog Operator OperatorTheorems OperatorTraces.
Import plugins v1beta1 models events.

#[export] Instance Kind_countable : Countable Kind.
Proof.
  refine (inj_countable' (λ k, match k with
    | KMutatingWebhookConfiguration => 0 | KService => 1 | KDeployment => 2 | KDaemonSet => 3
    | KClusterRole => 4 | KClusterRoleBinding => 5 | KRole => 6 | KRoleBinding => 7
    | KServiceAccount => 8 | KServiceMonitor => 9 | KPrometheusRule => 10 end)
    (λ n, match n with
    | 0 => KMutatingWebhookConfiguration | 1 => KService | 2 => KDeployment | 3 => KDaemonSet
    | 4 => KClusterRole | 5 => KClusterRoleBinding | 6 => KRole | 7 => KRoleBinding
    | 8 => KServiceAccount | 9 => KServiceMonitor | _ => KPrometheusRule end) _).
  by intros [].
Defined.

#[export] Instance Ref_countable : Countable Ref.
Proof.
  refine (inj_countable' (λ r, (ref_Kind r, ref_Name r)) (λ p, mkRef p.1 p.2) _). by intros [].
Defined.

(** ** The state *)
Definition Key : Type := string * string.
Definition key_of (p : CorePod) : Key := (om_Namespace (p_Meta p), om_Name (p_Meta p)).

Record ApiState := mkApi {
  as_Config : option Reply;
  as_Cache : option Reply;
  as_Versions : gset string;
  as_Objects : gmap Ref Object;
  (** pods the admission chain has answered for and that are not stored yet *)
  as_Creating : list CorePod;
  as_Pods : gmap Key CorePod;
  (** ghost: the names under which a gated pod was being created while the operator
      was shown a list of pods without a gated one *)
  as_Overlooked : gset Key;
  (** ghost: a read that bypasses the cache has found another version than the cache
      has *)
  as_Overtaken : bool;
}.

Definition set_Objects (o : gmap Ref Object) (s : ApiState) : ApiState :=
  mkApi (as_Config s) (as_Cache s) (as_Versions s) o (as_Creating s) (as_Pods s)
    (as_Overlooked s) (as_Overtaken s).
Definition set_Pods (c : list CorePod) (p : gmap Key CorePod) (s : ApiState) : ApiState :=
  mkApi (as_Config s) (as_Cache s) (as_Versions s) (as_Objects s) c p (as_Overlooked s) (as_Overtaken s).
Definition sync (s : ApiState) : ApiState :=
  mkApi (as_Config s) (as_Config s) (as_Versions s) (as_Objects s) (as_Creating s) (as_Pods s)
    (as_Overlooked s) (as_Overtaken s).
Definition set_Ghost (o : gset Key) (b : bool) (s : ApiState) : ApiState :=
  mkApi (as_Config s) (as_Cache s) (as_Versions s) (as_Objects s) (as_Creating s) (as_Pods s) o b.

(** A configuration that is being deleted goes away with its last finalizer. *)
Definition settle (r : Reply) : option Reply :=
  if bool_decide (reply_deleting r) && bool_decide (reply_finalizers r = []) then None else Some r.
Definition write_config (r : Reply) (s : ApiState) : ApiState :=
  mkApi (settle r) (as_Cache s) ({[ reply_version r ]} ∪ as_Versions s) (as_Objects s)
    (as_Creating s) (as_Pods s) (as_Overlooked s) (as_Overtaken s).

Definition settle_object (r : Ref) (o : Object) (m : gmap Ref Object) : gmap Ref Object :=
  if ob_Deleting o && bool_decide (ob_Finalizers o = []) then delete r m else <[ r := o ]> m.

Definition gated (p : CorePod) : bool := HasSchedulingGate (NewPod p None).

(** What the ghosts record of the answer to a list of the pods and to a live read. *)
Definition creating_gated (s : ApiState) : gset Key :=
  list_to_set (key_of <$> filter (λ p, gated p = true) (as_Creating s)).
Definition overlook (l : list CorePod) (s : ApiState) : ApiState :=
  set_Ghost (if hasGatedPod l then as_Overlooked s else creating_gated s ∪ as_Overlooked s) (as_Overtaken s) s.
Definition behind (r : Reply) (s : ApiState) : bool :=
  match as_Cache s with Some r0 => negb (bool_decide (reply_version r0 = reply_version r)) | None => false end.
Definition overtake (r : Reply) (s : ApiState) : ApiState :=
  set_Ghost (as_Overlooked s) (as_Overtaken s || behind r s) s.

(** ** The API server *)

(** A write that the server refuses, or carries out with or without a reply. *)
Definition refused {A} (s s' : ApiState) (a : res A) : Prop := s' = s ∧ is_ok a = false.

Definition serves : ∀ T, Call T → ApiState → T → ApiState → Prop := λ T c,
  match c in Call T return ApiState → T → ApiState → Prop with
  | GetLive r => λ s a s', s' = s ∧
      match a with
      | Ok o => as_Objects s !! r = Some o
      | Err e => isNotFound e = true → as_Objects s !! r = None
      end
  | UpdateObject r o => λ s a s', refused s s' a ∨
      ∃ cur o', ref_Kind r = KDeployment ∧ as_Objects s !! r = Some cur ∧ ob_Finalizers o' = ob_Finalizers o
        ∧ ob_Deleting o' = ob_Deleting cur
        ∧ s' = set_Objects (settle_object r o' (as_Objects s)) s
        ∧ (a = Ok o' ∨ is_ok a = false)
  | DeleteObject r => λ s a s',
      (s' = s ∧ ∃ e, a = Some e ∧ (isNotFound e = true → as_Objects s !! r = None)) ∨
      ∃ cur o', as_Objects s !! r = Some cur ∧ ob_Finalizers o' = ob_Finalizers cur
        ∧ ob_Deleting o' = true
        ∧ s' = set_Objects (settle_object r o' (as_Objects s)) s
        ∧ (∀ e, a = Some e → isNotFound e = false)
  | ApplyObject m => λ s a s', (s' = s ∧ is_Some a) ∨
      ∃ o, (∀ f, f ∈ ob_Finalizers o → f ∈ mf_Finalizers m
              ∨ (∃ cur, as_Objects s !! mf_Ref m = Some cur ∧ f ∈ ob_Finalizers cur))
        ∧ s' = set_Objects (<[ mf_Ref m := o ]> (as_Objects s)) s
  | GetConfigCached => λ s a s', s' = s ∧
      (∀ r, a = Ok r → as_Cache s = Some r ∧ rp_UID r ≠ "")
  | GetConfigLive => λ s a s',
      match a with Ok r => as_Config s = Some r ∧ s' = overtake r s | Err _ => s' = s end
  | UpdateConfig o => λ s a s', refused s s' a ∨
      ∃ cur r, as_Config s = Some cur ∧ cppc_version o = reply_version cur
        ∧ (reply_version r ∉ as_Versions s)
        ∧ om_DeletionTimestamp (cppc_Meta (rp_Obj r)) = om_DeletionTimestamp (cppc_Meta (rp_Obj cur))
        ∧ reply_finalizers r = elems (om_Finalizers (cppc_Meta o))
        ∧ s' = write_config r s ∧ (a = Ok r ∨ is_ok a = false)
  | UpdateConfigStatus c => λ s a s', refused s s' a ∨
      ∃ cur r, as_Config s = Some cur ∧ cppc_version (cf_Obj c) = reply_version cur
        ∧ (reply_version r ∉ as_Versions s)
        ∧ om_DeletionTimestamp (cppc_Meta (rp_Obj r)) = om_DeletionTimestamp (cppc_Meta (rp_Obj cur))
        ∧ reply_finalizers r = reply_finalizers cur ∧ cf_Finalizers c = reply_finalizers cur
        ∧ s' = write_config r s ∧ (a = Ok r ∨ is_ok a = false)
  | ListPendingPods => λ s a s',
      match a with
      | Ok l => (∀ k p, as_Pods s !! k = Some p → gated p = true → p ∈ l) ∧ s' = overlook l s
      | Err _ => s' = s
      end
  | _ => λ s _ s', s' = s
  end.

(** What the operator may rely on follows. *)
Lemma serves_faithful T (c : Call T) s a s' : serves T c s a s' → faithful T c a.
Proof.
  intros H. split; destruct c; cbn in *; try done.
  - intros r ->. destruct H as [[_ H]|(cur & r' & _ & _ & _ & _ & Hf & _ & [Ha|Ha])]; [done| |done].
    by injection Ha as ->.
  - intros r ->. destruct H as [[_ H]|(cur & r' & _ & _ & _ & _ & Hf & Hc & _ & [Ha|Ha])]; [done| |done].
    injection Ha as ->. congruence.
  - intros r ->. by apply H.
Qed.

(** ** Steps *)
Section system.
Context {W : Type} {celService : CelService W} {imageService : ImageService W}
  {rangeOrder : RangeOrder}.
Context (apiReader : bool) (now : string → Z).

Record Sys := mkSys {
  sy_Api : ApiState;
  (** the trace and the rest of the reconcile under way *)
  sy_Operator : option (list (Ev Call) * P Outcome);
  sy_World : W;
}.

(** What others do to the operand's objects: they delete them and report on them,
    but touch no finalizer and create none. *)
Definition objects_change (m m' : gmap Ref Object) : Prop := ∀ r,
  match m !! r, m' !! r with
  | None, Some _ => False
  | Some o, None => ob_Finalizers o = []
  | Some o, Some o' => ob_Finalizers o' = ob_Finalizers o
  | None, None => True
  end.

Inductive Label :=
| LAdmit
| LStore (k : Key)
| LReconcile (k : Key)
| LUnlisted (k : Key)
| LPod (k : Key)
| LCount (k : Key)
| LConfig
| LObjects
| LOperator.

(** Steps of everybody but the operator. *)
Inductive api_step : Label → ApiState → W → ApiState → W → Prop :=
(** a pod is created: the webhook is called, or it is not registered, does not
    select the namespace or cannot be reached (its failure policy is [Ignore]);
    users do not set the gate themselves *)
| st_admit env obj recorder s w w' p :
    is_Some (as_Objects s !! webhookConfiguration) →
    Handle env (Ok obj) recorder w = Ret (w', Patched p) →
    api_step LAdmit s w (set_Pods (p :: as_Creating s) (as_Pods s) s) w'
| st_bypass obj s w :
    gated obj = false → api_step LAdmit s w (set_Pods (obj :: as_Creating s) (as_Pods s) s) w
| st_store s w l1 p l2 :
    as_Creating s = l1 ++ p :: l2 → as_Pods s !! key_of p = None →
    api_step (LStore (key_of p)) s w (set_Pods (l1 ++ l2) (<[ key_of p := p ]> (as_Pods s)) s) w
| st_reject s w l1 p l2 :
    as_Creating s = l1 ++ p :: l2 → api_step LAdmit s w (set_Pods (l1 ++ l2) (as_Pods s) s) w
(** the controller reconciles a pod it can list the configurations for, and its
    update is stored *)
| st_reconcile env update recorder k p q s w w' r :
    is_Some (as_Objects s !! controllerDeployment) →
    as_Pods s !! k = Some p → (∀ ns, is_ok (listPPCs env ns) = true) →
    PodReconciler.Reconcile env (Ok p) update recorder w = (w', r) →
    (rr_sent r = Some q ∨ (rr_sent r = None ∧ q = p)) →
    update q = Ok q →
    api_step (LReconcile k) s w (set_Pods (as_Creating s) (<[ k := q ]> (as_Pods s)) s) w'
(** the same, but the configurations may not be listed *)
| st_unlisted env update recorder k p q s w w' r :
    is_Some (as_Objects s !! controllerDeployment) →
    as_Pods s !! k = Some p →
    PodReconciler.Reconcile env (Ok p) update recorder w = (w', r) →
    (rr_sent r = Some q ∨ (rr_sent r = None ∧ q = p)) →
    update q = Ok q →
    api_step (LUnlisted k) s w (set_Pods (as_Creating s) (<[ k := q ]> (as_Pods s)) s) w'
(** a reconcile that comes to nothing: a stale read, an update that is refused *)
| st_attempt k s w w' : api_step (LPod k) s w s w'
(** others change or delete a pod, but do not gate it; when they change the counter of
    its failures the label of the step says so *)
| st_change k p q s w :
    as_Pods s !! k = Some p → (gated q = true → gated p = true) →
    error_count (NewPod q None) = error_count (NewPod p None) →
    api_step (LPod k) s w (set_Pods (as_Creating s) (<[ k := q ]> (as_Pods s)) s) w
| st_recount k p q s w :
    as_Pods s !! k = Some p → (gated q = true → gated p = true) →
    api_step (LCount k) s w (set_Pods (as_Creating s) (<[ k := q ]> (as_Pods s)) s) w
| st_remove k s w : api_step (LPod k) s w (set_Pods (as_Creating s) (delete k (as_Pods s)) s) w
(** the configuration is created, edited, deleted *)
| st_create r s w :
    as_Config s = None → reply_version r ∉ as_Versions s → ¬ reply_deleting r →
    api_step LConfig s w (write_config r s) w
| st_edit cur r s w :
    as_Config s = Some cur → reply_version r ∉ as_Versions s →
    (reply_deleting r ↔ reply_deleting cur) → reply_finalizers r = reply_finalizers cur →
    api_step LConfig s w (write_config r s) w
| st_delete cur r s w :
    as_Config s = Some cur → reply_version r ∉ as_Versions s →
    reply_deleting r → reply_finalizers r = reply_finalizers cur →
    api_step LConfig s w (write_config r s) w
(** the informer catches up *)
| st_sync s w : api_step LConfig s w (sync s) w
| st_objects m s w :
    objects_change (as_Objects s) m → api_step LObjects s w (set_Objects m s) w.

Inductive sys_step : Label → Sys → Sys → Prop :=
| sys_api l s s' op w w' : api_step l s w s' w' → sys_step l (mkSys s op w) (mkSys s' op w')
| sys_start s w :
    sys_step LOperator (mkSys s None w) (mkSys s (Some ([], Operator.Reconcile apiReader now)) w)
| sys_request T (c : Call T) k tr a s s' w :
    serves T c s a s' →
    sys_step LOperator (mkSys s (Some (tr, Do c k)) w) (mkSys s' (Some (tr ++ [mkEv c a], k a)) w)
| sys_end s tr o w : sys_step LOperator (mkSys s (Some (tr, Return o)) w) (mkSys s None w)
(** the operator dies; its successor lists the configuration before it starts *)
| sys_crash s op w : sys_step LOperator (mkSys s op w) (mkSys (sync s) None w).

Inductive steps : list Label → Sys → Sys → Prop :=
| steps_nil s : steps [] s s
| steps_cons l ls s s' s'' : sys_step l s s' → steps ls s' s'' → steps (l :: ls) s s''.

(** An empty cluster. *)
Definition sys_init (w : W) : Sys := mkSys (mkApi None None ∅ ∅ [] ∅ ∅ false) None w.
(** ** The invariant *)
Definition registered (s : ApiState) : Prop := is_Some (as_Objects s !! webhookConfiguration).

(** A gated pod is stored or about to be, one that no list has overlooked. *)
Definition held (s : ApiState) : Prop :=
  (∃ k p, as_Pods s !! k = Some p ∧ gated p = true ∧ k ∉ as_Overlooked s)
  ∨ (∃ p, p ∈ as_Creating s ∧ gated p = true ∧ key_of p ∉ as_Overlooked s).
Definition finalized (s : ApiState) : Prop := ∃ r, as_Config s = Some r ∧ reply_finalized r.
Definition cache_live (s : ApiState) : Prop :=
  ∃ r, as_Cache s = Some r ∧ ¬ reply_deleting r ∧ reply_finalized r.

Record api_inv (s : ApiState) : Prop := mkApiInv {
  ai_held : registered s ∨ held s → finalized s;
  ai_cache : cache_live s → finalized s;
  ai_mwc : ∀ o, as_Objects s !! webhookConfiguration = Some o → ob_Finalizers o = [];
  ai_config : ∀ r, as_Config s = Some r → reply_version r ∈ as_Versions s;
  ai_copy : ∀ r, as_Cache s = Some r → reply_version r ∈ as_Versions s
    ∧ ∀ cur, as_Config s = Some cur → reply_version r = reply_version cur →
      (reply_deleting r ↔ reply_deleting cur);
}.

(** What the trace of the reconcile under way says of the present. *)
Record op_inv (s : ApiState) (tr : list (Ev Call)) : Prop := mkOpInv {
  oi_live : ∀ r, reads tr = [r] → ¬ reply_deleting r → reply_finalized r → finalized s;
  oi_deleting : ∀ r, reads tr = [r] → reply_deleting r →
    ∀ cur, as_Config s = Some cur → reply_version cur ∈ versions tr →
      reply_deleting cur ∧ ¬ cache_live s;
  oi_webhook : applies_none tr → Exists webhook_deleted tr → ¬ registered s;
  oi_cleared : applies_none tr → cleared tr → ¬ registered s ∧ ¬ held s;
  oi_versions : Forall (λ v, v ∈ as_Versions s) (versions tr);
}.

Lemma op_inv_start s : op_inv s [].
Proof.
  constructor; try done.
  - intros _ H. by apply Exists_nil in H.
  - intros _ (a & e1 & b & e2 & c & e3 & d & H & _). by destruct a.
Qed.

(** *** Changes of the pods *)
Lemma inv_pods c p s :
  (held (set_Pods c p s) → held s ∨ registered s) → api_inv s → api_inv (set_Pods c p s).
Proof.
  intros Hh [H1 H2 H3 H4 H5]. constructor; [|done..]. intros [Hr|Hd]; [by apply H1; left|].
  apply H1. destruct (Hh Hd); auto.
Qed.

Lemma op_pods c p s tr :
  (held (set_Pods c p s) → held s ∨ registered s) → op_inv s tr → op_inv (set_Pods c p s) tr.
Proof.
  intros Hh [H1 H2 H3 H4 H5]. constructor; try done. intros Ha Hc.
  destruct (H4 Ha Hc) as [Hr Hd]. split; [done|]. intros [?|?]%Hh; auto.
Qed.

(** *** The ghosts *)
Lemma inv_ghost o b s : as_Overlooked s ⊆ o → api_inv s → api_inv (set_Ghost o b s).
Proof.
  intros Ho [H1 H2 H3 H4 H5]. constructor; [|done..]. intros [Hr|Hd]; [by apply H1; left|].
  apply H1. right. destruct Hd as [(k & p & ? & ? & ?)|(p & ? & ? & ?)]; [left; exists k, p|right; exists p]; cbn in *; set_solver.
Qed.

Lemma op_ghost o b s tr : as_Overlooked s ⊆ o → op_inv s tr → op_inv (set_Ghost o b s) tr.
Proof.
  intros Ho [H1 H2 H3 H4 H5]. constructor; try done. intros Ha Hc.
  destruct (H4 Ha Hc) as [Hr Hd]. split; [done|]. intros Hh. apply Hd.
  destruct Hh as [(k & p & ? & ? & ?)|(p & ? & ? & ?)]; [left; exists k, p|right; exists p]; cbn in *; set_solver.
Qed.

(** *** Changes of the configuration *)
Lemma settle_cases r : settle r = Some r ∨ settle r = None ∧ reply_deleting r ∧ reply_finalizers r = [].
Proof. unfold settle. repeat case_bool_decide; auto. Qed.

Lemma finalized_write r s : reply_finalized r → finalized (write_config r s).
Proof.
  intros Hf. exists r. split; [|done]. cbn.
  destruct (settle_cases r) as [H|(_ & _ & H)]; [done|].
  unfold reply_finalized in Hf. rewrite H in Hf. by apply not_elem_of_nil in Hf.
Qed.

(** A write with a fresh version, unless it drops the finalizer. *)
Lemma inv_config r s :
  api_inv s → reply_version r ∉ as_Versions s → (finalized s → reply_finalized r) →
  api_inv (write_config r s).
Proof.
  intros [H1 H2 H3 H4 H5] Hv Hf. constructor.
  - intros H. apply finalized_write, Hf, H1, H.
  - intros H. apply finalized_write, Hf, H2, H.
  - done.
  - intros r' Hr'. cbn in *. destruct (settle_cases r) as [E|[E _]]; rewrite E in Hr'; [|done].
    injection Hr' as <-. set_solver.
  - intros r' Hr'. destruct (H5 r' Hr') as [Hin _]. split; [cbn; set_solver|].
    intros cur Hc E. cbn in Hc. destruct (settle_cases r) as [E'|[E' _]]; rewrite E' in Hc; [|done].
    injection Hc as <-. congruence.
Qed.

Lemma op_config r s tr :
  op_inv s tr → reply_version r ∉ as_Versions s → (finalized s → reply_finalized r) →
  op_inv (write_config r s) tr.
Proof.
  intros [H1 H2 H3 H4 H5] Hv Hf. constructor.
  - intros r' Hr Hd Hf'. by eapply finalized_write, Hf, H1.
  - intros r' Hr Hd cur Hc Hin. cbn in Hc.
    destruct (settle_cases r) as [E|[E _]]; rewrite E in Hc; [|done]. injection Hc as <-.
    rewrite Forall_forall in H5. by apply H5 in Hin.
  - done.
  - done.
  - eapply Forall_impl; [exact H5|]. cbn. set_solver.
Qed.

(** *** The cache *)
Lemma inv_sync s : api_inv s → api_inv (sync s).
Proof.
  intros [H1 H2 H3 H4 H5]. constructor; try done.
  - intros (r & Hr & _ & Hf). by exists r.
  - intros r Hr. split; [by apply H4|]. intros cur Hc _. cbn in *. by simplify_eq.
Qed.

Lemma op_sync s tr : op_inv s tr → op_inv (sync s) tr.
Proof.
  intros [H1 H2 H3 H4 H5]. constructor; try done. intros r Hr Hd cur Hc Hin.
  destruct (H2 r Hr Hd cur Hc Hin) as [Hcur _]. split; [done|].
  intros (r' & Hr' & Hn & _). cbn in *. by simplify_eq.
Qed.

(** *** Changes of the objects *)
Lemma inv_objects m s :
  (registered (set_Objects m s) → finalized s) →
  (∀ o, m !! webhookConfiguration = Some o → ob_Finalizers o = []) →
  api_inv s → api_inv (set_Objects m s).
Proof.
  intros Hr Hm [H1 H2 H3 H4 H5]. constructor; try done. intros [H|H]; [by apply Hr|].
  apply H1. by right.
Qed.

Lemma op_objects m s tr :
  (registered (set_Objects m s) → registered s) → op_inv s tr → op_inv (set_Objects m s) tr.
Proof.
  intros Hr [H1 H2 H3 H4 H5]. constructor; try done.
  - intros Ha He H. by eapply H3, Hr.
  - intros Ha Hc. destruct (H4 Ha Hc). split; [|done]. auto.
Qed.

(** *** Steps of everybody else *)
Lemma held_insert k p q s :
  as_Pods s !! k = Some p → (gated q = true → gated p = true) →
  held (set_Pods (as_Creating s) (<[ k := q ]> (as_Pods s)) s) → held s.
Proof.
  intros Hp Hg [(k' & p' & Hk & Hg' & Ho)|H]; [|by right]. left. cbn in Hk, Ho.
  destruct (decide (k = k')) as [<-|Hne].
  - rewrite lookup_insert_eq in Hk. injection Hk as <-. exists k, p. auto.
  - rewrite lookup_insert_ne in Hk by done. exists k', p'. auto.
Qed.

(** A reconcile gates nothing. *)
Lemma reconcile_gates_nothing env p q update recorder (w w' : W) r :
  PodReconciler.Reconcile env (Ok p) update recorder w = (w', r) →
  (rr_sent r = Some q ∨ rr_sent r = None ∧ q = p) → gated q = true → gated p = true.
Proof.
  unfold PodReconciler.Reconcile.
  assert (HasSchedulingGate (NewPod p recorder) = gated p) as -> by done.
  destruct (gated p) eqn:E; [done|]. intros [= <- <-] [[=]|[_ ->]]. congruence.
Qed.

Lemma held_store s l1 p l2 :
  as_Creating s = l1 ++ p :: l2 →
  held (set_Pods (l1 ++ l2) (<[ key_of p := p ]> (as_Pods s)) s) → held s.
Proof.
  intros Hc [(k & q & Hk & Hg & Ho)|(q & Hq & Hg & Ho)]; cbn in *.
  - destruct (decide (key_of p = k)) as [<-|Hne].
    + rewrite lookup_insert_eq in Hk. injection Hk as <-. right. exists p. rewrite Hc. split; [set_solver|done].
    + rewrite lookup_insert_ne in Hk by done. left. exists k, q. auto.
  - right. exists q. rewrite Hc. split; [set_solver|done].
Qed.

Lemma api_step_inv l s (w : W) s' w' :
  api_step l s w s' w' →
  api_inv s → api_inv s' ∧ ∀ tr, op_inv s tr → op_inv s' tr.
Proof.
  intros Hs Hi.
  assert (Hpods : ∀ c p, (held (set_Pods c p s) → held s ∨ registered s) →
    api_inv (set_Pods c p s) ∧ ∀ tr, op_inv s tr → op_inv (set_Pods c p s) tr).
  { intros c p Hh. split; [by apply inv_pods|]. intros tr. by apply op_pods. }
  assert (Hconf : ∀ r, reply_version r ∉ as_Versions s → (finalized s → reply_finalized r) →
    api_inv (write_config r s) ∧ ∀ tr, op_inv s tr → op_inv (write_config r s) tr).
  { intros r Hv Hf. split; [by apply inv_config|]. intros tr Ho. by apply op_config. }
  assert (Hkeep : ∀ cur r, as_Config s = Some cur → reply_finalizers r = reply_finalizers cur →
    finalized s → reply_finalized r).
  { intros cur r Hc Hf (r' & Hr' & Hf'). unfold reply_finalized in *. rewrite Hf. by simplify_eq. }
  destruct Hs as [env obj rec s w w' p Hm _|obj s w Hg|s w l1 p l2 Hc Hk|s w l1 p l2 Hc
    |env update rec k p q s w w' r _ Hp _ Hr Hq _|env update rec k p q s w w' r _ Hp Hr Hq _
    |k s w w'|k p q s w Hp Hg _|k p q s w Hp Hg|k s w
    |r s w Hc Hv Hd|cur r s w Hc Hv Hd Hf|cur r s w Hc Hv Hd Hf|s w|m s w Hm].
  - apply Hpods. by right.
  - apply Hpods. intros [H|(p & Hp & Hg' & Ho)]; [by left; left|]. left. right. exists p. split; [|done].
    apply elem_of_cons in Hp as [->|]; [congruence|done].
  - apply Hpods. intros H. left. by eapply held_store.
  - apply Hpods. intros [H|(q & Hq & Hg)]; [by left; left|]. left. right. exists q.
    rewrite Hc. split; [set_solver|done].
  - apply Hpods. intros H. left. eapply held_insert; [done|by eapply reconcile_gates_nothing|done].
  - apply Hpods. intros H. left. eapply held_insert; [done|by eapply reconcile_gates_nothing|done].
  - done.
  - apply Hpods. intros H. left. by eapply held_insert.
  - apply Hpods. intros H. left. by eapply held_insert.
  - apply Hpods. intros [(k' & q & Hk & Hg)|H]; [|by left; right]. left. left.
    cbn in Hk. apply lookup_delete_Some in Hk as [_ Hk]. eauto.
  - apply Hconf; [done|]. intros (r' & Hr' & _). congruence.
  - apply Hconf; [done|]. by eapply Hkeep.
  - apply Hconf; [done|]. by eapply Hkeep.
  - split; [by apply inv_sync|]. intros tr. apply op_sync.
  - specialize (Hm webhookConfiguration).
    assert (Hreg : registered (set_Objects m s) → registered s).
    { intros [o Ho]. cbn in Ho. rewrite Ho in Hm.
      destruct (as_Objects s !! webhookConfiguration) eqn:E; [|done]. by eexists. }
    split; [|intros tr; by apply op_objects]. apply inv_objects; [|intros o Ho|done].
    + intros H. apply (ai_held s Hi). auto.
    + cbn in Ho. rewrite Ho in Hm. destruct (as_Objects s !! webhookConfiguration) eqn:E; [|done].
      rewrite Hm. by apply (ai_mwc s Hi).
Qed.

(** *** Requests of the operator *)
Lemma hasGatedPod_in l p : p ∈ l → gated p = true → hasGatedPod l = true.
Proof.
  intros Hp Hg. unfold hasGatedPod. apply existsb_exists. exists p.
  split; [by apply list_elem_of_In|]. unfold gated, HasSchedulingGate, HasGate, pod_Gates in Hg. cbn in Hg.
  by destruct (ps_SchedulingGates (p_Spec p)).
Qed.

Lemma cleared_snoc tr e :
  cleared (tr ++ [e]) → cleared tr ∨ (no_gated_pods e ∧ Exists webhook_deleted tr).
Proof.
  intros (a & e1 & b & e2 & c & e3 & d & Heq & H1 & H2 & H3).
  destruct d as [|x d _] using rev_ind.
  - right. rewrite app_comm_cons, !app_assoc in Heq.
    replace ((a ++ e1 :: b) ++ e2 :: c ++ [e3]) with (((a ++ e1 :: b) ++ e2 :: c) ++ [e3]) in Heq
      by (by rewrite <-app_assoc).
    apply app_inj_tail in Heq as [-> ->]. split; [done|]. rewrite !Exists_app, !Exists_cons. tauto.
  - left. exists a, e1, b, e2, c, e3, d. split; [|done].
    replace (a ++ e1 :: b ++ e2 :: c ++ e3 :: d ++ [x])
      with ((a ++ e1 :: b ++ e2 :: c ++ e3 :: d) ++ [x]) in Heq.
    + by apply app_inj_tail in Heq as [-> _].
    + by rewrite <-!app_assoc; cbn; rewrite <-!app_assoc; cbn; rewrite <-!app_assoc.
Qed.

(** A request that tells nothing about the configuration. *)
Lemma op_quiet s tr e :
  ev_reply e = None → ev_read e = None →
  (applies_none tr → webhook_deleted e → ¬ registered s) →
  (applies_none tr → no_gated_pods e → Exists webhook_deleted tr → ¬ registered s ∧ ¬ held s) →
  op_inv s tr → op_inv s (tr ++ [e]).
Proof.
  intros Hrep Hread Hw Hp [H1 H2 H3 H4 H5].
  assert (Hv : versions (tr ++ [e]) = versions tr).
  { rewrite versions_app. unfold versions at 2. cbn. rewrite Hrep. by rewrite app_nil_r. }
  assert (Hr : reads (tr ++ [e]) = reads tr).
  { rewrite reads_app. unfold reads at 2. cbn. rewrite Hread. by rewrite app_nil_r. }
  constructor; rewrite ?Hv, ?Hr; try done.
  - intros [Ha _]%Forall_app [?|He]%Exists_app; [by apply H3|].
    apply Exists_cons in He as [?|?%Exists_nil]; [by apply Hw|done].
  - intros [Ha _]%Forall_app [?|[??]]%cleared_snoc; auto.
Qed.

(** An update of the configuration that is carried out, with or without a reply. *)
Lemma update_inv s tr e cur r :
  lawful tr e → api_inv s → op_inv s tr →
  as_Config s = Some cur → sent_version _ (ev_call e) = Some (reply_version cur) →
  reply_version r ∉ as_Versions s → (reply_deleting cur → reply_deleting r) →
  ev_read e = None → (ev_reply e = Some r ∨ ev_reply e = None) →
  ¬ webhook_deleted e → ¬ no_gated_pods e →
  drops_finalizer _ (ev_call e) ∨ (finalized s → reply_finalized r) →
  api_inv (write_config r s) ∧ op_inv (write_config r s) (tr ++ [e]).
Proof.
  intros Hlaw Ha Ho Hc Hsent Hv Hdel Hread Hrep Hw Hp Hf.
  assert (Hmode : ∀ r0, reads tr = [r0] → reply_deleting r0 → reply_deleting cur ∧ ¬ cache_live s).
  { intros r0 Hr0 Hd0. eapply (oi_deleting s tr Ho); [done..|]. by eapply (law_sent _ _ Hlaw). }
  assert (Hr : reads (tr ++ [e]) = reads tr).
  { rewrite reads_app. unfold reads at 2. cbn. rewrite Hread. by rewrite app_nil_r. }
  destruct Hf as [Hdrop|Hf'].
  - destruct (law_drops _ _ Hlaw Hdrop) as (Hcl & Hna & r0 & Hr0 & Hd0).
    destruct (Hmode r0 Hr0 Hd0) as [Hdc Hnl]. destruct (oi_cleared s tr Ho Hna Hcl) as [Hnr Hnh].
    split; constructor.
    + intros [?|?]; [by destruct Hnr|by destruct Hnh].
    + intros H. by destruct Hnl.
    + apply (ai_mwc s Ha).
    + intros r' Hr'. cbn in *. destruct (settle_cases r) as [E|[E _]]; rewrite E in Hr'; [|done].
      injection Hr' as <-. set_solver.
    + intros r' Hr'. destruct (ai_copy s Ha r' Hr') as [Hin _]. split; [cbn; set_solver|].
      intros cur' Hc' E. cbn in Hc'. destruct (settle_cases r) as [E'|[E' _]]; rewrite E' in Hc'; [|done].
      injection Hc' as <-. congruence.
    + intros r' Hr' Hd'. rewrite Hr, Hr0 in Hr'. by injection Hr' as <-.
    + intros r' _ _ cur' Hc' _. cbn in Hc'. destruct (settle_cases r) as [E|[E _]]; rewrite E in Hc'; [|done].
      injection Hc' as <-. split; [by apply Hdel|done].
    + done.
    + done.
    + rewrite versions_app. apply Forall_app. split.
      * eapply Forall_impl; [apply (oi_versions s tr Ho)|]. cbn. set_solver.
      * unfold versions. cbn. destruct Hrep as [->| ->]; [|done]. constructor; [cbn; set_solver|done].
  - split; [by apply inv_config|]. pose proof (op_config r s tr Ho Hv Hf') as Ho'. constructor.
    + intros r0. rewrite Hr. apply (oi_live _ _ Ho').
    + intros r0 Hr0 Hd0 cur' Hc' _. rewrite Hr in Hr0. destruct (Hmode r0 Hr0 Hd0) as [Hdc Hnl].
      cbn in Hc'. destruct (settle_cases r) as [E|[E _]]; rewrite E in Hc'; [|done].
      injection Hc' as <-. split; [by apply Hdel|done].
    + intros [Hna _]%Forall_app [H|H]%Exists_app; [by apply (oi_webhook _ _ Ho')|].
      apply Exists_cons in H as [?|?%Exists_nil]; done.
    + intros [Hna _]%Forall_app [H|[??]]%cleared_snoc; [|done]. by apply (oi_cleared _ _ Ho').
    + rewrite versions_app. apply Forall_app. split; [apply (oi_versions _ _ Ho')|].
      unfold versions. cbn. destruct Hrep as [->| ->]; [|done]. constructor; [cbn; set_solver|done].
Qed.

(** The read of the configuration. *)
Lemma read_inv s tr e r :
  versions tr = [] → ev_read e = Some r → ev_reply e = Some r →
  ¬ webhook_deleted e → ¬ no_gated_pods e →
  reply_version r ∈ as_Versions s →
  (¬ reply_deleting r → reply_finalized r → finalized s) →
  (reply_deleting r → ¬ cache_live s) →
  (∀ cur, as_Config s = Some cur → reply_version cur = reply_version r → reply_deleting r → reply_deleting cur) →
  op_inv s tr → op_inv s (tr ++ [e]).
Proof.
  intros Hv Hread Hrep Hw Hp Hin Hlive Hdel Hcur Ho.
  assert (Hreads : reads tr = []).
  { clear -Hv. induction tr as [|[T c t] tr IH]; [done|]. unfold versions, reads in *. cbn in *.
    destruct c; cbn in *; try (by apply IH); destruct t; cbn in *; try done; by apply IH. }
  assert (Hr : reads (tr ++ [e]) = [r]).
  { rewrite reads_app, Hreads. unfold reads. cbn. by rewrite Hread. }
  assert (Hvs : versions (tr ++ [e]) = [reply_version r]).
  { rewrite versions_app, Hv. unfold versions. cbn. by rewrite Hrep. }
  constructor; rewrite ?Hr, ?Hvs.
  - intros r' [= <-]. done.
  - intros r' [= <-] Hd cur Hc Hx. apply list_elem_of_singleton in Hx. split; [by eapply Hcur|by apply Hdel].
  - intros [Hna _]%Forall_app [H|H]%Exists_app; [by apply (oi_webhook _ _ Ho)|].
    apply Exists_cons in H as [?|?%Exists_nil]; done.
  - intros [Hna _]%Forall_app [H|[??]]%cleared_snoc; [|done]. by apply (oi_cleared _ _ Ho).
  - by constructor.
Qed.

(** A change of the operand's objects that does not register the webhook. *)
Lemma objects_inv s tr e m :
  ev_reply e = None → ev_read e = None → ¬ no_gated_pods e →
  (registered (set_Objects m s) → registered s) →
  (∀ o, m !! webhookConfiguration = Some o → ob_Finalizers o = []) →
  (webhook_deleted e → ¬ registered (set_Objects m s)) →
  api_inv s → op_inv s tr → api_inv (set_Objects m s) ∧ op_inv (set_Objects m s) (tr ++ [e]).
Proof.
  intros Hrep Hread Hp Hreg Hm Hw Ha Ho. split.
  - apply inv_objects; [|done..]. intros H. apply (ai_held s Ha). auto.
  - apply op_quiet; [done..| |by apply op_objects]. done.
Qed.

Lemma registered_settle r o m s :
  as_Objects s = m → is_Some (m !! r) → registered (set_Objects (settle_object r o m) s) → registered s.
Proof.
  intros <- Hr. unfold registered, settle_object. cbn. destruct (_ && _).
  - intros [x Hx]. apply lookup_delete_Some in Hx as [_ Hx]. by eexists.
  - destruct (decide (r = webhookConfiguration)) as [->|Hne]; [done|]. by rewrite lookup_insert_ne.
Qed.

Lemma mwc_settle r o m x :
  (∀ y, m !! webhookConfiguration = Some y → ob_Finalizers y = []) →
  (r = webhookConfiguration → ob_Finalizers o = []) →
  settle_object r o m !! webhookConfiguration = Some x → ob_Finalizers x = [].
Proof.
  intros Hm Ho. unfold settle_object. destruct (_ && _).
  - intros [_ Hx]%lookup_delete_Some. by apply Hm.
  - intros [[-> <-]|[_ Hx]]%lookup_insert_Some; [by apply Ho|by apply Hm].
Qed.

(** A request, its answer, and the state after it keep the invariants. *)
Definition request_keeps {T} (c : Call T) : Prop := ∀ s a s' tr,
  as_Overtaken s' = false → serves T c s a s' → lawful tr (mkEv c a) → webhook_plain T c →
  api_inv s → op_inv s tr → api_inv s' ∧ op_inv s' (tr ++ [mkEv c a]).

Lemma quiet_request {T} (c : Call T) s a s' tr :
  api_inv s → op_inv s tr → ev_reply (mkEv c a) = None → ev_read (mkEv c a) = None →
  (webhook_deleted (mkEv c a) → False) → (no_gated_pods (mkEv c a) → False) →
  s' = s → api_inv s' ∧ op_inv s' (tr ++ [mkEv c a]).
Proof. intros Ha Ho H1 H2 H3 H4 ->. split; [done|]. apply op_quiet; [done..| | |done]; tauto. Qed.

Lemma keeps_UpdateObject r o : request_keeps (UpdateObject r o).
Proof.
  intros s a s' tr Ht Hs Hlaw Hplain Ha Ho. pose proof (quiet_request (UpdateObject r o) s a s' tr Ha Ho) as Hquiet. cbn in Hs, Hquiet.
  destruct Hs as [[-> _]|(cur & o' & Hk & Hc & _ & _ & -> & _)]; [by apply Hquiet|].
  apply objects_inv; [done|done|by intros []| | |by intros []|done|done].
  + by eapply registered_settle.
  + intros x. apply mwc_settle; [apply (ai_mwc s Ha)|]. by intros ->.
Qed.

Lemma keeps_DeleteObject r : request_keeps (DeleteObject r).
Proof.
  intros s a s' tr Ht Hs Hlaw Hplain Ha Ho. pose proof (quiet_request (DeleteObject r) s a s' tr Ha Ho) as Hquiet. cbn in Hs, Hquiet.
  destruct Hs as [[-> (e & -> & He)]|(cur & o' & Hc & Hf & Hd & -> & Hn)].
  + split; [done|]. apply op_quiet; [done..| |by intros _ []|done]. intros _ [-> Hw]. cbn in Hw.
    destruct (isNotFound e); [|done]. unfold registered. rewrite He by done. by intros [? ?].
  + apply objects_inv; [done|done|by intros []| | |intros [-> _]|done|done].
    * by eapply registered_settle.
    * intros x. apply mwc_settle; [apply (ai_mwc s Ha)|]. intros ->. rewrite Hf. by apply (ai_mwc s Ha).
    * unfold registered, settle_object. cbn. rewrite Hd, Hf.
      rewrite bool_decide_eq_true_2 by (by apply (ai_mwc s Ha)). cbn. rewrite lookup_delete_eq.
      by intros [? ?].
Qed.

Lemma keeps_ApplyObject m : request_keeps (ApplyObject m).
Proof.
  intros s a s' tr Ht Hs Hlaw Hplain Ha Ho. pose proof (quiet_request (ApplyObject m) s a s' tr Ha Ho) as Hquiet. cbn in Hs, Hquiet.
  destruct Hs as [[-> _]|(o & Hf & ->)]; [by apply Hquiet|].
  destruct (law_applies _ _ Hlaw I) as (r & Hr & Hnd & Hfin).
  pose proof (oi_live s tr Ho r Hr Hnd Hfin) as Hfs.
  split; [apply inv_objects; [done|intros x Hx|done]|].
  + apply lookup_insert_Some in Hx as [[Hm <-]|[_ Hx]]; [|by apply (ai_mwc s Ha)].
    destruct (ob_Finalizers o) as [|f l] eqn:E; [done|].
    destruct (Hf f) as [H|(cur & Hc & H)]; [by left| |].
    * rewrite (Hplain Hm) in H. by apply not_elem_of_nil in H.
    * rewrite Hm in Hc. rewrite (ai_mwc s Ha cur Hc) in H. by apply not_elem_of_nil in H.
  + assert (Hna : ¬ applies_none (tr ++ [mkEv (ApplyObject m) a])).
    { intros [_ H]%Forall_app. apply Forall_cons_1 in H as [H _]. by apply H. }
    assert (Hq : op_inv s (tr ++ [mkEv (ApplyObject m) a])) by (apply op_quiet; [done..|by intros _ []|by intros _ []|done]).
    destruct Hq as [H1 H2 H3 H4 H5]. by constructor.
Qed.

Lemma keeps_GetConfigCached : request_keeps GetConfigCached.
Proof.
  intros s a s' tr Ht Hs Hlaw Hplain Ha Ho. pose proof (quiet_request GetConfigCached s a s' tr Ha Ho) as Hquiet. cbn in Hs, Hquiet.
  destruct Hs as [-> Hs]. destruct a as [r|e]; [|by apply Hquiet].
  destruct (Hs r eq_refl) as [Hc Huid]. split; [done|]. destruct (ai_copy s Ha r Hc) as [Hin Hcopy].
  apply (read_inv s tr _ r); try done; try (by intros []).
  + by apply (law_reads _ _ Hlaw).
  + intros Hnd Hf. apply (ai_cache s Ha). by exists r.
  + intros Hd (r' & Hr' & Hnd & _). congruence.
  + intros cur Hcur Hv Hd. by apply (Hcopy cur).
Qed.

Lemma keeps_GetConfigLive : request_keeps GetConfigLive.
Proof.
  intros s a s' tr Ht Hs Hlaw Hplain Ha Ho. pose proof (quiet_request GetConfigLive s a s' tr Ha Ho) as Hquiet. cbn in Hs, Hquiet.
  destruct a as [r|e]; [|by apply Hquiet]. destruct Hs as [Hc ->]. cbn in Ht. apply orb_false_elim in Ht as [_ Ht].
  split; [by apply inv_ghost|]. apply op_ghost; [done|].
  apply (read_inv s tr _ r); try done; try (by intros []).
  + by apply (law_reads _ _ Hlaw).
  + by apply (ai_config s Ha).
  + intros _ Hf. by exists r.
  + intros Hd (r' & Hr' & Hnd & _). destruct (ai_copy s Ha r' Hr') as [_ Hcopy].
    apply Hnd, (Hcopy r Hc); [|done]. unfold behind in Ht. rewrite Hr' in Ht. apply negb_false_iff in Ht.
    by apply bool_decide_eq_true in Ht.
  + intros cur Hcur _ Hd. congruence.
Qed.

Lemma keeps_UpdateConfig c : request_keeps (UpdateConfig c).
Proof.
  intros s a s' tr Ht Hs Hlaw Hplain Ha Ho. pose proof (quiet_request (UpdateConfig c) s a s' tr Ha Ho) as Hquiet. cbn in Hs, Hquiet.
  destruct Hs as [[-> Hok]|(cur & r & Hc & Hv & Hfresh & Hd & Hf & -> & Hrep)].
  { destruct a; [done|by apply Hquiet]. }
  apply (update_inv s tr _ cur r); try done; try (by intros []).
  + cbn. by rewrite Hv.
  + unfold reply_deleting. by rewrite Hd.
  + destruct Hrep as [->|]; [by left|]. right. by destruct a.
  + cbn. unfold reply_finalized. rewrite Hf.
    destruct (decide (utils.PodPlacementFinalizerName ∈ elems (om_Finalizers (cppc_Meta c)))); auto.
Qed.

Lemma keeps_UpdateConfigStatus c : request_keeps (UpdateConfigStatus c).
Proof.
  intros s a s' tr Ht Hs Hlaw Hplain Ha Ho. pose proof (quiet_request (UpdateConfigStatus c) s a s' tr Ha Ho) as Hquiet. cbn in Hs, Hquiet.
  destruct Hs as [[-> Hok]|(cur & r & Hc & Hv & Hfresh & Hd & Hf & _ & -> & Hrep)].
  { destruct a; [done|by apply Hquiet]. }
  apply (update_inv s tr _ cur r); try done; try (by intros []).
  + cbn. by rewrite Hv.
  + unfold reply_deleting. by rewrite Hd.
  + destruct Hrep as [->|]; [by left|]. right. by destruct a.
  + right. intros (r' & Hr' & Hfr). unfold reply_finalized in *. rewrite Hf. by simplify_eq.
Qed.

Lemma keeps_ListPendingPods : request_keeps ListPendingPods.
Proof.
  intros s a s' tr Ht Hs Hlaw Hplain Ha Ho. pose proof (quiet_request ListPendingPods s a s' tr Ha Ho) as Hquiet. cbn in Hs, Hquiet.
  destruct a as [l|e]; [|by apply Hquiet; [..|intros (l & ? & _)|]]. destruct Hs as [Hp ->].
  assert (Hsub : as_Overlooked s ⊆ if hasGatedPod l then as_Overlooked s else creating_gated s ∪ as_Overlooked s)
    by (destruct (hasGatedPod l); set_solver).
  split; [by apply inv_ghost|]. apply op_quiet; [done..|by intros _ []| |by apply op_ghost].
  intros Hna (l' & [= <-] & Hl) Hex. split; [by apply (oi_webhook s tr Ho)|].
  intros [(k & p & Hk & Hg & _)|(p & Hp' & Hg & Hno)]; cbn in *.
  + assert (Hin : p ∈ l) by (by eapply Hp). by rewrite (hasGatedPod_in l p) in Hl.
  + rewrite Hl in Hno. apply Hno, elem_of_union_l, elem_of_list_to_set, list_elem_of_fmap.
    exists p. split; [done|]. by apply list_elem_of_filter.
Qed.

Lemma request_inv T (c : Call T) : request_keeps c.
Proof.
  destruct c; try (by intros s a s' tr Ht Hs Hlaw Hplain Ha Ho; cbn in Hs; apply (quiet_request _ s); cbn; (done || apply Hs)).
  - apply keeps_UpdateObject.
  - apply keeps_DeleteObject.
  - apply keeps_ApplyObject.
  - apply keeps_GetConfigCached.
  - apply keeps_GetConfigLive.
  - apply keeps_UpdateConfig.
  - apply keeps_UpdateConfigStatus.
  - apply keeps_ListPendingPods.
Qed.

(** *** All steps *)
Definition sys_inv (s : Sys) : Prop :=
  match sy_Operator s with
  | None => True
  | Some (tr, p) => wp faithful p (λ _ tr', always lawful tr') tr ∧ calls webhook_plain p
  end
  ∧ (as_Overtaken (sy_Api s) = false →
     api_inv (sy_Api s)
     ∧ match sy_Operator s with None => True | Some (tr, _) => op_inv (sy_Api s) tr end).

Lemma sys_inv_init (w : W) : sys_inv (sys_init w).
Proof.
  split; [done|]. intros _. split; [|done]. constructor; cbn; try done.
  - intros [[o Ho]|[(k & p & Hk & _)|(p & Hp & _)]]; cbn in *.
    + by rewrite lookup_empty in Ho.
    + by rewrite lookup_empty in Hk.
    + by apply not_elem_of_nil in Hp.
  - by intros (r & Hr & _).
Qed.

(** Nobody but a live read of the operator touches the second ghost. *)
Lemma api_step_overtaken l s (w : W) s' w' : api_step l s w s' w' → as_Overtaken s' = as_Overtaken s.
Proof. by destruct 1. Qed.

Lemma serves_overtaken T (c : Call T) s a s' :
  serves T c s a s' → as_Overtaken s' = false → as_Overtaken s = false.
Proof.
  destruct c; cbn; unfold refused; try (by intros ->); try (by intros [-> _]).
  - by intros [[-> _]|(cur & o' & _ & _ & _ & _ & -> & _)].
  - by intros [[-> _]|(cur & o' & _ & _ & _ & -> & _)].
  - by intros [[-> _]|(o & _ & ->)].
  - destruct a; [|by intros ->]. intros [_ ->]. cbn. by intros [? _]%orb_false_elim.
  - by intros [[-> _]|(cur & r & _ & _ & _ & _ & _ & -> & _)].
  - by intros [[-> _]|(cur & r & _ & _ & _ & _ & _ & _ & -> & _)].
  - destruct a; [|by intros ->]. by intros [_ ->].
Qed.

(** The next request of a program with lawful traces is lawful. *)
Lemma request_lawful T (c : Call T) (k : T → P Outcome) tr s a s' :
  wp faithful (Do c k) (λ _ tr', always lawful tr') tr → serves T c s a s' →
  lawful tr (mkEv c a) ∧ wp faithful (k a) (λ _ tr', always lawful tr') (tr ++ [mkEv c a]).
Proof.
  intros Hwp Hs. pose proof (Hwp a (serves_faithful T c s a s' Hs)) as Hwp'. split; [|done].
  pose proof (wp_always_now _ _ _ _ faithful_live Hwp') as Hal. by apply always_snoc in Hal as [_ Hlaw].
Qed.

Lemma sys_inv_step l s s' : sys_step l s s' → sys_inv s → sys_inv s'.
Proof.
  intros Hs [Hprog Hi]. destruct Hs as [l s s' op w w' Hs|s w|T c k tr a s s' w Hs|s tr o w|s op w].
  - split; [done|]. cbn in *. rewrite (api_step_overtaken l s w s' w' Hs). intros [Ha Hop]%Hi.
    destruct (api_step_inv l s w s' w' Hs Ha) as [Ha' Hop']. split; [done|].
    destruct op as [[tr p]|]; auto.
  - split; cbn in *; [split; [apply Reconcile_lawful|apply Reconcile_webhook_plain]|].
    intros [Ha _]%Hi. split; [done|apply op_inv_start].
  - cbn in Hprog. destruct Hprog as (Hwp & Hcalls & Hk).
    destruct (request_lawful T c k tr s a s' Hwp Hs) as [Hlaw Hwp'].
    split; [by split; [|apply Hk]|]. cbn in *. intros Ht. destruct (Hi (serves_overtaken T c s a s' Hs Ht)) as [Ha Ho].
    by apply (request_inv T c s a s' tr Ht Hs Hlaw Hcalls Ha Ho).
  - split; [done|]. cbn in *. by intros [? _]%Hi.
  - split; [done|]. cbn in *. intros [? _]%Hi. split; [by apply inv_sync|done].
Qed.

Lemma sys_inv_steps ls s s' : steps ls s s' → sys_inv s → sys_inv s'.
Proof. induction 1; [done|]. intros Hi. by eapply IHsteps, sys_inv_step. Qed.

(** ** Every gated pod is released *)

(** The failures that the label of a pod counts; a label that is no number counts as
    none, as it does for [EnsureAndIncrementLabel]. *)
Definition failures (p : CorePod) : Z := default 0%Z (error_count (NewPod p None) ≫= parseInt32).

Lemma failures_low p : (minInt32 ≤ failures p)%Z.
Proof.
  unfold failures. destruct (error_count _) as [v|]; cbn; [|done].
  destruct (parseInt32 v) as [n|] eqn:Hp; cbn; [|done]. apply bind_Some in Hp as (z & _ & Hz).
  destruct (in_int32 z) eqn:E; [|done]. injection Hz as ->. unfold in_int32 in E.
  by apply andb_prop in E as [E%Z.leb_le _].
Qed.

(** The next failure is counted, and can be read again. *)
Lemma next_count_parses p :
  (failures p < maxInt32)%Z → parseInt32 (next_count (error_count (NewPod p None))) = Some (failures p + 1)%Z.
Proof.
  intros Hmax. pose proof (failures_low p) as Hmin. revert Hmax Hmin. unfold failures, next_count.
  destruct (error_count _) as [v|]; cbn; [|done].
  destruct (parseInt32 v) as [n|]; cbn; [|done]. intros Hmax Hmin. apply parseInt32_sprintd.
  unfold in_int32. apply andb_true_intro. unfold minInt32, maxInt32 in *. split; apply Z.leb_le; lia.
Qed.

(** One reconcile of a gated pod, as it is stored. *)
Lemma reconcile_gated_pod env p q update recorder (w w' : W) r :
  (failures p < maxInt32)%Z →
  PodReconciler.Reconcile env (Ok p) update recorder w = (w', r) →
  (rr_sent r = Some q ∨ rr_sent r = None ∧ q = p) →
  gated q = true →
  failures q = (failures p + 1)%Z
  ∧ ((∀ ns, is_ok (listPPCs env ns) = true) → (failures p + 1 < MaxRetryCount)%Z).
Proof.
  intros Hn HR Hq Hg.
  assert (Hgp : gated p = true) by (by eapply reconcile_gates_nothing).
  unfold PodReconciler.Reconcile in HR.
  assert (HasSchedulingGate (NewPod p recorder) = true) as Hgr by done. rewrite Hgr in HR. cbn [negb] in HR.
  pose proof (gate_kept_cases env (NewPod p recorder) w) as Hk. cbn zeta in Hk.
  destruct (processPod env (NewPod p recorder) w) as [w1 q1]; cbn [snd] in Hk.
  assert (rr_sent r = Some (pod_obj q1)) as Hs.
  { destruct (update (pod_obj q1)); by injection HR as _ <-. }
  destruct Hq as [Hq|[Hq _]]; [|congruence]. rewrite Hs in Hq. injection Hq as <-.
  destruct (Hk Hg) as [Hcase Hcount].
  pose proof (next_count_parses p Hn) as Hparse. split.
  - unfold failures at 1. change (error_count (NewPod (pod_obj q1) None)) with (error_count q1).
    rewrite Hcount. change (error_count (NewPod p recorder)) with (error_count (NewPod p None)).
    cbn [mbind option_bind]. by rewrite Hparse.
  - intros Hl. destruct Hcase as [Hcase|Hm]; [by rewrite Hl in Hcase|].
    rewrite (maxRetries_Some q1 _ Hcount) in Hm.
    change (error_count (NewPod p recorder)) with (error_count (NewPod p None)) in Hm.
    rewrite Hparse in Hm. by apply Z.leb_gt in Hm.
Qed.

Definition reconciled (k : Key) (l : Label) : nat :=
  match l with LReconcile k' => if decide (k' = k) then 1 else 0 | _ => 0 end.
Definition unlisted (k : Key) (l : Label) : nat :=
  match l with LUnlisted k' => if decide (k' = k) then 1 else 0 | _ => 0 end.
Definition count (f : Label → nat) (ls : list Label) : nat := sum_list_with f ls.

Definition free (k : Key) (s : ApiState) : Prop :=
  match as_Pods s !! k with None => True | Some p => gated p = false end.
Definition waiting (k : Key) (n : Z) (s : ApiState) : Prop :=
  ∃ p, as_Pods s !! k = Some p ∧ gated p = true ∧ failures p = n.

Lemma serves_pods T (c : Call T) s a s' : serves T c s a s' → as_Pods s' = as_Pods s.
Proof.
  destruct c; cbn; unfold refused; try (by intros ->); try (by intros [-> _]).
  - by intros [[-> _]|(cur & o' & _ & _ & _ & _ & -> & _)].
  - by intros [[-> _]|(cur & o' & _ & _ & _ & -> & _)].
  - by intros [[-> _]|(o & _ & ->)].
  - destruct a; [by intros [_ ->]|by intros ->].
  - by intros [[-> _]|(cur & r & _ & _ & _ & _ & _ & -> & _)].
  - by intros [[-> _]|(cur & r & _ & _ & _ & _ & _ & _ & -> & _)].
  - destruct a; [by intros [_ ->]|by intros ->].
Qed.

(** What a step does to a pod: a reconcile counts a failure or frees it, others
    leave the count alone. *)
Lemma sys_step_pod l s s' k n :
  sys_step l s s' → l ≠ LStore k → l ≠ LCount k → (n < maxInt32)%Z → waiting k n (sy_Api s) →
  free k (sy_Api s')
  ∨ (waiting k (n + Z.of_nat (reconciled k l) + Z.of_nat (unlisted k l)) (sy_Api s')
     ∧ (reconciled k l = 1 → (n + 1 < MaxRetryCount)%Z)).
Proof.
  intros Hs Hl Hlc Hn (p & Hp & Hg & Hc).
  assert (Hsame : ∀ s', as_Pods s' !! k = Some p → reconciled k l = 0 → unlisted k l = 0 →
    free k s' ∨ (waiting k (n + Z.of_nat (reconciled k l) + Z.of_nat (unlisted k l)) s'
       ∧ (reconciled k l = 1 → (n + 1 < MaxRetryCount)%Z))).
  { intros s1 H1 -> ->. right. rewrite !Z.add_0_r. split; [by exists p|done]. }
  destruct Hs as [l s s' op w w' Hs|s w|T c kk tr a s s' w Hs|s tr o w|s op w]; cbn in *; cycle 1.
  { by apply Hsame. } { apply Hsame; [|done..]. by rewrite (serves_pods T c s a s' Hs). }
  { by apply Hsame. } { by apply Hsame. }
  destruct Hs as [env obj rec s w w' p' Hm _|obj s w Hg'|s w l1 p' l2 Hcr Hk|s w l1 p' l2 Hcr
    |env update rec k' p' q s w w' r _ Hp' Hlist Hr Hq _|env update rec k' p' q s w w' r _ Hp' Hr Hq _
    |k' s w w'|k' p' q s w Hp' Hg' He|k' p' q s w Hp' Hg'|k' s w
    |r s w Hcf Hv Hd|cur r s w Hcf Hv Hd Hf|cur r s w Hcf Hv Hd Hf|s w|m s w Hm]; try by apply Hsame.
  - apply Hsame; [|done..]. cbn. rewrite lookup_insert_ne; [done|]. congruence.
  - destruct (decide (k' = k)) as [->|Hne].
    + cbn [reconciled unlisted]. rewrite decide_True by done.
      rewrite Hp in Hp'. injection Hp' as <-. unfold free, waiting. cbn. rewrite lookup_insert_eq.
      destruct (gated q) eqn:Hgq; [|by left]. right.
      subst n. destruct (reconcile_gated_pod env p q update rec w w' r Hn Hr Hq Hgq) as [H1 H2].
      split; [|auto]. exists q. rewrite Z.add_0_r. done.
    + apply Hsame; cbn; [by rewrite lookup_insert_ne|by rewrite decide_False|done].
  - destruct (decide (k' = k)) as [->|Hne].
    + cbn [reconciled unlisted]. rewrite decide_True by done.
      rewrite Hp in Hp'. injection Hp' as <-. unfold free, waiting. cbn. rewrite lookup_insert_eq.
      destruct (gated q) eqn:Hgq; [|by left]. right.
      subst n. destruct (reconcile_gated_pod env p q update rec w w' r Hn Hr Hq Hgq) as [H1 H2].
      split; [|done]. exists q. rewrite Z.add_0_r. done.
    + apply Hsame; cbn; [by rewrite lookup_insert_ne|done|by rewrite decide_False].
  - destruct (decide (k' = k)) as [->|Hne]; [|apply Hsame; [cbn; by rewrite lookup_insert_ne|done..]].
    rewrite Hp in Hp'. injection Hp' as <-. unfold free, waiting. cbn. rewrite lookup_insert_eq.
    destruct (gated q) eqn:Hgq; [|by left]. right. rewrite !Z.add_0_r. split; [|done]. exists q.
    unfold failures in *. by rewrite He.
  - apply Hsame; [|done..]. cbn. rewrite lookup_insert_ne; [done|]. congruence.
  - destruct (decide (k' = k)) as [->|Hne]; [|apply Hsame; [cbn; by rewrite lookup_delete_ne|done..]].
    left. unfold free. cbn. by rewrite lookup_delete_eq.
Qed.

Lemma sys_step_free l s s' k :
  sys_step l s s' → l ≠ LStore k → free k (sy_Api s) → free k (sy_Api s').
Proof.
  intros Hs Hl Hf.
  destruct Hs as [l s s' op w w' Hs|s w|T c kk tr a s s' w Hs|s tr o w|s op w]; cbn in *; try done.
  2: { unfold free in *. by rewrite (serves_pods T c s a s' Hs). }
  assert (Hupd : ∀ k' p q (s : ApiState), free k s → as_Pods s !! k' = Some p →
    (gated q = true → gated p = true) →
    free k (set_Pods (as_Creating s) (<[ k' := q ]> (as_Pods s)) s)).
  { intros k' p q s0 Hf0 Hp Hg. unfold free in *. cbn. destruct (decide (k' = k)) as [->|Hne].
    - rewrite lookup_insert_eq. rewrite Hp in Hf0. destruct (gated q); [|done]. by rewrite Hg in Hf0.
    - by rewrite lookup_insert_ne. }
  destruct Hs as [env obj rec s w w' p' Hm _|obj s w Hg'|s w l1 p' l2 Hcr Hk|s w l1 p' l2 Hcr
    |env update rec k' p' q s w w' r _ Hp' Hlist Hr Hq _|env update rec k' p' q s w w' r _ Hp' Hr Hq _
    |k' s w w'|k' p' q s w Hp' Hg' He|k' p' q s w Hp' Hg'|k' s w
    |r s w Hcf Hv Hd|cur r s w Hcf Hv Hd Hfz|cur r s w Hcf Hv Hd Hfz|s w|m s w Hm]; try done.
  - unfold free in *. cbn. rewrite lookup_insert_ne; [done|]. congruence.
  - eapply Hupd; [done..|by eapply reconcile_gates_nothing].
  - eapply Hupd; [done..|by eapply reconcile_gates_nothing].
  - by eapply Hupd.
  - by eapply Hupd.
  - unfold free in *. cbn. destruct (decide (k' = k)) as [->|Hne];
      [by rewrite lookup_delete_eq|by rewrite lookup_delete_ne].
Qed.

Lemma steps_free ls s s' k :
  steps ls s s' → LStore k ∉ ls → free k (sy_Api s) → free k (sy_Api s').
Proof.
  induction 1 as [|l ls s s1 s' Hs _ IH]; intros Hls Hf; [done|].
  apply not_elem_of_cons in Hls as [Hl Hls]. apply IH; [done|]. by eapply sys_step_free.
Qed.

Lemma steps_pod ls s s' k n :
  steps ls s s' → LStore k ∉ ls → LCount k ∉ ls →
  (n + Z.of_nat (count (reconciled k) ls) + Z.of_nat (count (unlisted k) ls) < maxInt32)%Z →
  waiting k n (sy_Api s) →
  free k (sy_Api s') ∨ count (reconciled k) ls = 0
  ∨ (n + Z.of_nat (count (reconciled k) ls) < MaxRetryCount)%Z.
Proof.
  intros Hst. revert n. induction Hst as [|l ls s s1 s' Hs Hst IH]; intros n Hls Hlc Hmax Hw; [by right; left|].
  apply not_elem_of_cons in Hls as [Hl Hls]. apply not_elem_of_cons in Hlc as [Hl' Hlc]. cbn [count sum_list_with] in *.
  destruct (sys_step_pod l s s1 k n Hs) as [Hf|[Hw' Hr]]; [done|done|lia|done| |].
  { left. by eapply steps_free. }
  destruct (IH (n + Z.of_nat (reconciled k l) + Z.of_nat (unlisted k l))%Z Hls Hlc
    ltac:(unfold count in *; lia) Hw') as [?|[H0|Hlt]]; [by left|right..].
  - unfold count in *. destruct (decide (reconciled k l = 0)) as [E|E]; [left; lia|right].
    assert (reconciled k l = 1) as E1 by (destruct l; cbn in *; try done; by destruct (decide _)).
    specialize (Hr E1). lia.
  - right. unfold count in *. lia.
Qed.

(** ** The removal can get stuck *)

(** The configuration is being deleted and still has the operator's finalizer, the
    operator's cache has seen that, the controller is gone, and a pod is gated. *)
Record abandoned (k : Key) (p : CorePod) (s : ApiState) : Prop := mkAbandoned {
  ab_config : ∃ r, as_Config s = Some r ∧ reply_deleting r ∧ reply_finalized r;
  ab_cache : ∃ r, as_Cache s = Some r ∧ reply_deleting r;
  ab_controller : as_Objects s !! controllerDeployment = None;
  ab_pod : as_Pods s !! k = Some p ∧ gated p = true;
}.

(** A reconcile that has read no other configuration and was shown the pod. *)
Definition reads_deleting (tr : list (Ev Call)) : Prop :=
  (∀ r, r ∈ reads tr → reply_deleting r) ∧ ¬ Exists no_gated_pods tr.

Lemma reads_deleting_nil : reads_deleting [].
Proof. split; [by intros r Hr%not_elem_of_nil|by intros H%Exists_nil]. Qed.

Lemma reads_deleting_snoc tr e :
  reads_deleting tr → (∀ r, ev_read e = Some r → reply_deleting r) → ¬ no_gated_pods e → reads_deleting (tr ++ [e]).
Proof.
  intros [Hr Hn] He Hne. split.
  - intros r. rewrite reads_app, elem_of_app. unfold reads at 2. cbn [omap list_omap]. intros [?|Hin]; [by apply Hr|].
    destruct (ev_read e) eqn:E; [|by apply not_elem_of_nil in Hin]. apply list_elem_of_singleton in Hin as ->. by apply He.
  - intros [?|H]%Exists_app; [done|]. by apply Exists_cons in H as [?|?%Exists_nil].
Qed.

Lemma reads_deleting_not_cleared tr : reads_deleting tr → ¬ cleared tr.
Proof.
  intros [_ Hn] (a & e1 & b & e2 & c & e3 & d & -> & _ & _ & H3). apply Hn.
  rewrite !Exists_app, !Exists_cons, !Exists_app, !Exists_cons, !Exists_app, !Exists_cons. tauto.
Qed.

Lemma settle_finalized r : reply_finalized r → settle r = Some r.
Proof.
  intros Hf. destruct (settle_cases r) as [H|(_ & _ & H)]; [done|].
  unfold reply_finalized in Hf. rewrite H in Hf. by apply not_elem_of_nil in Hf.
Qed.

Lemma abandoned_write k p r s :
  abandoned k p s → reply_deleting r → reply_finalized r → abandoned k p (write_config r s).
Proof.
  intros [H1 H2 H3 H4] Hd Hf. constructor; try done. exists r. cbn. by rewrite settle_finalized.
Qed.

Lemma abandoned_ghost k p o b s : abandoned k p s → abandoned k p (set_Ghost o b s).
Proof. intros [H1 H2 H3 H4]. by constructor. Qed.

Lemma abandoned_api l s (w : W) s' w' k p :
  api_step l s w s' w' → l ≠ LPod k → l ≠ LCount k → abandoned k p s → abandoned k p s'.
Proof.
  intros Hs Hl Hlc Hab. pose proof Hab as [(rc & Hc & Hcd & Hcf') Hca Hco [Hp Hg]].
  destruct Hs as [env obj rec s w w' p' Hm _|obj s w Hg'|s w l1 p' l2 Hcr Hk|s w l1 p' l2 Hcr
    |env update rec k' p' q s w w' r Hrun Hp' Hlist Hr Hq _|env update rec k' p' q s w w' r Hrun Hp' Hr Hq _
    |k' s w w'|k' p' q s w Hp' Hg' He|k' p' q s w Hp' Hg'|k' s w
    |r s w Hcf Hv Hd|cur r s w Hcf Hv Hd Hf|cur r s w Hcf Hv Hd Hf|s w|m s w Hm]; try done;
    try (constructor; cbn; eauto; done).
  - constructor; cbn; eauto. split; [|done]. rewrite lookup_insert_ne; [done|]. congruence.
  - rewrite Hco in Hrun. by destruct Hrun.
  - rewrite Hco in Hrun. by destruct Hrun.
  - constructor; cbn; eauto. split; [|done]. rewrite lookup_insert_ne; [done|]. congruence.
  - constructor; cbn; eauto. split; [|done]. rewrite lookup_insert_ne; [done|]. congruence.
  - constructor; cbn; eauto. split; [|done]. rewrite lookup_delete_ne; [done|]. congruence.
  - congruence.
  - simplify_eq. apply abandoned_write; [done|by apply Hd|]. unfold reply_finalized in *. by rewrite Hf.
  - simplify_eq. apply abandoned_write; [done..|]. unfold reply_finalized in *. by rewrite Hf.
  - constructor; cbn; eauto. specialize (Hm controllerDeployment). rewrite Hco in Hm.
    by destruct (m !! controllerDeployment).
Qed.

Lemma abandoned_settle r o m :
  m !! controllerDeployment = None → is_Some (m !! r) →
  settle_object r o m !! controllerDeployment = None.
Proof.
  intros Hm [x Hx]. assert (r ≠ controllerDeployment) by (intros ->; congruence).
  unfold settle_object. destruct (_ && _); [by rewrite lookup_delete_ne|by rewrite lookup_insert_ne].
Qed.

Lemma abandoned_objects k p m s :
  abandoned k p s → m !! controllerDeployment = None → abandoned k p (set_Objects m s).
Proof. intros [H1 H2 H3 H4] Hm. by constructor. Qed.

Lemma abandoned_request T (c : Call T) s a s' tr k p :
  serves T c s a s' → lawful tr (mkEv c a) → reads_deleting tr → abandoned k p s →
  abandoned k p s' ∧ reads_deleting (tr ++ [mkEv c a]).
Proof.
  intros Hs Hlaw Hrd Hab. pose proof Hab as [(rc & Hc & Hcd & Hcf) (r0 & Hca & Hcad) Hco [Hp Hg]].
  assert (Hupd : ∀ r, om_DeletionTimestamp (cppc_Meta (rp_Obj r)) = om_DeletionTimestamp (cppc_Meta (rp_Obj rc)) →
    reply_finalized r → abandoned k p (write_config r s)).
  { intros r Hd Hf. apply abandoned_write; [done| |done]. unfold reply_deleting in *. by rewrite Hd. }
  assert (Hquiet : (∀ r, ev_read (mkEv c a) = Some r → reply_deleting r) → ¬ no_gated_pods (mkEv c a) →
    abandoned k p s' → abandoned k p s' ∧ reads_deleting (tr ++ [mkEv c a])).
  { intros H1 H2 H3. split; [done|]. by apply reads_deleting_snoc. }
  destruct c; cbn in Hs, Hquiet;
    try (apply Hquiet; [done|by intros []|]; first [by subst s'|by destruct Hs as [-> _]]).
  - apply Hquiet; [done|by intros []|].
    destruct Hs as [[-> _]|(cur & o' & _ & Hcur & _ & _ & -> & _)]; [done|]. apply abandoned_objects, abandoned_settle; [done..|eauto].
  - apply Hquiet; [done|by intros []|].
    destruct Hs as [[-> _]|(cur & o' & Hcur & _ & _ & -> & _)]; [done|]. apply abandoned_objects, abandoned_settle; [done..|eauto].
  - destruct (law_applies _ _ Hlaw I) as (r & Hr & Hnd & _). destruct Hnd. apply Hrd. rewrite Hr. by left.
  - destruct Hs as [-> Hs]. apply Hquiet; [|by intros []|done]. intros r. destruct a as [r'|]; [|done].
    intros [= ->]. destruct (Hs r eq_refl) as [Hcr _]. by simplify_eq.
  - destruct a as [r|e]; [|by apply Hquiet; [..|intros []|subst s']]. destruct Hs as [Hr ->].
    apply Hquiet; [|by intros []|by apply abandoned_ghost]. intros r' [= <-]. by simplify_eq.
  - apply Hquiet; [done|by intros []|].
    destruct Hs as [[-> _]|(cur & r & Hcur & _ & _ & Hd & Hf & -> & _)]; [done|]. simplify_eq.
    apply Hupd; [done|]. unfold reply_finalized. rewrite Hf.
    destruct (decide (utils.PodPlacementFinalizerName ∈ elems (om_Finalizers (cppc_Meta c)))) as [|Hn]; [done|].
    destruct (law_drops _ _ Hlaw Hn) as (Hcl & _). by apply reads_deleting_not_cleared in Hcl.
  - apply Hquiet; [done|by intros []|].
    destruct Hs as [[-> _]|(cur & r & Hcur & _ & _ & Hd & Hf & _ & -> & _)]; [done|]. simplify_eq.
    apply Hupd; [done|]. unfold reply_finalized in *. by rewrite Hf.
  - destruct a as [l|e]; [|apply Hquiet; [done|by intros (l & [=] & _)|by subst s']]. destruct Hs as [Hin ->].
    apply Hquiet; [done| |by apply abandoned_ghost]. intros (l' & [= <-] & Hl).
    by rewrite (hasGatedPod_in l p (Hin k p Hp Hg) Hg) in Hl.
Qed.

(** The whole state, with a reconcile under way that has not seen another
    configuration. *)
Definition abandoned_sys (k : Key) (p : CorePod) (s : Sys) : Prop :=
  abandoned k p (sy_Api s)
  ∧ match sy_Operator s with
    | None => True
    | Some (tr, prog) => wp faithful prog (λ _ tr', always lawful tr') tr ∧ reads_deleting tr
    end.

Lemma abandoned_step l s s' k p :
  sys_step l s s' → l ≠ LPod k → l ≠ LCount k → abandoned_sys k p s → abandoned_sys k p s'.
Proof.
  intros Hs Hl Hlc [Hab Hop].
  destruct Hs as [l s s' op w w' Hs|s w|T c kk tr a s s' w Hs|s tr o w|s op w]; cbn in *.
  - split; [by eapply abandoned_api|done].
  - split; [done|]. cbn. split; [apply Reconcile_lawful|apply reads_deleting_nil].
  - destruct Hop as [Hwp Hrd]. destruct (request_lawful T c kk tr s a s' Hwp Hs) as [Hlaw Hwp'].
    destruct (abandoned_request T c s a s' tr k p Hs Hlaw Hrd Hab) as [H1 H2]. split; [exact H1|by split].
  - by split.
  - split; [|done]. destruct Hab as [(r & Hr & Hd & Hf) Hca Hco Hp]. constructor; cbn; eauto.
Qed.

Lemma abandoned_steps ls s s' k p :
  steps ls s s' → LPod k ∉ ls → LCount k ∉ ls → abandoned_sys k p s → abandoned_sys k p s'.
Proof.
  induction 1 as [|l ls s s1 s' Hs _ IH]; intros Hls Hlc Hab; [done|].
  apply not_elem_of_cons in Hls as [Hl Hls]. apply not_elem_of_cons in Hlc as [Hl' Hlc].
  apply IH; [done..|]. by eapply abandoned_step.
Qed.

End system.

(** ** What holds of every run *)
Section theorems.
Context {W : Type} {celService : CelService W} {imageService : ImageService W}
  {rangeOrder : RangeOrder} (apiReader : bool) (now : string → Z).

(** C2: nobody is left behind by a removal, but for two windows that the code leaves open.
    In every run from an empty cluster, however admissions, reconciles of pods, actions
    of users, stale caches, refused and lost requests and deaths of the operator
    interleave, as long as the webhook is registered, a stored pod has the scheduling
    gate, or a pod that the webhook gated is about to be stored, the
    ClusterPodPlacementConfig exists and has the operator's finalizer.  Users may edit
    and delete configuration, pods and objects of the operand, but do not set the
    scheduling gate, change no finalizers and create no objects of the operand
    themselves.  Left out are the pods under a name for which the creation of a gated pod was under way while the
    operator was shown a list of pods without a gated one ([SystemRuns.removal_race]
    shows that such a pod can be left behind), and the runs in which a read that
    bypasses the operator's cache found another version of the configuration than the
    cache had at that moment. *)
Theorem system_holds_finalizer ls (w w' : W) s op :
  steps apiReader now ls (sys_init w) (mkSys s op w') →
  as_Overtaken s = false →
  registered s
  ∨ (∃ k p, as_Pods s !! k = Some p ∧ gated p = true ∧ k ∉ as_Overlooked s)
  ∨ (∃ p, p ∈ as_Creating s ∧ gated p = true ∧ key_of p ∉ as_Overlooked s) →
  ∃ r, as_Config s = Some r ∧ utils.PodPlacementFinalizerName ∈ reply_finalizers r.
Proof.
  intros Hs Ht H. destruct (sys_inv_steps apiReader now ls _ _ Hs (sys_inv_init w)) as [_ Hi].
  destruct (Hi Ht) as [Ha _]. exact (ai_held s Ha H).
Qed.

(** C3: every pod is released.  In any run, whether or not the operand is being removed,
    a gated pod whose label counts [n] failures (none, if it has no such label or one
    that is no number) is without the gate, or gone, after [5 - n] stored reconciles,
    and at least one, that could list the configurations.  In between anything may
    happen but that the pod is replaced by another one of the same name, that somebody
    else than the controller changes the counter or sets the gate again, or that the
    counter overflows because of reconciles that could not list the configurations. *)
Theorem system_releases_pods ls s op (w : W) s' op' w' k p :
  steps apiReader now ls (mkSys s op w) (mkSys s' op' w') →
  LStore k ∉ ls → LCount k ∉ ls →
  as_Pods s !! k = Some p →
  let tried := Z.of_nat (count (reconciled k) ls) in
  (1 ≤ tried)%Z → (MaxRetryCount - failures p ≤ tried)%Z →
  (failures p + tried + Z.of_nat (count (unlisted k) ls) < maxInt32)%Z →
  match as_Pods s' !! k with Some q => gated q = false | None => True end.
Proof.
  intros Hs Hls Hlc Hp tried H1 Hn Hmax. change (free k s').
  destruct (gated p) eqn:Hg; cycle 1.
  { apply (steps_free apiReader now ls _ _ k Hs Hls). unfold free. cbn. by rewrite Hp. }
  destruct (steps_pod apiReader now ls _ _ k (failures p) Hs Hls Hlc) as [H|[H|H]];
    [done|by exists p|done|lia|lia].
Qed.

(** C15: a removal that lost the controller does not come to an end.  Once the
    configuration, with the operator's finalizer, is being deleted, the operator's cache
    has seen that, no reconcile of the operator is under way and the controller's
    deployment is gone, a gated pod stays as it is and the configuration keeps the
    finalizer, whatever the operator does, until somebody else edits or deletes the pod,
    takes the finalizer away or recreates the deployment: [handleDelete] waits for the pods and never restores the controller
    that would release them. *)
Theorem removal_stuck_without_controller ls (w w' : W) s s' op k p :
  abandoned k p s →
  steps apiReader now ls (mkSys s None w) (mkSys s' op w') → LPod k ∉ ls → LCount k ∉ ls →
  abandoned k p s'
  ∧ ∃ r, as_Config s' = Some r ∧ utils.PodPlacementFinalizerName ∈ reply_finalizers r.
Proof.
  intros Hab Hs Hls Hlc.
  destruct (abandoned_steps apiReader now ls _ _ k p Hs Hls Hlc) as [Hab' _]; [by split|].
  split; [done|]. destruct (ab_config _ _ _ Hab') as (r & Hr & _ & Hf). by exists r.
Qed.
End theorems.
