(* ===== verification/PodQueue.v ===== *)
(** * The controller of the pods: watch, cache, work queue

    [SetupWithManager] of [pod_reconciler.go]: the controller watches pods and
    [PodPlacementConfig]s and runs [Reconcile] from a work queue, with several
    workers.  [Reconcile] never asks to be called again ([ctrl.Result{}]); a pod
    that stays gated is retried only because the update it was sent comes back as a
    watch event, or because the update failed and its error puts the key back.
    Shown here: that is enough, no gated pod is forgotten.

    The informer's cache lags behind the API server; the server refuses an update
    made from an old version, and keeps silent about an update that changes
    nothing; the queue holds a key once and gives it to one worker at a time
    (controller-runtime). *)
From stdpp Require Import base gmap strings list relations.
From S2P Require Import Prelude GoStd Api LabelSelectors NodeMatch Models ArchConstraints CelEval.
From S2P Require Import Events PodModel PodTheorems PodReconciler ReconcilerTheorems Webhook System.
Import models.

(** ** A reconcile that keeps the gate changes the pod *)
Lemma next_count_changes cur : cur ≠ Some (next_count cur).
Proof.
  destruct cur as [s|]; [|done]. intros [= Hs]. cbn in Hs. destruct (parseInt32 s) as [n|] eqn:Hp.
  - destruct (in_int32 (n + 1)) eqn:Hi.
    + rewrite Hs, (parseInt32_sprintd _ Hi) in Hp. injection Hp as Hp. lia.
    + assert (Hn : in_int32 n = true).
      { apply bind_Some in Hp as (z & _ & Hz). destruct (in_int32 z) eqn:E; [|done]. by injection Hz as <-. }
      unfold in_int32 in Hn, Hi. apply andb_prop in Hn as [Hn1%Z.leb_le Hn2%Z.leb_le].
      apply andb_false_iff in Hi as [Hi%Z.leb_gt|Hi%Z.leb_gt]; [lia|].
      rewrite Hs, parseInt32_sprintd_overflow in Hp; [done|unfold minInt32, maxInt32 in *; lia|].
      unfold in_int32. rewrite (proj2 (Z.leb_gt _ _) Hi). apply andb_false_r.
  - by rewrite Hs in Hp.
Qed.

Section queue.
Context {W : Type} {celService : CelService W} {imageService : ImageService W} {rangeOrder : RangeOrder}.

Lemma gate_kept_changes env p recorder (w : W) :
  let q := (processPod env (NewPod p recorder) w).2 in HasSchedulingGate q = true → pod_obj q ≠ p.
Proof.
  intros q Hg Hq. destruct (gate_kept_cases env (NewPod p recorder) w Hg) as [_ Hc]. fold q in Hc.
  assert (Hsame : error_count q = error_count (NewPod p recorder)).
  { unfold error_count, pod_Labels. by rewrite Hq. }
  rewrite Hsame in Hc. by apply next_count_changes in Hc.
Qed.

(** ** The controller *)

(** An object with its resource version. *)
Abbreviation Stored := (CorePod * nat)%type.

Record Ctl := mkCtl {
  ct_Pods : gmap Key Stored;      (** the API server *)
  ct_Version : nat;               (** its next resource version *)
  ct_Watch : gset Key;            (** changes the watch has not delivered *)
  ct_Cache : gmap Key Stored;     (** the informer's store *)
  ct_Queue : gset Key;            (** the work queue, delayed keys included *)
  ct_Busy : gmap Key Stored;      (** the workers, each with the pod it read *)
  ct_World : W;
}.

(** What is in the cluster, when the controller starts: everything is to be listed. *)
Definition ctl_start (pods : gmap Key Stored) (version : nat) (w : W) : Ctl :=
  mkCtl pods version (dom pods) ∅ ∅ ∅ w.

(** The server stores an update, and tells the watch if it changes the object. *)
Inductive put (k : Key) (q : CorePod) (s : Ctl) : Ctl → Prop :=
| put_silent v : ct_Pods s !! k = Some (q, v) → put k q s s
| put_event x : ct_Pods s !! k = Some x → q ≠ x.1 →
    put k q s (mkCtl (<[k := (q, ct_Version s)]> (ct_Pods s)) (S (ct_Version s)) ({[k]} ∪ ct_Watch s)
                 (ct_Cache s) (ct_Queue s) (ct_Busy s) (ct_World s)).

Definition enqueue (ks : gset Key) (s : Ctl) : Ctl :=
  mkCtl (ct_Pods s) (ct_Version s) (ct_Watch s) (ct_Cache s) (ks ∪ ct_Queue s) (ct_Busy s) (ct_World s).
Definition set_Busy (b : gmap Key Stored) (s : Ctl) : Ctl :=
  mkCtl (ct_Pods s) (ct_Version s) (ct_Watch s) (ct_Cache s) (ct_Queue s) b (ct_World s).
Definition set_World (w : W) (s : Ctl) : Ctl :=
  mkCtl (ct_Pods s) (ct_Version s) (ct_Watch s) (ct_Cache s) (ct_Queue s) (ct_Busy s) w.

(** The end of a call of [Reconcile]: its error puts the key back into the queue. *)
Definition requeue (k : Key) (err : option GoError) (s : Ctl) : Ctl :=
  match err with Some _ => enqueue {[k]} s | None => s end.

(** Users, the webhook and the scheduler create, change and delete pods. *)
Definition write (k : Key) (o : option CorePod) (s : Ctl) : Ctl :=
  mkCtl (match o with
         | Some p => <[k := (p, ct_Version s)]> (ct_Pods s)
         | None => base.delete k (ct_Pods s)
         end) (S (ct_Version s)) ({[k]} ∪ ct_Watch s) (ct_Cache s) (ct_Queue s) (ct_Busy s) (ct_World s).

(** An event of the watch: the informer stores it, the handler enqueues the key. *)
Definition deliver (k : Key) (s : Ctl) : Ctl :=
  mkCtl (ct_Pods s) (ct_Version s) (ct_Watch s ∖ {[k]})
    (match ct_Pods s !! k with Some x => <[k := x]> (ct_Cache s) | None => base.delete k (ct_Cache s) end)
    ({[k]} ∪ ct_Queue s) (ct_Busy s) (ct_World s).

(** A worker takes a key and reads the pod; a pod that is gone or not gated is done
    with at once. *)
Definition take (k : Key) (s : Ctl) : Ctl :=
  mkCtl (ct_Pods s) (ct_Version s) (ct_Watch s) (ct_Cache s) (ct_Queue s ∖ {[k]})
    (match ct_Cache s !! k with
     | Some (p, v) => if gated p then <[k := (p, v)]> (ct_Busy s) else ct_Busy s
     | None => ct_Busy s
     end) (ct_World s).

Definition release (k : Key) (w : W) (s : Ctl) : Ctl := set_World w (set_Busy (base.delete k (ct_Busy s)) s).

Inductive ctl_step : Ctl → Ctl → Prop :=
| ctl_change s k o : ctl_step s (write k o s)
| ctl_deliver s k : k ∈ ct_Watch s → ctl_step s (deliver k s)
(** a [PodPlacementConfig] changed *)
| ctl_config s listGated : ctl_step s (enqueue (list_to_set (mapPPCToPods listGated)) s)
| ctl_take s k : k ∈ ct_Queue s → ct_Busy s !! k = None → ctl_step s (take k s)
(** a worker processes the pod and the update is stored; the answer may be lost *)
| ctl_stored s s' k p v x env recorder w' r lost :
    ct_Busy s !! k = Some (p, v) → ct_Pods s !! k = Some (x, v) →
    PodReconciler.Reconcile env (Ok p) (λ q, if lost : bool then Err (errOther "timeout") else Ok q)
      recorder (ct_World s) = (w', r) →
    put k (default p (rr_sent r)) (release k w' s) s' →
    ctl_step s (requeue k (rr_error r) s')
(** or refused, for whatever reason *)
| ctl_refused s k p v env recorder w' r e :
    ct_Busy s !! k = Some (p, v) →
    PodReconciler.Reconcile env (Ok p) (λ _, Err e) recorder (ct_World s) = (w', r) →
    ctl_step s (requeue k (rr_error r) (release k w' s))
(** the controller dies, perhaps in the middle of a call, and lists everything again *)
| ctl_restart s w : ctl_step s (ctl_start (ct_Pods s) (ct_Version s) w).

(** ** No gated pod is forgotten *)

(** An old copy of an object: either of an earlier version, or equal. *)
Definition copy_of (x y : Stored) : Prop := x.2 = y.2 → x = y.

Record ctl_inv (s : Ctl) : Prop := mkCtlInv {
  ci_fresh k x : ct_Pods s !! k = Some x → x.2 < ct_Version s;
  ci_cache_fresh k x : ct_Cache s !! k = Some x → x.2 < ct_Version s;
  ci_busy_fresh k x : ct_Busy s !! k = Some x → x.2 < ct_Version s;
  ci_cache_copy k x y : ct_Cache s !! k = Some x → ct_Pods s !! k = Some y → copy_of x y;
  ci_busy_copy k x y : ct_Busy s !! k = Some x → ct_Pods s !! k = Some y → copy_of x y;
  ci_busy_gated k x : ct_Busy s !! k = Some x → gated x.1 = true;
  ci_synced k : k ∉ ct_Watch s → ct_Cache s !! k = ct_Pods s !! k;
  ci_pending k x : ct_Pods s !! k = Some x → gated x.1 = true →
    k ∈ ct_Watch s ∨ k ∈ ct_Queue s ∨ is_Some (ct_Busy s !! k);
}.

Lemma ctl_inv_start pods version w :
  (∀ k x, pods !! k = Some x → x.2 < version) → ctl_inv (ctl_start pods version w).
Proof.
  intros Hf. constructor; cbn; try done; try (intros; by simplify_map_eq).
  - intros k Hk%not_elem_of_dom. by rewrite lookup_empty, Hk.
  - intros k x Hx _. left. apply elem_of_dom. eauto.
Qed.

(** Enqueueing and a new world leave the invariant. *)
Lemma ctl_inv_enqueue ks s : ctl_inv s → ctl_inv (enqueue ks s).
Proof.
  intros [????????]. constructor; cbn; try done. intros k x Hx Hg.
  rewrite elem_of_union. naive_solver.
Qed.

(** A new version of an object, announced to the watch. *)
Lemma ctl_inv_write k o s : ctl_inv s → ctl_inv (write k o s).
Proof.
  intros [H1 H2 H3 H4 H5 H6 H7 H8]. unfold write.
  set (pods := match o with Some p => _ | None => _ end).
  assert (Hne : ∀ k', k' ≠ k → pods !! k' = ct_Pods s !! k').
  { intros k' ?. unfold pods. destruct o; by rewrite ?lookup_insert_ne, ?lookup_delete_ne. }
  assert (Heq : ∀ x, pods !! k = Some x → x.2 = ct_Version s).
  { intros x. unfold pods. destruct o; [rewrite lookup_insert_eq; by intros [= <-]|by rewrite lookup_delete_eq]. }
  clearbody pods.
  assert (Hcopy : ∀ k' x y, pods !! k' = Some y → x.2 < ct_Version s →
    (ct_Pods s !! k' = Some y → copy_of x y) → copy_of x y).
  { intros k' x y Hy Hlt Hc. destruct (decide (k' = k)) as [->|?]; [|apply Hc; by rewrite <-Hne].
    intros He. apply Heq in Hy. lia. }
  constructor; cbn.
  - intros k' x Hx. destruct (decide (k' = k)) as [->|?]; [apply Heq in Hx; lia|].
    rewrite Hne in Hx by done. apply H1 in Hx. lia.
  - intros k' x Hx. apply H2 in Hx. lia.
  - intros k' x Hx. apply H3 in Hx. lia.
  - intros k' x y Hx Hy. apply (Hcopy k'); eauto.
  - intros k' x y Hx Hy. apply (Hcopy k'); eauto.
  - done.
  - intros k' Hk'. rewrite Hne by set_solver. apply H7. set_solver.
  - intros k' x Hx Hg. destruct (decide (k' = k)) as [->|?]; [left; set_solver|].
    rewrite Hne in Hx by done. destruct (H8 _ _ Hx Hg) as [?|?]; [left; set_solver|by right].
Qed.

(** A worker that is done with [k], when the pod need not be looked at again. *)
Lemma ctl_inv_done k w' s :
  ctl_inv s →
  (∀ x, ct_Pods s !! k = Some x → gated x.1 = true → k ∈ ct_Watch s ∨ k ∈ ct_Queue s) →
  ctl_inv (release k w' s).
Proof.
  intros [H1 H2 H3 H4 H5 H6 H7 H8] Hk. constructor; cbn; try done.
  - intros k' x [_ Hx]%lookup_delete_Some. eauto.
  - intros k' x y [_ Hx]%lookup_delete_Some. eauto.
  - intros k' x [_ Hx]%lookup_delete_Some. eauto.
  - intros k' x Hx Hg. destruct (decide (k' = k)) as [->|?]; [destruct (Hk x Hx Hg); auto|].
    rewrite lookup_delete_ne by done. eauto.
Qed.

(** A reconcile of a gated pod sends an update, whose error it returns. *)
Lemma reconcile_sends env p update recorder (w w' : W) r :
  gated p = true → PodReconciler.Reconcile env (Ok p) update recorder w = (w', r) →
  ∃ q, rr_sent r = Some q ∧ (gated q = true → q ≠ p) ∧
    rr_error r = match update q with Ok _ => None | Err e => Some e end.
Proof.
  unfold PodReconciler.Reconcile. intros Hg.
  assert (HasSchedulingGate (NewPod p recorder) = true) as -> by exact Hg. cbn [negb].
  pose proof (gate_kept_changes env p recorder w) as Hc. cbn zeta in Hc.
  destruct (processPod env (NewPod p recorder) w) as [w1 q]. cbn [snd] in Hc. intros HR.
  exists (pod_obj q). destruct (update (pod_obj q)) as [o|e]; injection HR as <- <-; (split; [done|]; split; [|done]);
    intros Hq; by apply Hc.
Qed.

Lemma ctl_inv_deliver k s : ctl_inv s → ctl_inv (deliver k s).
Proof.
  intros [H1 H2 H3 H4 H5 H6 H7 H8]. unfold deliver.
  set (cache := match ct_Pods s !! k with Some x => _ | None => _ end).
  assert (Hne : ∀ k', k' ≠ k → cache !! k' = ct_Cache s !! k').
  { intros k' ?. unfold cache. destruct (ct_Pods s !! k); by rewrite ?lookup_insert_ne, ?lookup_delete_ne. }
  assert (Heq : cache !! k = ct_Pods s !! k).
  { unfold cache. destruct (ct_Pods s !! k); by rewrite ?lookup_insert_eq, ?lookup_delete_eq. }
  clearbody cache. constructor; cbn; try done.
  - intros k' x Hx. destruct (decide (k' = k)) as [->|?]; [|rewrite Hne in Hx by done; eauto].
    rewrite Heq in Hx. eauto.
  - intros k' x y Hx Hy. destruct (decide (k' = k)) as [->|?]; [|rewrite Hne in Hx by done; eauto].
    rewrite Heq, Hy in Hx. by injection Hx as ->.
  - intros k' Hk'. destruct (decide (k' = k)) as [->|?]; [done|]. rewrite Hne by done. apply H7. set_solver.
  - intros k' x Hx Hg. destruct (decide (k' = k)) as [->|?]; [right; left; set_solver|].
    destruct (H8 _ _ Hx Hg) as [?|[?|?]]; [left; set_solver|right; left; set_solver|by right; right].
Qed.

Lemma ctl_inv_take k s : ctl_inv s → ctl_inv (take k s).
Proof.
  intros [H1 H2 H3 H4 H5 H6 H7 H8]. unfold take.
  set (busy := match ct_Cache s !! k with Some _ => _ | None => _ end).
  assert (Hbusy : ∀ k' y, busy !! k' = Some y →
    ct_Busy s !! k' = Some y ∨ ct_Cache s !! k' = Some y ∧ gated y.1 = true).
  { intros k' y. unfold busy. destruct (ct_Cache s !! k) as [[p v]|] eqn:Hc; [|by left].
    destruct (gated p) eqn:Hg; [|by left]. rewrite lookup_insert_Some. intros [[<- <-]|[_ ?]]; [by right|by left]. }
  assert (Hmono : ∀ k', is_Some (ct_Busy s !! k') → is_Some (busy !! k')).
  { intros k' Hk'. unfold busy. destruct (ct_Cache s !! k) as [[p v]|]; [|done]. destruct (gated p); [|done].
    by apply lookup_insert_is_Some'; right. }
  assert (Htaken : ∀ x, ct_Cache s !! k = Some x → gated x.1 = true → is_Some (busy !! k)).
  { intros [p v] Hc Hg. unfold busy. rewrite Hc. cbn in Hg. rewrite Hg, lookup_insert_eq. eauto. }
  clearbody busy. constructor; cbn; try done.
  - intros k' y [?|[? _]]%Hbusy; eauto.
  - intros k' y z [?|[? _]]%Hbusy; eauto.
  - intros k' y [?|[_ ?]]%Hbusy; eauto.
  - intros k' y Hy Hg. destruct (H8 _ _ Hy Hg) as [?|[Hq|?]]; [by left| |right; right; auto].
    destruct (decide (k' = k)) as [->|?]; [|right; left; set_solver].
    destruct (decide (k ∈ ct_Watch s)) as [|Hw]; [by left|]. right; right. rewrite <-H7 in Hy by done. eauto.
Qed.

(** The update of a gated pod: it changes the pod, so it is announced. *)
Lemma stored_changes s s' k p v x env lost recorder w' r :
  ctl_inv s → ct_Busy s !! k = Some (p, v) → ct_Pods s !! k = Some (x, v) →
  PodReconciler.Reconcile env (Ok p) (λ q, if lost : bool then Err (errOther "timeout") else Ok q)
    recorder (ct_World s) = (w', r) →
  put k (default p (rr_sent r)) (release k w' s) s' →
  ∃ q, rr_sent r = Some q ∧ s' = release k w' (write k (Some q) s).
Proof.
  intros Hs Hb Hx HR Hput.
  assert (Hg : gated p = true) by exact (ci_busy_gated s Hs k (p, v) Hb).
  assert (x = p) as ->.
  { pose proof (ci_busy_copy s Hs k _ _ Hb Hx eq_refl) as E. by injection E. }
  destruct (reconcile_sends _ _ _ _ _ _ _ Hg HR) as (q & Hq & Hne & _). rewrite Hq in Hput. cbn in Hput.
  exists q. split; [done|]. destruct Hput as [v' Hsame|y Hy Hny]; cbn in *; [|done].
  rewrite Hx in Hsame. injection Hsame as -> _. by destruct (Hne Hg).
Qed.

Lemma ctl_step_inv s s' : ctl_step s s' → ctl_inv s → ctl_inv s'.
Proof.
  intros Hstep Hs. destruct Hstep as [s k o|s k Hk|s l|s k Hk Hb|s s' k p v x env rec w' r lost Hb Hx HR Hput
    |s k p v env rec w' r e Hb HR|s w].
  - by apply ctl_inv_write.
  - by apply ctl_inv_deliver.
  - by apply ctl_inv_enqueue.
  - by apply ctl_inv_take.
  - destruct (stored_changes s s' k p v x env lost rec w' r Hs Hb Hx HR Hput) as (q & _ & ->).
    assert (Hs' : ctl_inv (release k w' (write k (Some q) s))).
    { apply (ctl_inv_done k w' _ (ctl_inv_write k (Some q) s Hs)). left. set_solver. }
    unfold requeue. destruct (rr_error r); [by apply ctl_inv_enqueue|done].
  - assert (Hg : gated p = true) by exact (ci_busy_gated s Hs k (p, v) Hb).
    destruct (reconcile_sends _ _ _ _ _ _ _ Hg HR) as (q & _ & _ & ->). cbn [requeue].
    apply (ctl_inv_done k w' _ (ctl_inv_enqueue {[k]} s Hs)). right. cbn. set_solver.
  - apply ctl_inv_start, (ci_fresh s Hs).
Qed.

Lemma ctl_reachable pods version w s :
  (∀ k x, pods !! k = Some x → x.2 < version) → rtc ctl_step (ctl_start pods version w) s → ctl_inv s.
Proof.
  intros Hf Hr. pose proof (ctl_inv_start pods version w Hf) as H0. revert H0.
  induction Hr as [|s1 s2 s3 H12 _ IH]; [done|]. intros H1. apply IH. by eapply ctl_step_inv.
Qed.

(** C4: no gated pod is forgotten.  However users and the webhook change pods, the
    watch lags, workers interleave, updates conflict, fail or lose their answer, and
    the controller restarts: a stored pod with the scheduling gate is announced by a
    watch event that is still to come, or queued, or with a worker that will put it
    back or change it.  So when nothing is pending, no pod is gated. *)
Theorem no_gated_pod_forgotten pods version w s :
  (∀ k x, pods !! k = Some x → x.2 < version) →
  rtc ctl_step (ctl_start pods version w) s →
  (∀ k p v, ct_Pods s !! k = Some (p, v) → gated p = true →
     k ∈ ct_Watch s ∨ k ∈ ct_Queue s ∨ is_Some (ct_Busy s !! k))
  ∧ (ct_Watch s = ∅ → ct_Queue s = ∅ → ct_Busy s = ∅ →
     ∀ k p v, ct_Pods s !! k = Some (p, v) → gated p = false).
Proof.
  intros Hf Hr. pose proof (ctl_reachable pods version w s Hf Hr) as Hs.
  assert (Hp : ∀ k p v, ct_Pods s !! k = Some (p, v) → gated p = true →
     k ∈ ct_Watch s ∨ k ∈ ct_Queue s ∨ is_Some (ct_Busy s !! k)).
  { intros k p v Hk Hg. exact (ci_pending s Hs k (p, v) Hk Hg). }
  split; [done|]. intros Hw Hq Hb k p v Hk. destruct (gated p) eqn:Hg; [|done].
  exfalso. destruct (Hp _ _ _ Hk Hg) as [H|[H|[y H]]].
  - rewrite Hw in H. set_solver.
  - rewrite Hq in H. set_solver.
  - rewrite Hb, lookup_empty in H. done.
Qed.
End queue.
