(* ===== verification/PodDrain.v ===== *)
(** * The controller of the pods gets its work done

    [PodQueue] shows that no gated pod is forgotten; here it is shown that the work can
    be finished.  The API server stores an update only if it is made from the current
    version and is lawful for a gated pod ([directives_ok], KEP-3838); the
    configurations can be listed and none enables the CEL plugin.  Then the controller
    alone gets from every reachable state to one in which the only work and the only
    gated pods left are those with an empty node selector term, whatever the registries
    answer. *)
From stdpp Require Import base gmap strings list relations.
From S2P Require Import Prelude GoStd Api LabelSelectors NodeMatch Models ArchConstraints CelEval.
From S2P Require Import Events PodModel PodTheorems PodReconciler ReconcilerTheorems Webhook System PodQueue.
Import plugins v1beta1 models events.

(** ** How often a pod can be kept *)

(** The failures its label still allows, and one more for a label that is no number. *)
Definition tries_left (p : CorePod) : nat :=
  match error_count (NewPod p None) ≫= parseInt32 with
  | Some n => Z.to_nat (MaxRetryCount - n)
  | None => Z.to_nat (MaxRetryCount - minInt32) + 1
  end.

Lemma parseInt32_range s n : parseInt32 s = Some n → (minInt32 ≤ n ≤ maxInt32)%Z.
Proof.
  intros Hp. apply bind_Some in Hp as (z & _ & Hz). destruct (in_int32 z) eqn:E; [|done]. injection Hz as ->.
  unfold in_int32 in E. apply andb_prop in E as [E1%Z.leb_le E2%Z.leb_le]. done.
Qed.

Lemma tries_left_decreases p q n :
  error_count (NewPod q None) = Some (next_count (error_count (NewPod p None))) →
  parseInt32 (next_count (error_count (NewPod p None))) = Some n → (n < MaxRetryCount)%Z →
  tries_left q < tries_left p.
Proof.
  intros Hq Hn Hlt. unfold tries_left. rewrite Hq. cbn [mbind option_bind]. rewrite Hn.
  pose proof (parseInt32_range _ _ Hn) as Hr. unfold next_count in Hn.
  destruct (error_count (NewPod p None)) as [s|]; cbn [mbind option_bind]; [|lia].
  destruct (parseInt32 s) as [m|] eqn:Hs; [|lia]. pose proof (parseInt32_range _ _ Hs) as Hrm.
  destruct (in_int32 (m + 1)) eqn:Hi.
  - rewrite (parseInt32_sprintd _ Hi) in Hn. injection Hn as <-. lia.
  - assert (0 ≤ m + 1)%Z.
    { unfold in_int32 in Hi. apply andb_false_iff in Hi as [Hi%Z.leb_gt|Hi%Z.leb_gt]; unfold minInt32, maxInt32 in *; lia. }
    by rewrite parseInt32_sprintd_overflow in Hn.
Qed.

Section drain.
Context {W : Type} {celService : CelService W} {imageService : ImageService W} {rangeOrder : RangeOrder}.
Context (env : Env) (recorder : option (list Event)).
Context (sorts : sort_ok (env_sort env)).
Context (lists : ∀ ns, is_ok (listPPCs env ns) = true).
Context (plain : ∀ ns items, listPPCs env ns = Ok items →
  Forall (λ c, PPC_PluginsEnabled c CelArchitecturePlacementPluginName = false) items).

Lemma kept_tries p (w : W) :
  let q := (processPod env (NewPod p recorder) w).2 in
  HasSchedulingGate q = true → tries_left (pod_obj q) < tries_left p.
Proof using lists.
  intros q Hg. destruct (gate_kept_cases env (NewPod p recorder) w Hg) as [[Hl|Hm] Hc]; [by rewrite lists in Hl|].
  fold q in Hm, Hc. rewrite (maxRetries_Some q _ Hc) in Hm.
  destruct (parseInt32 _) as [n|] eqn:Hn; [|done]. apply Z.leb_gt in Hm.
  by eapply tries_left_decreases.
Qed.

(** The update that a reconcile sends, and that it is lawful. *)
Lemma reconcile_lawful p (w : W) :
  gated p = true →
  ∃ w' r q, PodReconciler.Reconcile env (Ok p) (λ q, Ok q) recorder w = (w', r) ∧ rr_sent r = Some q
    ∧ rr_error r = None ∧ (gated q = true → tries_left q < tries_left p)
    ∧ (no_empty_terms (p_Spec p) → directives_ok (p_Spec p) (p_Spec q) ∧ no_empty_terms (p_Spec q)).
Proof using lists plain sorts.
  intros Hg. unfold PodReconciler.Reconcile.
  assert (HasSchedulingGate (NewPod p recorder) = true) as -> by exact Hg. cbn [negb].
  pose proof (kept_tries p w) as Hk. cbn zeta in Hk.
  pose proof (tightened_processPod env (NewPod p recorder) w sorts) as Hd.
  destruct (processPod env (NewPod p recorder) w) as [w1 q]. cbn [snd] in *.
  do 3 eexists. split; [done|]. split; [done|]. split; [done|]. split; [exact Hk|].
  apply Hd. intros items Hi. apply Forall_forall. intros c Hc.
  pose proof (plain _ _ Hi) as Hp. rewrite Forall_forall in Hp. apply Hp.
  apply list_elem_of_In, filter_In in Hc as [Hc _]. by apply list_elem_of_In.
Qed.

(** ** The steps of the controller with such a server *)
Inductive fair_step : Ctl → Ctl → Prop :=
| fair_deliver s k : k ∈ ct_Watch s → fair_step s (deliver k s)
| fair_take s k : k ∈ ct_Queue s → ct_Busy s !! k = None → fair_step s (take k s)
| fair_store s k p v w' r q :
    ct_Busy s !! k = Some (p, v) → ct_Pods s !! k = Some (p, v) →
    PodReconciler.Reconcile env (Ok p) (λ q, Ok q) recorder (ct_World s) = (w', r) →
    rr_sent r = Some q → directives_ok (p_Spec p) (p_Spec q) →
    fair_step s (requeue k (rr_error r) (release k w' (write k (Some q) s)))
(** an update that is not lawful is refused *)
| fair_refused s k p v w' r q :
    ct_Busy s !! k = Some (p, v) → ct_Pods s !! k = Some (p, v) →
    PodReconciler.Reconcile env (Ok p) (λ _, Err (errOther "Forbidden")) recorder (ct_World s) = (w', r) →
    rr_sent r = Some q → ¬ directives_ok (p_Spec p) (p_Spec q) →
    fair_step s (requeue k (rr_error r) (release k w' s))
(** an update of a pod that has changed is a conflict *)
| fair_conflict s k p v w' r :
    ct_Busy s !! k = Some (p, v) → (∀ x, ct_Pods s !! k ≠ Some (x, v)) →
    PodReconciler.Reconcile env (Ok p) (λ _, Err (mkErr KConflict "conflict")) recorder (ct_World s) = (w', r) →
    fair_step s (requeue k (rr_error r) (release k w' s)).

Lemma write_release k q (w' : W) s : release k w' (write k (Some q) s) = write k (Some q) (release k w' s).
Proof. done. Qed.

(** They are steps of the controller. *)
Lemma fair_ctl s s' : ctl_inv s → fair_step s s' → ctl_step s s'.
Proof.
  intros Hs Hf. destruct Hf as [s k Hk|s k Hk Hb|s k p v w' r q Hb Hp HR Hq Hd|s k p v w' r q Hb Hp HR Hq Hd|s k p v w' r Hb Hp HR].
  - by apply ctl_deliver.
  - by apply ctl_take.
  - eapply (ctl_stored s _ k p v p env recorder w' r false); [done|done|exact HR|].
    assert (Hg : gated p = true) by exact (ci_busy_gated s Hs k (p, v) Hb).
    destruct (reconcile_sends _ _ _ _ _ _ _ Hg HR) as (q' & Hq' & Hne & _). rewrite Hq in Hq' |- *.
    injection Hq' as <-. cbn [default from_option id]. rewrite write_release. unfold write.
    eapply put_event; [exact Hp|]. cbn. intros ->. by apply (Hne Hg).
  - by eapply ctl_refused.
  - by eapply ctl_refused.
Qed.

Lemma fair_inv s s' : rtc fair_step s s' → ctl_inv s → ctl_inv s'.
Proof.
  induction 1 as [|s1 s2 s3 H12 _ IH]; [done|]. intros H1. apply IH. eapply ctl_step_inv; [|exact H1].
  by apply fair_ctl.
Qed.

Lemma fair_run s s' : ctl_inv s → rtc fair_step s s' → rtc ctl_step s s'.
Proof.
  intros Hs Hr. revert Hs. induction Hr as [|s1 s2 s3 H12 _ IH]; [done|]. intros H1.
  eapply rtc_l; [by apply fair_ctl|]. apply IH. eapply ctl_step_inv; [by apply fair_ctl|done].
Qed.

(** ** Pods that cannot be updated *)

(** A gated pod with an empty term, which the server does not let anybody fill. *)
Definition stuck (s : @Ctl W) (k : Key) : Prop :=
  ∃ p v, ct_Pods s !! k = Some (p, v) ∧ gated p = true ∧ ¬ no_empty_terms (p_Spec p).

#[local] Instance stuck_dec s k : Decision (stuck s k).
Proof.
  refine (match ct_Pods s !! k as o return ct_Pods s !! k = o → Decision (stuck s k) with
    | Some (p, v) => λ E, cast_if (decide (gated p = true ∧ ¬ no_empty_terms (p_Spec p)))
    | None => λ E, right _
    end eq_refl).
  - exists p, v. tauto.
  - abstract (intros (p' & v' & H & ?); rewrite E in H; by simplify_eq).
  - abstract (intros (p' & v' & H & ?); rewrite E in H; by simplify_eq).
Defined.

Lemma not_stuck s k p v :
  ¬ stuck s k → ct_Pods s !! k = Some (p, v) → gated p = true → no_empty_terms (p_Spec p).
Proof. intros Hn Hp Hg. destruct (decide (no_empty_terms (p_Spec p))); [done|]. destruct Hn. by exists p, v. Qed.

(** The controller makes no pod stuck. *)
Lemma fair_not_stuck s s' : ctl_inv s → fair_step s s' → (∀ k, ¬ stuck s k) → ∀ k, ¬ stuck s' k.
Proof using lists plain sorts.
  intros Hs Hf Hn k'. destruct Hf as [s k Hk|s k Hk Hb|s k p v w' r q Hb Hp HR Hq Hd|s k p v w' r q Hb Hp HR Hq Hd|s k p v w' r Hb Hp HR];
    [exact (Hn k')|exact (Hn k')| |destruct (rr_error r); exact (Hn k')..].
  pose proof (ci_busy_gated s Hs k (p, v) Hb) as Hg. cbn in Hg.
  destruct (reconcile_lawful p (ct_World s) Hg) as (w1 & r1 & q1 & HR1 & Hq1 & Herr & _ & Hl). rewrite HR in HR1. simplify_eq.
  rewrite Herr. cbn [requeue]. intros (x & vx & Hx & Hgx & Hex). cbn in Hx. destruct (decide (k' = k)) as [->|Hne].
  - rewrite lookup_insert_eq in Hx. simplify_eq. apply Hex, Hl. by apply (not_stuck s k p v).
  - rewrite lookup_insert_ne in Hx by done. apply (Hn k'). by exists x, vx.
Qed.

Lemma fair_none_stuck s s' : ctl_inv s → rtc fair_step s s' → (∀ k, ¬ stuck s k) → ∀ k, ¬ stuck s' k.
Proof using lists plain sorts.
  intros Hs Hr. revert Hs. induction Hr as [|s1 s2 s3 H12 _ IH]; [done|]. intros H1 Hn.
  apply IH; [eapply ctl_step_inv; [by apply fair_ctl|done]|by eapply fair_not_stuck].
Qed.

(** ** Draining the queue *)

(** Between two states only the pod [k] was dealt with. *)
Record dealt (k : Key) (s s' : Ctl) : Prop := mkDealt {
  dl_run : rtc fair_step s s';
  dl_busy : ct_Busy s' = ct_Busy s;
  dl_pods k' : k' ≠ k → ct_Pods s' !! k' = ct_Pods s !! k';
  dl_watch k' : k' ≠ k → k' ∈ ct_Watch s' ↔ k' ∈ ct_Watch s;
  dl_queue k' : k' ≠ k → k' ∈ ct_Queue s' ↔ k' ∈ ct_Queue s;
}.

Lemma pod_dealt_trans k s1 s2 s3 : dealt k s1 s2 → dealt k s2 s3 → dealt k s1 s3.
Proof.
  intros [H1 H2 H3 H4 H5] [J1 J2 J3 J4 J5]. constructor; [by etrans|congruence|..]; intros k' Hk'.
  - by rewrite J3, H3.
  - by rewrite J4, H4.
  - by rewrite J5, H5.
Qed.

Lemma dealt_deliver k s : k ∈ ct_Watch s → dealt k s (deliver k s).
Proof. intros Hk. constructor; cbn; [by apply rtc_once, fair_deliver|done|done|set_solver..]. Qed.

Definition is_gated (s : @Ctl W) (k : Key) : Prop := ∃ p v, ct_Pods s !! k = Some (p, v) ∧ gated p = true.
Definition pending (s : @Ctl W) (k : Key) : Prop := k ∈ ct_Watch s ∨ k ∈ ct_Queue s.

(** The key is taken: a pod that is not gated is done with, a gated one is updated. *)
Lemma take_and_store s k :
  ctl_inv s → ct_Busy s !! k = None → ¬ stuck s k → k ∈ ct_Queue s → k ∉ ct_Watch s →
  ∃ s', dealt k s s' ∧ (k ∉ ct_Queue s') ∧ (¬ stuck s' k) ∧
    (is_gated s k ∧ (∀ p v q v', ct_Pods s !! k = Some (p, v) → ct_Pods s' !! k = Some (q, v') →
       gated q = true → tries_left q < tries_left p)
     ∨ ¬ is_gated s k ∧ (k ∉ ct_Watch s') ∧ ct_Pods s' !! k = ct_Pods s !! k).
Proof using lists plain sorts.
  intros Hs Hb Hns Hq Hw. pose proof (ci_synced s Hs k Hw) as Hsync.
  assert (Hstep : fair_step s (take k s)) by (by apply fair_take).
  destruct (ct_Pods s !! k) as [[p v]|] eqn:Hp; [destruct (gated p) eqn:Hg|].
  - destruct (reconcile_lawful p (ct_World s) Hg) as (w' & r & q & HR & Hsent & Herr & Ht & Hl).
    destruct (Hl (not_stuck s k p v Hns Hp Hg)) as [Hd Hne].
    assert (Hbusy : ct_Busy (take k s) = <[k := (p, v)]> (ct_Busy s)) by (cbn; by rewrite Hsync, Hg).
    pose proof (fair_store (take k s) k p v w' r q) as Hst. rewrite Hbusy, lookup_insert_eq in Hst.
    specialize (Hst eq_refl Hp HR Hsent Hd). rewrite Herr in Hst. cbn [requeue] in Hst.
    eexists. split; [|split; [|split; [|left]]]; [constructor| | |].
    + eapply rtc_l; [exact Hstep|by apply rtc_once].
    + cbn [release set_World set_Busy write ct_Busy]. by rewrite Hbusy, delete_insert_eq, delete_id.
    + intros k' Hk'. cbn. by rewrite lookup_insert_ne.
    + cbn. set_solver.
    + cbn. set_solver.
    + cbn. set_solver.
    + intros (x & vx & Hx & _ & Hex). cbn in Hx. rewrite lookup_insert_eq in Hx. by simplify_eq.
    + split; [by exists p, v|]. intros p0 v0 q0 v' [= <- <-] Hq0 Hg0. cbn in Hq0. rewrite lookup_insert_eq in Hq0.
      injection Hq0 as <- <-. by apply Ht.
  - exists (take k s). split; [constructor; cbn; [by apply rtc_once|by rewrite Hsync, Hg|done|set_solver..]|].
    split; [cbn; set_solver|]. split; [exact Hns|right]. split; [|done]. intros (p' & v' & Hp' & Hg'). congruence.
  - exists (take k s). split; [constructor; cbn; [by apply rtc_once|by rewrite Hsync|done|set_solver..]|].
    split; [cbn; set_solver|]. split; [exact Hns|right]. split; [|done]. intros (p' & v' & Hp' & Hg'). congruence.
Qed.

(** Each update of a gated pod uses up a try, so the pod is released. *)
Lemma drain_pod k n s :
  ctl_inv s → ct_Busy s !! k = None → ¬ stuck s k → pending s k →
  (∀ p v, ct_Pods s !! k = Some (p, v) → gated p = true → tries_left p < n) →
  ∃ s', dealt k s s' ∧ (k ∉ ct_Watch s') ∧ (k ∉ ct_Queue s') ∧ ¬ is_gated s' k.
Proof using lists plain sorts.
  revert s. induction n as [n IH] using lt_wf_ind. intros s Hs Hb Hns Hpend Hn.
  assert (Hd : ∃ s0, dealt k s s0 ∧ k ∈ ct_Queue s0 ∧ (k ∉ ct_Watch s0) ∧ ct_Pods s0 = ct_Pods s).
  { destruct (decide (k ∈ ct_Watch s)) as [Hin|Hout].
    - exists (deliver k s). split; [by apply dealt_deliver|]. cbn. set_solver.
    - exists s. destruct Hpend as [?|Hq]; [done|]. by split; [constructor|]. }
  destruct Hd as (s0 & D0 & Hq0 & Hw0 & Hp0).
  assert (Hs0 : ctl_inv s0) by (by eapply fair_inv, Hs; apply D0).
  assert (Hns0 : ¬ stuck s0 k) by (unfold stuck; by rewrite Hp0).
  destruct (take_and_store s0 k Hs0 ltac:(by rewrite (dl_busy _ _ _ D0)) Hns0 Hq0 Hw0) as (s1 & D1 & Hq1 & Hns1 & [[Hg Hdec]|(Hng & Hw1 & Hp1)]).
  2: { exists s1. split; [by eapply pod_dealt_trans|]. split; [done|]. split; [done|]. intros (p & v & Hp & Hgp).
       apply Hng. exists p, v. by rewrite <-Hp1. }
  assert (Hs1 : ctl_inv s1) by (by eapply fair_inv, Hs0; apply D1).
  destruct (decide (k ∈ ct_Watch s1)) as [Hin|Hout].
  - destruct Hg as (p & v & Hp & Hgp). rewrite Hp0 in Hp. pose proof (Hn p v Hp Hgp) as Hlt.
    destruct (IH (tries_left p) Hlt s1 Hs1) as (s2 & D2 & Hw2 & Hq2 & Hng2).
    + by rewrite (dl_busy _ _ _ D1), (dl_busy _ _ _ D0).
    + exact Hns1.
    + by left.
    + intros q v' Hq' Hgq. eapply (Hdec p v); [by rewrite Hp0|done|done].
    + exists s2. split; [|done]. eapply pod_dealt_trans; [exact D0|by eapply pod_dealt_trans].
  - exists s1. split; [by eapply pod_dealt_trans|]. split; [done|]. split; [done|]. intros (p & v & Hp & Hgp).
    destruct (ci_pending s1 Hs1 k (p, v) Hp Hgp) as [?|[?|[y Hy]]]; [done|done|].
    by rewrite (dl_busy _ _ _ D1), (dl_busy _ _ _ D0), Hb in Hy.
Qed.

Lemma stuck_dealt k k' s s' : dealt k s s' → k' ≠ k → stuck s' k' ↔ stuck s k'.
Proof. intros D Hne. unfold stuck. by rewrite (dl_pods _ _ _ D). Qed.

Lemma drain_pods (X : gset Key) s :
  ctl_inv s → ct_Busy s = ∅ → (∀ k, pending s k → k ∈ X ∨ stuck s k) →
  ∃ s', rtc fair_step s s' ∧ ct_Busy s' = ∅ ∧ ∀ k, pending s' k → stuck s' k.
Proof using lists plain sorts.
  revert s. induction X as [|x X Hx IH] using set_ind_L; intros s Hs Hb Hp.
  { exists s. split; [done|]. split; [done|]. intros k Hk. destruct (Hp k Hk); [set_solver|done]. }
  destruct (decide (stuck s x ∨ x ∉ ct_Watch s ∪ ct_Queue s)) as [Hskip|Hdo].
  { apply IH; [done..|]. intros k Hk. destruct (Hp k Hk) as [Hin|?]; [|by right].
    destruct (decide (k = x)) as [->|?]; [|left; set_solver].
    destruct Hskip as [?|Hout]; [by right|]. by destruct Hout; apply elem_of_union. }
  assert (Hns : ¬ stuck s x) by tauto.
  assert (Hin : pending s x) by (apply elem_of_union; destruct (decide (x ∈ ct_Watch s ∪ ct_Queue s)); tauto).
  destruct (drain_pod x (S (match ct_Pods s !! x with Some (p, _) => tries_left p | None => 0 end)) s Hs)
    as (s1 & D & Hw & Hq & _); [by rewrite Hb|done|done|intros p v -> _; lia|].
  destruct (IH s1) as (s' & J1 & J2 & J3).
  - eapply fair_inv; [apply D|done].
  - by rewrite (dl_busy _ _ _ D).
  - intros k Hk. destruct (decide (k = x)) as [->|Hne]; [by destruct Hk|].
    assert (pending s k) as Hk' by (unfold pending in *; by rewrite <-(dl_watch _ _ _ D), <-(dl_queue _ _ _ D)).
    destruct (Hp k Hk') as [?|?]; [left; set_solver|right; by apply (stuck_dealt x k s s1)].
  - exists s'. split; [etrans; [apply D|done]|done].
Qed.

(** The calls under way end: their update is stored, or is a conflict. *)
Lemma finish_busy s :
  ctl_inv s → ∃ s', rtc fair_step s s' ∧ ct_Busy s' = ∅.
Proof using lists plain sorts.
  remember (size (ct_Busy s)) as n eqn:Hn. revert s Hn. induction n as [|n IH]; intros s Hn Hs.
  { exists s. split; [done|]. by apply map_size_empty_inv. }
  destruct (map_choose (ct_Busy s)) as (k & [p v] & Hk).
  { intros He. by rewrite He, map_size_empty in Hn. }
  pose proof (ci_busy_gated s Hs k (p, v) Hk) as Hg. cbn in Hg.
  assert (Hstep : ∃ s1, fair_step s s1 ∧ ct_Busy s1 = base.delete k (ct_Busy s)).
  { destruct (decide (snd <$> ct_Pods s !! k = Some v)) as [Hx|Hno].
    - apply fmap_Some in Hx as ([x v'] & Hx & ->). cbn [snd] in *. pose proof (ci_busy_copy s Hs k _ _ Hk Hx eq_refl) as E. injection E as ->.
      destruct (reconcile_lawful x (ct_World s) Hg) as (w' & r & q & HR & Hsent & Herr & _).
      destruct (decide (directives_ok (p_Spec x) (p_Spec q))) as [Hd|Hd].
      { eexists. split; [by eapply fair_store|]. by rewrite Herr. }
      destruct (PodReconciler.Reconcile env (Ok x) (λ _, Err (errOther "Forbidden")) recorder (ct_World s))
        as [w1 r1] eqn:HR1.
      assert (Hsent1 : rr_sent r1 = Some q).
      { revert HR HR1 Hsent. unfold PodReconciler.Reconcile.
        assert (HasSchedulingGate (NewPod x recorder) = true) as -> by exact Hg. cbn [negb].
        destruct (processPod env (NewPod x recorder) (ct_World s)) as [w2 q2]. by intros [= <- <-] [= <- <-]. }
      eexists. split; [by eapply fair_refused|by destruct (rr_error r1)].
    - destruct (PodReconciler.Reconcile env (Ok p) (λ _, Err (mkErr KConflict "conflict")) recorder (ct_World s))
        as [w' r] eqn:HR.
      eexists. split; [eapply fair_conflict; [done| |exact HR]|by destruct (rr_error r)].
      intros x Hx. apply Hno. by rewrite Hx. }
  destruct Hstep as (s1 & Hst & Hb1). destruct (IH s1) as (s' & J1 & J2).
  - rewrite Hb1, map_size_delete, Hk. cbn. lia.
  - eapply fair_inv; [by apply rtc_once|done].
  - exists s'. split; [by eapply rtc_l|done].
Qed.

(** C5: every gated pod is released, given the chance, unless the user left one of its
    required node selector terms empty.  From every state the controller can reach,
    whatever users, other writers, conflicts, lost answers and restarts have done
    before, and whatever the registries answer, the controller alone gets to a state in
    which no call is under way and everything that is gated, announced or queued is a
    pod with such a term; the API server stores the updates that are made from the
    current version and lawful for a gated pod, and refuses the others.  If no gated pod
    had an empty term to begin with, nothing is gated, announced or queued in the end.
    It is assumed that the configurations can be listed and that none of them enables
    the CEL plugin. *)
Theorem pods_released pods version w s :
  (∀ k x, pods !! k = Some x → x.2 < version) →
  rtc ctl_step (ctl_start pods version w) s →
  ∃ s', rtc fair_step s s' ∧ rtc ctl_step s s' ∧ ct_Busy s' = ∅
    ∧ (∀ k, k ∈ ct_Watch s' ∨ k ∈ ct_Queue s' → stuck s' k)
    ∧ (∀ k p v, ct_Pods s' !! k = Some (p, v) → gated p = true → stuck s' k)
    ∧ ((∀ k, ¬ stuck s k) →
       ct_Watch s' = ∅ ∧ ct_Queue s' = ∅ ∧ ∀ k p v, ct_Pods s' !! k = Some (p, v) → gated p = false).
Proof using lists plain sorts.
  intros Hf Hr. pose proof (ctl_reachable pods version w s Hf Hr) as Hs.
  destruct (finish_busy s Hs) as (s1 & H1 & Hb1).
  destruct (drain_pods (ct_Watch s1 ∪ ct_Queue s1) s1) as (s' & H2 & Hb & Hp).
  { by eapply fair_inv. } { done. } { intros k Hk. left. by apply elem_of_union. }
  assert (H : rtc fair_step s s') by (by etrans).
  assert (Hg : ∀ k p v, ct_Pods s' !! k = Some (p, v) → gated p = true → stuck s' k).
  { intros k p v Hk Hg. destruct (ci_pending s' (fair_inv _ _ H Hs) k (p, v) Hk Hg) as [Hin|[Hin|[y Hy]]].
    - by apply Hp; left.
    - by apply Hp; right.
    - by rewrite Hb, lookup_empty in Hy. }
  exists s'. split; [done|]. split; [by apply fair_run|]. split; [done|]. split; [exact Hp|]. split; [exact Hg|].
  intros Hn. assert (Hn' : ∀ k, ¬ stuck s' k) by (by eapply fair_none_stuck).
  split; [|split].
  - apply set_eq. intros k. split; [intros Hk; by destruct (Hn' k); apply Hp; left|set_solver].
  - apply set_eq. intros k. split; [intros Hk; by destruct (Hn' k); apply Hp; right|set_solver].
  - intros k p v Hk. destruct (gated p) eqn:E; [|done]. by destruct (Hn' k); eapply Hg.
Qed.
End drain.
