(* ===== verification/ConfigLag.v ===== *)
(** * Configurations seen through a lagging informer

    Webhook and reconciler read the [PodPlacementConfig]s of a pod's namespace from the
    cache of an informer, and ask the API server when the cache has none: the
    reconciler always, the webhook only until the cache has had its first listing
    ([ppcCacheSynced]).  Shown here: when the lag cannot be seen ([lag_invisible]), and
    what happens to a pod whose configuration was not seen on admission or is created
    afterwards: the update that the reconciler sends is one the API server has to
    refuse ([late_config_refused]). *)
From stdpp Require Import base gmap strings list relations.
From S2P Require Import Prelude GoStd Api LabelSelectors NodeMatch Models ArchConstraints CelEval.
From S2P Require Import Events PodModel PodTheorems PodReconciler ReconcilerTheorems Webhook System.
Import plugins v1beta1 models events.

(** ** The informer *)
Abbreviation Configs := (gmap Key PodPlacementConfig).

Inductive ConfigEvent :=
| Stored (k : Key) (c : PodPlacementConfig)
| Removed (k : Key).

Definition event_ns (e : ConfigEvent) : string := match e with Stored k _ | Removed k => k.1 end.

Definition apply_event (e : ConfigEvent) (m : Configs) : Configs :=
  match e with
  | Stored k c => <[k := c]> m
  | Removed k => base.delete k m
  end.

Record View := mkView {
  vw_Store : Configs;             (** the API server *)
  vw_Cache : Configs;
  vw_Events : list ConfigEvent;   (** what the cache has not seen, oldest first *)
  vw_Initial : nat;               (** how many of those are the first listing *)
}.

(** The informer starts by listing what there is. *)
Definition view_start (m : Configs) : View :=
  let l := (λ kc : Key * PodPlacementConfig, Stored kc.1 kc.2) <$> map_to_list m in
  mkView m ∅ l (length l).

Inductive view_step : View → View → Prop :=
| view_change v e :
    view_step v (mkView (apply_event e (vw_Store v)) (vw_Cache v) (vw_Events v ++ [e]) (vw_Initial v))
| view_deliver v e es :
    vw_Events v = e :: es →
    view_step v (mkView (vw_Store v) (apply_event e (vw_Cache v)) es (pred (vw_Initial v))).

(** [HasSynced] *)
Definition view_synced (v : View) : bool := bool_decide (vw_Initial v = 0).

(** [List] with [client.InNamespace] *)
Definition in_ns (ns : string) (m : Configs) : list PodPlacementConfig :=
  (map_to_list (filter (λ kc : Key * PodPlacementConfig, kc.1.1 = ns) m)).*2.

(** Nothing about the namespace is on its way. *)
Definition settled_ns (ns : string) (v : View) : Prop := Forall (λ e, event_ns e ≠ ns) (vw_Events v).

Definition view_ok (v : View) : Prop := vw_Store v = foldl (λ m e, apply_event e m) (vw_Cache v) (vw_Events v).

Lemma view_ok_start m : view_ok (view_start m).
Proof.
  unfold view_ok, view_start. cbn [vw_Store vw_Cache vw_Events]. rewrite <-(list_to_map_to_list m) at 1.
  assert (Hnd : NoDup (map_to_list m).*1) by apply NoDup_fst_map_to_list.
  assert (Hgen : ∀ l m0, NoDup l.*1 → (∀ k, k ∈ l.*1 → m0 !! k = None) →
    foldl (λ m e, apply_event e m) m0 ((λ kc : Key * PodPlacementConfig, Stored kc.1 kc.2) <$> l)
    = list_to_map l ∪ m0).
  { induction l as [|[k c] l IH]; intros m0 Hl Hm; cbn; [by rewrite map_empty_union|].
    apply NoDup_cons in Hl as [Hk Hl]. rewrite IH; [|done|].
    - rewrite <-insert_union_l. symmetry. apply insert_union_r. by apply not_elem_of_list_to_map_1.
    - intros k' Hk'. rewrite lookup_insert_ne; [|by intros ->]. apply Hm. by right. }
  rewrite Hgen; [by rewrite map_union_empty|done|]. intros k _. apply lookup_empty.
Qed.

Lemma view_ok_steps v v' : rtc view_step v v' → view_ok v → view_ok v'.
Proof.
  induction 1 as [|v1 v2 v3 Hs _ IH]; [done|]. intros Hv. apply IH. unfold view_ok in *.
  destruct Hs as [v e|v e es He]; cbn.
  - by rewrite foldl_snoc, <-Hv.
  - rewrite Hv, He. done.
Qed.

Lemma filter_other_event (ns : string) (e : ConfigEvent) (m : Configs) :
  event_ns e ≠ ns →
  filter (λ kc : Key * PodPlacementConfig, kc.1.1 = ns) (apply_event e m)
  = filter (λ kc : Key * PodPlacementConfig, kc.1.1 = ns) m.
Proof.
  intros He. apply map_eq. intros k. apply option_eq. intros c. rewrite !map_lookup_filter_Some.
  destruct e as [k' c'|k']; cbn in *.
  - destruct (decide (k = k')) as [->|Hne]; [naive_solver|]. by rewrite lookup_insert_ne.
  - destruct (decide (k = k')) as [->|Hne]; [naive_solver|]. by rewrite lookup_delete_ne.
Qed.

(** A settled namespace is seen as it is. *)
Lemma settled_in_ns ns v : view_ok v → settled_ns ns v → in_ns ns (vw_Cache v) = in_ns ns (vw_Store v).
Proof.
  unfold view_ok, settled_ns, in_ns. intros -> Hs. f_equal. f_equal. revert Hs. generalize (vw_Cache v).
  induction (vw_Events v) as [|e es IH]; intros m Hs; [done|]. apply Forall_cons in Hs as [He Hs]. cbn.
  rewrite <-IH by done. by rewrite filter_other_event.
Qed.

(** ** What webhook and reconciler read *)
Definition lagging (v : View) (env : Env) : Env :=
  mkEnv (env_operatorNamespace env) (env_cppc env) (λ ns, Ok (in_ns ns (vw_Cache v)))
    (λ ns, Ok (in_ns ns (vw_Store v))) (env_keyOk env) (env_valueOk env) (env_sort env)
    (env_getSecret env) (env_auths env).
Definition current (v : View) (env : Env) : Env :=
  mkEnv (env_operatorNamespace env) (env_cppc env) (λ ns, Ok (in_ns ns (vw_Store v)))
    (λ ns, Ok (in_ns ns (vw_Store v))) (env_keyOk env) (env_valueOk env) (env_sort env)
    (env_getSecret env) (env_auths env).

Definition lagging_wh (v : View) (env : WebhookEnv) : WebhookEnv :=
  mkWEnv (we_operatorNamespace env) (we_cppc env) (λ ns, Ok (in_ns ns (vw_Cache v)))
    (Some (λ ns, Ok (in_ns ns (vw_Store v)))) (Some (view_synced v)) (we_keyOk env) (we_valueOk env)
    (we_sort env) (we_marshal env) (we_patch env).
Definition current_wh (v : View) (env : WebhookEnv) : WebhookEnv :=
  mkWEnv (we_operatorNamespace env) (we_cppc env) (λ ns, Ok (in_ns ns (vw_Store v)))
    (Some (λ ns, Ok (in_ns ns (vw_Store v)))) (Some (view_synced v)) (we_keyOk env) (we_valueOk env)
    (we_sort env) (we_marshal env) (we_patch env).

Section lag.
Context {W : Type} {celService : CelService W} {imageService : ImageService W} {rangeOrder : RangeOrder}.

Definition ns_of (p : CorePod) : string := om_Namespace (p_Meta p).

Lemma listPPCs_lagging v env ns :
  in_ns ns (vw_Cache v) = in_ns ns (vw_Store v) ∨ in_ns ns (vw_Cache v) = [] →
  listPPCs (lagging v env) ns = listPPCs (current v env) ns.
Proof.
  unfold listPPCs, lagging, current. cbn. intros [->| ->]; [done|]. by destruct (in_ns ns (vw_Store v)).
Qed.

Lemma listPPCs_lagging_wh v env ns :
  in_ns ns (vw_Cache v) = in_ns ns (vw_Store v) ∨ in_ns ns (vw_Cache v) = [] ∧ view_synced v = false →
  listPPCs_webhook (lagging_wh v env) ns = listPPCs_webhook (current_wh v env) ns.
Proof.
  unfold listPPCs_webhook, lagging_wh, current_wh. cbn. intros [->|[-> ->]]; [done|].
  by destruct (in_ns ns (vw_Store v)).
Qed.

(** A lagging cache of configurations is invisible where the code guards against it.
    Whatever else has happened to the configurations, a pod of a namespace whose
    changes have all arrived is admitted and reconciled as if the configurations were
    read from the API server; and so is a pod of a namespace of which the cache shows
    no configuration at all, on every reconcile, and on admission until the first
    listing has arrived. *)
Theorem lag_invisible m v env wenv (p : CorePod) (recorder : option (list Event)) update (w : W) :
  rtc view_step (view_start m) v →
  let none := in_ns (ns_of p) (vw_Cache v) = [] in
  (settled_ns (ns_of p) v ∨ none →
     PodReconciler.Reconcile (lagging v env) (Ok p) update recorder w
     = PodReconciler.Reconcile (current v env) (Ok p) update recorder w)
  ∧ (settled_ns (ns_of p) v ∨ none ∧ view_synced v = false →
     Handle (lagging_wh v wenv) (Ok p) recorder w = Handle (current_wh v wenv) (Ok p) recorder w).
Proof.
  intros Hr none. pose proof (view_ok_steps _ _ Hr (view_ok_start m)) as Hv. split; intros Hc.
  - assert (Hl : listPPCs (lagging v env) (pod_Namespace (NewPod p recorder))
      = listPPCs (current v env) (pod_Namespace (NewPod p recorder))).
    { apply listPPCs_lagging. destruct Hc as [Hs|Hn]; [left; by apply settled_in_ns|by right]. }
    unfold PodReconciler.Reconcile, processPod. rewrite Hl. done.
  - assert (Hl : listPPCs_webhook (lagging_wh v wenv) (pod_Namespace (NewPod p recorder))
      = listPPCs_webhook (current_wh v wenv) (pod_Namespace (NewPod p recorder))).
    { apply listPPCs_lagging_wh. destruct Hc as [Hs|Hn]; [left; by apply settled_in_ns|by right]. }
    unfold Handle, mutate. rewrite Hl. done.
Qed.
End lag.

(** ** A configuration that comes too late *)

(** The choice of the CEL plugin is the only architecture expression it leaves. *)
Lemma applied_only_arch rn ts t x :
  t ∈ appliedTerms rn ts → x ∈ elems (nst_MatchExpressions t) → is_arch_expr x = true → x = rn.
Proof.
  unfold appliedTerms. destruct ts as [|t0 ts].
  - intros ->%list_elem_of_singleton Hx _. by apply list_elem_of_singleton in Hx.
  - intros (t1 & -> & _)%list_elem_of_fmap. cbn [replaceArch nst_MatchExpressions].
    rewrite elems_sappend, elems_cleanedExpressions, elem_of_app, list_elem_of_singleton.
    intros [Hx|Hx] Harch; [|done].
    pose proof (filter_no_arch (elems (nst_MatchExpressions t1))) as Hno. rewrite Forall_forall in Hno.
    by rewrite (Hno x Hx) in Harch.
Qed.

(** So a term that had another one is not kept. *)
Lemma replaced_not_extended rn ts ts' t r :
  Forall2 term_extends ts (appliedTerms rn ts') →
  t ∈ ts → r ∈ elems (nst_MatchExpressions t) → is_arch_expr r = true → r = rn.
Proof.
  intros Hf Ht Hr Harch. apply list_elem_of_lookup in Ht as [i Hi].
  destruct (Forall2_lookup_l _ _ _ _ _ Hf Hi) as (t' & Hi' & _ & [xs Hx] & _).
  eapply applied_only_arch; [by eapply list_elem_of_lookup_2|rewrite Hx; apply elem_of_app; by left|done].
Qed.

(** What comes after the choice leaves the required terms alone. *)
Definition same_required (p q : Pod) : Prop := required_terms (spec_of q) = required_terms (spec_of p).

#[local] Instance same_required_preorder : PreOrder same_required.
Proof. split; [done|]. intros p q r H1 H2. unfold same_required in *. congruence. Qed.

Lemma same_required_spec p q : spec_of q = spec_of p → same_required p q.
Proof. unfold same_required. by intros ->. Qed.

Lemma same_required_SetPreferred sc source p : same_required p (SetPreferredArchNodeAffinity sc source p).
Proof. unfold same_required, required_terms. by rewrite spec_of_SetPreferred, required_of_put_Preferred. Qed.

Lemma same_required_foldl {A} (f : Pod → A → Pod) l p :
  (∀ q x, same_required q (f q x)) → same_required p (foldl f p l).
Proof. intros Hf. revert p. induction l as [|x l IH]; intros p; cbn; [done|]. etrans; [apply Hf|apply IH]. Qed.

Lemma same_required_track_skipped source p sc : same_required p (track_skipped source p sc).
Proof. apply same_required_foldl. intros q t. apply same_required_spec, spec_of_trackAffinitySource. Qed.

Lemma same_required_RemoveSchedulingGate p : same_required p (RemoveSchedulingGate p).
Proof. unfold same_required, RemoveSchedulingGate, RemoveGate. rewrite spec_of_EnsureLabel. by destruct (negb _). Qed.

Section late.
Context {W : Type} {celService : CelService W} {celOk : CelServiceOk W} {imageService : ImageService W}
  {rangeOrder : RangeOrder}.

Lemma same_required_configured env matching p (w : W) :
  same_required (cel_loop (env_sort env matching) p w).1.2 (configured_pod env matching p w).1.2
  ∧ (configured_pod env matching p w).2 = (cel_loop (env_sort env matching) p w).2.
Proof.
  unfold configured_pod, applyMatchingPPCs. destruct (cel_loop _ p w) as [[w1 p1] b].
  destruct (isPreferredAffinityConfiguredForArchitecture p); cbn [fst snd]; (split; [|done]).
  - unfold trackSkippedMatchingConfigs.
    assert (H1 : same_required p1 (foldl track_skipped_ppc p1 (env_sort env (env_sort env matching)))).
    { apply same_required_foldl. intros q x. unfold track_skipped_ppc.
      destruct (negb _); [done|]. destruct (ppc_scoring x); [apply same_required_track_skipped|done]. }
    destruct (enabled_cppc_scoring _); [|done]. etrans; [exact H1|apply same_required_track_skipped].
  - assert (H1 : same_required p1 (foldl scoring_step p1 (env_sort env matching))).
    { apply same_required_foldl. intros q x. unfold scoring_step.
      destruct (negb _); [done|]. destruct (ppc_scoring x); [apply same_required_SetPreferred|done]. }
    destruct (enabled_cppc_scoring _); [|done]. etrans; [exact H1|apply same_required_SetPreferred].
Qed.

(** A gated pod with an architecture in one of its required terms, to which a rule that
    chooses other architectures applies only now, because the configuration is newer
    than the pod or the webhook did not see it: the reconciler's update replaces that
    term, which the API server does not allow for a gated pod.  The update is refused,
    nothing is counted as a failed try, and the next reconcile sends the same. *)
Theorem late_config_refused env p items a (w : W) t r :
  cel_inv w → listPPCs env (pod_Namespace p) = Ok items →
  let matching := filterMatchingPPCs (env_keyOk env) (env_valueOk env) items p in
  let '(ignore, p0) := shouldIgnorePod (env_operatorNamespace env) (env_cppc env) matching p in
  ignore = false → cel_choice (pod_obj p0) (env_sort env matching) = Some a →
  t ∈ required_terms (spec_of p) → r ∈ elems (nst_MatchExpressions t) → is_arch_expr r = true →
  r ≠ mkNSR utils.ArchLabel NodeSelectorOpIn a →
  ¬ directives_ok (spec_of p) (spec_of (processPod env p w).2).
Proof.
  intros Hw Hl. cbn zeta. rewrite processPod_eq, Hl. cbn zeta.
  set (matching := filterMatchingPPCs _ _ items p).
  pose proof (shouldIgnorePod_spec (env_operatorNamespace env) (env_cppc env) matching p) as Hsp.
  destruct (shouldIgnorePod _ _ matching p) as [ignore p0]. cbn [snd] in Hsp.
  intros -> Hch Ht Hr Harch Hne Hok.
  destruct (same_required_configured env matching p0 w) as [Hsr Hap].
  destruct (cel_loop_choice (env_sort env matching) p0 w Hw) as (Hobj & Hb & _).
  rewrite Hch in Hobj, Hb. destruct (configured_pod env matching p0 w) as [[w1 p2] applied]. cbn [fst snd] in *.
  rewrite Hb, bool_decide_eq_true_2 in Hap by by eexists. subst applied. cbn [snd] in Hok.
  assert (Hne' : elems a ≠ []) by (by eapply choice_nonempty).
  assert (Hterms : required_terms (spec_of (RemoveSchedulingGate (publishNoPreferred p2)))
    = appliedTerms (mkNSR utils.ArchLabel NodeSelectorOpIn a) (required_terms (spec_of p))).
  { rewrite same_required_RemoveSchedulingGate, spec_of_publishNoPreferred, Hsr, <-Hsp.
    unfold spec_of at 1. rewrite Hobj. cbn [enact EnsureLabel upd pod_obj]. unfold upd_meta. cbn [p_Spec].
    rewrite overrideArchitectures_eq by done. unfold required_terms at 1. cbn [p_Spec upd_spec].
    by rewrite required_of_put_Required. }
  destruct Hok as (_ & [Hnil|Hf] & _).
  - rewrite Hnil in Ht. by apply not_elem_of_nil in Ht.
  - rewrite Hterms in Hf. by apply Hne, (replaced_not_extended _ _ _ _ _ Hf Ht Hr Harch).
Qed.
End late.
