(* ===== verification/EventFlow.v ===== *)
(** * An exec format error on its way from the node to the pod

    The storage workers of the daemons ([EnoexecDaemon.processEvent]), the API server,
    the informer and the work queue of the event handler ([SetupWithManager] of
    [enoexecevent_controller.go]), its concurrent calls
    ([EnoexecHandler.ReconcileEvent]) and the operator, which removes the events that
    carry the error label ([deleteErroredENoExecEvents]), as one transition system.
    Every request of a program is a step of its own, so all of them interleave: the
    handler may read an event between its creation and the update of its status, the
    informer lags, writes are refused or their answers get lost, workers, daemons and
    the handler die at any point.

    Shown here: an event that a daemon has published is not lost.  As long as it is
    stored the handler is going to look at it, and when it is gone there was a moment
    at which its pod carried the label, or had nothing to be reported any more, or the
    operator removed it with the mark of a failure. *)
From stdpp Require Import base gmap strings list relations.
From S2P Require Import Prelude GoStd Api Models Prog EnoexecHandler TracepointUser EnoexecDaemon System.
Import models.

#[export] Instance ENoExecEvent_eq_dec : EqDecision ENoExecEvent.
Proof. solve_decision. Defined.

Definition ekey (e : ENoExecEvent) : Key := (en_Namespace e, en_Name e).

(** ** The API server *)

(** The pods and the nodes at one moment. *)
Record Moment := mkMoment { mo_Pods : gmap Key CorePod; mo_Nodes : gmap string (GoMap string) }.

(** Who removed an event, and what it had to go by. *)
Inductive Fate :=
| ByHandler (moments : list Moment)
| ByOperator (labels : GoMap string)
| ByDaemon.

Record Srv := mkSrv {
  sv_Events : gmap Key ENoExecEvent;
  sv_Watch : gset Key;                  (** changes of events that the watch has not delivered *)
  sv_Now : Moment;
  sv_Named : gmap Key ENoExecEvent;     (** what the daemons want to publish, by generated name *)
  sv_Published : gset Key;              (** what they were told is stored with its status *)
  sv_Gone : gmap Key Fate;
}.

Definition set_Events (evs : gmap Key ENoExecEvent) (k : Key) (v : Srv) : Srv :=
  mkSrv evs ({[k]} ∪ sv_Watch v) (sv_Now v) (sv_Named v) (sv_Published v) (sv_Gone v).
Definition set_Now (m : Moment) (v : Srv) : Srv :=
  mkSrv (sv_Events v) (sv_Watch v) m (sv_Named v) (sv_Published v) (sv_Gone v).
Definition set_Named (n : gmap Key ENoExecEvent) (v : Srv) : Srv :=
  mkSrv (sv_Events v) (sv_Watch v) (sv_Now v) n (sv_Published v) (sv_Gone v).
Definition set_Published (p : gset Key) (v : Srv) : Srv :=
  mkSrv (sv_Events v) (sv_Watch v) (sv_Now v) (sv_Named v) p (sv_Gone v).
Definition set_Gone (g : gmap Key Fate) (v : Srv) : Srv :=
  mkSrv (sv_Events v) (sv_Watch v) (sv_Now v) (sv_Named v) (sv_Published v) g.

(** A write of the event [k]; one that changes nothing is not announced. *)
Definition put_event (k : Key) (x : ENoExecEvent) (v : Srv) : Srv :=
  if decide (sv_Events v !! k = Some x) then v else set_Events (<[k := x]> (sv_Events v)) k v.

Definition remove_event (k : Key) (f : Fate) (v : Srv) : Srv :=
  set_Gone (<[k := f]> (sv_Gone v)) (set_Events (base.delete k (sv_Events v)) k v).

(** An update of an object leaves its status alone, an update of the status leaves
    everything else alone. *)
Definition with_Labels (e x : ENoExecEvent) : ENoExecEvent :=
  mkENoExec (en_Name x) (en_Namespace x) (en_Labels e) (en_NodeName x) (en_PodName x)
    (en_PodNamespace x) (en_ContainerID x).

(** Changes of the stored event [k], if there is one. *)
Definition change_event (k : Key) (f : ENoExecEvent → ENoExecEvent) (v : Srv) : Srv :=
  match sv_Events v !! k with Some x => put_event k (f x) v | None => v end.

(** What a read may answer: the object, a NotFound when there is none, any other
    error at any time. *)
Definition read_ok {A} (o : option A) (a : res A) : Prop :=
  match a with
  | Ok x => o = Some x
  | Err err => isNotFound err = true → o = None
  end.

(** What a write to an existing object may answer: it is applied, and the answer may
    be lost, or it is refused. *)
Definition write_ok (present : Prop) (applied : bool) (a : option GoError) : Prop :=
  if applied then present ∧ ∀ err, a = Some err → isNotFound err = false
  else ∃ err, a = Some err ∧ (isNotFound err = true → ¬ present).

Definition stored (v : Srv) (k : Key) : Prop := is_Some (sv_Events v !! k).

(** ** The requests of the handler

    [seen] are the moments of the answers so far; reads of the event come from the
    informer's cache. *)
Definition hserve (cached : option ENoExecEvent) (seen : list Moment) (v : Srv) {T} (c : HCall T) :
    T → Srv → Prop :=
  match c in HCall T return T → Srv → Prop with
  | GetEvent => λ a v', v' = v ∧ read_ok cached a
  | UpdateEvent e => λ a v', ∃ applied, write_ok (stored v (ekey e)) applied a
      ∧ v' = if applied : bool then change_event (ekey e) (with_Labels e) v else v
  | DeleteEvent e => λ a v', ∃ applied, write_ok (stored v (ekey e)) applied a
      ∧ v' = if applied : bool then remove_event (ekey e) (ByHandler seen) v else v
  | GetPod ns n => λ a v', v' = v ∧ read_ok (mo_Pods (sv_Now v) !! ((ns, n) : Key)) a
  | GetNode n => λ a v', v' = v ∧ read_ok (mo_Nodes (sv_Now v) !! n) a
  | RecordOnPod _ _ _ => λ _ v', v' = v
  | UpdatePod p => λ a v', ∃ applied, write_ok (is_Some (mo_Pods (sv_Now v) !! key_of p)) applied a
      ∧ v' = if applied : bool
             then set_Now (mkMoment (<[key_of p := p]> (mo_Pods (sv_Now v))) (mo_Nodes (sv_Now v))) v
             else v
  end.

(** ** The requests of a storage worker *)
Record Storer := mkStorer {
  sr_Namespace : string;
  sr_NodeName : string;
  sr_Internal : ENOEXECInternalEvent;
  sr_Event : option ENoExecEvent;       (** once it has a name *)
  sr_Rest : SP (option GoError);
}.

Definition name_event (st : Storer) (uuid : string) : ENoExecEvent :=
  ToENoExecEvent uuid (sr_Namespace st) (sr_NodeName st) (sr_Internal st).

(** Generated names are not given out twice. *)
Definition sserve (st : Storer) (v : Srv) {T} (c : SCall T) : T → Srv → Prop :=
  match c in SCall T return T → Srv → Prop with
  | NewUUID => λ uuid v', let e := name_event st uuid in
      sv_Named v !! ekey e = None ∧ v' = set_Named (<[ekey e := e]> (sv_Named v)) v
  | LimiterWait => λ _ v', v' = v
  | CreateEvent e => λ a v',
      (∃ err, a = Err err ∧ v' = v)
      ∨ sv_Events v !! ekey e = None ∧ v' = put_event (ekey e) (without_Status e) v
        ∧ ∀ x, a = Ok x → x = without_Status e
  | GetStored ns n => λ a v', v' = v ∧ read_ok (sv_Events v !! ((ns, n) : Key)) a
  | UpdateStatus e => λ a v', ∃ applied, write_ok (stored v (ekey e)) applied a
      ∧ let v1 := if applied : bool then change_event (ekey e) (with_Status e) v else v in
        v' = match a with None => set_Published ({[ekey e]} ∪ sv_Published v1) v1 | Some _ => v1 end
  | RollbackEvent e => λ a v', ∃ applied, write_ok (stored v (ekey e)) applied a
      ∧ v' = if applied : bool then remove_event (ekey e) ByDaemon v else v
  end.

Definition named (st : Storer) {T} (c : SCall T) : T → option ENoExecEvent :=
  match c in SCall T return T → option ENoExecEvent with
  | NewUUID => λ uuid, Some (name_event st uuid)
  | _ => λ _, sr_Event st
  end.

(** Its next request. *)
Definition storer_moves (st : Storer) (v : Srv) (st' : Storer) (v' : Srv) : Prop :=
  match sr_Rest st with
  | Return _ => False
  | Do c k => ∃ t, sserve st v c t v'
      ∧ st' = mkStorer (sr_Namespace st) (sr_NodeName st) (sr_Internal st) (named st c t) (k t)
  end.

(** ** The system *)

(** A call of the handler's [Reconcile]: its requests and answers so far, the moments
    of the answers, and what is left of it. *)
Record Worker := mkWorker {
  wk_Trace : list (Ev HCall);
  wk_Moments : list Moment;
  wk_Rest : H (option GoError);
}.

Definition worker_moves (cached : option ENoExecEvent) (w : Worker) (v : Srv) (w' : Worker) (v' : Srv) : Prop :=
  match wk_Rest w with
  | Return _ => False
  | Do c k => ∃ t, hserve cached (wk_Moments w) v c t v'
      ∧ w' = mkWorker (wk_Trace w ++ [mkEv c t]) (wk_Moments w ++ [sv_Now v']) (k t)
  end.

Record Flow := mkFlow {
  fl_Srv : Srv;
  fl_Cache : gmap Key ENoExecEvent;
  fl_Queue : gset Key;
  fl_Workers : gmap Key Worker;
  fl_Storers : gmap nat Storer;
  fl_Listed : gmap Key (GoMap string);  (** what the operator is about to remove *)
}.

Section flow.
Context (operatorNamespace : string) (hasRecorder : bool).

Abbreviation ReconcileEvent := (EnoexecHandler.ReconcileEvent operatorNamespace hasRecorder).

Definition flow_start (m : Moment) : Flow := mkFlow (mkSrv ∅ ∅ m ∅ ∅ ∅) ∅ ∅ ∅ ∅ ∅.

Definition keyed_pods (m : Moment) : Prop := ∀ k p, mo_Pods m !! k = Some p → key_of p = k.

(** The handler: the watch, the queue and the concurrent calls. *)
Inductive handler_step : Flow → Flow → Prop :=
(** a watch event: the informer stores it and the controller enqueues the key; its
    cache is limited to the namespace of the operator ([DefaultNamespaces] in [main]) *)
| handler_deliver s (k : Key) :
    let v := fl_Srv s in k ∈ sv_Watch v → k.1 = operatorNamespace →
    handler_step s (mkFlow
      (mkSrv (sv_Events v) (sv_Watch v ∖ {[k]}) (sv_Now v) (sv_Named v) (sv_Published v) (sv_Gone v))
      (match sv_Events v !! k with Some x => <[k := x]> (fl_Cache s) | None => base.delete k (fl_Cache s) end)
      ({[k]} ∪ fl_Queue s) (fl_Workers s) (fl_Storers s) (fl_Listed s))
| handler_foreign s (k : Key) :
    let v := fl_Srv s in k ∈ sv_Watch v → k.1 ≠ operatorNamespace →
    handler_step s (mkFlow
      (mkSrv (sv_Events v) (sv_Watch v ∖ {[k]}) (sv_Now v) (sv_Named v) (sv_Published v) (sv_Gone v))
      (fl_Cache s) (fl_Queue s) (fl_Workers s) (fl_Storers s) (fl_Listed s))
(** a worker takes a key, does its next request, returns *)
| handler_take s k :
    k ∈ fl_Queue s → fl_Workers s !! k = None →
    handler_step s (mkFlow (fl_Srv s) (fl_Cache s) (fl_Queue s ∖ {[k]})
      (<[k := mkWorker [] [] ReconcileEvent]> (fl_Workers s)) (fl_Storers s) (fl_Listed s))
| handler_request s k w w' v' :
    fl_Workers s !! k = Some w → worker_moves (fl_Cache s !! k) w (fl_Srv s) w' v' →
    handler_step s (mkFlow v' (fl_Cache s) (fl_Queue s) (<[k := w']> (fl_Workers s)) (fl_Storers s) (fl_Listed s))
| handler_return s k w r :
    fl_Workers s !! k = Some w → wk_Rest w = Return r →
    handler_step s (mkFlow (fl_Srv s) (fl_Cache s)
      (match r with Some _ => {[k]} ∪ fl_Queue s | None => fl_Queue s end)
      (base.delete k (fl_Workers s)) (fl_Storers s) (fl_Listed s)).

Inductive flow_step : Flow → Flow → Prop :=
(** a daemon has an event to store, does its next request, is done or dies *)
| flow_event s i hasLogger ns node ev :
    fl_Storers s !! i = None →
    flow_step s (mkFlow (fl_Srv s) (fl_Cache s) (fl_Queue s) (fl_Workers s)
      (<[i := mkStorer ns node ev None (processEvent hasLogger ns node ev)]> (fl_Storers s)) (fl_Listed s))
| flow_store s i st st' v' :
    fl_Storers s !! i = Some st → storer_moves st (fl_Srv s) st' v' →
    flow_step s (mkFlow v' (fl_Cache s) (fl_Queue s) (fl_Workers s) (<[i := st']> (fl_Storers s)) (fl_Listed s))
| flow_stop s i :
    flow_step s (mkFlow (fl_Srv s) (fl_Cache s) (fl_Queue s) (fl_Workers s) (base.delete i (fl_Storers s)) (fl_Listed s))
(** the handler does something *)
| flow_handler s s' : handler_step s s' → flow_step s s'
(** the handler is restarted and lists the events again *)
| flow_restart s :
    let v := fl_Srv s in
    flow_step s (mkFlow
      (mkSrv (sv_Events v) (dom (sv_Events v)) (sv_Now v) (sv_Named v) (sv_Published v) (sv_Gone v))
      ∅ ∅ ∅ (fl_Storers s) (fl_Listed s))
(** the informer hands out all it has, from time to time *)
| flow_resync s :
    flow_step s (mkFlow (fl_Srv s) (fl_Cache s) (dom (fl_Cache s) ∪ fl_Queue s) (fl_Workers s) (fl_Storers s) (fl_Listed s))
(** pods and nodes come, change and go *)
| flow_cluster s m :
    keyed_pods m →
    flow_step s (mkFlow (set_Now m (fl_Srv s)) (fl_Cache s) (fl_Queue s) (fl_Workers s) (fl_Storers s) (fl_Listed s))
(** the operator lists the events of its namespace and removes those that have the
    error label *)
| flow_list s :
    flow_step s (mkFlow (fl_Srv s) (fl_Cache s) (fl_Queue s) (fl_Workers s) (fl_Storers s)
      (map_imap (λ k e, if bool_decide (k.1 = operatorNamespace) && HasErrorLabel e then Some (en_Labels e) else None)
         (sv_Events (fl_Srv s))))
| flow_remove s k labels :
    fl_Listed s !! k = Some labels → stored (fl_Srv s) k →
    flow_step s (mkFlow (remove_event k (ByOperator labels) (fl_Srv s)) (fl_Cache s) (fl_Queue s)
      (fl_Workers s) (fl_Storers s) (base.delete k (fl_Listed s))).

(** ** What the programs promise *)

(** The handler: a successful deletion. *)
Definition deletes {T} (c : HCall T) : T → Prop :=
  match c in HCall T return T → Prop with
  | DeleteEvent _ => λ a, ignoreNotFound a = None
  | _ => λ _, False
  end.

Definition reportable (e : ENoExecEvent) : Prop := en_Namespace e = operatorNamespace ∧ en_PodName e ≠ "".

(** A read that finds an event to report, or fails. *)
Definition finds {T} (c : HCall T) : T → Prop :=
  match c in HCall T return T → Prop with
  | GetEvent => λ a, match a with Ok e => reportable e | Err err => isNotFound err = false end
  | _ => λ _, True
  end.

(** Unless it deletes the event, it ends in [P]. *)
Fixpoint settles {A} (P : A → Prop) (p : H A) : Prop :=
  match p with
  | Return a => P a
  | Do c k => ∀ t, finds c t → deletes c t ∨ settles P (k t)
  end.

Definition again (r : option GoError) : Prop := r ≠ None.

Lemma settles_bind {A B} (P : B → Prop) (p : H A) (f : A → H B) :
  settles (λ a, settles P (f a)) p → settles P (pbind f p).
Proof.
  induction p as [a|T c k IH]; cbn; [done|]. intros Hp t Ht. destruct (Hp t Ht) as [?|?]; [by left|right; auto].
Qed.

Lemma settles_any {A} (P : A → Prop) (p : H A) : (∀ a, P a) → settles P p.
Proof. intros HP. induction p as [a|T c k IH]; cbn; [done|]. intros t _. right. apply IH. Qed.

Lemma finish_settles_again e err : settles again (finishEvent e err).
Proof.
  unfold finishEvent. prog_unfold. destruct (ignoreNotFound err) as [err'|].
  - apply settles_bind, settles_any. by intros e'.
  - intros d _. destruct d as [derr|]; [|by left]. cbn [deletes ignoreNotFound pbind].
    destruct (isNotFound derr); [by left|]. right. apply settles_bind, settles_any. by intros e'.
Qed.

(** A reconcile of an event that is to be reported deletes it or is repeated. *)
Lemma reconcile_settles_again : settles again ReconcileEvent.
Proof.
  unfold EnoexecHandler.ReconcileEvent. prog_unfold. intros [e|err]; cbn [finds pbind].
  - intros [Hns Hpod]. right. rewrite (bool_decide_eq_true_2 _ Hns), (bool_decide_eq_false_2 _ Hpod). cbn [negb].
    apply settles_bind, settles_any. intros [e1 err]. apply finish_settles_again.
  - intros Hnf. right. cbn. by rewrite Hnf.
Qed.

(** As long as the answers are in [V], the requests satisfy [P] and the result [Q]. *)
Fixpoint obeys {Call : Type → Type} (V : ∀ T, Call T → T → Prop) (P : ∀ T, Call T → Prop) {A} (Q : A → Prop)
    (p : prog Call A) : Prop :=
  match p with
  | Return a => Q a
  | Do c k => P _ c ∧ ∀ t, V _ c t → obeys V P Q (k t)
  end.

Lemma obeys_bind {Call : Type → Type} V (P : ∀ T, Call T → Prop) {A B} (Q : B → Prop) (p : prog Call A) (f : A → prog Call B) :
  obeys V P (λ a, obeys V P Q (f a)) p → obeys V P Q (pbind f p).
Proof. induction p as [a|T c k IH]; cbn; [done|]. intros [Hc Hk]. eauto. Qed.

(** The handler writes only the event it was called for. *)
Definition concerns (k : Key) : ∀ T, HCall T → Prop := λ T c,
  match c with
  | UpdateEvent e | DeleteEvent e => ekey e = k
  | _ => True
  end.
Definition reads (k : Key) : ∀ T, HCall T → T → Prop := λ T c,
  match c in HCall T return T → Prop with
  | GetEvent => λ a, ∀ e, a = Ok e → ekey e = k
  | _ => λ _, True
  end.

Lemma mark_concerns k reason e {A} (f : ENoExecEvent → A) Q :
  ekey e = k → (∀ e1, ekey e1 = k → Q (f e1)) →
  obeys (reads k) (concerns k) Q (pbind (λ e1, Return (f e1)) (markAsError reason e)).
Proof. intros He HQ. split; [exact He|]. intros t _. by apply HQ. Qed.

Lemma reconcileEvent_concerns k e :
  ekey e = k → obeys (reads k) (concerns k) (λ r, ekey r.1 = k) (reconcileEvent hasRecorder e).
Proof.
  intros He. unfold reconcileEvent. prog_unfold. split; [done|]. intros [pod|err] _; [|by apply mark_concerns].
  cbn [pbind]. destruct (negb _); [by apply mark_concerns|]. split; [done|].
  intros [labels|err] _; [|by apply mark_concerns]. cbn [pbind].
  assert (Hu : obeys (reads k) (concerns k) (λ r, ekey r.1 = k)
    (Do (UpdatePod (labelled pod)) (λ u, pbind (λ u0 : option GoError, match u0 with
       | Some err => pbind (λ e1, Return (e1, Some err)) (markAsError ErrorReasonPodNotFound e)
       | None => Return (e, None) end) (Return u)))).
  { split; [done|]. intros [err|] _; [by apply mark_concerns|done]. }
  destruct hasRecorder; [by split|exact Hu].
Qed.

Lemma reconcile_concerns k : obeys (reads k) (concerns k) (λ _, True) ReconcileEvent.
Proof.
  unfold EnoexecHandler.ReconcileEvent. prog_unfold. split; [done|]. intros [e|err] Ha; [|done]. cbn [pbind].
  specialize (Ha e eq_refl). destruct (negb _); [by apply mark_concerns|]. case_bool_decide; [by apply mark_concerns|].
  apply obeys_bind. generalize (reconcileEvent_concerns k e Ha). generalize (reconcileEvent hasRecorder e).
  assert (Hf : ∀ r, ekey r.1 = k → obeys (reads k) (concerns k) (λ _, True) (finishEvent r.1 r.2)).
  { intros [e1 err] He1. cbn [fst snd] in *. unfold finishEvent. prog_unfold. destruct (ignoreNotFound err); [by apply mark_concerns|].
    split; [done|]. intros [derr|] _; [by apply mark_concerns|done]. }
  intros p. induction p as [r|T c kont IH]; cbn; [apply Hf|]. intros [Hc Hk]. eauto.
Qed.

(** The daemon, once its event [x] has a name: it writes only [x], and is done when it
    was told that the status is stored. *)
Definition about (x : ENoExecEvent) {T} (c : SCall T) : Prop :=
  match c with
  | NewUUID => False
  | LimiterWait => True
  | CreateEvent e | RollbackEvent e => ekey e = ekey x
  | GetStored ns n => (ns, n) = ekey x
  | UpdateStatus e => ekey e = ekey x ∧ sameStatus e x
  end.
Definition returns (x : ENoExecEvent) {T} (c : SCall T) : T → Prop :=
  match c in SCall T return T → Prop with
  | CreateEvent _ | GetStored _ _ => λ a, ∀ e, a = Ok e → ekey e = ekey x
  | _ => λ _, True
  end.
Definition confirms {T} (c : SCall T) : T → Prop :=
  match c in SCall T return T → Prop with
  | UpdateStatus _ => λ a, a = None
  | _ => λ _, False
  end.

Definition finished {A} (p : SP A) : Prop := calls (λ _ _, False) p.

Fixpoint tidy (x : ENoExecEvent) {A} (p : SP A) : Prop :=
  match p with
  | Return _ => True
  | Do c k => about x c ∧ ∀ t, returns x c t → tidy x (k t) ∧ (confirms c t → finished (k t))
  end.

Definition unnamed (st : Storer) (p : SP (option GoError)) : Prop :=
  match p with
  | Return _ => True
  | Do c k => match c in SCall T return (T → SP (option GoError)) → Prop with
              | NewUUID => λ k, ∀ uuid, tidy (name_event st uuid) (k uuid)
              | _ => λ _, False
              end k
  end.

Lemma finished_assoc {A B C} (p : SP A) (g : A → SP B) (f : B → SP C) :
  finished (pbind (λ a, pbind f (g a)) p) → finished (pbind f (pbind g p)).
Proof. induction p as [a|T c k IH]; cbn; [done|]. by intros [[] _]. Qed.

Lemma tidy_assoc x {A B C} (p : SP A) (g : A → SP B) (f : B → SP C) :
  tidy x (pbind (λ a, pbind f (g a)) p) → tidy x (pbind f (pbind g p)).
Proof.
  induction p as [a|T c k IH]; cbn; [done|]. intros [Hc Hk]. split; [done|]. intros t Ht.
  destruct (Hk t Ht) as [H1 H2]. split; [by apply IH|]. intros Hd. by apply finished_assoc, H2.
Qed.

Lemma finished_tidy x {A} (p : SP A) : finished p → tidy x p.
Proof. destruct p; [done|]. by intros [[] _]. Qed.

Lemma attempt_tidy x saved {A} (f : ENoExecEvent * option GoError → SP A) first e :
  sameStatus saved x → (∀ e', finished (f (e', None))) → (∀ e' err, ekey e' = ekey x → tidy x (f (e', Some err))) →
  ekey e = ekey x → tidy x (pbind f (attempt first saved e)).
Proof.
  intros Hs Hnone Hsome He.
  assert (Hupd : ∀ e0, ekey e0 = ekey x →
    tidy x (Do (UpdateStatus (with_Status saved e0)) (λ u, f (with_Status saved e0, u)))).
  { intros e0 He0. split; [by split|]. intros [err|] _; (split; [|by intros ?]);
      [by apply Hsome|by apply finished_tidy, Hnone]. }
  destruct first; [by apply Hupd|]. split; [exact He|].
  intros [e0|err] Hg; (split; [|by intros []]); [by apply Hupd, Hg|by apply Hsome].
Qed.

Lemma updateStatus_tidy x saved {A} (f : ENoExecEvent * option GoError → SP A) steps first e :
  sameStatus saved x → (∀ e', finished (f (e', None))) → (∀ e' err, ekey e' = ekey x → tidy x (f (e', Some err))) →
  ekey e = ekey x → tidy x (pbind f (updateStatus steps first saved e)).
Proof.
  intros Hs Hnone Hsome. revert first e. induction steps as [|steps IH]; intros first e He; cbn [updateStatus];
    apply tidy_assoc, attempt_tidy; [done|exact Hnone| |done|done|exact Hnone| |done];
    intros e' err He'; cbn [fst snd]; [by apply Hsome|].
  destruct (isConflict err); [by apply IH|by apply Hsome].
Qed.

Lemma processEvent_unnamed hasLogger ns node ev o p :
  unnamed (mkStorer ns node ev o p) (processEvent hasLogger ns node ev).
Proof.
  unfold processEvent. destruct hasLogger; [|done]. cbn [negb]. prog_unfold. intros uuid. cbn [pbind].
  split; [done|]. intros [err|] _; (split; [|by intros []]); [done|]. cbn [pbind]. split; [done|].
  intros [e0|err] He0; (split; [|by intros []]); [|done]. cbn [pbind].
  apply updateStatus_tidy; [done|done| |by apply He0]. intros e' err He'. cbn [fst snd pbind].
  split; [done|]. intros t _. by split.
Qed.

(** ** The invariant of the server *)

(** There is nothing to report of [x], or it is reported: its pod is gone, is another
    one, lost its node, or carries the label. *)
Definition told (x : ENoExecEvent) (m : Moment) : Prop :=
  match mo_Pods m !! ((en_PodNamespace x, en_PodName x) : Key) with
  | None => True
  | Some p => ps_NodeName (p_Spec p) ≠ en_NodeName x ∨ mo_Nodes m !! en_NodeName x = None
      ∨ mlookup (om_Labels (p_Meta p)) utils.ExecFormatErrorLabelKey = Some "true"
  end.

(** A copy of the event [k]: without a status, or with the one that was meant. *)
Definition copy_ok (names : gmap Key ENoExecEvent) (k : Key) (e : ENoExecEvent) : Prop :=
  ekey e = k ∧ ∃ y, names !! k = Some y ∧ (sameStatus e y ∨ en_PodName e = "").

Definition fate_ok (names : gmap Key ENoExecEvent) (k : Key) (f : Fate) : Prop :=
  match f with
  | ByHandler ms => k.1 = operatorNamespace ∧ ∃ y m, names !! k = Some y ∧ m ∈ ms ∧ told y m
  | ByOperator labels => k.1 = operatorNamespace ∧ is_Some (mlookup labels ErrorLabel)
  | ByDaemon => True
  end.

Definition complete (v : Srv) (k : Key) : Prop :=
  ∃ x y, sv_Events v !! k = Some x ∧ sv_Named v !! k = Some y ∧ sameStatus x y.

Definition accounted (v : Srv) (k : Key) : Prop :=
  sv_Events v !! k = None ∧ ∃ f, sv_Gone v !! k = Some f ∧ f ≠ ByDaemon.

Record srv_ok (v : Srv) : Prop := mkSrvOk {
  so_events k x : sv_Events v !! k = Some x → copy_ok (sv_Named v) k x;
  so_named k y : sv_Named v !! k = Some y → ekey y = k;
  so_pods : keyed_pods (sv_Now v);
  so_gone k f : sv_Gone v !! k = Some f → fate_ok (sv_Named v) k f;
  so_published k : k ∈ sv_Published v → complete v k ∨ accounted v k;
  so_known k : k ∈ sv_Published v → is_Some (sv_Named v !! k);
}.

(** What the requests leave: names are only added, and a change is announced. *)
Record evolves (v v' : Srv) : Prop := mkEvolves {
  ev_named : sv_Named v ⊆ sv_Named v';
  ev_watch : sv_Watch v ⊆ sv_Watch v';
  ev_events k : k ∉ sv_Watch v' → sv_Events v' !! k = sv_Events v !! k;
}.

Lemma evolves_refl v : evolves v v.
Proof. by constructor. Qed.

Lemma copy_ok_mono n n' k e : n ⊆ n' → copy_ok n k e → copy_ok n' k e.
Proof. intros Hs [He (y & Hy & Hc)]. split; [done|]. exists y. split; [by eapply lookup_weaken|done]. Qed.

Lemma fate_ok_mono n n' k f : n ⊆ n' → fate_ok n k f → fate_ok n' k f.
Proof. intros Hs. destruct f; [|done..]. intros (Hk & y & m & Hy & Hm). split; [done|]. exists y, m. by split; [eapply lookup_weaken|]. Qed.

Lemma change_evolves k f v : evolves v (change_event k f v).
Proof.
  unfold change_event, put_event. destruct (sv_Events v !! k); [|apply evolves_refl]. case_decide; [apply evolves_refl|].
  constructor; cbn; [done|set_solver|]. intros k' Hk'. apply lookup_insert_ne. set_solver.
Qed.

Lemma remove_evolves k f v : evolves v (remove_event k f v).
Proof. constructor; cbn; [done|set_solver|]. intros k' Hk'. apply lookup_delete_ne. set_solver. Qed.

(** A change that keeps the copy and its status. *)
Lemma change_ok k f v :
  srv_ok v →
  (∀ x, copy_ok (sv_Named v) k x → copy_ok (sv_Named v) k (f x)) →
  (∀ x y, sv_Named v !! k = Some y → sameStatus x y → sameStatus (f x) y) →
  srv_ok (change_event k f v).
Proof.
  intros [H1 H2 H3 H4 H5 H6] Hc Hs. unfold change_event, put_event. destruct (sv_Events v !! k) as [x|] eqn:Hx; [|done].
  case_decide; [done|]. constructor; cbn; try done.
  - intros k' x'. destruct (decide (k' = k)) as [->|?]; [rewrite lookup_insert_eq; intros [= <-]; eauto|].
    rewrite lookup_insert_ne by done. apply H1.
  - intros k' Hk'. unfold complete, accounted. cbn. destruct (decide (k' = k)) as [->|?].
    + rewrite lookup_insert_eq. destruct (H5 _ Hk') as [(x1 & y & Hx1 & Hy & Hss)|[Hn _]]; [|congruence].
      left. assert (x1 = x) as -> by congruence. eauto 8.
    + rewrite lookup_insert_ne by done. by apply H5.
Qed.

Lemma remove_ok k f v :
  srv_ok v → fate_ok (sv_Named v) k f → (f = ByDaemon → k ∉ sv_Published v) → srv_ok (remove_event k f v).
Proof.
  intros [H1 H2 H3 H4 H5 H6] Hf Hd. constructor; cbn; try done.
  - intros k' x [_ Hx]%lookup_delete_Some. eauto.
  - intros k' f'. destruct (decide (k' = k)) as [->|?]; [rewrite lookup_insert_eq; by intros [= <-]|].
    rewrite lookup_insert_ne by done. apply H4.
  - intros k' Hk'. unfold complete, accounted. cbn. destruct (decide (k' = k)) as [->|?].
    + right. rewrite lookup_delete_eq, lookup_insert_eq. split; [done|]. exists f. split; [done|]. naive_solver.
    + rewrite lookup_delete_ne, lookup_insert_ne by done. by apply H5.
Qed.

Lemma change_lookup k f v x :
  sv_Events v !! k = Some x → sv_Events (change_event k f v) !! k = Some (f x).
Proof.
  intros Hx. unfold change_event, put_event. rewrite Hx. case_decide as Hd; [by rewrite Hd in Hx|].
  cbn. by rewrite lookup_insert_eq.
Qed.

Lemma change_rest k f v :
  sv_Named (change_event k f v) = sv_Named v ∧ sv_Published (change_event k f v) = sv_Published v
  ∧ sv_Now (change_event k f v) = sv_Now v.
Proof. unfold change_event, put_event. destruct (_ !! k); [|done]. by case_decide. Qed.

Lemma create_ok k e v :
  srv_ok v → ekey e = k → sv_Events v !! k = None → is_Some (sv_Named v !! k) → k ∉ sv_Published v →
  srv_ok (put_event k (without_Status e) v) ∧ evolves v (put_event k (without_Status e) v).
Proof.
  intros [H1 H2 H3 H4 H5 H6] He Hn [y Hy] Hp. unfold put_event. rewrite decide_False by (rewrite Hn; done).
  split; constructor; cbn; try done; [|..|set_solver|].
  - intros k' x'. destruct (decide (k' = k)) as [->|?]; [rewrite lookup_insert_eq; intros [= <-]|].
    + split; [done|]. exists y. by auto.
    + rewrite lookup_insert_ne by done. apply H1.
  - intros k' Hk'. unfold complete, accounted. cbn. rewrite lookup_insert_ne by (by intros <-). by apply H5.
  - intros k' Hk'. apply lookup_insert_ne. set_solver.
Qed.

(** A request of the handler. *)
Lemma hserve_ok k cached seen v {T} (c : HCall T) t v' :
  srv_ok v → concerns k T c → (deletes_event T c → fate_ok (sv_Named v) k (ByHandler seen)) →
  hserve cached seen v c t v' → srv_ok v' ∧ evolves v v'.
Proof.
  intros Hv Hc Hf. pose proof (evolves_refl v) as Hr. destruct c; cbn.
  - by intros [-> _].
  - intros (applied & _ & ->). destruct applied; [|done]. split; [|apply change_evolves].
    apply change_ok; [done| |done]. intros x [Hx Hy]. by split.
  - intros (applied & _ & ->). destruct applied; [|done]. split; [|apply remove_evolves]. cbn in Hc. subst k.
    by apply remove_ok; [|apply Hf|].
  - by intros [-> _].
  - by intros [-> _].
  - by intros ->.
  - intros (applied & _ & ->). destruct applied; [|done]. split; [|by constructor].
    destruct Hv as [H1 H2 H3 H4 H5 H6]. constructor; try done. intros k' p'. cbn.
    rewrite lookup_insert_Some. intros [[<- <-]|[_ ?]]; eauto.
Qed.

(** A request of a storage worker that has not been told that its status is stored. *)
Lemma sserve_ok st x v {T} (c : SCall T) t v' :
  srv_ok v → about x c → sv_Named v !! ekey x = Some x → ekey x ∉ sv_Published v → sserve st v c t v' →
  srv_ok v' ∧ evolves v v' ∧ returns x c t
  ∧ (∀ k, k ∈ sv_Published v' → k ∈ sv_Published v ∨ k = ekey x ∧ confirms c t).
Proof.
  intros Hv Hc Hx Hp. pose proof (evolves_refl v) as Hr. destruct c; cbn in *.
  - done.
  - intros ->. by split_and!; auto.
  - intros [(err & -> & ->)|(Hn & -> & Ha)]; [by split_and!; auto|]. rewrite Hc in *.
    destruct (create_ok (ekey x) e v Hv Hc Hn) as [H1 H2]; [by eexists|done|]. split; [done|]. split; [done|].
    split; [by intros e0 ->%Ha|]. intros k Hk. left. unfold put_event in Hk. by case_decide.
  - intros [-> Hrd]. split; [done|]. split; [done|]. split; [|auto]. intros e ->. cbn in Hrd.
    rewrite <-Hc. by apply (so_events v Hv).
  - destruct Hc as [Hk Hs]. rewrite Hk. intros (applied & Hw & ->). set (v1 := if applied then _ else v).
    destruct (change_rest (ekey x) (with_Status e) v) as (Hr1 & Hr2 & _).
    assert (Hn1 : sv_Named v1 = sv_Named v ∧ sv_Published v1 = sv_Published v) by (by destruct applied).
    destruct Hn1 as [Hn1 Hp1].
    assert (Hv1 : srv_ok v1 ∧ evolves v v1).
    { destruct applied; [|done]. split; [|apply change_evolves].
      apply change_ok; [done|intros x0 [Hx0 _]; split; [done|eauto]|]. intros x0 y Hy _. by simplify_eq. }
    destruct Hv1 as [Hv1 He1]. destruct t as [err|].
    { split; [done|]. split; [done|]. split; [done|]. rewrite Hp1. auto. }
    split; [|split; [by destruct He1|split; [done|cbn; rewrite Hp1; set_solver]]].
    destruct Hv1 as [H1 H2 H3 H4 H5 H6]. constructor; try done; intros k; cbn; rewrite elem_of_union, elem_of_singleton;
      intros [->|Hk']; [|by apply H5|rewrite Hn1; by eexists|by apply H6]. left. destruct applied; [|by destruct Hw as (? & ? & _)].
    destruct Hw as [[x0 Hx0] _]. unfold complete. cbn. fold v1. rewrite Hn1. exists (with_Status e x0), x.
    split; [by apply change_lookup|done].
  - rewrite Hc. intros (applied & _ & ->). destruct applied; [|by split_and!; auto].
    split; [by apply remove_ok|]. split; [apply remove_evolves|by split; auto].
Qed.

(** ** The invariant of a call of the handler *)

(** An answer agrees with the cluster at the moment [m]. *)
Definition true_at (names : gmap Key ENoExecEvent) (k : Key) (ev : Ev HCall) (m : Moment) : Prop :=
  match ev with
  | mkEv c a =>
      match c in HCall T return T → Prop with
      | GetEvent => λ a, ∀ e, a = Ok e → copy_ok names k e
      | GetPod ns n => λ a, read_ok (mo_Pods m !! ((ns, n) : Key)) a
      | GetNode n => λ a, read_ok (mo_Nodes m !! n) a
      | UpdatePod p => λ a, match a with
                            | None => mo_Pods m !! key_of p = Some p
                            | Some err => isNotFound err = true → mo_Pods m !! key_of p = None
                            end
      | _ => λ _, True
      end a
  end.

Definition truthful (names : gmap Key ENoExecEvent) (k : Key) (tr : list (Ev HCall)) (ms : list Moment) : Prop :=
  Forall (λ ev, ∃ m, m ∈ ms ∧ keyed_pods m ∧ true_at names k ev m) tr.

Record worker_ok (names : gmap Key ENoExecEvent) (k : Key) (w : Worker) : Prop := mkWorkerOk {
  wo_true : truthful names k (wk_Trace w) (wk_Moments w);
  wo_concerns : obeys (reads k) (concerns k) (λ _, True) (wk_Rest w);
  wo_kept : wp Anything (wk_Rest w) (λ _ tr, guarded deletes_event (reported_or_moot operatorNamespace) tr) (wk_Trace w);
}.

Lemma true_at_mono n n' k ev m : n ⊆ n' → true_at n k ev m → true_at n' k ev m.
Proof. intros Hn. destruct ev as [T c a]. destruct c; try done. cbn. intros He e ->. by eapply copy_ok_mono, He. Qed.

Lemma worker_ok_mono n n' k w : n ⊆ n' → worker_ok n k w → worker_ok n' k w.
Proof.
  intros Hn [H1 H2 H3]. constructor; [|done..]. eapply Forall_impl; [exact H1|].
  intros ev (m & Hm & Hk & Ht). exists m. split; [done|]. split; [done|]. by eapply true_at_mono.
Qed.

Lemma truthful_in n k tr ms ev :
  truthful n k tr ms → ev ∈ tr → ∃ m, m ∈ ms ∧ keyed_pods m ∧ true_at n k ev m.
Proof. intros Ht Hin. unfold truthful in Ht. rewrite Forall_forall in Ht. by apply Ht. Qed.

(** What the handler goes by when it deletes was so at some moment. *)
Lemma nothing_left_told n k e tr ms : truthful n k tr ms → nothing_left e tr → ∃ m, m ∈ ms ∧ told e m.
Proof.
  intros Ht [(err & Hnf & Hin)|[(pod & Hin & Hnode)|[(err & Hnf & Hin)|(pod & o & Hin & Ho & Hup)]]].
  - destruct (truthful_in _ _ _ _ _ Ht Hin) as (m & Hm & _ & Hp). exists m. split; [done|].
    unfold told. by rewrite (Hp Hnf).
  - destruct (truthful_in _ _ _ _ _ Ht Hin) as (m & Hm & _ & Hp). exists m. split; [done|].
    unfold told. cbn in Hp. rewrite Hp. by left.
  - destruct (truthful_in _ _ _ _ _ Ht Hin) as (m & Hm & _ & Hp). exists m. split; [done|].
    unfold told. case_match; [|done]. right; left. by apply Hp.
  - destruct (truthful_in _ _ _ _ _ Ht Hin) as (m0 & _ & Hk0 & Hp0). cbn in Hp0. apply Hk0 in Hp0.
    destruct (truthful_in _ _ _ _ _ Ht Hup) as (m & Hm & _ & Hp). exists m. split; [done|]. cbn [true_at] in Hp.
    assert (key_of (labelled pod) = key_of pod) as Hkey by done. rewrite Hkey, Hp0 in Hp. unfold told.
    destruct o as [err|]; cbn in Ho; [rewrite (Hp ltac:(by destruct (isNotFound err))); done|].
    rewrite Hp.
    right; right. apply mlookup_mensure_eq.
Qed.

Lemma delete_justified n k w {T} (c : HCall T) kont :
  worker_ok n k w → wk_Rest w = Do c kont → deletes_event T c → fate_ok n k (ByHandler (wk_Moments w)).
Proof.
  intros [Ht _ Hk] Hw Hd. rewrite Hw in Hk. cbn in Hk.
  assert (Hr : reported_or_moot operatorNamespace (wk_Trace w)).
  { assert (∃ t : T, True) as [t _] by (destruct c; try done; by exists None). specialize (Hk t I).
    apply wp_completes in Hk as (a & new & Hg). 2: { intros T' c'. destruct c'; by eexists (Err (errOther "")) || exists None || exists tt. }
    rewrite <-app_assoc in Hg. by apply (Hg (wk_Trace w) (mkEv c t) new). }
  destruct Hr as (e & He & Hns & Hpod & Hn).
  destruct (truthful_in _ _ _ _ _ Ht He) as (m0 & _ & _ & Hc). destruct (Hc e eq_refl) as [<- (y & Hy & [Hs|?])]; [|done].
  split; [done|].
  destruct (nothing_left_told _ _ _ _ _ Ht Hn) as (m & Hm & Htold). exists y, m. split; [done|]. split; [done|].
  destruct Hs as (Hs1 & Hs2 & Hs3 & _). unfold told in *. by rewrite <-Hs1, <-Hs2, <-Hs3.
Qed.

Lemma hserve_true k cached seen v {T} (c : HCall T) t v' :
  srv_ok v → (∀ e, cached = Some e → copy_ok (sv_Named v) k e) → hserve cached seen v c t v' →
  true_at (sv_Named v) k (mkEv c t) (sv_Now v') ∧ reads k T c t.
Proof.
  intros Hv Hc. destruct c; cbn; try done.
  - intros [-> Hr]. split; intros e ->; cbn in Hr; by apply Hc.
  - by intros [-> ?].
  - by intros [-> ?].
  - intros (applied & Hw & ->). split; [|done]. destruct applied.
    + destruct Hw as [_ Hw]. cbn. rewrite lookup_insert_eq. destruct t as [err|]; [|done]. by rewrite (Hw err).
    + destruct Hw as (err & -> & Hw). intros Hnf. by apply eq_None_not_Some, Hw.
Qed.

Lemma worker_moves_ok k cached w v w' v' :
  srv_ok v → (∀ e, cached = Some e → copy_ok (sv_Named v) k e) → worker_ok (sv_Named v) k w →
  worker_moves cached w v w' v' → srv_ok v' ∧ evolves v v' ∧ worker_ok (sv_Named v') k w'.
Proof.
  intros Hv Hc Hw. unfold worker_moves. destruct (wk_Rest w) as [r|T c kont] eqn:Hrest; [done|]. intros (t & Hs & ->).
  pose proof Hw as [Ht Ho Hk]. rewrite Hrest in Ho, Hk. destruct Ho as [Hco Ho].
  destruct (hserve_ok k cached _ v c t v' Hv Hco (delete_justified _ _ _ _ _ Hw Hrest) Hs) as [Hv' He].
  destruct (hserve_true k cached _ v c t v' Hv Hc Hs) as [Htr Hre]. split; [done|]. split; [done|].
  constructor; cbn [wk_Trace wk_Moments wk_Rest]; [|by apply Ho|by apply Hk].
  apply Forall_app. split; [|apply Forall_singleton].
  - eapply Forall_impl; [exact Ht|]. intros ev (m & Hm & Hkp & Hta). exists m. split; [apply elem_of_app; by left|].
    split; [done|]. by eapply true_at_mono, Hta; apply He.
  - exists (sv_Now v'). split; [apply elem_of_app; right; by left|]. split; [apply Hv'|].
    by eapply true_at_mono, Htr; apply He.
Qed.

(** A call that is going to settle its event does so, or has done so, after its next
    request, if it reads what is stored. *)
Lemma worker_moves_settles k w v w' v' x :
  obeys (reads k) (concerns k) (λ _, True) (wk_Rest w) → settles again (wk_Rest w) →
  reportable x → sv_Events v !! k = Some x → sv_Events v' !! k = Some x →
  worker_moves (Some x) w v w' v' → settles again (wk_Rest w').
Proof.
  intros Hco Hse Hx Hv Hv'. unfold worker_moves. destruct (wk_Rest w) as [r|T c kont]; [done|]. intros (t & Hs & ->).
  destruct Hco as [Hco _]. cbn in Hse.
  assert (Hf : finds c t).
  { destruct c; try done. destruct Hs as [_ Hs]. destruct t as [e|err]; cbn in *; [by simplify_eq|].
    by destruct (isNotFound err); [specialize (Hs eq_refl)|]. }
  destruct (Hse t Hf) as [Hd|]; [|done]. exfalso. destruct c; try done. cbn in Hco, Hd. subst k.
  destruct Hs as (applied & Hw & ->). destruct applied.
  - cbn in Hv'. by rewrite lookup_delete_eq in Hv'.
  - destruct Hw as (err & -> & Hw). cbn in Hd. destruct (isNotFound err); [|done]. apply Hw; [done|]. by eexists.
Qed.

(** ** The invariant of a storage worker *)
Definition storer_ok (v : Srv) (st : Storer) : Prop :=
  match sr_Event st with
  | None => unnamed st (sr_Rest st)
  | Some x => sv_Named v !! ekey x = Some x ∧ tidy x (sr_Rest st) ∧ (ekey x ∈ sv_Published v → finished (sr_Rest st))
  end.

(** It names its event once, with a new name. *)
Definition renames (v : Srv) (st st' : Storer) : Prop :=
  sr_Event st' = sr_Event st ∨ ∃ x, sr_Event st' = Some x ∧ sv_Named v !! ekey x = None.

Lemma storer_moves_ok v st st' v' :
  srv_ok v → storer_ok v st → storer_moves st v st' v' →
  srv_ok v' ∧ evolves v v' ∧ storer_ok v' st' ∧ renames v st st'
  ∧ ∀ k, k ∈ sv_Published v' → k ∈ sv_Published v ∨ ∃ x, sr_Event st = Some x ∧ k = ekey x.
Proof.
  intros Hv. unfold storer_ok, storer_moves. destruct (sr_Event st) as [x|] eqn:Hx;
    destruct (sr_Rest st) as [r|T c kont]; try done.
  - intros (Hn & [Hc Hk] & Hp) (t & Hs & ->).
    assert (Hnp : ekey x ∉ sv_Published v) by (intros Hin; by destruct (Hp Hin)).
    destruct (sserve_ok st x v c t v' Hv Hc Hn Hnp Hs) as (Hv' & He & Hr & Hp'). destruct (Hk t Hr) as [Ht Hfin].
    assert (Hnamed : named st c t = Some x) by (by destruct c). cbn [sr_Event sr_Rest]. rewrite Hnamed.
    split; [done|]. split; [done|]. split; [|split].
    + split; [by eapply lookup_weaken, He|]. split; [done|]. intros [?|[_ ?]]%Hp'; [done|by apply Hfin].
    + by left.
    + intros k [?|[-> _]]%Hp'; eauto.
  - cbn [unnamed]. intros Hu (t & Hs & ->). destruct c; try done. destruct Hs as [Hfresh ->]. cbn.
    destruct Hv as [H1 H2 H3 H4 H5 H6]. set (x := name_event st t) in *.
    assert (Hsub : sv_Named v ⊆ <[ekey x := x]> (sv_Named v)) by (by apply insert_subseteq).
    split; [|split; [by constructor|split; [|split; [|by auto]]]].
    + constructor; cbn; [|intros k y; rewrite lookup_insert_Some; intros [[<- <-]|[_ ?]]; eauto|done| | |].
      * intros k y Hy. by eapply copy_ok_mono, H1.
      * intros k f Hf. by eapply fate_ok_mono, H4.
      * intros k [(y & z & ? & ? & ?)|?]%H5; [left|by right]. exists y, z. split; [done|].
        split; [by eapply lookup_weaken|done].
      * intros k [y Hy]%H6. exists y. by eapply lookup_weaken.
    + rewrite lookup_insert_eq. split; [done|]. split; [apply Hu|]. intros [y Hy]%H6. congruence.
    + right. by exists x.
Qed.

(** ** The invariant of the system *)

(** A call that is going to settle the event [k]. *)
Definition attended (workers : gmap Key Worker) (k : Key) : Prop :=
  ∃ w, workers !! k = Some w ∧ settles again (wk_Rest w).

Record flow_inv (s : Flow) : Prop := mkFlowInv {
  fi_srv : srv_ok (fl_Srv s);
  fi_cache k x : fl_Cache s !! k = Some x → copy_ok (sv_Named (fl_Srv s)) k x;
  fi_synced (k : Key) : k.1 = operatorNamespace → k ∉ sv_Watch (fl_Srv s) → fl_Cache s !! k = sv_Events (fl_Srv s) !! k;
  fi_pending k x : sv_Events (fl_Srv s) !! k = Some x → reportable x →
    k ∈ sv_Watch (fl_Srv s) ∨ k ∈ fl_Queue s ∨ attended (fl_Workers s) k;
  fi_worker k w : fl_Workers s !! k = Some w → worker_ok (sv_Named (fl_Srv s)) k w;
  fi_storer i st : fl_Storers s !! i = Some st → storer_ok (fl_Srv s) st;
  fi_apart i j st st' x x' : i ≠ j → fl_Storers s !! i = Some st → fl_Storers s !! j = Some st' →
    sr_Event st = Some x → sr_Event st' = Some x' → ekey x ≠ ekey x';
  fi_listed k l : fl_Listed s !! k = Some l → fate_ok ∅ k (ByOperator l);
  fi_own (k : Key) : k ∈ fl_Queue s ∨ is_Some (fl_Workers s !! k) ∨ is_Some (fl_Cache s !! k) → k.1 = operatorNamespace;
}.

Lemma flow_inv_start m : keyed_pods m → flow_inv (flow_start m).
Proof.
  intros Hm. constructor; cbn; try done; try by constructor.
  intros k Hk. rewrite !lookup_empty, elem_of_empty in Hk. by destruct Hk as [[]|[[]|[]]].
Qed.

(** Another writer leaves a storage worker alone. *)
Lemma storer_ok_evolves v v' st :
  evolves v v' → (∀ x, sr_Event st = Some x → ekey x ∈ sv_Published v' → ekey x ∈ sv_Published v) →
  storer_ok v st → storer_ok v' st.
Proof.
  intros He Hp. unfold storer_ok. destruct (sr_Event st) as [x|]; [|done]. intros (Hn & Ht & Hf).
  split; [by eapply lookup_weaken, He|]. split; [done|]. intros Hin. by apply Hf, Hp.
Qed.

(** The server moves on: what is left to show is about the calls and the daemons. *)
Lemma flow_inv_evolves s v' workers storers :
  flow_inv s → srv_ok v' → evolves (fl_Srv s) v' →
  (∀ k w, workers !! k = Some w → worker_ok (sv_Named v') k w) →
  (∀ k x, k ∉ sv_Watch v' → sv_Events v' !! k = Some x → reportable x →
     attended (fl_Workers s) k → attended workers k) →
  (∀ i st, storers !! i = Some st → storer_ok v' st) →
  (∀ i j st st' x x', i ≠ j → storers !! i = Some st → storers !! j = Some st' →
     sr_Event st = Some x → sr_Event st' = Some x' → ekey x ≠ ekey x') →
  (∀ k, is_Some (workers !! k) → is_Some (fl_Workers s !! k)) →
  flow_inv (mkFlow v' (fl_Cache s) (fl_Queue s) workers storers (fl_Listed s)).
Proof.
  intros [H1 H2 H3 H4 H5 H6 H7 H8 H9] Hv [Hn Hw He] Hwk Hat Hst Hap Hdom. constructor; cbn; try done.
  - intros k x Hx. by eapply copy_ok_mono, H2.
  - intros k Hns Hk. rewrite He by done. apply H3; [done|]. set_solver.
  - intros k x Hx Hr. destruct (decide (k ∈ sv_Watch v')) as [|Hk]; [by left|]. right.
    assert (Hx0 : sv_Events (fl_Srv s) !! k = Some x) by (by rewrite <-He).
    destruct (H4 _ _ Hx0 Hr) as [?|[?|?]]; [set_solver|by left|right; eauto].
  - intros k [?|[?|?]]; apply H9; auto.
Qed.

Lemma flow_store_inv s i st st' v' :
  flow_inv s → fl_Storers s !! i = Some st → storer_moves st (fl_Srv s) st' v' →
  flow_inv (mkFlow v' (fl_Cache s) (fl_Queue s) (fl_Workers s) (<[i := st']> (fl_Storers s)) (fl_Listed s)).
Proof.
  intros Hs Hi Hm. pose proof Hs as [H1 _ _ _ H5 H6 H7 _].
  destruct (storer_moves_ok _ _ _ _ H1 (H6 _ _ Hi) Hm) as (Hv' & He & Hst' & Hren & Hp).
  assert (Hfar : ∀ j st2 x x2, j ≠ i → fl_Storers s !! j = Some st2 → sr_Event st2 = Some x2 →
    sr_Event st' = Some x → ekey x2 ≠ ekey x).
  { intros j st2 x x2 Hne Hj Hx2 Hx. destruct Hren as [Heq|(x0 & Hx0 & Hfresh)].
    - rewrite Heq in Hx. by apply (H7 j i st2 st).
    - assert (x0 = x) as -> by congruence. intros Hk. specialize (H6 _ _ Hj). unfold storer_ok in H6. rewrite Hx2 in H6.
      rewrite Hk in H6. destruct H6 as [? _]. congruence. }
  apply flow_inv_evolves; try done.
  - intros k w Hw. eapply worker_ok_mono, H5, Hw. apply He.
  - intros j st2. rewrite lookup_insert_Some. intros [[<- <-]|[Hne Hj]]; [done|].
    eapply storer_ok_evolves; [exact He| |by apply (H6 j)]. intros x2 Hx2 [?|(x & Hx & Hk)]%Hp; [done|].
    exfalso. by apply (H7 j i st2 st x2 x).
  - intros j1 j2 st1 st2 x1 x2 Hne. rewrite !lookup_insert_Some.
    intros [[<- <-]|[Hn1 Hj1]] [[? <-]|[Hn2 Hj2]] Hx1 Hx2; subst; try done;
      [by apply not_eq_sym, (Hfar j2 st2)|by apply (Hfar j1 st1)|by apply (H7 j1 j2 st1 st2)].
Qed.

Lemma worker_moves_published cached w v w' v' :
  worker_moves cached w v w' v' → sv_Published v' = sv_Published v.
Proof.
  unfold worker_moves. destruct (wk_Rest w) as [r|T c kont]; [done|]. intros (t & Hs & _).
  destruct c; cbn in Hs; [by destruct Hs as [-> _]| | |by destruct Hs as [-> _]|by destruct Hs as [-> _]|by rewrite Hs|];
    destruct Hs as (applied & _ & ->); destruct applied; try done. apply change_rest.
Qed.

Lemma flow_request_inv s k w w' v' :
  flow_inv s → fl_Workers s !! k = Some w → worker_moves (fl_Cache s !! k) w (fl_Srv s) w' v' →
  flow_inv (mkFlow v' (fl_Cache s) (fl_Queue s) (<[k := w']> (fl_Workers s)) (fl_Storers s) (fl_Listed s)).
Proof.
  intros Hs Hk Hm. pose proof Hs as [H1 H2 H3 _ H5 H6 H7 _].
  destruct (worker_moves_ok k _ _ _ _ _ H1 (H2 k) (H5 _ _ Hk) Hm) as (Hv' & He & Hw').
  apply flow_inv_evolves; try done.
  - intros k' w2. rewrite lookup_insert_Some. intros [[<- <-]|[_ Hw2]]; [done|]. eapply worker_ok_mono, H5, Hw2. apply He.
  - intros k' x Hwatch Hx Hr (w2 & Hw2 & Hse). unfold attended. destruct (decide (k' = k)) as [->|Hne].
    2: { rewrite lookup_insert_ne by done. eauto. }
    rewrite lookup_insert_eq. exists w'. split; [done|]. assert (w2 = w) as -> by congruence.
    assert (Hx0 : sv_Events (fl_Srv s) !! k = Some x) by (by rewrite <-(ev_events _ _ He)).
    assert (Hns : k.1 = operatorNamespace) by (apply (fi_own _ Hs); right; left; by eexists).
    rewrite (H3 k Hns), Hx0 in Hm by (intros Hin; by apply Hwatch, He).
    exact (worker_moves_settles k w _ _ _ x (wo_concerns _ _ _ (H5 _ _ Hk)) Hse Hr Hx0 Hx Hm).
  - intros i st Hi. eapply storer_ok_evolves; [exact He| |by apply (H6 i)].
    by rewrite (worker_moves_published _ _ _ _ _ Hm).
  - intros k' Hk'%lookup_insert_is_Some'. destruct Hk' as [<-|?]; [by eexists|done].
Qed.

Lemma flow_deliver_inv s (k : Key) :
  let v := fl_Srv s in flow_inv s → k.1 = operatorNamespace →
  flow_inv (mkFlow
    (mkSrv (sv_Events v) (sv_Watch v ∖ {[k]}) (sv_Now v) (sv_Named v) (sv_Published v) (sv_Gone v))
    (match sv_Events v !! k with Some x => <[k := x]> (fl_Cache s) | None => base.delete k (fl_Cache s) end)
    ({[k]} ∪ fl_Queue s) (fl_Workers s) (fl_Storers s) (fl_Listed s)).
Proof.
  intros v [H1 H2 H3 H4 H5 H6 H7 H8 H9] Hns. fold v in H1, H2, H3, H4, H5, H6.
  set (cache := match sv_Events v !! k with Some x => _ | None => _ end).
  assert (Hne : ∀ k', k' ≠ k → cache !! k' = fl_Cache s !! k').
  { intros k' ?. unfold cache. destruct (sv_Events v !! k); by rewrite ?lookup_insert_ne, ?lookup_delete_ne. }
  assert (Heq : cache !! k = sv_Events v !! k).
  { unfold cache. destruct (sv_Events v !! k); by rewrite ?lookup_insert_eq, ?lookup_delete_eq. }
  clearbody cache. constructor; cbn; try done.
  - destruct H1. by constructor.
  - intros k' x. destruct (decide (k' = k)) as [->|?]; [rewrite Heq; apply H1|rewrite Hne by done; apply H2].
  - intros k' Hns' Hk'. destruct (decide (k' = k)) as [->|?]; [done|]. rewrite Hne by done. apply H3; [done|]. set_solver.
  - intros k' x Hx Hr. destruct (decide (k' = k)) as [->|?]; [right; left; set_solver|].
    destruct (H4 _ _ Hx Hr) as [?|[?|?]]; [left; set_solver|right; left; set_solver|by right; right].
  - intros k' Hk'. destruct (decide (k' = k)) as [->|?]; [done|]. apply H9. rewrite Hne in Hk' by done. set_solver.
Qed.

(** What is outside the namespace does not concern the handler. *)
Lemma flow_foreign_inv s (k : Key) :
  let v := fl_Srv s in flow_inv s → k.1 ≠ operatorNamespace →
  flow_inv (mkFlow
    (mkSrv (sv_Events v) (sv_Watch v ∖ {[k]}) (sv_Now v) (sv_Named v) (sv_Published v) (sv_Gone v))
    (fl_Cache s) (fl_Queue s) (fl_Workers s) (fl_Storers s) (fl_Listed s)).
Proof.
  intros v [H1 H2 H3 H4 H5 H6 H7 H8 H9] Hns. fold v in H1, H2, H3, H4, H5, H6. constructor; cbn; try done.
  - destruct H1. by constructor.
  - intros k' Hns' Hk'. apply H3; [done|]. set_solver.
  - intros k' x Hx Hr. destruct (H4 _ _ Hx Hr) as [Hin|?]; [left|by right]. destruct (decide (k' = k)) as [->|?]; [|set_solver].
    destruct (so_events _ H1 _ _ Hx) as [Hk _]. destruct Hns. rewrite <-Hk. apply Hr.
Qed.

Lemma reconcile_ok n k : worker_ok n k (mkWorker [] [] ReconcileEvent).
Proof. constructor; cbn [wk_Trace wk_Moments wk_Rest]; [constructor|apply reconcile_concerns|apply ReconcileEvent_kept]. Qed.

Lemma flow_take_inv s k :
  flow_inv s → k ∈ fl_Queue s →
  flow_inv (mkFlow (fl_Srv s) (fl_Cache s) (fl_Queue s ∖ {[k]})
    (<[k := mkWorker [] [] ReconcileEvent]> (fl_Workers s)) (fl_Storers s) (fl_Listed s)).
Proof.
  intros [H1 H2 H3 H4 H5 H6 H7 H8 H9] Hq. constructor; cbn; try done.
  - intros k' x Hx Hr. unfold attended. destruct (decide (k' = k)) as [->|Hne].
    + right; right. rewrite lookup_insert_eq. eexists. split; [done|]. apply reconcile_settles_again.
    + rewrite lookup_insert_ne by done. destruct (H4 _ _ Hx Hr) as [?|[?|?]]; [by left|right; left; set_solver|by right; right].
  - intros k' w. rewrite lookup_insert_Some. intros [[<- <-]|[_ ?]]; [apply reconcile_ok|by apply H5].
  - intros k' Hk'. apply H9. rewrite lookup_insert_is_Some' in Hk'. set_solver.
Qed.

(** A call that settles its event does not return as if nothing was left to do. *)
Lemma flow_return_inv s k w r :
  flow_inv s → fl_Workers s !! k = Some w → wk_Rest w = Return r →
  flow_inv (mkFlow (fl_Srv s) (fl_Cache s)
    (match r with Some _ => {[k]} ∪ fl_Queue s | None => fl_Queue s end)
    (base.delete k (fl_Workers s)) (fl_Storers s) (fl_Listed s)).
Proof.
  intros [H1 H2 H3 H4 H5 H6 H7 H8 H9] Hk Hr. constructor; cbn; try done.
  - intros k' x Hx Hrep. unfold attended. destruct (H4 _ _ Hx Hrep) as [?|[?|(w' & Hw' & Hse)]]; [by left|right; left|right].
    { destruct r; set_solver. }
    destruct (decide (k' = k)) as [->|?]; [left|right; rewrite lookup_delete_ne by done; eauto].
    assert (w' = w) as -> by congruence. rewrite Hr in Hse. destruct r; [set_solver|by destruct Hse].
  - intros k' w' [_ ?]%lookup_delete_Some. by apply H5.
  - intros k' Hk'. apply H9. destruct (decide (k' = k)) as [->|Hne]; [by right; left; eexists|].
    rewrite lookup_delete_ne in Hk' by done. destruct r; set_solver.
Qed.

Lemma flow_remove_inv s k labels :
  flow_inv s → fl_Listed s !! k = Some labels →
  flow_inv (mkFlow (remove_event k (ByOperator labels) (fl_Srv s)) (fl_Cache s) (fl_Queue s)
    (fl_Workers s) (fl_Storers s) (base.delete k (fl_Listed s))).
Proof.
  intros Hs Hl. pose proof Hs as [H1 H2 H3 H4 H5 H6 H7 H8].
  assert (Hi : flow_inv (mkFlow (remove_event k (ByOperator labels) (fl_Srv s)) (fl_Cache s) (fl_Queue s)
    (fl_Workers s) (fl_Storers s) (fl_Listed s))).
  { apply flow_inv_evolves; try done; [|apply remove_evolves]. apply remove_ok; [done|by apply (H8 k)|done]. }
  destruct Hi. constructor; try done. cbn in *. intros k' l [_ ?]%lookup_delete_Some. by apply (H8 k').
Qed.

Lemma handler_step_inv s s' : handler_step s s' → flow_inv s → flow_inv s'.
Proof.
  intros Hstep Hs. destruct Hstep as [s k v Hk Hns|s k v Hk Hns|s k Hq Hk|s k w w' v' Hk Hm|s k w r Hk Hr].
  - by apply flow_deliver_inv.
  - by apply flow_foreign_inv.
  - by apply flow_take_inv.
  - by apply (flow_request_inv s k w).
  - by apply (flow_return_inv s k w r).
Qed.

Lemma flow_step_inv s s' : flow_step s s' → flow_inv s → flow_inv s'.
Proof.
  intros Hstep Hs. destruct Hstep as [s i hasLogger ns node ev Hi|s i st st' v' Hi Hm|s i|s s' Hh
    |s v|s|s m Hm|s|s k labels Hl Hst].
  - destruct Hs as [H1 H2 H3 H4 H5 H6 H7 H8]. constructor; cbn; try done.
    + intros j st. rewrite lookup_insert_Some. intros [[<- <-]|[_ ?]]; [apply processEvent_unnamed|by apply (H6 j)].
    + intros j1 j2 st1 st2 x1 x2 Hne. rewrite !lookup_insert_Some.
      intros [[<- <-]|[Hn1 Hj1]] [[? <-]|[Hn2 Hj2]]; try done. by apply (H7 j1 j2 st1 st2).
  - by apply (flow_store_inv s i st).
  - destruct Hs as [H1 H2 H3 H4 H5 H6 H7 H8]. constructor; cbn; try done.
    + intros j st [_ ?]%lookup_delete_Some. by apply (H6 j).
    + intros j1 j2 st1 st2 x1 x2 Hne [_ Hj1]%lookup_delete_Some [_ Hj2]%lookup_delete_Some. by apply (H7 j1 j2 st1 st2).
  - by apply (handler_step_inv s).
  - destruct Hs as [H1 H2 H3 H4 H5 H6 H7 H8]. constructor; cbn; try done.
    + destruct H1. by constructor.
    + intros k _ Hk%not_elem_of_dom. by rewrite lookup_empty.
    + intros k x Hx _. left. apply elem_of_dom. by eexists.
    + intros k Hk. rewrite !lookup_empty, elem_of_empty in Hk. by destruct Hk as [[]|[[]|[]]].
  - destruct Hs as [H1 H2 H3 H4 H5 H6 H7 H8 H9]. constructor; cbn; try done.
    + intros k x Hx Hr. destruct (H4 _ _ Hx Hr) as [?|[?|?]]; [by left|right; left; set_solver|by right; right].
    + intros k Hk. apply H9. rewrite elem_of_union, elem_of_dom in Hk. tauto.
  - apply flow_inv_evolves; try apply Hs; [|by constructor|by auto|done]. destruct (fi_srv s Hs). by constructor.
  - destruct Hs as [H1 H2 H3 H4 H5 H6 H7 H8]. constructor; cbn; try done.
    intros k l. rewrite map_lookup_imap. destruct (sv_Events (fl_Srv s) !! k) as [e|]; cbn; [|done].
    case_bool_decide; cbn; [|done]. unfold HasErrorLabel. case_bool_decide; [|done]. by intros [= <-].
  - by apply flow_remove_inv.
Qed.

Lemma flow_reachable m s : keyed_pods m → rtc flow_step (flow_start m) s → flow_inv s.
Proof.
  intros Hm Hr. pose proof (flow_inv_start m Hm) as H0. revert H0.
  induction Hr as [|s1 s2 s3 H12 _ IH]; [done|]. intros H1. apply IH. by eapply flow_step_inv.
Qed.

(** C13: an exec format error that a daemon has published is not lost.  However the
    requests of daemons, handler calls and operator interleave, the watch lags, writes
    are refused or their answers get lost, and daemons and handler die: an event whose
    daemon was told that its status is stored keeps that status, and as long as it is
    stored it is announced, queued, or with a call that is going to delete it or to be
    repeated.  When it is gone, either the handler deleted it and, at a moment at which
    it had looked, the pod carried the label, did not exist, was another one on another
    node, or its node was gone; or the operator removed it, seeing the mark of a
    failure.  The daemon did not take it back; and an event outside the operator's
    namespace is never removed. *)
Theorem no_report_lost m s k :
  keyed_pods m → rtc flow_step (flow_start m) s → k ∈ sv_Published (fl_Srv s) →
  let v := fl_Srv s in
  ∃ y, sv_Named v !! k = Some y ∧ ekey y = k ∧
  match sv_Events v !! k with
  | Some x =>
      sameStatus x y ∧
      (reportable y → k ∈ sv_Watch v ∨ k ∈ fl_Queue s ∨ attended (fl_Workers s) k)
  | None =>
      k.1 = operatorNamespace ∧
      match sv_Gone v !! k with
      | Some (ByHandler moments) => ∃ m, m ∈ moments ∧ told y m
      | Some (ByOperator labels) => is_Some (mlookup labels ErrorLabel)
      | _ => False
      end
  end.
Proof.
  intros Hm Hr Hk v. destruct (flow_reachable m s Hm Hr) as [[H1 H2 _ H4 H5 H6] _ _ Hp _ _ _ _].
  fold v in H1, H2, H4, H5, H6, Hp.
  destruct (H6 k Hk) as [y Hy]. pose proof (H2 _ _ Hy) as Hey. exists y. split; [done|]. split; [done|].
  destruct (H5 k Hk) as [(x & y' & Hx & Hy' & Hs)|(Hn & f & Hf & Hnd)].
  - simplify_eq. rewrite Hx. split; [done|]. intros [Hns Hpod]. destruct (H1 _ _ Hx) as [Hex _].
    apply (Hp _ _ Hx). destruct Hs as (_ & Hs & _). split; [|by rewrite Hs].
    assert (ekey x = ekey y) as [= Heq _] by congruence. congruence.
  - rewrite Hn, Hf. specialize (H4 _ _ Hf). destruct f; [|done..]. destruct H4 as (Hns & y' & m' & Hy' & Hm' & Ht).
    simplify_eq. eauto.
Qed.

End flow.
