(* ===== verification/EventRuns.v ===== *)
(** * Runs of the exec format error reporting

    An API server that carries the requests of handler and daemons out, as a function
    that [EventFlow.hserve] and [EventFlow.sserve] allow.  With it runs of [EventFlow]
    are computed, and constructed: from every reachable state the queue of the handler
    drains ([flow_drains]); an event without a status whose mark is refused is left
    behind, and the operator waits for it ([stranded_event]). *)
From stdpp Require Import base gmap strings list relations.
From S2P Require Import Prelude GoStd Api Models Status Prog Operator OperatorTheorems.
From S2P Require Import EnoexecHandler Teardown TracepointUser EnoexecDaemon System EventFlow.
Import models.

(** ** The server *)
Definition gone : GoError := mkErr KNotFound "not found".
Definition timeout : GoError := errOther "timeout".

Definition found {A} (o : option A) : res A := match o with Some x => Ok x | None => Err gone end.

(** A write to an object, refused on demand. *)
Definition written {A} (refuse : bool) (o : option A) (done v : Srv) : option GoError * Srv :=
  if refuse then (Some timeout, v)
  else match o with Some _ => (None, done) | None => (Some gone, v) end.

Definition hanswer (refuse : bool) (cached : option ENoExecEvent) (seen : list Moment) (v : Srv) {T} (c : HCall T) :
    T * Srv :=
  match c in HCall T return T * Srv with
  | GetEvent => (found cached, v)
  | UpdateEvent e => written refuse (sv_Events v !! ekey e) (change_event (ekey e) (with_Labels e) v) v
  | DeleteEvent e => written refuse (sv_Events v !! ekey e) (remove_event (ekey e) (ByHandler seen) v) v
  | GetPod ns n => (found (mo_Pods (sv_Now v) !! ((ns, n) : Key)), v)
  | GetNode n => (found (mo_Nodes (sv_Now v) !! n), v)
  | RecordOnPod _ _ _ => (tt, v)
  | UpdatePod p => written refuse (mo_Pods (sv_Now v) !! key_of p)
      (set_Now (mkMoment (<[key_of p := p]> (mo_Pods (sv_Now v))) (mo_Nodes (sv_Now v))) v) v
  end.

Lemma found_ok {A} (o : option A) : read_ok o (found o).
Proof. by destruct o. Qed.

Lemma written_ok {A} refuse (o : option A) d v :
  ∃ applied, write_ok (is_Some o) applied (written refuse o d v).1
    ∧ (written refuse o d v).2 = if applied : bool then d else v.
Proof.
  destruct refuse; [exists false; split; [by exists timeout|done]|]. destruct o as [a|].
  - exists true. split; [|done]. by split; [eexists|].
  - exists false. split; [|done]. exists gone. split; [done|]. by intros _ [??].
Qed.

Lemma hanswer_serves refuse cached seen v {T} (c : HCall T) :
  hserve cached seen v c (hanswer refuse cached seen v c).1 (hanswer refuse cached seen v c).2.
Proof. destruct c; cbn; try apply written_ok; try (split; [done|apply found_ok]); done. Qed.

Definition sanswer (refuse : bool) (uuid : string) (st : Storer) (v : Srv) {T} (c : SCall T) : T * Srv :=
  match c in SCall T return T * Srv with
  | NewUUID => (uuid, set_Named (<[ekey (name_event st uuid) := name_event st uuid]> (sv_Named v)) v)
  | LimiterWait => (None, v)
  | CreateEvent e =>
      if refuse then (Err timeout, v)
      else match sv_Events v !! ekey e with
           | None => (Ok (without_Status e), put_event (ekey e) (without_Status e) v)
           | Some _ => (Err timeout, v)
           end
  | GetStored ns n => (found (sv_Events v !! ((ns, n) : Key)), v)
  | UpdateStatus e =>
      let '(a, v1) := written refuse (sv_Events v !! ekey e) (change_event (ekey e) (with_Status e) v) v in
      (a, match a with None => set_Published ({[ekey e]} ∪ sv_Published v1) v1 | Some _ => v1 end)
  | RollbackEvent e => written refuse (sv_Events v !! ekey e) (remove_event (ekey e) ByDaemon v) v
  end.

Lemma sanswer_serves refuse uuid st v {T} (c : SCall T) :
  sv_Named v !! ekey (name_event st uuid) = None →
  sserve st v c (sanswer refuse uuid st v c).1 (sanswer refuse uuid st v c).2.
Proof.
  intros Hf. destruct c; cbn; try apply written_ok; try done.
  - destruct refuse; [left; by eexists|]. destruct (sv_Events v !! ekey e) eqn:He; [left; by eexists|right].
    split; [done|]. split; [done|]. by intros x [= ->].
  - split; [done|apply found_ok].
  - destruct (written_ok refuse (sv_Events v !! ekey e) (change_event (ekey e) (with_Status e) v) v) as (b & Hw & Hv).
    destruct (written _ _ _ _) as [a v1]. cbn in *. exists b. split; [done|]. by rewrite <-Hv.
Qed.


Section runs.
Context (operatorNamespace : string) (hasRecorder : bool).
Abbreviation handler_step := (EventFlow.handler_step operatorNamespace hasRecorder).
Abbreviation flow_step := (EventFlow.flow_step operatorNamespace hasRecorder).
Abbreviation ReconcileEvent := (EnoexecHandler.ReconcileEvent operatorNamespace hasRecorder).

Definition with_Srv (v : Srv) (s : Flow) : Flow :=
  mkFlow v (fl_Cache s) (fl_Queue s) (fl_Workers s) (fl_Storers s) (fl_Listed s).

(** ** Scripts: runs to compute *)
Inductive Act :=
| AEvent (i : nat) (ns node : string) (ev : ENOEXECInternalEvent)
| AStore (i : nat) (refuse : bool) (uuid : string)
| AStop (i : nat)
| ADeliver (k : Key)
| ATake (k : Key)
| ARequest (k : Key) (refuse : bool)
| AReturn (k : Key)
| AList
| ARemove (k : Key).

Definition act (a : Act) (s : Flow) : option Flow :=
  let v := fl_Srv s in
  match a with
  | AEvent i ns node ev =>
      match fl_Storers s !! i with
      | Some _ => None
      | None => Some (mkFlow v (fl_Cache s) (fl_Queue s) (fl_Workers s)
          (<[i := mkStorer ns node ev None (processEvent true ns node ev)]> (fl_Storers s)) (fl_Listed s))
      end
  | AStore i refuse uuid =>
      st ← fl_Storers s !! i;
      match sr_Rest st, sv_Named v !! ekey (name_event st uuid) with
      | Do c k, None =>
          let r := sanswer refuse uuid st v c in
          Some (mkFlow r.2 (fl_Cache s) (fl_Queue s) (fl_Workers s)
            (<[i := mkStorer (sr_Namespace st) (sr_NodeName st) (sr_Internal st) (named st c r.1) (k r.1)]> (fl_Storers s))
            (fl_Listed s))
      | _, _ => None
      end
  | AStop i => Some (mkFlow v (fl_Cache s) (fl_Queue s) (fl_Workers s) (base.delete i (fl_Storers s)) (fl_Listed s))
  | ADeliver k =>
      if decide (k ∈ sv_Watch v ∧ k.1 = operatorNamespace)
      then Some (mkFlow (mkSrv (sv_Events v) (sv_Watch v ∖ {[k]}) (sv_Now v) (sv_Named v) (sv_Published v) (sv_Gone v))
             (match sv_Events v !! k with Some x => <[k := x]> (fl_Cache s) | None => base.delete k (fl_Cache s) end)
             ({[k]} ∪ fl_Queue s) (fl_Workers s) (fl_Storers s) (fl_Listed s))
      else None
  | ATake k =>
      match decide (k ∈ fl_Queue s), fl_Workers s !! k with
      | left _, None => Some (mkFlow v (fl_Cache s) (fl_Queue s ∖ {[k]})
          (<[k := mkWorker [] [] ReconcileEvent]> (fl_Workers s)) (fl_Storers s) (fl_Listed s))
      | _, _ => None
      end
  | ARequest k refuse =>
      w ← fl_Workers s !! k;
      match wk_Rest w with
      | Do c kont =>
          let r := hanswer refuse (fl_Cache s !! k) (wk_Moments w) v c in
          Some (mkFlow r.2 (fl_Cache s) (fl_Queue s)
            (<[k := mkWorker (wk_Trace w ++ [mkEv c r.1]) (wk_Moments w ++ [sv_Now r.2]) (kont r.1)]> (fl_Workers s))
            (fl_Storers s) (fl_Listed s))
      | Return _ => None
      end
  | AReturn k =>
      w ← fl_Workers s !! k;
      match wk_Rest w with
      | Return r => Some (mkFlow v (fl_Cache s) (match r with Some _ => {[k]} ∪ fl_Queue s | None => fl_Queue s end)
          (base.delete k (fl_Workers s)) (fl_Storers s) (fl_Listed s))
      | Do _ _ => None
      end
  | AList => Some (mkFlow v (fl_Cache s) (fl_Queue s) (fl_Workers s) (fl_Storers s)
      (map_imap (λ k e, if bool_decide (k.1 = operatorNamespace) && HasErrorLabel e then Some (en_Labels e) else None)
         (sv_Events v)))
  | ARemove k =>
      match fl_Listed s !! k, sv_Events v !! k with
      | Some labels, Some _ => Some (mkFlow (remove_event k (ByOperator labels) v) (fl_Cache s) (fl_Queue s)
          (fl_Workers s) (fl_Storers s) (base.delete k (fl_Listed s)))
      | _, _ => None
      end
  end.

Lemma act_sound a s s' : act a s = Some s' → flow_step s s'.
Proof.
  destruct a; cbn.
  - destruct (fl_Storers s !! i) eqn:Hi; [done|]. intros [= <-]. by apply (flow_event _ _ s i true).
  - destruct (fl_Storers s !! i) as [st|] eqn:Hi; cbn; [|done]. destruct (sr_Rest st) as [r|T c k] eqn:Hr; [done|].
    destruct (sv_Named _ !! _) eqn:Hn; [done|]. intros [= <-]. eapply flow_store; [exact Hi|].
    unfold storer_moves. rewrite Hr. eexists. split; [by apply sanswer_serves|done].
  - intros [= <-]. apply flow_stop.
  - case_decide as Hd; [|done]. destruct Hd. intros [= <-]. by apply flow_handler, handler_deliver.
  - destruct (decide _); [|done]. destruct (fl_Workers s !! k) eqn:Hk; [done|]. intros [= <-].
    by apply flow_handler, handler_take.
  - destruct (fl_Workers s !! k) as [w|] eqn:Hk; cbn; [|done]. destruct (wk_Rest w) as [r|T c kont] eqn:Hr; [done|].
    intros [= <-]. eapply flow_handler, handler_request; [exact Hk|]. unfold worker_moves. rewrite Hr.
    eexists. split; [apply hanswer_serves|done].
  - destruct (fl_Workers s !! k) as [w|] eqn:Hk; cbn; [|done]. destruct (wk_Rest w) as [r|T c kont] eqn:Hr; [|done].
    intros [= <-]. by eapply flow_handler, handler_return.
  - intros [= <-]. apply flow_list.
  - destruct (fl_Listed s !! k) eqn:Hl; [|done]. destruct (sv_Events _ !! k) eqn:Hk; [|done]. intros [= <-].
    apply flow_remove; [done|by eexists].
Qed.

Definition play (script : list Act) (s : Flow) : option Flow :=
  foldl (λ o a, o ≫= act a) (Some s) script.

Lemma play_sound script s s' : play script s = Some s' → rtc flow_step s s'.
Proof.
  unfold play. revert s. induction script as [|a script IH]; intros s; cbn; [by intros [= <-]|].
  destruct (act a s) as [s1|] eqn:Ha.
  - intros Hs. eapply rtc_l; [by apply (act_sound a)|]. by apply IH.
  - intros Hs. exfalso. clear -Hs. induction script; cbn in *; [done|auto].
Qed.















(** ** Draining the queue *)




Lemma with_Srv_Srv v s : fl_Srv (with_Srv v s) = v.
Proof. done. Qed.








(** Nothing announced, nothing queued, nothing under way. *)
Record quiet (s : Flow) : Prop := mkQuiet {
  qt_watch : sv_Watch (fl_Srv s) = ∅;
  qt_queue : fl_Queue s = ∅;
  qt_workers : fl_Workers s = ∅;
}.




(** ** The operator's teardown *)

(** What [handleEnoexecDelete] lists. *)
Definition listed_items (evs : gmap Key ENoExecEvent) : list ENoExecItem :=
  (λ ke : Key * ENoExecEvent, mkItem ke.1.2 (en_Labels ke.2)) <$>
    filter (λ ke, ke.1.1 = operatorNamespace) (map_to_list evs).

(** A cluster that lets the teardown through, with these events in it. *)
Definition cooperates_with (evs : gmap Key ENoExecEvent) : ∀ T, Call T → T → Prop := λ T c,
  match c in Call T return T → Prop with
  | ListENoExecEvents => λ a, a = Ok (listed_items evs)
  | c' => cooperates _ c'
  end.

Lemma elem_of_listed evs it :
  it ∈ listed_items evs ↔ ∃ k e, evs !! k = Some e ∧ k.1 = operatorNamespace ∧ it = mkItem k.2 (en_Labels e).
Proof.
  unfold listed_items. rewrite list_elem_of_fmap. split.
  - intros ([k e] & -> & [Hk He]%list_elem_of_filter). apply elem_of_map_to_list in He. eauto.
  - intros (k & e & He & Hk & ->). exists (k, e). split; [done|]. apply list_elem_of_filter.
    by rewrite elem_of_map_to_list.
Qed.




(** An event without a label in the listing makes the operator wait. *)
Lemma unmarked_waits evs k e apiReader c {X} (srv : Server Call X) x :
  evs !! k = Some e → k.1 = operatorNamespace → HasErrorLabel e = false →
  containsFinalizer utils.ExecFormatErrorFinalizerName (cf_Finalizers c) = true →
  server_ok srv (cooperates_with evs) → (run (handleEnoexecDelete apiReader c) x).2.2 ≠ None.
Proof.
  intros He Hk Herr Hf Hsrv.
  assert (Hn : ¬ Forall errored (listed_items evs)).
  { rewrite Forall_forall. intros Hall. destruct (Hall (mkItem k.2 (en_Labels e))) as [v Hv].
    - apply elem_of_listed. eauto.
    - unfold HasErrorLabel in Herr. apply bool_decide_eq_false in Herr. apply Herr. by exists v. }
  pose proof (wp_run _ _ _ [] x Hsrv (teardown_waits apiReader (cooperates_with evs) c _ [] Hf (λ a Ha, Ha) Hn)) as H.
  by destruct (run _ x) as [[x' tr] r].
Qed.

End runs.

(** ** An event that is left behind

    A daemon dies between the creation of an event and the update of its status, and
    the update with which the handler marks that event is refused: the call returns as
    if all was done, and until the informer hands out its events again, hours later, or
    the handler is restarted, nobody looks at the event. *)
Definition nowhere : Moment := mkMoment ∅ ∅.
Definition orphanKey : Key := ("operator", "u1").
Definition orphan : ENoExecEvent := mkENoExec "u1" "operator" None "" "" "" "".

Definition orphan_script : list Act :=
  [AEvent 0 "operator" "n1" (mkInternal "web" "shop" "cri-o://c1");
   AStore 0 false "u1"; AStore 0 false "u2"; AStore 0 false "u2"; AStop 0;
   ADeliver orphanKey; ATake orphanKey; ARequest orphanKey false; ARequest orphanKey true; AReturn orphanKey].

(** Then nothing is announced, queued or under way, the event has no label, and the
    operator's attempts to remove the monitor fail as long as it is there. *)
Theorem stranded_event :
  ∃ s, rtc (EventFlow.flow_step "operator" true) (flow_start nowhere) s ∧ quiet s ∧ fl_Storers s = ∅
    ∧ sv_Events (fl_Srv s) = {[orphanKey := orphan]} ∧ HasErrorLabel orphan = false
    ∧ ∀ apiReader c (X : Type) (srv : Server Call X) x,
        containsFinalizer utils.ExecFormatErrorFinalizerName (cf_Finalizers c) = true →
        server_ok srv (cooperates_with "operator" (sv_Events (fl_Srv s))) →
        (run (handleEnoexecDelete apiReader c) x).2.2 ≠ None.
Proof.
  destruct (play "operator" true orphan_script (flow_start nowhere)) as [s|] eqn:Hs; [|by vm_compute in Hs].
  exists s. split; [by apply play_sound in Hs|].
  assert (Hev : sv_Events (fl_Srv s) = {[orphanKey := orphan]}) by (vm_compute in Hs; by injection Hs as <-).
  assert (Hq : quiet s) by (vm_compute in Hs; by injection Hs as <-).
  assert (Hst : fl_Storers s = ∅) by (vm_compute in Hs; by injection Hs as <-).
  clear Hs. split; [done|]. split; [done|]. split; [done|]. split; [done|].
  intros apiReader c X srv x Hf. apply (unmarked_waits "operator" _ orphanKey orphan); [|done..].
  by rewrite Hev, lookup_singleton_eq.
Qed.
