(* ===== verification/SystemRuns.v ===== *)
(** * Runs of the system

    An API server that carries requests out, as a function ([answer]) that
    [serves] allows; with it, runs of the system are computed.  The theorems are
    about two of them: a pod that is gated by an admission still under way when
    the pods are listed is orphaned, and an operator that dies between releasing
    the controller and restoring it leaves a removal that cannot finish. *)
From stdpp Require Import base gmap strings list relations.
From S2P Require Import Prelude GoStd Api LabelSelectors NodeMatch Models ArchConstraints.
From S2P Require Import CelEval Events PodModel PodTheorems PodReconciler ReconcilerTheorems.
From S2P Require Import Webhook Status Prog Operator OperatorTheorems OperatorTraces System.
Import plugins v1beta1 models events.

(** ** The server *)
Definition missing : GoError := mkErr KNotFound "not found".
Definition conflict : GoError := errOther "conflict".

(** A deployment is available as soon as it is created. *)
Definition created (m : Manifest) : Object :=
  let n := default 0%Z (mf_Replicas m) in
  mkObject "uid" (mf_Finalizers m) false 1 (mf_Replicas m) 1 n n n n 0 [].

Definition with_Deleting (b : bool) (o : Object) : Object :=
  mkObject (ob_UID o) (ob_Finalizers o) b (ob_Generation o) (ob_SpecReplicas o)
    (ob_ObservedGeneration o) (ob_Replicas o) (ob_UpdatedReplicas o) (ob_ReadyReplicas o)
    (ob_AvailableReplicas o) (ob_UnavailableReplicas o) (ob_ImagePullSecrets o).

(** The object of an update, stored over [cur] under a new version. *)
Definition stored (v : string) (o : ClusterPodPlacementConfig) (cur : Reply) (conds : GoSlice Condition) : Reply :=
  let m := cppc_Meta o in
  mkReply (rp_UID cur)
    (mkCPPC (mkMeta (om_Name m) (om_GenerateName m) (om_Namespace m) v
       (om_DeletionTimestamp (cppc_Meta (rp_Obj cur))) (om_Labels m) (om_Annotations m)
       (om_OwnerReferences m) (om_Finalizers m)) (cppc_Spec o)) conds.

Definition deleted (t : Z) (v : string) (cur : Reply) : Reply :=
  let m := cppc_Meta (rp_Obj cur) in
  mkReply (rp_UID cur)
    (mkCPPC (mkMeta (om_Name m) (om_GenerateName m) (om_Namespace m) v (Some t) (om_Labels m)
       (om_Annotations m) (om_OwnerReferences m) (om_Finalizers m)) (cppc_Spec (rp_Obj cur)))
    (rp_Conditions cur).

Definition lookup_object (r : Ref) (s : ApiState) : res Object :=
  match as_Objects s !! r with Some o => Ok o | None => Err missing end.


Definition answer : ∀ T, Call T → ApiState → ApiState * T := λ T c,
  match c in Call T return ApiState → ApiState * T with
  | GetCached r => λ s, (s, lookup_object r s)
  | GetLive r => λ s, (s, lookup_object r s)
  | UpdateObject r o => λ s,
      match as_Objects s !! r with
      | Some cur =>
          if bool_decide (ref_Kind r = KDeployment)
          then let o' := with_Deleting (ob_Deleting cur) o in
               (set_Objects (settle_object r o' (as_Objects s)) s, Ok o')
          else (s, Err conflict)
      | None => (s, Err missing)
      end
  | DeleteObject r => λ s,
      match as_Objects s !! r with
      | Some cur => (set_Objects (settle_object r (with_Deleting true cur) (as_Objects s)) s, None)
      | None => (s, Some missing)
      end
  | ApplyObject m => λ s, (set_Objects (<[ mf_Ref m := created m ]> (as_Objects s)) s, None)
  | SetControllerReference _ => λ s, (s, None)
  | GetConfigCached => λ s, (s,
      match as_Cache s with
      | Some r => if bool_decide (rp_UID r = "") then Err conflict else Ok r
      | None => Err missing
      end)
  | GetConfigLive => λ s,
      match as_Config s with
      | Some r => (overtake r s, Ok r)
      | None => (s, Err missing)
      end
  | UpdateConfig o => λ s,
      match as_Config s with
      | Some cur =>
          if bool_decide (cppc_version o = reply_version cur)
          then let r := stored (base.fresh (as_Versions s)) o cur (rp_Conditions cur) in
               (write_config r s, Ok r)
          else (s, Err conflict)
      | None => (s, Err missing)
      end
  | UpdateConfigStatus c => λ s,
      match as_Config s with
      | Some cur =>
          if bool_decide (cppc_version (cf_Obj c) = reply_version cur
                          ∧ cf_Finalizers c = reply_finalizers cur)
          then let r := stored (base.fresh (as_Versions s)) (rp_Obj cur) cur (st_Conditions (cf_Status c)) in
               (write_config r s, Ok r)
          else (s, Err conflict)
      | None => (s, Err missing)
      end
  | ListPPCs => λ s, (s, Ok 0)
  | ListPendingPods => λ s, let l := (map_to_list (as_Pods s)).*2 in (overlook l s, Ok l)
  | ListENoExecEvents => λ s, (s, Ok [])
  | DeleteENoExecEvent _ => λ s, (s, None)
  | GetNamespace => λ s, (s, Ok None)
  | UpdateNamespace _ => λ s, (s, None)
  | ClusterMinorVersion => λ s, (s, Ok 33%Z)
  | ServiceMonitorsAvailable => λ s, (s, false)
  | GetLogLevel => λ s, (s, 0%Z)
  | SetLogLevel _ => λ s, (s, tt)
  end.

Lemma fresh_version (s : ApiState) : base.fresh (as_Versions s) ∉ as_Versions s.
Proof. apply is_fresh. Qed.

Lemma answer_serves T (c : Call T) s : serves T c s (answer T c s).2 (answer T c s).1.
Proof.
  destruct c; cbn; try done.
  - split; [done|]. unfold lookup_object. by destruct (as_Objects s !! r).
  - destruct (as_Objects s !! r) as [cur|] eqn:E; [|by left]. case_bool_decide; [|by left].
    right. exists cur, (with_Deleting (ob_Deleting cur) o). split_and!; try done. by left.
  - destruct (as_Objects s !! r) as [cur|] eqn:E; [|by left; eauto].
    right. exists cur, (with_Deleting true cur). split_and!; try done.
  - right. exists (created m). split; [|done]. intros f Hf. by left.
  - split; [done|]. intros r. destruct (as_Cache s) as [r0|]; [|done]. case_bool_decide; [done|].
    by intros [= ->].
  - by destruct (as_Config s) as [r1|] eqn:E.
  - destruct (as_Config s) as [cur|] eqn:E; [|by left]. case_bool_decide; [|by left]. right.
    exists cur, (stored (base.fresh (as_Versions s)) c cur (rp_Conditions cur)). split_and!; try done; [apply fresh_version|by left].
  - destruct (as_Config s) as [cur|] eqn:E; [|by left]. case_bool_decide as H; [|by left]. right.
    destruct H as [H1 H2].
    exists cur, (stored (base.fresh (as_Versions s)) (rp_Obj cur) cur (st_Conditions (cf_Status c))). split_and!; try done; [apply fresh_version|by left].
  - split; [|done]. intros k p Hk _. apply list_elem_of_fmap. exists (k, p). split; [done|]. by apply elem_of_map_to_list.
Qed.

#[local] Instance answering : Server Call ApiState := answer.

(** ** Computed runs *)
Section runs.
Context {W : Type} {celService : CelService W} {imageService : ImageService W}
  {rangeOrder : RangeOrder} (apiReader : bool) (now : string → Z).
Abbreviation steps := (steps apiReader now).

(** At most [n] requests of a program. *)
Fixpoint run_for {A} (n : nat) (p : prog Call A) (s : ApiState) : ApiState * prog Call A :=
  match n, p with
  | 0, _ => (s, p)
  | S _, Return _ => (s, p)
  | S n, Do c k => let '(s', a) := answer _ c s in run_for n (k a) s'
  end.

Lemma run_for_steps n (p : P Outcome) tr s (w : W) :
  ∃ ls tr', steps ls (mkSys s (Some (tr, p)) w)
              (mkSys (run_for n p s).1 (Some (tr', (run_for n p s).2)) w)
            ∧ Forall (λ l, l = LOperator) ls.
Proof.
  revert p tr s. induction n as [|n IH]; intros p tr s; [exists [], tr; by repeat constructor|].
  destruct p as [o|T c k]; cbn; [exists [], tr; by repeat constructor|].
  pose proof (answer_serves T c s) as Ha. destruct (answer T c s) as [s' a]; cbn in *.
  destruct (IH (k a) (tr ++ [mkEv c a]) s') as (ls & tr' & Hs & Hl).
  exists (LOperator :: ls), tr'. split; [|by constructor]. econstructor; [|exact Hs]. by constructor.
Qed.

(** The operator reconciles for [n] requests and dies, or is done. *)
Definition operator_runs (n : nat) (s : ApiState) : ApiState :=
  sync (run_for n (Operator.Reconcile apiReader now) s).1.

Lemma steps_app ls1 ls2 (s1 s2 s3 : @Sys W) : steps ls1 s1 s2 → steps ls2 s2 s3 → steps (ls1 ++ ls2) s1 s3.
Proof. induction 1; [done|]. intros H'. econstructor; eauto. Qed.

Lemma operator_steps n s (w : W) :
  ∃ ls, steps ls (mkSys s None w) (mkSys (operator_runs n s) None w) ∧ Forall (λ l, l = LOperator) ls.
Proof.
  destruct (run_for_steps n (Operator.Reconcile apiReader now) [] s w) as (ls & tr & Hs & Hl).
  exists (LOperator :: ls ++ [LOperator]). split.
  - econstructor; [apply sys_start|]. eapply steps_app; [exact Hs|].
    econstructor; [apply sys_crash|constructor].
  - constructor; [done|]. apply Forall_app. split; [done|]. by repeat constructor.
Qed.

(** Some run between two states in which the operator rests. *)
Definition reaches (s : ApiState) (w : W) (s' : ApiState) (w' : W) : Prop :=
  ∃ ls, steps ls (mkSys s None w) (mkSys s' None w').

Lemma reaches_refl s w : reaches s w s w.
Proof. exists []. constructor. Qed.

Lemma reaches_operator n s w s' w' : reaches (operator_runs n s) w s' w' → reaches s w s' w'.
Proof.
  intros [ls Hs]. destruct (operator_steps n s w) as (ls0 & H0 & _). exists (ls0 ++ ls).
  by eapply steps_app.
Qed.

Lemma reaches_api l s w s1 w1 s' w' : api_step l s w s1 w1 → reaches s1 w1 s' w' → reaches s w s' w'.
Proof. intros Hs [ls H]. exists (l :: ls). econstructor; [by apply sys_api|done]. Qed.

(** Reconciles of one pod whose updates are all stored. *)
Definition reconcile_pod (env : Env) (k : Key) (sw : ApiState * W) : ApiState * W :=
  match as_Pods sw.1 !! k with
  | None => sw
  | Some p =>
      let '(w', r) := PodReconciler.Reconcile env (Ok p) Ok None sw.2 in
      (set_Pods (as_Creating sw.1) (<[ k := default p (rr_sent r) ]> (as_Pods sw.1)) sw.1, w')
  end.

Lemma reconcile_pod_steps env k n s (w : W) op :
  (∀ ns, is_ok (listPPCs env ns) = true) →
  is_Some (as_Objects s !! controllerDeployment) → is_Some (as_Pods s !! k) →
  let '(s', w') := Nat.iter n (reconcile_pod env k) (s, w) in
  steps (replicate n (LReconcile k)) (mkSys s op w) (mkSys s' op w').
Proof.
  intros Hl. revert s w. induction n as [|n IH]; intros s w Hc [p Hp]; [constructor|].
  rewrite Nat.iter_succ_r. unfold reconcile_pod at 2. cbn [fst snd]. rewrite Hp.
  destruct (PodReconciler.Reconcile env (Ok p) Ok None w) as [w1 r] eqn:E.
  set (q := default p (rr_sent r)).
  specialize (IH (set_Pods (as_Creating s) (<[ k := q ]> (as_Pods s)) s) w1 Hc). cbn in IH.
  rewrite lookup_insert_eq in IH. specialize (IH ltac:(by eexists)).
  destruct (Nat.iter n _ _) as [s' w']. cbn [replicate]. econstructor; [|exact IH]. apply sys_api.
  eapply st_reconcile; [done|exact Hp|exact Hl|exact E| |done].
  unfold q. destruct (rr_sent r); [by left|by right].
Qed.
End runs.

(** ** A cluster with the operand in place *)
Definition now0 : string → Z := λ _, 0%Z.

Definition meta0 (ns name : string) : ObjectMeta := mkMeta name "" ns "1" None None None None None.

Definition config0 : Reply :=
  mkReply "u" (mkCPPC (meta0 "" "cluster") (mkCPPCSpec "Normal" None None "")) None.

Definition pod0 : CorePod :=
  mkPod (meta0 "ns" "p") (mkPodSpec "" None None None [] [] None) [].

Definition webhookEnv0 : WebhookEnv :=
  mkWEnv "operators" None (λ _, Ok []) None None (λ _, true) (λ _ _, true) id (λ _, None) (λ _, None).

Section example.
Context {W : Type} {celService : CelService W} {imageService : ImageService W}
  {rangeOrder : RangeOrder}.

(** [pod0] as the webhook returns it. *)
Definition admitted0 (w : W) : CorePod :=
  match Handle webhookEnv0 (Ok pod0) None w with
  | Ret (_, Patched p) => p
  | _ => pod0
  end.

Lemma admitted0_handle (w : W) : Handle webhookEnv0 (Ok pod0) None w = Ret (w, Patched (admitted0 w)).
Proof. reflexivity. Qed.

Abbreviation operator n := (operator_runs true now0 n).

(** The configuration is created, and three reconciles bring the operand about. *)
Definition cluster_up : ApiState :=
  operator 200 (operator 200 (operator 200 (sync (write_config config0 (mkApi None None ∅ ∅ [] ∅ ∅ false))))).

Lemma reaches_up (w : W) s' w' :
  reaches true now0 cluster_up w s' w' →
  reaches true now0 (sy_Api (sys_init w)) w s' w'.
Proof.
  intros H. eapply (reaches_api true now0 LConfig).
  { apply st_create with (r := config0); [done|set_solver|by intros []]. }
  eapply reaches_api; [apply st_sync|]. do 3 apply (reaches_operator true now0 200). exact H.
Qed.

(** A user deletes the configuration. *)
Definition remove_config (s : ApiState) : ApiState :=
  match as_Config s with
  | Some cur => sync (write_config (deleted 1 (base.fresh (as_Versions s)) cur) s)
  | None => s
  end.

Lemma reaches_remove (w : W) s s' w' :
  reaches true now0 (remove_config s) w s' w' → reaches true now0 s w s' w'.
Proof.
  unfold remove_config. destruct (as_Config s) as [cur|] eqn:E; [|done]. intros H.
  eapply reaches_api; [|eapply reaches_api; [apply st_sync|exact H]].
  eapply st_delete; [exact E|apply fresh_version|by eexists|done].
Qed.

(** The webhook gates a new pod, which is stored later. *)
Lemma reaches_admit (w : W) s s' w' :
  registered s →
  reaches true now0 (set_Pods (admitted0 w :: as_Creating s) (as_Pods s) s) w s' w' →
  reaches true now0 s w s' w'.
Proof.
  intros Hr H. eapply reaches_api; [|exact H]. eapply st_admit; [exact Hr|apply admitted0_handle].
Qed.

Lemma reaches_store (w : W) s p s' w' :
  as_Creating s = [p] → as_Pods s !! key_of p = None →
  reaches true now0 (set_Pods [] (<[ key_of p := p ]> (as_Pods s)) s) w s' w' →
  reaches true now0 s w s' w'.
Proof. intros Hc Hk H. eapply reaches_api; [|exact H]. by apply (st_store s w [] p []). Qed.
End example.

(** ** The race between an admission and the removal *)
Section race.
Context {W : Type} {celService : CelService W} {imageService : ImageService W}
  {rangeOrder : RangeOrder}.

(** The removal runs between the webhook's answer and the storing of the pod. *)
Definition raced (w : W) : ApiState :=
  let s := cluster_up in
  let s1 := operator_runs true now0 200
              (remove_config (set_Pods (admitted0 w :: as_Creating s) (as_Pods s) s)) in
  set_Pods [] (<[ key_of (admitted0 w) := admitted0 w ]> (as_Pods s1)) s1.

(** The order of the removal (deregister the webhook, see its service gone, list
    the pods) leaves a window.  A run exists in which a pod is stored with the scheduling gate after the
    configuration and the controller are gone: nothing will release it. *)
Theorem removal_race (w : W) :
  ∃ ls s, steps true now0 ls (sys_init w) (mkSys s None w)
    ∧ as_Config s = None ∧ as_Objects s !! controllerDeployment = None ∧ as_Overtaken s = false
    ∧ as_Pods s !! key_of pod0 = Some (admitted0 w) ∧ gated (admitted0 w) = true.
Proof.
  assert (H : reaches true now0 (sy_Api (sys_init w)) w (raced w) w).
  { apply reaches_up, reaches_admit; [vm_compute; by eexists|].
    apply (reaches_remove w), (reaches_operator true now0 200).
    eapply (reaches_store w _ (admitted0 w)); [vm_compute; reflexivity..|]. apply reaches_refl. }
  destruct H as [ls H]. exists ls, (raced w). split; [exact H|]. by vm_compute.
Qed.

(** ** An interrupted repair of the controller *)

(** The controller's deployment is deleted, the operator releases it and dies
    before it applies it again; then the configuration is deleted. *)
Definition interrupted (w : W) : ApiState :=
  let s := cluster_up in
  let s0 := set_Pods (admitted0 w :: as_Creating s) (as_Pods s) s in
  let s1 := set_Pods [] (<[ key_of (admitted0 w) := admitted0 w ]> (as_Pods s0)) s0 in
  let s2 := set_Objects (alter (with_Deleting true) controllerDeployment (as_Objects s1)) s1 in
  remove_config (operator_runs true now0 4 s2).

Lemma alter_change f r (m : gmap Ref Object) :
  (∀ o, ob_Finalizers (f o) = ob_Finalizers o) → objects_change m (alter f r m).
Proof.
  intros Hf r'. destruct (decide (r' = r)) as [->|Hne].
  - rewrite lookup_alter_eq. destruct (m !! r); cbn; [apply Hf|done].
  - rewrite lookup_alter_ne by done. by destruct (m !! r').
Qed.

Lemma interrupted_reachable (w : W) :
  reaches true now0 (sy_Api (sys_init w)) w (interrupted w) w.
Proof.
  unfold interrupted. cbv zeta.
  apply reaches_up, reaches_admit; [vm_compute; by eexists|].
  apply (reaches_store w _ (admitted0 w)); [vm_compute; reflexivity..|].
  eapply reaches_api; [apply st_objects; by apply (alter_change (with_Deleting true) controllerDeployment)|].
  apply (reaches_operator true now0 4), (reaches_remove w), reaches_refl.
Qed.

Lemma interrupted_abandoned (w : W) : abandoned (key_of pod0) (admitted0 w) (interrupted w).
Proof.
  constructor; [|vm_compute; eauto..]. eexists. split; [vm_compute; reflexivity|].
  split; [vm_compute; eauto|]. unfold reply_finalized. apply (bool_decide_unpack _). by vm_compute.
Qed.
End race.
