(* ===== verification/Witnesses.v ===== *)
(** * The theorems at work

    Concrete clusters, registries and pods at which the theorems of the library
    apply: each lemma discharges every hypothesis of one theorem at one input and
    states what the theorem then says.  The parameters of the model (the CEL
    engine, the registry, the API servers, the sort, the order of map iteration)
    are instantiated by the functions of the first part. *)
From Stdlib Require Import Ascii.
From stdpp Require Import base gmap strings list sorting relations.
From S2P Require Import Prelude GoStd Api LabelSelectors NodeMatch Models ArchConstraints Lru.
From S2P Require Import CelEval Events PodModel PodTheorems PodReconciler ReconcilerTheorems.
From S2P Require Import Webhook Validation Admission Status Conversion ImageInspect Prog.
From S2P Require Import Operator OperatorTheorems EnoexecHandler.
Import plugins v1beta1 models events.

Open Scope string_scope.

(** ** Instances of the parameters *)

(** Field selectors and numeric operators match nothing. *)
Definition plainNodes : NodeEval :=
  {| other_match := λ _ _, false; field_match := λ _ _, false |}.

(** Three expressions compile; "self" reads a missing key, "1" is no boolean. *)
Definition toyCel : CelEngine :=
  {| Ast := string; Program := string; NewEnv := None;
     Compile := λ e, if bool_decide (e ∈ ["true"; "gpu"; "self"; "1"]) then inl e else inr "syntax";
     OutputTypeIsBool := λ a, negb (bool_decide (a = "1"));
     OutputType := λ _, "int";
     mkProgram := inl;
     Eval := λ p m, if bool_decide (p = "true") then inl (CBool true)
                    else if bool_decide (p = "gpu")
                    then inl (CBool (bool_decide (pm_labels m !! "app" = Some "gpu")))
                    else inr "no such key: x" |}.

(** A registry with two images; it keeps count of the requests. *)
Definition toyRegistry : string → bool → res (gset string) :=
  λ name _,
    if bool_decide (name = "//multi:1") then Ok {[ "amd64"; "arm64" ]}
    else if bool_decide (name = "//arm:1") then Ok {[ "arm64" ]}
    else Err (errOther "manifest unknown").

Definition countingImages : ImageService nat := λ name skip _ n, (S n, toyRegistry name skip).

(** The evaluator of the toy engine and the registry share no state. *)
Abbreviation World := (@Package toyCel).
Definition worldImages : ImageService World := λ name skip _ w, (w, toyRegistry name skip).
Definition worldCel : CelService World := @package_service toyCel.
Definition worldCelOk : CelServiceOk World := @package_service_ok toyCel.

Definition listOrder : RangeOrder := λ s, elements s.
Lemma listOrder_ok : @RangeOrderOk listOrder.
Proof. intros s. reflexivity. Defined.

Definition higher (x y : PodPlacementConfig) : Prop := (ppc_Priority y ≤ ppc_Priority x)%Z.
#[local] Instance higher_dec (x y : PodPlacementConfig) : Decision (higher x y) :=
  decide (ppc_Priority y ≤ ppc_Priority x)%Z.
Definition mergeSort (l : list PodPlacementConfig) : list PodPlacementConfig :=
  @merge_sort _ higher higher_dec l.

Lemma mergeSort_ok : sort_ok mergeSort.
Proof.
  intros l. split; [apply merge_sort_Permutation|].
  apply StronglySorted_merge_sort; [intros x y z; unfold higher; lia|].
  intros x y. unfold higher. lia.
Defined.

(** ** Objects *)
Definition bareMeta (name ns : string) : ObjectMeta := mkMeta name "" ns "" None None None None None.
Definition image (name : string) : Container := mkContainer name "IfNotPresent".

Definition podOf (spec : PodSpec) : Pod := NewPod (mkPod (bareMeta "web" "shop") spec []) (Some []).
Definition gatedSpec (images : list string) : PodSpec :=
  mkPodSpec "" None None (Some [utils.SchedulingGateName]) (image <$> images) [] None.

(** A gated pod that runs on both architectures, and one with an unknown image. *)
Definition multiPod : Pod := podOf (gatedSpec ["multi:1"; "arm:1"]).
Definition brokenPod : Pod := podOf (gatedSpec ["gone:1"]).

(** Its author asked for disks of some type, on any architecture. *)
Definition diskTerm : NodeSelectorTerm :=
  mkNST (Some [mkNSR "disk" NodeSelectorOpIn (Some ["ssd"])]) None.
Definition diskPod : Pod :=
  podOf (mkPodSpec "" None (Some (mkAff (Some (mkNA (Some (mkNS (Some [diskTerm]))) None)) None None))
    (Some [utils.SchedulingGateName]) [image "multi:1"] [] None).

Definition armNode : Node := mkNode "n1" {[ utils.ArchLabel := "arm64"; "disk" := "ssd" ]}.

(** ** Architecture constraints *)

Lemma overrideArchitectures_admits_witness :
  @admits plainNodes armNode
    (p_Spec (overrideArchitectures (Some ["arm64"]) (pod_obj diskPod))) = true.
Proof.
  rewrite (@overrideArchitectures_admits plainNodes armNode ["arm64"] (pod_obj diskPod)); [|discriminate].
  vm_compute. reflexivity.
Defined.

Lemma overrideArchitectures_last_wins_witness :
  overrideArchitectures (Some ["amd64"]) (overrideArchitectures (Some ["arm64"]) (pod_obj diskPod))
  = overrideArchitectures (Some ["amd64"]) (pod_obj diskPod)
  ∧ length (required_terms (p_Spec (overrideArchitectures (Some ["arm64"]) (pod_obj diskPod)))) = 1.
Proof.
  destruct (overrideArchitectures_last_wins ["arm64"] ["amd64"] (pod_obj diskPod)) as [H1 H2];
    [discriminate..|].
  split; [exact H1|]. apply H2. discriminate.
Defined.

(** ** Rules *)
Definition rules : list ArchitectureRule :=
  [mkRule "broken" "1" (Some ["s390x"]); mkRule "gpu" "gpu" (Some ["amd64"]);
   mkRule "any" "true" (Some ["arm64"])].

Lemma evaluateRules_spec_witness :
  @rules_spec toyCel (podToMap None) rules (mkRulesResult (Some ["arm64"]) "any" true false).
Proof.
  exact (proj1 (@evaluateRules_spec toyCel rules None [] (@cache_ok_nil toyCel))).
Defined.

Lemma compile_concurrent_witness :
  Ok "gpu" = @compile_fresh toyCel "gpu" ∧ NoDup [("gpu", "gpu")].*1.
Proof.
  destruct (@compile_concurrent toyCel [("gpu", "gpu")]
    [@TDone toyCel "gpu" (Ok "gpu"); @TDone toyCel "gpu" (Ok "gpu")]) as (H1 & _ & H2);
    [|split; [apply H1; left|exact H2]].
  eapply rtc_l; [apply (@st_call toyCel "gpu")|].
  eapply rtc_l; [apply (@st_call toyCel "gpu")|].
  eapply rtc_l; [apply (@st_miss toyCel 0 "gpu" [] []); reflexivity|].
  eapply rtc_l; [apply (@st_miss toyCel 1 "gpu" [] []); reflexivity|].
  eapply rtc_l; [apply (@st_store toyCel 0 "gpu" "gpu"); reflexivity|].
  eapply rtc_l; [apply (@st_store toyCel 1 "gpu" "gpu"); reflexivity|].
  apply rtc_refl.
Defined.

(** ** Required and preferred affinity *)

Lemma toyRegistry_answers : @image_answer nat countingImages [] toyRegistry.
Proof. intros name skip w. reflexivity. Defined.

Lemma SetNodeAffinityArchRequirement_admits_witness :
  let q := (@SetNodeAffinityArchRequirement nat countingImages listOrder [] diskPod 0).1.2 in
  @admits plainNodes armNode (spec_of q) = true.
Proof.
  pose proof (@SetNodeAffinityArchRequirement_admits nat countingImages listOrder listOrder_ok plainNodes
    [] toyRegistry diskPod 0 toyRegistry_answers) as H.
  assert (E : (@SetNodeAffinityArchRequirement nat countingImages listOrder [] diskPod 0).2 = Ok true)
    by (vm_compute; reflexivity).
  destruct (SetNodeAffinityArchRequirement [] diskPod 0) as [[w q] r]. cbn [snd] in E. subst r.
  destruct H as (_ & _ & H).
  - discriminate.
  - split; [reflexivity|]. split; [|right; discriminate]. repeat constructor.
  - cbn zeta. cbn [fst snd]. apply H. split; [left; vm_compute; reflexivity|]. left. exists "arm64".
    split; [reflexivity|]. intros i s Hi.
    unfold imagesNamesSet in Hi. apply elem_of_list_to_set, list_elem_of_singleton in Hi as ->.
    intros [= <-]. apply (bool_decide_unpack _). vm_compute. exact I.
Defined.

Lemma SetNodeAffinityArchRequirement_error_witness :
  let '(_, q, r) := @SetNodeAffinityArchRequirement nat countingImages listOrder [] brokenPod 0 in
  is_ok r = false ∧ spec_of q = spec_of brokenPod.
Proof.
  pose proof (@SetNodeAffinityArchRequirement_error nat countingImages listOrder listOrder_ok
    [] toyRegistry brokenPod 0 toyRegistry_answers) as H.
  destruct (SetNodeAffinityArchRequirement [] brokenPod 0) as [[w q] r].
  destruct H as [H1 H2]; [discriminate|reflexivity|].
  assert (is_ok r = false) as Hr.
  { apply H1. exists ("//gone:1", false). split; [|reflexivity].
    apply (bool_decide_unpack _). vm_compute. exact I. }
  split; [exact Hr|exact (H2 Hr)].
Defined.

Lemma SetNodeAffinityArchRequirement_idempotent_witness :
  let q := (@SetNodeAffinityArchRequirement nat countingImages listOrder [] diskPod 0).1.2 in
  spec_of (@SetNodeAffinityArchRequirement nat countingImages listOrder [] q 1).1.2 = spec_of q.
Proof.
  exact (@SetNodeAffinityArchRequirement_idempotent nat countingImages listOrder [] toyRegistry
    diskPod 0 1 toyRegistry_answers).
Defined.

Lemma trackAffinitySource_set_witness :
  let q := trackAffinitySource "arm64" 50 "PodPlacementConfig-a" true multiPod in
  trackAffinitySource "arm64" 50 "PodPlacementConfig-a" true q = q.
Proof.
  apply (trackAffinitySource_set "arm64" 50 "PodPlacementConfig-a" true multiPod); reflexivity.
Defined.

Lemma maxRetries_after_errors_witness :
  maxRetries (errors_in_a_row (replicate 5 (errOther "timeout")) brokenPod) = true
  ∧ maxRetries (errors_in_a_row (replicate 4 (errOther "timeout")) brokenPod) = false.
Proof.
  split.
  - apply (maxRetries_after_errors (replicate 5 (errOther "timeout")) brokenPod);
      [reflexivity|discriminate|vm_compute; discriminate].
  - apply (maxRetries_after_errors (replicate 4 (errOther "timeout")) brokenPod);
      [reflexivity|discriminate|vm_compute; discriminate].
Defined.

(** ** The reconciler *)

(** A configuration for every pod of the namespace, with rules and a scoring. *)
Definition celPPC (priority : Z) (archs : list string) : PodPlacementConfig :=
  mkPPC (bareMeta "cel" "shop")
    (mkPPCSpec None (Some (mkLocalPlugins None
       (Some (mkCel true (Some archs) (Some rules))))) priority).
Definition scoringPPC (priority : Z) : PodPlacementConfig :=
  mkPPC (bareMeta "scoring" "shop")
    (mkPPCSpec None (Some (mkLocalPlugins
       (Some (mkScoring true (Some [mkPlatform "arm64" 20]))) None)) priority).

Definition clusterConfig (fallback : string) : ClusterPodPlacementConfig :=
  mkCPPC (bareMeta "cluster" "") (mkCPPCSpec "Normal" None None fallback).

Definition envOf (ppcs : list PodPlacementConfig) : Env :=
  mkEnv "openshift-multiarch-tuning-operator" (Some (clusterConfig "amd64"))
    (λ _, Ok ppcs) (λ _, Ok []) (λ _, true) (λ _ _, true) mergeSort
    (λ _ _, Err (mkErr KNotFound "not found")) (λ _, Err (errOther "json")).

Lemma envOf_lists ppcs ns : is_ok (listPPCs (envOf ppcs) ns) = true.
Proof. destruct ppcs; reflexivity. Defined.

Lemma ungated_within_max_retries_witness :
  HasSchedulingGate (@reconciles World worldCel worldImages listOrder
    (replicate 5 (envOf [])) brokenPod None).2 = false.
Proof.
  apply (@ungated_within_max_retries World worldCel worldImages listOrder
    (replicate 5 (envOf [])) brokenPod None); [reflexivity| |reflexivity].
  apply Forall_replicate. exact (envOf_lists []).
Defined.

(** The pod after four failed inspections. *)
Definition failingPod : Pod := errors_in_a_row (replicate 4 (errOther "timeout")) brokenPod.

Lemma fallback_after_max_retries_witness :
  let out := (@imageBased World worldImages listOrder (envOf []) failingPod None).2 in
  HasSchedulingGate out = false
  ∧ mlookup (pod_Labels out) utils.FallbackArchitectureLabel = Some "amd64".
Proof.
  destruct (@fallback_after_max_retries World worldImages listOrder (envOf []) (clusterConfig "amd64")
    (errOther "manifest unknown")
    (@SetNodeAffinityArchRequirement World worldImages listOrder [] failingPod None).1.2
    failingPod None None plainNodes) as (H1 & H2 & _);
    [reflexivity|discriminate|vm_compute; reflexivity|vm_compute; reflexivity|].
  split; [exact H1|exact H2].
Defined.

Lemma cel_skips_image_inspection_witness :
  let offline : ImageService World := λ _ _ _ w, (w, Err (errOther "registry down")) in
  HasSchedulingGate (@processPod World worldCel offline listOrder (envOf [celPPC 9 ["amd64"]])
    brokenPod None).2 = false
  ∧ @processPod World worldCel worldImages listOrder (envOf [celPPC 9 ["amd64"]]) brokenPod None
    = @processPod World worldCel offline listOrder (envOf [celPPC 9 ["amd64"]]) brokenPod None.
Proof.
  intros offline.
  destruct (@cel_skips_image_inspection World worldCel listOrder worldImages offline
    (envOf [celPPC 9 ["amd64"]]) [celPPC 9 ["amd64"]] brokenPod brokenPod None) as [H1 H2];
    [reflexivity|vm_compute; reflexivity|vm_compute; reflexivity|].
  rewrite <-H1. split; [exact H2|reflexivity].
Defined.

(** Insertion sort, for a second implementation of [sort.Slice]. *)
Fixpoint insertPPC (x : PodPlacementConfig) (l : list PodPlacementConfig) : list PodPlacementConfig :=
  match l with
  | [] => [x]
  | y :: l' => if decide (higher x y) then x :: l else y :: insertPPC x l'
  end.
Definition insertionSort (l : list PodPlacementConfig) : list PodPlacementConfig :=
  foldr insertPPC [] l.

Lemma insertPPC_perm x l : insertPPC x l ≡ₚ x :: l.
Proof.
  induction l as [|y l IH]; cbn [insertPPC]; [reflexivity|].
  destruct (decide (higher x y)); [reflexivity|]. rewrite IH. apply Permutation_swap.
Qed.

Lemma insertPPC_sorted x l :
  StronglySorted (λ a b, ppc_Priority b ≤ ppc_Priority a)%Z l →
  StronglySorted (λ a b, ppc_Priority b ≤ ppc_Priority a)%Z (insertPPC x l).
Proof.
  induction 1 as [|y l Hs IH Hy]; cbn [insertPPC]; [repeat constructor|].
  destruct (decide (higher x y)) as [Hh|Hh]; unfold higher in Hh.
  - constructor; [by constructor|]. constructor; [done|].
    eapply Forall_impl; [exact Hy|]. cbn. intros. lia.
  - constructor; [exact IH|]. rewrite insertPPC_perm. constructor; [lia|done].
Qed.

Lemma insertionSort_ok : sort_ok insertionSort.
Proof.
  intros l. induction l as [|x l [IH1 IH2]]; cbn; [split; [reflexivity|constructor]|].
  split; [by rewrite insertPPC_perm, IH1|by apply insertPPC_sorted].
Qed.

Definition twoPPCs : list PodPlacementConfig := [scoringPPC 3; celPPC 9 ["amd64"]].

Lemma processPod_sort_independent_witness :
  @processPod World worldCel worldImages listOrder (with_sort insertionSort (envOf twoPPCs)) multiPod None
  = @processPod World worldCel worldImages listOrder (with_sort mergeSort (envOf twoPPCs)) multiPod None.
Proof.
  apply (@processPod_sort_independent World worldCel worldImages listOrder insertionSort mergeSort
    (envOf twoPPCs) twoPPCs multiPod None insertionSort_ok mergeSort_ok); [reflexivity|].
  apply (bool_decide_unpack _). vm_compute. exact I.
Defined.

Lemma processPod_directives_ok_witness :
  directives_ok (spec_of diskPod)
    (spec_of (@processPod World worldCel worldImages listOrder (envOf [scoringPPC 3]) diskPod None).2).
Proof.
  apply (@processPod_directives_ok World worldCel worldImages listOrder (envOf [scoringPPC 3]) diskPod None
    mergeSort_ok).
  - intros items [= <-]. vm_compute. repeat constructor.
  - apply (bool_decide_unpack _). vm_compute. exact I.
Defined.

(** ** Webhook and reconciler *)

Lemma worldCel_fresh : @cel_inv World worldCel worldCelOk None.
Proof. exact I. Defined.

(** What the evaluator holds after some evaluations. *)
Definition usedWorld : World :=
  (@cel_webhook_loop World worldCel [celPPC 9 ["amd64"]] brokenPod None).1.
Lemma worldCel_used : @cel_inv World worldCel worldCelOk usedWorld.
Proof. exact (proj2 (@cel_webhook_loop_choice World worldCel worldCelOk _ _ None I)). Defined.

Lemma webhook_reconciler_agree_witness :
  pod_obj (@cel_loop World worldCel twoPPCs multiPod None).1.2
  = pod_obj (@cel_webhook_loop World worldCel twoPPCs multiPod usedWorld).2.
Proof.
  exact (@webhook_reconciler_agree World worldCel worldCelOk twoPPCs multiPod None usedWorld
    worldCel_fresh worldCel_used).
Defined.

Lemma reconciler_confirms_webhook_witness :
  let p' := (@cel_webhook_loop World worldCel twoPPCs diskPod None).2 in
  (@cel_loop World worldCel twoPPCs p' usedWorld).2 = true
  ∧ spec_of (@cel_loop World worldCel twoPPCs p' usedWorld).1.2 = spec_of p'.
Proof.
  apply (@reconciler_confirms_webhook World worldCel worldCelOk twoPPCs diskPod
    (@cel_webhook_loop World worldCel twoPPCs diskPod None).2 None usedWorld worldCel_fresh worldCel_used).
  - exists (Some ["arm64"]). vm_compute. reflexivity.
  - reflexivity.
  - vm_compute. reflexivity.
Defined.

(** ** Validation and admission *)

Definition placement : CelArchitecturePlacement := mkCel true (Some ["amd64"]) (Some rules).

Lemma validated_placement_supported_witness :
  Forall (λ a, a ∈ utils.AllSupportedArchitecturesSet) ["arm64"].
Proof.
  apply (@validated_placement_supported toyCel placement None (mkEvalResult (Some ["arm64"]) "any" true false));
    vm_compute; reflexivity.
Defined.





(** ** Status *)

(** The controller is up, the webhook is being rolled out. *)
Definition rollingOut : CPPCStatus := Build (λ _, 100%Z) true false true false false false (zeroStatus None).

Lemma Build_truthful_witness :
  co_Status <$> FindCondition AvailableType (elems (st_Conditions rollingOut)) = Some false
  ∧ co_Status <$> FindCondition ProgressingType (elems (st_Conditions rollingOut)) = Some true
  ∧ st_canDeployMutatingWebhook rollingOut = false.
Proof.
  destruct (Build_truthful (λ _, 100%Z) true false true false false false (zeroStatus None))
    as (_ & H1 & _ & H2 & _ & _ & _ & _ & H3); [constructor|].
  split; [exact H1|]. split; [exact H2|exact H3].
Defined.

(** ** Images *)

Definition index : list inspector.Descriptor :=
  [inspector.mkDescriptor "sha256:a" None (Some (inspector.mkPlatformOCI "amd64" "linux"));
   inspector.mkDescriptor "sha256:b" (Some {[ "vnd.docker.reference.type" := "attestation-manifest" ]})
     (Some (inspector.mkPlatformOCI "s390x" "linux"));
   inspector.mkDescriptor "sha256:c" None (Some (inspector.mkPlatformOCI "unknown" "linux"));
   inspector.mkDescriptor "sha256:d" None (Some (inspector.mkPlatformOCI "arm64" "linux"))].

Definition fetched : inspector.Fetched := inspector.mkFetched (Some index) (λ _, Ok (None, "amd64")).

Lemma architecturesOf_spec_witness :
  Exists (λ m, inspector.runnable m "arm64") index
  ∧ ¬ Exists (λ m, inspector.runnable m "s390x") index.
Proof.
  destruct (inspector.architecturesOf_spec fetched {[ "amd64"; "arm64" ]}) as (d & l & a & Hc & H).
  - vm_compute. reflexivity.
  - injection Hc as <- <-.
    change (∀ x, x ∈ ({[ "amd64"; "arm64" ]} : gset string)
              ↔ Exists (λ m, inspector.runnable m x) index) in H. split.
    + apply H. apply (bool_decide_unpack _). vm_compute. exact I.
    + intros Hs. apply H in Hs. revert Hs. apply (bool_decide_unpack _). vm_compute. exact I.
Defined.

(** A registry whose answer changes with every request, behind the cache. *)
Definition flipping : string → string → list string → nat → nat * res (gset string) :=
  λ _ _ _ n, (S n, Ok (if Nat.even n then {[ "amd64" ]} else {[ "arm64" ]})).
Abbreviation cachedGet := (image_cache.GetCompatibleArchitecturesSet flipping (λ i _, Ok i) id).
Definition firstGet := cachedGet 10%Z "multi:1" false [] image_cache.newCacheProxy 0.
Definition afterAnHour : image_cache.State :=
  image_cache.mkState 3610 firstGet.1.1 firstGet.1.2
    (image_cache.logAfter flipping (λ i _, Ok i) id 10 image_cache.newCacheProxy 0 "multi:1" false [] []).

Lemma cached_answers_are_fresh_witness :
  ∃ a, a ∈ image_cache.s_log afterAnHour
       ∧ image_cache.an_set a = {[ "amd64" ]}
       ∧ (image_cache.s_now afterAnHour - image_cache.ttl ≤ image_cache.an_time a)%Z.
Proof.
  destruct (@image_cache.cached_answers_are_fresh nat flipping (λ i _, Ok i) id 10 0 afterAnHour
    "multi:1" []
    (cachedGet 3610%Z "multi:1" false [] firstGet.1.1 firstGet.1.2).1.1 firstGet.1.2 {[ "amd64" ]})
    as [_ [H|(a & Ha & _ & Hs & _ & Ht & _)]].
  - eapply rtc_l.
    { apply (image_cache.st_get flipping (λ i _, Ok i) id 10 image_cache.newCacheProxy 0 [] "multi:1" false []
        firstGet.1.1 firstGet.1.2 firstGet.2). reflexivity. }
    eapply rtc_l; [apply (image_cache.st_tick _ _ _ 10 _ _ _ 3600); lia|]. apply rtc_refl.
  - vm_compute. reflexivity.
  - vm_compute in H. discriminate H.
  - exists a. split; [exact Ha|]. split; [exact Hs|exact Ht].
Defined.

(** ** The operator *)

(** A server without operand objects that accepts and echoes every write; its
    state counts the requests. *)
Definition tidyServer : Server Call nat := λ T c n,
  (S n, match c in Call T return T with
        | GetCached r | GetLive r => Err (notFoundErr (ref_Name r))
        | UpdateObject _ o => Ok o
        | DeleteObject _ => None
        | ApplyObject _ => None
        | SetControllerReference _ => None
        | GetConfigCached => Err (notFoundErr "cluster")
        | GetConfigLive => Err (notFoundErr "cluster")
        | UpdateConfig o => Ok (mkReply "uid" o None)
        | UpdateConfigStatus c => Ok (mkReply "uid" (cf_Obj c) None)
        | ListPPCs => Ok 0
        | ListPendingPods => Ok [pod_obj (RemoveSchedulingGate multiPod)]
        | ListENoExecEvents => Ok []
        | DeleteENoExecEvent _ => None
        | GetNamespace => Ok None
        | UpdateNamespace _ => None
        | ClusterMinorVersion => Ok 19%Z
        | ServiceMonitorsAvailable => true
        | GetLogLevel => 0%Z
        | SetLogLevel _ => tt
        end).

Lemma tidyServer_honest : server_ok tidyServer honest.
Proof. intros T c w. destruct c; cbn; try exact I; intros r [= <-]; reflexivity. Defined.

Lemma tidyServer_cooperates : server_ok tidyServer cooperates.
Proof.
  intros T c w. destruct c; cbn; try exact I; try reflexivity.
  - split; [reflexivity|]. intros _ [].
  - split; [reflexivity|]. intros _ [].
  - eexists. split; reflexivity.
  - intros r [= <-]. reflexivity.
  - eexists. split; [reflexivity|]. vm_compute. reflexivity.
  - exists []. split; [reflexivity|constructor].
Defined.

(** A configuration that is being deleted. *)
Definition deletingConfig (finalizers : list string) : Config :=
  mkConfig
    (mkCPPC (mkMeta "cluster" "" "" "" (Some 1%Z) None None None (Some finalizers))
       (mkCPPCSpec "Normal" None None ""))
    (zeroStatus None).

Lemma handleDelete_waits_for_gated_pods_witness :
  let tr := (@run _ _ tidyServer _
    (handleDelete true (deletingConfig [utils.PodPlacementFinalizerName])) 0).1.2 in
  Exists (λ e, gives_up _ (ev_call e)) tr ∧ guarded gives_up cleared tr.
Proof.
  split.
  - apply Exists_exists. exists (mkEv (DeleteObject controllerDeployment) None).
    split; [vm_compute; repeat (first [left|right])|].
    cbn [gives_up ev_call ev_type]. apply (bool_decide_unpack _). vm_compute. exact I.
  - apply (handleDelete_waits_for_gated_pods true tidyServer
      (deletingConfig [utils.PodPlacementFinalizerName]) 0 tidyServer_honest).
    left.
Defined.

Lemma handleDelete_blocked_by_ppcs_witness :
  Forall (λ e, ¬ deletes_operand _ (ev_call e))
    (@run _ _ tidyServer _ (handleDelete true
       (deletingConfig [utils.PodPlacementFinalizerName; utils.CPPCNoPPCObjectFinalizer])) 0).1.2.
Proof.
  apply (handleDelete_blocked_by_ppcs true tidyServer
    (deletingConfig [utils.PodPlacementFinalizerName; utils.CPPCNoPPCObjectFinalizer]) 0 tidyServer_honest).
  right. left.
Defined.

Lemma tidyServer_alone : server_ok tidyServer cooperates_alone.
Proof.
  intros T c w. split; [exact (tidyServer_cooperates T c w)|]. destruct c; try exact I. reflexivity.
Defined.

(** A configuration with all three finalizers needs two passes. *)
Definition threeFinalizers : Config :=
  deletingConfig [utils.PodPlacementFinalizerName; utils.CPPCNoPPCObjectFinalizer;
                  utils.ExecFormatErrorFinalizerName].

Lemma handleDelete_completes_witness :
  let '(w1, _, (c1, e1)) := @run _ _ tidyServer _ (handleDelete true threeFinalizers) 0 in
  e1 = None ∧ cf_Finalizers c1 = [utils.PodPlacementFinalizerName] ∧
  let '(_, _, (c3, e3)) := @run _ _ tidyServer _ (handleDelete true c1) w1 in
  e3 = None ∧ utils.PodPlacementFinalizerName ∉ cf_Finalizers c3.
Proof.
  pose proof (handleDelete_completes true tidyServer threeFinalizers 0 tidyServer_alone) as H.
  assert (E : cf_Finalizers (@run _ _ tidyServer _ (handleDelete true threeFinalizers) 0).2.1
    = [utils.PodPlacementFinalizerName]) by (vm_compute; reflexivity).
  destruct (run (handleDelete true threeFinalizers) 0) as [[w1 tr1] [c1 e1]].
  destruct H as [He H]; [left|]. cbn in E. rewrite bool_decide_eq_true_2 in H; [|right; left].
  split; [exact He|]. split; [exact E|]. destruct H as [_ H]. specialize (H c1 eq_refl).
  destruct (run (handleDelete true c1) w1) as [[w3 tr3] [c3 e3]]. destruct H as [He3 Hc3].
  split; [exact He3|]. intros Hin. apply Hc3 in Hin as [_ Hin]. apply Hin. left.
Defined.

Lemma enoexec_rules_leak_witness :
  mkRef KPrometheusRule "execformaterrorsdetected"
  ∉ (daemonSetRefs ++ enoexecControllerRefs ++ enoexecMonitorRefs)%list.
Proof.
  apply (enoexec_rules_leak (mkRef KPrometheusRule "execformaterrorsdetected")).
  - apply (bool_decide_unpack _). vm_compute. exact I.
  - right. reflexivity.
Defined.

(** ** The exec format error handler *)

(** The container runtime's identifier of the failing container. *)
Definition containerID : string :=
  "cri-o://" +:+ String.concat "" (replicate 64 "a").
Definition failingEvent : ENoExecEvent :=
  mkENoExec "ev1" "operator" None "n1" "web" "shop" containerID.
Definition runningPod : CorePod :=
  mkPod (bareMeta "web" "shop")
    (mkPodSpec "n1" None None None [image "arm:1"] [] None) [mkCS "app" containerID].
Definition nodeLabels : GoMap string := Some {[ utils.ArchLabel := "amd64" ]}.

Definition nodeServer : Server HCall nat := λ T c n,
  (S n, match c in HCall T return T with
        | GetEvent => Ok failingEvent
        | UpdateEvent _ => None
        | DeleteEvent _ => None
        | GetPod _ _ => Ok runningPod
        | GetNode _ => Ok nodeLabels
        | RecordOnPod _ _ _ => tt
        | UpdatePod _ => None
        end).

Lemma nodeServer_ok : server_ok nodeServer (cluster_of failingEvent runningPod nodeLabels).
Proof. intros T c w. destruct c; cbn; try exact I; try reflexivity; intros; reflexivity. Defined.

Lemma handler_reports_witness :
  let '(_, tr, r) := @run _ _ nodeServer _ (ReconcileEvent "operator" true) 0 in
  (r = None
   ∧ tr = [mkEv GetEvent (Ok failingEvent); mkEv (GetPod "shop" "web") (Ok runningPod);
           mkEv (GetNode "n1") (Ok nodeLabels);
           mkEv (RecordOnPod "Warning" "ExecFormatError" (ExecFormatErrorEventMessage "app" "amd64")) tt;
           mkEv (UpdatePod (labelled runningPod)) None; mkEv (DeleteEvent failingEvent) None]).
Proof.
  apply (handler_reports "operator" true nodeServer 0 failingEvent runningPod nodeLabels nodeServer_ok);
    [reflexivity|discriminate|reflexivity|reflexivity].
Defined.

Lemma handler_only_labels_the_pod_witness :
  mlookup (om_Labels (p_Meta (labelled runningPod))) utils.ExecFormatErrorLabelKey = Some "true".
Proof.
  apply (handler_only_labels_the_pod "operator" true nodeServer 0 (labelled runningPod) None).
  do 4 right. left.
Defined.
