(* ===== verification/SystemWitnesses.v ===== *)
(** * The theorems at work, on a node and in a registry

    The second part of the witnesses: a kernel in which a task fails to execute, a
    node with its sandboxes, a registry, an API server and the interleavings at
    which the theorems about the daemon, the inspection of images, the informers
    and the objects of the operand apply. *)
From Stdlib Require Import Ascii.
From stdpp Require Import base gmap strings list relations.
From S2P Require Import Prelude GoStd Api LabelSelectors Models PodReconciler ImageInspect Prog Operator.
From S2P Require Import EnoexecHandler Bpf Tracepoint TracepointUser EnoexecDaemon ImageAuth Inspector.
From S2P Require Import CacheConcurrency Informers Manifests Permissions Apply Watches.
Import plugins v1beta1 models plainURL.

Open Scope string_scope.
Open Scope Z_scope.

(** ** A failing task *)

(** The task at 4096 with its thread group 1234 at offset 4 and, at offset 8, a
    pointer to its parent at 8192, whose thread group is 1. *)
Definition failingKernel : Kernel :=
  mkKernel LittleEndian (-8) 4096 (Some (λ _, 0))
    (λ a, if (4100 <=? a) && (a <? 4104) then to_bytes LittleEndian 4 1234 !! Z.to_nat (a - 4100)
          else if (4104 <=? a) && (a <? 4112) then to_bytes LittleEndian 8 8192 !! Z.to_nat (a - 4104)
          else if (8196 <=? a) && (a <? 8200) then to_bytes LittleEndian 4 1 !! Z.to_nat (a - 8196)
          else None).

Lemma program_correct_witness :
  ∃ m, run failingKernel (program 7 4 8) = Exited 0 m
       ∧ m_ring m = [(to_bytes LittleEndian 4 1 ++ to_bytes LittleEndian 4 1234)%list].
Proof.
  destruct (program_correct failingKernel 7 (Some 4) (Some 8) (program 7 4 8) ltac:(lia) eq_refl)
    as (tgid & parent & m & [= <-] & [= <-] & Hr & _ & Hring & _).
  exists m. split; [exact Hr|]. rewrite Hring. vm_compute. reflexivity.
Defined.

Lemma failingKernel_task : task_in_kernel failingKernel 4 8 1234 1 8192.
Proof. split; vm_compute; reflexivity. Defined.

(** *** The node of the task *)
Definition podUID : string := "15778196-6e1f-4b5d-8012-12c7bf5c04b3".
Definition cid : string := String.concat "" (replicate 64 "a").
Definition sandboxes : list PodSandbox := [None; Some (mkSandbox "web" podUID "shop")].

Definition nodeRuntime : Server RCall nat := λ T c n,
  (S n, match c in RCall T return T with
        | ReadCgroup _ => Ok (cgroupOf Burstable podUID cid)
        | DialCRI => None
        | ListPodSandbox => Ok sandboxes
        end).

Lemma nodeRuntime_ok :
  server_ok nodeRuntime (node_of 1234 (cgroupOf Burstable podUID cid) sandboxes).
Proof. intros T c w. destruct c; cbn; auto. Defined.

Lemma enoexec_detected_witness :
  ∃ mach raw, run failingKernel (program 7 4 8) = Exited 0 mach ∧ m_ring mach = [raw]
  ∧ (Prog.run (srv := nodeRuntime) (processRecord true LittleEndian raw) 0%nat).2
    = Ret (Ok (mkInternal "web" "shop" ("cri-o://" +:+ cid)))
  ∧ containerID_ok ("cri-o://" +:+ cid) = true.
Proof.
  apply (enoexec_detected failingKernel 7 4 8 1234 1 8192 ltac:(lia) ltac:(lia) ltac:(lia) nodeRuntime 0%nat
    Burstable podUID cid (mkSandbox "web" podUID "shop") [None] []).
  - lia.
  - reflexivity.
  - eexists. reflexivity.
  - exact failingKernel_task.
  - split; vm_compute; reflexivity.
  - split; vm_compute; reflexivity.
  - reflexivity.
  - discriminate.
  - repeat constructor. discriminate.
  - exact nodeRuntime_ok.
Defined.

Lemma bufferSize_ok_witness :
  ∃ pages, bufferSize 4096 256 = Ok (pages * 4096) ∧ 256 * 16 <= pages * 4096 < 256 * 16 + 4096.
Proof. apply (bufferSize_ok 4096 256); vm_compute; congruence. Defined.

(** ** The daemon *)

(** The ring buffer reader cannot be allocated. *)
Definition noReader : Server TCall nat := λ T c n,
  (S n, match c in TCall T return T with
        | NewMap _ _ => Ok 3
        | NewProgram _ _ => Ok 4
        | LinkTracepoint _ _ _ => Ok 5
        | NewReader _ => Err (errOther "epoll_create: too many open files")
        | CloseHandle _ => None
        end).

Definition freshTracepoint : Tracepoint :=
  mkTracepoint true None None None (Some 4) (Some 8) 4096 LittleEndian.

Lemma startRun_no_leak_witness :
  open_after (Prog.run (srv := noReader) (startRun true freshTracepoint) 0%nat).1.2 = Some [].
Proof.
  pose proof (startRun_no_leak noReader 0%nat true freshTracepoint eq_refl) as H.
  vm_compute in H. destruct H as (_ & H & _). vm_compute. exact H.
Defined.

Definition report : ENOEXECInternalEvent := mkInternal "web" "shop" ("cri-o://" +:+ cid).

(** An API server that answers with the object that is named, and at which every
    update of the status conflicts. *)
Definition localStorage : Server SCall nat := λ T c n,
  (S n, match c in SCall T return T with
        | NewUUID => "uuid"
        | LimiterWait => None
        | CreateEvent e => Ok e
        | GetStored ns name => Ok (mkENoExec name ns None "" "" "" "")
        | UpdateStatus _ => Some (mkErr KConflict "conflict")
        | RollbackEvent _ => None
        end).

(** After five attempts the object is rolled back. *)
Lemma processEvent_no_orphan_witness :
  let '(n, tr, r) := Prog.run (srv := localStorage) (processEvent true "operator" "n1" report) 0%nat in
  n = 13%nat ∧ settled (ToENoExecEvent "uuid" "operator" "n1" report) r tr.
Proof.
  pose proof (processEvent_no_orphan localStorage 0%nat true "operator" "n1" report) as H.
  assert (Hn : (Prog.run (srv := localStorage) (processEvent true "operator" "n1" report) 0%nat).1.1 = 13%nat)
    by (vm_compute; reflexivity).
  assert (Hc : omap createdObject
    (Prog.run (srv := localStorage) (processEvent true "operator" "n1" report) 0%nat).1.2
    = [ToENoExecEvent "uuid" "operator" "n1" report]) by (vm_compute; reflexivity).
  destruct (Prog.run (srv := localStorage) (processEvent true "operator" "n1" report) 0%nat) as [[n tr] r].
  split; [exact Hn|]. cbn [fst snd] in Hc. apply H.
  - intros T c w. destruct c; cbn; try exact I; intros x [= <-]; split; reflexivity.
  - rewrite Hc. left.
Defined.

(** An event is sent and waits in the channel. *)
Definition oneSent : Daemon :=
  mkDaemon (E := nat) false [7%nat] false true false TpReading MonWaiting StSelecting MainWaitCtx [7%nat] [].

Lemma oneSent_reachable : daemon_reachable 1 oneSent.
Proof.
  eapply rtc_l; [split; [repeat split; discriminate|apply step_start]|].
  eapply rtc_l; [split; [repeat split; discriminate|apply step_monitor_start]|].
  eapply rtc_l; [split; [repeat split; discriminate|apply step_read]|].
  eapply rtc_l; [split; [repeat split; discriminate|apply (step_record_event _ _ _ _ _ _ _ _ _ _ 7%nat)]|].
  eapply rtc_l; [split; [repeat split; discriminate|apply step_send; cbn; lia]|]. apply rtc_refl.
Defined.

Lemma daemon_channel_safe_witness :
  d_sent oneSent = (d_taken oneSent ++ d_chan oneSent)%list ∧ (length (d_chan oneSent) ≤ 1)%nat.
Proof.
  destruct (daemon_channel_safe 1 oneSent oneSent_reachable) as (H1 & H2 & _). split; [exact H1|exact H2].
Defined.

Lemma daemon_shutdown_witness : ∃ s', rtc (daemon_step 1) oneSent s' ∧ d_main s' = MainReturned.
Proof.
  apply (daemon_shutdown 1 oneSent ltac:(lia) oneSent_reachable ltac:(repeat split; discriminate)).
  intros [[H _]|(e & H & _)]; discriminate.
Defined.

(** ** Images *)

(** A registry that serves one image of a single architecture *)
Definition oneImage : Server ICall nat := λ T c n,
  (S n, match c in ICall T return T with
        | MemfdCreate _ => Ok 3
        | Ftruncate _ _ => None
        | Mmap _ _ => Ok 65536
        | CopyTo _ _ => tt
        | Munmap _ => None
        | AddSeals _ => None
        | CloseFd _ => None
        | InvalidateCache => tt
        | ResolveShortname _ name => Ok [name]
        | ParseReference _ => None
        | NewImageSource _ _ => Ok 1
        | CloseSource _ => None
        | GetManifest _ => Ok None
        | DefaultPolicy _ => None
        | NewPolicyContext => None
        | IsRunningImageAllowed _ _ => (true, None)
        | FromUnparsedImage _ _ => None
        | OCIConfig _ _ => Ok (None, "arm64")
        end).

Lemma oneImage_policy : server_ok oneImage policy_contract.
Proof. intros T c w. destruct c; cbn; try exact I. discriminate. Defined.

Lemma inspection_refines_witness :
  justified {["arm64"]}
    (Prog.run (srv := oneImage)
       (Inspector.GetCompatibleArchitecturesSet (λ _, None) (Ok "{}") "//quay.io/arm:1") 0%nat).1.2.
Proof.
  apply (inspection_refines oneImage 0%nat (λ _, None) (Ok "{}") "//quay.io/arm:1" {["arm64"]} oneImage_policy).
  vm_compute. reflexivity.
Defined.

Definition sha : string := "@sha256:abc".

Lemma parseImageReference_spec_witness :
  parseImageReference ("localhost:5000/app" +:+ ":" +:+ "v1" +:+ sha) = Ok ("localhost:5000/app" +:+ sha)
  ∧ parseImageReference ("localhost:5000/app" +:+ sha) = Ok ("localhost:5000/app" +:+ sha)
  ∧ parseImageReference ("localhost:5000/app" +:+ ":" +:+ "v1") = Ok ("localhost:5000/app" +:+ ":" +:+ "v1").
Proof.
  apply (parseImageReference_spec "localhost:5000/app" "v1" sha); try reflexivity; [discriminate|].
  right. exists "localhost", "5000/app". split; [reflexivity|]. split; reflexivity.
Defined.

(** One glob entry *)
Definition globAuths : Auths := {["*.io" := "secret"]}.
Definition expandedAuths : Auths := expandOne "//quay.io/team/app" "*.io" globAuths.

Lemma globAuths_expand : expandGlobs "//quay.io/team/app" globAuths expandedAuths.
Proof.
  apply (expand_initial _ _ _ "*.io"); [vm_compute; auto|].
  replace (dom globAuths ∖ {["*.io"]}) with (∅ : gset string) by (vm_compute; reflexivity).
  constructor.
Defined.

Lemma expandGlobs_safe_witness :
  expandedAuths !! "quay.io" = Some "secret"
  ∧ ∃ g gu iu, globAuths !! g = Some "secret"
     ∧ ParseSchemelessURL g = Some gu ∧ ParseSchemelessURL "quay.io/team/app" = Some iu
     ∧ ParseSchemelessURL "quay.io" = Some (with_Host (u_Host iu) gu)
     ∧ hostCovered gu iu ∧ hasPrefix (u_Path iu) (u_Path gu) = true.
Proof.
  split; [vm_compute; reflexivity|].
  apply (proj2 (expandGlobs_safe "//quay.io/team/app" globAuths expandedAuths globAuths_expand));
    vm_compute; reflexivity.
Defined.

(** The cache is asked twice. *)
Definition twice : list concurrent.Event :=
  [ concurrent.StoreSecret "s"; concurrent.ClearCache; concurrent.Lookup 0 "image" false;
    concurrent.ReadSecret 0; concurrent.RegistryAnswers 0 (Some {["amd64"]}); concurrent.Insert 0;
    concurrent.Tick 60 ].

Lemma concurrent_answers_witness :
  ∃ st a, concurrent.run twice (concurrent.start 0) = Some st
  ∧ a ∈ concurrent.c_log st ∧ concurrent.in_key a = "image" ∧ concurrent.in_set a = {["amd64"]}.
Proof.
  destruct (concurrent.run twice (concurrent.start 0)) as [st|] eqn:E; [|discriminate].
  exists st.
  destruct (concurrent.concurrent_answers twice 0 st "image" {["amd64"]}
    (image_cache.exp_Get (concurrent.c_now st) "image" (concurrent.c_entries st)).2 E) as (_ & a & Ha & Hk & Hs & _).
  - vm_compute in E. injection E as <-. vm_compute. reflexivity.
  - exists a. split; [reflexivity|]. split; [exact Ha|]. split; [exact Hk|exact Hs].
Defined.

(** ** Informers *)
Definition configAt (rv verbosity : string) : ClusterPodPlacementConfig :=
  mkCPPC (mkMeta "cluster" "" "" rv None None None None None) (mkCPPCSpec verbosity None None "").

(** The object is created, changed and deleted. *)
Definition configHistory : list (Delta ClusterPodPlacementConfig) :=
  [ Upsert (configAt "1" "Normal"); Upsert (configAt "1" "Normal"); Upsert (configAt "2" "Debug") ].

Lemma store_follows_cluster_witness :
  CPPCSyncer.GetClusterPodPlacementConfig (CPPCSyncer.run configHistory).2 = Some (configAt "2" "Debug").
Proof.
  refine (proj1 (CPPCSyncer.store_follows_cluster "cluster" configHistory _ _) (configAt "2" "Debug") _).
  - intros o o' Ho Ho' _. repeat (apply elem_of_cons in Ho as [->|Ho]); try (by apply elem_of_nil in Ho);
      repeat (apply elem_of_cons in Ho' as [->|Ho']); try (by apply elem_of_nil in Ho'); vm_compute; congruence.
  - repeat constructor.
  - vm_compute. reflexivity.
Defined.

Definition pullSecretAt (rv auth : string) : GlobalPullSecretSyncer.SecretObject :=
  GlobalPullSecretSyncer.mkSecretObject "pull-secret" rv
    (mkSecret "kubernetes.io/dockercfg" (Some {[".dockercfg" := auth]})).

Definition secretHistory : list (Delta GlobalPullSecretSyncer.SecretObject) :=
  [ Upsert (pullSecretAt "1" "old"); Upsert (pullSecretAt "2" "new") ].

Lemma pull_secret_follows_cluster_witness :
  image_cache.px_globalPullSecret
    (GlobalPullSecretSyncer.runSecrets Ok "pull-secret" secretHistory image_cache.newCacheProxy).2 = "new".
Proof.
  refine (proj1 (GlobalPullSecretSyncer.pull_secret_follows_cluster Ok "pull-secret" secretHistory
    image_cache.newCacheProxy _) (pullSecretAt "2" "new") "new" _ _).
  - intros o o' Ho Ho' _. repeat (apply elem_of_cons in Ho as [->|Ho]); try (by apply elem_of_nil in Ho);
      repeat (apply elem_of_cons in Ho' as [->|Ho']); try (by apply elem_of_nil in Ho'); vm_compute; congruence.
  - vm_compute. reflexivity.
  - vm_compute. reflexivity.
Defined.

(** The cluster around the handler, and around the daemon *)
Definition localHandler : Server HCall nat := λ T c n,
  (S n, match c in HCall T return T with
        | GetEvent => Ok (mkENoExec "ev1" "operator" None "n1" "web" "shop" ("cri-o://" +:+ cid))
        | UpdateEvent _ => None
        | DeleteEvent _ => None
        | GetPod _ _ => Err (mkErr KNotFound "pods not found")
        | GetNode _ => Ok None
        | RecordOnPod _ _ _ => tt
        | UpdatePod _ => None
        end).

Lemma localHandler_ok : server_ok localHandler (localEvents "operator").
Proof. intros T c w. destruct c; cbn; auto. Defined.

Lemma localStorage_ok : server_ok localStorage sameNamespace.
Proof. intros T c w. destruct c; cbn; auto. Defined.

Lemma permissions_suffice_witness :
  Forall (handlerMay "operator" "quay.io/op" (λ _, "") 0 17 None)
    (Prog.run (srv := localHandler) (ReconcileEvent "operator" true) 0%nat).1.2
  ∧ Forall (daemonMay "operator" "quay.io/op" (λ _, "") 0 17 None)
    (Prog.run (srv := localStorage) (processEvent true "operator" "n1" (mkInternal "web" "shop" cid)) 0%nat).1.2.
Proof.
  apply (permissions_suffice "operator" "quay.io/op" (λ _, "") 0 17 None localHandler localStorage 0%nat 0%nat
    true true "n1" (mkInternal "web" "shop" cid) localHandler_ok localStorage_ok).
Defined.

(** A deployment whose spec, labels and owner somebody else changed, and whose hash
    they removed, after it was created *)
Definition wanted (replicas : string) : @Required string :=
  mkRequired ∅ ∅ {["ClusterPodPlacementConfig/cluster" := "uid-1"]} replicas.
Definition config : Watched string := mkWatched 1 None [] "three replicas" "".

Definition firstWorkload : @Workload string :=
  mkWorkload ∅ {[specHashAnnotation := "three replicas"]}
    {["ClusterPodPlacementConfig/cluster" := "uid-1"]} 1 "three replicas".
Definition created : Loop := reconcileWorkload id id true wanted (loop_start config).
Definition tamperedWorkload : @Workload string :=
  mkWorkload {["app" := "other"]} ∅ ∅ 2 "one replica".
Definition tampered : Loop := mkLoop config (mkTracked (Some tamperedWorkload) (Some 1)) true.

Lemma tampered_reachable :
  rtc (loop_step id id true wanted "ClusterPodPlacementConfig/cluster" "uid-1") (loop_start config) tampered.
Proof.
  eapply rtc_l; [apply lp_reconcile; reflexivity|].
  eapply rtc_l; [|apply rtc_refl].
  apply (lp_drift id id true wanted "ClusterPodPlacementConfig/cluster" "uid-1" config
    (lp_Workload created) (mkTracked (Some tamperedWorkload) (Some 1)) true).
  assert (E : lp_Workload created = mkTracked (Some firstWorkload) (Some 1)) by (vm_compute; reflexivity).
  rewrite E. unfold tamperedWorkload. change 2 with (nextGeneration true ∅ "one replica" firstWorkload).
  apply ws_write. right. intros spec H. vm_compute in H. discriminate H.
Defined.

Lemma operator_repairs_witness :
  ∃ e, tr_Object (lp_Workload (reconcileWorkload id id true wanted tampered)) = Some e
       ∧ conforms id id (wanted "three replicas") e.
Proof.
  destruct (operator_repairs id id true wanted "ClusterPodPlacementConfig/cluster" "uid-1"
    (λ a b H, H) (λ c, lookup_insert_eq _ _ _) config tampered tampered_reachable) as (_ & H & _).
  exact H.
Defined.
