(* ===== verification/ClusterWitnesses.v ===== *)
(** * The theorems about the system at work

    The third part of the witnesses: the runs of [SystemRuns], with the evaluator,
    the registry and the pods of [Witnesses]. *)
From stdpp Require Import base gmap strings list relations pretty.
From S2P Require Import Prelude GoStd Api LabelSelectors Models CelEval Events PodModel PodTheorems.
From S2P Require Import PodReconciler ReconcilerTheorems Webhook Prog Operator OperatorTheorems.
From S2P Require Import EnoexecHandler Teardown Validation CelSchema.
From S2P Require Import ImageInspect ImageAuth Transparency OperatorTraces System PodQueue SystemRuns Witnesses.
Import plugins v1beta1 models events image_cache plainURL.

Definition stuckCluster : ApiState := @interrupted World worldCel None.
Definition stuckPod : CorePod := @admitted0 World worldCel None.

Lemma system_holds_finalizer_witness :
  ∃ r, as_Config stuckCluster = Some r
       ∧ utils.PodPlacementFinalizerName ∈ reply_finalizers r.
Proof.
  destruct (@interrupted_reachable World worldCel worldImages listOrder None) as [ls H].
  pose proof (@system_holds_finalizer World worldCel worldImages listOrder true now0 ls None None
    stuckCluster None H) as Hf.
  apply Hf; [vm_compute; reflexivity|]. right. left. exists (key_of pod0), stuckPod.
  split; [vm_compute; reflexivity|]. split; [vm_compute; reflexivity|].
  apply (bool_decide_unpack _). vm_compute. exact I.
Defined.

(** Four reconciles of a pod whose images cannot be inspected, and that has failed once
    before. *)
Definition failedPod : CorePod :=
  pod_obj (EnsureLabel utils.ImageInspectionErrorCountLabel "1" brokenPod).
Definition brokenKey : Key := key_of (pod_obj brokenPod).
Definition brokenCluster : ApiState := set_Pods [] {[ brokenKey := failedPod ]} cluster_up.
Definition reconciledCluster : ApiState * World :=
  Nat.iter 4 (@reconcile_pod World worldCel worldImages listOrder (envOf []) brokenKey) (brokenCluster, None).

Lemma system_releases_pods_witness :
  gated failedPod = true ∧
  match as_Pods reconciledCluster.1 !! brokenKey with Some q => gated q = false | None => True end.
Proof.
  split; [reflexivity|].
  pose proof (@reconcile_pod_steps World worldCel worldImages listOrder true now0
    (envOf []) brokenKey 4 brokenCluster None None (envOf_lists [])) as H.
  pose proof (@system_releases_pods World worldCel worldImages listOrder true now0
    (replicate 4 (LReconcile brokenKey)) brokenCluster None None
    reconciledCluster.1 None reconciledCluster.2 brokenKey failedPod) as Hr.
  apply Hr.
  - unfold reconciledCluster. destruct (Nat.iter _ _ _) as [s' w'].
    apply H; vm_compute; by eexists.
  - intros Hin. apply elem_of_replicate in Hin as [? _]. done.
  - intros Hin. apply elem_of_replicate in Hin as [? _]. done.
  - vm_compute. reflexivity.
  - vm_compute. discriminate.
  - vm_compute. discriminate.
  - vm_compute. reflexivity.
Defined.

(** The whole [handleDelete] runs on the abandoned cluster, in vain. *)
Lemma removal_stuck_without_controller_witness :
  abandoned (key_of pod0) stuckPod (operator_runs true now0 200 stuckCluster)
  ∧ ∃ r, as_Config (operator_runs true now0 200 stuckCluster) = Some r
         ∧ utils.PodPlacementFinalizerName ∈ reply_finalizers r.
Proof.
  destruct (@operator_steps World worldCel worldImages listOrder true now0 200
    stuckCluster None) as (ls & Hs & Hl).
  apply (@removal_stuck_without_controller World worldCel worldImages listOrder true now0 ls None None
    stuckCluster (operator_runs true now0 200 stuckCluster) None (key_of pod0) stuckPod
    (@interrupted_abandoned World worldCel None) Hs).
  - intros Hin. rewrite Forall_forall in Hl. by apply Hl in Hin.
  - intros Hin. rewrite Forall_forall in Hl. by apply Hl in Hin.
Defined.

(** ** The caches *)

(** A registry that counts the requests, which is also the clock; a secret that is the
    name of the registry it is for; a cache in which a first inspection left its answer. *)
Definition toyInspect (_ image : string) (_ : list string) (n : Z) : Z * res (gset string) :=
  ((n + 1)%Z, toyRegistry image true).
Definition toyAnswers (image : string) (_ : res string) : res (gset string) := toyRegistry image true.
Definition toyUnmarshal (s : string) : option Auths := Some {[ s := "token" ]}.
Definition toyMarshal (ac : Auths) : res string := Ok (pretty (Npos (encode ac))).
Definition toyCredentials : string → list string → res string :=
  credentials toyUnmarshal toyMarshal expandInOrder.

Lemma toyMarshal_inj a b x : toyMarshal a = Ok x → toyMarshal b = Ok x → a = b.
Proof. intros [= <-] [= E]. apply (inj pretty) in E. injection E as E. symmetry. exact (inj encode _ _ E). Defined.

(** Pods bring a secret for [quay.io]. *)
Definition secretEnv : Env :=
  let env := envOf [] in
  mkEnv (env_operatorNamespace env) (env_cppc env) (env_listCached env) (env_listAPI env) (env_keyOk env)
    (env_valueOk env) (env_sort env)
    (λ _ _, Ok (mkSecret "kubernetes.io/dockercfg" (Some {[ ".dockercfg" := "quay.io" ]}))) (env_auths env).
Definition warmKey : string :=
  computeHash id "//multi:1" (match toyCredentials "//multi:1" ["quay.io"] with Ok a => a | Err _ => "" end).
Definition warmProxy : Proxy := mkProxy [(warmKey, ({[ "amd64"; "arm64" ]} : gset string, 100%Z))] "".
Definition warmWorld : World * (Proxy * Z) := (None, (warmProxy, 7%Z)).
Definition cachedPod : CorePod :=
  pod_obj (podOf (mkPodSpec "" None None (Some [utils.SchedulingGateName]) [image "multi:1"] [] (Some ["pull"]))).

Abbreviation cachedReconcile :=
  (@PodReconciler.Reconcile _ (@program_cel toyCel Z)
    (@program_images toyCel Z toyInspect id id toyUnmarshal toyMarshal expandInOrder)
    listOrder secretEnv (Ok cachedPod) Ok None warmWorld).

(** The image comes from the cache: the registry is not asked, and the pod is the
    one that asking it would give. *)
Lemma caches_transparent_witness :
  let '(w', r) := cachedReconcile in
  r = (@PodReconciler.Reconcile _ (@pure_cel toyCel)
         (@pure_images "" toyUnmarshal toyMarshal expandInOrder toyAnswers) listOrder secretEnv
         (Ok cachedPod) Ok None tt).2 ∧ w'.2.2 = 7%Z.
Proof.
  pose proof (@caches_transparent toyCel Z toyInspect id id "" listOrder listOrder_ok plain_NetURL toyUnmarshal
    toyMarshal expandInOrder toyAnswers (λ _ _ _, eq_refl) expandInOrder_ok toyMarshal_inj (λ _ _ E, E)
    secretEnv cachedPod Ok None warmWorld) as H.
  assert (Hk : (cachedReconcile).1.2.2 = 7%Z) by (vm_compute; reflexivity).
  destruct cachedReconcile as [w' r].
  split; [|exact Hk]. apply H.
  - intros ns name d [= <-] auths [= <-] reg [x Hx]. apply lookup_singleton_Some in Hx as [<- _]. reflexivity.
  - intros c Hc. apply list_elem_of_singleton in Hc as ->. reflexivity.
  - split; [exact I|]. split; [reflexivity|]. constructor; [|constructor].
    apply (entry_true_add toyCredentials id (answers "" toyUnmarshal toyMarshal expandInOrder toyAnswers)
      (plain_secret toyUnmarshal) (answers_determined "" toyUnmarshal toyMarshal expandInOrder toyAnswers
         expandInOrder_ok toyMarshal_inj) (λ _ _ E, E) "//multi:1" ["quay.io"]); [reflexivity| |vm_compute; reflexivity..].
    constructor; [|constructor]. intros auths [= <-] reg [x Hx]. apply lookup_singleton_Some in Hx as [<- _]. reflexivity.
Defined.

(** ** The teardown of the exec format error monitor *)

(** Two events are left: one that can be reported, one that names no pod. *)
Definition leftEvents : @EventWorld nat :=
  mkEW {[ "ev1" := failingEvent;
          "ev2" := mkENoExec "ev2" "operator" None "n1" "" "" "" ]} 0.
Definition drainedEvents : gmap string ENoExecEvent :=
  ew_events (reconcileAll "operator" true nodeServer ["ev2"; "ev1"] leftEvents).

Definition listingServer : Server Call nat := λ T c n,
  match c in Call T return nat * T with
  | ListENoExecEvents => (S n, Ok (items_of drainedEvents))
  | c' => tidyServer _ c' n
  end.

Lemma listingServer_cooperates : server_ok listingServer (cooperates_with drainedEvents).
Proof.
  intros T c w. pose proof (tidyServer_cooperates T c w) as H. destruct c; try exact H. reflexivity.
Defined.

(** The first is reported and gone, the second is marked, and the operator finishes. *)
Lemma teardown_drains_witness :
  dom drainedEvents = {[ "ev2" ]} ∧
  let '(_, _, r) := @run _ _ listingServer _
    (handleEnoexecDelete true (deletingConfig [utils.ExecFormatErrorFinalizerName])) 0 in
  r.2 = None ∧ (utils.ExecFormatErrorFinalizerName ∉ cf_Finalizers r.1).
Proof.
  split; [apply (bool_decide_unpack _); vm_compute; exact I|].
  pose proof (teardown_drains true "operator" true nodeServer ["ev2"; "ev1"] leftEvents
    (deletingConfig [utils.ExecFormatErrorFinalizerName]) listingServer 0) as H.
  destruct (@run _ _ listingServer _ (handleEnoexecDelete true _) 0) as [[x' tr] r].
  destruct H as (H1 & H2 & _); [| |exact listingServer_cooperates|split; [exact H1|exact H2]].
  - intros n e. cbn. rewrite lookup_insert_Some, lookup_singleton_Some. naive_solver.
  - intros n [e He]. cbn in He. rewrite lookup_insert_Some, lookup_singleton_Some in He. set_solver.
Defined.

(** ** The schema of the rules *)
Lemma schema_sound_witness :
  evalPath (podToMap (Some cachedPod)) (ESelect (ESelect selfMetadata "labels") "app") = Err (noSuchKey "app")
  ∧ evalPath (podToMap (Some cachedPod)) (ESelect selfMetadata "name") = Ok (DStr "web")
  ∧ assertMetadataOnly (ESelect selfMetadata "name") "rule" = None.
Proof.
  split; [|split].
  - destruct (schema_sound (Some cachedPod) (ESelect (ESelect selfMetadata "labels") "app") StringType "rule" eq_refl)
      as [[(v & Hv & _)|(f & k & _ & [= -> ->] & _ & He)] _]; [discriminate Hv|exact He].
  - reflexivity.
  - apply (schema_sound (Some cachedPod) (ESelect selfMetadata "name") StringType "rule" eq_refl).
Defined.

(** ** The controller of the pods *)
Definition cachedKey : Key := key_of cachedPod.
Definition ctlStart : Ctl := @ctl_start World {[ cachedKey := (cachedPod, 0) ]} 1 None.

(** The worker's reconcile, and the update it sends. *)
Definition cachedRun : World * ReconcileResult :=
  @PodReconciler.Reconcile World worldCel worldImages listOrder (envOf []) (Ok cachedPod) Ok None None.
Definition cachedSent : CorePod := default cachedPod (rr_sent cachedRun.2).

Definition beforeUpdate : Ctl := take cachedKey (deliver cachedKey ctlStart).
Definition afterUpdate : Ctl :=
  release cachedKey cachedRun.1 (write cachedKey (Some cachedSent) beforeUpdate).
Definition ctlEnd : Ctl := take cachedKey (deliver cachedKey afterUpdate).

Lemma update_step : @ctl_step World worldCel worldImages listOrder beforeUpdate afterUpdate.
Proof.
  apply (@ctl_stored World worldCel worldImages listOrder beforeUpdate afterUpdate cachedKey cachedPod 0 cachedPod
    (envOf []) None cachedRun.1 cachedRun.2 false); [vm_compute; reflexivity..|].
  refine (put_event cachedKey cachedSent (release cachedKey cachedRun.1 beforeUpdate) (cachedPod, 0) _ _);
    [vm_compute; reflexivity|].
  intros E. assert (gated cachedSent = gated cachedPod) as H by (exact (f_equal gated E)).
  vm_compute in H. discriminate H.
Qed.

(** The pod is delivered, released, and delivered again; then nothing is pending. *)
Lemma no_gated_pod_forgotten_witness :
  ct_Pods ctlEnd !! cachedKey = Some (cachedSent, 1) ∧ gated cachedSent = false.
Proof.
  assert (H : ct_Pods ctlEnd !! cachedKey = Some (cachedSent, 1)) by (vm_compute; reflexivity).
  split; [exact H|].
  destruct (@no_gated_pod_forgotten World worldCel worldImages listOrder {[ cachedKey := (cachedPod, 0) ]} 1 None ctlEnd)
    as [_ Hq].
  - intros k x. rewrite lookup_singleton_Some. intros [_ <-]. cbn. lia.
  - eapply rtc_l; [apply (@ctl_deliver _ worldCel worldImages listOrder ctlStart cachedKey); apply (bool_decide_unpack _); vm_compute; exact I|].
    eapply rtc_l; [apply (@ctl_take _ worldCel worldImages listOrder (deliver cachedKey ctlStart) cachedKey);
      [apply (bool_decide_unpack _); vm_compute; exact I|vm_compute; reflexivity]|].
    eapply rtc_l; [exact update_step|].
    eapply rtc_l; [apply (@ctl_deliver _ worldCel worldImages listOrder afterUpdate cachedKey); apply (bool_decide_unpack _); vm_compute; exact I|].
    eapply rtc_l; [apply (@ctl_take _ worldCel worldImages listOrder (deliver cachedKey afterUpdate) cachedKey);
      [apply (bool_decide_unpack _); vm_compute; exact I|vm_compute; reflexivity]|].
    apply rtc_refl.
  - apply (Hq ltac:(apply (bool_decide_unpack _); vm_compute; exact I)
             ltac:(apply (bool_decide_unpack _); vm_compute; exact I)
             ltac:(vm_compute; reflexivity) cachedKey cachedSent 1 H).
Defined.
