(* ===== verification/FlowWitnesses.v ===== *)
(** * The runs of queues, caches and events at work

    The last part of the witnesses: the controller of the pods drained, the events of
    the exec format error monitor from the node to the pod, and the configurations seen
    through a lagging informer. *)
From stdpp Require Import base gmap strings list relations.
From S2P Require Import Prelude GoStd Api LabelSelectors NodeMatch Models ArchConstraints CelEval Events PodModel PodTheorems.
From S2P Require Import PodReconciler ReconcilerTheorems Webhook Prog Operator OperatorTheorems.
From S2P Require Import LruRing ExpirableLru SimpleLru TracepointUser EnoexecHandler EnoexecDaemon System PodQueue PodDrain ConfigLag.
From S2P Require Import Teardown EventFlow EventRuns Witnesses ClusterWitnesses.
Import plugins v1beta1 models events.

(** ** The pods are released *)

(** A pod whose image cannot be inspected, just delivered. *)
Definition brokenStart : Ctl := @ctl_start World {[ brokenKey := (pod_obj brokenPod, 0) ]} 1 None.

Lemma pods_released_witness :
  gated (pod_obj brokenPod) = true ∧
  ∃ s', rtc (@ctl_step World worldCel worldImages listOrder) (deliver brokenKey brokenStart) s'
    ∧ ct_Queue s' = ∅ ∧ ∀ k p v, ct_Pods s' !! k = Some (p, v) → gated p = false.
Proof.
  split; [reflexivity|].
  destruct (@pods_released World worldCel worldImages listOrder (envOf []) None mergeSort_ok (envOf_lists [])
    ltac:(intros ns items [= <-]; constructor) {[ brokenKey := (pod_obj brokenPod, 0) ]} 1 None
    (deliver brokenKey brokenStart)) as (s' & _ & Hr & _ & _ & _ & Hn).
  - intros k x. rewrite lookup_singleton_Some. intros [_ <-]. cbn. lia.
  - apply rtc_once, ctl_deliver. apply (bool_decide_unpack _); vm_compute; exact I.
  - destruct Hn as (_ & Hq & Hg).
    + intros k (p & v & Hp & _ & He). apply He. cbn in Hp. apply lookup_singleton_Some in Hp as [_ [= <- _]].
      apply (bool_decide_unpack _). vm_compute. exact I.
    + exists s'. split; [exact Hr|]. split; [exact Hq|exact Hg].
Defined.

(** A pod with an empty term among its required ones *)
Definition emptyTermPod : Pod :=
  podOf (mkPodSpec "" None
    (Some (mkAff (Some (mkNA (Some (mkNS (Some [diskTerm; mkNST None None]))) None)) None None))
    (Some [utils.SchedulingGateName]) [image "multi:1"] [] None).

(** The reconciler fills the term, which the API server does not allow: the update is
    refused, no failure is counted, and the pod stays gated. *)
Theorem empty_term_strands_pod :
  gated (pod_obj emptyTermPod) = true
  ∧ let q := (@processPod World worldCel worldImages listOrder (envOf []) emptyTermPod None).2 in
    HasSchedulingGate q = false ∧ ¬ directives_ok (spec_of emptyTermPod) (spec_of q).
Proof.
  split; [reflexivity|]. cbv zeta. split; [vm_compute; reflexivity|].
  apply (bool_decide_unpack _). vm_compute. exact I.
Qed.

(** ** An exec format error is reported *)

(** The pod of the event runs on its node. *)
Definition reportedPod : CorePod := mkPod (bareMeta "web" "shop") (mkPodSpec "n1" None None None [image "arm:1"] [] None) [].
Definition shop : Moment :=
  mkMoment {[ ("shop", "web") := reportedPod ]} {[ "n1" := Some {[ utils.ArchLabel := "amd64" ]} ]}.
Definition eventKey : Key := ("operator", "u1").

Lemma shop_keyed : keyed_pods shop.
Proof. intros k p. cbn. rewrite lookup_singleton_Some. intros [<- <-]. reflexivity. Defined.

(** The daemon stores the event, and the handler reads it, once before it has a
    status, so that it is marked, and once after. *)
Definition report_script : list Act :=
  [AEvent 0 "operator" "n1" (mkInternal "web" "shop" "cri-o://c1");
   AStore 0 false "u1"; AStore 0 false "u2"; AStore 0 false "u2";
   ADeliver eventKey; ATake eventKey; ARequest eventKey false; ARequest eventKey false; AReturn eventKey;
   AStore 0 false "u2"; AStop 0; ADeliver eventKey; ATake eventKey].

Definition played (script : list Act) (m : Moment) : Flow :=
  default (flow_start m) (play "operator" true script (flow_start m)).

(** The call of the handler is carried through: it labels the pod and deletes the event. *)
Definition reported : Flow := played (report_script ++ replicate 6 (ARequest eventKey false)) shop.

Lemma played_steps script m :
  is_Some (play "operator" true script (flow_start m)) → rtc (flow_step "operator" true) (flow_start m) (played script m).
Proof. intros [s Hs]. unfold played. rewrite Hs. exact (play_sound _ _ _ _ _ Hs). Defined.

Lemma reported_steps : rtc (flow_step "operator" true) (flow_start shop) reported.
Proof. apply played_steps, (bool_decide_unpack _). vm_compute. exact I. Defined.

Lemma no_report_lost_witness :
  eventKey ∈ sv_Published (fl_Srv reported) ∧ sv_Events (fl_Srv reported) !! eventKey = None
  ∧ ∃ y moments m, sv_Named (fl_Srv reported) !! eventKey = Some y
      ∧ sv_Gone (fl_Srv reported) !! eventKey = Some (ByHandler moments) ∧ m ∈ moments ∧ told y m.
Proof.
  assert (Hk : eventKey ∈ sv_Published (fl_Srv reported)) by (apply (bool_decide_unpack _); vm_compute; exact I).
  assert (He : sv_Events (fl_Srv reported) !! eventKey = None) by (vm_compute; reflexivity).
  split; [exact Hk|]. split; [exact He|].
  pose proof (no_report_lost "operator" true shop reported eventKey shop_keyed reported_steps Hk) as H.
  cbv zeta in H. rewrite He in H. destruct H as (y & Hy & _ & _ & Hg).
  destruct (sv_Gone (fl_Srv reported) !! eventKey) as [[moments|labels|]|] eqn:Hgone;
    [|vm_compute in Hgone; discriminate Hgone..].
  destruct Hg as (m & Hm & Ht). exists y, moments, m. split; [exact Hy|]. split; [reflexivity|]. split; [exact Hm|exact Ht].
Defined.


(** ** A configuration that the webhook does not see

    The informer has had its first listing, when there was no configuration; one was
    stored since, but its event has not arrived. *)
Definition unseen : View := mkView {[ ("shop", "cel") := celPPC 9 ["arm64"] ]} ∅ [Stored ("shop", "cel") (celPPC 9 ["arm64"])] 0.
Definition seen : View := mkView {[ ("shop", "cel") := celPPC 9 ["arm64"] ]} {[ ("shop", "cel") := celPPC 9 ["arm64"] ]} [] 0.

(** A pod that prefers its own architecture in one of two alternatives. *)
Definition amd64Term : NodeSelectorTerm := mkNST (Some [mkNSR utils.ArchLabel NodeSelectorOpIn (Some ["amd64"])]) None.
Definition twoTermsPod : CorePod :=
  mkPod (bareMeta "web" "shop")
    (mkPodSpec "" None (Some (mkAff (Some (mkNA (Some (mkNS (Some [amd64Term; diskTerm]))) None)) None None))
       None [image "multi:1"] [] None) [].

Definition shopWebhook : WebhookEnv :=
  mkWEnv "openshift-multiarch-tuning-operator" (Some (clusterConfig "amd64")) (λ _, Ok []) None None
    (λ _, true) (λ _ _, true) mergeSort (λ _, None) (λ _, None).

Definition admitted (v : View) : CorePod :=
  match @Webhook.Handle World worldCel (lagging_wh v shopWebhook) (Ok twoTermsPod) None None with
  | Ret (_, Patched p) => p
  | _ => twoTermsPod
  end.

Lemma unseen_reachable : rtc view_step (view_start ∅) unseen ∧ view_synced unseen = true.
Proof.
  split; [|reflexivity]. apply rtc_once.
  exact (view_change (view_start ∅) (Stored ("shop", "cel") (celPPC 9 ["arm64"]))).
Defined.

Lemma unseen_delivered : view_step unseen seen.
Proof. exact (view_deliver unseen _ [] eq_refl). Defined.

Definition strandedPod : Pod := NewPod (admitted unseen) None.
Definition seenEnv : Env := lagging seen (envOf []).

(** The webhook gates the pod without applying the configuration, and whatever the
    evaluator has cached, the update that the reconciler makes once the configuration
    has arrived is one that the API server refuses for a gated pod; had the webhook seen
    the configuration, the update would be lawful. *)
Theorem unseen_config_strands_pod :
  gated (admitted unseen) = true
  ∧ (∀ w, @cel_inv World worldCel worldCelOk w →
      ¬ directives_ok (spec_of strandedPod)
          (spec_of (@processPod World worldCel worldImages listOrder seenEnv strandedPod w).2))
  ∧ directives_ok (p_Spec (admitted seen))
      (spec_of (@processPod World worldCel worldImages listOrder seenEnv (NewPod (admitted seen) None) None).2).
Proof.
  split; [vm_compute; reflexivity|]. split.
  2: { apply (bool_decide_unpack _). vm_compute. exact I. }
  intros w Hw.
  pose proof (@late_config_refused World worldCel worldCelOk worldImages listOrder seenEnv strandedPod
    [celPPC 9 ["arm64"]] (Some ["arm64"]) w amd64Term (mkNSR utils.ArchLabel NodeSelectorOpIn (Some ["amd64"]))
    Hw ltac:(vm_compute; reflexivity)) as H.
  cbv zeta in H. destruct (shouldIgnorePod _ _ _ strandedPod) as [ignore p0] eqn:Hs. vm_compute in Hs.
  injection Hs as <- <-. apply H; clear H.
  - reflexivity.
  - vm_compute. reflexivity.
  - vm_compute. by left.
  - vm_compute. by left.
  - reflexivity.
  - intros [=].
Qed.

(** ** The cache with expiry

    The goroutine empties the buckets in turn, each in the order of the map. *)
Section cache.
Import expirable.

Definition ready (op : @Op string) (s : @St string) : bool :=
  match op with
  | OWait => cleans (st_lru s) && bool_decide (st_cleaner s = None)
  | ODelete ents =>
      match st_cleaner s with
      | Some (i, until) => (until <=? st_now s)%Z &&
          bool_decide (Some ents = (λ b, (map_to_list (b_entries b)).*2) <$> x_buckets (st_lru s) !! Z.to_nat i)
      | None => false
      end
  | _ => true
  end.

Lemma ready_enabled op s : ready op s = true → enabled op s.
Proof.
  destruct op; cbn; try done.
  - intros [? ?]%andb_prop. by split; [|eapply bool_decide_eq_true_1].
  - destruct (st_cleaner s) as [[i until]|]; [|done]. intros [Hle Hb]%andb_prop. apply bool_decide_eq_true_1 in Hb.
    destruct (x_buckets (st_lru s) !! Z.to_nat i) as [b|] eqn:E; [|done]. injection Hb as ->.
    exists i, until, b. apply Z.leb_le in Hle. by split_and!.
Qed.

Fixpoint perform (ops : list (@Op string)) (s : @St string) : option (list (@Op string * @Ans string) * @St string) :=
  match ops with
  | [] => Some ([], s)
  | op :: ops' =>
      if ready op s then
        '(s1, a) ← exec "" op s; '(tr, s2) ← perform ops' s1; Some ((op, a) :: tr, s2)
      else None
  end.

Lemma perform_runs ops s tr s' : perform ops s = Some (tr, s') → runs "" s tr s'.
Proof.
  revert s tr. induction ops as [|op ops IH]; intros s tr; cbn; [intros [= <- <-]; constructor|].
  destruct (ready op s) eqn:Hr; [|done]. destruct (exec "" op s) as [[s1 a]|] eqn:Hx; cbn; [|done].
  destruct (perform ops s1) as [[tr1 s2]|] eqn:Hp; cbn; [|done]. intros [= <- <-].
  econstructor; [by apply ready_enabled|exact Hx|by apply IH].
Qed.

(** A cache of two entries that live for ten seconds: the third entry pushes the oldest
    out; after eleven seconds the others have expired, and when the goroutine has come
    round to their bucket they are gone. *)
Definition cacheOps : list (@Op string) :=
  [OAdd "a" "1"; OAdd "b" "2"; OAdd "c" "3"; OGet "b"; OGet "a"; OTick 11; OGet "b"; OLen]
  ++ concat (replicate 99 [OWait; ODelete []]) ++ [OWait; ODelete [3; 2]; OLen].
Definition cacheStart : @St string := mkSt 0 (NewLRU 2 10) None.

Lemma expirable_refines_witness :
  ∃ tr s a, perform cacheOps cacheStart = Some (tr, s)
    ∧ firstn 8 tr.*2 = [ABool false; ABool false; ABool true; AValue (Some "2"); AValue None; ANone; AValue None; AInt 2]
    ∧ last tr.*2 = Some (AInt 0) ∧ aruns "" 10 (mkASt 0 2 []) tr a ∧ length (a_list a) = 0.
Proof.
  destruct (perform cacheOps cacheStart) as [[tr s]|] eqn:E; [|by vm_compute in E].
  destruct (expirable_refines "" 0 2 10 tr s (perform_runs _ _ _ _ E)) as [(a & Ha & _ & _ & Hl) _].
  exists tr, s, a. split; [reflexivity|].
  assert (Htr : (firstn 8 tr.*2, last tr.*2, Len s.(st_lru)) =
    (firstn 8 (default ([], cacheStart) (perform cacheOps cacheStart)).1.*2,
     last (default ([], cacheStart) (perform cacheOps cacheStart)).1.*2,
     Len (default ([], cacheStart) (perform cacheOps cacheStart)).2.(st_lru))) by (rewrite E; reflexivity).
  vm_compute in Htr. injection Htr as H1 H2 H3. split; [exact H1|]. split; [exact H2|]. split; [exact Ha|].
  change (Len (st_lru s) = 0%Z) in H3. rewrite H3 in Hl. lia.
Defined.

(** A lookup saves the older of two entries from the insertion of a third. *)
Definition useOps : list (@simplelru.Op nat) :=
  [simplelru.OAdd "a" 1; simplelru.OAdd "b" 2; simplelru.OGet "a"; simplelru.OAdd "c" 3; simplelru.OKeys].

Lemma simple_refines_witness :
  ∃ c', simplelru.execs useOps (simplelru.mkLRU 2 NewList ∅)
        = Some (c', [simplelru.ABool false; simplelru.ABool false; simplelru.AValue (Some 1);
                     simplelru.ABool true; simplelru.AKeys ["a"; "c"]]).
Proof. exact (simplelru.simple_refines 2 (simplelru.mkLRU 2 NewList ∅) useOps eq_refl). Defined.
End cache.
